(* ===== verification/_CoqProject ===== *)
-Q . S2P
Prelude.v
Buffer.v
WebSocketFrame.v
Poller.v
TcpConnection.v
HttpRequest.v
HttpResponse.v
Metrics.v
RateLimiter.v
CircuitBreaker.v
Snowflake.v
Gzip.v
HttpCore.v
HttpServer.v
ConnectionCalls.v
HttpConnection.v
HttpClient.v
HttpSession.v
HttpEndToEnd.v
WebSocketServer.v
WsConnection.v
LoadBalancer.v
TimerQueue.v
EventLoop.v
TcpServer.v
TcpClient.v
Config.v
ConnectionPool.v
WebSocketClient.v
WsEndToEnd.v
ServiceCatalog.v
ServiceLeases.v
Registry.v
MultipartParser.v
RpcPb.v
Rpc.v
ThreadPool.v
ObjectPool.v
AsyncLogger.v
DbPool.v
MySQL.v
HttpsServer.v
RegistryClient.v
Threads.v
Redlock.v
EtcdClient.v
Kafka.v
Sockets.v
System.v
