(* ===== verification/Prelude.v ===== *)
(** * mymuduo-http: a verification development (root file)

    The library under [src/src/] is a reactor network library in C++ (event
    loops, channels, a poller, TCP connections) with protocol layers above it:
    HTTP and HTTPS servers, an HTTP client, WebSocket server and client, remote
    calls in JSON and in protobuf, a service registry, clients and pools for
    MySQL, Redis, etcd and Kafka, thread and object pools, a logger, and
    utilities for rate limits, retries, identifiers, locks and balancing.

    ** How the parts interact

    A loop thread ([EventLoop]) polls for events, dispatches each to the
    callbacks of its channel ([Poller]), ticks its timing wheel
    ([TimerQueue]) and then runs the functors other threads queued.
    [TcpServer] accepts connections and [TcpClient] makes them; each
    connection ([TcpConnection]) owns an input and an output buffer
    ([Buffer]).  A protocol layer is the message callback of its connections:
    [HttpServer] and [HttpsServer] over [HttpCore] (requests, responses,
    routing, middlewares, the rate limiter, gzip, metrics), [WebSocketServer]
    over the frame codec ([WebSocketFrame]), [HttpClient] and
    [WebSocketClient] at the other end, [RpcPb] with its own frames.  The
    registry and [Rpc] are handlers of an HTTP server.  [HttpConnection]
    and [WsConnection] put the servers on a TCP connection, [HttpEndToEnd]
    and [WsEndToEnd] a client at the other end of it.  The blocking clients (registry, etcd,
    JSON calls) use sockets of their own ([Sockets]).

    ** Files, and the code they model (paths under [src/src/])

    - [Prelude]: texts as lists of characters with the operations of
      [std::string] the code uses ([find], [substr], [stoi], [stoul]); machine
      integers as [Z] with [i32], [i64], [u64] and so on; shared lemmas.
    - [Buffer] ([net/Buffer]): the vector with its indices; the interface
      [ByteQueue] with its laws, and the vector as an instance.
    - [WebSocketFrame] ([websocket/WebSocketFrame.h]): encode, decode, base64.
    - [Poller] ([net/Channel], [net/EPollPoller]): the kernel's epoll is the
      class [Epoll].
    - [TcpConnection] ([net/TcpConnection]): all operations, against any
      [ByteQueue].
    - [HttpRequest], [HttpResponse] ([http/]): parsing and printing.
    - [Metrics], [RateLimiter], [CircuitBreaker], [Snowflake] ([util/]).
    - [Gzip] ([http/GzipMiddleware.h]): the loops around zlib's calls.
    - [HttpCore], [HttpServer], [HttpClient], [MultipartParser] ([http/]).
    - [HttpSession] ([http/HttpClient.h]): the client called from several
      threads.
    - [ConnectionCalls]: the calls ([send], [shutdown], [forceClose]) a
      protocol layer makes on its [net/TcpConnection.cc], and what the loop does
      to the connection between them.
    - [HttpConnection], [WsConnection]: [http/HttpServer.h] and
      [websocket/WebSocketServer.h] on that connection, from the bytes read to
      the bytes written.
    - [HttpEndToEnd]: [http/HttpClient.h] and [http/HttpServer.h] at the two
      ends of a TCP connection, from the callers to the handlers and back;
      [WsEndToEnd]: [websocket/WebSocketClient.h] and
      [websocket/WebSocketServer.h] at the two ends, from the handshake on.
    - [HttpsServer] ([http/HttpsServer.h], [http/SslContext.h]): OpenSSL is the
      class [Tls] with [TlsLaws].
    - [WebSocketServer] ([websocket/WsSession.h], [WebSocketServer.h]).
    - [LoadBalancer] ([balancer/LoadBalancer.h]).
    - [TimerQueue] ([timer/], and the timer functions of [net/EventLoop.cc]).
    - [EventLoop] ([net/EventLoop.cc]): the loop thread interleaved with any
      number of others.
    - [TcpServer] ([net/TcpServer.cc], [Acceptor.cc],
      [EventLoopThreadPool.cc]), [TcpClient] ([net/TcpClient.cc],
      [Connector.cc]).
    - [Config] ([config/Config.h]).
    - [ConnectionPool] ([pool/ConnectionPool.h]), [DbPool]
      ([pool/MySQLPool.h], [pool/RedisPool.h]: the pools, transactions, the
      sentinel lookup, the commands of a Redis connection), [MySQL]
      ([pool/MySQLPool.h]: a connection and its prepared statements).
    - [WebSocketClient] ([websocket/WebSocketClient.h]).
    - [ServiceCatalog] ([registry/ServiceMeta.h], [ServiceCatalog.h],
      [HealthChecker.h]), [ServiceLeases] (what they promise to one instance),
      [Registry] ([registry/RegistryServer.h],
      [RegistryClient.h], and the JSON conversions), [RegistryClient]
      ([registry/RegistryClient.h] over its HTTP client).
    - [RpcPb] ([rpc/RpcServerPb.h], [rpc/RpcClientPb.h]), [Rpc]
      ([rpc/RpcServer.h], [rpc/RpcClient.h]).
    - [ThreadPool], [ObjectPool], [Redlock], [EtcdClient], [Kafka] ([util/], a
      file each; [Kafka] has the producer and the consumer).
    - [AsyncLogger] ([asynclogger/AsyncLogger.h]).
    - [Threads] ([registry/HealthChecker.h] and the heartbeat thread;
      [net/EventLoopThread.cc] with [net/Thread.cc]).
    - [Sockets] ([net/Socket.cc], [net/Acceptor.cc], and the system calls of the
      event loop and of the blocking clients), [System]
      ([util/SignalHandler.h], [net/logger], [net/Timestamp.cc],
      [net/InetAddress.cc]).

    ** How state is modelled

    A class is a record, a method a function from the record to the record
    (with what it returns), under the C++ name.  What an object does to the
    outside is a list of actions or a log; what the kernel or a clock answers
    is an argument.  Objects shared through [shared_ptr] are numbers in a
    store.  Code that runs under a mutex is one step; where threads
    interleave ([EventLoop], [TcpServer], [ConnectionPool], [DbPool],
    [ThreadPool], [AsyncLogger], [Threads], [Rpc], [HttpSession]) the steps are a relation or
    a partial function on a list of actions, and the theorems hold for every
    such list.  In [Sockets] a function is a tree of system calls, executed
    against every answer the kernel may give.  An exception is [None].

    ** Interfaces

    [ByteQueue] (implemented by the vector of [Buffer], used by
    [TcpConnection], the servers and [RpcPb]), [Epoll] (the kernel), [Limiter]
    (what [HttpCore] needs of a rate limiter), [Json]/[JsonLaws] and
    [JsonAccess]/[JsonAccessLaws] (the JSON library, whose [dump] throws on a
    text that is not UTF-8: only a [dumpable] value is sure to be dumped and to
    be parsed again), [Wire]/[WireLaws] (the
    protobuf encodings), [Tls]/[TlsLaws] (OpenSSL), [LockServer] (what Redis
    documents of three commands), and the regular expression engine, SHA-1, the
    gzip codec, the file system and the iteration order of unordered maps as
    arguments.  Every one of them has an instance, and the witnesses run on it.

    ** What the theorems show

    - Streams: an HTTP connection makes the calls that answer what it read, in
      order, and writes exactly those answers if none is sent from a file
      ([HttpConnection.requests_answered_on_the_wire]), over TLS as well
      ([HttpsServer.https_serves]); requests that a client's callers make one
      after the other come back as the handlers' responses, for responses that
      are sent at once, from memory, however the bytes of either direction are
      cut ([HttpEndToEnd.requests_come_back]); a WebSocket connection
      writes the upgrade and then the session's frames
      ([WsConnection.session_on_the_wire]), it opens at both ends
      ([WsEndToEnd.link_opens]) and messages get through both ways
      ([WsEndToEnd.messages_get_through]); what is sent with [send] and with
      [sendIov] of at most sixteen slices arrives in order and once, unless the
      peer resets the connection ([TcpConnection.send_stream]); how the
      peer's bytes are cut into reads does not matter while the connection
      waits for more in between ([HttpServer.chunks_irrelevant],
      [WebSocketServer.frames_in_order]); the buffer is a queue
      ([Buffer.buffer_refines_queue]).
    - Protocols: framing of requests and of frames, pipelining, responses
      matched to promises ([HttpSession.responses_reach_their_requests], and the
      histories in which they are not), round trips between printer and parser and between
      the two ends of HTTP, WebSocket, the registry and the remote calls;
      multipart bodies; base64.
    - Reactor: no lost wake-up, every functor runs, channels agree with the
      kernel, a connection is established and destroyed once, timers fire
      once, a connector that is started when nothing is under way neither leaks
      nor loses a socket ([TcpClient.connector_no_leak]).  A loop's own thread
      and its owner shake hands; the destructor's [quit] can be overtaken by the
      end of the loop ([Threads.LoopThread.loop_thread_handshake]).
    - Threads and resources: workers run what they accepted, in order, and a
      stopped pool or logger drains; no two grants of a lock overlap; every
      connection, object, callback, descriptor and TLS handle is accounted for
      in every history ([ConnectionPool], [DbPool], [ObjectPool], [Kafka],
      [Sockets], [HttpsServer.Handles]).
    - Services and utilities: dispatch order, which files are served (the real
      path begins, as text, with the directory's: [HttpCore.serveFile_contained]),
      exactness of weighted round robin, bounds of the sliding window,
      life cycle of the breaker, order of identifiers, accounting of pools,
      the catalog as a table of leases, and an instance found exactly while its
      heartbeats come in time ([ServiceLeases.found_while_it_beats]).

    ** Fuel

    Loops that are not structural run on fuel: the length of the input text or
    buffer plus one (every turn consumes at least a byte), the number of
    collected timers, or the length of the list of clock readings.  Where a
    function returns [None] for want of fuel the file proves that the fuel it
    is given is enough ([frames_handled], [HttpClient.response_loop_ends],
    [WebSocketFrame.decode_progress]); elsewhere the fuel case is shown
    unreachable by the lemmas on the loop.  A loop whose end depends on the
    other side ([Sockets.send_all], [Sockets.recv_all], [HttpsServer]'s turns)
    has its fuel as an argument of the theorem, which then holds for any.

    ** Not modelled

    The generated protobuf code and the client libraries (OpenSSL,
    libmysqlclient, hiredis, librdkafka, zlib, nlohmann::json), which are
    interfaces or arguments; declarations, type aliases and accessors without a
    decision of their own; the cached thread identifier of
    [net/CurrentThread.cc]; [ServiceInstance] of [registry/ServiceMeta.h], a
    pair that nothing uses; examples, tests and benchmarks. *)

From stdpp Require Export gmap list strings pretty.
From Stdlib Require Export ZArith Lia Ascii.
From Stdlib Require SpecFloat.

(** ** Strings

    A [std::string], a [std::vector<char>] and the readable part of a
    [Buffer] are lists of characters.  [#"text"] is a string literal. *)

Abbreviation str := (list ascii).

Definition lit (s : string) : str := String.list_ascii_of_string s.

Declare Scope cpp_scope.
Delimit Scope cpp_scope with cpp.
Notation "# s" := (lit s%string) (at level 5, s at level 0, format "# s") : cpp_scope.
Open Scope cpp_scope.

Definition CR : ascii := "013"%char.
Definition LF : ascii := "010"%char.
Definition SP : ascii := " "%char.
Definition TAB : ascii := "009"%char.
Definition DQ : ascii := "034"%char.
Definition crlf : str := [CR; LF].
Definition crlf2 : str := [CR; LF; CR; LF].

(** A [char] reinterpreted as [uint8_t], and back. *)
Definition u8_of (c : ascii) : Z := Z.of_nat (nat_of_ascii c).
Definition chr (z : Z) : ascii := ascii_of_nat (Z.to_nat (z mod 256)).

(** *** The parts of [std::string] the program uses *)

Fixpoint prefixb (p s : str) : bool :=
  match p, s with
  | [], _ => true
  | a :: p', b :: s' => bool_decide (a = b) && prefixb p' s'
  | _ :: _, [] => false
  end.

(** [s.find(p)]: the first position at which [p] occurs. *)
Fixpoint find0 (p s : str) : option nat :=
  if prefixb p s then Some 0
  else match s with
       | [] => None
       | _ :: s' => S <$> find0 p s'
       end.

(** [s.find(p, pos)]; [None] is [std::string::npos]. *)
Definition find (p s : str) (pos : nat) : option nat :=
  if length s <? pos then None else Nat.add pos <$> find0 p (drop pos s).

(** [s.substr(pos, n)] and [s.substr(pos)], used at positions within [s]. *)
Definition substr (s : str) (pos n : nat) : str := take n (drop pos s).

Definition contains (p s : str) : bool := bool_decide (is_Some (find0 p s)).

(** [std::find_first_not_of] on a set of characters, and the suffix it
    starts; [find_last_not_of] by reversal. *)
Fixpoint skip_chars (cs : list ascii) (s : str) : str :=
  match s with
  | [] => []
  | c :: s' => if bool_decide (c ∈ cs) then skip_chars cs s' else s
  end.

Definition rskip_chars (cs : list ascii) (s : str) : str :=
  rev (skip_chars cs (rev s)).

(** [std::tolower] in the "C" locale, the one the program runs in. *)
Definition tolower (c : ascii) : ascii :=
  let n := nat_of_ascii c in
  if (65 <=? n) && (n <=? 90) then ascii_of_nat (n + 32) else c.
Definition lower (s : str) : str := tolower <$> s.

(** ** Machine integers *)

Definition u8 (z : Z) : Z := (z mod 2 ^ 8)%Z.
Definition u16 (z : Z) : Z := (z mod 2 ^ 16)%Z.
Definition u32 (z : Z) : Z := (z mod 2 ^ 32)%Z.
Definition u64 (z : Z) : Z := (z mod 2 ^ 64)%Z.
Definition i32 (z : Z) : Z := ((z + 2 ^ 31) mod 2 ^ 32 - 2 ^ 31)%Z.
Definition i64 (z : Z) : Z := ((z + 2 ^ 63) mod 2 ^ 64 - 2 ^ 63)%Z.

(** The size of a string as a [size_t]. *)
Definition zlen {A} (s : list A) : Z := Z.of_nat (length s).

(** [s.substr(pos, n)] with a count computed in [size_t] arithmetic, where a
    negative difference has wrapped around to a huge count. *)
Definition substr_z (s : str) (pos : nat) (n : Z) : str :=
  take (Z.to_nat (Z.min n (zlen s))) (drop pos s).

(** *** Digits: [std::to_string], [snprintf "%zx"], [strtoul], [strtol] *)

Definition digit_char (d : Z) : ascii :=
  if (d <? 10)%Z then chr (48 + d) else chr (87 + d).

Definition digit_val (c : ascii) : option Z :=
  let n := u8_of c in
  if ((48 <=? n) && (n <=? 57))%Z then Some (n - 48)%Z
  else if ((97 <=? n) && (n <=? 122))%Z then Some (n - 87)%Z
  else if ((65 <=? n) && (n <=? 90))%Z then Some (n - 55)%Z
  else None.

Definition digit_in (base : Z) (c : ascii) : option Z :=
  match digit_val c with
  | Some d => if (d <? base)%Z then Some d else None
  | None => None
  end.

(** Most significant digit first; the fuel [Z.log2 n + 1] is enough for any
    base of at least two. *)
Fixpoint digits_fuel (fuel : nat) (base n : Z) (acc : str) : str :=
  match fuel with
  | O => acc
  | S f =>
      let acc' := digit_char (n mod base)%Z :: acc in
      if (n <? base)%Z then acc' else digits_fuel f base (n / base)%Z acc'
  end.

Definition digits (base n : Z) : str :=
  digits_fuel (S (Z.to_nat (Z.log2 n))) base n [].

(** [std::to_string] of a non-negative and of any integer. *)
Definition to_dec (n : Z) : str := digits 10 n.
Definition to_string (n : Z) : str :=
  if (n <? 0)%Z then #"-" ++ to_dec (- n) else to_dec n.

(** The longest run of digits: its value and whether there was a digit. *)
Fixpoint scan_digits (base : Z) (s : str) (acc : Z) : Z * str :=
  match s with
  | [] => (acc, [])
  | c :: s' =>
      match digit_in base c with
      | Some d => scan_digits base s' (acc * base + d)%Z
      | None => (acc, s)
      end
  end.

Definition is_space (c : ascii) : bool :=
  let n := nat_of_ascii c in ((9 <=? n) && (n <=? 13)) || (n =? 32).

Fixpoint skip_space (s : str) : str :=
  match s with
  | c :: s' => if is_space c then skip_space s' else s
  | [] => []
  end.

(** Sign and digits after optional white space, as [strtol]/[strtoul] read
    them in base 10: [None] when there is no digit. *)
Definition scan_int (s : str) : option (bool * Z) :=
  let s1 := skip_space s in
  let '(neg, s2) :=
    match s1 with
    | c :: s' => if bool_decide (c = "-"%char) then (true, s')
                 else if bool_decide (c = "+"%char) then (false, s')
                 else (false, s1)
    | [] => (false, s1)
    end in
  match s2 with
  | c :: _ =>
      match digit_in 10 c with
      | Some _ => Some (neg, (scan_digits 10 s2 0).1)
      | None => None
      end
  | [] => None
  end.

(** [std::stoul]: [None] is the exception ([invalid_argument] when there is
    no digit, [out_of_range] when the magnitude does not fit); a minus sign
    negates modulo 2^64, as [strtoul] specifies. *)
Definition stoul (s : str) : option Z :=
  match scan_int s with
  | Some (neg, v) =>
      if (v <? 2 ^ 64)%Z then Some (if neg then u64 (- v) else v) else None
  | None => None
  end.

(** [std::stoi]: [None] is the exception. *)
Definition stoi (s : str) : option Z :=
  match scan_int s with
  | Some (neg, v) =>
      let x := if neg then (- v)%Z else v in
      if ((- 2 ^ 31 <=? x) && (x <? 2 ^ 31))%Z then Some x else None
  | None => None
  end.

(** *** [double]: IEEE 754 binary64, round to nearest even *)

Abbreviation double := SpecFloat.spec_float.
Definition dbl (z : Z) : double := SpecFloat.binary_normalize 53 1024 z 0 false.
Definition dadd (x y : double) : double := SpecFloat.SFadd 53 1024 x y.
Definition dsub (x y : double) : double := SpecFloat.SFsub 53 1024 x y.
Definition dmul (x y : double) : double := SpecFloat.SFmul 53 1024 x y.
Definition ddiv (x y : double) : double := SpecFloat.SFdiv 53 1024 x y.
Definition dlt (x y : double) : bool := SpecFloat.SFltb x y.
Definition dle (x y : double) : bool := SpecFloat.SFleb x y.

(** [std::min(a, b)] is [b] when [b < a] and [a] otherwise. *)
Definition dmin (a b : double) : double := if dlt b a then b else a.

(** ** Tactics and hint databases *)

Create HintDb cpp.
Create Rewrite HintDb cpp_len.
#[export] Hint Rewrite @length_cons @length_app @length_take @length_drop @length_replicate
  @length_fmap @length_insert @length_rev : cpp_len.

(** Lengths of list expressions, then linear arithmetic. *)
Ltac len := unfold zlen in *; simpl length in *;
  autorewrite with cpp_len in *; simpl length in *; lia.

(** Case analysis on the boolean comparisons and matches of a goal, the
    comparisons turned into (in)equalities. *)
Ltac bool_to_prop :=
  repeat match goal with
  | H : (_ <? _) = true |- _ => apply Nat.ltb_lt in H
  | H : (_ <? _) = false |- _ => apply Nat.ltb_ge in H
  | H : (_ <=? _) = true |- _ => apply Nat.leb_le in H
  | H : (_ <=? _) = false |- _ => apply Nat.leb_gt in H
  | H : (_ =? _) = true |- _ => apply Nat.eqb_eq in H
  | H : (_ =? _) = false |- _ => apply Nat.eqb_neq in H
  | H : (_ <? _)%Z = true |- _ => apply Z.ltb_lt in H
  | H : (_ <? _)%Z = false |- _ => apply Z.ltb_ge in H
  | H : (_ <=? _)%Z = true |- _ => apply Z.leb_le in H
  | H : (_ <=? _)%Z = false |- _ => apply Z.leb_gt in H
  | H : (_ =? _)%Z = true |- _ => apply Z.eqb_eq in H
  | H : (_ =? _)%Z = false |- _ => apply Z.eqb_neq in H
  | H : _ && _ = true |- _ => apply andb_true_iff in H as [? ?]
  | H : _ || _ = false |- _ => apply orb_false_iff in H as [? ?]
  | H : negb _ = true |- _ => apply negb_true_iff in H
  | H : negb _ = false |- _ => apply negb_false_iff in H
  | H : bool_decide _ = true |- _ => apply bool_decide_eq_true in H
  | H : bool_decide _ = false |- _ => apply bool_decide_eq_false in H
  end.

Ltac cases :=
  repeat (case_match; simplify_eq); bool_to_prop; simplify_eq.

(** ** Lemmas on strings *)

Lemma prefixb_spec p s : prefixb p s = true ↔ ∃ t, s = p ++ t.
Proof.
  revert s. induction p as [|a p IH]; intros [|b s]; simpl.
  - split; [by exists []|done].
  - split; [by eexists|done].
  - split; [done|]. by intros [? ?].
  - rewrite andb_true_iff, bool_decide_eq_true, IH. split.
    + intros [-> [t ->]]. by exists t.
    + intros [t [= -> ->]]. eauto.
Qed.

Lemma prefixb_app p t : prefixb p (p ++ t) = true.
Proof. apply prefixb_spec; eauto. Qed.

Lemma prefixb_refl p : prefixb p p = true.
Proof. apply prefixb_spec. exists []. by rewrite app_nil_r. Qed.

Lemma prefixb_app_r p s t : prefixb p s = true → prefixb p (s ++ t) = true.
Proof.
  rewrite !prefixb_spec. intros [u ->]. exists (u ++ t). by rewrite app_assoc.
Qed.

Lemma prefixb_length p s : prefixb p s = true → length p ≤ length s.
Proof. rewrite prefixb_spec. intros [t ->]. len. Qed.

Lemma app_cases {A} (p q b z : list A) :
  p ++ q = b ++ z → (∃ x, p = b ++ x ∧ x ++ q = z) ∨ ∃ x, x ≠ [] ∧ b = p ++ x ∧ q = x ++ z.
Proof.
  intros H. destruct (decide (length b ≤ length p)) as [Hle|Hgt].
  - left. exists (drop (length b) p). assert (E : p = b ++ drop (length b) p).
    { rewrite <-(take_drop (length b) p) at 1. f_equal. apply (f_equal (take (length b))) in H.
      by rewrite take_app_length, take_app_le in H. }
    split; [done|]. rewrite E, <-app_assoc in H. by apply (inj (app b)) in H.
  - right. exists (drop (length p) b). assert (E : b = p ++ drop (length p) b).
    { rewrite <-(take_drop (length p) b) at 1. f_equal. apply (f_equal (take (length p))) in H.
      rewrite take_app_length, take_app_le in H by lia. done. }
    split_and!; [|done|].
    + intros En. apply (f_equal length) in En. rewrite length_drop in En. cbn in En. lia.
    + rewrite E, <-app_assoc in H. by apply (inj (app p)) in H.
Qed.

(** [find0] returns an occurrence... *)
Lemma find0_Some p s n :
  find0 p s = Some n → s = take n s ++ p ++ drop (n + length p) s.
Proof.
  revert n. induction s as [|c s IH]; intros n; simpl; case_match eqn:E.
  - intros [= <-]. apply prefixb_spec in E as [t E]. simpl.
    destruct p; [done|discriminate].
  - done.
  - intros [= <-]. apply prefixb_spec in E as [t ->]. simpl.
    by rewrite drop_app_length.
  - destruct (find0 p s) as [m|]; [|done]. intros [= <-]. simpl.
    f_equal. by apply IH.
Qed.

Lemma find0_bound p s n : find0 p s = Some n → n + length p ≤ length s.
Proof.
  revert n. induction s as [|c s IH]; intros n; simpl; case_match eqn:E;
    [| done | |].
  - intros [= <-]. apply prefixb_length in E. simpl in *; lia.
  - intros [= <-]. apply prefixb_length in E. simpl in *; lia.
  - destruct (find0 p s) as [m|]; [|done]. intros [= <-].
    specialize (IH m eq_refl). lia.
Qed.

(** ... the leftmost one... *)
Lemma find0_min p s n i :
  find0 p s = Some n → i < n → prefixb p (drop i s) = false.
Proof.
  revert n i. induction s as [|c s IH]; intros n i; simpl; case_match eqn:E.
  - intros [= <-]. lia.
  - done.
  - intros [= <-]. lia.
  - destruct (find0 p s) as [m|]; [|done]. intros [= <-] Hi.
    destruct i as [|i]; [done|]. simpl. eapply IH; [done|lia].
Qed.

Lemma find0_intro p s n :
  prefixb p (drop n s) = true →
  (∀ i, i < n → prefixb p (drop i s) = false) → n ≤ length s →
  find0 p s = Some n.
Proof.
  revert n. induction s as [|c s IH]; intros n Hn Hmin Hlen; simpl in *.
  - assert (n = 0) as -> by lia. rewrite drop_0 in Hn. by rewrite Hn.
  - destruct n as [|n]; [simpl in Hn; by rewrite Hn|].
    pose proof (Hmin 0 ltac:(lia)) as H0. simpl in H0. rewrite H0.
    rewrite (IH n); [done|done| |lia].
    intros i Hi. exact (Hmin (S i) ltac:(lia)).
Qed.

(** ... and appending text does not move it. *)
Lemma find0_app p s t n : find0 p s = Some n → find0 p (s ++ t) = Some n.
Proof.
  intros H. pose proof (find0_bound _ _ _ H) as Hb.
  revert n H Hb. induction s as [|c s IH]; intros n H Hb.
  - simpl in H. destruct (prefixb p []) eqn:E; [|done].
    destruct p; [|done]. simplify_eq. by destruct t.
  - cbn [find0 app] in *. destruct (prefixb p (c :: s)) eqn:E.
    + simplify_eq. change (c :: s ++ t) with ((c :: s) ++ t).
      by rewrite prefixb_app_r.
    + destruct (find0 p s) as [m|] eqn:Em; [|done]. simplify_eq.
      destruct (prefixb p (c :: s ++ t)) eqn:E'.
      * exfalso. apply prefixb_spec in E' as [u Hu].
        apply not_true_iff_false in E. apply E. apply prefixb_spec.
        apply find0_bound in Em. exists (take (S (length s) - length p) u).
        apply (f_equal (take (S (length s)))) in Hu. simpl in Hu.
        rewrite take_app_length in Hu. rewrite Hu.
        rewrite take_app, (take_ge p) by len. by simpl.
      * simpl. erewrite IH; [done|done|]. apply find0_bound in Em. lia.
Qed.

(** Searching a character. *)
Lemma find0_char c s t : c ∉ s → find0 [c] (s ++ c :: t) = Some (length s).
Proof.
  intros H. apply find0_intro; [|intros i Hi|len].
  - rewrite drop_app_length. simpl. by rewrite bool_decide_true.
  - rewrite drop_app_le by lia.
    destruct (drop i s) as [|d u] eqn:E.
    + apply (f_equal length) in E. len.
    + simpl. rewrite bool_decide_false; [done|]. intros ->. apply H.
      rewrite <-(take_drop i s), E. set_solver.
Qed.

Lemma find0_char_None c s : find0 [c] s = None ↔ c ∉ s.
Proof.
  induction s as [|d s IH]; simpl; [set_solver|].
  rewrite andb_true_r. case_bool_decide; [set_solver|].
  rewrite fmap_None, IH. set_solver.
Qed.

(** Searching a pattern whose first character does not occur before it. *)
Lemma find0_first a p s t :
  a ∉ s → find0 (a :: p) (s ++ (a :: p) ++ t) = Some (length s).
Proof.
  intros H. apply find0_intro; [|intros i Hi|len].
  - rewrite drop_app_length. apply prefixb_app.
  - rewrite drop_app_le by lia.
    destruct (drop i s) as [|d u] eqn:E.
    + apply (f_equal length) in E. len.
    + simpl. rewrite bool_decide_false; [done|]. intros ->. apply H.
      rewrite <-(take_drop i s), E. set_solver.
Qed.

Lemma find0_first_None a p s : a ∉ s → find0 (a :: p) s = None.
Proof.
  induction s as [|d s IH]; intros H; simpl; [done|].
  rewrite bool_decide_false by set_solver. simpl. rewrite IH; set_solver.
Qed.

Lemma find_0 p s : find p s 0 = find0 p s.
Proof. unfold find. simpl. rewrite drop_0. by destruct (find0 p s). Qed.

Lemma find_bound p s pos n :
  find p s pos = Some n → pos ≤ n ∧ n + length p ≤ length s.
Proof.
  unfold find. cases; [done|]. intros (m & Hm & ->)%fmap_Some.
  apply find0_bound in Hm. len.
Qed.

Lemma find_app_r p u s : find p (u ++ s) (length u) = Nat.add (length u) <$> find0 p s.
Proof.
  unfold find. rewrite drop_app_length.
  destruct (_ <? _) eqn:E; [|done]. bool_to_prop. len.
Qed.

Lemma substr_app_r u s n : substr (u ++ s) (length u) n = take n s.
Proof. unfold substr. by rewrite drop_app_length. Qed.

Lemma substr_prefix s n t : n = length s → substr (s ++ t) 0 n = s.
Proof. intros ->. unfold substr. rewrite drop_0. by rewrite take_app_length. Qed.

Lemma mjoin_cons {A} (x : list A) l : mjoin (x :: l) = x ++ mjoin l.
Proof. done. Qed.

Lemma lit_length_pos c s : lit (String c s) ≠ [].
Proof. done. Qed.

Lemma skip_chars_nil cs s :
  match s with [] => True | c :: _ => c ∉ cs end → skip_chars cs s = s.
Proof. destruct s; simpl; [done|]. intros. by rewrite bool_decide_false. Qed.

Lemma lower_app s t : lower (s ++ t) = lower s ++ lower t.
Proof. apply fmap_app. Qed.

Lemma lower_idem s : lower (lower s) = lower s.
Proof.
  unfold lower. rewrite <-list_fmap_compose. apply list_fmap_ext.
  intros _ c _. simpl. by destruct c as [[] [] [] [] [] [] [] []].
Qed.

(** ** Lemmas on machine integers *)

Lemma land_255 n : Z.land n 255 = (n mod 256)%Z.
Proof. change 255%Z with (Z.ones 8). by rewrite Z.land_ones. Qed.

Lemma shiftr_byte n k : (0 ≤ k)%Z → Z.land (Z.shiftr n k) 255 = ((n / 2 ^ k) mod 256)%Z.
Proof. intros. by rewrite land_255, Z.shiftr_div_pow2. Qed.

(** Or-ing disjoint bit ranges is an addition. *)
Lemma lor_shiftl_add a b k :
  (0 ≤ k)%Z → (0 ≤ b < 2 ^ k)%Z → Z.lor (Z.shiftl a k) b = (a * 2 ^ k + b)%Z.
Proof.
  intros Hk Hb.
  assert (Hland : Z.land (Z.shiftl a k) b = 0%Z).
  { rewrite <-(Z.mod_small b (2 ^ k)) by done. rewrite <-Z.land_ones by done.
    rewrite (Z.land_comm b), Z.land_assoc, Z.land_ones, Z.shiftl_mul_pow2 by done.
    by rewrite Z.mod_mul, Z.land_0_l by lia. }
  rewrite <-Z.shiftl_mul_pow2 by done.
  by rewrite <-Z.lxor_lor, Z.add_nocarry_lxor.
Qed.

Lemma u64_small z : (0 ≤ z < 2 ^ 64)%Z → u64 z = z.
Proof. intros. by apply Z.mod_small. Qed.

Lemma i64_small z : (- 2 ^ 63 ≤ z < 2 ^ 63)%Z → i64 z = z.
Proof. intros. unfold i64. rewrite Z.mod_small; lia. Qed.

Lemma i32_small z : (- 2 ^ 31 ≤ z < 2 ^ 31)%Z → i32 z = z.
Proof. intros Hz. unfold i32. rewrite Z.mod_small by lia. lia. Qed.

Lemma u8_of_range c : (0 ≤ u8_of c < 256)%Z.
Proof. unfold u8_of. pose proof (nat_ascii_bounded c). lia. Qed.

Lemma chr_u8_of c : chr (u8_of c) = c.
Proof.
  unfold chr, u8_of. rewrite Z.mod_small by apply u8_of_range.
  by rewrite Nat2Z.id, ascii_nat_embedding.
Qed.

Lemma u8_of_chr z : (0 ≤ z < 256)%Z → u8_of (chr z) = z.
Proof.
  intros. unfold chr, u8_of. rewrite Z.mod_small by done.
  rewrite nat_ascii_embedding by lia. lia.
Qed.

(** ** Printing and reading numbers *)

Lemma digit_val_char d : (0 ≤ d < 36)%Z → digit_val (digit_char d) = Some d.
Proof.
  intros H. unfold digit_val, digit_char.
  destruct (d <? 10)%Z eqn:E; bool_to_prop; rewrite u8_of_chr by lia;
    repeat match goal with
    | |- context [(?a <=? ?b)%Z] => destruct (Z.leb_spec a b); try lia
    end; simpl; f_equal; lia.
Qed.

Lemma digit_in_char base d : (0 ≤ d < base)%Z → (base ≤ 36)%Z → digit_in base (digit_char d) = Some d.
Proof.
  intros. unfold digit_in. rewrite digit_val_char by lia.
  by rewrite (proj2 (Z.ltb_lt d base)) by lia.
Qed.

Lemma scan_digits_app base n fuel t a :
  (2 ≤ base ≤ 36)%Z → (0 ≤ n < base ^ Z.of_nat fuel)%Z → fuel ≠ 0 →
  ∃ k, (0 < k)%Z ∧
  scan_digits base (digits_fuel fuel base n t) a = scan_digits base t (a * k + n)%Z.
Proof.
  intros Hb. revert n t. induction fuel as [|f IH]; intros n t Hn Hf; [done|].
  simpl. destruct (n <? base)%Z eqn:E; bool_to_prop.
  - exists base. split; [lia|]. rewrite Z.mod_small by lia. simpl.
    by rewrite digit_in_char by lia.
  - assert (Hf' : f ≠ 0).
    { intros ->. change (Z.of_nat 1) with 1%Z in Hn. lia. }
    destruct (IH (n / base)%Z (digit_char (n mod base) :: t)) as (k & Hk & Hs); [|done|].
    { split; [apply Z.div_pos; lia|]. apply Z.div_lt_upper_bound; [lia|].
      rewrite <-Z.pow_succ_r by lia. replace (Z.succ (Z.of_nat f)) with (Z.of_nat (S f)) by lia. lia. }
    exists (k * base)%Z. split; [lia|]. rewrite Hs. simpl.
    rewrite digit_in_char by (try apply Z.mod_pos_bound; lia).
    f_equal. pose proof (Z.div_mod n base). lia.
Qed.

Lemma digits_fuel_ok base n :
  (2 ≤ base)%Z → (0 ≤ n)%Z → (n < base ^ Z.of_nat (S (Z.to_nat (Z.log2 n))))%Z.
Proof.
  intros. destruct (Z.eq_dec n 0) as [->|]; [simpl; lia|].
  eapply Z.lt_le_trans; [apply Z.log2_spec; lia|].
  replace (Z.of_nat (S (Z.to_nat (Z.log2 n)))) with (Z.succ (Z.log2 n))
    by (pose proof (Z.log2_nonneg n); lia).
  apply Z.pow_le_mono_l; lia.
Qed.

(** Reading back what was printed, whatever follows that is not a digit. *)
Lemma scan_digits_digits base n t :
  (2 ≤ base ≤ 36)%Z → (0 ≤ n)%Z →
  match t with [] => True | c :: _ => digit_in base c = None end →
  scan_digits base (digits base n ++ t) 0 = (n, t).
Proof.
  intros Hb Hn Ht.
  assert (Happ : ∀ fuel m s, digits_fuel fuel base m s ++ t = digits_fuel fuel base m (s ++ t)).
  { intros fuel. induction fuel as [|f IH]; intros m s; simpl; [done|].
    by destruct (m <? base)%Z; [|rewrite IH]. }
  unfold digits. rewrite Happ. simpl app.
  destruct (scan_digits_app base n (S (Z.to_nat (Z.log2 n))) t 0) as (k & _ & ->);
    [lia|split; [lia|by apply digits_fuel_ok; lia]|done|].
  destruct t as [|c t]; simpl; [done|]. by rewrite Ht.
Qed.

Lemma digits_cons base n :
  (2 ≤ base ≤ 36)%Z → (0 ≤ n)%Z →
  ∃ d r, digits base n = digit_char d :: r ∧ (0 ≤ d < base)%Z.
Proof.
  intros Hb Hn. unfold digits.
  assert (Hg : ∀ fuel m t, fuel ≠ 0 →
    ∃ d r, digits_fuel fuel base m t = digit_char d :: r ∧ (0 ≤ d < base)%Z).
  { intros fuel. induction fuel as [|f IH]; intros m t Hf; [done|]. simpl.
    pose proof (Z.mod_pos_bound m base).
    destruct (m <? base)%Z; [eexists _, _; split; [done|lia]|].
    destruct f; [simpl; eexists _, _; split; [done|lia]|]. by apply IH. }
  by apply Hg.
Qed.

Lemma digit_char_class d :
  (0 ≤ d < 36)%Z →
  is_space (digit_char d) = false ∧ digit_char d ≠ "-"%char ∧ digit_char d ≠ "+"%char ∧
  digit_char d ∉ [CR; LF; SP].
Proof.
  intros Hd.
  assert (∀ n, n < 36 → let c := digit_char (Z.of_nat n) in
    is_space c = false ∧ c ≠ "-"%char ∧ c ≠ "+"%char ∧ c ∉ [CR; LF; SP]) as H.
  { intros n Hn. do 36 (destruct n as [|n]; [vm_compute; split_and!; try done; set_solver|]). lia. }
  specialize (H (Z.to_nat d) ltac:(lia)). by rewrite Z2Nat.id in H by lia.
Qed.

Lemma scan_int_dec n t :
  (0 ≤ n)%Z → match t with [] => True | c :: _ => digit_in 10 c = None end →
  scan_int (to_dec n ++ t) = Some (false, n).
Proof.
  intros Hn Ht. pose proof (scan_digits_digits 10 n t ltac:(lia) Hn Ht) as Hs.
  unfold to_dec in *. destruct (digits_cons 10 n) as (d & r & E & Hd); [lia..|].
  destruct (digit_char_class d) as (H1 & H2 & H3 & _); [lia|].
  rewrite E in *. unfold scan_int. simpl app in *. cbn [skip_space].
  rewrite H1, (bool_decide_false _ H2), (bool_decide_false _ H3).
  rewrite digit_in_char by lia. by rewrite Hs.
Qed.

(** [std::stoul (std::to_string n)] is [n]. *)
Lemma stoul_to_dec n : (0 ≤ n < 2 ^ 64)%Z → stoul (to_dec n) = Some n.
Proof.
  intros. unfold stoul. rewrite <-(app_nil_r (to_dec n)), scan_int_dec by (done || lia).
  by rewrite (proj2 (Z.ltb_lt n _)) by lia.
Qed.

Lemma digits_fuel_length f n acc k :
  (0 ≤ n < 10 ^ Z.of_nat (S k))%Z → length (digits_fuel f 10 n acc) ≤ length acc + S k.
Proof.
  revert n acc k. induction f as [|f IH]; intros n acc k Hn; cbn [digits_fuel]; [lia|].
  destruct (n <? 10)%Z eqn:E; cbn [length]; [lia|]. bool_to_prop. destruct k as [|k]; [cbn in Hn; lia|].
  assert (0 ≤ n / 10 < 10 ^ Z.of_nat (S k))%Z as Hd.
  { rewrite (Nat2Z.inj_succ (S k)), Z.pow_succ_r in Hn by lia.
    split; [apply Z.div_pos; lia|apply Z.div_lt_upper_bound; lia]. }
  pose proof (IH _ (digit_char (n mod 10)%Z :: acc) k Hd). cbn [length] in *. lia.
Qed.

(** [std::to_string] of a number below [10 ^ k] has at most [k] digits. *)
Lemma to_dec_length n k : (0 ≤ n < 10 ^ Z.of_nat (S k))%Z → length (to_dec n) ≤ S k.
Proof. intros Hn. pose proof (digits_fuel_length (S (Z.to_nat (Z.log2 n))) n [] k Hn). done. Qed.

Lemma to_dec_inj n m : (0 ≤ n < 2 ^ 64)%Z → (0 ≤ m < 2 ^ 64)%Z → to_dec n = to_dec m → n = m.
Proof.
  intros Hn Hm H. pose proof (stoul_to_dec n Hn) as E1. pose proof (stoul_to_dec m Hm) as E2. congruence.
Qed.

(** Finite case analysis on small integers by evaluation. *)
Lemma forallb_below (P : Z → bool) (n : nat) :
  forallb (λ i, P (Z.of_nat i)) (seq 0 n) = true → ∀ z, (0 ≤ z < Z.of_nat n)%Z → P z = true.
Proof.
  intros H z Hz. rewrite forallb_forall in H.
  specialize (H (Z.to_nat z)). rewrite Z2Nat.id in H by lia. apply H.
  apply in_seq. lia.
Qed.

Ltac by_evaluation P n z :=
  refine (forallb_below P n _ z _); [vm_compute; reflexivity|lia].

Lemma Forall_byte_u8 (s : str) : Forall (λ z, 0 ≤ z < 256)%Z (u8_of <$> s).
Proof. apply Forall_forall. intros z (c & -> & _)%list_elem_of_fmap. apply u8_of_range. Qed.

Lemma chr_u8_of_list (s : str) : chr <$> (u8_of <$> s) = s.
Proof.
  rewrite <-list_fmap_compose. rewrite <-(list_fmap_id s) at 2.
  apply list_fmap_ext. intros. apply chr_u8_of.
Qed.

(** ** Lines ended by CR LF *)

(** The loops that walk over the lines of a header block: from [pos] on, every
    line up to the next line end or the end of the text is given to [f]. *)
Fixpoint fold_lines {A} (f : A → str → A) (fuel : nat) (s : str) (pos : nat) (a : A) : A :=
  match fuel with
  | O => a
  | S n =>
      if negb (pos <? length s) then a else
      let lineEnd := default (length s) (find crlf s pos) in
      fold_lines f n s (lineEnd + 2) (f a (substr s pos (lineEnd - pos)))
  end.

(** A line of a header block, and a block of lines without the last line
    end. *)
Definition line_ok (l : str) : Prop := CR ∉ l ∧ l ≠ [].

Fixpoint join_lines (ls : list str) : str :=
  match ls with
  | [] => []
  | [l] => l
  | l :: ls' => l ++ crlf ++ join_lines ls'
  end.

Lemma find0_skip c p l s :
  c ∉ l → find0 (c :: p) (l ++ s) = Nat.add (length l) <$> find0 (c :: p) s.
Proof.
  induction l as [|d l IH]; intros H; cbn [app find0 length].
  - by destruct (find0 (c :: p) s).
  - cbn [prefixb]. rewrite bool_decide_false by set_solver. cbn [andb].
    rewrite IH by set_solver. by destruct (find0 (c :: p) s).
Qed.

Lemma join_lines_cons l ls : ls ≠ [] → join_lines (l :: ls) = l ++ crlf ++ join_lines ls.
Proof. by destruct ls. Qed.

Lemma join_lines_head ls : ls ≠ [] → Forall line_ok ls → ∃ c t, join_lines ls = c :: t ∧ c ≠ CR.
Proof.
  destruct ls as [|[|c l] ls]; intros Hne Hok; [done|by inversion Hok as [|?? [_ ?]]|].
  inversion Hok as [|?? [Hcr _] _]; subst. exists c.
  destruct ls as [|l' ls]; eexists; (split; [reflexivity|]); set_solver.
Qed.

Lemma find_blank_line ls t :
  ls ≠ [] → Forall line_ok ls →
  find0 crlf2 (join_lines ls ++ crlf2 ++ t) = Some (length (join_lines ls)).
Proof.
  induction ls as [|l ls IH]; intros Hne Hok; [done|].
  inversion Hok as [|?? [Hcr _] Hok']; subst.
  destruct (decide (ls = [])) as [->|Hls].
  - simpl join_lines. change crlf2 with (CR :: [LF; CR; LF]) at 1. rewrite find0_skip by done.
    simpl. f_equal. lia.
  - rewrite join_lines_cons by done. rewrite <-!app_assoc.
    change crlf2 with (CR :: [LF; CR; LF]) at 1. rewrite find0_skip by done.
    change (CR :: [LF; CR; LF]) with crlf2.
    destruct (join_lines_head ls Hls Hok') as (c & u & E & Hc).
    specialize (IH Hls Hok'). rewrite E in *.
    change (crlf ++ (c :: u) ++ crlf2 ++ t) with (CR :: LF :: c :: u ++ crlf2 ++ t).
    assert (Hs : find0 crlf2 (CR :: LF :: c :: u ++ crlf2 ++ t)
      = S <$> (S <$> find0 crlf2 ((c :: u) ++ crlf2 ++ t))).
    { cbn [find0 app]. replace (prefixb crlf2 (CR :: LF :: c :: u ++ crlf2 ++ t)) with false.
      - done.
      - simpl. rewrite (bool_decide_false (CR = c)) by congruence. by rewrite ?andb_false_r. }
    rewrite Hs, IH. simpl. f_equal. len.
Qed.

Lemma fold_lines_join {A} (f : A → str → A) ls pre n a :
  Forall line_ok ls → length (join_lines ls) < n →
  fold_lines f n (pre ++ join_lines ls) (length pre) a = foldl f a ls.
Proof.
  revert pre n a. induction ls as [|l ls IH]; intros pre n a Hok Hn.
  { simpl in *. destruct n; [lia|]. simpl. rewrite app_nil_r, Nat.ltb_irrefl. done. }
  inversion Hok as [|?? [Hcr Hl] Hok']; subst. destruct n as [|n]; [lia|]. cbn [fold_lines foldl].
  assert (0 < length l) by (destruct l; [done|simpl; lia]).
  destruct (decide (ls = [])) as [->|Hls].
  - simpl join_lines in *. rewrite (proj2 (Nat.ltb_lt _ _)) by len. cbn [negb].
    rewrite find_app_r. unfold crlf. rewrite find0_first_None by done. cbn [fmap option_fmap option_map default].
    rewrite substr_app_r, take_ge by len. destruct n; [done|]. cbn [fold_lines].
    by rewrite (proj2 (Nat.ltb_ge _ _)) by lia.
  - rewrite join_lines_cons in * by done. rewrite (proj2 (Nat.ltb_lt _ _)) by len. cbn [negb].
    rewrite find_app_r. unfold crlf. rewrite find0_first by done. cbn [fmap option_fmap option_map default].
    rewrite substr_app_r.
    unfold id. replace (length pre + length l - length pre) with (length l) by lia. rewrite take_app_length.
    replace (pre ++ l ++ [CR; LF] ++ join_lines ls) with ((pre ++ l ++ crlf) ++ join_lines ls)
      by (by rewrite <-!app_assoc).
    replace (length pre + length l + 2) with (length (pre ++ l ++ crlf)) by len.
    apply IH; [done|]. revert Hn. len.
Qed.

(** ** Finding a key that ends in a given character *)

Lemma split_first (c : ascii) x y s t : c ∉ x → c ∉ y → x ++ c :: s = y ++ c :: t → x = y ∧ s = t.
Proof.
  revert y. induction x as [|a x IH]; intros [|b y] Hx Hy E; simplify_list_eq; [done|set_solver|set_solver|].
  destruct (IH y) as [-> ->]; [set_solver|set_solver|done|done].
Qed.

Lemma prefixb_key c w x s : c ∉ w → c ∉ x → prefixb (w ++ [c]) (x ++ c :: s) = true → x = w.
Proof.
  intros Hw Hx Hp. apply prefixb_spec in Hp as [t Ht]. rewrite <-app_assoc in Ht. cbn [app] in Ht.
  by apply split_first in Ht as [-> _].
Qed.

(** Another text before that character is passed over. *)
Lemma find_other c w x s :
  c ∉ w → c ∉ x → (∀ z, x ≠ z ++ w) → find0 (w ++ [c]) (x ++ c :: s) = Nat.add (S (length x)) <$> find0 (w ++ [c]) s.
Proof.
  intros Hw. induction x as [|d x IH]; intros Hx Hs.
  - cbn [app find0 length]. destruct (prefixb _ _) eqn:E; [|by destruct (find0 (w ++ [c]) s)].
    apply (prefixb_key c w [] s) in E; [|done|done]. by destruct (Hs []).
  - cbn [app find0 length]. destruct (prefixb (w ++ [c]) _) eqn:E.
    { change (d :: x ++ c :: s) with ((d :: x) ++ c :: s) in E. apply prefixb_key in E; [|done|done]. by destruct (Hs []). }
    rewrite IH; [|set_solver|intros y ->; by destruct (Hs (d :: y))]. by destruct (find0 (w ++ [c]) s).
Qed.

Lemma find_key c w pre t : c ∉ w → c ∉ pre → find0 (w ++ [c]) (pre ++ w ++ c :: t) = Some (length pre).
Proof.
  intros Hw. induction pre as [|d pre IH]; intros Hp.
  - assert (E : prefixb (w ++ [c]) (w ++ c :: t) = true) by (apply prefixb_spec; exists t; by rewrite <-app_assoc).
    cbn [app length]. destruct (w ++ c :: t); cbn [find0]; by rewrite E.
  - cbn [app find0 length]. destruct (prefixb (w ++ [c]) _) eqn:E.
    { change (d :: pre ++ w ++ c :: t) with ((d :: pre) ++ w ++ c :: t) in E. rewrite app_assoc in E.
      apply prefixb_key in E; [|done|rewrite elem_of_app; tauto]. apply (f_equal length) in E. rewrite length_app in E. cbn in E. lia. }
    by rewrite IH by set_solver.
Qed.

(** Neither text is the beginning of the other. *)
Definition agree (p u : str) : bool := prefixb p u || prefixb u p.

(** No end of [l] could begin a match of [p]. *)
Fixpoint apart (p l : str) : bool :=
  match l with
  | [] => true
  | _ :: l' => negb (agree p l) && apart p l'
  end.

Lemma agree_app p u s : agree p u = false → prefixb p (u ++ s) = false.
Proof.
  unfold agree. revert u. induction p as [|a p IH]; intros u; [done|]. destruct u as [|b u]; [by intros [? ?]%orb_false_iff|].
  cbn [prefixb app]. destruct (decide (a = b)) as [->|Hne].
  - rewrite !bool_decide_eq_true_2 by done. apply IH.
  - by rewrite !bool_decide_eq_false_2 by done.
Qed.

Lemma find0_apart p l s : p ≠ [] → apart p l = true → find0 p (l ++ s) = Nat.add (length l) <$> find0 p s.
Proof.
  intros Hp. induction l as [|c l IH]; cbn [apart app length]; [intros _; by destruct (find0 p s)|].
  intros [Ha Hl]%andb_prop. apply negb_true_iff in Ha. pose proof (agree_app p (c :: l) s Ha) as E. cbn [app] in E.
  cbn [find0]. rewrite E, IH by done. by destruct (find0 p s).
Qed.

(** ** C strings *)

(** What a [const char*] constructor or [append] makes of a text. *)
Fixpoint c_str (s : str) : str :=
  match s with
  | [] => []
  | c :: s => if bool_decide (c = "000"%char) then [] else c :: c_str s
  end.

Lemma c_str_id s : "000"%char ∉ s → c_str s = s.
Proof.
  induction s as [|c s IH]; [done|]. rewrite not_elem_of_cons. intros [Hc Hs]. cbn [c_str].
  rewrite bool_decide_eq_false_2 by done. by rewrite IH.
Qed.
