(* ===== verification/Buffer.v ===== *)
(** * Buffer: the read/write buffer of a connection

    Models [src/net/Buffer.h] and [src/net/Buffer.cc]: the vector with its
    reader and writer index, compaction and growth, and the scatter read that
    spills into a 64 KB stack buffer.  The abstract specification is a byte
    queue ([ByteQueue]); the vector implements it. *)

From S2P Require Import Prelude.

(** ** Results of system calls *)

(** The outcome of [readv]/[read]: the bytes the kernel stored, or [errno]. *)
Inductive ReadResult :=
  | RdData (d : str)
  | RdErr (errno : Z).

(** The outcome of [write]/[writev]/[sendfile]: a byte count or [errno]. *)
Inductive WriteResult :=
  | WrCount (n : nat)
  | WrErr (errno : Z).

(** ** The interface a connection relies on *)

(** A queue of bytes: what is appended at the back is read, in order, at the
    front. *)
Class ByteQueue (B : Type) := {
  bq_valid : B → Prop;
  bq_contents : B → str;
  bq_empty : nat → B;
  bq_append : B → str → B;
  bq_retrieve : B → nat → B;
  bq_readable : B → nat;
  bq_readFd : B → ReadResult → Z * option Z * B;
  bq_empty_ok n : bq_valid (bq_empty n) ∧ bq_contents (bq_empty n) = [];
  bq_append_ok b d : bq_valid b →
    bq_valid (bq_append b d) ∧ bq_contents (bq_append b d) = bq_contents b ++ d;
  bq_retrieve_ok b n : bq_valid b →
    bq_valid (bq_retrieve b n) ∧ bq_contents (bq_retrieve b n) = drop n (bq_contents b);
  bq_readable_ok b : bq_valid b → bq_readable b = length (bq_contents b);
  bq_readFd_data b d : bq_valid b → ∃ b',
    bq_readFd b (RdData d) = (zlen d, None, b') ∧
    bq_valid b' ∧ bq_contents b' = bq_contents b ++ d;
  bq_readFd_err b e : bq_readFd b (RdErr e) = ((-1)%Z, Some e, b)
}.

(** ** The implementation *)

Definition kCheapPrepend : nat := 8.
Definition kInitialSize : nat := 1024.
Arguments kCheapPrepend : simpl never.
Arguments kInitialSize : simpl never.

(** [sizeof extrabuf]. *)
Definition extrabuf_size : Z := 65536.

Record Buffer := mkBuffer {
  buffer_ : str;
  readerIndex_ : nat;
  writerIndex_ : nat
}.

Definition NUL : ascii := "000"%char.

(** [std::vector<char>::resize]. *)
Definition vec_resize (v : str) (n : nat) : str :=
  take n v ++ replicate (n - length v) NUL.

(** Copying [d] over the elements of [v] from position [pos] on. *)
Definition vec_store (v : str) (pos : nat) (d : str) : str :=
  take pos v ++ d ++ drop (pos + length d) v.

Definition Buffer_new (initialSize : nat) : Buffer :=
  mkBuffer (replicate (initialSize + kCheapPrepend) NUL) kCheapPrepend kCheapPrepend.

Definition readableBytes (b : Buffer) : nat := writerIndex_ b - readerIndex_ b.
Definition writableBytes (b : Buffer) : nat := length (buffer_ b) - writerIndex_ b.
Definition prependableBytes (b : Buffer) : nat := readerIndex_ b.

(** The readable bytes that [peek()] points at. *)
Definition contents (b : Buffer) : str :=
  take (readableBytes b) (drop (readerIndex_ b) (buffer_ b)).

(** The sums are [size_t] in the code; they do not wrap, see
    [size_t_sums_exact]. *)
Definition makeSpace (b : Buffer) (n : nat) : Buffer :=
  if writableBytes b + prependableBytes b <? n + kCheapPrepend then
    mkBuffer (vec_resize (buffer_ b) (writerIndex_ b + n))
             (readerIndex_ b) (writerIndex_ b)
  else
    let readable := readableBytes b in
    mkBuffer (vec_store (buffer_ b) kCheapPrepend (contents b))
             kCheapPrepend (kCheapPrepend + readable).

Definition ensureWritableBytes (b : Buffer) (n : nat) : Buffer :=
  if writableBytes b <? n then makeSpace b n else b.

Definition append (b : Buffer) (d : str) : Buffer :=
  let b1 := ensureWritableBytes b (length d) in
  mkBuffer (vec_store (buffer_ b1) (writerIndex_ b1) d)
           (readerIndex_ b1) (writerIndex_ b1 + length d).

Definition retrieveAll (b : Buffer) : Buffer :=
  mkBuffer (buffer_ b) kCheapPrepend kCheapPrepend.

Definition retrieve (b : Buffer) (n : nat) : Buffer :=
  if n <? readableBytes b
  then mkBuffer (buffer_ b) (readerIndex_ b + n) (writerIndex_ b)
  else retrieveAll b.

(** [std::string str(peek(), len)] reads [len] bytes from the reader index
    on whether or not they are readable; [None] is a read past the vector. *)
Definition retrieveAsString (b : Buffer) (n : nat) : option (str * Buffer) :=
  if readerIndex_ b + n <=? length (buffer_ b)
  then Some (take n (drop (readerIndex_ b) (buffer_ b)), retrieve b n)
  else None.

Definition retrieveAllAsString (b : Buffer) : option (str * Buffer) :=
  retrieveAsString b (readableBytes b).

(** How many bytes the vector of [iovec]s offers to [readv]. *)
Definition iov_capacity (b : Buffer) : Z :=
  let writable := Z.of_nat (writableBytes b) in
  if (writable <? extrabuf_size)%Z then (writable + extrabuf_size)%Z else writable.

(** [readFd]: the result, the saved [errno] when there is one, and the
    buffer afterwards. *)
Definition readFd (b : Buffer) (r : ReadResult) : Z * option Z * Buffer :=
  let writable := writableBytes b in
  match r with
  | RdErr e => ((-1)%Z, Some e, b)
  | RdData d =>
      let n := length d in
      let stored := vec_store (buffer_ b) (writerIndex_ b) (take writable d) in
      if n <=? writable then
        (Z.of_nat n, None, mkBuffer stored (readerIndex_ b) (writerIndex_ b + n))
      else
        (Z.of_nat n, None,
         append (mkBuffer stored (readerIndex_ b) (length (buffer_ b)))
                (drop writable d))
  end.

(** [writeFd]: [::write] on the readable bytes; the buffer is unchanged. *)
Definition writeFd (b : Buffer) (write : str → WriteResult) : Z * option Z :=
  match write (contents b) with
  | WrCount n => (Z.of_nat n, None)
  | WrErr e => ((-1)%Z, Some e)
  end.

(** ** Invariant *)

(** The indices are ordered and within the vector: the [size_t] differences
    of the code never wrap. *)
Definition Buffer_ok (b : Buffer) : Prop :=
  kCheapPrepend ≤ readerIndex_ b ∧
  readerIndex_ b ≤ writerIndex_ b ∧
  writerIndex_ b ≤ length (buffer_ b).

Ltac buf := unfold Buffer_ok, contents, readableBytes, writableBytes,
  prependableBytes, retrieveAll, kCheapPrepend, vec_store, vec_resize in *; simpl in *.

Lemma length_vec_store v pos d :
  pos + length d ≤ length v → length (vec_store v pos d) = length v.
Proof. intros. unfold vec_store. len. Qed.

Lemma vec_store_get v pos d :
  pos ≤ length v → take (length d) (drop pos (vec_store v pos d)) = d.
Proof.
  intros. unfold vec_store.
  rewrite drop_app_length' by len. by rewrite take_app_length.
Qed.

Lemma vec_store_before v pos d i n :
  i + n ≤ pos → pos ≤ length v →
  take n (drop i (vec_store v pos d)) = take n (drop i v).
Proof.
  intros. unfold vec_store.
  rewrite drop_app_le by len. rewrite take_app_le by len.
  rewrite !take_drop_commute, take_take. do 2 f_equal. lia.
Qed.

Lemma length_contents b : Buffer_ok b → length (contents b) = readableBytes b.
Proof. intros. buf. len. Qed.

(** The sums of [makeSpace] in 64 bits.  No object is longer than
    [PTRDIFF_MAX] (neither the vector nor what is appended), so that none of
    them wraps. *)
Definition size_add (x y : nat) : Z := (Z.of_nat x + Z.of_nat y) mod 2 ^ 64.
Definition PTRDIFF_MAX : Z := 2 ^ 63 - 1.

Lemma size_t_sums_exact b n :
  Buffer_ok b → (zlen (buffer_ b) <= PTRDIFF_MAX)%Z → (Z.of_nat n <= PTRDIFF_MAX)%Z →
  (size_add (writableBytes b) (prependableBytes b) <? size_add n kCheapPrepend)%Z
    = (writableBytes b + prependableBytes b <? n + kCheapPrepend) ∧
  size_add (writerIndex_ b) n = Z.of_nat (writerIndex_ b + n).
Proof.
  unfold Buffer_ok, size_add, PTRDIFF_MAX, zlen, writableBytes, prependableBytes, kCheapPrepend. intros Hok Hl Hn.
  rewrite !Z.mod_small by lia. split; [|lia]. apply eq_bool_prop_intro. rewrite !Is_true_true, Z.ltb_lt, Nat.ltb_lt. lia.
Qed.

Lemma makeSpace_ok b n :
  Buffer_ok b → writableBytes b < n →
  Buffer_ok (makeSpace b n) ∧ contents (makeSpace b n) = contents b ∧
  n ≤ writableBytes (makeSpace b n).
Proof.
  intros Hok Hn. unfold makeSpace. cases.
  - buf. split_and!; try len.
    rewrite drop_app_le by len. rewrite take_app_le by len.
    rewrite !take_drop_commute, take_take. do 2 f_equal. lia.
  - assert (Hlen : length (vec_store (buffer_ b) kCheapPrepend (contents b))
                   = length (buffer_ b)).
    { apply length_vec_store. rewrite length_contents by done. buf. lia. }
    pose proof (length_contents b Hok) as Hc. split_and!.
    + unfold Buffer_ok in *. cbn [buffer_ readerIndex_ writerIndex_]. rewrite Hlen. buf. lia.
    + set (c := contents b) in *.
      unfold contents, readableBytes at 1. cbn [buffer_ readerIndex_ writerIndex_].
      replace (kCheapPrepend + readableBytes b - kCheapPrepend) with (length c) by lia.
      apply vec_store_get. buf. lia.
    + unfold writableBytes at 1. cbn [buffer_ readerIndex_ writerIndex_]. rewrite Hlen. buf. lia.
Qed.

Lemma ensureWritableBytes_ok b n :
  Buffer_ok b →
  Buffer_ok (ensureWritableBytes b n) ∧
  contents (ensureWritableBytes b n) = contents b ∧
  n ≤ writableBytes (ensureWritableBytes b n).
Proof.
  intros Hok. unfold ensureWritableBytes. cases.
  - by apply makeSpace_ok.
  - done.
Qed.

Lemma append_ok b d :
  Buffer_ok b → Buffer_ok (append b d) ∧ contents (append b d) = contents b ++ d.
Proof.
  intros Hok. unfold append.
  destruct (ensureWritableBytes_ok b (length d) Hok) as (Hok1 & <- & Hw).
  set (b1 := ensureWritableBytes b (length d)) in *.
  assert (Hlen : length (vec_store (buffer_ b1) (writerIndex_ b1) d) = length (buffer_ b1)).
  { apply length_vec_store. buf. lia. }
  split.
  - unfold Buffer_ok in *. simpl. rewrite Hlen. buf. lia.
  - unfold contents, readableBytes. simpl.
    replace (writerIndex_ b1 + length d - readerIndex_ b1)
      with ((writerIndex_ b1 - readerIndex_ b1) + length d) by (buf; lia).
    rewrite <-take_take_drop. f_equal.
    + apply vec_store_before; buf; lia.
    + rewrite drop_drop.
      replace (readerIndex_ b1 + (writerIndex_ b1 - readerIndex_ b1))
        with (writerIndex_ b1) by (buf; lia).
      apply vec_store_get. buf. lia.
Qed.

Lemma retrieve_ok b n :
  Buffer_ok b → Buffer_ok (retrieve b n) ∧ contents (retrieve b n) = drop n (contents b).
Proof.
  intros Hok. pose proof (length_contents b Hok) as Hc.
  unfold retrieve. cases; (split; [buf; lia|]).
  - unfold contents, readableBytes. simpl. rewrite <-drop_drop, !take_drop_commute.
    do 3 f_equal. buf. lia.
  - rewrite drop_ge by lia. by buf.
Qed.

Lemma Buffer_new_ok n : Buffer_ok (Buffer_new n) ∧ contents (Buffer_new n) = [].
Proof. split; [|done]. unfold Buffer_ok. simpl. len. Qed.

#[export] Hint Resolve Buffer_new_ok append_ok retrieve_ok ensureWritableBytes_ok : cpp.

Lemma readFd_ok b d :
  Buffer_ok b →
  Buffer_ok (readFd b (RdData d)).2 ∧
  contents (readFd b (RdData d)).2 = contents b ++ d.
Proof.
  intros Hok. pose proof (length_contents b Hok) as Hc.
  set (stored := vec_store (buffer_ b) (writerIndex_ b) (take (writableBytes b) d)).
  assert (Hlen : length stored = length (buffer_ b)) by (apply length_vec_store; buf; len).
  assert (Hgen : ∀ n, n = length (take (writableBytes b) d) →
    let b' := mkBuffer stored (readerIndex_ b) (writerIndex_ b + n) in
    Buffer_ok b' ∧ contents b' = contents b ++ take (writableBytes b) d).
  { intros n Hn. split.
    - unfold Buffer_ok. simpl. rewrite Hlen, Hn. buf. len.
    - unfold contents at 1, readableBytes at 1. simpl.
      replace (writerIndex_ b + n - readerIndex_ b)
        with ((writerIndex_ b - readerIndex_ b) + n) by (buf; lia).
      rewrite <-take_take_drop. f_equal.
      + apply vec_store_before; buf; lia.
      + rewrite drop_drop. replace (readerIndex_ b + (writerIndex_ b - readerIndex_ b))
          with (writerIndex_ b) by (buf; lia).
        rewrite Hn. apply vec_store_get. buf. lia. }
  unfold readFd. fold stored. cases.
  - rewrite take_ge in Hgen by lia. destruct (Hgen _ eq_refl) as [? ?]. done.
  - destruct (Hgen (writableBytes b)) as [H1 H2]; [len|].
    replace (writerIndex_ b + writableBytes b) with (length (buffer_ b)) in H1, H2 by (buf; lia).
    destruct (append_ok _ (drop (writableBytes b) d) H1) as [H3 H4].
    split; [done|]. simpl. rewrite H4, H2, <-app_assoc. by rewrite take_drop.
Qed.

(** The C++ class implements the byte queue. *)
#[export] Program Instance Buffer_queue : ByteQueue Buffer := {|
  bq_valid := Buffer_ok;
  bq_contents := contents;
  bq_empty := Buffer_new;
  bq_append := append;
  bq_retrieve := retrieve;
  bq_readable := readableBytes;
  bq_readFd := readFd
|}.
Next Obligation. apply Buffer_new_ok. Qed.
Next Obligation. intros; by apply append_ok. Qed.
Next Obligation. intros; by apply retrieve_ok. Qed.
Next Obligation. intros; by rewrite length_contents. Qed.
Next Obligation.
  intros b d Hok. destruct (readFd_ok b d Hok) as [H1 H2].
  exists (readFd b (RdData d)).2. split_and!; [|done|done].
  unfold readFd. by destruct (_ <=? _).
Qed.
Next Obligation. done. Qed.

(** ** Operation sequences *)

Inductive BufferOp :=
  | OpAppend (d : str)
  | OpRetrieve (n : nat)
  | OpRetrieveAll
  | OpEnsureWritable (n : nat)
  | OpReadFd (d : str).

Definition run_op (b : Buffer) (op : BufferOp) : Buffer :=
  match op with
  | OpAppend d => append b d
  | OpRetrieve n => retrieve b n
  | OpRetrieveAll => retrieveAll b
  | OpEnsureWritable n => ensureWritableBytes b n
  | OpReadFd d => (readFd b (RdData d)).2
  end.

(** The same operations on the abstract queue. *)
Definition spec_op (q : str) (op : BufferOp) : str :=
  match op with
  | OpAppend d | OpReadFd d => q ++ d
  | OpRetrieve n => drop n q
  | OpRetrieveAll => []
  | OpEnsureWritable _ => q
  end.

Lemma run_op_ok b op :
  Buffer_ok b → Buffer_ok (run_op b op) ∧ contents (run_op b op) = spec_op (contents b) op.
Proof.
  intros Hok. destruct op; cbn [run_op spec_op].
  - by apply append_ok.
  - by apply retrieve_ok.
  - buf. split_and!; [lia..|done].
  - destruct (ensureWritableBytes_ok b n Hok) as (? & ? & ?). done.
  - by apply readFd_ok.
Qed.

(** C6: whatever sequence of appends, retrievals, space reservations and
    scatter reads a connection performs on a new buffer, the indices stay
    ordered and inside the vector (no [size_t] difference wraps, no copy goes
    past the end), and the readable bytes are exactly those of a byte queue on
    which the same operations were performed: growth, compaction and the
    [extrabuf] spill neither lose, repeat nor reorder a byte. *)
Theorem buffer_refines_queue (initialSize : nat) (ops : list BufferOp) :
  Buffer_ok (foldl run_op (Buffer_new initialSize) ops) ∧
  contents (foldl run_op (Buffer_new initialSize) ops) = foldl spec_op [] ops.
Proof.
  destruct (Buffer_new_ok initialSize) as [Hok Hc]. revert Hok Hc.
  generalize (Buffer_new initialSize) as b. intros b Hok <-. revert b Hok.
  induction ops as [|op ops IH]; intros b Hok; simpl; [done|].
  destruct (run_op_ok b op Hok) as [H1 <-]. by apply IH.
Qed.

(** An append writes inside the vector: after [ensureWritableBytes] the
    target range fits, the copy leaves the vector's size unchanged, and the
    vector grows only when the free space at both ends together is too small. *)
Theorem append_in_bounds (b : Buffer) (d : str) (Hok : Buffer_ok b) :
  let b1 := ensureWritableBytes b (length d) in
  writerIndex_ b1 + length d ≤ length (buffer_ b1) ∧
  length (buffer_ (append b d)) = length (buffer_ b1) ∧
  (length (buffer_ b1) ≠ length (buffer_ b) →
   writableBytes b + prependableBytes b < length d + kCheapPrepend).
Proof.
  destruct (ensureWritableBytes_ok b (length d) Hok) as (H1 & _ & H3).
  set (b1 := ensureWritableBytes b (length d)) in *. simpl. split_and!.
  - buf. lia.
  - unfold append. fold b1. simpl. apply length_vec_store. buf. lia.
  - subst b1. unfold ensureWritableBytes, makeSpace. cases; simpl; [done| |done].
    intros []. apply length_vec_store. rewrite length_contents by done. buf. lia.
Qed.

Lemma append_in_bounds_witness :
  Buffer_ok (Buffer_new 4) ∧ writerIndex_ (ensureWritableBytes (Buffer_new 4) 5) + 5 ≤ 13.
Proof.
  assert (H : Buffer_ok (Buffer_new 4)) by (apply Buffer_new_ok).
  split; [exact H|]. exact (proj1 (append_in_bounds (Buffer_new 4) (#"hello") H)).
Defined.
