(* ===== verification/WebSocketFrame.v ===== *)
(** * WebSocketFrame: the RFC 6455 frame codec

    Models [src/websocket/WebSocketFrame.h].  A byte ([uint8_t]) is an
    integer in [0, 256); the masking key that [encode] draws from
    [std::mt19937] is an argument; SHA-1 (OpenSSL) is a parameter of
    [computeAcceptKey]. *)

From S2P Require Import Prelude.

(** ** Data *)

(** [enum class WsOpcode : uint8_t]; a [static_cast] from the nibble of the
    wire can also produce a value that is not named. *)
Inductive WsOpcode :=
  | Continuation | Text | Binary | Close | Ping | Pong
  | Unnamed (v : Z).

#[export] Instance WsOpcode_eq_dec : EqDecision WsOpcode.
Proof. solve_decision. Defined.

Definition opcode_val (o : WsOpcode) : Z :=
  match o with
  | Continuation => 0 | Text => 1 | Binary => 2 | Close => 8 | Ping => 9 | Pong => 10
  | Unnamed v => v
  end%Z.

(** [static_cast<WsOpcode>(v)]. *)
Definition opcode_of (v : Z) : WsOpcode :=
  if (v =? 0)%Z then Continuation else if (v =? 1)%Z then Text
  else if (v =? 2)%Z then Binary else if (v =? 8)%Z then Close
  else if (v =? 9)%Z then Ping else if (v =? 10)%Z then Pong else Unnamed v.

Record WebSocketFrame := mkFrame {
  fin : bool;
  rsv1 : Z;
  rsv2 : Z;
  rsv3 : Z;
  opcode : WsOpcode;
  mask : bool;
  maskingKey : list Z;
  payload : list Z
}.

(** The default constructor. *)
Definition frame0 : WebSocketFrame :=
  mkFrame true 0 0 0 Text false [0; 0; 0; 0]%Z [].

Definition isControlFrame (f : WebSocketFrame) : bool := (8 <=? opcode_val (opcode f))%Z.

Definition setTextPayload (f : WebSocketFrame) (text : str) : WebSocketFrame :=
  mkFrame (fin f) (rsv1 f) (rsv2 f) (rsv3 f) Text (mask f) (maskingKey f) (u8_of <$> text).

Definition setBinaryPayload (f : WebSocketFrame) (data : list Z) : WebSocketFrame :=
  mkFrame (fin f) (rsv1 f) (rsv2 f) (rsv3 f) Binary (mask f) (maskingKey f) data.

Definition textPayload (f : WebSocketFrame) : str := chr <$> payload f.

Inductive DecodeStatus := Ok | Incomplete | Error.

Record DecodeResult := mkDecode {
  status : DecodeStatus;
  frame : WebSocketFrame;
  consumed : Z
}.

(** ** Encoding *)

(** The second header byte and the extended length, for a payload of [n]
    bytes. *)
Definition encode_len (masked : bool) (n : Z) : list Z :=
  let byte2 := (if masked then 0x80 else 0x00)%Z in
  if (n <=? 125)%Z then [Z.lor byte2 (u8 n)]
  else if (n <=? 65535)%Z then
    [Z.lor byte2 126; u8 (Z.land (Z.shiftr n 8) 0xFF); u8 (Z.land n 0xFF)]
  else
    Z.lor byte2 127 ::
    ((λ i, u8 (Z.land (Z.shiftr n (i * 8)) 0xFF)) <$> [7; 6; 5; 4; 3; 2; 1; 0]%Z).

(** [dst[i] = payload[i] ^ maskingKey[i & 3]]. *)
Definition mask_payload (key p : list Z) : list Z :=
  imap (λ i b, Z.lxor b (nth (Nat.land i 3) key 0%Z)) p.

Definition encode (f : WebSocketFrame) (masked : bool) (key : list Z) : list Z :=
  let byte1 := Z.lor (Z.lor (Z.lor (Z.lor
                 (if fin f then 0x80 else 0x00)
                 (Z.shiftl (Z.land (rsv1 f) 1) 6))
                 (Z.shiftl (Z.land (rsv2 f) 1) 5))
                 (Z.shiftl (Z.land (rsv3 f) 1) 4))
                 (Z.land (opcode_val (opcode f)) 0x0F) in
  [u8 byte1] ++ encode_len masked (zlen (payload f)) ++
  (if masked then key else []) ++
  (if masked then mask_payload key (payload f) else payload f).

Definition encodeRaw (op : WsOpcode) (p : list Z) (fin masked : bool) (key : list Z) : list Z :=
  let byte1 := Z.lor (if fin then 0x80 else 0x00) (Z.land (opcode_val op) 0x0F) in
  [u8 byte1] ++ encode_len masked (zlen p) ++
  (if masked then key else []) ++
  (if masked then mask_payload key p else p).

Definition encodeText (text : str) : list Z := encodeRaw Text (u8_of <$> text) true false [].
Definition encodeBinary (data : list Z) : list Z := encodeRaw Binary data true false [].

Definition encodeClose (code : Z) (reason : str) : list Z :=
  encode (mkFrame true 0 0 0 Close false [0; 0; 0; 0]%Z
            ([u8 (Z.land (Z.shiftr code 8) 0xFF); u8 (Z.land code 0xFF)]
             ++ (u8_of <$> reason))) false [].

Definition encodePong (pingData : list Z) : list Z :=
  encode (mkFrame true 0 0 0 Pong false [0; 0; 0; 0]%Z pingData) false [].

Definition encodePing (data : list Z) : list Z :=
  encode (mkFrame true 0 0 0 Ping false [0; 0; 0; 0]%Z data) false [].

(** ** Decoding *)

Definition incomplete (f : WebSocketFrame) : option DecodeResult :=
  Some (mkDecode Incomplete f 0).

(** The part of [decode] after the length field: mask key, bound check and
    payload.  [None] is [std::length_error], which [payload.resize] throws
    for a size above [max_size] (2^63 - 1); it can only be reached when the
    64-bit sum [headerSize + payloadLen] of the bound check has wrapped. *)
Definition decode_body (data : list Z) (f : WebSocketFrame) (headerSize payloadLen : Z)
    : option DecodeResult :=
  let len := zlen data in
  if mask f && (len <? headerSize + 4)%Z then incomplete f else
  let key := if mask f then take 4 (drop (Z.to_nat headerSize) data) else maskingKey f in
  let headerSize := if mask f then (headerSize + 4)%Z else headerSize in
  let f := mkFrame (fin f) (rsv1 f) (rsv2 f) (rsv3 f) (opcode f) (mask f) key (payload f) in
  if (len <? u64 (headerSize + payloadLen))%Z then incomplete f else
  if (2 ^ 63 <=? payloadLen)%Z then None else
  let p := take (Z.to_nat payloadLen) (drop (Z.to_nat headerSize) data) in
  let p := if mask f then imap (λ i b, Z.lxor b (nth (i mod 4) key 0%Z)) p else p in
  Some (mkDecode Ok (mkFrame (fin f) (rsv1 f) (rsv2 f) (rsv3 f) (opcode f) (mask f) key p)
                 (u64 (headerSize + payloadLen))).

(** The 64-bit length: [payloadLen = (payloadLen << 8) | data[i]]. *)
Definition len64 (bytes : list Z) : Z :=
  foldl (λ acc b, Z.lor (u64 (Z.shiftl acc 8)) b) 0%Z bytes.

Definition decode (data : list Z) : option DecodeResult :=
  match data with
  | d0 :: d1 :: rest =>
      let f := mkFrame (negb (Z.land d0 0x80 =? 0)%Z)
                       (Z.land (Z.shiftr d0 6) 1) (Z.land (Z.shiftr d0 5) 1)
                       (Z.land (Z.shiftr d0 4) 1)
                       (opcode_of (Z.land d0 0x0F))
                       (negb (Z.land d1 0x80 =? 0)%Z) [0; 0; 0; 0]%Z [] in
      let payloadLen := Z.land d1 0x7F in
      if (payloadLen =? 126)%Z then
        match rest with
        | d2 :: d3 :: _ => decode_body data f 4 (Z.lor (Z.shiftl d2 8) d3)
        | _ => incomplete f
        end
      else if (payloadLen =? 127)%Z then
        if length data <? 10 then incomplete f
        else decode_body data f 10 (len64 (take 8 rest))
      else decode_body data f 2 payloadLen
  | _ => incomplete frame0
  end.

(** ** The handshake key *)

Definition GUID : str := #"258EAFA5-E914-47DA-95CA-C5AB0DC85B11".
Definition base64Chars : str :=
  #"ABCDEFGHIJKLMNOPQRSTUVWXYZabcdefghijklmnopqrstuvwxyz0123456789+/".

Definition base64Char (n : Z) : ascii := nth (Z.to_nat (Z.land n 0x3F)) base64Chars "="%char.

(** The loop [for (i = 0; i < SHA_DIGEST_LENGTH; i += 3)]. *)
Fixpoint base64 (hash : list Z) : str :=
  match hash with
  | a :: b :: c :: rest =>
      let n := Z.lor (Z.lor (Z.shiftl a 16) (Z.shiftl b 8)) c in
      base64Char (Z.shiftr n 18) :: base64Char (Z.shiftr n 12) ::
      base64Char (Z.shiftr n 6) :: base64Char n :: base64 rest
  | [a; b] =>
      let n := Z.lor (Z.lor (Z.shiftl a 16) (Z.shiftl b 8)) 0 in
      [base64Char (Z.shiftr n 18); base64Char (Z.shiftr n 12); base64Char (Z.shiftr n 6); "="%char]
  | [a] =>
      let n := Z.lor (Z.lor (Z.shiftl a 16) 0) 0 in
      [base64Char (Z.shiftr n 18); base64Char (Z.shiftr n 12); "="%char; "="%char]
  | [] => []
  end.

Definition computeAcceptKey (SHA1 : str → list Z) (clientKey : str) : str :=
  base64 (SHA1 (clientKey ++ GUID)).

(** ** Round trip *)

Definition byte_list (l : list Z) : Prop := Forall (λ b, 0 ≤ b < 256)%Z l.
Definition bit (b : Z) : Prop := b = 0%Z ∨ b = 1%Z.

(** A frame the encoder is meant for: one-bit reserved fields, a four-bit
    opcode, a payload of bytes that fits in memory. *)
Record frame_ok (f : WebSocketFrame) : Prop := {
  ok_rsv1 : bit (rsv1 f);
  ok_rsv2 : bit (rsv2 f);
  ok_rsv3 : bit (rsv3 f);
  ok_opcode : (0 ≤ opcode_val (opcode f) < 16)%Z;
  ok_named : opcode_of (opcode_val (opcode f)) = opcode f;
  ok_size : (zlen (payload f) < 2 ^ 62)%Z
}.

(** The fields [decode] reads from the first header byte. *)
Definition header_of (b1 : Z) : bool * Z * Z * Z * WsOpcode :=
  (negb (Z.land b1 0x80 =? 0)%Z, Z.land (Z.shiftr b1 6) 1, Z.land (Z.shiftr b1 5) 1,
   Z.land (Z.shiftr b1 4) 1, opcode_of (Z.land b1 0x0F)).

Definition byte1_of (fin : bool) (r1 r2 r3 v : Z) : Z :=
  u8 (Z.lor (Z.lor (Z.lor (Z.lor (if fin then 0x80 else 0x00)
       (Z.shiftl (Z.land r1 1) 6)) (Z.shiftl (Z.land r2 1) 5))
       (Z.shiftl (Z.land r3 1) 4)) (Z.land v 0x0F)).

Lemma header_of_byte1 fin r1 r2 r3 v :
  bit r1 → bit r2 → bit r3 → (0 ≤ v < 16)%Z →
  header_of (byte1_of fin r1 r2 r3 v) = (fin, r1, r2, r3, opcode_of v).
Proof.
  intros H1 H2 H3 Hv. eapply bool_decide_eq_true_1.
  destruct fin, H1 as [-> | ->], H2 as [-> | ->], H3 as [-> | ->];
    match goal with |- bool_decide (header_of (byte1_of ?a ?b ?c ?d _) = _) = true =>
      by_evaluation (λ v, bool_decide (header_of (byte1_of a b c d v) = (a, b, c, d, opcode_of v))) 16 v
    end.
Qed.

Lemma byte2_short (m : bool) n :
  (0 ≤ n < 128)%Z →
  let b := Z.lor (if m then 0x80 else 0x00) (u8 n) in
  Z.land b 0x7F = n ∧ negb (Z.land b 0x80 =? 0)%Z = m.
Proof.
  intros Hn. simpl.
  assert (H : bool_decide (Z.land (Z.lor (if m then 0x80 else 0x00) (u8 n)) 0x7F = n) &&
    bool_decide (negb (Z.land (Z.lor (if m then 0x80 else 0x00) (u8 n)) 0x80 =? 0)%Z = m) = true).
  { destruct m.
    - by_evaluation (λ n, bool_decide (Z.land (Z.lor 0x80 (u8 n)) 0x7F = n) &&
        bool_decide (negb (Z.land (Z.lor 0x80 (u8 n)) 0x80 =? 0)%Z = true)) 128 n.
    - by_evaluation (λ n, bool_decide (Z.land (Z.lor 0x00 (u8 n)) 0x7F = n) &&
        bool_decide (negb (Z.land (Z.lor 0x00 (u8 n)) 0x80 =? 0)%Z = false)) 128 n. }
  by bool_to_prop.
Qed.

(** Reading eight big-endian bytes back. *)
Lemma len64_step acc b :
  (0 ≤ acc < 2 ^ 56)%Z → (0 ≤ b < 256)%Z →
  Z.lor (u64 (Z.shiftl acc 8)) b = (acc * 256 + b)%Z.
Proof.
  intros. rewrite u64_small by (rewrite Z.shiftl_mul_pow2 by lia; lia).
  by rewrite lor_shiftl_add by lia.
Qed.

Fixpoint bytes_be (k : nat) (n : Z) : list Z :=
  match k with
  | O => []
  | S k' => u8 (Z.land (Z.shiftr n (Z.of_nat k' * 8)) 0xFF) :: bytes_be k' n
  end.

Lemma bytes_be_fold k n acc :
  k ≤ 8 → (0 ≤ n)%Z → (0 ≤ acc < 2 ^ (64 - 8 * Z.of_nat k))%Z →
  foldl (λ acc b, Z.lor (u64 (Z.shiftl acc 8)) b) acc (bytes_be k n)
  = (acc * 256 ^ Z.of_nat k + n mod 256 ^ Z.of_nat k)%Z.
Proof.
  revert acc. induction k as [|k IH]; intros acc Hk Hn Hacc.
  - simpl. rewrite Z.mod_1_r. lia.
  - cbn [bytes_be foldl]. rewrite shiftr_byte by lia. unfold u8.
    change (2 ^ 8)%Z with 256%Z. rewrite Z.mod_mod by lia.
    replace (2 ^ (Z.of_nat k * 8))%Z with (256 ^ Z.of_nat k)%Z
      by (rewrite Z.mul_comm, Z.pow_mul_r by lia; done).
    set (b := ((n / 256 ^ Z.of_nat k) mod 256)%Z).
    assert (Hb : (0 ≤ b < 256)%Z) by (apply Z.mod_pos_bound; lia).
    assert (Hacc' : (acc < 2 ^ 56)%Z).
    { eapply Z.lt_le_trans; [apply Hacc|]. apply Z.pow_le_mono_r; lia. }
    rewrite len64_step by lia. rewrite IH; [|lia|lia|].
    + rewrite Nat2Z.inj_succ, Z.pow_succ_r, (Z.mul_comm 256) by lia.
      rewrite Z.rem_mul_r by lia. fold b. lia.
    + split; [lia|]. replace (64 - 8 * Z.of_nat k)%Z
        with (8 + (64 - 8 * Z.of_nat (S k)))%Z by lia.
      rewrite Z.pow_add_r by lia. change (2 ^ 8)%Z with 256%Z. nia.
Qed.

Lemma len64_bytes n : (0 ≤ n < 2 ^ 64)%Z → len64 (bytes_be 8 n) = n.
Proof.
  intros Hn. unfold len64. rewrite bytes_be_fold by (simpl; lia).
  change (256 ^ Z.of_nat 8)%Z with (2 ^ 64)%Z. rewrite Z.mod_small by lia. lia.
Qed.

Lemma length_bytes_be k n : length (bytes_be k n) = k.
Proof. induction k; simpl; congruence. Qed.

(** The header size the decoder computes for a payload of [n] bytes. *)
Definition header_size (n : Z) : Z :=
  if (n <=? 125)%Z then 2 else if (n <=? 65535)%Z then 4 else 10.

Lemma encode_len_size m n : (1 + zlen (encode_len m n))%Z = header_size n.
Proof. unfold encode_len, header_size. by destruct (n <=? 125)%Z, (n <=? 65535)%Z. Qed.

Definition frame_of_header (h : bool * Z * Z * Z * WsOpcode) (m : bool)
    (key p : list Z) : WebSocketFrame :=
  let '(fi, r1, r2, r3, op) := h in mkFrame fi r1 r2 r3 op m key p.

(** Decoding sees through the header, whatever follows it. *)
Lemma decode_header b1 m n tail :
  (0 ≤ n < 2 ^ 63)%Z →
  decode (b1 :: encode_len m n ++ tail)
  = decode_body (b1 :: encode_len m n ++ tail)
      (frame_of_header (header_of b1) m [0; 0; 0; 0]%Z []) (header_size n) n.
Proof.
  intros Hn. unfold encode_len, header_size, header_of, frame_of_header.
  destruct (n <=? 125)%Z eqn:E1; [|destruct (n <=? 65535)%Z eqn:E2]; bool_to_prop;
    cbn [app decode].
  - destruct (byte2_short m n ltac:(lia)) as [-> ->].
    rewrite (proj2 (Z.eqb_neq n 126)), (proj2 (Z.eqb_neq n 127)) by lia. done.
  - destruct (byte2_short m 126 ltac:(lia)) as [H1 H2].
    change (u8 126) with 126%Z in H1, H2. rewrite H1, H2. simpl Z.eqb. cbv iota.
    f_equal. unfold u8. rewrite shiftr_byte, land_255 by lia.
    change (2 ^ 8)%Z with 256%Z. rewrite !Z.mod_mod by lia.
    rewrite lor_shiftl_add by (try apply Z.mod_pos_bound; lia).
    rewrite (Z.mod_small (n / 256)) by (split; [apply Z.div_pos|apply Z.div_lt_upper_bound]; lia).
    change (2 ^ 8)%Z with 256%Z. pose proof (Z.div_mod n 256). lia.
  - destruct (byte2_short m 127 ltac:(lia)) as [H1 H2].
    change (u8 127) with 127%Z in H1, H2. rewrite H1, H2.
    change ((λ i, u8 (Z.land (Z.shiftr n (i * 8)) 0xFF)) <$> [7; 6; 5; 4; 3; 2; 1; 0]%Z)
      with (bytes_be 8 n).
    simpl Z.eqb. cbv iota.
    rewrite (proj2 (Nat.ltb_ge _ _)) by (pose proof (length_bytes_be 8 n); len).
    f_equal. rewrite take_app_length' by (by rewrite length_bytes_be). apply len64_bytes. lia.
Qed.

Lemma mask_payload_mod key p :
  mask_payload key p = imap (λ i b, Z.lxor b (nth (i mod 4) key 0%Z)) p.
Proof.
  apply imap_ext. intros i x _. change 3 with (Nat.ones 2). by rewrite Nat.land_ones.
Qed.

(** Masking twice with the same key is the identity. *)
Lemma mask_twice key p :
  imap (λ i b, Z.lxor b (nth (i mod 4) key 0%Z)) (mask_payload key p) = p.
Proof.
  rewrite mask_payload_mod. apply list_eq. intros i. rewrite !list_lookup_imap.
  destruct (p !! i) as [b|]; [|done]. simpl.
  by rewrite Z.lxor_assoc, Z.lxor_nilpotent, Z.lxor_0_r.
Qed.

Lemma length_mask_payload key p : length (mask_payload key p) = length p.
Proof. apply length_imap. Qed.

(** The decoded frame of a masked or plain payload [w] as it is on the wire. *)
Definition unmask (m : bool) (key w : list Z) : list Z :=
  if m then imap (λ i b, Z.lxor b (nth (i mod 4) key 0%Z)) w else w.

Lemma decode_body_ok hdr fi r1 r2 r3 op m k0 key w rest n :
  zlen hdr = header_size n → length key = (if m : bool then 4 else 0) → n = zlen w →
  (zlen (hdr ++ key ++ w ++ rest) < 2 ^ 63)%Z →
  decode_body (hdr ++ key ++ w ++ rest) (mkFrame fi r1 r2 r3 op m k0 []) (header_size n) n
  = Some (mkDecode Ok (mkFrame fi r1 r2 r3 op m (if m then key else k0) (unmask m key w))
            (zlen (hdr ++ key ++ w))).
Proof.
  intros Hh Hk -> Hlen. unfold decode_body. cbn [mask maskingKey fin rsv1 rsv2 rsv3 opcode].
  rewrite <-Hh in *.
  assert (Hd : drop (Z.to_nat (zlen hdr)) (hdr ++ key ++ w ++ rest) = key ++ w ++ rest).
  { unfold zlen. rewrite Nat2Z.id. by rewrite drop_app_length. }
  assert (Hsz : (if m then zlen hdr + 4 else zlen hdr)%Z = zlen (hdr ++ key)).
  { destruct m; len. }
  rewrite Hsz. rewrite (u64_small (zlen (hdr ++ key) + zlen w)) by len.
  replace (m && (_ <? _)%Z) with false by (destruct m; [simpl; symmetry; apply Z.ltb_ge; len|done]).
  rewrite (proj2 (Z.ltb_ge _ _)) by len. rewrite (proj2 (Z.leb_gt _ _)) by len.
  assert (Hw : take (Z.to_nat (zlen w)) (drop (Z.to_nat (zlen (hdr ++ key))) (hdr ++ key ++ w ++ rest)) = w).
  { rewrite (app_assoc hdr). unfold zlen. rewrite !Nat2Z.id, drop_app_length. by rewrite take_app_length. }
  rewrite Hw, Hd. f_equal. f_equal; [|len].
  destruct m; [|done]. by rewrite take_app_length'.
Qed.

(** What a decoder sees of an encoded frame. *)
Definition seen (f : WebSocketFrame) (masked : bool) (key : list Z) : WebSocketFrame :=
  mkFrame (fin f) (rsv1 f) (rsv2 f) (rsv3 f) (opcode f) masked
          (if masked then key else [0; 0; 0; 0]%Z) (payload f).

Definition wire_key (masked : bool) (key : list Z) : list Z := if masked then key else [].
Definition wire_payload (masked : bool) (key p : list Z) : list Z :=
  if masked then mask_payload key p else p.

Lemma encode_split f masked key :
  encode f masked key
  = byte1_of (fin f) (rsv1 f) (rsv2 f) (rsv3 f) (opcode_val (opcode f)) ::
    encode_len masked (zlen (payload f)) ++ wire_key masked key ++
    wire_payload masked key (payload f).
Proof. done. Qed.

Lemma length_wire_payload m key p : length (wire_payload m key p) = length p.
Proof. destruct m; [apply length_mask_payload|done]. Qed.

Lemma unmask_wire m key p : unmask m (wire_key m key) (wire_payload m key p) = p.
Proof. destruct m; [apply mask_twice|done]. Qed.

(** What [encode] produced is decoded whatever bytes follow. *)
Lemma decode_app (f : WebSocketFrame) (masked : bool) (key rest : list Z)
    (Hf : frame_ok f) (Hkey : length key = 4)
    (Hrest : (zlen (encode f masked key ++ rest) < 2 ^ 63)%Z) :
  decode (encode f masked key ++ rest)
  = Some (mkDecode Ok (seen f masked key) (zlen (encode f masked key))).
Proof.
  destruct Hf. rewrite encode_split in *. rewrite <-!app_comm_cons, <-!app_assoc in *.
  rewrite decode_header by (unfold zlen in *; lia).
  rewrite header_of_byte1 by done. cbn [frame_of_header]. rewrite ok_named0.
  pose proof (length_wire_payload masked key (payload f)) as Hw.
  rewrite app_comm_cons in *.
  rewrite (decode_body_ok _ _ _ _ _ _ _ _ _ (wire_payload masked key (payload f)) rest);
    [| |by destruct masked|unfold zlen; lia|done].
  - rewrite unmask_wire. by destruct masked.
  - rewrite <-(encode_len_size masked). unfold zlen. simpl length. lia.
Qed.

Lemma decode_short_header b1 m n k :
  (0 ≤ n)%Z → k < length (b1 :: encode_len m n) →
  ∃ f, decode (take k (b1 :: encode_len m n)) = incomplete f.
Proof.
  intros Hn Hk. unfold encode_len in *.
  destruct (n <=? 125)%Z eqn:E1; [|destruct (n <=? 65535)%Z eqn:E2];
    simpl length in Hk; bool_to_prop.
  - do 2 (destruct k as [|k]; [by eexists|]). lia.
  - destruct (byte2_short m 126 ltac:(lia)) as [H1 H2].
    change (u8 126) with 126%Z in H1, H2.
    do 2 (destruct k as [|k]; [by eexists|]).
    do 2 (destruct k as [|k]; [cbn [take decode]; rewrite H1; by eexists|]). lia.
  - destruct (byte2_short m 127 ltac:(lia)) as [H1 H2].
    change (u8 127) with 127%Z in H1, H2.
    do 2 (destruct k as [|k]; [by eexists|]). cbn [take decode]. rewrite H1. cbv iota.
    simpl Z.eqb. cbv iota. rewrite (proj2 (Nat.ltb_lt _ _)); [by eexists|].
    simpl length. rewrite length_take. lia.
Qed.

Lemma decode_prefix (f : WebSocketFrame) (masked : bool) (key : list Z) (k : nat)
    (Hf : frame_ok f) (Hkey : length key = 4) (Hk : k < length (encode f masked key)) :
  ∃ r, decode (take k (encode f masked key)) = Some r ∧ status r = Incomplete.
Proof.
  destruct Hf. rewrite encode_split in *.
  set (b1 := byte1_of _ _ _ _ _) in *. set (n := zlen (payload f)) in *.
  assert (Hn : n = Z.of_nat (length (payload f))) by done. clearbody n.
  pose proof (encode_len_size masked n) as Hh.
  pose proof (length_wire_payload masked key (payload f)) as Hw.
  destruct (decide (k < length (b1 :: encode_len masked n))) as [Hs|Hs].
  - rewrite app_comm_cons, take_app_le by lia.
    destruct (decode_short_header b1 masked n k ltac:(lia) Hs) as [g ->]. by eexists.
  - rewrite app_comm_cons, take_app_ge, <-app_comm_cons by lia.
    rewrite decode_header by lia.
    set (tail := take _ _).
    assert (Hlen : (zlen tail < zlen (wire_key masked key) + n)%Z).
    { unfold tail. len. }
    unfold decode_body, frame_of_header. destruct (header_of b1) as [[[[??]?]?]?]. simpl mask.
    destruct (masked && _)%Z eqn:Em; [by eexists|].
    rewrite (proj2 (Z.ltb_lt _ _)); [by eexists|].
    rewrite u64_small by (unfold header_size, zlen in *; destruct masked; repeat case_match; lia).
    rewrite app_comm_cons. unfold zlen in *. rewrite length_app. simpl length in *.
    unfold wire_key in Hlen. destruct masked; simpl in Hlen; lia.
Qed.

(** C13: decoding what [encode] produced, whatever bytes follow it, gives the
    frame back (unmasked) and consumes exactly the encoded bytes, for every
    payload size, with and without masking.  As long as the last byte of the
    frame is missing the decoder reports [Incomplete], whatever the split point
    (header, extended length, masking key or payload), so that the stream is
    never framed wrongly. *)
Theorem decode_encode (f : WebSocketFrame) (masked : bool) (key rest : list Z)
    (Hf : frame_ok f) (Hkey : length key = 4)
    (Hrest : (zlen (encode f masked key ++ rest) < 2 ^ 63)%Z) :
  decode (encode f masked key ++ rest) = Some (mkDecode Ok (seen f masked key) (zlen (encode f masked key))) ∧
  ∀ k, k < length (encode f masked key) → status <$> decode (take k (encode f masked key)) = Some Incomplete.
Proof.
  split; [by apply decode_app|]. intros k Hk. destruct (decode_prefix f masked key k Hf Hkey Hk) as (r & -> & Hr).
  cbn. by rewrite Hr.
Qed.

Lemma decode_encode_witness :
  let f := mkFrame true 0 1 0 Ping false [0; 0; 0; 0]%Z [10; 20; 30; 40; 50]%Z in
  decode (encode f true [1; 2; 3; 4]%Z ++ [7%Z])
  = Some (mkDecode Ok (seen f true [1; 2; 3; 4]%Z) 11).
Proof.
  intros f.
  refine (proj1 (decode_encode f true [1; 2; 3; 4]%Z [7%Z] _ eq_refl _)); [|vm_compute; reflexivity].
  split; vm_compute; auto; split; congruence.
Defined.

(** ** Progress, errors and overflow *)

Lemma len64_bounds bs : byte_list bs → (0 ≤ len64 bs < 2 ^ 64)%Z.
Proof.
  unfold len64. intros Hbs.
  assert (H : ∀ acc, (0 ≤ acc < 2 ^ 64)%Z →
    (0 ≤ foldl (λ acc b, Z.lor (u64 (Z.shiftl acc 8)) b) acc bs < 2 ^ 64)%Z); [|apply H; lia].
  induction Hbs as [|b bs Hb _ IH]; intros acc Hacc; simpl; [done|]. apply IH.
  replace (u64 (Z.shiftl acc 8)) with (Z.shiftl (acc mod 2 ^ 56) 8).
  - rewrite lor_shiftl_add by lia. pose proof (Z.mod_pos_bound acc (2 ^ 56)). lia.
  - unfold u64. rewrite !Z.shiftl_mul_pow2 by lia.
    change (2 ^ 64)%Z with (2 ^ 56 * 2 ^ 8)%Z. by rewrite Z.mul_mod_distr_r by lia.
Qed.

(** [decode] is one call of [decode_body] on a header of at most ten bytes,
    unless the header itself is incomplete. *)
Lemma decode_inv data :
  byte_list data →
  (∃ f, decode data = incomplete f) ∨
  (∃ f h p, decode data = decode_body data f h p ∧
     (2 ≤ h ≤ 10)%Z ∧ (0 ≤ p < 2 ^ 64)%Z).
Proof.
  intros Hb. unfold decode, byte_list in *.
  destruct data as [|d0 [|d1 rest]]; [left; by eexists..|].
  assert (H7 : (0 ≤ Z.land d1 0x7F < 2 ^ 64)%Z).
  { change 0x7F%Z with (Z.ones 7). rewrite Z.land_ones by lia.
    pose proof (Z.mod_pos_bound d1 (2 ^ 7)). lia. }
  destruct (_ =? 126)%Z; [|destruct (_ =? 127)%Z].
  - destruct rest as [|d2 [|d3 rest]]; [left; by eexists..|].
    right. eexists _, _, _. split; [done|]. split; [lia|].
    rewrite lor_shiftl_add; decompose_Forall; lia.
  - destruct (_ <? 10); [left; by eexists|].
    right. eexists _, _, _. split; [done|]. split; [lia|]. apply len64_bounds.
    apply Forall_take. by decompose_Forall.
  - right. eexists _, _, _. split; [done|]. split; [lia|done].
Qed.

(** Progress and safety of [decode] on arbitrary bytes: it never reports
    [Error]; a frame it accepts lies within the given bytes and takes at least
    two of them, so that the loop of [handleWsFrames] retrieves a positive
    number of readable bytes each time round. *)
Theorem decode_progress (data : list Z) (r : DecodeResult)
    (Hb : byte_list data) (Hlen : (zlen data < 2 ^ 63)%Z) (Hr : decode data = Some r) :
  status r ≠ Error ∧
  (status r = Ok → (2 ≤ consumed r ≤ zlen data)%Z) ∧
  (status r = Ok → (zlen (payload (frame r)) ≤ consumed r)%Z).
Proof.
  destruct (decode_inv data Hb) as [[f E]|(f & h & p & E & Hh & Hp)]; rewrite E in Hr; clear E.
  { unfold incomplete in Hr. by simplify_eq. }
  unfold decode_body, incomplete in Hr.
  destruct (_ && _)%Z; [by simplify_eq|]. set (h' := (if mask f then _ else h)) in *.
  destruct (_ <? u64 _)%Z eqn:E1; [by simplify_eq|].
  destruct (_ <=? p)%Z eqn:E2; [done|]. bool_to_prop.
  assert (Hh' : (2 ≤ h' ≤ 14)%Z) by (subst h'; destruct (mask f); lia).
  rewrite u64_small in * by lia. simplify_eq. cbn [status consumed frame payload].
  split_and!; [done|lia|]. intros _. unfold zlen in *.
  cbn [mask]. destruct (mask f); rewrite ?length_imap, length_take; lia.
Qed.

Lemma decode_progress_witness :
  let data := [0x81; 0x02; 0x68; 0x69; 0x00]%Z in
  let r := mkDecode Ok (mkFrame true 0 0 0 Text false [0; 0; 0; 0]%Z [0x68; 0x69]%Z) 4 in
  decode data = Some r ∧ (2 ≤ consumed r ≤ zlen data)%Z.
Proof.
  intros data r. assert (Hr : decode data = Some r) by reflexivity. split; [exact Hr|].
  refine (proj1 (proj2 (decode_progress data r _ _ Hr)) eq_refl);
    [repeat constructor; lia|vm_compute; reflexivity].
Defined.

(** The only way [decode] fails to return is the wrapped bound check: it
    throws exactly when the 64-bit length field, added to the header size,
    exceeds 2^64 - 1.  Ten to fourteen bytes from the network are enough. *)
Theorem decode_overflow (fin_op : Z) (masked : bool) (key : list Z) (n : Z)
    (Hop : (0 ≤ fin_op < 256)%Z) (Hkey : length key = 4)
    (Hn : (0 ≤ n < 2 ^ 64)%Z) (Hbig : (65535 < n)%Z) :
  let hs := if masked then 14%Z else 10%Z in
  decode ([fin_op; Z.lor (if masked then 0x80 else 0) 127] ++ bytes_be 8 n ++ wire_key masked key)
  = None ↔ (2 ^ 64 ≤ hs + n)%Z.
Proof.
  intros hs. destruct (byte2_short masked 127 ltac:(lia)) as [H1 H2].
  change (u8 127) with 127%Z in H1, H2.
  cbn [app decode]. rewrite H1, H2. cbv iota. simpl Z.eqb. cbv iota.
  rewrite (proj2 (Nat.ltb_ge _ _)) by (pose proof (length_bytes_be 8 n); len).
  rewrite take_app_length' by (by rewrite length_bytes_be). rewrite len64_bytes by done.
  unfold decode_body, incomplete. cbn [mask maskingKey]. unfold zlen.
  cbn [length]. rewrite length_app, length_bytes_be.
  replace (masked && (_ <? _)%Z) with false by (destruct masked; simpl; rewrite ?Hkey; done).
  replace (if masked then (10 + 4)%Z else 10%Z) with hs by (by destruct masked).
  assert (Hl : (Z.of_nat (S (S (8 + length (wire_key masked key)))) = hs)%Z).
  { destruct masked; simpl; rewrite ?Hkey; done. }
  rewrite Hl. assert (10 ≤ hs ≤ 14)%Z by (subst hs; destruct masked; lia).
  destruct (_ <? u64 _)%Z eqn:E; bool_to_prop.
  - split; [done|]. intros Ho.
    assert (Hu : u64 (hs + n) = (hs + n - 2 ^ 64)%Z)
      by (symmetry; apply (Z.mod_unique _ _ 1); lia). lia.
  - assert (Ho : (2 ^ 64 ≤ hs + n)%Z).
    { destruct (Z.lt_ge_cases (hs + n) (2 ^ 64)); [|done]. rewrite u64_small in E by lia. lia. }
    rewrite (proj2 (Z.leb_le _ _)) by lia. done.
Qed.

Lemma decode_overflow_witness :
  decode ([0x82; 0xFF]%Z ++ bytes_be 8 (2 ^ 64 - 1) ++ [1; 2; 3; 4]%Z) = None.
Proof.
  apply (decode_overflow 0x82 true [1; 2; 3; 4]%Z (2 ^ 64 - 1)); try lia. reflexivity.
Defined.

(** [encodeRaw], the allocation-free path of [encodeText]/[encodeBinary],
    agrees with [encode] on a plain frame. *)
Lemma encodeRaw_encode op p fi masked key :
  (0 ≤ opcode_val op)%Z →
  encodeRaw op p fi masked key
  = encode (mkFrame fi 0 0 0 op false [0; 0; 0; 0]%Z p) masked key.
Proof. intros. unfold encodeRaw, encode. simpl. by destruct fi. Qed.

(** ** Base 64 *)

(** The inverse of [base64], for the round trip. *)
Definition char_value (c : ascii) : option Z :=
  Z.of_nat ∘ fst <$> list_find (λ d, d = c) base64Chars.

Fixpoint unbase64 (s : str) : list Z :=
  match s with
  | c1 :: c2 :: c3 :: c4 :: rest =>
      match char_value c1, char_value c2, char_value c3, char_value c4 with
      | Some a, Some b, Some c, Some d =>
          let n := (a * 2 ^ 18 + b * 2 ^ 12 + c * 2 ^ 6 + d)%Z in
          [n / 2 ^ 16; (n / 2 ^ 8) mod 256; n mod 256]%Z ++ unbase64 rest
      | Some a, Some b, Some c, None => [a * 4 + b / 16; (b mod 16) * 16 + c / 4]%Z
      | Some a, Some b, None, None => [a * 4 + b / 16]%Z
      | _, _, _, _ => []
      end
  | _ => []
  end.

Lemma char_value_base64 n : char_value (base64Char n) = Some (n mod 64)%Z.
Proof.
  unfold base64Char. change 0x3F%Z with (Z.ones 6). rewrite Z.land_ones by lia.
  change (2 ^ 6)%Z with 64%Z. pose proof (Z.mod_pos_bound n 64 ltac:(lia)) as H.
  generalize dependent (n mod 64)%Z. intros m Hm. eapply bool_decide_eq_true_1.
  by_evaluation (λ m, bool_decide
    (char_value (nth (Z.to_nat m) base64Chars "="%char) = Some m)) 64 m.
Qed.

Lemma base64_group a b c :
  (0 ≤ a < 256)%Z → (0 ≤ b < 256)%Z → (0 ≤ c < 256)%Z →
  Z.lor (Z.lor (Z.shiftl a 16) (Z.shiftl b 8)) c = (a * 2 ^ 16 + b * 2 ^ 8 + c)%Z.
Proof.
  intros. replace (Z.shiftl a 16) with (Z.shiftl (Z.shiftl a 8) 8)
    by (by rewrite Z.shiftl_shiftl by lia).
  rewrite <-Z.shiftl_lor.
  rewrite !lor_shiftl_add by (try rewrite lor_shiftl_add; lia). lia.
Qed.

Lemma unbase64_group n a b c d rest :
  a = (Z.shiftr n 18) → b = (Z.shiftr n 12) → c = (Z.shiftr n 6) → d = n →
  (0 ≤ n < 2 ^ 24)%Z →
  unbase64 (base64Char a :: base64Char b :: base64Char c :: base64Char d :: rest)
  = [n / 2 ^ 16; (n / 2 ^ 8) mod 256; n mod 256]%Z ++ unbase64 rest.
Proof.
  intros -> -> -> -> Hn. cbn [unbase64]. rewrite !char_value_base64.
  rewrite !Z.shiftr_div_pow2 by lia.
  replace ((n / 2 ^ 18) mod 64 * 2 ^ 18 + (n / 2 ^ 12) mod 64 * 2 ^ 12 +
           (n / 2 ^ 6) mod 64 * 2 ^ 6 + n mod 64)%Z with n; [done|].
  assert (D12 : (n / 2 ^ 12 = n / 2 ^ 6 / 64)%Z) by (by rewrite Z.div_div by lia).
  assert (D18 : (n / 2 ^ 18 = n / 2 ^ 12 / 64)%Z) by (by rewrite Z.div_div by lia).
  rewrite (Z.mod_small (n / 2 ^ 18))
    by (split; [apply Z.div_pos|apply Z.div_lt_upper_bound]; lia).
  pose proof (Z.div_mod n 64). pose proof (Z.div_mod (n / 2 ^ 6) 64).
  pose proof (Z.div_mod (n / 2 ^ 12) 64). change (2 ^ 6)%Z with 64%Z in *. lia.
Qed.

Lemma div_of q r d n : (0 ≤ r < d)%Z → n = (d * q + r)%Z → (n / d)%Z = q ∧ (n mod d)%Z = r.
Proof. intros Hr ->. split; symmetry; [eapply Z.div_unique|eapply Z.mod_unique]; eauto. Qed.

Lemma unbase64_two a b :
  (0 ≤ a < 256)%Z → (0 ≤ b < 256)%Z → unbase64 (base64 [a; b]) = [a; b].
Proof.
  intros Ha Hb. cbn [base64]. rewrite base64_group by lia. cbn [unbase64].
  rewrite !char_value_base64, !Z.shiftr_div_pow2, Z.add_0_r by lia.
  replace (char_value "=") with (@None Z) by (by vm_compute).
  pose proof (Z.div_mod a 4). pose proof (Z.mod_pos_bound a 4).
  pose proof (Z.div_mod b 16). pose proof (Z.mod_pos_bound b 16).
  destruct (div_of (a * 1024 + b * 4) 0 (2 ^ 6) (a * 2 ^ 16 + b * 2 ^ 8)) as [-> _]; [lia..|].
  destruct (div_of (a * 16 + b / 16) (b mod 16 * 256) (2 ^ 12) (a * 2 ^ 16 + b * 2 ^ 8)) as [-> _]; [lia..|].
  destruct (div_of (a / 4) (a mod 4 * 65536 + b * 256) (2 ^ 18) (a * 2 ^ 16 + b * 2 ^ 8)) as [-> _]; [lia..|].
  destruct (div_of (a * 16 + b / 16) (b mod 16 * 4) 64 (a * 1024 + b * 4)) as [_ ->]; [lia..|].
  destruct (div_of (a / 4) (a mod 4 * 16 + b / 16) 64 (a * 16 + b / 16)) as [_ ->]; [lia..|].
  rewrite (Z.mod_small (a / 4)) by lia.
  destruct (div_of (a mod 4) (b / 16) 16 (a mod 4 * 16 + b / 16)) as [-> ->]; [lia..|].
  destruct (div_of (b mod 16) 0 4 (b mod 16 * 4)) as [-> _]; [lia..|].
  f_equal; [lia|]. f_equal. lia.
Qed.

Lemma unbase64_one a : (0 ≤ a < 256)%Z → unbase64 (base64 [a]) = [a].
Proof.
  intros Ha. eapply bool_decide_eq_true_1.
  by_evaluation (λ a, bool_decide (unbase64 (base64 [a]) = [a])) 256 a.
Qed.

(** The base-64 loop of [computeAcceptKey] is the standard encoding: it is
    inverted by decoding, for hashes of any length, so distinct SHA-1 values
    yield distinct [Sec-WebSocket-Accept] keys. *)
Theorem base64_roundtrip (hash : list Z) (Hb : byte_list hash) :
  unbase64 (base64 hash) = hash.
Proof.
  remember (length hash) as k eqn:Hk. revert hash Hk Hb.
  induction (lt_wf k) as [k _ IH]. intros hash -> Hb. unfold byte_list in *.
  destruct hash as [|a [|b [|c rest]]]; [done| | |];
    rewrite ?Forall_cons in Hb; destruct_and?.
  - by apply unbase64_one.
  - by apply unbase64_two.
  - cbn [base64]. rewrite base64_group by lia.
    rewrite (unbase64_group (a * 2 ^ 16 + b * 2 ^ 8 + c)) by lia.
    rewrite (IH (length rest)) by (simpl; try lia; done).
    destruct (div_of a (b * 2 ^ 8 + c) (2 ^ 16) (a * 2 ^ 16 + b * 2 ^ 8 + c)) as [-> _]; [lia..|].
    destruct (div_of (a * 2 ^ 8 + b) c (2 ^ 8) (a * 2 ^ 16 + b * 2 ^ 8 + c)) as [-> Em]; [lia..|].
    change (2 ^ 8)%Z with 256%Z in Em at 2. rewrite Em.
    by destruct (div_of a b 256 (a * 2 ^ 8 + b)) as [_ ->]; [lia..|].
Qed.

Lemma base64_roundtrip_witness :
  base64 [104; 101; 108; 108; 111]%Z = #"aGVsbG8=" ∧
  unbase64 (base64 [104; 101; 108; 108; 111]%Z) = [104; 101; 108; 108; 111]%Z.
Proof.
  split; [vm_compute; reflexivity|].
  apply (base64_roundtrip [104; 101; 108; 108; 111]%Z). repeat constructor; lia.
Defined.
