(* ===== verification/Poller.v ===== *)
(** * Poller: channels and the epoll poller

    Models [src/net/Channel.h], [src/net/Channel.cc], [src/net/Poller.cc] and
    [src/net/EPollPoller.cc].  The kernel's epoll instance is not code of the
    repository: it is the class [Epoll], whose laws are the behaviour that
    epoll_ctl(2) documents. *)

From S2P Require Import Prelude.

(** ** Channel *)

Definition EPOLLIN : Z := 0x001.
Definition EPOLLPRI : Z := 0x002.
Definition EPOLLOUT : Z := 0x004.
Definition EPOLLERR : Z := 0x008.
Definition EPOLLHUP : Z := 0x010.

Definition kNoneEvent : Z := 0.
Definition kReadEvent : Z := Z.lor EPOLLIN EPOLLPRI.
Definition kWriteEvent : Z := EPOLLOUT.

(** The callbacks of a channel; which of them are set is part of its state. *)
Inductive Callback := ReadCb | WriteCb | CloseCb | ErrorCb.

#[export] Instance Callback_eq_dec : EqDecision Callback.
Proof. solve_decision. Defined.

Record Channel := mkChannel {
  fd_ : Z;
  events_ : Z;
  revents_ : Z;
  index_ : Z;
  tied_ : bool;
  callbacks_ : list Callback
}.

Definition Channel_new (fd : Z) : Channel := mkChannel fd 0 0 (-1) false [].

Definition set_events (c : Channel) (e : Z) : Channel :=
  mkChannel (fd_ c) e (revents_ c) (index_ c) (tied_ c) (callbacks_ c).
Definition set_index (c : Channel) (i : Z) : Channel :=
  mkChannel (fd_ c) (events_ c) (revents_ c) i (tied_ c) (callbacks_ c).
Definition set_revents (c : Channel) (r : Z) : Channel :=
  mkChannel (fd_ c) (events_ c) r (index_ c) (tied_ c) (callbacks_ c).
Definition tie (c : Channel) : Channel :=
  mkChannel (fd_ c) (events_ c) (revents_ c) (index_ c) true (callbacks_ c).

(** The interest changes; each is followed by [update()], that is
    [Poller.updateChannel]. *)
Definition enableReading (c : Channel) : Channel := set_events c (Z.lor (events_ c) kReadEvent).
Definition disableReading (c : Channel) : Channel := set_events c (Z.land (events_ c) (Z.lnot kReadEvent)).
Definition enableWriting (c : Channel) : Channel := set_events c (Z.lor (events_ c) kWriteEvent).
Definition disableWriting (c : Channel) : Channel := set_events c (Z.land (events_ c) (Z.lnot kWriteEvent)).
Definition disableAll (c : Channel) : Channel := set_events c kNoneEvent.

Definition isNoneEvent (c : Channel) : bool := (events_ c =? kNoneEvent)%Z.
Definition isWriting (c : Channel) : bool := negb (Z.land (events_ c) kWriteEvent =? 0)%Z.
Definition isReading (c : Channel) : bool := negb (Z.land (events_ c) kReadEvent =? 0)%Z.

Definition has (revents bits : Z) : bool := negb (Z.land revents bits =? 0)%Z.

(** [if (cb_) cb_()]. *)
Definition call (c : Channel) (cb : Callback) : list Callback :=
  if bool_decide (cb ∈ callbacks_ c) then [cb] else [].

(** The callbacks run for the received events, in order. *)
Definition handleEventWithGuard (c : Channel) : list Callback :=
  (if has (revents_ c) EPOLLHUP && negb (has (revents_ c) EPOLLIN) then call c CloseCb else []) ++
  (if has (revents_ c) EPOLLERR then call c ErrorCb else []) ++
  (if has (revents_ c) (Z.lor EPOLLIN EPOLLPRI) then call c ReadCb else []) ++
  (if has (revents_ c) EPOLLOUT then call c WriteCb else []).

(** [alive] is the result of [tie_.lock()]. *)
Definition handleEvent (c : Channel) (alive : bool) : list Callback :=
  if tied_ c then (if alive then handleEventWithGuard c else [])
  else handleEventWithGuard c.

(** ** The kernel's interest list *)

Inductive CtlOp := CTL_ADD | CTL_MOD | CTL_DEL.

(** [ep_ctl] is [None] when [epoll_ctl] returns -1; an entry of the interest
    list is an event mask with the user pointer. *)
Class Epoll (K : Type) := {
  ep_interest : K → gmap Z (Z * Z);
  ep_empty : K;
  ep_ctl : K → CtlOp → Z → Z → Z → option K;
  ep_empty_ok : ep_interest ep_empty = ∅;
  (** EEXIST when the descriptor is already registered. *)
  ep_add_ok k fd ev p : ep_interest k !! fd = None →
    ∃ k', ep_ctl k CTL_ADD fd ev p = Some k' ∧ ep_interest k' = <[fd:=(ev, p)]> (ep_interest k);
  (** ENOENT when it is not. *)
  ep_mod_ok k fd ev p : is_Some (ep_interest k !! fd) →
    ∃ k', ep_ctl k CTL_MOD fd ev p = Some k' ∧ ep_interest k' = <[fd:=(ev, p)]> (ep_interest k);
  ep_del_ok k fd ev p : is_Some (ep_interest k !! fd) →
    ∃ k', ep_ctl k CTL_DEL fd ev p = Some k' ∧ ep_interest k' = delete fd (ep_interest k)
}.

(** A concrete interest list. *)
Definition gmap_ctl (k : gmap Z (Z * Z)) (op : CtlOp) (fd ev p : Z) : option (gmap Z (Z * Z)) :=
  match op, k !! fd with
  | CTL_ADD, None | CTL_MOD, Some _ => Some (<[fd:=(ev, p)]> k)
  | CTL_DEL, Some _ => Some (delete fd k)
  | _, _ => None
  end.

#[export] Program Instance gmap_epoll : Epoll (gmap Z (Z * Z)) :=
  {| ep_interest k := k; ep_empty := ∅; ep_ctl := gmap_ctl |}.
Next Obligation. done. Qed.
Next Obligation. intros k fd ev p H. simpl in *. rewrite H. eauto. Qed.
Next Obligation. intros k fd ev p [x H]. simpl in *. rewrite H. eauto. Qed.
Next Obligation. intros k fd ev p [x H]. simpl in *. rewrite H. eauto. Qed.

(** ** EPollPoller *)

Definition kNew : Z := -1.
Definition kAdded : Z := 1.
Definition kDeleted : Z := 2.

Section Poller.
Context {K : Type} `{Epoll K}.

(** The poller and the channel objects it holds pointers to.  A channel is
    named by its address. *)
Record PollerState := mkPoller {
  kernel : K;
  channels_ : gmap Z Z;
  heap : gmap Z Channel
}.

Definition Poller_new (heap : gmap Z Channel) : PollerState := mkPoller ep_empty ∅ heap.

(** [EPollPoller::update]: a failed ADD or MOD is [LOG_FATAL], which exits
    the process ([None]); a failed DEL is only logged. *)
Definition update (s : PollerState) (op : CtlOp) (p : Z) (c : Channel) : option PollerState :=
  match ep_ctl (kernel s) op (fd_ c) (events_ c) p with
  | Some k => Some (mkPoller k (channels_ s) (heap s))
  | None => match op with
            | CTL_DEL => Some s
            | _ => None
            end
  end.

Definition put (s : PollerState) (p : Z) (c : Channel) : PollerState :=
  mkPoller (kernel s) (channels_ s) (<[p:=c]> (heap s)).

Definition updateChannel (s : PollerState) (p : Z) : option PollerState :=
  match heap s !! p with
  | None => None
  | Some c =>
      let index := index_ c in
      if ((index =? kNew) || (index =? kDeleted))%Z then
        let s1 := if (index =? kNew)%Z
                  then mkPoller (kernel s) (<[fd_ c:=p]> (channels_ s)) (heap s) else s in
        let c' := set_index c kAdded in
        update (put s1 p c') CTL_ADD p c'
      else if isNoneEvent c then
        s1 ← update s CTL_DEL p c; Some (put s1 p (set_index c kDeleted))
      else update s CTL_MOD p c
  end.

Definition removeChannel (s : PollerState) (p : Z) : option PollerState :=
  match heap s !! p with
  | None => None
  | Some c =>
      let s1 := mkPoller (kernel s) (delete (fd_ c) (channels_ s)) (heap s) in
      s2 ← (if (index_ c =? kAdded)%Z then update s1 CTL_DEL p c else Some s1);
      Some (put s2 p (set_index c kNew))
  end.

Definition hasChannel (s : PollerState) (p : Z) : bool :=
  match heap s !! p with
  | Some c => bool_decide (channels_ s !! fd_ c = Some p)
  | None => false
  end.

(** [fillActiveChannels] on the (pointer, revents) pairs of [epoll_wait]. *)
Definition fillActiveChannels (s : PollerState) (evs : list (Z * Z)) : PollerState * list Z :=
  (mkPoller (kernel s) (channels_ s)
     (foldl (λ h '(p, r), alter (λ c, set_revents c r) p h) (heap s) evs),
   fst <$> evs).

Definition kInitEventListSize : Z := 128.

(** What [epoll_wait] answers; a failure comes with its [errno]. *)
Inductive Waited := Events (evs : list (Z * Z)) | TimedOut | WaitFailed (e : Z).

Definition EINTR : Z := 4.

(** [poll], with the size of the event array and [errno] as it was before: the
    poller, the active channels, the size of the array for the next time, and
    the [errno] that is logged. *)
Definition poll (s : PollerState) (size saveErrno : Z) (answer : Waited) : PollerState * list Z * Z * option Z :=
  match answer with
  | Events evs =>
      let '(s1, active) := fillActiveChannels s evs in
      (s1, active, if (zlen evs =? size)%Z then (size * 2)%Z else size, None)
  | TimedOut => (s, [], size, None)
  | WaitFailed e => (s, [], size, if (e =? EINTR)%Z then None else Some saveErrno)
  end.

(** What a channel does to itself, followed by [update()] or [remove()]. *)
Inductive ChannelOp :=
  | EnableReading | DisableReading | EnableWriting | DisableWriting
  | DisableAll | Remove.

Definition apply_op (op : ChannelOp) (c : Channel) : Channel :=
  match op with
  | EnableReading => enableReading c
  | DisableReading => disableReading c
  | EnableWriting => enableWriting c
  | DisableWriting => disableWriting c
  | DisableAll => disableAll c
  | Remove => c
  end.

Definition channel_op (s : PollerState) (p : Z) (op : ChannelOp) : option PollerState :=
  match heap s !! p with
  | None => None
  | Some c =>
      let s1 := put s p (apply_op op c) in
      match op with
      | Remove => removeChannel s1 p
      | _ => updateChannel s1 p
      end
  end.

Fixpoint channel_ops (s : PollerState) (ops : list (Z * ChannelOp)) : option PollerState :=
  match ops with
  | [] => Some s
  | (p, op) :: ops' => s1 ← channel_op s p op; channel_ops s1 ops'
  end.

(** ** Consistency of the three views of a channel *)

(** What the index of the channel at [p] says about the channel map and the
    kernel. *)
Definition channel_ok (s : PollerState) (p : Z) (c : Channel) : Prop :=
  (index_ c = kNew ∧ channels_ s !! fd_ c = None ∧ ep_interest (kernel s) !! fd_ c = None) ∨
  (index_ c = kAdded ∧ channels_ s !! fd_ c = Some p ∧
     ep_interest (kernel s) !! fd_ c = Some (events_ c, p)) ∨
  (index_ c = kDeleted ∧ channels_ s !! fd_ c = Some p ∧
     ep_interest (kernel s) !! fd_ c = None).

(** Live channels have distinct descriptors. *)
Definition fds_distinct (h : gmap Z Channel) : Prop :=
  ∀ p q c d, h !! p = Some c → h !! q = Some d → fd_ c = fd_ d → p = q.

(** Every registration belongs to a live channel: the kernel never holds a
    dangling pointer. *)
Definition no_dangling (s : PollerState) : Prop :=
  ∀ fd e p, ep_interest (kernel s) !! fd = Some (e, p) →
    ∃ c, heap s !! p = Some c ∧ fd_ c = fd.

Definition Poller_ok (s : PollerState) : Prop :=
  fds_distinct (heap s) ∧ no_dangling s ∧
  ∀ p c, heap s !! p = Some c → channel_ok s p c.

(** A step that touches only the descriptor of the channel at [p]. *)
Lemma Poller_ok_step s s' p c c' :
  Poller_ok s → heap s !! p = Some c → fd_ c' = fd_ c →
  heap s' = <[p:=c']> (heap s) →
  (∀ fd, fd ≠ fd_ c → channels_ s' !! fd = channels_ s !! fd ∧
     ep_interest (kernel s') !! fd = ep_interest (kernel s) !! fd) →
  channel_ok s' p c' → Poller_ok s'.
Proof.
  intros (Hfd & Hdang & Hok) Hp Hc' Hheap Hother Hp'.
  assert (Hd : ∀ q d, q ≠ p → heap s !! q = Some d → fd_ d ≠ fd_ c).
  { intros q d Hq Hd E. by apply Hq, (Hfd q p d c). }
  split_and!.
  - intros q r d e. rewrite Hheap, !lookup_insert.
    repeat case_decide; intros; simplify_eq; [done| | |by eapply Hfd];
      exfalso; eapply Hd; [|done|congruence| |done|congruence]; done.
  - intros fd e q He. destruct (decide (fd = fd_ c)) as [->|Hne].
    + unfold channel_ok in Hp'. rewrite Hc' in Hp'. exists c'. rewrite Hheap.
      assert (q = p) as -> by naive_solver. by rewrite lookup_insert_eq.
    + destruct (Hother fd Hne) as [_ Hk]. rewrite Hk in He.
      destruct (Hdang _ _ _ He) as (d & Hq & <-). exists d. rewrite Hheap.
      rewrite lookup_insert_ne; [done|]. intros ->. by simplify_eq.
  - intros q d. rewrite Hheap, lookup_insert. case_decide; intros; simplify_eq; [done|].
    pose proof (Hok _ _ H1) as Hq. unfold channel_ok in *.
    destruct (Hother (fd_ d)) as [-> ->]; [by eapply Hd|done].
Qed.

Lemma interest_changed (k k' : K) (m : gmap Z (Z * Z)) fd :
  ep_interest k' = m → (∀ fd', fd' ≠ fd → m !! fd' = ep_interest k !! fd') →
  ∀ fd', fd' ≠ fd → ep_interest k' !! fd' = ep_interest k !! fd'.
Proof. intros -> H0 fd' Hne. by apply H0. Qed.

Lemma updateChannel_ok s p c :
  Poller_ok s → heap s !! p = Some c →
  ∀ c0, fd_ c0 = fd_ c → index_ c0 = index_ c →
  ∃ s', updateChannel (put s p c0) p = Some s' ∧ Poller_ok s' ∧ dom (heap s') = dom (heap s).
Proof.
  intros Hs Hp c0 Hfd Hidx. pose proof Hs as (_ & _ & Hok). specialize (Hok _ _ Hp).
  assert (Hdom : ∀ d, dom (<[p:=d]> (heap s)) = dom (heap s)).
  { intros d. rewrite dom_insert_L. apply elem_of_dom_2 in Hp. set_solver. }
  unfold updateChannel. cbn [put heap]. rewrite lookup_insert_eq, Hidx.
  destruct Hok as [(Hi & Hch & Hk)|[(Hi & Hch & Hk)|(Hi & Hch & Hk)]]; rewrite Hi; simpl.
  - unfold update. simpl.
    destruct (ep_add_ok (kernel s) (fd_ c0) (events_ c0) p) as (k' & -> & Hk'); [by rewrite Hfd|].
    eexists. split; [done|]. simpl. rewrite ?insert_insert_eq. split; [|apply Hdom].
    eapply (Poller_ok_step s _ p c (set_index c0 kAdded)); simpl; [done|done|done|by rewrite ?insert_insert_eq| |].
    + intros fd Hne. rewrite Hk', Hfd. by rewrite !lookup_insert_ne by done.
    + right; left. simpl. rewrite Hk', Hfd, !lookup_insert_eq. done.
  - unfold isNoneEvent, update. simpl. destruct (_ =? _)%Z.
    + destruct (ep_del_ok (kernel s) (fd_ c0) (events_ c0) p) as (k' & -> & Hk'); [rewrite Hfd, Hk; eauto|].
      eexists. split; [done|]. simpl. rewrite ?insert_insert_eq. split; [|apply Hdom].
      eapply (Poller_ok_step s _ p c (set_index c0 kDeleted)); simpl; [done|done|done|by rewrite ?insert_insert_eq| |].
      * intros fd Hne. rewrite Hk', Hfd. by rewrite lookup_delete_ne by done.
      * right; right. simpl. rewrite Hk', Hfd, lookup_delete_eq. done.
    + destruct (ep_mod_ok (kernel s) (fd_ c0) (events_ c0) p) as (k' & -> & Hk'); [rewrite Hfd, Hk; eauto|].
      eexists. split; [done|]. simpl. split; [|apply Hdom].
      eapply (Poller_ok_step s _ p c c0); simpl; [done|done|done|by rewrite ?insert_insert_eq| |].
      * intros fd Hne. rewrite Hk', Hfd. by rewrite lookup_insert_ne by done.
      * right; left. rewrite Hidx, Hfd. simpl. rewrite Hk', Hfd, lookup_insert_eq. done.
  - unfold update. simpl.
    destruct (ep_add_ok (kernel s) (fd_ c0) (events_ c0) p) as (k' & -> & Hk'); [by rewrite Hfd|].
    eexists. split; [done|]. simpl. rewrite ?insert_insert_eq. split; [|apply Hdom].
    eapply (Poller_ok_step s _ p c (set_index c0 kAdded)); simpl; [done|done|done|by rewrite ?insert_insert_eq| |].
    + intros fd Hne. rewrite Hk', Hfd. by rewrite lookup_insert_ne by done.
    + right; left. simpl. rewrite Hk', Hfd, lookup_insert_eq. done.
Qed.

Lemma removeChannel_ok s p c :
  Poller_ok s → heap s !! p = Some c →
  ∃ s', removeChannel s p = Some s' ∧ Poller_ok s' ∧ dom (heap s') = dom (heap s) ∧
    heap s' !! p = Some (set_index c kNew).
Proof.
  intros Hs Hp. pose proof Hs as (_ & _ & Hok). specialize (Hok _ _ Hp).
  assert (Hdom : ∀ d, dom (<[p:=d]> (heap s)) = dom (heap s)).
  { intros d. rewrite dom_insert_L. apply elem_of_dom_2 in Hp. set_solver. }
  unfold removeChannel. rewrite Hp.
  destruct Hok as [(Hi & Hch & Hk)|[(Hi & Hch & Hk)|(Hi & Hch & Hk)]]; rewrite Hi; simpl.
  2: { unfold update. simpl.
    destruct (ep_del_ok (kernel s) (fd_ c) (events_ c) p) as (k' & -> & Hk'); [rewrite Hk; eauto|].
    eexists. split; [done|]. simpl. split_and!; [|apply Hdom|apply lookup_insert_eq].
    eapply (Poller_ok_step s _ p c (set_index c kNew)); simpl; [done|done|done|by rewrite ?insert_insert_eq| |].
    + intros fd Hne. rewrite Hk'. by rewrite !lookup_delete_ne by done.
    + left. simpl. by rewrite Hk', !lookup_delete_eq. }
  all: eexists; split; [done|]; simpl; split_and!; [|apply Hdom|apply lookup_insert_eq];
    eapply (Poller_ok_step s _ p c (set_index c kNew)); simpl; [done..| |];
    [intros fd Hne; by rewrite lookup_delete_ne by done
    |left; simpl; by rewrite lookup_delete_eq].
Qed.

Lemma Poller_ok_put s p c c' :
  Poller_ok s → heap s !! p = Some c → c' = c → Poller_ok (put s p c').
Proof.
  intros Hs Hp ->. unfold put. rewrite insert_id by done. by destruct s.
Qed.

Lemma channel_op_ok s p op :
  Poller_ok s → p ∈ dom (heap s) →
  ∃ s', channel_op s p op = Some s' ∧ Poller_ok s' ∧ dom (heap s') = dom (heap s).
Proof.
  intros Hs [c Hp]%elem_of_dom. unfold channel_op. rewrite Hp.
  destruct op; cbn [apply_op];
    try (eapply updateChannel_ok; [done|done|done|done]).
  pose proof (Poller_ok_put s p c c Hs Hp eq_refl) as Hs'.
  destruct (removeChannel_ok (put s p c) p c Hs') as (s' & -> & ? & Hdom & _);
    [apply lookup_insert_eq|].
  exists s'. split_and!; [done|done|]. rewrite Hdom. simpl.
  rewrite dom_insert_L. apply elem_of_dom_2 in Hp. set_solver.
Qed.

(** C12: from a fresh poller, whatever sequence of interest changes and
    removals is applied to channels with distinct descriptors, [epoll_ctl]
    never fails (so the process is not killed by [LOG_FATAL]), the channel
    map and the kernel agree with each channel's [index_], an added channel
    is registered in the kernel with exactly its current [events_], and no
    registration outlives its channel. *)
Theorem poller_consistent (h : gmap Z Channel) (ops : list (Z * ChannelOp))
    (Hfd : fds_distinct h)
    (Hnew : ∀ p c, h !! p = Some c → index_ c = kNew)
    (Hops : ∀ p op, (p, op) ∈ ops → p ∈ dom h) :
  ∃ s, channel_ops (Poller_new h) ops = Some s ∧ Poller_ok s ∧
    ∀ p c, heap s !! p = Some c →
      (hasChannel s p = true ↔ index_ c ≠ kNew) ∧
      (ep_interest (kernel s) !! fd_ c = Some (events_ c, p) ↔ index_ c = kAdded).
Proof.
  assert (Hinit : Poller_ok (Poller_new h)).
  { split_and!; [done| |].
    - intros fd e p. simpl. by rewrite ep_empty_ok, lookup_empty.
    - intros p c Hp. left. simpl. rewrite ep_empty_ok, !lookup_empty.
      split_and!; [by eapply Hnew|done|done]. }
  assert (Hrun : ∀ s, Poller_ok s → dom (heap s) = dom h →
    ∃ s', channel_ops s ops = Some s' ∧ Poller_ok s').
  { clear Hinit. induction ops as [|[p op] ops' IH]; intros s Hs Hdom; simpl; [by eauto|].
    destruct (channel_op_ok s p op Hs) as (s1 & -> & H1 & Hd1).
    { rewrite Hdom. eapply Hops. by left. }
    simpl. apply IH; [|done|congruence]. intros q o Hq. eapply Hops. by right. }
  destruct (Hrun _ Hinit eq_refl) as (s & Hs & Hok). exists s. split_and!; [done|done|].
  intros p c Hp. destruct Hok as (_ & _ & Hok). specialize (Hok _ _ Hp).
  unfold hasChannel. rewrite Hp, bool_decide_eq_true.
  destruct Hok as [(-> & -> & ->)|[(-> & -> & ->)|(-> & -> & ->)]]; done.
Qed.
End Poller.
Arguments PollerState K : clear implicits.

Lemma poller_consistent_witness :
  let h : gmap Z Channel := <[1%Z := Channel_new 7]> (<[2%Z := Channel_new 8]> ∅) in
  let ops := [(1, EnableReading); (2, EnableWriting); (1, DisableAll); (1, EnableWriting); (2, Remove)]%Z in
  ∃ s, channel_ops (K := gmap Z (Z * Z)) (Poller_new h) ops = Some s ∧ Poller_ok s.
Proof.
  intros h ops. destruct (poller_consistent (K := gmap Z (Z * Z)) h ops) as (s & H1 & H2 & _).
  - intros p q c d. unfold h. rewrite !lookup_insert, !lookup_empty.
    repeat case_decide; intros; simplify_eq; done.
  - intros p c. unfold h. rewrite !lookup_insert, lookup_empty.
    repeat case_decide; intros; simplify_eq; done.
  - intros p op Hin. unfold h. rewrite !dom_insert_L. unfold ops in Hin. set_solver.
  - exists s. split; assumption.
Defined.

(** ** Event dispatch *)

(** What [handleEvent] runs: each callback at most once and only if it is
    set; close only on a hang-up without readable data, error on EPOLLERR,
    read on EPOLLIN or EPOLLPRI, write on EPOLLOUT, in that order; and nothing
    at all when the tied owner is gone. *)
Theorem handleEvent_dispatch (c : Channel) (alive : bool) :
  let run := handleEvent c alive in
  run `sublist_of` [CloseCb; ErrorCb; ReadCb; WriteCb] ∧
  (tied_ c = true → alive = false → run = []) ∧
  (tied_ c && negb alive = false →
     (CloseCb ∈ run ↔ CloseCb ∈ callbacks_ c ∧ has (revents_ c) EPOLLHUP = true ∧ has (revents_ c) EPOLLIN = false) ∧
     (ErrorCb ∈ run ↔ ErrorCb ∈ callbacks_ c ∧ has (revents_ c) EPOLLERR = true) ∧
     (ReadCb ∈ run ↔ ReadCb ∈ callbacks_ c ∧ has (revents_ c) (Z.lor EPOLLIN EPOLLPRI) = true) ∧
     (WriteCb ∈ run ↔ WriteCb ∈ callbacks_ c ∧ has (revents_ c) EPOLLOUT = true)).
Proof.
  assert (Hcall : ∀ b cb, (if b : bool then call c cb else []) `sublist_of` [cb]).
  { intros b cb. unfold call. destruct b; [case_bool_decide|]; auto using sublist_nil_l. }
  assert (Hin : ∀ cb' (b : bool) cb, cb' ∈ (if b then call c cb else []) ↔
    b = true ∧ cb' = cb ∧ cb ∈ callbacks_ c).
  { intros cb' b cb. unfold call. destruct b; [case_bool_decide|]; set_solver. }
  unfold handleEvent, handleEventWithGuard. split_and!.
  - destruct (tied_ c), alive; try apply sublist_nil_l;
      change [CloseCb; ErrorCb; ReadCb; WriteCb] with ([CloseCb] ++ [ErrorCb] ++ [ReadCb] ++ [WriteCb]);
      by repeat (apply sublist_app; [apply Hcall|]).
  - by intros -> ->.
  - intros Hal.
    replace (if tied_ c then if alive then _ else _ else _) with (handleEventWithGuard c)
      by (unfold handleEventWithGuard; by destruct (tied_ c), alive).
    unfold handleEventWithGuard. rewrite !elem_of_app, !Hin, !andb_true_iff, !negb_true_iff.
    naive_solver.
Qed.

(** ** Polls in a row *)

Section polls.
Context {K : Type} `{Epoll K}.

(** The size of the array after polls that each report one list of events. *)
Fixpoint sizes (s : @PollerState K) (size : Z) (rounds : list (list (Z * Z))) : Z :=
  match rounds with
  | [] => size
  | evs :: rounds => let '(s1, _, size1, _) := poll s size 0 (Events evs) in sizes s1 size1 rounds
  end.

(** As [epoll_wait] does with [n] descriptors that stay ready: as many as there
    are or as fit. *)
Fixpoint busy_rounds (n size : Z) (rounds : list (list (Z * Z))) : Prop :=
  match rounds with
  | [] => True
  | evs :: rounds => zlen evs = Z.min n size ∧ busy_rounds n (if (zlen evs =? size)%Z then (size * 2)%Z else size) rounds
  end.

Lemma sizes_grow n rounds : ∀ s size, (0 < size → size ≤ 2 * n → busy_rounds n size rounds →
  Z.min (n + 1) (size * 2 ^ Z.of_nat (length rounds)) ≤ sizes s size rounds)%Z.
Proof.
  induction rounds as [|evs rounds IH]; intros s size Hs Hn Hb; [cbn in *; lia|]. destruct Hb as [He Hb].
  cbn [sizes poll fillActiveChannels length]. rewrite Nat2Z.inj_succ, Z.pow_succ_r by lia. rewrite He in *.
  destruct (Z.eqb_spec (Z.min n size) size) as [E|E].
  - specialize (IH (fillActiveChannels s evs).1 (size * 2)%Z ltac:(lia) ltac:(lia) Hb). cbn [fillActiveChannels fst] in IH.
    rewrite <-Z.mul_assoc in IH. exact IH.
  - clear IH. revert Hb. generalize (mkPoller (kernel s) (channels_ s) (foldl (λ h '(p, r), alter (λ c, set_revents c r) p h) (heap s) evs)).
    intros s1 Hb. assert (Hlt : (n < size)%Z) by lia. transitivity (n + 1)%Z; [lia|]. clear E He Hs Hn evs s.
    revert s1 Hb. induction rounds as [|evs rounds IH]; intros s1 Hb; [cbn; lia|]. destruct Hb as [He Hb]. cbn [sizes poll fillActiveChannels].
    rewrite He in *. rewrite (proj2 (Z.eqb_neq _ _)) in * by lia. by apply IH.
Qed.

(** However many descriptors are ready, after a number of polls that grows with
    the logarithm of their number the array holds more than all of them: one
    poll reports them all. *)
Theorem polls_catch_up (n : Z) (s : @PollerState K) (rounds : list (list (Z * Z))) :
  (kInitEventListSize ≤ 2 * n)%Z → busy_rounds n kInitEventListSize rounds → (n < kInitEventListSize * 2 ^ Z.of_nat (length rounds))%Z →
  (n < sizes s kInitEventListSize rounds)%Z.
Proof. intros Hn Hb Hl. pose proof (sizes_grow n rounds s kInitEventListSize ltac:(done) Hn Hb). lia. Qed.
End polls.

(** A failure is logged with the [errno] from before the call. *)
Example stale_errno_logged :
  (poll (@Poller_new (gmap Z (Z * Z)) _ ∅) 128 0 (WaitFailed 9)).2 = Some 0%Z.
Proof. reflexivity. Qed.
