(* ===== verification/TcpConnection.v ===== *)
(** * TcpConnection: one connection in its I/O loop

    Models [src/net/TcpConnection.h] and [src/net/TcpConnection.cc] against
    the byte-queue interface of [Buffer.v] and the channel of [Poller.v].
    The results of [write], [writev], [sendfile] and [readv] are arguments of
    the operations that make the call.  What the connection does to the
    outside (bytes handed to the kernel, files sent and closed, callbacks,
    half-close) is appended to [log]; the functors it gives to its
    [EventLoop] are appended to [pending], which the loop runs in order
    (see [EventLoop.v]). *)

From S2P Require Import Prelude Buffer Poller.

Inductive StateE := kDisconnected | kConnecting | kConnected | kDisconnecting.

#[export] Instance StateE_eq_dec : EqDecision StateE.
Proof. solve_decision. Defined.

Record PendingFile := mkPending {
  pf_fd : Z;
  pf_offset : Z;
  pf_remaining : nat
}.

(** Observable effects, oldest first. *)
Inductive Effect :=
  | EWire (d : str)                     (* accepted by write/writev *)
  | ESendfile (fd off : Z) (n : nat)    (* accepted by sendfile *)
  | EClose (fd : Z)
  | EShutdownWrite
  | EUpdate (events : Z)                (* channel update *)
  | ERemoveChannel
  | EConnectionCallback (st : StateE)
  | EMessageCallback (n : Z)
  | ECloseCallback.

(** Functors queued in the loop. *)
Inductive Functor :=
  | FSend (msg : str)
  | FSendFile (fd off : Z) (count : nat)
  | FShutdown
  | FWriteComplete
  | FHighWaterMark (n : nat).

#[export] Instance Effect_eq_dec : EqDecision Effect.
Proof. solve_decision. Defined.
#[export] Instance Functor_eq_dec : EqDecision Functor.
Proof. solve_decision. Defined.

Definition EAGAIN : Z := 11.
Definition EWOULDBLOCK : Z := 11.
Definition EPIPE : Z := 32.
Definition ECONNRESET : Z := 104.

(** [constexpr size_t kBatch] of [drainPendingFiles]. *)
Definition kBatch : Z := 64 * 1024 * 1024.
Definition kMaxIov : nat := 16.

Section TcpConnection.
Context {B : Type} `{ByteQueue B}.

Record Conn := mkConn {
  state_ : StateE;
  channel_ : Channel;
  inputBuffer_ : B;
  outputBuffer_ : B;
  pendingFiles_ : list PendingFile;
  highWaterMark_ : Z;
  hasWriteComplete : bool;      (* writeCompleteCallback_ is set *)
  hasHighWaterMark : bool;      (* highWaterMarkCallback_ is set *)
  log : list Effect;
  pending : list Functor
}.

(** *** Field updates *)

Definition setState (c : Conn) (s : StateE) : Conn :=
  mkConn s (channel_ c) (inputBuffer_ c) (outputBuffer_ c) (pendingFiles_ c)
    (highWaterMark_ c) (hasWriteComplete c) (hasHighWaterMark c) (log c) (pending c).
Definition with_input (c : Conn) (b : B) : Conn :=
  mkConn (state_ c) (channel_ c) b (outputBuffer_ c) (pendingFiles_ c)
    (highWaterMark_ c) (hasWriteComplete c) (hasHighWaterMark c) (log c) (pending c).
Definition with_output (c : Conn) (b : B) : Conn :=
  mkConn (state_ c) (channel_ c) (inputBuffer_ c) b (pendingFiles_ c)
    (highWaterMark_ c) (hasWriteComplete c) (hasHighWaterMark c) (log c) (pending c).
Definition with_files (c : Conn) (fs : list PendingFile) : Conn :=
  mkConn (state_ c) (channel_ c) (inputBuffer_ c) (outputBuffer_ c) fs
    (highWaterMark_ c) (hasWriteComplete c) (hasHighWaterMark c) (log c) (pending c).
Definition emit (c : Conn) (es : list Effect) : Conn :=
  mkConn (state_ c) (channel_ c) (inputBuffer_ c) (outputBuffer_ c) (pendingFiles_ c)
    (highWaterMark_ c) (hasWriteComplete c) (hasHighWaterMark c) (log c ++ es) (pending c).
Definition queueInLoop (c : Conn) (f : Functor) : Conn :=
  mkConn (state_ c) (channel_ c) (inputBuffer_ c) (outputBuffer_ c) (pendingFiles_ c)
    (highWaterMark_ c) (hasWriteComplete c) (hasHighWaterMark c) (log c) (pending c ++ [f]).
Definition set_pending (c : Conn) (q : list Functor) : Conn :=
  mkConn (state_ c) (channel_ c) (inputBuffer_ c) (outputBuffer_ c) (pendingFiles_ c)
    (highWaterMark_ c) (hasWriteComplete c) (hasHighWaterMark c) (log c) q.
(** An interest change of the channel, with its [update()]. *)
Definition update_channel (f : Channel → Channel) (c : Conn) : Conn :=
  emit (mkConn (state_ c) (f (channel_ c)) (inputBuffer_ c) (outputBuffer_ c) (pendingFiles_ c)
    (highWaterMark_ c) (hasWriteComplete c) (hasHighWaterMark c) (log c) (pending c))
    [EUpdate (events_ (f (channel_ c)))].

(** *** Construction *)

Definition TcpConnection_new (sockfd : Z) (wc hw : bool) : Conn :=
  mkConn kConnecting
    (mkChannel sockfd 0 0 (-1) false [ReadCb; WriteCb; CloseCb; ErrorCb])
    (bq_empty 4096) (bq_empty 4096) [] (64 * 1024 * 1024) wc hw [] [].

Definition connected (c : Conn) : bool := bool_decide (state_ c = kConnected).

(** [if (writeCompleteCallback_) loop_->queueInLoop(...)]. *)
Definition queueWriteComplete (c : Conn) : Conn :=
  if hasWriteComplete c then queueInLoop c FWriteComplete else c.

Definition ensureWriting (c : Conn) : Conn :=
  if isWriting (channel_ c) then c else update_channel enableWriting c.

(** *** Sending bytes *)

(** [errno == EPIPE || errno == ECONNRESET], when it is not EWOULDBLOCK. *)
Definition fatal_errno (e : Z) : bool :=
  negb (e =? EWOULDBLOCK)%Z && ((e =? EPIPE) || (e =? ECONNRESET))%Z.

(** The direct write of [data]: the connection, the number of bytes
    accepted, and [faultError]. *)
Definition direct_write (c : Conn) (data : str) (wr : str → WriteResult) : Conn * nat * bool :=
  match wr data with
  | WrCount n =>
      let c1 := emit c [EWire (take n data)] in
      ((if length data - n =? 0 then queueWriteComplete c1 else c1), n, false)
  | WrErr e => (c, 0, fatal_errno e)
  end.

Definition sendInLoop (c : Conn) (data : str) (wr : str → WriteResult) : Conn :=
  if bool_decide (state_ c = kDisconnected) then c else
  let '(c1, nwrote, faultError) :=
    if negb (isWriting (channel_ c)) && (bq_readable (outputBuffer_ c) =? 0)
    then direct_write c data wr else (c, 0, false) in
  let remaining := length data - nwrote in
  if negb faultError && (0 <? remaining) then
    let oldLen := bq_readable (outputBuffer_ c1) in
    let c2 := if (highWaterMark_ c1 <=? Z.of_nat (oldLen + remaining))%Z
                 && (Z.of_nat oldLen <? highWaterMark_ c1)%Z && hasHighWaterMark c1
              then queueInLoop c1 (FHighWaterMark (oldLen + remaining)) else c1 in
    ensureWriting (with_output c2 (bq_append (outputBuffer_ c2) (drop nwrote data)))
  else c1.

(** The three [send] overloads: in the loop thread or from another one. *)
Definition send (c : Conn) (message : str) (inLoop : bool) (wr : str → WriteResult) : Conn :=
  if bool_decide (state_ c = kConnected) then
    if inLoop then sendInLoop c message wr else queueInLoop c (FSend message)
  else c.

(** The tail of a partial [writev]: skip what was written, append the rest. *)
Fixpoint append_tail (b : B) (slices : list str) (skip : nat) : B :=
  match slices with
  | [] => b
  | s :: rest =>
      if length s <=? skip then append_tail b rest (skip - length s)
      else append_tail (bq_append b (drop skip s)) rest 0
  end.

Definition sendIov (c : Conn) (slices : list str) (inLoop : bool) (wr : str → WriteResult) : Conn :=
  if bool_decide (slices = []) || negb (bool_decide (state_ c = kConnected)) then c else
  if negb inLoop then queueInLoop c (FSend (mjoin slices)) else
  if isWriting (channel_ c) || (0 <? bq_readable (outputBuffer_ c)) then
    let oldLen := bq_readable (outputBuffer_ c) in
    let added := sum_list (length <$> slices) in
    let c1 := with_output c (foldl bq_append (outputBuffer_ c) slices) in
    let c2 := if (Z.of_nat oldLen <? highWaterMark_ c1)%Z
                 && (highWaterMark_ c1 <=? Z.of_nat (oldLen + added))%Z && hasHighWaterMark c1
              then queueInLoop c1 (FHighWaterMark (oldLen + added)) else c1 in
    ensureWriting c2
  else
    let total := mjoin (take kMaxIov slices) in
    let '(c1, nwrote, faultError) := direct_write c total wr in
    let remaining := length total - nwrote in
    if negb faultError && (0 <? remaining) then
      let c2 := with_output c1 (append_tail (outputBuffer_ c1) slices nwrote) in
      let curLen := bq_readable (outputBuffer_ c2) in
      let c3 := if (highWaterMark_ c2 <=? Z.of_nat curLen)%Z && hasHighWaterMark c2
                then queueInLoop c2 (FHighWaterMark curLen) else c2 in
      ensureWriting c3
    else c1.

(** *** Sending files *)

(** [drainPendingFiles]: [sf k] is the result of the [k]-th [sendfile].  The
    files left, the effects, and whether there is still something to write. *)
Fixpoint drain (files : list PendingFile) (sf : nat → WriteResult) (k : nat)
    : list PendingFile * list Effect * bool :=
  match files with
  | [] => ([], [], false)
  | pf :: rest =>
      match sf k with
      | WrCount (S m as n) =>
          let remaining := pf_remaining pf - n in
          let sent := ESendfile (pf_fd pf) (pf_offset pf) n in
          if remaining =? 0 then
            let '(fs, es, b) := drain rest sf (S k) in
            (fs, [sent; EClose (pf_fd pf)] ++ es, b)
          else (mkPending (pf_fd pf) (pf_offset pf + Z.of_nat n) remaining :: rest, [sent], true)
      | WrCount 0 =>
          let '(fs, es, b) := drain rest sf (S k) in (fs, EClose (pf_fd pf) :: es, b)
      | WrErr e =>
          if ((e =? EAGAIN) || (e =? EWOULDBLOCK))%Z then (pf :: rest, [], true)
          else (rest, [EClose (pf_fd pf)], negb (bool_decide (rest = [])))
      end
  end.

(** The size of one [sendfile] request. *)
Definition toSend (pf : PendingFile) : Z := Z.min (Z.of_nat (pf_remaining pf)) kBatch.

Definition drainPendingFiles (c : Conn) (sf : nat → WriteResult) : Conn * bool :=
  let '(fs, es, b) := drain (pendingFiles_ c) sf 0 in (emit (with_files c fs) es, b).

Definition closePendingFiles (c : Conn) : Conn :=
  with_files (emit c (EClose ∘ pf_fd <$> pendingFiles_ c)) [].

Definition sendFile (c : Conn) (fd off : Z) (count : nat) (inLoop : bool)
    (sf : nat → WriteResult) : Conn :=
  if negb (bool_decide (state_ c = kConnected)) || (count =? 0) then
    if (0 <=? fd)%Z then emit c [EClose fd] else c
  else if negb inLoop then queueInLoop c (FSendFile fd off count)
  else
    let c1 := with_files c (pendingFiles_ c ++ [mkPending fd off count]) in
    if isWriting (channel_ c1) || (0 <? bq_readable (outputBuffer_ c1)) then ensureWriting c1
    else
      let '(c2, stillNeed) := drainPendingFiles c1 sf in
      if stillNeed then ensureWriting c2 else queueWriteComplete c2.

(** *** Shutting down *)

Definition shutdownInLoop (c : Conn) : Conn :=
  if isWriting (channel_ c) then c else emit c [EShutdownWrite].

Definition shutdown (c : Conn) (inLoop : bool) : Conn :=
  if bool_decide (state_ c = kConnected) then
    let c1 := setState c kDisconnecting in
    if inLoop then shutdownInLoop c1 else queueInLoop c1 FShutdown
  else c.

(** *** Events *)

Definition handleWrite (c : Conn) (wr : str → WriteResult) (sf : nat → WriteResult) : Conn :=
  if negb (isWriting (channel_ c)) then c else
  let finish c :=
    let '(c1, stillNeedWrite) := drainPendingFiles c sf in
    if stillNeedWrite then c1 else
    let c2 := queueWriteComplete (update_channel disableWriting c1) in
    if bool_decide (state_ c2 = kDisconnecting) then shutdownInLoop c2 else c2 in
  if 0 <? bq_readable (outputBuffer_ c) then
    match wr (bq_contents (outputBuffer_ c)) with
    | WrCount (S m as n) =>
        let c1 := with_output (emit c [EWire (take n (bq_contents (outputBuffer_ c)))])
                              (bq_retrieve (outputBuffer_ c) n) in
        if 0 <? bq_readable (outputBuffer_ c1) then c1 else finish c1
    | _ => c
    end
  else finish c.

Definition handleClose (c : Conn) : Conn :=
  emit (update_channel disableAll (setState c kDisconnected))
       [EConnectionCallback kDisconnected; ECloseCallback].

Definition handleRead (c : Conn) (r : ReadResult) : Conn :=
  let '(n, _, b) := bq_readFd (inputBuffer_ c) r in
  let c1 := with_input c b in
  if (0 <? n)%Z then emit c1 [EMessageCallback n]
  else if (n =? 0)%Z then handleClose c1
  else c1.    (* handleError only reads SO_ERROR and logs *)

Definition connectEstablished (c : Conn) : Conn :=
  let c1 := update_channel (enableReading ∘ tie) (setState c kConnected) in
  emit c1 [EConnectionCallback kConnected].

Definition connectDestroyed (c : Conn) : Conn :=
  let c1 :=
    if bool_decide (state_ c = kConnected) then
      emit (update_channel disableAll (setState c kDisconnected)) [EConnectionCallback kDisconnected]
    else c in
  emit c1 [ERemoveChannel].

Definition destructor (c : Conn) : Conn := closePendingFiles c.

(** *** Running a queued functor *)

Definition run_functor (c : Conn) (f : Functor) (wr : str → WriteResult)
    (sf : nat → WriteResult) : Conn :=
  match f with
  | FSend msg => sendInLoop c msg wr
  | FSendFile fd off n => sendFile c fd off n true sf
  | FShutdown => shutdownInLoop c
  | FWriteComplete | FHighWaterMark _ => c    (* user callbacks *)
  end.

(** ** Runs *)

Inductive Step :=
  | SSend (msg : str) (inLoop : bool) (wr : str → WriteResult)
  | SSendIov (slices : list str) (inLoop : bool) (wr : str → WriteResult)
  | SSendFile (fd off : Z) (count : nat) (inLoop : bool) (sf : nat → WriteResult)
  | SShutdown (inLoop : bool)
  | SFunctor (wr : str → WriteResult) (sf : nat → WriteResult)   (* run the oldest *)
  | SHandleWrite (wr : str → WriteResult) (sf : nat → WriteResult)
  | SHandleRead (r : ReadResult)
  | SHandleClose
  | SConnectDestroyed.

Definition step (c : Conn) (s : Step) : Conn :=
  match s with
  | SSend msg il wr => send c msg il wr
  | SSendIov sl il wr => sendIov c sl il wr
  | SSendFile fd off n il sf => sendFile c fd off n il sf
  | SShutdown il => shutdown c il
  | SFunctor wr sf =>
      match pending c with
      | [] => c
      | f :: q => run_functor (set_pending c q) f wr sf
      end
  | SHandleWrite wr sf => handleWrite c wr sf
  | SHandleRead r => handleRead c r
  | SHandleClose => handleClose c
  | SConnectDestroyed => connectDestroyed c
  end.

Definition run (c : Conn) (ss : list Step) : Conn := foldl step c ss.

(** ** What is on the wire *)

Fixpoint wire (es : list Effect) : str :=
  match es with
  | [] => []
  | EWire d :: es' => d ++ wire es'
  | _ :: es' => wire es'
  end.

Lemma wire_app es fs : wire (es ++ fs) = wire es ++ wire fs.
Proof. induction es as [|[] es IH]; simpl; rewrite ?IH, ?app_assoc; done. Qed.

(** Everything the connection has taken responsibility for, in order: what
    the kernel accepted, then what is still buffered. *)
Definition stream (c : Conn) : str := wire (log c) ++ bq_contents (outputBuffer_ c).

(** [write] accepts at most what it is given... *)
Definition write_ok (wr : str → WriteResult) : Prop :=
  ∀ d n, wr d = WrCount n → n ≤ length d.
(** ... and the peer has not reset the connection. *)
Definition no_reset (wr : str → WriteResult) : Prop :=
  ∀ d e, wr d = WrErr e → fatal_errno e = false.

Definition valid (c : Conn) : Prop := bq_valid (inputBuffer_ c) ∧ bq_valid (outputBuffer_ c).

(** Unsent data or an unfinished file keep write interest on. *)
Definition drained (c : Conn) : Prop :=
  bq_contents (outputBuffer_ c) = [] ∧ pendingFiles_ c = [].
Definition interest_ok (c : Conn) : Prop :=
  state_ c = kDisconnected ∨ isWriting (channel_ c) = true ∨ drained c.

Lemma isWriting_enable ch : isWriting (enableWriting ch) = true.
Proof.
  unfold isWriting, enableWriting, set_events, kWriteEvent, EPOLLOUT. simpl events_.
  rewrite negb_true_iff, Z.eqb_neq. intros E.
  apply (f_equal (λ z, Z.testbit z 2)) in E.
  rewrite Z.land_spec, Z.lor_spec, Z.bits_0, orb_true_r in E. done.
Qed.

Lemma isWriting_disable ch : isWriting (disableWriting ch) = false.
Proof.
  unfold isWriting, disableWriting, set_events, kWriteEvent, EPOLLOUT. simpl events_.
  rewrite negb_false_iff, Z.eqb_eq.
  by rewrite <-Z.land_assoc, (Z.land_comm (Z.lnot 4)), Z.land_lnot_diag, Z.land_0_r.
Qed.

Lemma isWriting_disableAll ch : isWriting (disableAll ch) = false.
Proof. done. Qed.

Lemma stream_emit c es : wire es = [] → stream (emit c es) = stream c.
Proof. intros Hes. unfold stream. simpl. by rewrite wire_app, Hes, app_nil_r. Qed.

Lemma stream_ensureWriting c : stream (ensureWriting c) = stream c.
Proof. unfold ensureWriting, update_channel. case_match; [done|]. by rewrite stream_emit. Qed.

Lemma stream_queueWC c : stream (queueWriteComplete c) = stream c.
Proof. unfold queueWriteComplete. by case_match. Qed.

Lemma isWriting_ensureWriting c : isWriting (channel_ (ensureWriting c)) = true.
Proof. unfold ensureWriting. case_match; [done|]. simpl. apply isWriting_enable. Qed.

Lemma readable_0 c :
  valid c → (bq_readable (outputBuffer_ c) =? 0) = true → bq_contents (outputBuffer_ c) = [].
Proof.
  intros [_ Hv] E. bool_to_prop. rewrite bq_readable_ok in E by done.
  by apply length_zero_iff_nil.
Qed.

Lemma direct_write_ok c data wr c1 n fault :
  direct_write c data wr = (c1, n, fault) → write_ok wr →
  bq_contents (outputBuffer_ c) = [] →
  stream c1 = stream c ++ take n data ∧ n ≤ length data ∧
  outputBuffer_ c1 = outputBuffer_ c ∧ inputBuffer_ c1 = inputBuffer_ c ∧
  state_ c1 = state_ c ∧ channel_ c1 = channel_ c ∧ pendingFiles_ c1 = pendingFiles_ c ∧
  highWaterMark_ c1 = highWaterMark_ c ∧
  (no_reset wr → fault = false).
Proof.
  unfold direct_write. intros E Hwr Hout. destruct (wr data) as [m|e] eqn:Ew; simplify_eq.
  - assert (Hs : stream (emit c [EWire (take n data)]) = stream c ++ take n data).
    { unfold stream. simpl. rewrite wire_app, Hout. simpl. by rewrite !app_nil_r. }
    specialize (Hwr _ _ Ew).
    destruct (_ =? 0); [rewrite stream_queueWC|]; split_and!; try done;
      unfold queueWriteComplete; by case_match.
  - rewrite take_0, app_nil_r. split_and!; try done; [lia|].
    intros Hr. by eapply Hr.
Qed.

Lemma sendInLoop_stream c data wr :
  valid c → write_ok wr → no_reset wr → state_ c ≠ kDisconnected →
  stream (sendInLoop c data wr) = stream c ++ data ∧ valid (sendInLoop c data wr).
Proof.
  intros Hv Hwr Hnr Hst. unfold sendInLoop. rewrite bool_decide_false by done.
  assert (Happ : ∀ (c1 : Conn) n, valid c1 → n ≤ length data →
    stream c1 = stream c ++ take n data →
    ∀ c2, (c2 = c1 ∨ ∃ f, c2 = queueInLoop c1 f) →
    let c3 := ensureWriting (with_output c2 (bq_append (outputBuffer_ c2) (drop n data))) in
    stream c3 = stream c ++ data ∧ valid c3).
  { intros c1 n [Hvi Hvo] Hn Hs c2 Hc2.
    assert (E : outputBuffer_ c2 = outputBuffer_ c1 ∧ inputBuffer_ c2 = inputBuffer_ c1 ∧ log c2 = log c1)
      by (destruct Hc2 as [->|[f ->]]; done).
    destruct E as (Eo & Ei & El). simpl. rewrite stream_ensureWriting.
    destruct (bq_append_ok (outputBuffer_ c1) (drop n data) Hvo) as [Hv1 Hc1].
    split.
    - unfold stream in *. simpl. rewrite El, Eo, Hc1, app_assoc, Hs, <-app_assoc.
      by rewrite take_drop.
    - unfold ensureWriting. split; case_match; simpl; rewrite ?Ei, ?Eo; done. }
  destruct (negb _ && _) eqn:Edirect.
  - apply andb_true_iff in Edirect as [_ E0].
    destruct (direct_write c data wr) as [[c1 n] fault] eqn:Ed.
    destruct (direct_write_ok _ _ _ _ _ _ Ed Hwr (readable_0 _ Hv E0))
      as (Hs & Hn & Ho & Hi & _ & _ & _ & Hhw & Hf).
    rewrite Hf by done. simpl.
    assert (Hv1 : valid c1) by (unfold valid; by rewrite Ho, Hi).
    destruct (_ <? _) eqn:Er; bool_to_prop.
    + eapply Happ; [done|done|done|]. case_match; eauto.
    + rewrite take_ge in Hs by lia. done.
  - simpl. destruct (_ <? _) eqn:Er; bool_to_prop.
    + eapply (Happ c 0); [done|lia|by rewrite take_0, app_nil_r|]. case_match; eauto.
    + assert (data = []) as -> by (apply length_zero_iff_nil; lia). by rewrite app_nil_r.
Qed.

Lemma append_all b slices :
  bq_valid b → bq_valid (foldl bq_append b slices) ∧
  bq_contents (foldl bq_append b slices) = bq_contents b ++ mjoin slices.
Proof.
  revert b. induction slices as [|s sl IH]; intros b Hb; simpl; [by rewrite app_nil_r|].
  destruct (bq_append_ok b s Hb) as [H1 H2]. destruct (IH _ H1) as [H3 H4].
  by rewrite H4, H2, <-app_assoc.
Qed.

Lemma append_tail_ok b slices skip :
  bq_valid b → bq_valid (append_tail b slices skip) ∧
  bq_contents (append_tail b slices skip) = bq_contents b ++ drop skip (mjoin slices).
Proof.
  revert b skip. induction slices as [|s sl IH]; intros b skip Hb; simpl.
  - by rewrite drop_nil, app_nil_r.
  - destruct (_ <=? _) eqn:E; bool_to_prop.
    + destruct (IH b (skip - length s) Hb) as [H1 H2]. split; [done|].
      by rewrite H2, drop_app, (drop_ge s) by lia.
    + destruct (bq_append_ok b (drop skip s) Hb) as [H1 H2].
      destruct (IH _ 0 H1) as [H3 H4]. split; [done|].
      rewrite H4, H2, drop_0, <-app_assoc. by rewrite drop_app_le by lia.
Qed.

Lemma sendIov_stream c slices wr :
  valid c → write_ok wr → no_reset wr → state_ c = kConnected → length slices ≤ kMaxIov →
  stream (sendIov c slices true wr) = stream c ++ mjoin slices ∧
  valid (sendIov c slices true wr).
Proof.
  intros Hv Hwr Hnr Hst Hlen. unfold sendIov. case_bool_decide as Hsl.
  { subst. simpl. by rewrite app_nil_r. }
  rewrite bool_decide_true by done. cbn [orb negb].
  assert (Hfin : ∀ (c1 : Conn) b, bq_valid (inputBuffer_ c1) → bq_valid b →
    wire (log c1) ++ bq_contents b = stream c ++ mjoin slices →
    ∀ c2, (c2 = with_output c1 b ∨ ∃ f, c2 = queueInLoop (with_output c1 b) f) →
    stream (ensureWriting c2) = stream c ++ mjoin slices ∧ valid (ensureWriting c2)).
  { intros c1 b Hi Hb Hs c2 Hc2. rewrite stream_ensureWriting. split.
    - unfold stream. destruct Hc2 as [->|[f ->]]; exact Hs.
    - unfold ensureWriting. destruct Hc2 as [->|[f ->]]; split; case_match; done. }
  pose proof Hv as [Hvi Hvo].
  destruct (isWriting _ || _) eqn:Ew.
  - destruct (append_all (outputBuffer_ c) slices Hvo) as [H1 H2].
    eapply (Hfin c _ Hvi H1); [|case_match; eauto].
    by rewrite H2, app_assoc.
  - apply orb_false_iff in Ew as [_ E0].
    assert (Hout : bq_contents (outputBuffer_ c) = []).
    { apply (readable_0 c Hv). apply Nat.eqb_eq. bool_to_prop. lia. }
    rewrite take_ge by done.
    destruct (direct_write c (mjoin slices) wr) as [[c1 n] fault] eqn:Ed.
    destruct (direct_write_ok _ _ _ _ _ _ Ed Hwr Hout)
      as (Hs & Hn & Ho & Hi & _ & _ & _ & _ & Hf).
    rewrite Hf by done. cbv zeta. cbn [negb andb].
    destruct (0 <? length (mjoin slices) - n) eqn:Er; bool_to_prop.
    + destruct (append_tail_ok (outputBuffer_ c1) slices n) as [H1 H2]; [by rewrite Ho|].
      eapply (Hfin c1 _); [by rewrite Hi|exact H1| |case_match; eauto].
      unfold stream in Hs. rewrite H2, app_assoc, Hs, <-app_assoc. by rewrite take_drop.
    + rewrite take_ge in Hs by lia. split; [done|]. unfold valid. by rewrite Ho, Hi.
Qed.

(** No file is being sent: the setting of the byte-stream theorem. *)
Definition no_files (c : Conn) : Prop :=
  pendingFiles_ c = [] ∧ Forall (λ f, ∀ fd off n, f ≠ FSendFile fd off n) (pending c).

Lemma handleWrite_stream c wr sf :
  valid c → write_ok wr → pendingFiles_ c = [] →
  stream (handleWrite c wr sf) = stream c ∧ valid (handleWrite c wr sf).
Proof.
  intros Hv Hwr Hpf. unfold handleWrite. case_match; [done|].
  assert (Hfinish : ∀ c1 : Conn, pendingFiles_ c1 = [] → valid c1 → stream c1 = stream c →
    let '(c2, still) := drainPendingFiles c1 sf in
    let c3 := if still then c2 else
      let c4 := queueWriteComplete (update_channel disableWriting c2) in
      if bool_decide (state_ c4 = kDisconnecting) then shutdownInLoop c4 else c4 in
    stream c3 = stream c ∧ valid c3).
  { intros c1 Hf Hv1 Hs1. unfold drainPendingFiles. rewrite Hf. simpl.
    unfold queueWriteComplete, update_channel, shutdownInLoop, valid, stream in *.
    repeat case_match; simpl; rewrite ?wire_app; simpl; rewrite ?app_nil_r; done. }
  destruct (0 <? bq_readable (outputBuffer_ c)) eqn:E0; bool_to_prop.
  - destruct (wr _) as [[|m]|e] eqn:Ew; [done| |done].
    destruct Hv as [Hvi Hvo].
    destruct (bq_retrieve_ok (outputBuffer_ c) (S m) Hvo) as [H1 H2].
    set (c1 := with_output _ _).
    assert (Hs1 : stream c1 = stream c).
    { unfold stream, c1. cbn [log outputBuffer_ with_output emit]. rewrite wire_app, H2.
      cbn [wire]. rewrite app_nil_r, <-app_assoc. by rewrite take_drop. }
    destruct (0 <? _); [done|]. specialize (Hfinish c1 Hpf (conj Hvi H1) Hs1).
    by destruct (drainPendingFiles c1 sf) as [c2 []].
  - specialize (Hfinish c Hpf Hv eq_refl). by destruct (drainPendingFiles c sf) as [c2 []].
Qed.

Lemma nf_queue c f : no_files c → (∀ fd off n, f ≠ FSendFile fd off n) → no_files (queueInLoop c f).
Proof. intros [H1 H2] Hf. split; [done|]. simpl. by apply Forall_app_2; [|constructor]. Qed.
Lemma nf_emit c es : no_files c → no_files (emit c es).
Proof. done. Qed.
Lemma nf_output c b : no_files c → no_files (with_output c b).
Proof. done. Qed.
Lemma nf_update c f : no_files c → no_files (update_channel f c).
Proof. done. Qed.
Lemma nf_state c s : no_files c → no_files (setState c s).
Proof. done. Qed.
Lemma nf_wc c : no_files c → no_files (queueWriteComplete c).
Proof. intros. unfold queueWriteComplete. case_match; [by apply nf_queue|done]. Qed.
Lemma nf_ensure c : no_files c → no_files (ensureWriting c).
Proof. intros. unfold ensureWriting. by case_match. Qed.
Lemma nf_direct c d wr : no_files c → no_files (direct_write c d wr).1.1.
Proof. intros. unfold direct_write. repeat case_match; simpl; auto using nf_wc, nf_emit. Qed.

Local Create HintDb nf.
Local Hint Resolve nf_queue nf_emit nf_output nf_update nf_state nf_wc nf_ensure : nf.
Local Hint Extern 1 (_ ≠ FSendFile _ _ _) => discriminate : nf.

Lemma nf_sendInLoop c d wr : no_files c → no_files (sendInLoop c d wr).
Proof.
  intros Hc. unfold sendInLoop. case_match; [done|].
  pose proof (nf_direct c d wr Hc) as Hd.
  destruct (direct_write c d wr) as [[c1 n] f]. simpl in Hd.
  destruct (negb _ && _); repeat case_match; simplify_eq; auto 8 with nf.
Qed.

Lemma nf_sendIov c sl il wr : no_files c → no_files (sendIov c sl il wr).
Proof.
  intros Hc. unfold sendIov.
  pose proof (nf_direct c (mjoin (take kMaxIov sl)) wr Hc) as Hd.
  destruct (direct_write c _ wr) as [[c1 n] f]. simpl in Hd.
  repeat case_match; auto 8 with nf.
Qed.

Lemma nf_finish c sf : no_files c → drainPendingFiles c sf = (emit c [], false).
Proof. intros [H1 _]. unfold drainPendingFiles. rewrite H1. simpl. rewrite <-H1. by destruct c. Qed.

Lemma nf_handleWrite c wr sf : no_files c → no_files (handleWrite c wr sf).
Proof.
  intros Hc. unfold handleWrite. case_match; [done|].
  assert (Hfin : ∀ c1, no_files c1 → no_files
    (let '(c2, still) := drainPendingFiles c1 sf in
     if still then c2 else
     let c3 := queueWriteComplete (update_channel disableWriting c2) in
     if bool_decide (state_ c3 = kDisconnecting) then shutdownInLoop c3 else c3)).
  { intros c1 H1. rewrite nf_finish by done. unfold shutdownInLoop.
    repeat case_match; auto 8 with nf. }
  destruct (0 <? bq_readable (outputBuffer_ c)); [|by apply Hfin].
  destruct (wr _) as [[|m]|e]; [done| |done].
  case_match; [auto with nf|]. by apply Hfin.
Qed.

(** The bytes a step makes the connection responsible for. *)
Definition delivered (c : Conn) (s : Step) : str :=
  match s with
  | SSend msg true _ => if bool_decide (state_ c = kConnected) then msg else []
  | SSendIov sl true _ => if bool_decide (state_ c = kConnected) then mjoin sl else []
  | SFunctor _ _ =>
      match pending c with
      | FSend msg :: _ => if bool_decide (state_ c = kDisconnected) then [] else msg
      | _ => []
      end
  | _ => []
  end.

Fixpoint delivered_run (c : Conn) (ss : list Step) : str :=
  match ss with
  | [] => []
  | s :: ss' => delivered c s ++ delivered_run (step c s) ss'
  end.

(** The steps of the byte-stream theorem: no files, at most sixteen slices
    (see [sendIov_drops_slices] for more), a kernel that accepts at most
    what it is given and no connection reset. *)
Definition stream_step (s : Step) : Prop :=
  match s with
  | SSend _ _ wr => write_ok wr ∧ no_reset wr
  | SSendIov sl _ wr => write_ok wr ∧ no_reset wr ∧ length sl ≤ kMaxIov
  | SFunctor wr _ | SHandleWrite wr _ => write_ok wr ∧ no_reset wr
  | SSendFile _ _ _ _ _ => False
  | _ => True
  end.

Lemma handleRead_stream c r :
  valid c → stream (handleRead c r) = stream c ∧ valid (handleRead c r).
Proof.
  intros [Hi Ho]. unfold handleRead. destruct r as [d|e].
  - destruct (bq_readFd_data (inputBuffer_ c) d Hi) as (b & -> & Hb & _).
    repeat case_match; unfold handleClose, update_channel, stream, valid; simpl;
      rewrite ?wire_app; simpl; rewrite ?app_nil_r; done.
  - rewrite bq_readFd_err. simpl. done.
Qed.

Lemma step_stream c s :
  valid c → no_files c → stream_step s →
  stream (step c s) = stream c ++ delivered c s ∧ valid (step c s) ∧ no_files (step c s).
Proof.
  intros Hv Hnf Hs. destruct s as [msg il wr|sl il wr|fd off n il sf|il|wr sf|wr sf|r| |];
    simpl in Hs; cbn [step delivered]; [| |done| | | | | |].
  - unfold send. destruct Hs as [Hwr Hnr]. case_bool_decide as Hst; destruct il;
      rewrite ?app_nil_r; try done.
    + destruct (sendInLoop_stream c msg wr Hv Hwr Hnr) as [-> ?]; [congruence|].
      split_and!; [done|done|by apply nf_sendInLoop].
    + split_and!; [done|done|by apply nf_queue].
  - destruct Hs as (Hwr & Hnr & Hlen). destruct il.
    + case_bool_decide as Hst.
      * destruct (sendIov_stream c sl wr Hv Hwr Hnr Hst Hlen) as [-> ?].
        split_and!; [done|done|by apply nf_sendIov].
      * unfold sendIov. rewrite (bool_decide_false _ Hst), orb_true_r, app_nil_r. done.
    + rewrite app_nil_r. split_and!; [| |by apply nf_sendIov];
        unfold sendIov; by repeat case_match.
  - unfold shutdown, shutdownInLoop. rewrite app_nil_r.
    repeat case_match; split_and!; auto with nf.
    rewrite stream_emit; done.
  - destruct (pending c) as [|f q] eqn:Eq; [by rewrite app_nil_r|].
    destruct Hs as [Hwr Hnr]. destruct Hnf as [Hpf Hq]. rewrite Eq in Hq.
    apply Forall_cons in Hq as [Hf Hq].
    assert (Hnf' : no_files (set_pending c q)) by done.
    assert (Hv' : valid (set_pending c q)) by done.
    destruct f as [msg|fd off n| | |]; cbn [run_functor]; rewrite ?app_nil_r; try done.
    + case_bool_decide as Hst.
      * unfold sendInLoop. rewrite bool_decide_true by done. by rewrite app_nil_r.
      * destruct (sendInLoop_stream (set_pending c q) msg wr Hv' Hwr Hnr Hst) as [-> ?].
        split_and!; [done|done|by apply nf_sendInLoop].
    + exfalso. by eapply Hf.
    + unfold shutdownInLoop. case_match; [done|]. rewrite stream_emit; done.
  - rewrite app_nil_r. destruct Hs as [Hwr Hnr].
    destruct (handleWrite_stream c wr sf Hv Hwr (proj1 Hnf)) as [-> ?].
    split_and!; [done|done|by apply nf_handleWrite].
  - rewrite app_nil_r. destruct (handleRead_stream c r Hv) as [-> ?].
    split_and!; [done|done|]. unfold handleRead. by repeat case_match.
  - rewrite app_nil_r. unfold handleClose, update_channel, stream, valid. simpl.
    by rewrite !wire_app, !app_nil_r.
  - rewrite app_nil_r. unfold connectDestroyed, update_channel, stream, valid.
    case_match; simpl; rewrite !wire_app; simpl; by rewrite !app_nil_r.
Qed.

(** C3: the byte stream of a connection on which no file is sent, no [sendIov]
    has more than sixteen slices, and the peer does not reset the connection
    under a write ([stream_step]; a seventeenth slice can be dropped,
    [sendIov_drops_slices], and what follows a file can overtake it,
    [sendFile_overtaken]).  Whatever interleaving of [send] and of such
    [sendIov] from the loop thread and from other threads, write-ready and read
    events, shutdowns and closes such a connection goes through, the bytes the
    kernel has accepted so far, followed by the bytes still in [outputBuffer_],
    are exactly the messages handed to the loop, in that order: partial writes,
    buffering and the switch between direct write and buffered write lose,
    repeat or reorder nothing. *)
Theorem send_stream (sockfd : Z) (wc hw : bool) (ss : list Step)
    (Hss : Forall stream_step ss) :
  let c0 := connectEstablished (TcpConnection_new sockfd wc hw) in
  let c := run c0 ss in
  wire (log c) ++ bq_contents (outputBuffer_ c) = delivered_run c0 ss.
Proof.
  intros c0 c. unfold c, run.
  assert (Hgen : ∀ c1, valid c1 → no_files c1 →
    stream (foldl step c1 ss) = stream c1 ++ delivered_run c1 ss).
  { clear c. induction Hss as [|s ss' Hs _ IH]; intros c1 Hv Hnf; simpl; [by rewrite app_nil_r|].
    destruct (step_stream c1 s Hv Hnf Hs) as (H1 & H2 & H3).
    by rewrite IH, H1, <-app_assoc. }
  assert (Hs0 : stream c0 = []) by (unfold stream; simpl; apply bq_empty_ok).
  change (stream (foldl step c0 ss) = delivered_run c0 ss). rewrite Hgen, Hs0; [done| |].
  - split; simpl; apply bq_empty_ok.
  - split; [done|constructor].
Qed.

(** ** Write interest, completion and half-close *)

(** What a step may announce: [EShutdownWrite] on a connection that is not
    already closed, and a queued write-complete callback, both only when
    nothing is left to send. *)
Definition announces_drained (c c' : Conn) : Prop :=
  (∃ es, log c' = log c ++ es ∧
     (EShutdownWrite ∈ es → state_ c' ≠ kDisconnected → drained c')) ∧
  (∃ fs, pending c' = pending c ++ fs ∧ (FWriteComplete ∈ fs → drained c')).

(** The connection with the functor that [SFunctor] runs taken off. *)
Definition before (c : Conn) (s : Step) : Conn :=
  match s with SFunctor _ _ => set_pending c (tail (pending c)) | _ => c end.

Lemma interest_drained c :
  interest_ok c → state_ c ≠ kDisconnected → isWriting (channel_ c) = false → drained c.
Proof. intros [?|[?|?]] ? ?; congruence || done. Qed.

(** Steps that announce neither. *)
Definition quiet (c c' : Conn) : Prop :=
  (∃ es, log c' = log c ++ es ∧ EShutdownWrite ∉ es) ∧
  (∃ fs, pending c' = pending c ++ fs ∧ FWriteComplete ∉ fs).

Lemma quiet_announces c c' : quiet c c' → announces_drained c c'.
Proof. intros [(es & ? & ?) (fs & ? & ?)]. split; eexists; split; done. Qed.

Lemma quiet_refl c : quiet c c.
Proof. split; exists []; rewrite app_nil_r; set_solver. Qed.

Lemma quiet_trans c1 c2 c3 : quiet c1 c2 → quiet c2 c3 → quiet c1 c3.
Proof.
  unfold quiet. intros [(es & E1 & ?) (fs & E2 & ?)] [(es' & -> & ?) (fs' & -> & ?)].
  rewrite E1, E2, <-!app_assoc. split; eexists; (split; [done|set_solver]).
Qed.

(** Announcing after quiet steps. *)
Lemma quiet_then_announce c1 c2 c3 :
  quiet c1 c2 → announces_drained c2 c3 → announces_drained c1 c3.
Proof.
  unfold quiet, announces_drained.
  intros [(es & E1 & ?) (fs & E2 & ?)] [(es' & -> & ?) (fs' & -> & ?)].
  rewrite E1, E2, <-!app_assoc. split; eexists; (split; [done|]);
    rewrite elem_of_app; naive_solver.
Qed.

Lemma quiet_emit c es : EShutdownWrite ∉ es → quiet c (emit c es).
Proof. split; [by exists es|exists []; rewrite app_nil_r; set_solver]. Qed.
Lemma quiet_queue c f : f ≠ FWriteComplete → quiet c (queueInLoop c f).
Proof. split; [exists []; rewrite app_nil_r; set_solver|exists [f]; set_solver]. Qed.
Lemma quiet_output c b : quiet c (with_output c b).
Proof. apply (quiet_refl c). Qed.
Lemma quiet_files c b : quiet c (with_files c b).
Proof. apply (quiet_refl c). Qed.
Lemma quiet_state c b : quiet c (setState c b).
Proof. apply (quiet_refl c). Qed.
Lemma quiet_input c b : quiet c (with_input c b).
Proof. apply (quiet_refl c). Qed.
Lemma quiet_update c f : quiet c (update_channel f c).
Proof. split; [by eexists; split; [done|set_solver]|exists []; rewrite app_nil_r; set_solver]. Qed.
Lemma quiet_ensure c : quiet c (ensureWriting c).
Proof. unfold ensureWriting. case_match; [apply quiet_refl|apply quiet_update]. Qed.

Local Create HintDb quiet.
Local Hint Resolve quiet_refl quiet_emit quiet_queue quiet_output quiet_files quiet_state
  quiet_input quiet_update quiet_ensure : quiet.

Lemma announce_wc c : drained c → announces_drained c (queueWriteComplete c).
Proof.
  intros Hd. unfold queueWriteComplete. case_match; [|apply quiet_announces, quiet_refl].
  split; [exists []; rewrite app_nil_r; set_solver|by eexists].
Qed.

Lemma announce_shutdownInLoop c :
  interest_ok c → announces_drained c (shutdownInLoop c).
Proof.
  intros Hi. unfold shutdownInLoop. case_match; [apply quiet_announces, quiet_refl|].
  split; [|exists []; rewrite app_nil_r; set_solver].
  eexists. split; [done|]. intros _ Hs. by apply (interest_drained c Hi).
Qed.

Lemma interest_frame c c' :
  interest_ok c → state_ c' = state_ c → channel_ c' = channel_ c →
  outputBuffer_ c' = outputBuffer_ c → pendingFiles_ c' = pendingFiles_ c → interest_ok c'.
Proof. unfold interest_ok, drained. by intros H0 -> -> -> ->. Qed.

Lemma interest_ensure c : interest_ok (ensureWriting c).
Proof. right; left. apply isWriting_ensureWriting. Qed.

(** The direct write, and what a drained connection may announce after it. *)
Lemma direct_write_announce c data wr c1 n fault :
  direct_write c data wr = (c1, n, fault) → drained c →
  announces_drained c c1 ∧ drained c1 ∧ (n < length data → quiet c c1) ∧
  state_ c1 = state_ c ∧ channel_ c1 = channel_ c.
Proof.
  unfold direct_write. intros E Hd. destruct (wr data) as [m|e]; simplify_eq.
  - assert (Hq : quiet c (emit c [EWire (take n data)])) by (apply quiet_emit; set_solver).
    assert (Hd' : drained (emit c [EWire (take n data)])) by done.
    destruct (_ =? 0) eqn:E; bool_to_prop.
    + split_and!; [|unfold queueWriteComplete; by case_match|lia| |];
        [|unfold queueWriteComplete; by case_match..].
      eapply quiet_then_announce; [done|]. by apply announce_wc.
    + split_and!; [by apply quiet_announces|done|done|done|done].
  - split_and!; auto using quiet_announces, quiet_refl.
Qed.

Lemma sendInLoop_announce c data wr :
  interest_ok c →
  interest_ok (sendInLoop c data wr) ∧ announces_drained c (sendInLoop c data wr).
Proof.
  intros Hi. unfold sendInLoop. case_bool_decide as Hst.
  { split; [done|apply quiet_announces, quiet_refl]. }
  assert (Hfin : ∀ c1 c2 d, quiet c c1 → (c2 = c1 ∨ ∃ n, c2 = queueInLoop c1 (FHighWaterMark n)) →
    interest_ok (ensureWriting (with_output c2 d)) ∧
    announces_drained c (ensureWriting (with_output c2 d))).
  { intros c1 c2 d Hq Hc2. split; [apply interest_ensure|]. apply quiet_announces.
    apply (quiet_trans _ c1); [done|]. apply (quiet_trans _ c2).
    { destruct Hc2 as [->|[n ->]]; auto with quiet. }
    apply (quiet_trans _ (with_output c2 d)); auto with quiet. }
  destruct (negb _ && _) eqn:Edirect.
  - apply andb_true_iff in Edirect as [Ew%negb_true_iff E0].
    pose proof (interest_drained c Hi Hst Ew) as Hd.
    destruct (direct_write c data wr) as [[c1 n] fault] eqn:Ed.
    destruct (direct_write_announce _ _ _ _ _ _ Ed Hd) as (Ha & Hd1 & Hq & Hs1 & Hc1).
    cbv zeta. destruct (negb fault && (0 <? length data - n)) eqn:Er.
    + apply andb_true_iff in Er as [_ Er]. bool_to_prop.
      eapply Hfin; [apply Hq; lia|]. case_match; eauto.
    + split; [|done]. right; right. done.
  - cbv zeta. destruct (negb false && (0 <? length data - 0)).
    + eapply (Hfin c); [apply quiet_refl|]. case_match; eauto.
    + split; [done|apply quiet_announces, quiet_refl].
Qed.

Lemma sendIov_announce c sl il wr :
  interest_ok c →
  interest_ok (sendIov c sl il wr) ∧ announces_drained c (sendIov c sl il wr).
Proof.
  intros Hi. unfold sendIov. destruct (_ || _) eqn:E0.
  { split; [done|apply quiet_announces, quiet_refl]. }
  destruct (negb il).
  { split; [by eapply interest_frame|]. apply quiet_announces. by apply quiet_queue. }
  apply orb_false_iff in E0 as [_ Hst]. bool_to_prop.
  assert (Hfin : ∀ c1 c2, quiet c c1 → (c2 = c1 ∨ ∃ n, c2 = queueInLoop c1 (FHighWaterMark n)) →
    interest_ok (ensureWriting c2) ∧ announces_drained c (ensureWriting c2)).
  { intros c1 c2 Hq Hc2. split; [apply interest_ensure|]. apply quiet_announces.
    apply (quiet_trans _ c1); [done|]. apply (quiet_trans _ c2); [|auto with quiet].
    destruct Hc2 as [->|[n ->]]; auto with quiet. }
  destruct (isWriting _ || _) eqn:Ew.
  - eapply (Hfin (with_output c (foldl bq_append (outputBuffer_ c) sl)));
      [apply quiet_output|case_match; eauto].
  - apply orb_false_iff in Ew as [Ew _].
    assert (Hd : drained c) by (apply interest_drained; congruence).
    set (total := mjoin (take kMaxIov sl)).
    destruct (direct_write c total wr) as [[c1 n] fault] eqn:Ed.
    destruct (direct_write_announce _ _ _ _ _ _ Ed Hd) as (Ha & Hd1 & Hq & Hs1 & Hc1).
    cbv zeta. destruct (negb fault && (0 <? length total - n)) eqn:Er.
    + apply andb_true_iff in Er as [_ Er]. bool_to_prop.
      eapply (Hfin (with_output c1 _)); [|case_match; eauto].
      eapply quiet_trans; [apply Hq; lia|apply quiet_output].
    + split; [|done]. by right; right.
Qed.

(** *** Draining files *)

Lemma drain_spec files sf k fs es b :
  drain files sf k = (fs, es, b) →
  b = negb (bool_decide (fs = [])) ∧ EShutdownWrite ∉ es ∧ wire es = [].
Proof.
  revert k fs es b. induction files as [|pf rest IH]; intros k fs es b; simpl.
  { intros; simplify_eq. split_and!; [done|set_solver|done]. }
  destruct (sf k) as [[|m]|e].
  - destruct (drain rest sf (S k)) as [[fs' es'] b'] eqn:E. intros; simplify_eq.
    destruct (IH _ _ _ _ E) as (-> & ? & ?). split_and!; [done|set_solver|done].
  - destruct (pf_remaining pf - S m =? 0).
    + destruct (drain rest sf (S k)) as [[fs' es'] b'] eqn:E. intros; simplify_eq.
      destruct (IH _ _ _ _ E) as (-> & ? & ?). split_and!; [done|set_solver|done].
    + intros; simplify_eq. split_and!; [done|set_solver|done].
  - destruct (_ || _); intros; simplify_eq; split_and!; try done; set_solver.
Qed.

Lemma drainPendingFiles_spec c sf c1 b :
  drainPendingFiles c sf = (c1, b) →
  quiet c c1 ∧ state_ c1 = state_ c ∧ channel_ c1 = channel_ c ∧
  outputBuffer_ c1 = outputBuffer_ c ∧ inputBuffer_ c1 = inputBuffer_ c ∧
  (b = false → pendingFiles_ c1 = []).
Proof.
  unfold drainPendingFiles. destruct (drain _ sf 0) as [[fs es] b'] eqn:E.
  intros; simplify_eq. destruct (drain_spec _ _ _ _ _ _ E) as (-> & Hes & _).
  split_and!; [|done|done|done|done|].
  - eapply quiet_trans; [apply (quiet_files c fs)|by apply quiet_emit].
  - rewrite negb_false_iff, bool_decide_eq_true. done.
Qed.

Lemma sendFile_announce c fd off n il sf :
  interest_ok c →
  interest_ok (sendFile c fd off n il sf) ∧ announces_drained c (sendFile c fd off n il sf).
Proof.
  intros Hi. unfold sendFile. destruct (_ || _) eqn:E0.
  { case_match; (split; [by eapply interest_frame|]); apply quiet_announces;
      [apply quiet_emit; set_solver|apply quiet_refl]. }
  destruct (negb il).
  { split; [by eapply interest_frame|]. apply quiet_announces. by apply quiet_queue. }
  apply orb_false_iff in E0 as [Hst _]. bool_to_prop.
  set (c1 := with_files c _). destruct (isWriting _ || _) eqn:Ew.
  - split; [apply interest_ensure|]. apply quiet_announces.
    eapply quiet_trans; [apply quiet_files|apply quiet_ensure].
  - apply orb_false_iff in Ew as [Ew _].
    assert (Hd : drained c) by (apply interest_drained; [done|congruence|done]).
    destruct (drainPendingFiles c1 sf) as [c2 b] eqn:Ed.
    destruct (drainPendingFiles_spec _ _ _ _ Ed) as (Hq & Hs & Hc & Ho & _ & Hb).
    assert (Hq' : quiet c c2) by (eapply quiet_trans; [apply quiet_files|apply Hq]).
    destruct b.
    + split; [apply interest_ensure|]. apply quiet_announces.
      eapply quiet_trans; [apply Hq'|apply quiet_ensure].
    + assert (Hd2 : drained c2) by (split; [rewrite Ho; apply Hd|by apply Hb]).
      split; [right; right; unfold queueWriteComplete; by case_match|].
      eapply quiet_then_announce; [done|by apply announce_wc].
Qed.

Lemma handleWrite_announce c wr sf :
  valid c → interest_ok c →
  interest_ok (handleWrite c wr sf) ∧ announces_drained c (handleWrite c wr sf).
Proof.
  intros Hv Hi. unfold handleWrite. destruct (negb _) eqn:Ew.
  { split; [done|apply quiet_announces, quiet_refl]. }
  apply negb_false_iff in Ew.
  assert (Hfin : ∀ c1, quiet c c1 → channel_ c1 = channel_ c → bq_contents (outputBuffer_ c1) = [] →
    let c' := (let '(c2, still) := drainPendingFiles c1 sf in
     if still then c2 else
     let c3 := queueWriteComplete (update_channel disableWriting c2) in
     if bool_decide (state_ c3 = kDisconnecting) then shutdownInLoop c3 else c3) in
    interest_ok c' ∧ announces_drained c c').
  { intros c1 Hq1 Hc1 Ho1. destruct (drainPendingFiles c1 sf) as [c2 b] eqn:Ed.
    destruct (drainPendingFiles_spec _ _ _ _ Ed) as (Hq & Hs & Hc & Ho & _ & Hb).
    assert (Hq2 : quiet c c2) by (eapply quiet_trans; done).
    destruct b.
    { split; [right; left; congruence|by apply quiet_announces]. }
    set (c3 := update_channel disableWriting c2).
    assert (Hd3 : drained c3) by (split; [by simpl; rewrite Ho|by apply Hb]).
    assert (Hq3 : quiet c c3) by (eapply quiet_trans; [apply Hq2|apply quiet_update]).
    assert (Hd4 : drained (queueWriteComplete c3)) by (unfold queueWriteComplete; by case_match).
    assert (Ha4 : announces_drained c (queueWriteComplete c3))
      by (eapply quiet_then_announce; [done|by apply announce_wc]).
    cbv zeta. case_bool_decide as Hst; [|split; [by right; right|done]].
    unfold shutdownInLoop. case_match; [split; [by right; right|done]|].
    split; [by right; right|].
    destruct Ha4 as [(es & E1 & _) (fs & E2 & H2)]. split.
    - exists (es ++ [EShutdownWrite]). simpl. rewrite E1, app_assoc. split; [done|]. intros _ _. done.
    - exists fs. split; [done|]. intros ?. done. }
  destruct (0 <? bq_readable (outputBuffer_ c)) eqn:E0.
  - destruct (wr _) as [[|m]|e];
      [split; [done|apply quiet_announces, quiet_refl]| |
       split; [done|apply quiet_announces, quiet_refl]].
    set (c1 := with_output _ _).
    assert (Hq1 : quiet c c1).
    { eapply quiet_trans; [apply (quiet_emit c [EWire (take (S m) (bq_contents (outputBuffer_ c)))]);
        set_solver|apply quiet_output]. }
    assert (Hv1 : valid c1) by (split; [apply Hv|apply bq_retrieve_ok, Hv]).
    destruct (0 <? bq_readable (outputBuffer_ c1)) eqn:E1.
    + split; [by right; left|by apply quiet_announces].
    + apply Hfin; [done|done|]. apply (readable_0 c1 Hv1). bool_to_prop. apply Nat.eqb_eq. lia.
  - apply Hfin; [apply quiet_refl|done|]. apply (readable_0 c Hv). bool_to_prop.
    apply Nat.eqb_eq. lia.
Qed.

(** *** Validity of both buffers under every step *)

Lemma valid_wc c : valid c → valid (queueWriteComplete c).
Proof. unfold queueWriteComplete. by case_match. Qed.
Lemma valid_ensure c : valid c → valid (ensureWriting c).
Proof. unfold ensureWriting. by case_match. Qed.
Lemma valid_direct c d wr : valid c → valid (direct_write c d wr).1.1.
Proof. intros. unfold direct_write. repeat case_match; simpl; auto using valid_wc. Qed.
Lemma valid_output c b : valid c → bq_valid b → valid (with_output c b).
Proof. by intros [? _]. Qed.
Lemma valid_shutdownInLoop c : valid c → valid (shutdownInLoop c).
Proof. unfold shutdownInLoop. by case_match. Qed.

Lemma valid_sendInLoop c d wr : valid c → valid (sendInLoop c d wr).
Proof.
  intros Hv. unfold sendInLoop. case_match; [done|].
  pose proof (valid_direct c d wr Hv) as Hd.
  assert (Hfin : ∀ c1 c2 n, valid c1 → (c2 = c1 ∨ ∃ f, c2 = queueInLoop c1 f) →
    valid (ensureWriting (with_output c2 (bq_append (outputBuffer_ c2) (drop n d))))).
  { intros c1 c2 n Hv1 Hc2. apply valid_ensure, valid_output.
    - by destruct Hc2 as [->|[f ->]].
    - apply bq_append_ok. destruct Hc2 as [->|[f ->]]; apply Hv1. }
  destruct (direct_write c d wr) as [[c1 n] fault]. simpl in Hd.
  destruct (negb (isWriting _) && _); cbv zeta.
  - destruct (negb fault && _); [|done]. eapply (Hfin c1); [done|case_match; eauto].
  - destruct (negb false && _); [|done]. eapply (Hfin c); [done|case_match; eauto].
Qed.

Lemma valid_sendIov c sl il wr : valid c → valid (sendIov c sl il wr).
Proof.
  intros Hv. unfold sendIov. do 2 (case_match; [done|]).
  assert (Hfin : ∀ c1 c2, valid c1 → (c2 = c1 ∨ ∃ f, c2 = queueInLoop c1 f) → valid (ensureWriting c2)).
  { intros c1 c2 Hv1 Hc2. apply valid_ensure. by destruct Hc2 as [->|[f ->]]. }
  case_match.
  - eapply (Hfin (with_output c (foldl bq_append (outputBuffer_ c) sl))); [|case_match; eauto].
    apply valid_output; [done|]. apply append_all, Hv.
  - pose proof (valid_direct c (mjoin (take kMaxIov sl)) wr Hv) as Hd.
    destruct (direct_write c _ wr) as [[c1 n] fault]. simpl in Hd. cbv zeta.
    case_match; [|done].
    eapply (Hfin (with_output c1 (append_tail (outputBuffer_ c1) sl n))); [|case_match; eauto].
    apply valid_output; [done|]. apply append_tail_ok, Hd.
Qed.

Lemma valid_drain c sf : valid c → valid (drainPendingFiles c sf).1.
Proof. intros. unfold drainPendingFiles. by destruct (drain _ sf 0) as [[??]?]. Qed.

Lemma valid_sendFile c fd off n il sf : valid c → valid (sendFile c fd off n il sf).
Proof.
  intros Hv. unfold sendFile. destruct (_ || _); [by case_match|]. case_match; [done|].
  set (c1 := with_files c _). destruct (_ || _); [by apply valid_ensure|].
  pose proof (valid_drain c1 sf Hv) as Hd. destruct (drainPendingFiles c1 sf) as [c2 []];
    [by apply valid_ensure|by apply valid_wc].
Qed.

Lemma valid_handleWrite c wr sf : valid c → valid (handleWrite c wr sf).
Proof.
  intros Hv. unfold handleWrite. case_match; [done|].
  assert (Hfin : ∀ c1, valid c1 → valid (let '(c2, still) := drainPendingFiles c1 sf in
     if still then c2 else
     let c3 := queueWriteComplete (update_channel disableWriting c2) in
     if bool_decide (state_ c3 = kDisconnecting) then shutdownInLoop c3 else c3)).
  { intros c1 Hv1. pose proof (valid_drain c1 sf Hv1) as Hd.
    destruct (drainPendingFiles c1 sf) as [c2 []]; [done|]. cbv zeta.
    case_match; [apply valid_shutdownInLoop|]; by apply valid_wc. }
  case_match; [|by apply Hfin]. case_match; [|done]. case_match; [done|].
  assert (Hv1 : ∀ es m, valid (with_output (emit c es) (bq_retrieve (outputBuffer_ c) m)))
    by (intros; split; [apply Hv|apply bq_retrieve_ok, Hv]).
  case_match; [done|]. by apply Hfin.
Qed.

Lemma valid_step c s : valid c → valid (step c s).
Proof.
  intros Hv. destruct s; cbn [step].
  - unfold send. do 2 (case_match; [|done]). by apply valid_sendInLoop.
  - by apply valid_sendIov.
  - by apply valid_sendFile.
  - unfold shutdown. repeat case_match; auto. by apply valid_shutdownInLoop.
  - destruct (pending c) as [|[] q]; cbn [run_functor]; try done;
      auto using valid_sendInLoop, valid_sendFile, valid_shutdownInLoop.
  - by apply valid_handleWrite.
  - by apply handleRead_stream.
  - done.
  - unfold connectDestroyed. by case_match.
Qed.

Lemma shutdown_announce c il :
  interest_ok c → interest_ok (shutdown c il) ∧ announces_drained c (shutdown c il).
Proof.
  intros Hi. unfold shutdown. case_bool_decide as Hst; [|split; [done|apply quiet_announces, quiet_refl]].
  assert (Hi' : interest_ok (setState c kDisconnecting))
    by (destruct Hi as [?|[?|?]]; [congruence|by right; left|by right; right]).
  destruct il.
  - split; [unfold shutdownInLoop; by case_match|].
    eapply quiet_then_announce; [apply (quiet_state c kDisconnecting)|].
    by apply announce_shutdownInLoop.
  - split; [done|]. apply quiet_announces.
    eapply quiet_trans; [apply (quiet_state c kDisconnecting)|by apply quiet_queue].
Qed.

Lemma handleClose_quiet c : quiet c (handleClose c).
Proof.
  unfold handleClose. eapply quiet_trans; [apply (quiet_state c)|]. eapply quiet_trans; [apply quiet_update|].
  apply quiet_emit. set_solver.
Qed.

Lemma handleRead_announce c r : interest_ok c → interest_ok (handleRead c r) ∧ announces_drained c (handleRead c r).
Proof.
  intros Hi. unfold handleRead. destruct (bq_readFd _ r) as [[n e] b]. cbv zeta.
  destruct (0 <? n)%Z; [|destruct (n =? 0)%Z].
  - split; [by eapply interest_frame|]. apply quiet_announces.
    eapply quiet_trans; [apply quiet_input|apply quiet_emit; set_solver].
  - split; [by left|]. apply quiet_announces. eapply quiet_trans; [apply (quiet_input c b)|apply handleClose_quiet].
  - split; [by eapply interest_frame|]. apply quiet_announces, quiet_input.
Qed.

Lemma connectDestroyed_announce c : interest_ok c → interest_ok (connectDestroyed c) ∧ announces_drained c (connectDestroyed c).
Proof.
  intros Hi. unfold connectDestroyed. case_match.
  - split; [by left|]. apply quiet_announces.
    set (c1 := update_channel disableAll (setState c kDisconnected)).
    apply (quiet_trans _ c1); [eapply quiet_trans; [apply quiet_state|apply quiet_update]|].
    apply (quiet_trans _ (emit c1 [EConnectionCallback kDisconnected]));
      apply quiet_emit; set_solver.
  - split; [done|]. apply quiet_announces, quiet_emit. set_solver.
Qed.

Lemma step_announce c s :
  valid c → interest_ok c →
  interest_ok (step c s) ∧ announces_drained (before c s) (step c s).
Proof.
  intros Hv Hi. destruct s as [msg il wr|sl il wr|fd off n il sf|il|wr sf|wr sf|r| |];
    cbn [step before].
  - unfold send. case_match; [|split; [done|apply quiet_announces, quiet_refl]].
    destruct il; [by apply sendInLoop_announce|].
    split; [by eapply interest_frame|]. apply quiet_announces. by apply quiet_queue.
  - by apply sendIov_announce.
  - by apply sendFile_announce.
  - by apply shutdown_announce.
  - destruct (pending c) as [|f q] eqn:Eq.
    { split; [done|]. replace (set_pending c _) with c; [apply quiet_announces, quiet_refl|].
      destruct c; simpl in *; by subst. }
    assert (Hi' : interest_ok (set_pending c q)) by done.
    assert (Hv' : valid (set_pending c q)) by done.
    destruct f; cbn [run_functor tail];
      try (split; [done|apply quiet_announces, quiet_refl]).
    + by apply sendInLoop_announce.
    + by apply sendFile_announce.
    + split; [unfold shutdownInLoop; by case_match|]. by apply announce_shutdownInLoop.
  - by apply handleWrite_announce.
  - by apply handleRead_announce.
  - split; [by left|]. apply quiet_announces, handleClose_quiet.
  - by apply connectDestroyed_announce.
Qed.

Lemma run_ok c ss : valid c → interest_ok c → valid (run c ss) ∧ interest_ok (run c ss).
Proof.
  revert c. induction ss as [|s ss IH]; intros c Hv Hi; simpl; [done|].
  apply IH; [by apply valid_step|by apply step_announce].
Qed.

(** C37: graceful shutdown.  In every state a connection can reach, with any
    mix of byte and file sends, unsent data or an unfinished file keep write
    interest on as long as the connection is not closed; consequently the
    write side is shut down, and a write-complete callback is queued, only by
    steps after which the output buffer and the file queue are empty. *)
Theorem shutdown_after_drain (sockfd : Z) (wc hw : bool) (ss : list Step) (s : Step) :
  let c := run (connectEstablished (TcpConnection_new sockfd wc hw)) ss in
  interest_ok c ∧ announces_drained (before c s) (step c s).
Proof.
  intros c. destruct (run_ok (connectEstablished (TcpConnection_new sockfd wc hw)) ss) as [Hv Hi].
  - split; simpl; apply bq_empty_ok.
  - right; right. split; [|done]. simpl. apply bq_empty_ok.
  - split; [done|]. by apply step_announce.
Qed.
End TcpConnection.
Arguments Conn B : clear implicits.

(** ** Concrete runs on the vector buffer *)

(** A kernel that accepts at most [k] bytes per call. *)
Definition accepts (k : nat) (d : str) : WriteResult := WrCount (Nat.min k (length d)).

Lemma accepts_ok k : write_ok (accepts k) ∧ no_reset (accepts k).
Proof. split; intros d n; unfold accepts; intros; simplify_eq; lia. Qed.

Definition established (wc : bool) : Conn Buffer :=
  connectEstablished (TcpConnection_new 5 wc false).

Lemma send_stream_witness :
  let c0 := connectEstablished (TcpConnection_new (B := Buffer) 5 true false) in
  let ss := [SSend (#"hello ") true (accepts 2); SSend (#"world") false (accepts 9);
             SSendIov [ #"!"; #"?"] true (accepts 1); SFunctor (accepts 9) (λ _, WrErr EAGAIN);
             SHandleWrite (accepts 3) (λ _, WrErr EAGAIN)] in
  wire (log (run c0 ss)) = #"hello" ∧
  wire (log (run c0 ss)) ++ bq_contents (outputBuffer_ (run c0 ss)) = delivered_run c0 ss ∧
  delivered_run c0 ss = #"hello !?world".
Proof.
  intros c0 ss. split_and!; [vm_compute; reflexivity| |vm_compute; reflexivity].
  apply (send_stream 5 true false ss). repeat constructor; apply accepts_ok.
Defined.

(** More than sixteen slices: a [writev] that accepts the first sixteen
    entirely counts as complete, and the others are silently dropped. *)
Theorem sendIov_drops_slices :
  let slices := replicate 17 (#"a") in
  let c := sendIov (established true) slices true (accepts 100) in
  wire (log c) = mjoin (replicate 16 (#"a")) ∧
  contents (outputBuffer_ c) = [] ∧ pending c = [FWriteComplete].
Proof. vm_compute. done. Qed.

(** Bytes sent while a file is only partly on the wire overtake the rest of
    the file: [handleWrite] empties the output buffer before the file queue. *)
Theorem sendFile_overtaken :
  let c := run (established false)
    [SSendFile 9 0 10 true (λ _, WrCount 4); SSend (#"NEXT") true (accepts 100);
     SHandleWrite (accepts 100) (λ _, WrCount 6)] in
  List.filter (λ e, match e with EWire _ | ESendfile _ _ _ => true | _ => false end) (log c)
  = [ESendfile 9 0 4; EWire (#"NEXT"); ESendfile 9 4 6].
Proof. vm_compute. done. Qed.
