(* ===== verification/HttpRequest.v ===== *)
(** * HttpRequest: request line, headers, query string and cookies

    Models [src/http/HttpRequest.h].  Header and parameter maps are finite
    maps; the loops of [parseQuery] and [cookies] run on fuel, and the text's
    length is enough. *)

From S2P Require Import Prelude.

Inductive HttpMethod := GET | POST | PUT | DELETE | HEAD | UNKNOWN.
Inductive HttpVersion := HTTP_10 | HTTP_11 | VERSION_UNKNOWN.

#[export] Instance HttpMethod_eq_dec : EqDecision HttpMethod.
Proof. solve_decision. Defined.
#[export] Instance HttpVersion_eq_dec : EqDecision HttpVersion.
Proof. solve_decision. Defined.

(** The weak reference to the connection is left out: no operation of the
    class reads it. *)
Record HttpRequest := mkRequest {
  method : HttpMethod;
  version : HttpVersion;
  path : str;
  query : str;
  headers : gmap str str;
  params : gmap str str;
  body : str
}.

Definition HttpRequest_new : HttpRequest :=
  mkRequest UNKNOWN VERSION_UNKNOWN [] [] ∅ ∅ [].

Definition set_method (r : HttpRequest) (m : HttpMethod) : HttpRequest :=
  mkRequest m (version r) (path r) (query r) (headers r) (params r) (body r).
Definition set_version (r : HttpRequest) (v : HttpVersion) : HttpRequest :=
  mkRequest (method r) v (path r) (query r) (headers r) (params r) (body r).
Definition set_path (r : HttpRequest) (p : str) : HttpRequest :=
  mkRequest (method r) (version r) p (query r) (headers r) (params r) (body r).
Definition set_query (r : HttpRequest) (q : str) (ps : gmap str str) : HttpRequest :=
  mkRequest (method r) (version r) (path r) q (headers r) ps (body r).
Definition set_header (r : HttpRequest) (k v : str) : HttpRequest :=
  mkRequest (method r) (version r) (path r) (query r) (<[k:=v]> (headers r)) (params r) (body r).
Definition set_body (r : HttpRequest) (b : str) : HttpRequest :=
  mkRequest (method r) (version r) (path r) (query r) (headers r) (params r) b.

Definition stringToMethod (s : str) : HttpMethod :=
  if bool_decide (s = #"GET") then GET
  else if bool_decide (s = #"POST") then POST
  else if bool_decide (s = #"PUT") then PUT
  else if bool_decide (s = #"DELETE") then DELETE
  else if bool_decide (s = #"HEAD") then HEAD
  else UNKNOWN.

Definition stringToVersion (s : str) : HttpVersion :=
  if bool_decide (s = #"HTTP/1.0") then HTTP_10
  else if bool_decide (s = #"HTTP/1.1") then HTTP_11
  else VERSION_UNKNOWN.

(** The loop of [parseQuery] from position [start].  The count
    [amp - eq - 1] is a [size_t]: it wraps when the next ampersand comes
    before the next equals sign. *)
Fixpoint parseQuery_loop (fuel : nat) (q : str) (start : nat) (ps : gmap str str) : gmap str str :=
  match fuel with
  | O => ps
  | S f =>
      if negb (start <? length q) then ps else
      match find [ "="%char ] q start with
      | None => ps
      | Some eq =>
          let key := substr q start (eq - start) in
          match find [ "&"%char ] q start with
          | None => parseQuery_loop f q (length q) (<[key := drop (eq + 1) q]> ps)
          | Some amp =>
              let value := substr_z q (eq + 1) (u64 (Z.of_nat amp - Z.of_nat eq - 1)) in
              parseQuery_loop f q (amp + 1) (<[key := value]> ps)
          end
      end
  end.

Definition parseQuery (q : str) (ps : gmap str str) : gmap str str :=
  parseQuery_loop (S (length q)) q 0 ps.

(** The request target: everything after the question mark is the query. *)
Definition set_target (r : HttpRequest) (full_path : str) : HttpRequest :=
  match find [ "?"%char ] full_path 0 with
  | Some query_pos =>
      let q := drop (query_pos + 1) full_path in
      set_query (set_path r (take query_pos full_path)) q (parseQuery q (params r))
  | None => set_path r full_path
  end.

(** [false] with a partly updated request when a space is missing. *)
Definition parseRequestLine (r : HttpRequest) (line : str) : bool * HttpRequest :=
  match find [SP] line 0 with
  | None => (false, r)
  | Some method_end =>
      let r1 := set_method r (stringToMethod (substr line 0 method_end)) in
      let path_start := method_end + 1 in
      match find [SP] line path_start with
      | None => (false, r1)
      | Some path_end =>
          let full_path := substr line path_start (path_end - path_start) in
          let r2 := set_target r1 full_path in
          (true, set_version r2 (stringToVersion (drop (path_end + 1) line)))
      end
  end.

(** [value.find_first_not_of(' ')]: a value of blanks only is kept as it is. *)
Definition trim_value (value : str) : str :=
  match skip_chars [SP] value with
  | [] => value
  | v => v
  end.

Definition parseHeader (r : HttpRequest) (line : str) : bool * HttpRequest :=
  match find [ ":"%char ] line 0 with
  | None => (false, r)
  | Some colon =>
      (true, set_header r (lower (take colon line)) (trim_value (drop (colon + 1) line)))
  end.

Definition getHeader (r : HttpRequest) (key : str) : str :=
  default [] (headers r !! lower key).

Definition keepAlive (r : HttpRequest) : bool :=
  if bool_decide (version r = HTTP_10)
  then bool_decide (getHeader r (#"connection") = #"keep-alive")
  else negb (bool_decide (getHeader r (#"connection") = #"close")).

(** The exception of [std::stoul], for garbage or for a number of more than
    64 bits, is caught and read as zero. *)
Definition contentLength (r : HttpRequest) : Z :=
  let len := getHeader r (#"content-length") in
  if bool_decide (len = []) then 0%Z else default 0%Z (stoul len).

Definition getParam (r : HttpRequest) (key defaultVal : str) : str :=
  default defaultVal (params r !! key).

Fixpoint cookies_loop (fuel : nat) (h : str) (start : nat) (result : gmap str str) : gmap str str :=
  match fuel with
  | O => result
  | S f =>
      if negb (start <? length h) then result else
      let '(pr, start') :=
        match find [ ";"%char ] h start with
        | None => (drop start h, length h)
        | Some semi => (substr h start (semi - start), semi + 1)
        end in
      match skip_chars [SP] pr with
      | [] => cookies_loop f h start' result
      | p =>
          match find [ "="%char ] p 0 with
          | Some eq => cookies_loop f h start' (<[take eq p := drop (eq + 1) p]> result)
          | None => cookies_loop f h start' result
          end
      end
  end.

Definition cookies (r : HttpRequest) : gmap str str :=
  let h := getHeader r (#"cookie") in
  if bool_decide (h = []) then ∅ else cookies_loop (S (length h)) h 0 ∅.

Definition cookie (r : HttpRequest) (name : str) : str := default [] (cookies r !! name).

(** ** The loops are given enough fuel *)

Lemma parseQuery_fuel f g q start ps :
  length q < start + f → length q < start + g →
  parseQuery_loop f q start ps = parseQuery_loop g q start ps.
Proof.
  revert g start ps. induction f as [|f IH]; intros g start ps Hf Hg.
  - destruct g as [|g]; simpl; [done|].
    rewrite (proj2 (Nat.ltb_ge _ _)) by lia. done.
  - destruct g as [|g]; cbn [parseQuery_loop]; (destruct (start <? length q) eqn:E;
      bool_to_prop; [|done]); [lia|]. cbn [negb].
    destruct (find _ q start) as [eq|]; [|done].
    destruct (find [ "&"%char ] q start) as [amp|] eqn:Ea; [|by apply IH; lia].
    apply find_bound in Ea. apply IH; lia.
Qed.

(** ** Query strings *)

(** [k1=v1&k2=v2&...] *)
Fixpoint print_query (kvs : list (str * str)) : str :=
  match kvs with
  | [] => []
  | [(k, v)] => k ++ "="%char :: v
  | (k, v) :: rest => k ++ "="%char :: v ++ "&"%char :: print_query rest
  end.

Definition query_ok (kv : str * str) : Prop :=
  "="%char ∉ kv.1 ∧ "&"%char ∉ kv.1 ∧ "&"%char ∉ kv.2.

Lemma find_char_at c pre s t :
  c ∉ s → find [c] (pre ++ s ++ c :: t) (length pre) = Some (length pre + length s).
Proof. intros. rewrite find_app_r, find0_char by done. done. Qed.

Lemma parseQuery_pair pre k v rest f ps :
  query_ok (k, v) → (zlen v < 2 ^ 63)%Z →
  parseQuery_loop (S f) (pre ++ k ++ "="%char :: v ++ "&"%char :: rest) (length pre) ps
  = parseQuery_loop f (pre ++ k ++ "="%char :: v ++ "&"%char :: rest)
      (length (pre ++ k ++ "="%char :: v ++ [ "&"%char ])) (<[k:=v]> ps).
Proof.
  intros (Hk1 & Hk2 & Hv) Hvlen. simpl in *. cbn [parseQuery_loop].
  set (q := pre ++ _) in *.
  assert (Hq : length q = length pre + (length k + S (length v + S (length rest))))
    by (unfold q; len).
  rewrite (proj2 (Nat.ltb_lt _ _)) by lia. cbn [negb].
  assert (Heq : find [ "="%char ] q (length pre) = Some (length pre + length k))
    by (by apply find_char_at).
  assert (Hamp : find [ "&"%char ] q (length pre) = Some (length pre + (length k + S (length v)))).
  { unfold q. change (k ++ "="%char :: v ++ "&"%char :: rest)
      with (k ++ ("="%char :: v) ++ "&"%char :: rest). rewrite (app_assoc k).
    rewrite find_char_at by set_solver. f_equal. len. }
  rewrite Heq, Hamp. unfold q at 2. rewrite substr_app_r.
  replace (length pre + length k - length pre) with (length k) by lia.
  rewrite take_app_length.
  replace (substr_z q _ _) with v.
  - f_equal. len.
  - unfold substr_z. rewrite u64_small by (unfold zlen in Hvlen; lia).
    replace (drop (length pre + length k + 1) q) with (v ++ "&"%char :: rest).
    + rewrite take_app_length'; [done|]. unfold zlen. lia.
    + unfold q. rewrite app_assoc, drop_app_ge by len.
      replace (_ - _) with 1 by len. done.
Qed.

Lemma parseQuery_last pre k v f ps :
  query_ok (k, v) →
  parseQuery_loop (S f) (pre ++ k ++ "="%char :: v) (length pre) ps = <[k:=v]> ps.
Proof.
  intros (Hk1 & Hk2 & Hv). simpl in *. cbn [parseQuery_loop].
  rewrite (proj2 (Nat.ltb_lt _ _)) by len. cbn [negb].
  rewrite find_char_at by done.
  rewrite find_app_r, (proj2 (find0_char_None _ _)) by set_solver. simpl.
  rewrite substr_app_r. replace (length pre + length k - length pre) with (length k) by lia.
  rewrite take_app_length.
  replace (drop _ _) with v.
  - destruct f; cbn [parseQuery_loop]; [done|]. by rewrite Nat.ltb_irrefl.
  - rewrite app_assoc, drop_app_ge by len. by replace (_ - _) with 1 by len.
Qed.

(** A query string written as key=value pairs joined by ampersands is
    read back as exactly these pairs, later pairs replacing earlier ones with
    the same key; values may contain the equals sign. *)
Theorem parseQuery_print (kvs : list (str * str)) (ps : gmap str str)
    (Hok : Forall query_ok kvs) (Hlen : (zlen (print_query kvs) < 2 ^ 63)%Z) :
  parseQuery (print_query kvs) ps = foldl (λ m kv, <[kv.1 := kv.2]> m) ps kvs.
Proof.
  unfold parseQuery.
  assert (Hgen : ∀ pre f ps, (zlen (print_query kvs) < 2 ^ 63)%Z → length (print_query kvs) < f →
    parseQuery_loop f (pre ++ print_query kvs) (length pre) ps
    = foldl (λ m kv, <[kv.1 := kv.2]> m) ps kvs); [|apply (Hgen []); [done|lia]].
  clear ps Hlen. induction Hok as [|[k v] kvs' Hkv Hok IH]; intros pre f ps Hlen Hf.
  - simpl. destruct f as [|f]; simpl; [done|]. rewrite app_nil_r. by rewrite Nat.ltb_irrefl.
  - destruct f as [|f]; [lia|].
    destruct kvs' as [|kv' kvs'].
    + simpl print_query. by rewrite parseQuery_last.
    + change (print_query ((k, v) :: kv' :: kvs'))
        with (k ++ "="%char :: v ++ "&"%char :: print_query (kv' :: kvs')) in *.
      set (rest := print_query (kv' :: kvs')) in *.
      rewrite parseQuery_pair by (done || revert Hlen; len).
      replace (pre ++ k ++ "="%char :: v ++ "&"%char :: rest)
        with ((pre ++ k ++ "="%char :: v ++ [ "&"%char ]) ++ rest)
        by (by rewrite <-!app_assoc; simpl; rewrite <-!app_assoc).
      apply IH; [revert Hlen|revert Hf]; len.
Qed.

Lemma parseQuery_print_witness :
  parseQuery (#"a=1&b=x=y&a=2") ∅
  = <[ (#"a") := (#"2")]> (<[ (#"b") := (#"x=y")]> (<[ (#"a") := (#"1")]> (∅ : gmap str str))).
Proof.
  apply (parseQuery_print [( #"a", #"1"); ( #"b", #"x=y"); ( #"a", #"2")] ∅).
  - repeat constructor; simpl; set_solver.
  - vm_compute. reflexivity.
Defined.

(** A pair without an equals sign swallows the rest of the query: the key
    runs up to the next equals sign, and the wrapped count takes everything
    after it as the value. *)
Example parseQuery_no_equals :
  parseQuery (#"flag&x=1") ∅ !! (#"flag&x") = Some (#"1").
Proof. vm_compute. reflexivity. Qed.

(** ** Request line and header lines *)

Lemma parseRequestLine_print r m p v :
  SP ∉ m → SP ∉ p →
  parseRequestLine r (m ++ SP :: p ++ SP :: v)
  = (true, set_version (set_target (set_method r (stringToMethod m)) p) (stringToVersion v)).
Proof.
  intros Hm Hp. unfold parseRequestLine. rewrite find_0, find0_char by done.
  rewrite substr_prefix by done.
  change (m ++ SP :: p ++ SP :: v) with (m ++ [SP] ++ p ++ SP :: v). rewrite (app_assoc m).
  replace (length m + 1) with (length (m ++ [SP])) by len.
  rewrite find_char_at by done. rewrite substr_app_r.
  replace (_ - _) with (length p) by lia. rewrite take_app_length.
  replace (drop _ _) with v; [done|].
  rewrite app_assoc, drop_app_ge by len. by replace (_ - _) with 1 by len.
Qed.

Lemma parseHeader_print r k v :
  ":"%char ∉ k →
  parseHeader r (k ++ ":"%char :: v) = (true, set_header r (lower k) (trim_value v)).
Proof.
  intros Hk. unfold parseHeader. rewrite find_0, find0_char by done.
  rewrite take_app_length. do 3 f_equal.
  rewrite drop_app_ge by lia. by replace (_ - _) with 1 by lia.
Qed.

Lemma trim_value_sp v : match v with [] => False | c :: _ => c ≠ SP end → trim_value (SP :: v) = v.
Proof.
  intros Hv. unfold trim_value. cbn [skip_chars]. rewrite bool_decide_true by set_solver.
  destruct v as [|c v]; [done|]. rewrite skip_chars_nil by set_solver. done.
Qed.

(** Connection persistence: HTTP/1.0 closes unless the client asks to
    keep the connection, any other version keeps it unless the client asks to
    close; the header name is matched whatever its case. *)
Theorem keepAlive_spec (r : HttpRequest) (k v : str) (Hk : lower k = #"connection") :
  keepAlive (set_header r (lower k) v)
  = match version r with
    | HTTP_10 => bool_decide (v = #"keep-alive")
    | _ => negb (bool_decide (v = #"close"))
    end.
Proof.
  unfold keepAlive, getHeader. cbn [version headers set_header]. rewrite Hk.
  change (lower (#"connection")) with (#"connection").
  rewrite lookup_insert_eq. simpl default. by destruct (version r).
Qed.

Lemma keepAlive_spec_witness :
  keepAlive (set_header HttpRequest_new (lower (#"Connection")) (#"close")) = false.
Proof. exact (keepAlive_spec HttpRequest_new (#"Connection") (#"close") eq_refl). Defined.

(** The declared body length.  A decimal below 2^64 is read exactly; a
    larger one is caught as an exception and read as zero, so that a request
    which declares it is taken to have no body; a negative one wraps. *)
Theorem contentLength_spec (r : HttpRequest) (n : Z) (Hn : (0 ≤ n)%Z) :
  let declare v := set_header r (#"content-length") v in
  contentLength (declare (to_dec n)) = (if (n <? 2 ^ 64)%Z then n else 0%Z) ∧
  (contentLength (declare (#"-1")) = 2 ^ 64 - 1)%Z ∧
  contentLength (declare (#"abc")) = 0%Z.
Proof.
  intros declare. unfold contentLength, getHeader, declare. cbn [headers set_header].
  change (lower (#"content-length")) with (#"content-length").
  rewrite !lookup_insert_eq. simpl default. split_and!; [|vm_compute; reflexivity..].
  destruct (digits_cons 10 n ltac:(lia) Hn) as (d & t & E & _).
  rewrite bool_decide_false by (unfold to_dec; by rewrite E).
  unfold stoul. rewrite <-(app_nil_r (to_dec n)), scan_int_dec by done.
  by case_match.
Qed.

Lemma contentLength_spec_witness :
  contentLength (set_header HttpRequest_new (#"content-length") (to_dec (2 ^ 64 + 5))) = 0%Z.
Proof. exact (proj1 (contentLength_spec HttpRequest_new (2 ^ 64 + 5) ltac:(lia))). Defined.
