(* ===== verification/HttpResponse.v ===== *)
(** * HttpResponse: status line, headers, body and chunked encoding

    Models [src/http/HttpResponse.h].  The headers are a finite map; the
    order in which [std::unordered_map] iterates over them is not specified,
    so printing takes the order as an argument, which only has to list the
    entries of the map. *)

From S2P Require Import Prelude.

Inductive HttpStatusCode :=
  | OK | CREATED | NO_CONTENT | MOVED_PERMANENTLY | FOUND | NOT_MODIFIED
  | BAD_REQUEST | UNAUTHORIZED | FORBIDDEN | NOT_FOUND | METHOD_NOT_ALLOWED
  | REQUEST_TIMEOUT | PAYLOAD_TOO_LARGE | TOO_MANY_REQUESTS
  | INTERNAL_SERVER_ERROR | BAD_GATEWAY | SERVICE_UNAVAILABLE | GATEWAY_TIMEOUT.

#[export] Instance HttpStatusCode_eq_dec : EqDecision HttpStatusCode.
Proof. solve_decision. Defined.

(** [static_cast<int>(code)]. *)
Definition code_int (c : HttpStatusCode) : Z :=
  match c with
  | OK => 200 | CREATED => 201 | NO_CONTENT => 204 | MOVED_PERMANENTLY => 301
  | FOUND => 302 | NOT_MODIFIED => 304 | BAD_REQUEST => 400 | UNAUTHORIZED => 401
  | FORBIDDEN => 403 | NOT_FOUND => 404 | METHOD_NOT_ALLOWED => 405
  | REQUEST_TIMEOUT => 408 | PAYLOAD_TOO_LARGE => 413 | TOO_MANY_REQUESTS => 429
  | INTERNAL_SERVER_ERROR => 500 | BAD_GATEWAY => 502 | SERVICE_UNAVAILABLE => 503
  | GATEWAY_TIMEOUT => 504
  end%Z.

Definition code_message (c : HttpStatusCode) : str :=
  match c with
  | OK => #"OK" | CREATED => #"Created" | NO_CONTENT => #"No Content"
  | MOVED_PERMANENTLY => #"Moved Permanently" | FOUND => #"Found"
  | NOT_MODIFIED => #"Not Modified" | BAD_REQUEST => #"Bad Request"
  | UNAUTHORIZED => #"Unauthorized" | FORBIDDEN => #"Forbidden"
  | NOT_FOUND => #"Not Found" | METHOD_NOT_ALLOWED => #"Method Not Allowed"
  | REQUEST_TIMEOUT => #"Request Timeout" | PAYLOAD_TOO_LARGE => #"Payload Too Large"
  | TOO_MANY_REQUESTS => #"Too Many Requests"
  | INTERNAL_SERVER_ERROR => #"Internal Server Error" | BAD_GATEWAY => #"Bad Gateway"
  | SERVICE_UNAVAILABLE => #"Service Unavailable" | GATEWAY_TIMEOUT => #"Gateway Timeout"
  end.

Record HttpResponse := mkResponse {
  statusCode : HttpStatusCode;
  statusMessage : str;
  rheaders : gmap str str;
  rbody : str;
  closeConnection : bool;
  chunked_ : bool;
  chunks_ : list str;
  bodyFileFd_ : Z;
  bodyFileSize_ : Z;
  deferred : bool
}.

Definition HttpResponse_new : HttpResponse :=
  mkResponse OK (#"OK") ∅ [] false false [] (-1) 0 false.

Definition setStatusCode (r : HttpResponse) (c : HttpStatusCode) : HttpResponse :=
  mkResponse c (code_message c) (rheaders r) (rbody r) (closeConnection r) (chunked_ r)
    (chunks_ r) (bodyFileFd_ r) (bodyFileSize_ r) (deferred r).

Definition setHeader (r : HttpResponse) (key value : str) : HttpResponse :=
  mkResponse (statusCode r) (statusMessage r) (<[key:=value]> (rheaders r)) (rbody r)
    (closeConnection r) (chunked_ r) (chunks_ r) (bodyFileFd_ r) (bodyFileSize_ r) (deferred r).

Definition setContentType (r : HttpResponse) (type : str) : HttpResponse :=
  setHeader r (#"Content-Type") type.
Definition setContentLength (r : HttpResponse) (len : Z) : HttpResponse :=
  setHeader r (#"Content-Length") (to_dec len).

Definition with_body (r : HttpResponse) (b : str) : HttpResponse :=
  mkResponse (statusCode r) (statusMessage r) (rheaders r) b (closeConnection r) (chunked_ r)
    (chunks_ r) (bodyFileFd_ r) (bodyFileSize_ r) (deferred r).
Definition set_close (r : HttpResponse) (c : bool) : HttpResponse :=
  mkResponse (statusCode r) (statusMessage r) (rheaders r) (rbody r) c (chunked_ r)
    (chunks_ r) (bodyFileFd_ r) (bodyFileSize_ r) (deferred r).

Definition setBody (r : HttpResponse) (b : str) : HttpResponse :=
  setContentLength (with_body r b) (zlen b).

Definition setFileBody (r : HttpResponse) (fd size : Z) : HttpResponse :=
  setContentLength
    (mkResponse (statusCode r) (statusMessage r) (rheaders r) [] (closeConnection r)
       (chunked_ r) (chunks_ r) fd size (deferred r)) size.

Definition hasFileBody (r : HttpResponse) : bool := (0 <=? bodyFileFd_ r)%Z.

Definition setJson (r : HttpResponse) (json : str) : HttpResponse :=
  setBody (setContentType r (#"application/json")) json.
Definition setHtml (r : HttpResponse) (html : str) : HttpResponse :=
  setBody (setContentType r (#"text/html; charset=utf-8")) html.
Definition setText (r : HttpResponse) (text : str) : HttpResponse :=
  setBody (setContentType r (#"text/plain; charset=utf-8")) text.

Definition setChunked (r : HttpResponse) (enabled : bool) : HttpResponse :=
  mkResponse (statusCode r) (statusMessage r) (rheaders r) (rbody r) (closeConnection r)
    enabled (chunks_ r) (bodyFileFd_ r) (bodyFileSize_ r) (deferred r).
Definition addChunk (r : HttpResponse) (data : str) : HttpResponse :=
  mkResponse (statusCode r) (statusMessage r) (rheaders r) (rbody r) (closeConnection r)
    (chunked_ r) (chunks_ r ++ [data]) (bodyFileFd_ r) (bodyFileSize_ r) (deferred r).
Definition canSendIov (r : HttpResponse) : bool := negb (chunked_ r).

(** ** Named responses *)

Definition ok (b : str) : HttpResponse :=
  let r := setStatusCode HttpResponse_new OK in
  if bool_decide (b = []) then r else setBody r b.
Definition json (j : str) : HttpResponse := setJson (setStatusCode HttpResponse_new OK) j.
Definition notFound (msg : str) : HttpResponse := setText (setStatusCode HttpResponse_new NOT_FOUND) msg.
Definition badRequest (msg : str) : HttpResponse := setText (setStatusCode HttpResponse_new BAD_REQUEST) msg.
Definition serverError (msg : str) : HttpResponse :=
  setText (setStatusCode HttpResponse_new INTERNAL_SERVER_ERROR) msg.
Definition redirect (url : str) (code : HttpStatusCode) : HttpResponse :=
  setBody (setHeader (setStatusCode HttpResponse_new code) (#"Location") url) [].

Definition setCors (r : HttpResponse) (origin : str) : HttpResponse :=
  setHeader (setHeader (setHeader (setHeader r
    (#"Access-Control-Allow-Origin") origin)
    (#"Access-Control-Allow-Methods") (#"GET, POST, PUT, DELETE, OPTIONS"))
    (#"Access-Control-Allow-Headers") (#"Content-Type, Authorization"))
    (#"Access-Control-Max-Age") (#"86400").

Definition setCookie (r : HttpResponse) (name value : str) (maxAge : Z) (cpath : str)
    (httpOnly secure : bool) : HttpResponse :=
  setHeader r (#"Set-Cookie")
    (name ++ #"=" ++ value ++ #"; Path=" ++ cpath ++
     (if (0 <=? maxAge)%Z then #"; Max-Age=" ++ to_string maxAge else []) ++
     (if httpOnly then #"; HttpOnly" else []) ++
     (if secure then #"; Secure" else [])).

(** ** Printing *)

(** An iteration order of the header map. *)
Definition order_ok (order : gmap str str → list (str * str)) : Prop :=
  ∀ m, order m ≡ₚ map_to_list m.

Definition print_header (kv : str * str) : str := kv.1 ++ #": " ++ kv.2 ++ crlf.

Section Printing.
Context (order : gmap str str → list (str * str)).

Definition status_line (r : HttpResponse) : str :=
  #"HTTP/1.1 " ++ to_string (code_int (statusCode r)) ++ #" " ++ statusMessage r ++ crlf.

(** The headers of the map that are printed: [Content-Length] is left out in
    chunked mode. *)
Definition printed_headers (r : HttpResponse) : list (str * str) :=
  List.filter (λ kv, negb (chunked_ r && bool_decide (kv.1 = #"Content-Length"))) (order (rheaders r)).

Definition toHeader (r : HttpResponse) : str :=
  status_line r ++ mjoin (print_header <$> printed_headers r) ++
  (if chunked_ r then #"Transfer-Encoding: chunked" ++ crlf else []) ++
  #"Connection: " ++ (if closeConnection r then #"close" else #"keep-alive") ++ crlf ++
  #"Server: mymuduo-http/1.0" ++ crlf ++ crlf.

(** [snprintf("%zx\r\n")], the data and the line end; an empty chunk is the
    end marker. *)
Definition print_chunk (chunk : str) : str :=
  if bool_decide (chunk = []) then #"0" ++ crlf ++ crlf
  else digits 16 (zlen chunk) ++ crlf ++ chunk ++ crlf.

Definition print_chunks (cs : list str) : str := mjoin (print_chunk <$> cs).

Definition toString (r : HttpResponse) : str :=
  toHeader r ++
  (if chunked_ r && negb (bool_decide (chunks_ r = [])) then print_chunks (chunks_ r)
   else rbody r).
End Printing.

(** ** Chunked bodies *)

(** A receiver's reading of a chunked body (RFC 9112, without extensions and
    trailers): chunk size in hexadecimal, data, line end, until the chunk of
    size zero.  The result is the body and the bytes after it. *)
Fixpoint dechunk (fuel : nat) (s : str) : option (str * str) :=
  match fuel with
  | O => None
  | S f =>
      match s with
      | c :: _ =>
          if bool_decide (is_Some (digit_in 16 c)) then
            let '(n, rest) := scan_digits 16 s 0 in
            if negb (prefixb crlf rest) then None else
            let data := drop 2 rest in
            if (n =? 0)%Z then
              if prefixb crlf data then Some ([], drop 2 data) else None
            else if (zlen data <? n)%Z then None
            else
              let chunk := take (Z.to_nat n) data in
              let after := drop (Z.to_nat n) data in
              if prefixb crlf after then
                match dechunk f (drop 2 after) with
                | Some (b, t) => Some (chunk ++ b, t)
                | None => None
                end
              else None
          else None
      | [] => None
      end
  end.

Lemma dechunk_chunk f c t :
  c ≠ [] →
  dechunk (S f) (print_chunk c ++ t)
  = match dechunk f t with Some (b, u) => Some (c ++ b, u) | None => None end.
Proof.
  intros Hc. unfold print_chunk. rewrite bool_decide_false by done.
  assert (Hn : (0 < zlen c)%Z) by (destruct c; [done|len]).
  destruct (digits_cons 16 (zlen c)) as (d & r & E & Hd); [lia..|].
  pose proof (scan_digits_digits 16 (zlen c) (crlf ++ c ++ crlf ++ t) ltac:(lia) ltac:(lia)) as Hs.
  rewrite <-!app_assoc. rewrite E in *. simpl app in *. cbn [dechunk].
  rewrite bool_decide_true by (rewrite digit_in_char by lia; eauto).
  rewrite Hs by (vm_compute; reflexivity).
  change (CR :: LF :: c ++ CR :: LF :: t) with (crlf ++ (c ++ crlf ++ t)).
  rewrite prefixb_app. cbn [negb].
  change (drop 2 (crlf ++ (c ++ crlf ++ t))) with (c ++ crlf ++ t).
  rewrite (proj2 (Z.eqb_neq _ _)) by lia. rewrite (proj2 (Z.ltb_ge _ _)) by len.
  unfold zlen. rewrite Nat2Z.id, take_app_length, drop_app_length, prefixb_app. done.
Qed.

(** A chunked body is what a receiver reads back: the non-empty chunks
    added before the end marker, concatenated, whatever bytes follow. *)
Theorem chunked_roundtrip (cs : list str) (t : str) (Hcs : Forall (λ c, c ≠ []) cs) :
  dechunk (S (length cs)) (print_chunks (cs ++ [[]]) ++ t) = Some (mjoin cs, t).
Proof.
  unfold print_chunks. induction Hcs as [|c cs Hc Hcs IH].
  - vm_compute. done.
  - cbn [fmap list_fmap app length]. simpl mjoin.
    rewrite <-app_assoc, dechunk_chunk by done. by rewrite IH.
Qed.

Lemma chunked_roundtrip_witness :
  dechunk 3 (print_chunks [ #"hello"; #", world"; []] ++ #"X") = Some (#"hello, world", #"X").
Proof.
  apply (chunked_roundtrip [ #"hello"; #", world"] (#"X")). repeat constructor; done.
Defined.

(** Without an empty last chunk the end marker is never printed, and a
    receiver waits for more. *)
Example chunked_no_terminator : dechunk 5 (print_chunks [ #"hello"]) = None.
Proof. vm_compute. reflexivity. Qed.

(** A [Content-Length] set by [setBody] is the length of the body. *)
Lemma setBody_length r b :
  rheaders (setBody r b) !! (#"Content-Length") = Some (to_dec (zlen b)) ∧ rbody (setBody r b) = b.
Proof. split; [apply lookup_insert_eq|done]. Qed.
