(* ===== verification/Metrics.v ===== *)
(** * Metrics: counters, gauges and summaries

    Models [src/util/Metrics.h].  Every operation runs under the object's
    mutex, so that a history of the object is a sequence of operations. *)

From S2P Require Import Prelude.

(** [HistogramData]. *)
Record HistogramData := mkHist { count : Z; sum : double }.

Record Metrics := mkMetrics {
  counters_ : gmap str Z;
  gauges_ : gmap str Z;
  histograms_ : gmap str HistogramData
}.

Definition Metrics_new : Metrics := mkMetrics ∅ ∅ ∅.

(** [counters_[name] += value] on [int64_t]. *)
Definition increment (m : Metrics) (name : str) (value : Z) : Metrics :=
  mkMetrics (<[name := i64 (default 0%Z (counters_ m !! name) + value)]> (counters_ m))
    (gauges_ m) (histograms_ m).

Definition gauge (m : Metrics) (name : str) (value : Z) : Metrics :=
  mkMetrics (counters_ m) (<[name := value]> (gauges_ m)) (histograms_ m).

Definition observe (m : Metrics) (name : str) (valueMs : double) : Metrics :=
  let h := default (mkHist 0 (dbl 0)) (histograms_ m !! name) in
  mkMetrics (counters_ m) (gauges_ m)
    (<[name := mkHist (i64 (count h + 1)) (dadd (sum h) valueMs)]> (histograms_ m)).

Definition getCounter (m : Metrics) (name : str) : Z := default 0%Z (counters_ m !! name).
Definition getGauge (m : Metrics) (name : str) : Z := default 0%Z (gauges_ m !! name).

Definition reset (_ : Metrics) : Metrics := Metrics_new.

(** The text exposition.  The three maps are printed in an unspecified order
    ([order_z] and [order_h] list their entries), and [show] stands for the
    formatting of a [double] by an output stream. *)
Definition print_metric (name kind : str) (lines : list (str * str)) : str :=
  #"# TYPE " ++ name ++ SP :: kind ++ [LF] ++
  mjoin ((λ l : str * str, name ++ l.1 ++ SP :: l.2 ++ [LF]) <$> lines).

Definition toPrometheus (order_z : gmap str Z → list (str * Z))
    (order_h : gmap str HistogramData → list (str * HistogramData))
    (show : double → str) (m : Metrics) : str :=
  mjoin ((λ kv : str * Z, print_metric kv.1 (#"counter") [([], to_string kv.2)]) <$> order_z (counters_ m)) ++
  mjoin ((λ kv : str * Z, print_metric kv.1 (#"gauge") [([], to_string kv.2)]) <$> order_z (gauges_ m)) ++
  mjoin ((λ kv : str * HistogramData, print_metric kv.1 (#"summary")
     [( #"_count", to_string (count kv.2)); ( #"_sum", show (sum kv.2))]) <$> order_h (histograms_ m)).

(** ** Histories *)

Inductive MetricsOp :=
  | Increment (name : str) (value : Z)
  | Gauge (name : str) (value : Z)
  | Observe (name : str) (value : double)
  | Reset.

Definition run_op (m : Metrics) (o : MetricsOp) : Metrics :=
  match o with
  | Increment n v => increment m n v
  | Gauge n v => gauge m n v
  | Observe n v => observe m n v
  | Reset => reset m
  end.

(** What a history, latest operation first, says a counter holds. *)
Fixpoint counted (hist : list MetricsOp) (name : str) : Z :=
  match hist with
  | [] => 0
  | Increment n v :: h => (if bool_decide (n = name) then v else 0) + counted h name
  | Reset :: _ => 0
  | _ :: h => counted h name
  end.

Fixpoint last_set (hist : list MetricsOp) (name : str) : Z :=
  match hist with
  | [] => 0
  | Gauge n v :: h => if bool_decide (n = name) then v else last_set h name
  | Reset :: _ => 0
  | _ :: h => last_set h name
  end.

Fixpoint observations (hist : list MetricsOp) (name : str) : Z :=
  match hist with
  | [] => 0
  | Observe n _ :: h => (if bool_decide (n = name) then 1 else 0) + observations h name
  | Reset :: _ => 0
  | _ :: h => observations h name
  end.

Lemma i64_add_idemp a b : i64 (i64 a + b) = i64 (a + b).
Proof.
  unfold i64. f_equal.
  replace ((a + 2 ^ 63) mod 2 ^ 64 - 2 ^ 63 + b + 2 ^ 63)%Z
    with ((a + 2 ^ 63) mod 2 ^ 64 + b)%Z by lia.
  rewrite Z.add_mod_idemp_l by lia. f_equal. lia.
Qed.

Lemma i64_0 : i64 0 = 0%Z.
Proof. done. Qed.

(** After any history a counter holds the sum of its increments since the
    last reset, modulo 2^64 as an [int64_t]; a gauge holds the value it was
    last set to; a summary has counted its observations; no operation on one
    name or kind disturbs another. *)
Theorem metrics_history (ops : list MetricsOp) (name : str) :
  let m := foldr (λ o m, run_op m o) Metrics_new ops in
  getCounter m name = i64 (counted ops name) ∧
  getGauge m name = last_set ops name ∧
  default 0%Z (count <$> histograms_ m !! name) = i64 (observations ops name).
Proof.
  induction ops as [|o ops (IH1 & IH2 & IH3)]; cbn [foldr].
  - vm_compute. done.
  - set (m := foldr _ _ ops) in *. unfold getCounter, getGauge in *.
    destruct o as [n v|n v|n v|]; cbn [run_op counted last_set observations];
      [| | |vm_compute; done].
    + split_and!; [|done..]. cbn [increment counters_].
      destruct (decide (n = name)) as [->|Hn].
      * rewrite lookup_insert_eq, bool_decide_true by done. simpl default at 1.
        rewrite IH1, i64_add_idemp. f_equal. lia.
      * by rewrite lookup_insert_ne, bool_decide_false.
    + split_and!; [done| |done]. cbn [gauge gauges_].
      destruct (decide (n = name)) as [->|Hn].
      * by rewrite lookup_insert_eq, bool_decide_true.
      * by rewrite lookup_insert_ne, bool_decide_false.
    + split_and!; [done..|]. cbn [observe histograms_].
      destruct (decide (n = name)) as [->|Hn].
      * rewrite lookup_insert_eq, bool_decide_true by done. cbn [fmap option_fmap option_map default count].
        replace (count _) with (i64 (observations ops name))
          by (rewrite <-IH3; by destruct (histograms_ m !! name)).
        rewrite i64_add_idemp. simpl. f_equal. lia.
      * by rewrite lookup_insert_ne, bool_decide_false.
Qed.
