(* ===== verification/RateLimiter.v ===== *)
(** * RateLimiter: token bucket and sliding window

    Models [src/util/RateLimiter.h].  Both limiters run under their mutex and
    read a steady clock in milliseconds, which is an argument of [allow].
    The token counts are IEEE doubles, evaluated by the Standard Library's
    [SpecFloat]. *)

From S2P Require Import Prelude.
From Stdlib Require Import Sorted.

(** What a client relies on: a decision for a key, and that the requests of
    one key do not influence the decisions for another. *)
Class Limiter (L : Type) := {
  lim_allow : L → Z → str → bool * L;
  lim_independent l now now' k k' : k ≠ k' →
    (lim_allow (lim_allow l now k).2 now' k').1 = (lim_allow l now' k').1
}.

(** ** Token bucket *)

Module TokenBucketLimiter.

Record Bucket := mkBucket { tokens : double; lastTime : Z }.

Record t := mk {
  rate_ : double;
  burst_ : Z;
  buckets_ : gmap str Bucket
}.

Definition new (rate : double) (burst : Z) : t := mk rate burst ∅.

(** The refilled bucket. *)
Definition refill (l : t) (now : Z) (b : Bucket) : Bucket :=
  let elapsed := ddiv (dbl (now - lastTime b)) (dbl 1000) in
  mkBucket (dmin (dbl (burst_ l)) (dadd (tokens b) (dmul elapsed (rate_ l)))) now.

Definition allow (l : t) (now : Z) (key : str) : bool * t :=
  match buckets_ l !! key with
  | None =>
      (true, mk (rate_ l) (burst_ l)
               (<[key := mkBucket (dsub (dbl (burst_ l)) (dbl 1)) now]> (buckets_ l)))
  | Some b0 =>
      let b := refill l now b0 in
      if dle (dbl 1) (tokens b) then
        (true, mk (rate_ l) (burst_ l)
                 (<[key := mkBucket (dsub (tokens b) (dbl 1)) now]> (buckets_ l)))
      else (false, mk (rate_ l) (burst_ l) (<[key := b]> (buckets_ l)))
  end.

Lemma bucket_independent l now now' k k' :
  k ≠ k' → (allow (allow l now k).2 now' k').1 = (allow l now' k').1.
Proof.
  intros Hk. unfold allow at 2. destruct (buckets_ l !! k); [destruct (dle _ _)|];
    unfold allow; cbn [snd buckets_]; rewrite lookup_insert_ne by done;
    by destruct (buckets_ l !! k'); [unfold refill; cbn [rate_ burst_]; destruct (dle _ _)|].
Qed.

#[global] Instance limiter : Limiter t := {
  lim_allow := allow;
  lim_independent := bucket_independent
}.

(** A sequence of requests of one key at given times: the decisions. *)
Fixpoint run (l : t) (key : str) (times : list Z) : list bool * t :=
  match times with
  | [] => ([], l)
  | now :: rest =>
      let '(ok, l1) := allow l now key in
      let '(oks, l2) := run l1 key rest in (ok :: oks, l2)
  end.

Lemma dlt_le x y : dlt x y = true → dle x y = true.
Proof.
  unfold dlt, dle, SpecFloat.SFltb, SpecFloat.SFleb. by destruct (SpecFloat.SFcompare x y) as [[]|].
Qed.

Definition not_nan (x : double) : Prop := dle x x = true.

Lemma dmin_le a x : not_nan a → dle (dmin a x) a = true.
Proof. intros Ha. unfold dmin. destruct (dlt x a) eqn:E; [by apply dlt_le|done]. Qed.

(** One decision of the token bucket.  A key not seen before gets a full
    bucket and is admitted; otherwise the bucket is refilled for the elapsed
    time, never above the burst size, and the request is admitted exactly when
    a whole token is left, which it takes; a refusal takes nothing and still
    moves the refill time. *)
Theorem token_bucket_step (l : t) (now : Z) (key : str) (Hb : not_nan (dbl (burst_ l))) :
  let '(ok, l') := allow l now key in
  match buckets_ l !! key with
  | None => ok = true ∧ tokens <$> buckets_ l' !! key = Some (dsub (dbl (burst_ l)) (dbl 1))
  | Some b =>
      let r := refill l now b in
      dle (tokens r) (dbl (burst_ l)) = true ∧
      ok = dle (dbl 1) (tokens r) ∧
      buckets_ l' !! key = Some (mkBucket (if ok then dsub (tokens r) (dbl 1) else tokens r) now)
  end ∧ delete key (buckets_ l') = delete key (buckets_ l).
Proof.
  unfold allow. destruct (buckets_ l !! key) as [b|] eqn:E.
  - destruct (dle (dbl 1) (tokens (refill l now b))) eqn:E1; cbn [buckets_];
      rewrite lookup_insert_eq, delete_insert_eq; split_and!; try done; by apply dmin_le.
  - cbn [buckets_]. by rewrite lookup_insert_eq, delete_insert_eq.
Qed.

Lemma token_bucket_step_witness :
  let l := (allow (new (dbl 10) 10) 0 (#"k")).2 in
  let '(ok, l') := allow l 250 (#"k") in
  match buckets_ l !! (#"k") with
  | None => ok = true ∧ tokens <$> buckets_ l' !! (#"k") = Some (dsub (dbl (burst_ l)) (dbl 1))
  | Some b =>
      let r := refill l 250 b in
      dle (tokens r) (dbl (burst_ l)) = true ∧
      ok = dle (dbl 1) (tokens r) ∧
      buckets_ l' !! (#"k") = Some (mkBucket (if ok then dsub (tokens r) (dbl 1) else tokens r) 250)
  end ∧ delete (#"k") (buckets_ l') = delete (#"k") (buckets_ l).
Proof. intros l. apply (token_bucket_step l 250 (#"k")). reflexivity. Defined.

(** A burst of three at one instant, one more token every hundred
    milliseconds. *)
Example burst_of_three :
  (run (new (dbl 10) 3) (#"k") [0; 0; 0; 0; 50; 150; 151]%Z).1
  = [true; true; true; false; false; true; false].
Proof. vm_compute. reflexivity. Qed.

(** A limiter with an empty burst still admits the first request of a key. *)
Example empty_burst_admits_first : (run (new (dbl 0) 0) (#"k") [0; 0]%Z).1 = [true; false].
Proof. vm_compute. reflexivity. Qed.

End TokenBucketLimiter.

(** ** Sliding window *)

Module SlidingWindowLimiter.

Record t := mk {
  maxRequests_ : Z;
  windowMs_ : Z;
  windows_ : gmap str (list Z)
}.

(** [windowSec * 1000] is computed on [int]. *)
Definition new (maxRequests windowSec : Z) : t := mk maxRequests (i32 (windowSec * 1000)) ∅.

(** [while (!window.empty() && window.front() <= cutoff) window.pop_front()]. *)
Fixpoint expire (cutoff : Z) (window : list Z) : list Z :=
  match window with
  | [] => []
  | x :: rest => if (x <=? cutoff)%Z then expire cutoff rest else window
  end.

Definition allow (l : t) (now : Z) (key : str) : bool * t :=
  let window := expire (now - windowMs_ l) (default [] (windows_ l !! key)) in
  if (i32 (zlen window) <? maxRequests_ l)%Z
  then (true, mk (maxRequests_ l) (windowMs_ l) (<[key := window ++ [now]]> (windows_ l)))
  else (false, mk (maxRequests_ l) (windowMs_ l) (<[key := window]> (windows_ l))).

Lemma window_independent l now now' k k' :
  k ≠ k' → (allow (allow l now k).2 now' k').1 = (allow l now' k').1.
Proof.
  intros Hk. unfold allow at 2. case_match; unfold allow; cbn [snd windows_ windowMs_ maxRequests_];
    rewrite lookup_insert_ne by done; by case_match.
Qed.

#[global] Instance limiter : Limiter t := {
  lim_allow := allow;
  lim_independent := window_independent
}.

(** *** The specification: a log of admitted requests, latest last *)

Definition in_window (w now : Z) (key : str) (e : str * Z) : bool :=
  bool_decide (e.1 = key) && (now - w <? e.2)%Z.

(** How many requests of the key are in the window that ends at [now]. *)
Definition admitted (w : Z) (log : list (str * Z)) (now : Z) (key : str) : list (str * Z) :=
  List.filter (in_window w now key) log.

Fixpoint spec_run (max w : Z) (log : list (str * Z)) (calls : list (str * Z)) : list bool * list (str * Z) :=
  match calls with
  | [] => ([], log)
  | (key, now) :: rest =>
      let ok := (zlen (admitted w log now key) <? max)%Z in
      let '(oks, log') := spec_run max w (if ok then log ++ [(key, now)] else log) rest in
      (ok :: oks, log')
  end.

Fixpoint run (l : t) (calls : list (str * Z)) : list bool * t :=
  match calls with
  | [] => ([], l)
  | (key, now) :: rest =>
      let '(ok, l1) := allow l now key in
      let '(oks, l2) := run l1 rest in (ok :: oks, l2)
  end.

(** The clock is steady: the times of the calls do not decrease. *)
Fixpoint steady (t0 : Z) (calls : list (str * Z)) : Prop :=
  match calls with
  | [] => True
  | (_, now) :: rest => (t0 <= now)%Z ∧ steady now rest
  end.

(** *** Refinement *)

Definition times_of (key : str) (log : list (str * Z)) : list Z :=
  snd <$> List.filter (λ e, bool_decide (e.1 = key)) log.

(** Each window is the suffix of the key's log after some time that is no
    longer of interest; the log is in order and not ahead of the clock. *)
Definition refines (l : t) (log : list (str * Z)) (now : Z) : Prop :=
  Forall (λ e, e.2 <= now)%Z log ∧
  ∀ key, ∃ old, times_of key log = old ++ default [] (windows_ l !! key) ∧
    Forall (λ x, x <= now - windowMs_ l)%Z old ∧
    Sorted Z.le (default [] (windows_ l !! key)).

Lemma expire_suffix c w : ∃ old, w = old ++ expire c w ∧ Forall (λ x, x <= c)%Z old.
Proof.
  induction w as [|x w IH]; simpl; [by exists []|].
  destruct (x <=? c)%Z eqn:E; bool_to_prop; [|by exists []].
  destruct IH as (old & Hw & Hold). exists (x :: old). split; [simpl; congruence|by constructor].
Qed.

Lemma sorted_suffix (a b : list Z) : Sorted Z.le (a ++ b) → Sorted Z.le b.
Proof.
  induction a as [|x a IH]; simpl; [done|]. intros H. apply IH. by inversion H.
Qed.

Lemma expire_above c w : Sorted Z.le w → Forall (λ x, c < x)%Z (expire c w).
Proof.
  induction w as [|x w IH]; simpl; intros Hs; [constructor|].
  destruct (x <=? c)%Z eqn:E; bool_to_prop; [apply IH; by inversion Hs|].
  apply Sorted_StronglySorted in Hs; [|intros ???; lia].
  inversion Hs as [|?? _ Hall]; subst. constructor; [done|].
  eapply Forall_impl; [exact Hall|]. simpl. lia.
Qed.

Lemma filter_all {A} (f : A → bool) l : Forall (λ x, f x = true) l → List.filter f l = l.
Proof. induction 1 as [|x l Hx _ IH]; simpl; [done|]. by rewrite Hx, IH. Qed.

Lemma filter_none {A} (f : A → bool) l : Forall (λ x, f x = false) l → List.filter f l = [].
Proof. induction 1 as [|x l Hx _ IH]; simpl; [done|]. by rewrite Hx. Qed.

Lemma admitted_times w log now key :
  snd <$> admitted w log now key = List.filter (λ x, now - w <? x)%Z (times_of key log).
Proof.
  unfold admitted, times_of. induction log as [|[k x] log IH]; [done|].
  cbn [List.filter]. unfold in_window at 1. cbn [fst snd].
  destruct (bool_decide (k = key)); [|exact IH].
  cbn [andb fmap list_fmap List.filter snd].
  destruct (now - w <? x)%Z; cbn [fmap list_fmap snd]; [|exact IH]. by f_equal.
Qed.

(** The expired window is exactly the admitted requests of the window. *)
Lemma window_is_admitted l log t0 now key :
  refines l log t0 → (t0 <= now)%Z →
  expire (now - windowMs_ l) (default [] (windows_ l !! key))
  = snd <$> admitted (windowMs_ l) log now key.
Proof.
  intros (_ & H) Hle. destruct (H key) as (old & Ht & Hold & Hs).
  rewrite admitted_times, Ht, List.filter_app.
  set (w := default [] (windows_ l !! key)) in *.
  destruct (expire_suffix (now - windowMs_ l) w) as (old' & Hw & Hold').
  rewrite (filter_none _ old); [|eapply Forall_impl; [exact Hold|]; intros x Hx; simpl in *; apply Z.ltb_ge; lia].
  rewrite Hw at 2. rewrite List.filter_app.
  rewrite (filter_none _ old'); [|eapply Forall_impl; [exact Hold'|]; intros x Hx; simpl in *; apply Z.ltb_ge; lia].
  rewrite filter_all; [done|].
  eapply Forall_impl; [by apply expire_above|]. intros x Hx. simpl in *. apply Z.ltb_lt. lia.
Qed.

Lemma sorted_snoc (l : list Z) x : Sorted Z.le l → Forall (λ y, y <= x)%Z l → Sorted Z.le (l ++ [x]).
Proof.
  induction l as [|y l IH]; intros Hs Hl; simpl; [by repeat constructor|].
  inversion Hs; inversion Hl; subst. constructor; [by apply IH|].
  destruct l as [|z l]; simpl; constructor; [done|]. by inversion H2.
Qed.

Lemma times_le key log now : Forall (λ e, e.2 <= now)%Z log → Forall (λ x, x <= now)%Z (times_of key log).
Proof.
  unfold times_of. induction 1 as [|[k x] log Hx _ IH]; simpl; [constructor|].
  destruct (bool_decide _); simpl; [by constructor|done].
Qed.

Lemma times_snoc key log k now :
  times_of key (log ++ [(k, now)]) = times_of key log ++ (if bool_decide (k = key) then [now] else []).
Proof.
  unfold times_of. rewrite List.filter_app, fmap_app. f_equal. simpl. by destruct (bool_decide _).
Qed.

Lemma refines_allow l log t0 now key (ok : bool) :
  refines l log t0 → (t0 <= now)%Z →
  let window := expire (now - windowMs_ l) (default [] (windows_ l !! key)) in
  refines (mk (maxRequests_ l) (windowMs_ l)
             (<[key := window ++ (if ok then [now] else [])]> (windows_ l)))
          (log ++ (if ok then [(key, now)] else [])) now.
Proof.
  intros (Hlog & H) Hle window.
  assert (Hlog' : Forall (λ e, e.2 <= now)%Z log)
    by (eapply Forall_impl; [exact Hlog|]; simpl; lia).
  split; [apply Forall_app; split; [done|]; destruct ok; repeat constructor; simpl; lia|].
  intros k. destruct (H k) as (old & Ht & Hold & Hs). cbn [windows_ windowMs_].
  assert (Hold0 : Forall (λ x, x <= now - windowMs_ l)%Z old)
    by (eapply Forall_impl; [exact Hold|]; simpl; lia).
  destruct (decide (key = k)) as [->|Hk].
  - rewrite lookup_insert_eq. simpl default.
    destruct (expire_suffix (now - windowMs_ l) (default [] (windows_ l !! k))) as (old' & Hw & Hold').
    fold window in Hw. exists (old ++ old'). split_and!.
    + destruct ok; [rewrite times_snoc, bool_decide_true by done|rewrite !app_nil_r];
        rewrite Ht, Hw at 1; by rewrite <-!app_assoc.
    + by apply Forall_app.
    + rewrite Hw in Hs. apply sorted_suffix in Hs.
      destruct ok; [|by rewrite app_nil_r]. apply sorted_snoc; [done|].
      pose proof (times_le k log now Hlog') as Hall. rewrite Ht, Hw in Hall.
      apply Forall_app in Hall as [_ Hall]. by apply Forall_app in Hall as [_ Hall].
  - rewrite lookup_insert_ne by done. exists old. split_and!; [|done..].
    destruct ok; [rewrite times_snoc, bool_decide_false by done|]; by rewrite ?app_nil_r.
Qed.

Lemma run_refines l log t0 calls :
  refines l log t0 → steady t0 calls → (maxRequests_ l < 2 ^ 31)%Z →
  (zlen log + zlen calls < 2 ^ 31)%Z →
  (run l calls).1 = (spec_run (maxRequests_ l) (windowMs_ l) log calls).1.
Proof.
  revert l log t0. induction calls as [|[key now] calls IH]; intros l log t0 Hr Hst Hmax Hlen; [done|].
  destruct Hst as [Hle Hst].
  cbn [run spec_run].
  set (ok := (zlen (admitted (windowMs_ l) log now key) <? maxRequests_ l)%Z).
  assert (Hal : allow l now key
    = (ok, mk (maxRequests_ l) (windowMs_ l)
        (<[key := expire (now - windowMs_ l) (default [] (windows_ l !! key))
                  ++ (if ok then [now] else [])]> (windows_ l)))).
  { unfold allow. rewrite (window_is_admitted l log t0) by done.
    assert (Hf : (zlen (admitted (windowMs_ l) log now key) <= zlen log)%Z).
    { unfold zlen, admitted. pose proof (List.filter_length_le (in_window (windowMs_ l) now key) log). lia. }
    replace (zlen (snd <$> admitted (windowMs_ l) log now key))
      with (zlen (admitted (windowMs_ l) log now key)) by len.
    unfold i32. rewrite Z.mod_small by (revert Hlen Hf; len).
    rewrite Z.add_simpl_r. fold ok. by destruct ok; rewrite ?app_nil_r. }
  rewrite Hal.
  pose proof (refines_allow l log t0 now key ok Hr Hle) as Hr'. cbn zeta in Hr'.
  set (l1 := mk _ _ _) in *.
  assert (Hl : (zlen (log ++ (if ok then [(key, now)] else [])) + zlen calls < 2 ^ 31)%Z)
    by (revert Hlen; destruct ok; len).
  specialize (IH l1 _ now Hr' Hst Hmax Hl). cbn [l1 maxRequests_ windowMs_] in IH.
  replace (if ok then log ++ [(key, now)] else log)
    with (log ++ (if ok then [(key, now)] else [])) by (destruct ok; [done|apply app_nil_r]).
  destruct (run l1 calls), (spec_run _ _ _ calls). simpl in *. by f_equal.
Qed.

(** Refinement to the specification: over any sequence of calls with a
    steady clock, a request is admitted exactly when fewer than the maximum of
    the key's requests were admitted in the window that ends at the call. *)
Theorem sliding_window_refines (maxRequests windowSec t0 : Z) (calls : list (str * Z))
    (Hst : steady t0 calls) (Hmax : (maxRequests < 2 ^ 31)%Z) (Hlen : (zlen calls < 2 ^ 31)%Z) :
  (run (new maxRequests windowSec) calls).1
  = (spec_run maxRequests (i32 (windowSec * 1000)) [] calls).1.
Proof.
  apply (run_refines (new maxRequests windowSec) [] t0); [|done..|done].
  split; [constructor|]. intros key. exists []. cbn [new windows_]. rewrite lookup_empty. simpl. by repeat constructor.
Qed.

Lemma sliding_window_refines_witness :
  (run (new 2 1) [( #"a", 0); ( #"a", 10); ( #"b", 20); ( #"a", 999); ( #"a", 1000)]%Z).1
  = (spec_run 2 (i32 (1 * 1000)) [] [( #"a", 0); ( #"a", 10); ( #"b", 20); ( #"a", 999); ( #"a", 1000)]%Z).1.
Proof. apply (sliding_window_refines 2 1 0); [simpl; lia|lia|vm_compute; reflexivity]. Defined.

(** *** No window holds more than the maximum *)

(** The requests of a key admitted in the window of length [w] that ends at
    [now], both ends considered. *)
Definition within (w now : Z) (key : str) (e : str * Z) : bool :=
  in_window w now key e && (e.2 <=? now)%Z.

Lemma filter_mono {A} (f g : A → bool) l :
  (∀ x, x ∈ l → f x = true → g x = true) → length (List.filter f l) ≤ length (List.filter g l).
Proof.
  induction l as [|x l IH]; simpl; intros H; [lia|].
  assert (IH' := IH (λ y Hy, H y (list_elem_of_further _ _ _ Hy))).
  destruct (f x) eqn:E.
  - rewrite (H x) by (done || left). simpl. lia.
  - destruct (g x); simpl; lia.
Qed.

Lemma spec_log_bounded max w calls log t0 :
  (0 ≤ max)%Z → steady t0 calls → Forall (λ e, e.2 <= t0)%Z log →
  (∀ (now : Z) (key : str), zlen (List.filter (within w now key) log) <= max)%Z →
  ∀ (now : Z) (key : str), (zlen (List.filter (within w now key) (spec_run max w log calls).2) <= max)%Z.
Proof.
  intros Hmax. revert log t0. induction calls as [|[k t] calls IH]; intros log t0; [by simpl|].
  intros [Hle Hst] Hlog Hb now key. cbn [spec_run].
  assert (Hlog' : Forall (λ e, e.2 <= t)%Z log)
    by (eapply Forall_impl; [exact Hlog|]; simpl; lia).
  set (log1 := if (zlen (admitted w log t k) <? max)%Z then log ++ [(k, t)] else log).
  cut (zlen (List.filter (within w now key) (spec_run max w log1 calls).2) <= max)%Z.
  { by destruct (spec_run max w log1 calls). }
  apply (IH _ t); [done| |].
  - unfold log1. destruct (_ <? _)%Z; [|done]. apply Forall_app. split; [done|]. repeat constructor. simpl. lia.
  - clear now key. intros now key. unfold log1. destruct (_ <? _)%Z eqn:E; [|apply Hb]. bool_to_prop.
    rewrite List.filter_app. simpl. destruct (within w now key (k, t)) eqn:Ew.
    + unfold within, in_window in Ew. simpl in Ew. bool_to_prop. subst k.
      assert (length (List.filter (within w now key) log) ≤ length (admitted w log t key)).
      { apply filter_mono. intros e He. unfold within, in_window. rewrite !andb_true_iff, !Z.ltb_lt.
        intros [[? ?] ?]. split; [done|lia]. }
      revert E. len.
    + rewrite app_nil_r. apply Hb.
Qed.

(** C40: the rate limit itself: over any sequence of calls with a steady
    clock, no window of the configured length, wherever it ends, contains more
    admitted requests of a key than the configured maximum. *)
Theorem sliding_window_bound (maxRequests windowSec t0 : Z) (calls : list (str * Z))
    (Hst : steady t0 calls) (Hpos : (0 <= maxRequests < 2 ^ 31)%Z) (Hlen : (zlen calls < 2 ^ 31)%Z)
    (key : str) (now : Z) :
  let decisions := (run (new maxRequests windowSec) calls).1 in
  let admitted := omap (λ p : bool * (str * Z), if p.1 then Some p.2 else None) (zip decisions calls) in
  (zlen (List.filter (within (i32 (windowSec * 1000)) now key) admitted) <= maxRequests)%Z.
Proof.
  intros decisions admitted. unfold admitted, decisions.
  rewrite (run_refines (new maxRequests windowSec) [] t0); [| |done|simpl; lia|done].
  2: { split; [constructor|]. intros k. exists []. cbn [new windows_]. rewrite lookup_empty. simpl. by repeat constructor. }
  cbn [new maxRequests_ windowMs_]. set (w := i32 _).
  assert (Hlog : ∀ calls log, log ++ omap (λ p : bool * (str * Z), if p.1 then Some p.2 else None)
      (zip (spec_run maxRequests w log calls).1 calls) = (spec_run maxRequests w log calls).2).
  { clear. intros calls. induction calls as [|[k t] calls IH]; intros log; simpl; [by rewrite app_nil_r|].
    destruct (_ <? _)%Z.
    - specialize (IH (log ++ [(k, t)])). destruct (spec_run _ _ _ calls). simpl in *.
      rewrite <-IH. by rewrite <-app_assoc.
    - specialize (IH log). by destruct (spec_run _ _ _ calls). }
  specialize (Hlog calls []). simpl in Hlog. rewrite Hlog.
  apply (spec_log_bounded maxRequests w calls [] t0); [lia|done|constructor|].
  intros. unfold zlen. simpl. lia.
Qed.

Lemma sliding_window_bound_witness :
  let calls := [( #"a", 0); ( #"a", 10); ( #"a", 20); ( #"a", 999); ( #"a", 1000)]%Z in
  let decisions := (run (new 2 1) calls).1 in
  let admitted := omap (λ p : bool * (str * Z), if p.1 then Some p.2 else None) (zip decisions calls) in
  (zlen (List.filter (within (i32 (1 * 1000)) 1000 (#"a")) admitted) <= 2)%Z.
Proof.
  exact (sliding_window_bound 2 1 0 [( #"a", 0); ( #"a", 10); ( #"a", 20); ( #"a", 999); ( #"a", 1000)]%Z
    ltac:(simpl; lia) ltac:(lia) ltac:(vm_compute; reflexivity) (#"a") 1000%Z).
Defined.

End SlidingWindowLimiter.
