(* ===== verification/CircuitBreaker.v ===== *)
(** * CircuitBreaker: the three-state breaker

    Models [src/util/CircuitBreaker.h].  Every method runs under the mutex;
    the steady clock's reading is an argument of the methods that take one. *)

From S2P Require Import Prelude.

Inductive State := Closed | Open | HalfOpen.

#[export] Instance State_eq_dec : EqDecision State.
Proof. solve_decision. Defined.

Record CircuitBreaker := mkBreaker {
  failureThreshold_ : Z;
  successThreshold_ : Z;
  timeoutMs_ : Z;
  state_ : State;
  failureCount_ : Z;
  successCount_ : Z;
  lastFailureTime_ : Z
}.

(** [timeoutSec * 1000] is computed on [int]. *)
Definition CircuitBreaker_new (failureThreshold successThreshold timeoutSec : Z) : CircuitBreaker :=
  mkBreaker failureThreshold successThreshold (i32 (timeoutSec * 1000)) Closed 0 0 0.

Definition with_state (b : CircuitBreaker) (s : State) (failures successes : Z) : CircuitBreaker :=
  mkBreaker (failureThreshold_ b) (successThreshold_ b) (timeoutMs_ b) s failures successes
    (lastFailureTime_ b).

Definition expired (b : CircuitBreaker) (now : Z) : bool :=
  (timeoutMs_ b <=? now - lastFailureTime_ b)%Z.

Definition state (b : CircuitBreaker) (now : Z) : State * CircuitBreaker :=
  let b' := if bool_decide (state_ b = Open) && expired b now
            then with_state b HalfOpen (failureCount_ b) 0 else b in
  (state_ b', b').

Definition allow (b : CircuitBreaker) (now : Z) : bool * CircuitBreaker :=
  match state_ b with
  | Closed => (true, b)
  | Open =>
      if expired b now then (true, with_state b HalfOpen (failureCount_ b) 0) else (false, b)
  | HalfOpen => (true, b)
  end.

Definition recordSuccess (b : CircuitBreaker) : CircuitBreaker :=
  match state_ b with
  | Closed => with_state b Closed 0 (successCount_ b)
  | HalfOpen =>
      let n := i32 (successCount_ b + 1) in
      if (successThreshold_ b <=? n)%Z then with_state b Closed 0 0
      else with_state b HalfOpen (failureCount_ b) n
  | Open => b
  end.

Definition recordFailure (b : CircuitBreaker) (now : Z) : CircuitBreaker :=
  let b := mkBreaker (failureThreshold_ b) (successThreshold_ b) (timeoutMs_ b) (state_ b)
             (failureCount_ b) (successCount_ b) now in
  match state_ b with
  | Closed =>
      let n := i32 (failureCount_ b + 1) in
      with_state b (if (failureThreshold_ b <=? n)%Z then Open else Closed) n (successCount_ b)
  | HalfOpen => with_state b Open (failureCount_ b) (successCount_ b)
  | Open => b
  end.

(** [execute(func)] in a world that [func] changes; [None] from [func] is an
    exception, and [dflt] is [ReturnType{}].  [t1] and [t2] are the clock when
    [allow] and when [recordFailure] read it. *)
Definition execute {W R : Type} (dflt : R) (b : CircuitBreaker) (t1 t2 : Z)
    (func : W → option R * W) (w : W) : R * CircuitBreaker * W :=
  match allow b t1 with
  | (false, b1) => (dflt, b1, w)
  | (true, b1) =>
      match func w with
      | (Some r, w1) => (r, recordSuccess b1, w1)
      | (None, w1) => (dflt, recordFailure b1 t2, w1)
      end
  end.

(** ** Histories *)

Inductive Event := EAllow (now : Z) | EState (now : Z) | ESuccess | EFailure (now : Z).

Definition step (b : CircuitBreaker) (e : Event) : CircuitBreaker :=
  match e with
  | EAllow now => (allow b now).2
  | EState now => (state b now).2
  | ESuccess => recordSuccess b
  | EFailure now => recordFailure b now
  end.

Definition run (b : CircuitBreaker) (es : list Event) : CircuitBreaker := foldl step b es.

(** The time of the last failure in a history. *)
Definition last_failure (es : list Event) : option Z :=
  last (omap (λ e, match e with EFailure t => Some t | _ => None end) es).

Ltac fields := cbn; split_and!; intros; first [done | lia | by auto].

Section Thresholds.
Context (ft st tmo : Z) (Hft : (1 <= ft < 2 ^ 31)%Z) (Hst : (1 <= st < 2 ^ 31)%Z).

(** The counters stay below their thresholds, so that the [int] increments
    never overflow. *)
Definition breaker_ok (b : CircuitBreaker) : Prop :=
  failureThreshold_ b = ft ∧ successThreshold_ b = st ∧ timeoutMs_ b = i32 (tmo * 1000) ∧
  (0 <= failureCount_ b <= ft)%Z ∧ (0 <= successCount_ b < st)%Z ∧
  (state_ b = Closed → failureCount_ b < ft)%Z.

Lemma i32_succ n : (0 <= n < 2 ^ 31 - 1)%Z → i32 (n + 1) = (n + 1)%Z.
Proof. intros. unfold i32. rewrite Z.mod_small; lia. Qed.

Lemma step_ok b e : breaker_ok b → breaker_ok (step b e).
Proof.
  unfold breaker_ok. intros (H1 & H2 & H3 & H4 & H5 & H6).
  destruct b as [ft' st' tm s f n lf]. cbn in *. subst ft' st'.
  destruct e as [now|now| |now]; cbn.
  - unfold allow. cbn. destruct s; try fields. case_match; fields.
  - unfold state. case_match; fields.
  - destruct s; cbn; try fields.
    rewrite (i32_succ n) by lia. destruct (st <=? n + 1)%Z eqn:E; bool_to_prop; fields.
  - destruct s; cbn; try fields.
    specialize (H6 eq_refl). rewrite (i32_succ f) by lia.
    destruct (ft <=? f + 1)%Z eqn:E; bool_to_prop; fields.
Qed.

Lemma breaker_run_ok es b : breaker_ok b → breaker_ok (run b es).
Proof. revert b. induction es as [|e es IH]; intros b Hb; [done|]. apply IH. by apply step_ok. Qed.

Lemma new_ok : breaker_ok (CircuitBreaker_new ft st tmo).
Proof. unfold breaker_ok. fields. Qed.

(** An open breaker remembers the last failure of the history. *)
Lemma last_failure_open es :
  let b := run (CircuitBreaker_new ft st tmo) es in
  (state_ b ≠ Closed → is_Some (last_failure es)) ∧
  (∀ t, last_failure es = Some t → lastFailureTime_ b = t).
Proof.
  induction es as [|e es IH] using rev_ind; [done|].
  cbn zeta in *. unfold run in *. rewrite foldl_app. cbn [foldl].
  set (b := foldl _ _ es) in *. destruct IH as [IH1 IH2].
  unfold last_failure in *. rewrite omap_app.
  destruct b as [ft' st' tm s f n lf]; cbn in IH1, IH2.
  destruct e as [now|now| |now]; cbn [omap list_omap]; rewrite ?app_nil_r, ?last_snoc.
  - unfold step, allow. cbn. destruct s; cbn; try done. case_match; cbn; try done.
    split; [intros _; by apply IH1|done].
  - unfold step, state. cbn. destruct s; cbn; try done. case_match; cbn; try done.
    split; [intros _; by apply IH1|done].
  - unfold step, recordSuccess. cbn. destruct s; cbn; try done. destruct (_ <=? _)%Z; done.
  - split; [eauto|]. intros t [= <-]. unfold step, recordFailure. cbn. by destruct s.
Qed.

(** When the breaker refuses.  After any history a request is refused
    exactly when the breaker is open and its timeout has not passed since the
    last failure of the history, failures reported while it was already open
    included; a refusal changes nothing. *)
Theorem refuses_iff (es : list Event) (now : Z) :
  let b := run (CircuitBreaker_new ft st tmo) es in
  ((allow b now).1 = false ↔
    state_ b = Open ∧ ∃ t, last_failure es = Some t ∧ (now - t < i32 (tmo * 1000))%Z) ∧
  ((allow b now).1 = false → (allow b now).2 = b).
Proof.
  intros b. pose proof (breaker_run_ok es _ new_ok) as (_ & _ & Htm & _). fold b in Htm.
  pose proof (last_failure_open es) as [H1 H2]. fold b in H1, H2.
  unfold allow. destruct (state_ b) eqn:Es; cbn [fst snd].
  1, 3: split; [split; [done|intros [? _]; done]|done].
  destruct H1 as [t Ht]; [done|]. specialize (H2 t Ht).
  unfold expired. rewrite Htm, H2.
  destruct (_ <=? _)%Z eqn:E; bool_to_prop; cbn [fst snd]; (split; [split|done]); try done.
  - intros (_ & t' & Ht' & Hlt). rewrite Ht in Ht'. simplify_eq. lia.
  - intros _. split; [done|]. exists t. split; [done|lia].
Qed.

(** Consecutive failures while closed. *)
Lemma failures_closed (ts : list Z) b :
  breaker_ok b → state_ b = Closed → (failureCount_ b + zlen ts < ft)%Z →
  state_ (run b (EFailure <$> ts)) = Closed ∧
  failureCount_ (run b (EFailure <$> ts)) = (failureCount_ b + zlen ts)%Z.
Proof.
  revert b. induction ts as [|t ts IH]; intros b Hok Hc Hlt; [split; [done|]; simpl; unfold zlen; simpl; lia|].
  cbn [fmap list_fmap run foldl].
  pose proof (step_ok b (EFailure t) Hok) as Hok'.
  assert (Hs : state_ (step b (EFailure t)) = Closed ∧ failureCount_ (step b (EFailure t)) = (failureCount_ b + 1)%Z).
  { destruct Hok as (H1 & _ & _ & H4 & _ & _). cbn [step]. unfold recordFailure. cbn. rewrite Hc. cbn.
    rewrite H1, i32_succ by (revert Hlt; len).
    rewrite (proj2 (Z.leb_gt _ _)) by (revert Hlt; len). done. }
  destruct Hs as [Hs1 Hs2]. destruct (IH _ Hok' Hs1) as [E1 E2]; [rewrite Hs2; revert Hlt; len|].
  split; [exact E1|]. unfold run in E2. rewrite E2, Hs2. len.
Qed.

Lemma successes_half (k : nat) b :
  breaker_ok b → state_ b = HalfOpen → (successCount_ b + Z.of_nat k < st)%Z →
  let b' := run b (replicate k ESuccess) in
  state_ b' = HalfOpen ∧ successCount_ b' = (successCount_ b + Z.of_nat k)%Z ∧ breaker_ok b'.
Proof.
  revert b. induction k as [|k IH]; intros b Hok Hc Hlt; [simpl; split_and!; [done|lia|done]|].
  cbn [replicate run foldl].
  pose proof (step_ok b ESuccess Hok) as Hok'.
  assert (Hs : state_ (step b ESuccess) = HalfOpen ∧ successCount_ (step b ESuccess) = (successCount_ b + 1)%Z).
  { destruct Hok as (_ & H1 & _ & _ & H4 & _). cbn [step]. unfold recordSuccess. rewrite Hc.
    rewrite H1, i32_succ by lia. rewrite (proj2 (Z.leb_gt _ _)) by lia. done. }
  destruct Hs as [Hs1 Hs2]. destruct (IH _ Hok' Hs1) as (E1 & E2 & E3); [lia|].
  unfold run in *. split_and!; [done|lia|done].
Qed.

(** The life cycle.  After any history that leaves the breaker closed, a
    success makes room for a full run of failures: fewer than the threshold
    keep it closed and the one that reaches the threshold opens it.  Once its
    timeout has passed an open breaker lets a request through and is half
    open; there, as many successes as configured close it with its counters
    cleared, and a failure before that opens it again. *)
Theorem life_cycle (es : list Event) (ts : list Z) (t now : Z) (k : nat)
    (Hts : (zlen ts = ft - 1)%Z) (Hk : (Z.of_nat k = st - 1)%Z) :
  let b := run (CircuitBreaker_new ft st tmo) es in
  (state_ b = Closed →
     let c := run b (ESuccess :: (EFailure <$> ts)) in
     state_ c = Closed ∧ state_ (recordFailure c t) = Open) ∧
  (state_ b = Open → expired b now = true →
     let h := (allow b now).2 in
     (allow b now).1 = true ∧ state_ h = HalfOpen ∧
     let h' := run h (replicate k ESuccess) in
     state_ h' = HalfOpen ∧
     recordSuccess h' = with_state h' Closed 0 0 ∧
     state_ (recordFailure h' t) = Open).
Proof.
  intros b. pose proof (breaker_run_ok es _ new_ok) as Hok. fold b in Hok. clearbody b. split.
  - intros Hc. unfold run. cbn [foldl].
    assert (Hs : step b ESuccess = with_state b Closed 0 (successCount_ b))
      by (cbn [step]; unfold recordSuccess; by rewrite Hc).
    pose proof (step_ok b ESuccess Hok) as Hok'. rewrite Hs in *.
    destruct (failures_closed ts _ Hok') as [E1 E2]; [done|cbn; lia|].
    unfold run in E1, E2. split; [done|].
    pose proof (breaker_run_ok (EFailure <$> ts) _ Hok') as (H1 & _). unfold run in H1.
    unfold recordFailure. cbn [state_]. rewrite E1. cbn [failureThreshold_ failureCount_].
    rewrite E2, H1. cbn [with_state failureCount_]. rewrite i32_succ by lia.
    by rewrite (proj2 (Z.leb_le _ _)) by lia.
  - intros Ho He. unfold allow. rewrite Ho, He. cbn [fst snd]. split; [done|]. split; [done|].
    assert (Hok' : breaker_ok (with_state b HalfOpen (failureCount_ b) 0)).
    { destruct Hok as (? & ? & ? & ? & ? & ?). unfold breaker_ok; fields. }
    destruct (successes_half k _ Hok') as (E1 & E2 & (F1 & F2 & _)); [done|cbn; lia|].
    cbn zeta. split; [done|]. split.
    + unfold recordSuccess. rewrite E1, E2, F2. cbn [with_state successCount_].
      rewrite i32_succ by lia. by rewrite (proj2 (Z.leb_le _ _)) by lia.
    + unfold recordFailure. cbn [state_]. by rewrite E1.
Qed.

(** Guarded calls.  When the breaker refuses, the function is not called
    and the default is returned; otherwise it is called once, and its result
    is returned and recorded as a success, or its exception is swallowed and
    recorded as a failure. *)
Theorem execute_spec {W R : Type} (dflt : R) (func : W → option R * W) (w : W)
    (es : list Event) (t1 t2 : Z) :
  let b := run (CircuitBreaker_new ft st tmo) es in
  execute dflt b t1 t2 func w
  = if (allow b t1).1 then
      match (func w).1 with
      | Some r => (r, run b [EAllow t1; ESuccess], (func w).2)
      | None => (dflt, run b [EAllow t1; EFailure t2], (func w).2)
      end
    else (dflt, b, w).
Proof.
  intros b. unfold execute. destruct (allow b t1) as [ok b1] eqn:E.
  assert (Hb : ok = false → b1 = b).
  { intros ->. unfold allow in E. repeat case_match; simplify_eq; done. }
  cbn [fst]. destruct ok; [|by rewrite Hb].
  destruct (func w) as [[r|] w1]; cbn [fst snd run foldl step]; by rewrite E.
Qed.
End Thresholds.

Lemma refuses_iff_witness :
  let b := run (CircuitBreaker_new 1 1 1) [EFailure 0; EFailure 900] in
  ((allow b 1000).1 = false ↔
    state_ b = Open ∧ ∃ t, last_failure [EFailure 0; EFailure 900] = Some t ∧ (1000 - t < i32 (1 * 1000))%Z) ∧
  ((allow b 1000).1 = false → (allow b 1000).2 = b).
Proof. exact (refuses_iff 1 1 1 ltac:(lia) ltac:(lia) [EFailure 0; EFailure 900] 1000). Defined.

Lemma life_cycle_witness :
  let b := run (CircuitBreaker_new 3 2 1) [] in
  (state_ b = Closed →
     let c := run b (ESuccess :: (EFailure <$> [5; 6]%Z)) in
     state_ c = Closed ∧ state_ (recordFailure c 7) = Open) ∧
  (state_ b = Open → expired b 2000 = true →
     let h := (allow b 2000).2 in
     (allow b 2000).1 = true ∧ state_ h = HalfOpen ∧
     let h' := run h (replicate 1 ESuccess) in
     state_ h' = HalfOpen ∧
     recordSuccess h' = with_state h' Closed 0 0 ∧
     state_ (recordFailure h' 7) = Open).
Proof.
  exact (life_cycle 3 2 1 ltac:(lia) ltac:(lia) [] [5; 6]%Z 7 2000 1 ltac:(reflexivity) ltac:(lia)).
Defined.

(** Half open, the breaker does not limit the requests it lets through. *)
Example half_open_unlimited :
  let b := run (CircuitBreaker_new 1 2 1) [EFailure 0; EAllow 1000] in
  state_ b = HalfOpen ∧ (allow (run b (replicate 50 (EAllow 1001))) 1001).1 = true.
Proof. vm_compute. done. Qed.
