(* ===== verification/Snowflake.v ===== *)
(** * Snowflake: 64-bit identifiers from time, worker and sequence

    Models [src/util/Snowflake.h].  The system clock is the list of readings
    that successive calls of [currentMillis] return; [sleep_for] only makes
    time pass, so that the next reading may be any. *)

From S2P Require Import Prelude.
From Stdlib Require Import Sorted.

Open Scope Z_scope.

Definition kEpoch : Z := 1735689600000.
Definition kWorkerIdBits : Z := 10.
Definition kSequenceBits : Z := 12.
Definition kMaxWorkerId : Z := Z.shiftl 1 kWorkerIdBits - 1.
Definition kMaxSequence : Z := Z.shiftl 1 kSequenceBits - 1.
Definition kWorkerIdShift : Z := kSequenceBits.
Definition kTimestampShift : Z := kSequenceBits + kWorkerIdBits.
Definition kMaxClockRollbackMs : Z := 5.

Record Snowflake := mkSnowflake {
  initialized_ : bool;
  workerId_ : Z;
  lastTimestamp_ : Z;
  sequence_ : Z
}.

Definition Snowflake_new : Snowflake := mkSnowflake false 0 (-1) 0.

Inductive Exn := InvalidArgument | LogicError | NotInitialized | ClockRollback (offset : Z).

(** A second call leaves the worker as it is: the flag is tested before the
    assignment. *)
Definition init (s : Snowflake) (workerId : Z) : Snowflake + Exn :=
  if (workerId <? 0) || (kMaxWorkerId <? workerId) then inr InvalidArgument
  else if initialized_ s then inr LogicError
  else inl (mkSnowflake true workerId (lastTimestamp_ s) (sequence_ s)).

(** [std::stoll]: [None] is the exception. *)
Definition stoll (v : str) : option Z :=
  match scan_int v with
  | Some (neg, n) =>
      let x := if neg then - n else n in
      if (- 2 ^ 63 <=? x) && (x <? 2 ^ 63) then Some x else None
  | None => None
  end.

Definition initFromEnv (s : Snowflake) (v : option str) : Snowflake + Exn :=
  match v with
  | None => init s 0
  | Some t => match stoll t with Some wid => init s wid | None => inr InvalidArgument end
  end.

Definition compose_id (now worker seq : Z) : Z :=
  Z.lor (Z.lor (i64 (Z.shiftl (now - kEpoch) kTimestampShift)) (Z.shiftl worker kWorkerIdShift)) seq.

(** [while ((now = currentMillis()) <= lastTimestamp_)]: [None] while the
    clock has not moved on. *)
Fixpoint spin (last : Z) (clock : list Z) : option (Z * list Z) :=
  match clock with
  | [] => None
  | now :: rest => if now <=? last then spin last rest else Some (now, rest)
  end.

(** The result, with the state and the readings left; [Waiting] when the
    readings given do not suffice for the call to return. *)
Inductive Outcome :=
  | Id (id : Z) (s : Snowflake) (clock : list Z)
  | Throw (e : Exn)
  | Waiting.

(** From the checked time on. *)
Definition emit (s : Snowflake) (now : Z) (clock : list Z) : Outcome :=
  let finish now seq clock :=
    Id (compose_id now (workerId_ s) seq) (mkSnowflake (initialized_ s) (workerId_ s) now seq) clock in
  if now =? lastTimestamp_ s then
    let seq := Z.land (sequence_ s + 1) kMaxSequence in
    if seq =? 0 then
      match spin (lastTimestamp_ s) clock with
      | Some (now', rest) => finish now' seq rest
      | None => Waiting
      end
    else finish now seq clock
  else finish now 0 clock.

Definition nextId (s : Snowflake) (clock : list Z) : Outcome :=
  if negb (initialized_ s) then Throw NotInitialized
  else match clock with
  | [] => Waiting
  | now :: clock1 =>
      if now <? lastTimestamp_ s then
        let offset := lastTimestamp_ s - now in
        if offset <=? kMaxClockRollbackMs then
          match clock1 with
          | [] => Waiting
          | now' :: clock2 =>
              emit s (if now' <? lastTimestamp_ s then lastTimestamp_ s else now') clock2
          end
        else Throw (ClockRollback offset)
      else emit s now clock1
  end.

Definition extractTimestamp (id : Z) : Z := Z.shiftr id kTimestampShift + kEpoch.
Definition extractWorkerId (id : Z) : Z := Z.land (Z.shiftr id kWorkerIdShift) kMaxWorkerId.
Definition extractSequence (id : Z) : Z := Z.land id kMaxSequence.

Definition workerId (s : Snowflake) : Z := if initialized_ s then workerId_ s else -1.

(** ** The layout of an identifier *)

(** Forty-one bits of time: the epoch and 69 years after it. *)
Definition time_ok (t : Z) : Prop := kEpoch <= t < kEpoch + 2 ^ 41.

Lemma compose_id_sum now w seq :
  time_ok now → 0 <= w <= kMaxWorkerId → 0 <= seq <= kMaxSequence →
  compose_id now w seq = (now - kEpoch) * 2 ^ 22 + (w * 2 ^ 12 + seq).
Proof.
  unfold time_ok, compose_id. intros Hn Hw Hs.
  change kMaxWorkerId with 1023 in Hw. change kMaxSequence with 4095 in Hs.
  change kTimestampShift with 22. change kWorkerIdShift with 12.
  rewrite i64_small by (rewrite Z.shiftl_mul_pow2; lia).
  rewrite <-Z.lor_assoc. rewrite (lor_shiftl_add w seq 12) by lia.
  apply lor_shiftl_add; lia.
Qed.

(** The parts put into an identifier are read back from it, and the
    identifier is a positive 64-bit number, for every time in the 69 years
    after the epoch, every worker and every sequence number. *)
Theorem extract_compose (now w seq : Z)
    (Hn : time_ok now) (Hw : 0 <= w <= kMaxWorkerId) (Hs : 0 <= seq <= kMaxSequence) :
  let id := compose_id now w seq in
  extractTimestamp id = now ∧ extractWorkerId id = w ∧ extractSequence id = seq ∧
  0 <= id < 2 ^ 63.
Proof.
  intros id. unfold id. rewrite compose_id_sum by done. clear id.
  unfold time_ok in Hn. change kMaxWorkerId with 1023 in *. change kMaxSequence with 4095 in *.
  unfold extractTimestamp, extractWorkerId, extractSequence.
  change kTimestampShift with 22. change kWorkerIdShift with 12.
  change kMaxWorkerId with (Z.ones 10). change kMaxSequence with (Z.ones 12).
  rewrite !Z.land_ones, !Z.shiftr_div_pow2 by lia.
  split_and!; [| | |lia|lia].
  - rewrite Z.div_add_l, Z.div_small by lia. lia.
  - replace ((now - kEpoch) * 2 ^ 22 + (w * 2 ^ 12 + seq))
      with (((now - kEpoch) * 2 ^ 10 + w) * 2 ^ 12 + seq) by lia.
    rewrite Z.div_add_l, (Z.div_small seq), Z.add_0_r by lia.
    rewrite Z.add_comm, Z.mod_add by lia. apply Z.mod_small; lia.
  - replace ((now - kEpoch) * 2 ^ 22 + (w * 2 ^ 12 + seq))
      with (seq + ((now - kEpoch) * 2 ^ 10 + w) * 2 ^ 12) by lia.
    rewrite Z.mod_add by lia. apply Z.mod_small; lia.
Qed.

Lemma extract_compose_witness :
  let id := compose_id (kEpoch + 123456789) 513 4095 in
  extractTimestamp id = kEpoch + 123456789 ∧ extractWorkerId id = 513 ∧ extractSequence id = 4095 ∧
  0 <= id < 2 ^ 63.
Proof.
  apply (extract_compose (kEpoch + 123456789) 513 4095);
    unfold time_ok, kEpoch, kMaxWorkerId, kMaxSequence; vm_compute; split; done.
Defined.

(** ** Uniqueness *)

(** The generator's state: the worker and the sequence are within their
    bits, and the last time is a real one once an identifier was made. *)
Definition snowflake_ok (s : Snowflake) : Prop :=
  initialized_ s = true ∧ 0 <= workerId_ s <= kMaxWorkerId ∧
  0 <= sequence_ s <= kMaxSequence ∧
  (lastTimestamp_ s = -1 ∨ time_ok (lastTimestamp_ s)).

(** The greatest identifier the state accounts for. *)
Definition last_id (s : Snowflake) : Z := compose_id (lastTimestamp_ s) (workerId_ s) (sequence_ s).

Lemma spin_spec last clock now rest :
  spin last clock = Some (now, rest) → last < now ∧ ∃ skipped, clock = skipped ++ now :: rest.
Proof.
  induction clock as [|t clock IH]; [done|]. simpl. destruct (t <=? last) eqn:E; bool_to_prop.
  - intros H. destruct (IH H) as (Hlt & sk & ->). split; [done|]. by exists (t :: sk).
  - intros [= <- <-]. split; [done|]. by exists [].
Qed.

(** One identifier: what the new state and the identifier are. *)
Definition emitted (s s' : Snowflake) (id : Z) : Prop :=
  snowflake_ok s' ∧ workerId_ s' = workerId_ s ∧ id = last_id s' ∧
  time_ok (lastTimestamp_ s') ∧
  (lastTimestamp_ s < lastTimestamp_ s' ∨
   lastTimestamp_ s' = lastTimestamp_ s ∧ sequence_ s' = sequence_ s + 1).

Lemma emit_spec s now clock id s' rest :
  snowflake_ok s → time_ok now → lastTimestamp_ s <= now → Forall time_ok clock →
  emit s now clock = Id id s' rest →
  emitted s s' id ∧ ∃ used, clock = used ++ rest.
Proof.
  intros (Hi & Hw & Hs & Hl) Hn Hle Hclock. unfold emit.
  cbv zeta. change kMaxSequence with (Z.ones 12). rewrite (Z.land_ones (sequence_ s + 1) 12) by lia.
  change (Z.ones 12) with 4095 in *. change kMaxSequence with 4095 in *.
  destruct (now =? lastTimestamp_ s) eqn:E; bool_to_prop; [destruct (_ =? 0) eqn:E0; bool_to_prop|].
  - destruct (spin _ clock) as [[now' rest']|] eqn:Esp; [|done]. intros [= <- <- <-].
    apply spin_spec in Esp as [Hlt [sk ->]].
    apply Forall_app in Hclock as [_ Hclock]. apply Forall_cons in Hclock as [Hn' _].
    rewrite E0. split; [|exists (sk ++ [now']); by rewrite <-app_assoc].
    unfold emitted, snowflake_ok. cbn. change kMaxSequence with 4095. split_and!; try done; try lia; eauto.
  - intros [= <- <- <-]. rewrite Z.mod_small.
    2: { split; [lia|]. destruct (Z.eq_dec (sequence_ s) 4095) as [Hq|]; [|lia].
         rewrite Hq in E0. done. }
    split; [|by exists []]. unfold emitted, snowflake_ok. cbn. change kMaxSequence with 4095.
    assert (sequence_ s <> 4095) by (intros Hq; rewrite Hq in E0; done).
    split_and!; try done; try lia; eauto; right; split; lia.
  - intros [= <- <- <-]. split; [|by exists []].
    unfold emitted, snowflake_ok. cbn. change kMaxSequence with 4095. split_and!; try done; try lia; eauto.
Qed.

Lemma nextId_spec s clock id s' rest :
  snowflake_ok s → Forall time_ok clock → nextId s clock = Id id s' rest →
  emitted s s' id ∧ ∃ used, clock = used ++ rest.
Proof.
  intros Hok Hclock. pose proof Hok as (Hi & _ & _ & Hl). unfold nextId. rewrite Hi. cbn [negb].
  destruct clock as [|now clock1]; [done|]. apply Forall_cons in Hclock as [Hn Hclock].
  destruct (now <? lastTimestamp_ s) eqn:E; bool_to_prop.
  - destruct (_ <=? _); [|done]. destruct clock1 as [|now' clock2]; [done|].
    apply Forall_cons in Hclock as [Hn' Hclock]. intros H.
    destruct (now' <? lastTimestamp_ s) eqn:E'; bool_to_prop.
    + destruct Hl as [Hl|Hl]; [unfold time_ok in Hn; change kEpoch with 1735689600000 in Hn; lia|].
      apply emit_spec in H as (? & used & ->); [|done..|lia|done].
      split; [done|]. by exists (now :: now' :: used).
    + apply emit_spec in H as (? & used & ->); [|done..].
      split; [done|]. by exists (now :: now' :: used).
  - intros H. apply emit_spec in H as (? & used & ->); [|done..].
    split; [done|]. by exists (now :: used).
Qed.

Lemma emitted_increases s s' id :
  snowflake_ok s → emitted s s' id → time_ok (lastTimestamp_ s) → last_id s < id.
Proof.
  unfold emitted, snowflake_ok, last_id.
  intros (_ & Hw & Hs & _) ((_ & Hw' & Hs' & _) & Hweq & -> & Ht' & Hlt) Ht.
  rewrite !compose_id_sum by done. rewrite Hweq.
  change kMaxWorkerId with 1023 in *. change kMaxSequence with 4095 in *. lia.
Qed.

(** Identifiers from successive calls, by any threads in the order in which
    they take the mutex; a call that throws yields none and leaves the state. *)
Fixpoint generate (n : nat) (s : Snowflake) (clock : list Z) : list Z :=
  match n with
  | O => []
  | S n' =>
      match nextId s clock with
      | Id id s' rest => id :: generate n' s' rest
      | Throw _ => generate n' s (drop 1 clock)
      | Waiting => []
      end
  end.

Lemma generate_above n s clock :
  snowflake_ok s → Forall time_ok clock →
  let ids := generate n s clock in
  StronglySorted Z.lt ids ∧
  (time_ok (lastTimestamp_ s) → Forall (λ id, last_id s < id) ids) ∧
  Forall (λ id, extractWorkerId id = workerId_ s ∧ 0 <= id < 2 ^ 63) ids.
Proof.
  revert s clock. induction n as [|n IH]; intros s clock Hok Hclock; cbn [generate].
  { split_and!; [constructor|intros _; constructor|constructor]. }
  destruct (nextId s clock) as [id s' rest|e|] eqn:E.
  - pose proof (nextId_spec _ _ _ _ _ Hok Hclock E) as (Hem & used & ->).
    apply Forall_app in Hclock as [_ Hrest].
    pose proof Hem as (Hok' & Hw & Hid & Ht' & _). pose proof Hok' as (_ & Hw' & Hs' & _).
    destruct (IH s' rest Hok' Hrest) as (I1 & I2 & I3). specialize (I2 Ht').
    rewrite <-Hid in I2. split_and!.
    + by constructor.
    + intros Ht. pose proof (emitted_increases _ _ _ Hok Hem Ht).
      constructor; [done|]. eapply Forall_impl; [exact I2|]. simpl. lia.
    + constructor.
      * rewrite Hid. unfold last_id.
        destruct (extract_compose _ _ _ Ht' Hw' Hs') as (_ & E2 & _ & E4).
        rewrite E2. split; [done|exact E4].
      * by rewrite <-Hw.
  - apply IH; [done|]. by apply Forall_drop.
  - split_and!; [constructor|intros _; constructor|constructor].
Qed.

(** Uniqueness.  Whatever the clock does within the 69 years, backward
    jumps included, the identifiers of one generator strictly increase in the
    order the calls are served, carry the worker's number, and are
    non-negative 64-bit numbers. *)
Theorem ids_increase (w : Z) (n : nat) (s : Snowflake) (clock : list Z)
    (Hinit : init Snowflake_new w = inl s) (Hclock : Forall time_ok clock) :
  StronglySorted Z.lt (generate n s clock) ∧
  Forall (λ id, extractWorkerId id = w ∧ 0 <= id < 2 ^ 63) (generate n s clock).
Proof.
  unfold init in Hinit. destruct (_ || _) eqn:E; [done|]. bool_to_prop. cbn in Hinit. simplify_eq.
  destruct (generate_above n (mkSnowflake true w (-1) 0) clock) as (H1 & _ & H2); [|done..].
  split_and!; cbn; [done|done|lia|done|done|by left].
Qed.

Lemma ids_increase_witness :
  let clock := [kEpoch + 7; kEpoch + 7; kEpoch + 5; kEpoch + 9; kEpoch + 1] in
  StronglySorted Z.lt (generate 4 (mkSnowflake true 3 (-1) 0) clock) ∧
  Forall (λ id, extractWorkerId id = 3 ∧ 0 <= id < 2 ^ 63)
    (generate 4 (mkSnowflake true 3 (-1) 0) clock).
Proof.
  intros clock. apply (ids_increase 3 4 (mkSnowflake true 3 (-1) 0) clock); [reflexivity|].
  repeat constructor; vm_compute; done.
Defined.

(** Progress and errors.  An initialised generator makes an identifier as
    soon as the clock gets past its last time; before [init] it throws, and it
    throws when the clock has gone back by more than five milliseconds. *)
Theorem nextId_progress (s : Snowflake) (now : Z) (before after : list Z) (later : Z)
    (Hl : lastTimestamp_ s < later) (Hnow : lastTimestamp_ s - kMaxClockRollbackMs <= now) :
  (initialized_ s = true → ∃ id s' rest, nextId s (now :: before ++ later :: after) = Id id s' rest) ∧
  (initialized_ s = false → nextId s (now :: before ++ later :: after) = Throw NotInitialized) ∧
  (∀ t clock, initialized_ s = true → t < lastTimestamp_ s - kMaxClockRollbackMs →
     nextId s (t :: clock) = Throw (ClockRollback (lastTimestamp_ s - t))).
Proof.
  assert (Hspin : ∀ before after, ∃ now' rest, spin (lastTimestamp_ s) (before ++ later :: after) = Some (now', rest)).
  { clear -Hl. intros bf af. induction bf as [|t bf IH]; simpl.
    - rewrite (proj2 (Z.leb_gt _ _)) by lia. eauto.
    - destruct (t <=? _); eauto. }
  assert (Hemit : ∀ t bf af, ∃ id s' rest, emit s t (bf ++ later :: af) = Id id s' rest).
  { intros t bf af. unfold emit. destruct (t =? _); [|eauto]. destruct (_ =? 0); [|eauto].
    destruct (Hspin bf af) as (? & ? & ->). eauto. }
  unfold nextId. split_and!; [intros Hi; rewrite Hi; cbn [negb]..|].
  - destruct (now <? lastTimestamp_ s) eqn:E; bool_to_prop; [|apply Hemit].
    rewrite (proj2 (Z.leb_le _ _)) by lia.
    destruct before as [|b before]; [|apply Hemit].
    cbn [app]. rewrite (proj2 (Z.ltb_ge _ _)) by lia. unfold emit.
    rewrite (proj2 (Z.eqb_neq _ _)) by lia. eauto.
  - done.
  - intros t clock Hi Ht. rewrite Hi. cbn [negb]. change kMaxClockRollbackMs with 5 in *.
    rewrite (proj2 (Z.ltb_lt _ _)) by lia. by rewrite (proj2 (Z.leb_gt _ _)) by lia.
Qed.

Lemma nextId_progress_witness :
  let s := mkSnowflake true 1 (kEpoch + 3) 4095 in
  (initialized_ s = true → ∃ id s' rest,
     nextId s ((kEpoch + 3) :: [kEpoch + 2] ++ (kEpoch + 4) :: []) = Id id s' rest) ∧
  (initialized_ s = false →
     nextId s ((kEpoch + 3) :: [kEpoch + 2] ++ (kEpoch + 4) :: []) = Throw NotInitialized) ∧
  (∀ t clock, initialized_ s = true → t < lastTimestamp_ s - kMaxClockRollbackMs →
     nextId s (t :: clock) = Throw (ClockRollback (lastTimestamp_ s - t))).
Proof.
  exact (nextId_progress (mkSnowflake true 1 (kEpoch + 3) 4095) (kEpoch + 3) [kEpoch + 2] [] (kEpoch + 4)
    ltac:(vm_compute; done) ltac:(vm_compute; done)).
Defined.
