(* ===== verification/Gzip.v ===== *)
(** * Gzip: the codec around zlib

    Models [src/http/GzipMiddleware.h].  zlib is not part of the repository:
    a stream that was set up for some input is the list of results its
    successive [deflate] or [inflate] calls give, each a return code and the
    bytes it put into the 32 KB output buffer; past the end of the list the
    call makes no progress ([Z_BUF_ERROR], no output). *)

From S2P Require Import Prelude.

Definition zstream : Type := list (Z * str).

(** What zlib's documentation promises of the output buffer. *)
Definition buffer_size : Z := 32768.
Definition zstream_ok (s : zstream) : Prop := Forall (λ c, zlen c.2 <= buffer_size)%Z s.

Definition Z_STREAM_ERROR : Z := -2.
Definition Z_DATA_ERROR : Z := -3.
Definition Z_MEM_ERROR : Z := -4.

Fixpoint codec_loop (fatal : Z → bool) (s : zstream) (result : str) : str :=
  match s with
  | [] => result
  | (ret, out) :: rest =>
      if fatal ret then []
      else if (zlen out =? buffer_size)%Z then codec_loop fatal rest (result ++ out)
      else result ++ out
  end.

Section Codec.
(** [deflateInit2] and [inflateInit2] with the input: [None] when they fail. *)
Context (deflateInit2 inflateInit2 : str → option zstream).

Definition compress (data : str) : str :=
  if bool_decide (data = []) then []
  else match deflateInit2 data with
       | None => []
       | Some s => codec_loop (λ ret, ret =? Z_STREAM_ERROR)%Z s []
       end.

Definition inflate_fatal (ret : Z) : bool :=
  ((ret =? Z_STREAM_ERROR) || (ret =? Z_DATA_ERROR) || (ret =? Z_MEM_ERROR))%Z.

Definition decompress (data : str) : str :=
  if bool_decide (data = []) then []
  else match inflateInit2 data with
       | None => []
       | Some s => codec_loop inflate_fatal s []
       end.
End Codec.

Definition shouldCompress (contentType : str) : bool :=
  if bool_decide (contentType = []) then false
  else if bool_decide (find (#"text/") contentType 0 = Some 0) then true
  else contains (#"application/json") contentType
       || contains (#"application/javascript") contentType
       || contains (#"application/xml") contentType.

(** ** The loop collects the stream's output *)

(** The results up to and including the first that leaves room in the buffer. *)
Fixpoint until_room (s : zstream) : zstream :=
  match s with
  | [] => []
  | (ret, out) :: rest =>
      (ret, out) :: (if (zlen out =? buffer_size)%Z then until_room rest else [])
  end.

Lemma codec_loop_spec fatal s acc :
  codec_loop fatal s acc
  = if existsb (λ c, fatal c.1) (until_room s) then [] else acc ++ mjoin (snd <$> until_room s).
Proof.
  revert acc. induction s as [|[ret out] s IH]; intros acc; simpl; [by rewrite app_nil_r|].
  destruct (fatal ret); [done|]. destruct (_ =? _)%Z; simpl.
  - rewrite IH. by rewrite <-app_assoc.
  - by rewrite app_nil_r.
Qed.

(** Decompression.  The result is the concatenation of what [inflate] put
    out, up to the call that left room in the buffer, unless one of these
    calls reported a fatal error, in which case it is empty; running out of
    input is not fatal. *)
Theorem decompress_spec (inflateInit2 : str → option zstream) (data : str) (s : zstream)
    (Hdata : data ≠ []) (Hinit : inflateInit2 data = Some s) :
  decompress inflateInit2 data
  = if existsb (λ c, inflate_fatal c.1) (until_room s) then []
    else mjoin (snd <$> until_room s).
Proof.
  unfold decompress. rewrite bool_decide_false by done. rewrite Hinit. apply codec_loop_spec.
Qed.

Lemma decompress_spec_witness :
  decompress (λ d, Some [((-5)%Z, d)]) (#"abc") = #"abc".
Proof. apply (decompress_spec (λ d, Some [((-5)%Z, d)]) (#"abc") [((-5)%Z, #"abc")]); done. Defined.

(** A truncated body is accepted: [Z_BUF_ERROR] (-5) with some output. *)
Example decompress_truncated (out : str) :
  (zlen out < buffer_size)%Z → decompress (λ _, Some [((-5)%Z, out)]) (#"x") = out.
Proof.
  intros H. unfold decompress. simpl. by rewrite (proj2 (Z.eqb_neq _ _)) by lia.
Qed.
