(* ===== verification/HttpCore.v ===== *)
(** * HttpCore: parsing, routing, static files and post-processing

    Models [src/http/HttpCore.h], the protocol core the HTTP and the HTTPS
    server share.  Arguments of the model: the regular expression engine, the
    gzip codec ([Gzip.v] models it around zlib), the file system, the order
    in which an unordered map is iterated, and the rate limiter, through the
    interface [Limiter]. *)

From S2P Require Import Prelude Buffer HttpRequest HttpResponse Metrics RateLimiter Gzip.

(** [kMaxBodySize] (10 MB) and [kMaxRequestLine]. *)
Definition kMaxBodySize : Z := 10 * 1024 * 1024.
Definition kMaxRequestLine : Z := 8192.

Inductive ParseResult := Complete | Incomplete | Error.

#[export] Instance ParseResult_eq_dec : EqDecision ParseResult.
Proof. solve_decision. Defined.

(** ** Parsing a request *)

(** The loop over the header lines; a line that is no header is skipped. *)
Definition header_line (r : HttpRequest) (line : str) : HttpRequest :=
  if bool_decide (line = []) then r else (HttpRequest.parseHeader r line).2.

Definition parseHeader_lines (header : str) (pos : nat) (r : HttpRequest) : HttpRequest :=
  fold_lines header_line (S (length header)) header pos r.

Definition parseHeader (header : str) (r : HttpRequest) : bool * HttpRequest :=
  match find crlf header 0 with
  | None =>
      if (kMaxRequestLine <? zlen header)%Z then (false, r) else parseRequestLine r header
  | Some lineEnd =>
      let requestLine := substr header 0 lineEnd in
      if (kMaxRequestLine <? zlen requestLine)%Z then (false, r)
      else match parseRequestLine r requestLine with
           | (false, r1) => (false, r1)
           | (true, r1) => (true, parseHeader_lines header (lineEnd + 2) r1)
           end
  end.

Section Parsing.
Context (decompress : str → str).

Definition maybeDecompressRequestBody (r : HttpRequest) : HttpRequest :=
  if bool_decide (body r = []) then r
  else if negb (contains (#"gzip") (getHeader r (#"content-encoding"))) then r
  else let d := decompress (body r) in
       if bool_decide (d = []) then r else set_body r d.

(** [parseRequest(std::string&, HttpRequest&)]: the result, the request and
    the data left. *)
Definition parseRequest_string (data : str) (r : HttpRequest) : ParseResult * HttpRequest * str :=
  match find crlf2 data 0 with
  | None =>
      if (kMaxRequestLine <? zlen data)%Z then (Error, r, data) else (Incomplete, r, data)
  | Some headerEnd =>
      let headerLen := headerEnd + 4 in
      let header := substr data 0 headerEnd in
      match parseHeader header r with
      | (false, r1) => (Error, r1, data)
      | (true, r1) =>
          let contentLen := contentLength r1 in
          if (kMaxBodySize <? contentLen)%Z then (Error, r1, data)
          else
            let totalLen := headerLen + Z.to_nat contentLen in
            if length data <? totalLen then (Incomplete, r1, data)
            else
              let r2 := if (0 <? contentLen)%Z
                        then set_body r1 (substr data headerLen (Z.to_nat contentLen)) else r1 in
              (Complete, maybeDecompressRequestBody r2, drop totalLen data)
      end
  end.

(** [parseRequest(Buffer*, HttpRequest&)]: [memmem] on the readable bytes. *)
Definition parseRequest {B : Type} `{ByteQueue B} (buf : B) (r : HttpRequest)
    : ParseResult * HttpRequest * B :=
  let data := bq_contents buf in
  let len := bq_readable buf in
  match find0 crlf2 data with
  | None =>
      if (kMaxRequestLine <? Z.of_nat len)%Z then (Error, r, buf) else (Incomplete, r, buf)
  | Some headerEnd =>
      let headerLen := headerEnd + 4 in
      let header := take (headerLen - 4) data in
      match parseHeader header r with
      | (false, r1) => (Error, r1, buf)
      | (true, r1) =>
          let contentLen := contentLength r1 in
          if (kMaxBodySize <? contentLen)%Z then (Error, r1, buf)
          else
            let totalLen := headerLen + Z.to_nat contentLen in
            if len <? totalLen then (Incomplete, r1, buf)
            else
              let buf1 := bq_retrieve buf headerLen in
              let '(r2, buf2) :=
                if (0 <? contentLen)%Z
                then (set_body r1 (take (Z.to_nat contentLen) (bq_contents buf1)),
                      bq_retrieve buf1 (Z.to_nat contentLen))
                else (r1, buf1) in
              (Complete, maybeDecompressRequestBody r2, buf2)
      end
  end.
End Parsing.

(** ** Static files *)

(** The file system calls of [serveFile]: [realpath], [open(O_RDONLY)] with
    the descriptor it returns, and [fstat] with "is a regular file" and the
    size. *)
Record FileSystem := mkFS {
  realpath : str → option str;
  open_ : str → option Z;
  fstat : Z → option (bool * Z)
}.

(** [std::string::c_str()] as a C function reads it: up to the first NUL. *)
Fixpoint c_str (s : str) : str :=
  match s with
  | [] => []
  | c :: s' => if bool_decide (c = NUL) then [] else c :: c_str s'
  end.

(** [strtol(hex, &end, 16)] on two characters, and the test that it read
    both and that the value is a byte. *)
Definition hex_pair (c1 c2 : ascii) : option Z :=
  let s := skip_space [c1; c2] in
  let '(neg, ds) :=
    match s with
    | c :: s' => if bool_decide (c = "-"%char) then (true, s')
                 else if bool_decide (c = "+"%char) then (false, s') else (false, s)
    | [] => (false, s)
    end in
  match ds with
  | [] => None
  | _ =>
      match scan_digits 16 ds 0 with
      | (v, []) =>
          let val := if neg then (- v)%Z else v in
          if ((0 <=? val) && (val <=? 255))%Z then Some val else None
      | _ => None
      end
  end.

Fixpoint urlDecode (encoded : str) : str :=
  match encoded with
  | [] => []
  | c :: rest =>
      if bool_decide (c = "%"%char) then
        match rest with
        | c1 :: c2 :: rest' =>
            match hex_pair c1 c2 with
            | Some v => chr v :: urlDecode rest'
            | None => c :: urlDecode rest
            end
        | _ => c :: urlDecode rest
        end
      else c :: urlDecode rest
  end.

(** The file names [serveFile] refuses before touching the file system. *)
Definition bad_name (name : str) : bool :=
  match name with
  | [] => true
  | c :: _ =>
      contains (#"..") name || bool_decide (c = "/"%char) || bool_decide (c = "~"%char)
      || contains [ "\"%char ] name
  end.

Definition content_type_of (filename : str) : str :=
  if contains (#".html") filename then #"text/html; charset=utf-8"
  else if contains (#".css") filename then #"text/css"
  else if contains (#".js") filename then #"application/javascript"
  else if contains (#".json") filename then #"application/json"
  else if contains (#".png") filename then #"image/png"
  else if contains (#".jpg") filename || contains (#".jpeg") filename then #"image/jpeg"
  else #"application/octet-stream".

(** The response, and the descriptors [serveFile] opened and closed. *)
Inductive FdOp := Opened (fd : Z) | Closed (fd : Z).

Definition serveFile (fs : FileSystem) (resp : HttpResponse) (dir filename : str)
    : HttpResponse * list FdOp :=
  let decodedFilename := urlDecode filename in
  if bad_name decodedFilename then (badRequest (#"Invalid path"), [])
  else
    let filepath := dir ++ #"/" ++ decodedFilename in
    match realpath fs (c_str filepath), realpath fs (c_str dir) with
    | Some resolvedPath, Some resolvedDir =>
        if negb (bool_decide (find resolvedDir resolvedPath 0 = Some 0))
        then (badRequest (#"Invalid path"), [])
        else match open_ fs (c_str filepath) with
        | None => (notFound (#"Not Found"), [])
        | Some fd =>
            match fstat fs fd with
            | Some (true, st_size) =>
                if ((st_size <=? 0) || (kMaxBodySize <? st_size))%Z
                then (serverError (#"File too large"), [Opened fd; Closed fd])
                else (setFileBody (setContentType resp (content_type_of filename)) fd st_size, [Opened fd])
            | _ => (notFound (#"Not Found"), [Opened fd; Closed fd])
            end
        end
    | _, _ => (notFound (#"Not Found"), [])
    end.

(** ** Registration and dispatch *)

Section Core.
Context {R L A : Type} `{Limiter L} (new_limiter : Z → L).
(** [std::regex]'s constructor, [None] being [regex_error], and
    [std::regex_match]; the codec; the file system; an iteration order. *)
Context (regex_compile : str → option R) (regex_match : R → str → bool).
Context (compress : str → str) (fs : FileSystem).
Context (order : gmap str str → list (str * str)).
(** The text [Metrics::toPrometheus] gives. *)
Context (prometheus : Metrics → str).

(** What handlers share and change: the metrics singleton, the rate limiters
    their closures point to, the clock, the descriptors handed out, and the
    application's own state. *)
Record World := mkWorld {
  clock : Z;
  metrics : Metrics;
  limiters : list L;
  fd_log : list FdOp;
  app_state : A
}.

Definition HttpHandler : Type := HttpRequest → HttpResponse → World → HttpResponse * World.

Record Route := mkRoute {
  rt_method : HttpMethod;
  rt_pattern : str;
  rt_handler : HttpHandler;
  rt_regex : R
}.

Record HttpCore := mkCore {
  exactRoutes_ : gmap str (gmap Z HttpHandler);
  routes_ : list Route;
  middlewares_ : list HttpHandler;
  staticDirs_ : gmap str str;
  gzipEnabled_ : bool;
  gzipMinSize_ : Z
}.

Definition HttpCore_new : HttpCore := mkCore ∅ [] [] ∅ false 1024.

(** [static_cast<int>(method)]. *)
Definition method_int (m : HttpMethod) : Z :=
  match m with GET => 0 | POST => 1 | PUT => 2 | DELETE => 3 | HEAD => 4 | UNKNOWN => 5 end.

Definition methodToString (m : HttpMethod) : str :=
  match m with
  | GET => #"get" | POST => #"post" | PUT => #"put" | DELETE => #"delete" | HEAD => #"head"
  | UNKNOWN => #"unknown"
  end.

Definition metachar (c : ascii) : bool :=
  bool_decide (c ∈ [ "("; ")"; "["; "]"; "{"; "}"; "."; "*"; "+"; "?"; "|"; "^"; "$" ]%char).

Definition isExactPath (path : str) : bool := forallb (λ c, negb (metachar c)) path.

(** [None]: the pattern is not a regular expression, [std::regex] throws. *)
Definition addRoute (c : HttpCore) (m : HttpMethod) (path : str) (h : HttpHandler) : option HttpCore :=
  if isExactPath path then
    Some (mkCore (<[path := <[method_int m := h]> (default ∅ (exactRoutes_ c !! path))]> (exactRoutes_ c))
            (routes_ c) (middlewares_ c) (staticDirs_ c) (gzipEnabled_ c) (gzipMinSize_ c))
  else
    match regex_compile path with
    | None => None
    | Some re =>
        Some (mkCore (exactRoutes_ c) (routes_ c ++ [mkRoute m path h re]) (middlewares_ c)
                (staticDirs_ c) (gzipEnabled_ c) (gzipMinSize_ c))
    end.

Definition use (c : HttpCore) (middleware : HttpHandler) : HttpCore :=
  mkCore (exactRoutes_ c) (routes_ c) (middlewares_ c ++ [middleware]) (staticDirs_ c)
    (gzipEnabled_ c) (gzipMinSize_ c).

Definition serveStatic (c : HttpCore) (urlPrefix dir : str) : HttpCore :=
  mkCore (exactRoutes_ c) (routes_ c) (middlewares_ c) (<[urlPrefix := dir]> (staticDirs_ c))
    (gzipEnabled_ c) (gzipMinSize_ c).

Definition enableGzip (c : HttpCore) (minSize : Z) : HttpCore :=
  mkCore (exactRoutes_ c) (routes_ c) (middlewares_ c) (staticDirs_ c) true minSize.

Definition cors_middleware (origin : str) : HttpHandler := λ _ resp w, (setCors resp origin, w).

Definition enableCors (c : HttpCore) (origin : str) : HttpCore := use c (cors_middleware origin).

(** The client's address as the rate limiter sees it. *)
Definition client_ip (r : HttpRequest) : str :=
  let ip := getHeader r (#"x-real-ip") in
  let ip := if bool_decide (ip = []) then getHeader r (#"x-forwarded-for") else ip in
  if bool_decide (ip = []) then #"unknown" else ip.

(** The closure holds a shared pointer to its limiter: the limiter's place in
    the world. *)
Definition rate_middleware (k : nat) : HttpHandler := λ req resp w,
  match limiters w !! k with
  | None => (resp, w)
  | Some l =>
      let '(allowed, l') := lim_allow l (clock w) (client_ip req) in
      let w' := mkWorld (clock w) (metrics w) (<[k := l']> (limiters w)) (fd_log w) (app_state w) in
      if allowed then (resp, w')
      else (setText (setStatusCode resp TOO_MANY_REQUESTS) (#"Rate limit exceeded"), w')
  end.

Definition useRateLimit (c : HttpCore) (w : World) (maxRequestsPerSec : Z) : HttpCore * World :=
  (use c (rate_middleware (length (limiters w))),
   mkWorld (clock w) (metrics w) (limiters w ++ [new_limiter maxRequestsPerSec]) (fd_log w) (app_state w)).

Definition metrics_middleware : HttpHandler := λ req resp w,
  let m1 := increment (metrics w) (#"http_requests_total") 1 in
  let m2 := increment m1 (#"http_requests_" ++ methodToString (method req)) 1 in
  (resp, mkWorld (clock w) m2 (limiters w) (fd_log w) (app_state w)).

Definition metrics_endpoint : HttpHandler := λ _ resp w,
  (setBody (setContentType resp (#"text/plain; version=0.0.4")) (prometheus (metrics w)), w).

Definition enableMetrics (c : HttpCore) (path : str) : option HttpCore :=
  addRoute (use c metrics_middleware) GET path metrics_endpoint.

(** The middlewares in order; [true] when one of them ended the request. *)
Fixpoint run_middlewares (ms : list HttpHandler) (req : HttpRequest) (resp : HttpResponse) (w : World)
    : bool * HttpResponse * World :=
  match ms with
  | [] => (false, resp, w)
  | m :: ms' =>
      let '(resp1, w1) := m req resp w in
      if (400 <=? code_int (statusCode resp1))%Z then (true, resp1, w1)
      else run_middlewares ms' req resp1 w1
  end.

(** The loop that keeps the longest matching prefix. *)
Definition longer_prefix (path : str) (best : option (str * str)) (kv : str * str) : option (str * str) :=
  if bool_decide (find kv.1 path 0 = Some 0) then
    match best with
    | None => Some kv
    | Some b => if length b.1 <? length kv.1 then Some kv else best
    end
  else best.

Definition best_prefix (dirs : gmap str str) (path : str) : option (str * str) :=
  foldl (longer_prefix path) None (order dirs).

Definition static_name (path prefix : str) : str :=
  let sub := skip_chars [ "/"%char ] (drop (length prefix) path) in
  if bool_decide (sub = []) then #"index.html" else sub.

Definition log_fds (w : World) (ops : list FdOp) : World :=
  mkWorld (clock w) (metrics w) (limiters w) (fd_log w ++ ops) (app_state w).

Definition find_exact (c : HttpCore) (req : HttpRequest) : option HttpHandler :=
  match exactRoutes_ c !! path req with
  | Some ms => ms !! method_int (method req)
  | None => None
  end.

Definition route_matches (req : HttpRequest) (rt : Route) : bool :=
  bool_decide (rt_method rt = method req) && regex_match (rt_regex rt) (path req).

Definition handleRequest (c : HttpCore) (req : HttpRequest) (resp : HttpResponse) (w : World)
    : HttpResponse * World :=
  match run_middlewares (middlewares_ c) req resp w with
  | (true, resp1, w1) => (resp1, w1)
  | (false, resp1, w1) =>
      match find_exact c req with
      | Some h => h req resp1 w1
      | None =>
          match List.find (route_matches req) (routes_ c) with
          | Some rt => rt_handler rt req resp1 w1
          | None =>
              match best_prefix (staticDirs_ c) (path req) with
              | Some (prefix, dir) =>
                  let '(resp2, ops) := serveFile fs resp1 dir (static_name (path req) prefix) in
                  (resp2, log_fds w1 ops)
              | None => (notFound (#"Not Found: " ++ path req), w1)
              end
          end
      end
  end.

Definition postProcessResponse (c : HttpCore) (req : HttpRequest) (resp : HttpResponse) : HttpResponse :=
  if negb (gzipEnabled_ c) || (zlen (rbody resp) <? gzipMinSize_ c)%Z then resp
  else if negb (contains (#"gzip") (getHeader req (#"accept-encoding"))) then resp
  else
    let contentType := default [] (rheaders resp !! (#"Content-Type")) in
    if negb (shouldCompress contentType) then resp
    else
      let compressed := compress (rbody resp) in
      if negb (bool_decide (compressed = [])) && (zlen compressed <? zlen (rbody resp))%Z then
        let resp1 := with_body resp compressed in
        let resp2 := setContentLength resp1 (zlen (rbody resp1)) in
        setHeader (setHeader resp2 (#"Content-Encoding") (#"gzip")) (#"Vary") (#"Accept-Encoding")
      else resp.
End Core.

(** ** Lemmas on parsing *)

Lemma scan_digits_nonneg base s acc : (0 <= base)%Z → (0 <= acc)%Z → (0 <= (scan_digits base s acc).1)%Z.
Proof.
  intros Hb. revert acc. induction s as [|c s IH]; intros acc Ha; simpl; [done|].
  destruct (digit_in base c) as [d|] eqn:E; [|done]. apply IH.
  enough (0 <= d)%Z by nia. unfold digit_in, digit_val in E. cases; lia.
Qed.

Lemma contentLength_nonneg r : (0 <= contentLength r)%Z.
Proof.
  unfold contentLength. destruct (bool_decide _); [lia|].
  destruct (stoul _) as [v|] eqn:E; simpl; [|lia]. revert E. unfold stoul, scan_int.
  repeat (case_match; try done); intros; simplify_eq; try (apply Z.mod_pos_bound; lia);
    apply (scan_digits_nonneg 10); lia.
Qed.

Section ParsingFacts.
Context (decompress : str → str).
Local Abbreviation parse := (parseRequest_string decompress).

(** The head of a request that is complete in [data]: nothing here depends
    on the bytes after it. *)
Lemma parse_head (header t : str) (r : HttpRequest) :
  find0 crlf2 (header ++ crlf2 ++ t) = Some (length header) →
  parse (header ++ crlf2 ++ t) r
  = match parseHeader header r with
    | (false, r1) => (Error, r1, header ++ crlf2 ++ t)
    | (true, r1) =>
        if (kMaxBodySize <? contentLength r1)%Z then (Error, r1, header ++ crlf2 ++ t)
        else if (zlen t <? contentLength r1)%Z then (Incomplete, r1, header ++ crlf2 ++ t)
        else
          let content := take (Z.to_nat (contentLength r1)) t in
          (Complete,
           maybeDecompressRequestBody decompress
             (if (0 <? contentLength r1)%Z then set_body r1 content else r1),
           drop (Z.to_nat (contentLength r1)) t)
    end.
Proof.
  intros Hf. unfold parseRequest_string. rewrite find_0, Hf.
  rewrite substr_prefix by done. destruct (parseHeader header r) as [[] r1]; [|done].
  pose proof (contentLength_nonneg r1) as Hn.
  destruct (kMaxBodySize <? _)%Z; [done|].
  assert (Hdrop : ∀ n, drop (length header + 4 + n) (header ++ crlf2 ++ t) = drop n t).
  { intros n. rewrite (app_assoc header). replace (length header + 4 + n) with (length (header ++ crlf2) + n) by len.
    by rewrite <-drop_drop, drop_app_length. }
  assert (Hb : (length (header ++ crlf2 ++ t) <? length header + 4 + Z.to_nat (contentLength r1))
    = (zlen t <? contentLength r1)%Z).
  { apply eq_bool_prop_intro. rewrite !Is_true_true, Nat.ltb_lt, Z.ltb_lt. len. }
  rewrite Hb. destruct (zlen t <? _)%Z; [done|].
  rewrite Hdrop. unfold substr. by rewrite <-(Nat.add_0_r (length header + 4)), Hdrop, drop_0.
Qed.

(** No blank line yet. *)
Lemma parse_nohead data r :
  find0 crlf2 data = None →
  parse data r = (if (kMaxRequestLine <? zlen data)%Z then Error else Incomplete, r, data).
Proof. intros Hf. unfold parseRequest_string. rewrite find_0, Hf. by destruct (_ <? _)%Z. Qed.

Lemma find0_split p s n : find0 p s = Some n → ∃ h t, s = h ++ p ++ t ∧ length h = n.
Proof.
  intros H. pose proof (find0_bound _ _ _ H). apply find0_Some in H.
  exists (take n s), (drop (n + length p) s). split; [done|]. rewrite length_take. lia.
Qed.

(** What a complete request is: its head, and as many bytes of content as it
    declares. *)
Definition is_frame (header content : str) (r r' : HttpRequest) : Prop :=
  find0 crlf2 (header ++ crlf2) = Some (length header) ∧
  ∃ r1, parseHeader header r = (true, r1) ∧
    contentLength r1 = zlen content ∧ (zlen content <= kMaxBodySize)%Z ∧
    r' = maybeDecompressRequestBody decompress
           (if bool_decide (content = []) then r1 else set_body r1 content).

Lemma find0_trunc p h t : p ≠ [] → find0 p (h ++ p ++ t) = Some (length h) → find0 p (h ++ p) = Some (length h).
Proof.
  intros Hp Hf. apply find0_intro; [rewrite drop_app_length; apply prefixb_refl|intros i Hi|len].
  pose proof (find0_min _ _ _ i Hf Hi) as Hm.
  destruct (prefixb p (drop i (h ++ p))) eqn:E; [|done]. rewrite <-Hm.
  symmetry. rewrite app_assoc, drop_app_le by len. by apply prefixb_app_r.
Qed.

Lemma parse_frame header content r r' t :
  is_frame header content r r' → parse (header ++ crlf2 ++ content ++ t) r = (Complete, r', t).
Proof.
  intros (Hf & r1 & Hh & Hlen & Hmax & ->).
  rewrite parse_head by (rewrite app_assoc; by apply find0_app).
  rewrite Hh, Hlen. rewrite (proj2 (Z.ltb_ge _ _)) by lia.
  rewrite (proj2 (Z.ltb_ge _ _)) by len. replace (Z.to_nat (zlen content)) with (length content) by len.
  rewrite take_app_length, drop_app_length. do 3 f_equal.
  by destruct content.
Qed.

Lemma complete_frame data r r' rest :
  parse data r = (Complete, r', rest) →
  ∃ header content, data = header ++ crlf2 ++ content ++ rest ∧ is_frame header content r r'.
Proof.
  intros H. destruct (find0 crlf2 data) as [n|] eqn:Hf.
  2: { rewrite parse_nohead in H by done. by destruct (_ <? _)%Z. }
  destruct (find0_split _ _ _ Hf) as (header & t & -> & <-).
  rewrite parse_head in H by done. destruct (parseHeader header r) as [[] r1] eqn:Hh; [|done].
  destruct (kMaxBodySize <? _)%Z eqn:E1; [done|]. destruct (zlen t <? _)%Z eqn:E2; [done|].
  bool_to_prop. pose proof (contentLength_nonneg r1) as Hn.
  injection H as <- <-. exists header, (take (Z.to_nat (contentLength r1)) t).
  rewrite take_drop. split; [done|].
  assert (Hl : zlen (take (Z.to_nat (contentLength r1)) t) = contentLength r1) by len.
  split; [by eapply find0_trunc|]. exists r1. split_and!; [done|done|lia|].
  f_equal. destruct (0 <? _)%Z eqn:E3; bool_to_prop.
  - rewrite bool_decide_false; [done|]. intros E. rewrite E in Hl. simpl in Hl. unfold zlen in Hl; simpl in Hl. lia.
  - replace (contentLength r1) with 0%Z by lia. done.
Qed.

(** No shorter prefix of a request is taken for a complete one. *)
Lemma frame_prefix header content r r' p q :
  is_frame header content r r' → header ++ crlf2 ++ content = p ++ q → q ≠ [] →
  (find0 crlf2 p = None → (zlen p <= kMaxRequestLine)%Z) →
  ∃ r2, parse p r = (Incomplete, r2, p).
Proof.
  intros Hfr Hpq Hq Hlim. destruct Hfr as (Hf & r1 & Hh & Hlen & Hmax & _).
  destruct (find0 crlf2 p) as [n|] eqn:Ep.
  - destruct (find0_split _ _ _ Ep) as (h & t & -> & <-).
    assert (length h = length header) as Hl.
    { apply (find0_app _ _ q) in Ep. rewrite <-Hpq in Ep.
      apply (find0_app _ _ content) in Hf. rewrite <-app_assoc in Hf. by rewrite Hf in Ep; simplify_eq. }
    rewrite <-!app_assoc in Hpq. apply app_inj_1 in Hpq as [-> Hpq]; [|done].
    apply (inj (app crlf2)) in Hpq. subst content.
    rewrite parse_head by done. rewrite Hh, Hlen.
    rewrite (proj2 (Z.ltb_ge _ _)) by (revert Hmax; len).
    rewrite (proj2 (Z.ltb_lt _ _)) by (destruct q; [done|len]). eauto.
  - rewrite parse_nohead by done. rewrite (proj2 (Z.ltb_ge _ _)) by auto. eauto.
Qed.

(** C7: framing.  When a request is complete, the data is its head, a blank
    line, exactly the declared number of content bytes, and what is left over;
    more data behind it changes nothing but the rest; and no shorter prefix is
    taken for a complete request: with at most 8192 bytes before the blank
    line is seen, the parser just asks for more. *)
Theorem parseRequest_framing (data : str) (r r' : HttpRequest) (rest : str)
    (Hc : parse data r = (Complete, r', rest)) :
  ∃ header content,
    data = header ++ crlf2 ++ content ++ rest ∧ is_frame header content r r' ∧
    (∀ t, parse (data ++ t) r = (Complete, r', rest ++ t)) ∧
    (∀ p q, header ++ crlf2 ++ content = p ++ q → q ≠ [] →
       (find0 crlf2 p = None → (zlen p <= kMaxRequestLine)%Z) →
       ∃ r2, parse p r = (Incomplete, r2, p)).
Proof.
  destruct (complete_frame _ _ _ _ Hc) as (header & content & -> & Hfr).
  exists header, content. split_and!; [done|done|..].
  - intros t. rewrite <-!app_assoc. by apply parse_frame.
  - intros p q. by apply frame_prefix with (r' := r').
Qed.

(** The buffer version and the string version of the parser agree: same
    result, same request, and the bytes left in the buffer are the string
    left, for every implementation of the byte queue. *)
Theorem parseRequest_agree {B : Type} `{ByteQueue B} (buf : B) (r : HttpRequest) (Hv : bq_valid buf) :
  let '(res, r', buf') := parseRequest decompress buf r in
  parse (bq_contents buf) r = (res, r', bq_contents buf') ∧ bq_valid buf'.
Proof.
  unfold parseRequest. rewrite (bq_readable_ok buf Hv). set (data := bq_contents buf).
  destruct (find0 crlf2 data) as [n|] eqn:Hf.
  2: { rewrite parse_nohead by done. unfold zlen. by destruct (_ <? _)%Z. }
  unfold parseRequest_string. rewrite find_0, Hf.
  replace (take (n + 4 - 4) data) with (substr data 0 n)
    by (unfold substr; rewrite drop_0; f_equal; lia).
  destruct (parseHeader _ r) as [[] r1]; [|done].
  destruct (kMaxBodySize <? _)%Z; [done|]. destruct (length data <? _) eqn:E; [done|].
  bool_to_prop. pose proof (contentLength_nonneg r1) as Hn.
  destruct (bq_retrieve_ok buf (n + 4) Hv) as [Hv1 E1]. fold data in E1.
  destruct (0 <? contentLength r1)%Z eqn:E0; bool_to_prop.
  - destruct (bq_retrieve_ok _ (Z.to_nat (contentLength r1)) Hv1) as [Hv2 E2].
    rewrite E2, E1, drop_drop. split; [|done]. done.
  - rewrite E1. replace (contentLength r1) with 0%Z by lia. simpl.
    by rewrite Nat.add_0_r.
Qed.
End ParsingFacts.

Definition sample_request : str :=
  #"POST /a?x=1 HTTP/1.1" ++ crlf ++ #"Content-Length: 3" ++ crlf2 ++ #"abcREST".

Lemma parseRequest_framing_witness :
  let r' := (parseRequest_string (λ d, d) sample_request HttpRequest_new).1.2 in
  ∃ header content,
    sample_request = header ++ crlf2 ++ content ++ #"REST" ∧
    is_frame (λ d, d) header content HttpRequest_new r' ∧
    (∀ t, parseRequest_string (λ d, d) (sample_request ++ t) HttpRequest_new
          = (Complete, r', #"REST" ++ t)) ∧
    (∀ p q, header ++ crlf2 ++ content = p ++ q → q ≠ [] →
       (find0 crlf2 p = None → (zlen p <= kMaxRequestLine)%Z) →
       ∃ r2, parseRequest_string (λ d, d) p HttpRequest_new = (Incomplete, r2, p)).
Proof.
  intros r'. apply (parseRequest_framing (λ d, d) sample_request HttpRequest_new r' (#"REST")).
  unfold r'. vm_compute. reflexivity.
Defined.

Lemma parseRequest_agree_witness :
  let buf := append (Buffer_new 16) sample_request in
  let '(res, r', buf') := parseRequest (λ d, d) buf HttpRequest_new in
  parseRequest_string (λ d, d) (bq_contents buf) HttpRequest_new = (res, r', bq_contents buf')
  ∧ bq_valid buf'.
Proof.
  intros buf. apply (parseRequest_agree (λ d, d) buf HttpRequest_new).
  exact (proj1 (bq_append_ok (Buffer_new 16) sample_request (proj1 (bq_empty_ok 16)))).
Defined.

(** The limit on the head of a request only applies while its end is not
    there: a head of more than 8192 bytes is taken when it arrives in one
    piece, and refused when it arrives in two. *)
Example head_limit_depends_on_arrival :
  let head := #"GET / HTTP/1.1" ++ crlf ++ #"X: " ++ replicate 8200 "x"%char in
  (parseRequest_string id head HttpRequest_new).1.1 = Error ∧
  (parseRequest_string id (head ++ crlf2) HttpRequest_new).1.1 = Complete.
Proof. vm_compute. done. Qed.

(** ** Routing *)

Section Routing.
Context {R L A : Type} `{Limiter L}.
Context (regex_compile : str → option R) (regex_match : R → str → bool).
Context (fs : FileSystem) (order : gmap str str → list (str * str)) (Horder : order_ok order).

Local Abbreviation handler := (@HttpHandler L A).
Local Abbreviation core := (@HttpCore R L A).

(** What an application registers, in order. *)
Inductive Registration :=
  | RegRoute (m : HttpMethod) (path : str) (h : handler)
  | RegUse (h : handler)
  | RegStatic (urlPrefix dir : str).

Definition register (c : option core) (r : Registration) : option core :=
  match c with
  | None => None
  | Some c =>
      match r with
      | RegRoute m p h => addRoute regex_compile c m p h
      | RegUse h => Some (use c h)
      | RegStatic p d => Some (serveStatic c p d)
      end
  end.

Definition build (regs : list Registration) : option core := foldl register (Some HttpCore_new) regs.

(** The specification, on the list of registrations itself. *)
Definition exact_for (req : HttpRequest) (r : Registration) : option handler :=
  match r with
  | RegRoute m p h =>
      if isExactPath p && bool_decide (p = path req) && bool_decide (m = method req) then Some h else None
  | _ => None
  end.

Definition pattern_for (req : HttpRequest) (r : Registration) : option handler :=
  match r with
  | RegRoute m p h =>
      if negb (isExactPath p) && bool_decide (m = method req) then
        match regex_compile p with
        | Some re => if regex_match re (path req) then Some h else None
        | None => None
        end
      else None
  | _ => None
  end.

Definition middleware_of (r : Registration) : option handler :=
  match r with RegUse h => Some h | _ => None end.
Definition static_of (r : Registration) : option (str * str) :=
  match r with RegStatic p d => Some (p, d) | _ => None end.

Definition static_map (regs : list Registration) : gmap str str :=
  foldl (λ m kv, <[kv.1 := kv.2]> m) ∅ (omap static_of regs).

Definition dispatch (regs : list Registration) (req : HttpRequest) (resp : HttpResponse) (w : World)
    : HttpResponse * World :=
  match run_middlewares (omap middleware_of regs) req resp w with
  | (true, resp1, w1) => (resp1, w1)
  | (false, resp1, w1) =>
      match last (omap (exact_for req) regs), head (omap (pattern_for req) regs) with
      | Some h, _ | None, Some h => h req resp1 w1
      | None, None =>
          match best_prefix order (static_map regs) (path req) with
          | Some (prefix, dir) =>
              let '(resp2, ops) := serveFile fs resp1 dir (static_name (path req) prefix) in
              (resp2, log_fds w1 ops)
          | None => (notFound (#"Not Found: " ++ path req), w1)
          end
      end
  end.

Lemma method_int_inj m m' : method_int m = method_int m' → m = m'.
Proof. by destruct m, m'. Qed.

(** The tables a sequence of registrations leaves. *)
Definition tables (regs : list Registration) (c : core) : Prop :=
  middlewares_ c = omap middleware_of regs ∧ staticDirs_ c = static_map regs ∧
  (∀ req, find_exact c req = last (omap (exact_for req) regs)) ∧
  (∀ req, rt_handler <$> List.find (route_matches regex_match req) (routes_ c)
          = head (omap (pattern_for req) regs)).

Lemma find_app_opt {X} (f : X → bool) (l1 l2 : list X) :
  List.find f (l1 ++ l2) = match List.find f l1 with Some x => Some x | None => List.find f l2 end.
Proof. induction l1 as [|x l1 IH]; simpl; [done|]. by destruct (f x). Qed.

Lemma head_app_opt {X} (l1 l2 : list X) :
  head (l1 ++ l2) = match head l1 with Some x => Some x | None => head l2 end.
Proof. by destruct l1. Qed.

Lemma last_app_opt {X} (l : list X) (o : option X) :
  last (l ++ option_list o) = match o with Some x => Some x | None => last l end.
Proof. destruct o; simpl; [apply last_snoc|by rewrite app_nil_r]. Qed.

Lemma omap_snoc {X Y} (f : X → option Y) l x : omap f (l ++ [x]) = omap f l ++ option_list (f x).
Proof. rewrite omap_app. simpl. by destruct (f x). Qed.

Lemma register_tables regs c r c' :
  tables regs c → register (Some c) r = Some c' → tables (regs ++ [r]) c'.
Proof.
  intros (Hm & Hs & He & Hp) Hr. unfold tables, static_map.
  assert (Hskip : ∀ f : HttpRequest → Registration → option handler,
    (∀ req, f req r = None) → ∀ req, omap (f req) (regs ++ [r]) = omap (f req) regs).
  { intros f Hf req. by rewrite omap_snoc, Hf, app_nil_r. }
  rewrite !omap_snoc, foldl_app.
  destruct r as [m p h|h|p d]; cbn [register middleware_of static_of option_list foldl] in *;
    rewrite ?app_nil_r; simplify_eq; cbn.
  - unfold addRoute in Hr. destruct (isExactPath p) eqn:Ep; simplify_eq.
    + split_and!; [done|done|..].
      * intros req. rewrite omap_snoc, last_app_opt, <-He.
        unfold find_exact, exact_for. cbn [exactRoutes_]. rewrite Ep. cbn [andb].
        destruct (decide (p = path req)) as [->|Hne].
        -- rewrite lookup_insert_eq, bool_decide_true by done. cbn [andb].
           destruct (decide (m = method req)) as [->|Hm'].
           ++ by rewrite lookup_insert_eq, bool_decide_true.
           ++ rewrite lookup_insert_ne by (by intros ?%method_int_inj).
              rewrite bool_decide_false by done. by destruct (exactRoutes_ c !! path req).
        -- by rewrite lookup_insert_ne, bool_decide_false.
      * intros req. rewrite Hskip; [apply Hp|]. intros req'. cbn [pattern_for]. by rewrite Ep.
    + destruct (regex_compile p) as [re|] eqn:Ere; simplify_eq. cbn.
      split_and!; [done|done|..].
      * intros req. rewrite Hskip; [apply He|]. intros req'. cbn [exact_for]. by rewrite Ep.
      * intros req. rewrite omap_snoc, head_app_opt, <-Hp, find_app_opt.
        destruct (List.find _ (routes_ c)); [done|]. cbn [fmap option_fmap option_map List.find].
        unfold route_matches. cbn [pattern_for rt_method rt_regex]. rewrite Ep, Ere. cbn [negb andb].
        destruct (bool_decide (m = method req)); cbn; [|done]. by destruct (regex_match re (path req)).
  - unfold use. cbn. rewrite Hm. split_and!; [done|done|..]; intros req; rewrite Hskip; done || apply He || apply Hp.
  - unfold serveStatic. cbn. rewrite Hs. split_and!; [done|done|..]; intros req; rewrite Hskip; done || apply He || apply Hp.
Qed.

Lemma build_tables regs c : build regs = Some c → tables regs c.
Proof.
  unfold build. revert c. induction regs as [|r regs IH] using rev_ind; intros c Hb.
  - simpl in Hb. simplify_eq. by split_and!.
  - rewrite foldl_app in Hb. cbn [foldl] in Hb. destruct (foldl register _ regs) as [c0|] eqn:E; [|done].
    eapply register_tables; [by apply IH|done].
Qed.

Lemma dispatched (regs : list Registration) (c : core) (Hb : build regs = Some c) (req : HttpRequest) (resp : HttpResponse) (w : World) :
  handleRequest regex_match fs order c req resp w = dispatch regs req resp w.
Proof.
  destruct (build_tables _ _ Hb) as (Hm & Hs & He & Hp). unfold handleRequest, dispatch.
  rewrite Hm, Hs. destruct (run_middlewares _ _ _ _) as [[[] resp1] w1]; [done|].
  rewrite He. rewrite <-Hp. destruct (last _); [done|].
  by destruct (List.find _ _).
Qed.

Lemma build_plain regs c : build regs = Some c → gzipEnabled_ c = false.
Proof.
  unfold build. assert (Hgen : ∀ c0, gzipEnabled_ c0 = false → foldl register (Some c0) regs = Some c → gzipEnabled_ c = false); [|by apply Hgen].
  induction regs as [|r regs IH]; intros c0 H0 Hf; [by injection Hf as <-|]. cbn [foldl register] in Hf.
  destruct r as [m p h|h|p d]; [|by eapply IH, Hf..]. unfold addRoute in Hf. destruct (isExactPath p); [by eapply IH, Hf|].
  destruct (regex_compile p); [by eapply IH, Hf|]. exfalso. clear -Hf. induction regs; [done|auto].
Qed.

(** C8: dispatch.  Whatever was registered and in whatever order, a request
    goes through the middlewares in registration order, the first of them to
    leave a status of 400 or more ending it; then to the handler registered
    last for exactly this method and path; failing that to the first pattern
    route of the method whose expression matches; failing that to the static
    directory, and otherwise to the 404 page. *)
Theorem handleRequest_dispatch (regs : list Registration) (c : core) (Hb : build regs = Some c)
    (req : HttpRequest) (resp : HttpResponse) (w : World) :
  handleRequest regex_match fs order c req resp w = dispatch regs req resp w.
Proof. by apply dispatched. Qed.

End Routing.

(** *** Static prefixes *)

Section StaticPrefix.
Context (order : gmap str str → list (str * str)) (Horder : order_ok order).

Lemma find_prefix p s : find p s 0 = Some 0 ↔ prefixb p s = true.
Proof.
  rewrite find_0. split; intros Hp.
  - apply find0_Some in Hp. simpl in Hp. rewrite Hp. apply prefixb_app.
  - destruct s; simpl; by rewrite Hp.
Qed.

Definition candidate (dirs : list (str * str)) (pa : str) (kv : str * str) : Prop :=
  kv ∈ dirs ∧ prefixb kv.1 pa = true.

Lemma best_prefix_loop pa l (best : option (str * str)) :
  match foldl (longer_prefix pa) best l with
  | Some kv =>
      (candidate l pa kv ∨ best = Some kv) ∧
      (∀ kv', candidate l pa kv' ∨ best = Some kv' → length kv'.1 ≤ length kv.1)
  | None => best = None ∧ ∀ kv', ¬ candidate l pa kv'
  end.
Proof.
  revert best. induction l as [|kv l IH]; intros best; cbn [foldl].
  { destruct best as [b|]; [split; [by right|]|split; [done|]].
    - intros kv' [[Hin _]|[= <-]]; [by apply elem_of_nil in Hin|done].
    - intros kv' [Hin _]. by apply elem_of_nil in Hin. }
  specialize (IH (longer_prefix pa best kv)).
  assert (Hcand : ∀ kv', candidate (kv :: l) pa kv' ↔ candidate l pa kv' ∨ (kv' = kv ∧ prefixb kv.1 pa = true)).
  { intros kv'. unfold candidate. rewrite elem_of_cons. naive_solver. }
  unfold longer_prefix in *. rewrite (bool_decide_ext _ _ (find_prefix kv.1 pa)) in *.
  destruct (prefixb kv.1 pa) eqn:Epf; [rewrite bool_decide_true in * by done|rewrite bool_decide_false in * by done].
  - destruct best as [b|]; [destruct (length b.1 <? length kv.1) eqn:El; bool_to_prop|];
      destruct (foldl _ _ l) as [r|]; destruct IH as [IH1 IH2]; try done.
    + split; [rewrite Hcand; naive_solver|]. intros kv' [Hc|[= <-]].
      * rewrite Hcand in Hc. naive_solver.
      * transitivity (length kv.1); [lia|]. naive_solver.
    + split; [rewrite Hcand; naive_solver|]. intros kv' [Hc|[= <-]]; [|naive_solver].
      rewrite Hcand in Hc. destruct Hc as [Hc|[-> _]]; [naive_solver|].
      transitivity (length b.1); [lia|]. naive_solver.
    + split; [rewrite Hcand; naive_solver|]. intros kv' [Hc|?]; [|done]. rewrite Hcand in Hc. naive_solver.
  - assert (Hc' : ∀ kv', candidate (kv :: l) pa kv' ↔ candidate l pa kv') by (intros; rewrite Hcand; naive_solver).
    destruct (foldl _ best l) as [r|]; destruct IH as [IH1 IH2]; (split; [first [by rewrite Hc'|done]|]).
    + intros kv' Hor. apply IH2. by rewrite <-Hc'.
    + intros kv'. rewrite Hc'. apply IH2.
Qed.

(** Static routing is by the longest prefix, whatever the order in which
    the unordered map is iterated: the directory chosen is that of a prefix of
    the path that no other registered prefix exceeds, and there is no choice
    only when no registered prefix fits. *)
Theorem static_longest_prefix (dirs : gmap str str) (pa : str) :
  (∀ p d, best_prefix order dirs pa = Some (p, d) ↔
     dirs !! p = Some d ∧ prefixb p pa = true ∧
     ∀ p' d', dirs !! p' = Some d' → prefixb p' pa = true → length p' ≤ length p) ∧
  (best_prefix order dirs pa = None ↔ ∀ p d, dirs !! p = Some d → prefixb p pa = false).
Proof.
  assert (Hin : ∀ p d, (p, d) ∈ order dirs ↔ dirs !! p = Some d).
  { intros p d. rewrite (Horder dirs). apply elem_of_map_to_list. }
  pose proof (best_prefix_loop pa (order dirs) None) as Hl. unfold best_prefix, candidate in *.
  destruct (foldl _ None (order dirs)) as [[p0 d0]|]; destruct Hl as [H1 H2].
  - destruct H1 as [[Hin0 Hp0]|?]; [|done]. apply Hin in Hin0. simpl in *.
    assert (Hmax : ∀ p' d', dirs !! p' = Some d' → prefixb p' pa = true → length p' ≤ length p0).
    { intros p' d' Hd Hp. apply (H2 (p', d')). left. by rewrite Hin. }
    split; [intros p d; split|split; [done|]].
    + intros [= <- <-]. done.
    + intros (Hd & Hp & Hm).
      assert (p0 = p) as <-; [|by simplify_eq].
      apply prefixb_spec in Hp0 as [t0 E0]. apply prefixb_spec in Hp as [t E].
      rewrite E0 in E. apply app_inj_1 in E as [? _]; [done|].
      apply Nat.le_antisymm; [eapply Hm|eapply Hmax]; try done; apply prefixb_spec; eauto.
      exists t. congruence.
    + intros Hn. by rewrite (Hn _ _ Hin0) in Hp0.
  - split; [intros p d; split; [done|]|split; [|done]].
    + intros (Hd & Hp & _). destruct (H2 (p, d)). by rewrite Hin.
    + intros _ p d Hd. destruct (prefixb p pa) eqn:E; [|done]. destruct (H2 (p, d)). by rewrite Hin.
Qed.
End StaticPrefix.

Section Samples.
Local Abbreviation limiter := TokenBucketLimiter.t.

Definition sample_fs : FileSystem := mkFS (λ p, Some p) (λ _, Some 7%Z) (λ _, Some (true, 100%Z)).
Definition sample_handler (n : Z) : @HttpHandler limiter unit := λ _ resp w, (setText resp (to_dec n), w).
Definition sample_regs : list (@Registration limiter unit) :=
  [RegRoute GET (#"/a") (sample_handler 1); RegRoute GET (#"/a") (sample_handler 2);
   RegRoute GET (#"/.*") (sample_handler 3); RegUse (cors_middleware (#"*")); RegStatic (#"/") (#"/srv")].

Definition sample_core : @HttpCore unit limiter unit := default HttpCore_new (build (λ _, Some tt) sample_regs).
Definition sample_world : @World limiter unit := mkWorld 0 Metrics_new [] [] tt.
Definition sample_get (p : str) : HttpRequest := set_path (set_method HttpRequest_new GET) p.

Lemma handleRequest_dispatch_witness :
  handleRequest (λ _ _, true) sample_fs map_to_list sample_core (sample_get (#"/a")) HttpResponse_new sample_world
  = dispatch (λ _, Some tt) (λ _ _, true) sample_fs map_to_list sample_regs
      (sample_get (#"/a")) HttpResponse_new sample_world.
Proof.
  apply (handleRequest_dispatch (λ _, Some tt) (λ _ _, true) sample_fs map_to_list sample_regs sample_core).
  reflexivity.
Defined.

Lemma static_longest_prefix_witness :
  let dirs := <[ (#"/up") := (#"u")]> (<[ (#"/") := (#"r")]> ∅) : gmap str str in
  (∀ p d, best_prefix map_to_list dirs (#"/up/x") = Some (p, d) ↔
     dirs !! p = Some d ∧ prefixb p (#"/up/x") = true ∧
     ∀ p' d', dirs !! p' = Some d' → prefixb p' (#"/up/x") = true → length p' ≤ length p) ∧
  (best_prefix map_to_list dirs (#"/up/x") = None ↔ ∀ p d, dirs !! p = Some d → prefixb p (#"/up/x") = false).
Proof.
  intros dirs. apply (static_longest_prefix map_to_list (λ m, reflexivity (map_to_list m)) dirs (#"/up/x")).
Defined.
End Samples.

(** ** Static files: what is served *)

(** Two absolute paths without links: the second is the first or inside it;
    and the second is the first with its last component made longer, or inside
    such a sibling. *)
Definition under (root real : str) : Prop :=
  real = root ∨ ∃ rest, real = root ++ #"/" ++ rest ∨ (last root = Some "/"%char ∧ real = root ++ rest).
Definition beside (root real : str) : Prop :=
  last root ≠ Some "/"%char ∧ ∃ c rest, c ≠ "/"%char ∧ real = root ++ c :: rest.

Lemma prefix_under_beside root real : prefixb root real = true → under root real ∨ beside root real.
Proof.
  rewrite prefixb_spec. intros [rest ->]. destruct rest as [|c rest]; [left; left; by rewrite app_nil_r|].
  destruct (decide (c = "/"%char)) as [->|Hc]; [left; right; exists rest; by left|].
  destruct (decide (last root = Some "/"%char)) as [Hl|Hl]; [left; right; exists (c :: rest); by right|].
  right. split; [done|]. by exists c, rest.
Qed.

(** C38: what [serveFile] gives out.  A file body is only ever given for a name
    that, decoded, is not empty, does not start with a slash or a tilde and
    contains neither two dots in a row nor a backslash; whose real path begins,
    as text, with the real path of the directory, so that it is in the directory
    or, the comparison having no separator, in a sibling whose name goes on
    where the directory's ends ([sibling_directory_passes] is such a file,
    reached through a link); and which is an open, regular file of at most ten
    megabytes, announced with its exact size.  Every other name gets an error
    page, and every descriptor opened is closed again or is the body's. *)
Theorem serveFile_contained (fs : FileSystem) (resp : HttpResponse) (dir filename : str)
    (Hnew : hasFileBody resp = false)
    (Hfd : ∀ p fd, open_ fs p = Some fd → (0 <= fd)%Z) :
  let '(resp', ops) := serveFile fs resp dir filename in
  let name := urlDecode filename in
  let filepath := c_str (dir ++ #"/" ++ name) in
  if hasFileBody resp' then
    bad_name name = false ∧
    (∃ real root, realpath fs filepath = Some real ∧ realpath fs (c_str dir) = Some root ∧
       prefixb root real = true ∧ (under root real ∨ beside root real)) ∧
    open_ fs filepath = Some (bodyFileFd_ resp') ∧ ops = [Opened (bodyFileFd_ resp')] ∧
    fstat fs (bodyFileFd_ resp') = Some (true, bodyFileSize_ resp') ∧
    (0 < bodyFileSize_ resp' <= kMaxBodySize)%Z ∧
    rheaders resp' !! (#"Content-Length") = Some (to_dec (bodyFileSize_ resp'))
  else
    statusCode resp' ∈ [BAD_REQUEST; NOT_FOUND; INTERNAL_SERVER_ERROR] ∧
    (ops = [] ∨ ∃ fd, ops = [Opened fd; Closed fd]).
Proof.
  unfold serveFile. cbv zeta. destruct (bad_name (urlDecode filename)) eqn:Eb;
    [simpl; split; [set_solver|by left]|].
  set (fp := c_str _).
  destruct (realpath fs fp) as [real|] eqn:E1; [|simpl; split; [set_solver|by left]].
  destruct (realpath fs (c_str dir)) as [root|] eqn:E2; [|simpl; split; [set_solver|by left]].
  rewrite (bool_decide_ext _ _ (find_prefix root real)).
  destruct (prefixb root real) eqn:Epf; [rewrite bool_decide_true by done|
    rewrite bool_decide_false by done; simpl; split; [set_solver|by left]]. cbn [negb].
  destruct (open_ fs fp) as [fd|] eqn:Eo; [|simpl; split; [set_solver|by left]].
  destruct (fstat fs fd) as [[[] st_size]|] eqn:Es; [|simpl; split; [set_solver|right; eauto]..].
  destruct (_ || _) eqn:Esz; [simpl; split; [set_solver|right; eauto]|]. bool_to_prop.
  assert (Hb : hasFileBody (setFileBody (setContentType resp (content_type_of filename)) fd st_size) = true)
    by (cbn; apply Z.leb_le; eauto).
  rewrite Hb. cbn [setFileBody setContentLength setHeader bodyFileFd_ bodyFileSize_ rheaders].
  split_and!; eauto 8 using prefix_under_beside; try lia. apply lookup_insert_eq.
Qed.

Lemma serveFile_contained_witness :
  let '(resp', ops) := serveFile sample_fs HttpResponse_new (#"/srv") (#"a.html") in
  let name := urlDecode (#"a.html") in
  let filepath := c_str (#"/srv" ++ #"/" ++ name) in
  if hasFileBody resp' then
    bad_name name = false ∧
    (∃ real root, realpath sample_fs filepath = Some real ∧ realpath sample_fs (c_str (#"/srv")) = Some root ∧
       prefixb root real = true ∧ (under root real ∨ beside root real)) ∧
    open_ sample_fs filepath = Some (bodyFileFd_ resp') ∧ ops = [Opened (bodyFileFd_ resp')] ∧
    fstat sample_fs (bodyFileFd_ resp') = Some (true, bodyFileSize_ resp') ∧
    (0 < bodyFileSize_ resp' <= kMaxBodySize)%Z ∧
    rheaders resp' !! (#"Content-Length") = Some (to_dec (bodyFileSize_ resp'))
  else
    statusCode resp' ∈ [BAD_REQUEST; NOT_FOUND; INTERNAL_SERVER_ERROR] ∧
    (ops = [] ∨ ∃ fd, ops = [Opened fd; Closed fd]).
Proof.
  apply (serveFile_contained sample_fs HttpResponse_new (#"/srv") (#"a.html")); [reflexivity|].
  intros p fd [= <-]. done.
Defined.

(** The prefix test has no separator: a sibling of the directory whose name
    starts with the directory's passes it. *)
Example sibling_directory_passes :
  let fs := mkFS (λ p, Some (if bool_decide (p = #"/srv/link/f") then #"/srv-private/f" else p))
              (λ _, Some 7%Z) (λ _, Some (true, 10%Z)) in
  hasFileBody (serveFile fs HttpResponse_new (#"/srv") (#"link/f")).1 = true ∧
  beside (#"/srv") (#"/srv-private/f").
Proof. split; [vm_compute; reflexivity|]. split; [done|]. by exists "-"%char, (#"private/f"). Qed.

(** An empty file is reported as too large. *)
Example empty_file_too_large :
  let fs := mkFS Some (λ _, Some 7%Z) (λ _, Some (true, 0%Z)) in
  statusCode (serveFile fs HttpResponse_new (#"/srv") (#"empty.txt")).1 = INTERNAL_SERVER_ERROR.
Proof. vm_compute. reflexivity. Qed.

(** The test for [.js] comes before the one for [.json]. *)
Example json_served_as_javascript : content_type_of (#"data.json") = #"application/javascript".
Proof. vm_compute. reflexivity. Qed.

(** *** Percent encoding *)

Definition hex_digit (n : Z) : ascii := if (n <? 10)%Z then chr (48 + n) else chr (55 + n).

(** Every character that is not a letter, a digit or one of [-._~/] as a
    percent sign and two hexadecimal digits. *)
Definition unreserved (c : ascii) : bool :=
  bool_decide (is_Some (digit_val c)) || bool_decide (c ∈ [ "-"; "."; "_"; "~"; "/" ]%char).

Definition urlEncode (s : str) : str :=
  mjoin ((λ c, if unreserved c then [c]
               else [ "%"%char; hex_digit (u8_of c / 16); hex_digit (u8_of c mod 16)]) <$> s).

Lemma hex_pair_byte n : (0 <= n < 256)%Z → hex_pair (hex_digit (n / 16)) (hex_digit (n mod 16)) = Some n.
Proof.
  intros Hn. cut (bool_decide (hex_pair (hex_digit (n / 16)) (hex_digit (n mod 16)) = Some n) = true).
  { apply bool_decide_eq_true. }
  by_evaluation (λ n, bool_decide (hex_pair (hex_digit (n / 16)) (hex_digit (n mod 16)) = Some n)) 256 n.
Qed.

(** Percent decoding inverts percent encoding, for every string of
    bytes. *)
Theorem urlDecode_urlEncode (s : str) : urlDecode (urlEncode s) = s.
Proof.
  unfold urlEncode. induction s as [|c s IH]; [done|]. cbn [fmap list_fmap]. simpl mjoin.
  destruct (unreserved c) eqn:E.
  - simpl. rewrite IH. rewrite bool_decide_false; [done|]. intros ->. by vm_compute in E.
  - cbn [app urlDecode]. rewrite bool_decide_true by done.
    rewrite hex_pair_byte by apply u8_of_range. by rewrite IH, chr_u8_of.
Qed.

(** [strtol] also takes a sign or a blank for the first digit. *)
Example urlDecode_sign : urlDecode (#"%+f") = [chr 15].
Proof. vm_compute. reflexivity. Qed.

(** ** Post-processing and rate limiting *)

(** Compression is transparent.  Whatever [postProcessResponse] does, the
    status, the connection flags and every other header stay, and the body
    never grows.  When it changes the response at all, compression is on, the
    body has the minimal size, the client accepts gzip, the new body is
    strictly shorter and decompresses to the old one, and the headers announce
    the encoding and the new length. *)
Theorem postProcess_transparent {R L A : Type} (compress decompress : str → str)
    (Hcodec : ∀ d, compress d ≠ [] → decompress (compress d) = d)
    (c : @HttpCore R L A) (req : HttpRequest) (resp : HttpResponse) :
  let resp' := postProcessResponse compress c req resp in
  statusCode resp' = statusCode resp ∧ statusMessage resp' = statusMessage resp ∧
  closeConnection resp' = closeConnection resp ∧ deferred resp' = deferred resp ∧
  (∀ k, k ∉ [ #"Content-Length"; #"Content-Encoding"; #"Vary"] → rheaders resp' !! k = rheaders resp !! k) ∧
  (resp' = resp ∨
   gzipEnabled_ c = true ∧ (gzipMinSize_ c <= zlen (rbody resp))%Z ∧
   contains (#"gzip") (getHeader req (#"accept-encoding")) = true ∧
   (zlen (rbody resp') < zlen (rbody resp))%Z ∧ decompress (rbody resp') = rbody resp ∧
   rheaders resp' !! (#"Content-Encoding") = Some (#"gzip") ∧
   rheaders resp' !! (#"Content-Length") = Some (to_dec (zlen (rbody resp')))).
Proof.
  unfold postProcessResponse. cbv zeta.
  destruct (_ || _) eqn:E1; [split_and!; eauto|].
  destruct (negb (contains _ _)) eqn:E2; [split_and!; eauto|].
  destruct (negb (shouldCompress _)); [split_and!; eauto|].
  destruct (_ && _) eqn:E3; [|split_and!; eauto]. bool_to_prop.
  cbn [statusCode statusMessage closeConnection deferred rheaders rbody setHeader setContentLength with_body].
  split_and!; try done.
  - intros k Hk. rewrite !lookup_insert_ne; [done|set_solver..].
  - right. split_and!; try done; [by apply Hcodec|..].
    + rewrite lookup_insert_ne by done. apply lookup_insert_eq.
    + rewrite !lookup_insert_ne by done. apply lookup_insert_eq.
Qed.

Definition toy_compress (d : str) : str := if bool_decide (d = #"aaaaaaaa") then #"8a" else [].

Lemma postProcess_transparent_witness :
  let c := enableGzip (@HttpCore_new unit TokenBucketLimiter.t unit) 4 in
  let req := set_header HttpRequest_new (#"accept-encoding") (#"gzip") in
  let resp := setText HttpResponse_new (#"aaaaaaaa") in
  let resp' := postProcessResponse toy_compress c req resp in
  statusCode resp' = statusCode resp ∧ statusMessage resp' = statusMessage resp ∧
  closeConnection resp' = closeConnection resp ∧ deferred resp' = deferred resp ∧
  (∀ k, k ∉ [ #"Content-Length"; #"Content-Encoding"; #"Vary"] → rheaders resp' !! k = rheaders resp !! k) ∧
  (resp' = resp ∨
   gzipEnabled_ c = true ∧ (gzipMinSize_ c <= zlen (rbody resp))%Z ∧
   contains (#"gzip") (getHeader req (#"accept-encoding")) = true ∧
   (zlen (rbody resp') < zlen (rbody resp))%Z ∧ (λ _ : str, #"aaaaaaaa") (rbody resp') = rbody resp ∧
   rheaders resp' !! (#"Content-Encoding") = Some (#"gzip") ∧
   rheaders resp' !! (#"Content-Length") = Some (to_dec (zlen (rbody resp')))).
Proof.
  intros c req resp. apply (postProcess_transparent toy_compress (λ _, #"aaaaaaaa")).
  intros d. unfold toy_compress. case_bool_decide; [by intros|done].
Defined.

(** Rate limiting.  With a rate limiter as first middleware, a request
    its limiter refuses gets a 429 page and nothing else happens: no further
    middleware or handler runs, and the application's state, the metrics and
    the descriptors stay.  And whatever the limiter does with one client, its
    decision for a client at another address is the same as before. *)
Theorem rate_limit_isolated {R L A : Type} `{Limiter L} (regex_match : R → str → bool) (fs : FileSystem)
    (order : gmap str str → list (str * str)) (c : @HttpCore R L A) (k : nat) (ms : list HttpHandler)
    (req : HttpRequest) (resp : HttpResponse) (w : World) (l : L)
    (Hms : middlewares_ c = rate_middleware k :: ms) (Hl : limiters w !! k = Some l) :
  (( lim_allow l (clock w) (client_ip req)).1 = false →
   let '(resp', w') := handleRequest regex_match fs order c req resp w in
   statusCode resp' = TOO_MANY_REQUESTS ∧ rbody resp' = #"Rate limit exceeded" ∧
   rheaders resp' !! (#"Content-Length") = Some (#"19") ∧
   app_state w' = app_state w ∧ metrics w' = metrics w ∧ fd_log w' = fd_log w) ∧
  (∀ now' ip', client_ip req ≠ ip' → ∃ l',
     limiters (rate_middleware k req resp w).2 !! k = Some l' ∧
     (lim_allow l' now' ip').1 = (lim_allow l now' ip').1).
Proof.
  assert (Hk : k < length (limiters w)) by (by eapply lookup_lt_Some).
  split.
  - intros Hno. unfold handleRequest. rewrite Hms. cbn [run_middlewares].
    unfold rate_middleware at 1. rewrite Hl. destruct (lim_allow l _ _) as [ok l'].
    simpl in Hno. subst ok. split_and!; try done. apply lookup_insert_eq.
  - intros now' ip' Hne. unfold rate_middleware. rewrite Hl.
    pose proof (lim_independent l (clock w) now' _ _ Hne) as Hind.
    destruct (lim_allow l (clock w) (client_ip req)) as [ok l'] eqn:El. exists l'.
    cbn [snd] in Hind. split; [|done].
    destruct ok; cbn [snd limiters]; by apply list_lookup_insert_eq.
Qed.

Definition busy_limiter : TokenBucketLimiter.t :=
  (lim_allow (TokenBucketLimiter.new (dbl 1) 1) 0 (#"unknown")).2.

Lemma rate_limit_isolated_witness :
  let c := use (@HttpCore_new unit TokenBucketLimiter.t unit) (rate_middleware 0) in
  let w := mkWorld 0 Metrics_new [busy_limiter] [] tt in
  (( lim_allow busy_limiter (clock w) (client_ip HttpRequest_new)).1 = false →
   let '(resp', w') := handleRequest (λ _ _, true) sample_fs map_to_list c HttpRequest_new HttpResponse_new w in
   statusCode resp' = TOO_MANY_REQUESTS ∧ rbody resp' = #"Rate limit exceeded" ∧
   rheaders resp' !! (#"Content-Length") = Some (#"19") ∧
   app_state w' = app_state w ∧ metrics w' = metrics w ∧ fd_log w' = fd_log w) ∧
  (∀ now' ip', client_ip HttpRequest_new ≠ ip' → ∃ l',
     limiters (rate_middleware 0 HttpRequest_new HttpResponse_new w).2 !! 0 = Some l' ∧
     (lim_allow l' now' ip').1 = (lim_allow busy_limiter now' ip').1).
Proof.
  intros c w.
  exact (rate_limit_isolated (λ _ _, true) sample_fs map_to_list c 0 [] HttpRequest_new HttpResponse_new
           w busy_limiter eq_refl eq_refl).
Defined.
