(* ===== verification/HttpServer.v ===== *)
(** * HttpServer: the message loop of an HTTP connection

    Models [src/http/HttpServer.h].  The calls a message makes on its
    connection are the actions below, in order ([TcpConnection.v] models what
    they do); the connection's input buffer is any [ByteQueue]. *)

From S2P Require Import Prelude Buffer HttpRequest HttpResponse Metrics RateLimiter HttpCore.

(** The calls on [TcpConnectionPtr]. *)
Inductive Action :=
  | Send (data : str)
  | SendIov (slices : list str)
  | SendFile (fd offset size : Z)
  | Shutdown.

(** The bytes the calls of a message put on the connection. *)
Definition act_bytes (a : Action) : str := match a with Send d => d | SendIov l => mjoin l | _ => [] end.
Definition wire_bytes (l : list Action) : str := mjoin (act_bytes <$> l).

(** How the handler of a message ended: the buffer was used up, a request is
    incomplete, the connection is being closed, or the answer is deferred. *)
Inductive Exit := Drained | WaitMore | Closing | IsDeferred.

#[export] Instance Exit_eq_dec : EqDecision Exit.
Proof. solve_decision. Defined.

Section Registration.
Context {R L A : Type} `{Limiter L} (new_limiter : Z → L).
Context (regex_compile : str → option R) (prometheus : Metrics → str).

Local Abbreviation core := (@HttpCore R L A).
Local Abbreviation handler := (@HttpHandler L A).
Local Abbreviation World := (@World L A).

Record HttpServer := mkServer {
  core_ : core;
  started_ : bool;
  idleTimeoutSec_ : double
}.

Definition HttpServer_new : HttpServer := mkServer HttpCore_new false (dbl 60).

Definition with_core (s : HttpServer) (c : core) : HttpServer := mkServer c (started_ s) (idleTimeoutSec_ s).
Definition setIdleTimeout (s : HttpServer) (seconds : double) : HttpServer :=
  mkServer (core_ s) (started_ s) seconds.
Definition start (s : HttpServer) : HttpServer := mkServer (core_ s) true (idleTimeoutSec_ s).
(** Stops serving registrations of a second start; the loop's [quit] is
    scheduled after the given time. *)
Definition shutdown (s : HttpServer) : HttpServer := mkServer (core_ s) false (idleTimeoutSec_ s).

(** Registration is ignored once the server is started; [None] is the
    exception of a bad pattern. *)
Definition addRoute (s : HttpServer) (m : HttpMethod) (path : str) (h : handler) : option HttpServer :=
  if started_ s then Some s else with_core s <$> HttpCore.addRoute regex_compile (core_ s) m path h.
Definition serveStatic (s : HttpServer) (urlPrefix dir : str) : HttpServer :=
  if started_ s then s else with_core s (HttpCore.serveStatic (core_ s) urlPrefix dir).
Definition use (s : HttpServer) (m : handler) : HttpServer :=
  if started_ s then s else with_core s (HttpCore.use (core_ s) m).
Definition useRateLimit (s : HttpServer) (w : World) (maxRequestsPerSec : Z) : HttpServer * World :=
  if started_ s then (s, w)
  else let '(c, w') := HttpCore.useRateLimit new_limiter (core_ s) w maxRequestsPerSec in (with_core s c, w').
Definition enableGzip (s : HttpServer) (minSize : Z) : HttpServer :=
  if started_ s then s else with_core s (HttpCore.enableGzip (core_ s) minSize).
Definition enableCors (s : HttpServer) (origin : str) : HttpServer :=
  if started_ s then s else with_core s (HttpCore.enableCors (core_ s) origin).
Definition enableMetrics (s : HttpServer) (path : str) : option HttpServer :=
  if started_ s then Some s else with_core s <$> HttpCore.enableMetrics regex_compile prometheus (core_ s) path.

End Registration.

(** ** Serving a stream of requests

    The loop on strings, over what an answer is: [respond] gives the answer's
    parts and whether they end the connection, or nothing when the answer is
    deferred. *)

Section Serving.
Context {X W : Type} (decompress : str → str).
Context (respond : HttpRequest → W → option (list X * bool) * W) (bad : list X).

Fixpoint serve_with (fuel : nat) (data : str) (w : W) : list X * Exit * str * W :=
  match fuel with
  | O => ([], Drained, data, w)
  | S f =>
      match data with
      | [] => ([], Drained, data, w)
      | _ =>
          match parseRequest_string decompress data HttpRequest_new with
          | (Incomplete, _, rest) => ([], WaitMore, rest, w)
          | (Error, _, rest) => (bad, Closing, rest, w)
          | (Complete, req, rest) =>
              match respond req w with
              | (None, w1) => ([], IsDeferred, rest, w1)
              | (Some (out, true), w1) => (out, Closing, rest, w1)
              | (Some (out, false), w1) =>
                  let '(outs, e, rest2, w2) := serve_with f rest w1 in (out ++ outs, e, rest2, w2)
              end
          end
      end
  end.

Lemma complete_consumes data r r' rest :
  parseRequest_string decompress data r = (Complete, r', rest) → length rest < length data.
Proof. intros Hc. apply complete_frame in Hc as (h & c & -> & _). len. Qed.

Lemma serve_with_fuel f g data w :
  length data < f → length data < g → serve_with f data w = serve_with g data w.
Proof.
  revert g data w. induction f as [|f IH]; intros g data w Hf Hg; [lia|].
  destruct g as [|g]; [lia|]. cbn [serve_with]. destruct data as [|c data']; [done|].
  set (data := c :: data') in *.
  destruct (parseRequest_string _ data _) as [[[] req] rest] eqn:E; [|done..].
  apply complete_consumes in E.
  destruct (respond req w) as [[[out []]|] w1]; [done| |done].
  rewrite (IH g) by lia. done.
Qed.

Lemma serve_with_drained f data w outs rest w' :
  length data < f → serve_with f data w = (outs, Drained, rest, w') → rest = [].
Proof.
  revert data w outs. induction f as [|f IH]; intros data w outs Hf; [lia|]. cbn [serve_with].
  destruct data as [|c data']; [by intros [= _ <- _]|]. set (data := c :: data') in *.
  destruct (parseRequest_string _ data _) as [[[] req] rest1] eqn:E; [|done..].
  apply complete_consumes in E.
  destruct (respond req w) as [[[out []]|] w1]; [done| |done].
  destruct (serve_with f rest1 w1) as [[[outs1 e1] rest2] w2] eqn:Es. intros [= _ -> -> ->].
  eapply IH; [|exact Es]. lia.
Qed.

Definition serve_whole (data : str) (w : W) := serve_with (S (length data)) data w.

Lemma serve_whole_enough f data w : length data < f → serve_with f data w = serve_whole data w.
Proof. intros. apply serve_with_fuel; lia. Qed.

(** A complete request at the front of the data. *)
Lemma serve_whole_complete data req rest w :
  parseRequest_string decompress data HttpRequest_new = (Complete, req, rest) →
  serve_whole data w
  = match respond req w with
    | (None, w1) => ([], IsDeferred, rest, w1)
    | (Some (out, true), w1) => (out, Closing, rest, w1)
    | (Some (out, false), w1) =>
        let '(outs, e, rest2, w2) := serve_whole rest w1 in (out ++ outs, e, rest2, w2)
    end.
Proof.
  intros E. unfold serve_whole at 1. pose proof (complete_consumes _ _ _ _ E).
  destruct data as [|c data']; [simpl in *; lia|]. cbn [serve_with]. rewrite E.
  destruct (respond req w) as [[[out []]|] w1]; [done| |done].
  by rewrite serve_whole_enough.
Qed.

(** A first part that leaves the connection open, and the rest. *)
Lemma serve_whole_app part1 part2 w w1 outs e rest :
  serve_whole part1 w = (outs, e, rest, w1) → e = Drained ∨ e = WaitMore →
  serve_whole (part1 ++ part2) w
  = (let '(more, e', rest', w2) := serve_whole (rest ++ part2) w1 in (outs ++ more, e', rest', w2)).
Proof.
  intros Hserve Hopen. remember (length part1) as n eqn:Hn. revert part1 w outs Hserve Hn.
  induction n as [n IH] using lt_wf_ind. intros part1 w outs Hserve ->.
  destruct (parseRequest_string decompress part1 HttpRequest_new) as [[res req] rest1] eqn:E.
  destruct (decide (res = Complete)) as [->|Hres].
  - rewrite (serve_whole_complete _ _ _ _ E) in Hserve.
    assert (E' : parseRequest_string decompress (part1 ++ part2) HttpRequest_new = (Complete, req, rest1 ++ part2)).
    { pose proof (complete_frame _ _ _ _ _ E) as (h & c & -> & Hf). rewrite <-!app_assoc. by apply parse_frame. }
    rewrite (serve_whole_complete _ _ _ _ E').
    destruct (respond req w) as [[[out []]|] w']; simplify_eq; [naive_solver| |naive_solver].
    destruct (serve_whole rest1 w') as [[[outs1 e1] rest2] w2] eqn:E1. simplify_eq.
    apply complete_consumes in E. rewrite (IH _ E _ _ _ E1 eq_refl).
    destruct (serve_whole (rest ++ part2) w1) as [[[? ?] ?] ?]. by rewrite app_assoc.
  - assert (outs = [] ∧ rest = part1 ∧ w1 = w) as (-> & -> & ->).
    { unfold serve_whole in Hserve. destruct part1 as [|c p]; cbn [serve_with] in Hserve; [by simplify_eq|].
      rewrite E in Hserve. destruct res; [done| |simplify_eq; naive_solver].
      revert E. unfold parseRequest_string. repeat case_match; intros; simplify_eq; done. }
    by destruct (serve_whole (part1 ++ part2) w) as [[[? ?] ?] ?].
Qed.
(** What holds of every answer holds of all of them: [P] of the calls that
    leave the connection open, [Q] of those that end it. *)
Lemma serve_with_shape (P Q : list X → Prop) f data w :
  P [] → (∀ a b, P a → P b → P (a ++ b)) → (∀ a b, P a → Q b → Q (a ++ b)) → Q bad →
  (∀ req w out w1, respond req w = (Some (out, false), w1) → P out) → (∀ req w out w1, respond req w = (Some (out, true), w1) → Q out) →
  let '(outs, e, _, _) := serve_with f data w in if bool_decide (e = Closing) then Q outs else P outs.
Proof.
  intros H0 HP HQ Hb Hopen Hlast. revert data w. induction f as [|f IH]; intros data w; cbn [serve_with]; [done|].
  destruct data as [|c data']; [done|]. destruct (parseRequest_string _ _ _) as [[[] req] rest]; [|done..].
  destruct (respond req w) as [[[out []]|] w1] eqn:Er; [by eapply Hlast| |done].
  specialize (IH rest w1). destruct (serve_with f rest w1) as [[[outs e] rest2] w2].
  case_bool_decide; [eapply HQ; [by eapply Hopen|done]|eapply HP; [by eapply Hopen|done]].
Qed.
End Serving.

(** ** Connections and messages *)

Section Server.
Context {R L A : Type} `{Limiter L} (regex_match : R → str → bool).
Context (compress decompress : str → str) (fs : FileSystem).
Context (order : gmap str str → list (str * str)).

Local Abbreviation World := (@World L A).
Local Abbreviation HttpServer := (@HttpServer R L A).

(** The timer a new connection gets, and what it does when it fires. *)
Definition onConnection (s : HttpServer) (connected : bool) : option double :=
  if connected && dlt (dbl 0) (idleTimeoutSec_ s) then Some (idleTimeoutSec_ s) else None.
Definition onIdleTimer (alive connected : bool) : list Action :=
  if alive && connected then [Shutdown] else [].

(** The answer to one complete request: the calls it makes and whether they
    end the connection; [None] when the handler deferred the answer. *)
Definition respond (s : HttpServer) (req : HttpRequest) (w : World) : option (list Action * bool) * World :=
  let '(resp0, w1) := handleRequest regex_match fs order (core_ s) req HttpResponse_new w in
  let resp1 := postProcessResponse compress (core_ s) req resp0 in
  if deferred resp1 then (None, w1)
  else
    let resp := set_close resp1 (negb (keepAlive req)) in
    let out :=
      if hasFileBody resp then
        [Send (toHeader order resp); SendFile (bodyFileFd_ resp) 0 (bodyFileSize_ resp)]
      else if canSendIov resp then [SendIov [toHeader order resp; rbody resp]]
      else [Send (toString order resp)] in
    (Some (out ++ (if closeConnection resp then [Shutdown] else []), closeConnection resp), w1).

Definition bad_request_page : str := toString order (set_close (badRequest (#"Bad Request")) true).

Section Loop.
Context {B : Type} `{ByteQueue B}.

(** [while (buf->readableBytes() > 0)]; every turn that goes on has consumed
    at least the blank line, so that the number of bytes is fuel enough. *)
Fixpoint message_loop (fuel : nat) (s : HttpServer) (buf : B) (w : World)
    : list Action * Exit * B * World :=
  match fuel with
  | O => ([], Drained, buf, w)
  | S f =>
      if negb (0 <? bq_readable buf) then ([], Drained, buf, w)
      else match parseRequest decompress buf HttpRequest_new with
      | (Incomplete, _, buf1) => ([], WaitMore, buf1, w)
      | (Error, _, buf1) => ([Send bad_request_page; Shutdown], Closing, buf1, w)
      | (Complete, req, buf1) =>
          match respond s req w with
          | (None, w1) => ([], IsDeferred, buf1, w1)
          | (Some (out, true), w1) => (out, Closing, buf1, w1)
          | (Some (out, false), w1) =>
              let '(outs, e, buf2, w2) := message_loop f s buf1 w1 in (out ++ outs, e, buf2, w2)
          end
      end
  end.

Definition onMessage (s : HttpServer) (buf : B) (w : World) : list Action * Exit * B * World :=
  message_loop (S (bq_readable buf)) s buf w.
End Loop.

(** ** On strings: what the loop does to the bytes *)

Definition serve (fuel : nat) (s : HttpServer) (data : str) (w : World) : list Action * Exit * str * World :=
  serve_with decompress (respond s) [Send bad_request_page; Shutdown] fuel data w.

Definition serve_all (s : HttpServer) (data : str) (w : World) := serve (S (length data)) s data w.

Lemma serve_enough s f data w : length data < f → serve f s data w = serve_all s data w.
Proof. apply serve_whole_enough. Qed.

Lemma message_loop_serve {B : Type} `{ByteQueue B} (s : HttpServer) (f : nat) (buf : B) (w : World) :
  bq_valid buf →
  let '(outs, e, buf', w') := message_loop f s buf w in
  serve f s (bq_contents buf) w = (outs, e, bq_contents buf', w') ∧ bq_valid buf'.
Proof.
  revert buf w. unfold serve. induction f as [|f IH]; intros buf w Hv; [done|]. cbn [message_loop serve_with].
  rewrite (bq_readable_ok buf Hv).
  destruct (bq_contents buf) as [|c data'] eqn:Ed; [simpl; by rewrite Ed|].
  cbn [negb length Nat.ltb Nat.leb]. rewrite <-Ed.
  pose proof (parseRequest_agree decompress buf HttpRequest_new Hv) as Hp.
  destruct (parseRequest decompress buf HttpRequest_new) as [[[] req] buf1];
    destruct Hp as [-> Hv1]; [|done..].
  destruct (respond s req w) as [[[out []]|] w1]; [done| |done].
  specialize (IH buf1 w1 Hv1). destruct (message_loop f s buf1 w1) as [[[outs e] buf2] w2].
  destruct IH as [-> Hv2]. done.
Qed.

(** The handler of a message, on whatever buffer, does to the bytes what
    the loop on strings does, and always ends: the fuel given by the number of
    readable bytes is enough, any more gives the same, and it only says that
    the buffer is drained when it is. *)
Theorem onMessage_serves {B : Type} `{ByteQueue B} (s : HttpServer) (buf : B) (w : World) (more : nat)
    (Hv : bq_valid buf) :
  let '(outs, e, buf', w') := onMessage s buf w in
  serve (S (length (bq_contents buf)) + more) s (bq_contents buf) w = (outs, e, bq_contents buf', w') ∧
  bq_valid buf' ∧ (e = Drained → bq_contents buf' = []).
Proof.
  unfold onMessage. rewrite (bq_readable_ok buf Hv).
  pose proof (message_loop_serve s (S (length (bq_contents buf))) buf w Hv) as Hm.
  destruct (message_loop _ s buf w) as [[[outs e] buf'] w']. destruct Hm as [Hm Hv'].
  rewrite serve_enough by lia. unfold serve_all. split_and!; [done|done|].
  intros ->. eapply serve_with_drained, Hm. lia.
Qed.

(** ** Pipelining *)

(** The answers to a list of requests, one after the other, while each keeps
    the connection open. *)
Fixpoint respond_all (s : HttpServer) (reqs : list HttpRequest) (w : World) : option (list Action) * World :=
  match reqs with
  | [] => (Some [], w)
  | req :: reqs' =>
      match respond s req w with
      | (Some (out, false), w1) =>
          match respond_all s reqs' w1 with
          | (Some outs, w2) => (Some (out ++ outs), w2)
          | (None, w2) => (None, w2)
          end
      | (_, w1) => (None, w1)
      end
  end.

Definition frame_bytes (f : str * str * HttpRequest) : str := f.1.1 ++ crlf2 ++ f.1.2.

(** Pipelining.  Requests sent back to back on a connection are answered
    one by one, in the order in which they were sent and none lost, and the
    bytes after the last complete one are then looked at as if they had come
    alone. *)
Theorem pipelined_in_order (s : HttpServer) (frames : list (str * str * HttpRequest)) (tail : str)
    (w w1 : World) (outs : list Action)
    (Hframes : Forall (λ f, is_frame decompress f.1.1 f.1.2 HttpRequest_new f.2) frames)
    (Hresp : respond_all s (snd <$> frames) w = (Some outs, w1)) :
  serve_all s (mjoin (frame_bytes <$> frames) ++ tail) w
  = (let '(more, e, rest, w2) := serve_all s tail w1 in (outs ++ more, e, rest, w2)).
Proof.
  revert w outs Hresp. induction Hframes as [|[[h c] req] frames Hf Hframes IH]; intros w outs Hresp.
  - simpl in *. simplify_eq. by destruct (serve_all s tail w1) as [[[? ?] ?] ?].
  - cbn [fmap list_fmap respond_all snd] in Hresp.
    destruct (respond s req w) as [[[out []]|] w'] eqn:Er; [done| |done].
    destruct (respond_all s _ w') as [[outs'|] w''] eqn:Ers; [|done]. simplify_eq.
    cbn [fmap list_fmap]. simpl mjoin. unfold frame_bytes at 1. cbn [fst snd].
    rewrite <-!app_assoc. etrans; [eapply serve_whole_complete; by apply parse_frame|].
    cbn [snd]. rewrite Er. specialize (IH _ _ Ers). unfold serve_all, serve in *. unfold serve_whole. rewrite IH.
    destruct (serve_with _ _ _ _ tail w1) as [[[? ?] ?] ?]. by rewrite app_assoc.
Qed.

(** ** Reads *)

Section Reads.
Context {B : Type} `{ByteQueue B}.

Definition waiting (e : Exit) : bool := match e with Drained | WaitMore => true | _ => false end.

(** The message callback runs once for every read, which has put its bytes at
    the end of the input buffer; no result when a read before the last one did
    not leave the connection waiting. *)
Fixpoint onMessages (s : HttpServer) (buf : B) (d : str) (ds : list str) (w : World) : option (list Action * Exit * B * World) :=
  let '(outs, e, buf1, w1) := onMessage s (bq_append buf d) w in
  match ds with
  | [] => Some (outs, e, buf1, w1)
  | d2 :: ds' =>
      if waiting e then
        '(more, e2, buf2, w2) ← onMessages s buf1 d2 ds' w1; Some (outs ++ more, e2, buf2, w2)
      else None
  end.

Lemma onMessage_serve_all (s : HttpServer) (buf : B) (w : World) :
  bq_valid buf →
  let '(outs, e, buf', w') := onMessage s buf w in
  serve_all s (bq_contents buf) w = (outs, e, bq_contents buf', w') ∧ bq_valid buf'.
Proof.
  intros Hv. pose proof (onMessage_serves s buf w 0 Hv) as Hm. destruct (onMessage s buf w) as [[[outs e] buf'] w'].
  rewrite Nat.add_0_r in Hm. by destruct Hm as (Hm & Hv' & _).
Qed.

Lemma onMessages_serve_all (s : HttpServer) (ds : list str) : ∀ (buf : B) (d : str) (w : World) outs e buf' w',
  bq_valid buf → onMessages s buf d ds w = Some (outs, e, buf', w') →
  serve_all s (bq_contents buf ++ mjoin (d :: ds)) w = (outs, e, bq_contents buf', w') ∧ bq_valid buf'.
Proof.
  induction ds as [|d2 ds IH]; intros buf d w outs e buf' w' Hv Hr; cbn [onMessages] in Hr;
    destruct (bq_append_ok buf d Hv) as [Hv1 Hc1]; pose proof (onMessage_serve_all s _ w Hv1) as Hm; rewrite Hc1 in Hm;
    destruct (onMessage s (bq_append buf d) w) as [[[outs1 e1] buf1] w1]; destruct Hm as [Hm Hv2].
  - injection Hr as <- <- <- <-. cbn [mjoin list_join]. by rewrite app_nil_r.
  - destruct (waiting e1) eqn:Ew; [|done]. destruct (onMessages s buf1 d2 ds w1) as [[[[more e2] buf2] w2]|] eqn:E2; [|done].
    cbn in Hr. injection Hr as <- <- <- <-. destruct (IH _ _ _ _ _ _ _ Hv2 E2) as [Hs Hv3]. split; [|done].
    change (mjoin (d :: d2 :: ds)) with (d ++ mjoin (d2 :: ds)). rewrite app_assoc.
    etrans; [apply (serve_whole_app _ _ _ _ _ _ _ _ _ _ Hm); destruct e1; try done; auto|].
    unfold serve_all, serve in Hs. unfold serve_whole. by rewrite Hs.
Qed.

(** C4: where the cut between two reads falls does not matter, as long as the
    connection waits for more in between.  From any buffer, the message callback
    runs once for each of any number of reads, and none but the last is refused,
    ends the connection or has its answer deferred: then one run of the callback
    on all the bytes at once makes the same calls, ends in the same way, leaves
    the same bytes in the buffer and the application in the same state.  (The
    condition is needed: a head over the limit is refused while its end is not
    there and accepted when it comes in one piece,
    [HttpCore.head_limit_depends_on_arrival].) *)
Theorem chunks_irrelevant (s : HttpServer) (buf : B) (d : str) (ds : list str) (w w' : World)
    (outs : list Action) (e : Exit) (buf' : B)
    (Hv : bq_valid buf) (Hreads : onMessages s buf d ds w = Some (outs, e, buf', w')) :
  ∃ whole, onMessage s (bq_append buf (mjoin (d :: ds))) w = (outs, e, whole, w') ∧
    bq_contents whole = bq_contents buf' ∧ bq_valid whole ∧ bq_valid buf'.
Proof.
  destruct (onMessages_serve_all s ds buf d w outs e buf' w' Hv Hreads) as [Hs Hv'].
  destruct (bq_append_ok buf (mjoin (d :: ds)) Hv) as [Hv1 Hc1].
  pose proof (onMessage_serve_all s _ w Hv1) as Hm. rewrite Hc1, Hs in Hm.
  destruct (onMessage s (bq_append buf (mjoin (d :: ds))) w) as [[[outs1 e1] whole] w1].
  destruct Hm as [Hm Hv2]. injection Hm as -> -> Hc ->. by exists whole.
Qed.
End Reads.
End Server.

(** ** A concrete server *)

Definition sample_server : @HttpServer unit TokenBucketLimiter.t unit := mkServer sample_core true (dbl 60).

Definition sample_serve (data : str) (w : World) :=
  serve_all (λ _ _, true) id id sample_fs map_to_list sample_server data w.

Definition get_a : str := #"GET /a HTTP/1.1".
Definition request_a : HttpRequest := (parseHeader get_a HttpRequest_new).2.

Lemma onMessage_serves_witness :
  let buf := append (Buffer_new 64) (get_a ++ crlf2 ++ #"GET") in
  let '(outs, e, buf', w') :=
    onMessage (λ _ _, true) id id sample_fs map_to_list sample_server buf sample_world in
  serve (λ _ _, true) id id sample_fs map_to_list (S (length (bq_contents buf)) + 5) sample_server
    (bq_contents buf) sample_world = (outs, e, bq_contents buf', w') ∧
  bq_valid buf' ∧ (e = Drained → bq_contents buf' = []).
Proof.
  intros buf.
  apply (onMessage_serves (λ _ _, true) id id sample_fs map_to_list sample_server buf sample_world 5).
  exact (proj1 (bq_append_ok (Buffer_new 64) _ (proj1 (bq_empty_ok 64)))).
Defined.

Lemma pipelined_in_order_witness :
  let frames := [(get_a, [], request_a); (get_a, [], request_a)] in
  ∃ outs w1,
    serve_all (λ _ _, true) id id sample_fs map_to_list sample_server
      (mjoin (frame_bytes <$> frames) ++ #"GET") sample_world
    = (let '(more, e, rest, w2) :=
         serve_all (λ _ _, true) id id sample_fs map_to_list sample_server (#"GET") w1 in
       (outs ++ more, e, rest, w2)).
Proof.
  intros frames.
  assert (Hsome : bool_decide (is_Some (respond_all (λ _ _, true) id sample_fs map_to_list sample_server
    [request_a; request_a] sample_world).1) = true) by (vm_compute; reflexivity).
  destruct (respond_all (λ _ _, true) id sample_fs map_to_list sample_server [request_a; request_a]
    sample_world) as [[outs|] w1] eqn:E; [|by apply bool_decide_eq_true in Hsome as [? ?]].
  exists outs, w1.
  refine (pipelined_in_order (λ _ _, true) id id sample_fs map_to_list sample_server frames (#"GET")
           sample_world w1 outs _ E).
  assert (is_frame id get_a [] HttpRequest_new request_a).
  { split; [vm_compute; reflexivity|]. exists request_a. split_and!; [vm_compute; reflexivity..|by vm_compute| ].
    vm_compute. reflexivity. }
  constructor; [done|]. constructor; [done|]. constructor.
Defined.

Definition sample_messages (ds : list str) : option (list Action * Exit * Buffer * World) :=
  match ds with
  | [] => None
  | d :: ds => onMessages (λ _ _, true) id id sample_fs map_to_list sample_server (bq_empty (B := Buffer) 64) d ds sample_world
  end.

(** Three reads, cut in the blank line and in the request line. *)
Definition sample_parts : list str := [get_a ++ crlf; crlf ++ #"GET /"; #"a HTTP/1.1" ++ crlf2 ++ #"GET"].

Lemma chunks_irrelevant_witness :
  ∃ outs buf' w' whole,
    sample_messages sample_parts = Some (outs, WaitMore, buf', w') ∧ bool_decide (outs ≠ []) = true ∧
    onMessage (λ _ _, true) id id sample_fs map_to_list sample_server (bq_append (bq_empty (B := Buffer) 64) (mjoin sample_parts)) sample_world
      = (outs, WaitMore, whole, w') ∧
    bq_contents whole = bq_contents buf'.
Proof.
  assert (He : (λ x : list Action * Exit * Buffer * World, (bool_decide (x.1.1.1 ≠ []), x.1.1.2)) <$> sample_messages sample_parts
    = Some (true, WaitMore)) by (vm_compute; reflexivity).
  destruct (sample_messages sample_parts) as [[[[outs e] buf'] w']|] eqn:E; [|done].
  injection He as Ho ->.
  destruct (chunks_irrelevant (λ _ _, true) id id sample_fs map_to_list sample_server (bq_empty (B := Buffer) 64) (get_a ++ crlf)
    [crlf ++ #"GET /"; #"a HTTP/1.1" ++ crlf2 ++ #"GET"] sample_world w' outs WaitMore buf' (proj1 (bq_empty_ok 64)) E)
    as (whole & H1 & H2 & _).
  exists outs, buf', w', whole. split_and!; done.
Defined.

(** A client that closes: the pipelined request behind it stays unanswered. *)
Example close_stops_pipeline :
  (sample_serve (get_a ++ crlf ++ #"Connection: close" ++ crlf2 ++ get_a ++ crlf2) sample_world).1.1.2 = Closing ∧
  (sample_serve (get_a ++ crlf ++ #"Connection: close" ++ crlf2 ++ get_a ++ crlf2) sample_world).1.2 = get_a ++ crlf2.
Proof. vm_compute. done. Qed.
