(* ===== verification/ConnectionCalls.v ===== *)
(** * ConnectionCalls: what a protocol layer does to its connection

    The layers above [TcpConnection.v] (HTTP, WebSocket) call [send],
    [sendIov], [sendFile] and [shutdown] from their callbacks, in the loop of
    the connection ([Action], [HttpServer.v]).  This file runs such calls on the
    connection, with the answers of the kernel to its writes, and gives what
    the layers need: the bytes of the calls join the stream, and a shutdown
    comes after the last of them. *)

From S2P Require Import Prelude Buffer Poller TcpConnection HttpServer.

Section Connection.
Context {B : Type} `{ByteQueue B}.

Local Abbreviation Conn := (@Conn B).

(** A call of the server, with the answer of the kernel to its write. *)
Definition act (c : Conn) (a : Action) (wr : str → WriteResult) : Conn :=
  match a with
  | Send d => step c (SSend d true wr)
  | SendIov l => step c (SSendIov l true wr)
  | SendFile fd off size => step c (SSendFile fd off (Z.to_nat size) true (λ _, wr []))
  | Shutdown => step c (SShutdown true)
  end.

Fixpoint perform (c : Conn) (acts : list Action) (wrs : nat → str → WriteResult) : Conn :=
  match acts with [] => c | a :: acts => perform (act c a (wrs 0)) acts (λ n, wrs (S n)) end.

(** Callbacks only: nothing that sends or shuts down. *)
Definition silent (f : Functor) : Prop := match f with FWriteComplete | FHighWaterMark _ => True | _ => False end.

(** What a call leaves alone. *)
Definition kept (c c' : Conn) : Prop :=
  state_ c' = state_ c ∧ inputBuffer_ c' = inputBuffer_ c ∧ (Forall silent (pending c) → Forall silent (pending c')).

Lemma kept_trans c1 c2 c3 : kept c1 c2 → kept c2 c3 → kept c1 c3.
Proof. unfold kept. naive_solver congruence. Qed.

Lemma silent_queue c f : silent f → kept c (queueInLoop c f).
Proof. intros Hf. split_and!; [done..|]. intros Hq. apply Forall_app_2; [done|by constructor]. Qed.

Lemma kept_wc c : kept c (queueWriteComplete c).
Proof. unfold queueWriteComplete. case_match; [by apply silent_queue|done]. Qed.

Lemma kept_ensure c : kept c (ensureWriting c).
Proof. unfold ensureWriting. by case_match. Qed.

Lemma kept_direct c d wr : kept c (direct_write c d wr).1.1.
Proof.
  unfold direct_write. destruct (wr d) as [n|e]; [|done]. cbn [fst]. case_match; [|done].
  eapply kept_trans; [|apply kept_wc]. done.
Qed.

Lemma kept_sendInLoop c d wr : kept c (sendInLoop c d wr).
Proof.
  unfold sendInLoop. case_match; [done|]. pose proof (kept_direct c d wr) as Hd.
  destruct (direct_write c d wr) as [[c1 n] f]. cbn [fst] in Hd.
  assert (Hg : ∀ c0 c1 b, kept c0 c1 → kept c0 (ensureWriting (with_output c1 b))).
  { intros c0 c2 b Hk. eapply kept_trans; [exact Hk|]. eapply (kept_trans _ (with_output c2 b)); [done|apply kept_ensure]. }
  destruct (negb _ && _); repeat case_match; simplify_eq; try done; apply Hg;
    first [done|by apply silent_queue|eapply kept_trans; [exact Hd|by apply silent_queue]].
Qed.

Lemma kept_sendIov c l wr : kept c (sendIov c l true wr).
Proof.
  unfold sendIov. case_match; [done|]. cbn [negb]. pose proof (kept_direct c (mjoin (take kMaxIov l)) wr) as Hd.
  destruct (direct_write c _ wr) as [[c1 n] f]. cbn [fst] in Hd.
  assert (Hg : ∀ c0 c1, kept c0 c1 → kept c0 (ensureWriting c1)) by (intros; eapply kept_trans; [eassumption|apply kept_ensure]).
  repeat case_match; try done; apply Hg;
    first [done|by apply (silent_queue (with_output _ _))|eapply kept_trans; [exact Hd|by apply (silent_queue (with_output _ _))]].
Qed.

Lemma input_sendFile c fd off n il sf : inputBuffer_ (sendFile c fd off n il sf) = inputBuffer_ c.
Proof.
  unfold sendFile, drainPendingFiles, queueWriteComplete, ensureWriting. destruct (_ || _); [by case_match|].
  destruct (negb il); [done|]. destruct (_ || _); [by case_match|]. destruct (drain _ sf 0) as [[fs es] b]. by repeat case_match.
Qed.

Lemma input_handleWrite c wr sf : inputBuffer_ (handleWrite c wr sf) = inputBuffer_ c.
Proof.
  unfold handleWrite, drainPendingFiles, queueWriteComplete, shutdownInLoop. case_match; [done|].
  destruct (0 <? _).
  - destruct (wr _) as [[|m]|e]; [done| |done]. case_match; [done|]. destruct (drain _ sf 0) as [[fs es] b]. by repeat case_match.
  - destruct (drain _ sf 0) as [[fs es] b]. by repeat case_match.
Qed.

(** Nothing but reading touches the input buffer. *)
Lemma input_step c s : (∀ r, s ≠ SHandleRead r) → inputBuffer_ (step c s) = inputBuffer_ c.
Proof.
  intros Hs. destruct s as [m il wr|l il wr|fd off n il sf|il|wr sf|wr sf|r| |]; cbn [step].
  - unfold send. case_match; [|done]. destruct il; [apply kept_sendInLoop|done].
  - destruct il; [apply kept_sendIov|]. unfold sendIov. by repeat case_match.
  - apply input_sendFile.
  - unfold TcpConnection.shutdown, shutdownInLoop. by repeat case_match.
  - destruct (pending c) as [|f q]; [done|]. destruct f; cbn [run_functor]; try done.
    + apply (kept_sendInLoop (set_pending c q)).
    + apply (input_sendFile (set_pending c q)).
    + unfold shutdownInLoop. by case_match.
  - apply input_handleWrite.
  - by destruct (Hs r).
  - done.
  - unfold connectDestroyed. by case_match.
Qed.

Lemma input_perform acts : ∀ c wrs, inputBuffer_ (perform c acts wrs) = inputBuffer_ c.
Proof.
  induction acts as [|a acts IH]; intros c wrs; cbn [perform]; [done|]. rewrite IH. by destruct a; apply input_step.
Qed.

(** ** What holds between the calls *)

(** No file is queued, write interest is on only while there is something to
    write, and a connection that is closing is waiting for that or half-closed. *)
Record between (c : Conn) : Prop := {
  bt_valid : valid c;
  bt_interest : interest_ok c;
  bt_nofiles : no_files c;
  bt_silent : Forall silent (pending c);
  bt_writing : isWriting (channel_ c) = true → bq_contents (outputBuffer_ c) ≠ [];
  bt_closing : state_ c = kDisconnecting → isWriting (channel_ c) = true ∨ EShutdownWrite ∈ log c
}.

Lemma ensure_nonempty (c : Conn) : bq_contents (outputBuffer_ c) ≠ [] →
  isWriting (channel_ (ensureWriting c)) = true → bq_contents (outputBuffer_ (ensureWriting c)) ≠ [].
Proof. intros Hc _. unfold ensureWriting. by case_match. Qed.

Lemma output_appended (b : B) (d : str) n : bq_valid b → n < length d → bq_contents (bq_append b (drop n d)) ≠ [].
Proof. intros Hb Hn E. destruct (bq_append_ok b (drop n d) Hb) as [_ E2]. rewrite E2 in E. apply app_eq_nil in E as [_ E]. apply (f_equal length) in E. revert E. len. Qed.

Lemma direct_same (c : Conn) d wr : 
  channel_ (direct_write c d wr).1.1 = channel_ c ∧ outputBuffer_ (direct_write c d wr).1.1 = outputBuffer_ c.
Proof. unfold direct_write, queueWriteComplete. destruct (wr d); [|done]. cbn [fst]. repeat case_match; done. Qed.

Lemma queued_same (c : Conn) (b : bool) f : @outputBuffer_ B (if b then queueInLoop c f else c) = outputBuffer_ c ∧ channel_ (if b then queueInLoop c f else c) = channel_ c.
Proof. by destruct b. Qed.

Lemma writing_sendInLoop (c : Conn) d wr : valid c → (isWriting (channel_ c) = true → bq_contents (outputBuffer_ c) ≠ []) →
  isWriting (channel_ (sendInLoop c d wr)) = true → bq_contents (outputBuffer_ (sendInLoop c d wr)) ≠ [].
Proof.
  intros [_ Hv] Hw. unfold sendInLoop. case_match; [done|]. pose proof (direct_same c d wr) as [E1 E2].
  destruct (direct_write c d wr) as [[c1 n] f]. cbn [fst] in E1, E2.
  destruct (negb (isWriting _) && _).
  - destruct (negb f && (0 <? length d - n)) eqn:E; [|by rewrite E1, E2]. apply andb_true_iff in E as [_ E]. apply Nat.ltb_lt in E.
    apply ensure_nonempty. cbn [with_output outputBuffer_].
    rewrite (proj1 (queued_same c1 _ (FHighWaterMark _))), E2. apply output_appended; [done|lia].
  - destruct (negb false && (0 <? length d - 0)) eqn:E; [|done]. apply andb_true_iff in E as [_ E]. apply Nat.ltb_lt in E.
    apply ensure_nonempty. cbn [with_output outputBuffer_].
    rewrite (proj1 (queued_same c _ (FHighWaterMark _))). apply output_appended; [done|lia].
Qed.

Lemma writing_sendIov (c : Conn) l wr : valid c → length l ≤ kMaxIov → (isWriting (channel_ c) = true → bq_contents (outputBuffer_ c) ≠ []) →
  isWriting (channel_ (sendIov c l true wr)) = true → bq_contents (outputBuffer_ (sendIov c l true wr)) ≠ [].
Proof.
  intros [_ Hv] Hl Hw. unfold sendIov. case_match; [done|]. cbn [negb]. pose proof (direct_same c (mjoin (take kMaxIov l)) wr) as [E1 E2].
  rewrite take_ge in * by done. destruct (isWriting (channel_ c) || _) eqn:Ew.
  - apply ensure_nonempty. rewrite (proj1 (queued_same _ _ (FHighWaterMark _))). cbn [with_output outputBuffer_].
    destruct (append_all (outputBuffer_ c) l Hv) as [_ ->]. intros E. apply app_eq_nil in E as [E _].
    apply orb_true_iff in Ew as [Ew|Ew]; [by apply Hw|]. apply Nat.ltb_lt in Ew. rewrite bq_readable_ok, E in Ew by done. simpl in Ew. lia.
  - destruct (direct_write c (mjoin l) wr) as [[c1 n] f]. cbn [fst] in E1, E2. cbv zeta.
    destruct (negb f && _) eqn:E; [|by rewrite E1, E2]. apply andb_true_iff in E as [_ E]. apply Nat.ltb_lt in E.
    apply ensure_nonempty. rewrite (proj1 (queued_same _ _ (FHighWaterMark _))). cbn [with_output outputBuffer_].
    destruct (append_tail_ok (outputBuffer_ c1) l n) as [_ ->]; [by rewrite E2|]. intros E3. apply app_eq_nil in E3 as [_ E3].
    apply (f_equal length) in E3. rewrite length_drop in E3. simpl in E3. lia.
Qed.

(** ** The calls of an answer *)

(** A kernel that takes a part of each write, and no reset. *)
Definition takes_part (wr : str → WriteResult) : Prop := write_ok wr ∧ no_reset wr.

(** The calls that only send bytes: no file, and few slices. *)
Definition sends (a : Action) : Prop := match a with Send _ => True | SendIov l => length l ≤ kMaxIov | _ => False end.

Lemma act_sends c a wr : between c → state_ c = kConnected → sends a → takes_part wr →
  between (act c a wr) ∧ kept c (act c a wr) ∧ stream (act c a wr) = stream c ++ act_bytes a.
Proof.
  intros Hc Hst Ha Hwr. destruct Hwr as [Hwr Hnr].
  assert (Hstep : ∀ s, stream_step s → act_bytes a = delivered c s → act c a wr = step c s →
    kept c (step c s) → (isWriting (channel_ (step c s)) = true → bq_contents (outputBuffer_ (step c s)) ≠ []) →
    between (act c a wr) ∧ kept c (act c a wr) ∧ stream (act c a wr) = stream c ++ act_bytes a).
  { intros s Hs Ed -> Hk Hw. destruct (step_stream c s (bt_valid _ Hc) (bt_nofiles _ Hc) Hs) as (E1 & E2 & E3).
    split_and!; [|done|by rewrite Ed]. destruct Hk as (K1 & K2 & K3). constructor; [done|by apply step_announce; apply Hc|done|by apply K3, Hc|done|]. congruence. }
  destruct a as [d|l|fd off n|]; try done.
  - apply (Hstep (SSend d true wr)); [done|cbn; by rewrite bool_decide_true|done|..]; cbn [step]; unfold send; rewrite bool_decide_true by done.
    + apply kept_sendInLoop.
    + apply writing_sendInLoop; [apply Hc|apply (bt_writing _ Hc)].
  - apply (Hstep (SSendIov l true wr)); [done|cbn; by rewrite bool_decide_true|done|..]; cbn [step].
    + apply kept_sendIov.
    + apply writing_sendIov; [apply Hc|done|apply (bt_writing _ Hc)].
Qed.

Lemma perform_sends acts : ∀ c wrs, between c → state_ c = kConnected → Forall sends acts → (∀ k, takes_part (wrs k)) →
  between (perform c acts wrs) ∧ kept c (perform c acts wrs) ∧ stream (perform c acts wrs) = stream c ++ wire_bytes acts.
Proof.
  induction acts as [|a acts IH]; intros c wrs Hc Hst Ha Hw; cbn [perform]; [by rewrite app_nil_r|]. apply Forall_cons in Ha as [Ha Has].
  destruct (act_sends c a (wrs 0) Hc Hst Ha (Hw 0)) as (H1 & K1 & E1).
  destruct (IH (act c a (wrs 0)) (λ n, wrs (S n)) H1) as (H2 & K2 & E2); [destruct K1; congruence|done|intros; apply Hw|].
  split_and!; [done|by eapply kept_trans|]. rewrite E2, E1, <-app_assoc. done.
Qed.

Lemma perform_app acts acts' : ∀ c wrs, perform c (acts ++ acts') wrs = perform (perform c acts wrs) acts' (λ n, wrs (length acts + n)).
Proof. induction acts as [|a acts IH]; intros c wrs; cbn; [done|]. by rewrite IH. Qed.

(** The half-close at the end of the last answer. *)
Lemma shutdown_between c : between c → state_ c = kConnected →
  between (step c (SShutdown true)) ∧ state_ (step c (SShutdown true)) = kDisconnecting ∧
  inputBuffer_ (step c (SShutdown true)) = inputBuffer_ c ∧ stream (step c (SShutdown true)) = stream c.
Proof.
  intros Hc Hst. destruct (step_stream c (SShutdown true) (bt_valid _ Hc) (bt_nofiles _ Hc) I) as (E1 & E2 & E3).
  destruct (step_announce c (SShutdown true) (bt_valid _ Hc) (bt_interest _ Hc)) as [Ei _]. rewrite app_nil_r in E1.
  assert (Es : step c (SShutdown true) = shutdownInLoop (setState c kDisconnecting)) by (cbn [step]; unfold TcpConnection.shutdown; by rewrite bool_decide_true).
  rewrite Es in *. unfold shutdownInLoop in *. cbn [setState channel_] in *.
  destruct (isWriting (channel_ c)) eqn:Ew; split_and!; try done; destruct Hc as [_ _ _ Hq Hw _]; constructor; cbn in *; try done; auto.
  intros _. right. apply elem_of_app. right. by apply list_elem_of_singleton.
Qed.

(** ** Write events *)

Lemma handleWrite_between c wr sf : between c → state_ c ≠ kDisconnected → takes_part wr →
  between (handleWrite c wr sf) ∧ kept c (handleWrite c wr sf) ∧ stream (handleWrite c wr sf) = stream c.
Proof.
  intros Hc Hst [Hwr Hnr]. destruct (handleWrite_stream c wr sf (bt_valid _ Hc) Hwr (proj1 (bt_nofiles _ Hc))) as [Es Ev].
  pose proof (nf_handleWrite c wr sf (bt_nofiles _ Hc)) as Hnf.
  destruct (step_announce c (SHandleWrite wr sf) (bt_valid _ Hc) (bt_interest _ Hc)) as [Ei _]. cbn [step] in Ei.
  assert (Hk : kept c (handleWrite c wr sf) ∧
    (isWriting (channel_ (handleWrite c wr sf)) = true → bq_contents (outputBuffer_ (handleWrite c wr sf)) ≠ []) ∧
    (state_ c = kDisconnecting → isWriting (channel_ (handleWrite c wr sf)) = true ∨ EShutdownWrite ∈ log (handleWrite c wr sf))).
  2: { destruct Hk as (K & W & D). split_and!; [|done|done]. constructor; [done|done|done| |done|].
    - destruct K as (_ & _ & K). apply K, Hc.
    - destruct K as (K & _). rewrite K. done. }
  clear Es Ev Hnf Ei. unfold handleWrite. destruct (isWriting (channel_ c)) eqn:Ew; cbn [negb].
  2: { split_and!; [done|by rewrite Ew|apply Hc]. }
  assert (Hfin : ∀ c1 : Conn, no_files c1 → state_ c1 = state_ c → inputBuffer_ c1 = inputBuffer_ c → pending c1 = pending c →
    let '(c2, still) := drainPendingFiles c1 sf in
    let c3 := if still then c2 else
      let c4 := queueWriteComplete (update_channel disableWriting c2) in
      if bool_decide (state_ c4 = kDisconnecting) then shutdownInLoop c4 else c4 in
    kept c c3 ∧ isWriting (channel_ c3) = false ∧ (state_ c = kDisconnecting → EShutdownWrite ∈ log c3)).
  { intros c1 Hn1 S1 I1 P1. rewrite nf_finish by done. set (c4 := queueWriteComplete _).
    assert (H4 : state_ c4 = state_ c ∧ inputBuffer_ c4 = inputBuffer_ c ∧ isWriting (channel_ c4) = false ∧ (Forall silent (pending c) → Forall silent (pending c4))).
    { unfold c4, queueWriteComplete. case_match; cbn; rewrite ?S1, ?I1, ?P1, ?isWriting_disable; split_and!; try done.
      intros Hq. apply Forall_app_2; [done|by repeat constructor]. }
    destruct H4 as (S4 & I4 & W4 & Q4). unfold shutdownInLoop. rewrite W4. case_bool_decide as Hd.
    - split_and!; [by split_and!|done|]. intros _. cbn. apply elem_of_app. right. by apply list_elem_of_singleton.
    - split_and!; [by split_and!|done|]. congruence. }
  destruct (0 <? bq_readable (outputBuffer_ c)) eqn:E0.
  - destruct (wr _) as [[|m]|e] eqn:Er.
    1,3: split_and!; [done|intros _; by apply Hc|intros _; by left].
    set (c1 := with_output _ _). destruct (0 <? bq_readable (outputBuffer_ c1)) eqn:E1.
    + split_and!; [done| |intros _; by left]. intros _ E. apply Nat.ltb_lt in E1. rewrite bq_readable_ok, E in E1; [simpl in E1; lia|].
      apply bq_retrieve_ok, Hc.
    + specialize (Hfin c1 (bt_nofiles _ Hc) eq_refl eq_refl eq_refl). destruct (drainPendingFiles c1 sf) as [c2 still].
      destruct Hfin as (K & W & D). cbv zeta in *. split_and!; [exact K|intros HW; by rewrite W in HW|auto].
  - specialize (Hfin c (bt_nofiles _ Hc) eq_refl eq_refl eq_refl). destruct (drainPendingFiles c sf) as [c2 still].
    destruct Hfin as (K & W & D). cbv zeta in *. split_and!; [exact K|intros HW; by rewrite W in HW|auto].
Qed.
(** ** Read events, and write events that take something *)

Lemma handleRead_data c d : bq_valid (inputBuffer_ c) → d ≠ [] →
  bq_valid (inputBuffer_ (handleRead c (RdData d))) ∧ bq_contents (inputBuffer_ (handleRead c (RdData d))) = bq_contents (inputBuffer_ c) ++ d ∧
  (between c → between (handleRead c (RdData d)) ∧ stream (handleRead c (RdData d)) = stream c ∧ state_ (handleRead c (RdData d)) = state_ c).
Proof.
  intros Hv Hd. unfold handleRead. destruct (bq_readFd_data (inputBuffer_ c) d Hv) as (b & -> & Hb & Ec).
  assert (Hl : (0 <? zlen d)%Z = true) by (apply Z.ltb_lt; destruct d; [done|len]). rewrite Hl. cbn [with_input emit inputBuffer_ state_].
  split_and!; [done|done|]. intros [[_ Ho] Hi Hn Hq Hw Hcl]. split_and!; [|by rewrite stream_emit|done].
  constructor; cbn; try done. intros Hst. destruct (Hcl Hst) as [|Hin]; [by left|right]. apply elem_of_app. by left.
Qed.

(** A kernel that takes at least a byte. *)
Definition takes_some (wr : str → WriteResult) : Prop := ∀ d, d ≠ [] → ∃ m, wr d = WrCount (S m).

Lemma handleWrite_progress c wr sf : between c → state_ c ≠ kDisconnected → takes_some wr → bq_contents (outputBuffer_ c) ≠ [] →
  length (bq_contents (outputBuffer_ (handleWrite c wr sf))) < length (bq_contents (outputBuffer_ c)).
Proof.
  intros Hb Hst Hwr Ho. assert (Hw : isWriting (channel_ c) = true).
  { destruct (bt_interest _ Hb) as [|[|[? _]]]; done. }
  destruct (bt_valid _ Hb) as [_ Hv]. unfold handleWrite. rewrite Hw. cbn [negb].
  assert (Hl : 0 < length (bq_contents (outputBuffer_ c))) by (destruct (bq_contents (outputBuffer_ c)); [done|simpl; lia]).
  rewrite (bq_readable_ok _ Hv), (proj2 (Nat.ltb_lt _ _)) by done. destruct (Hwr _ Ho) as [m ->].
  destruct (bq_retrieve_ok (outputBuffer_ c) (S m) Hv) as [_ E].
  assert (Hd : length (bq_contents (bq_retrieve (outputBuffer_ c) (S m))) < length (bq_contents (outputBuffer_ c))) by (rewrite E, length_drop; lia).
  set (c1 := with_output _ _). assert (Hn1 : no_files c1) by exact (bt_nofiles _ Hb).
  destruct (0 <? bq_readable (outputBuffer_ c1)); [exact Hd|]. rewrite nf_finish by done. unfold queueWriteComplete, shutdownInLoop.
  repeat case_match; exact Hd.
Qed.

Lemma handleWrite_empty c wr sf : between c → bq_contents (outputBuffer_ c) = [] → bq_contents (outputBuffer_ (handleWrite c wr sf)) = [].
Proof.
  intros Hb Ho. destruct (bt_valid _ Hb) as [_ Hv]. unfold handleWrite. case_match; [done|]. rewrite (bq_readable_ok _ Hv), Ho. cbn [length Nat.ltb Nat.leb].
  rewrite nf_finish by exact (bt_nofiles _ Hb). unfold queueWriteComplete, shutdownInLoop. repeat case_match; exact Ho.
Qed.

(** Write events, one after the other. *)
Definition write_all (c : Conn) (wrs : list (str → WriteResult)) : Conn :=
  foldl (λ c wr, step c (SHandleWrite wr (λ _, wr []))) c wrs.

(** As many write events as there are bytes left write them all. *)
Lemma write_all_drains wrs : ∀ c,
  between c → state_ c ≠ kDisconnected → Forall (λ wr, takes_part wr ∧ takes_some wr) wrs →
  length (bq_contents (outputBuffer_ c)) ≤ length wrs →
  let c' := write_all c wrs in between c' ∧ kept c c' ∧ stream c' = stream c ∧ bq_contents (outputBuffer_ c') = [].
Proof.
  induction wrs as [|wr wrs IH]; intros c Hb Hst Hw Hl.
  - split_and!; [done..|]. cbn. destruct (bq_contents (outputBuffer_ c)); [done|simpl in Hl; lia].
  - apply Forall_cons in Hw as [[Hw1 Hw2] Hws]. cbn [write_all foldl]. set (c1 := step c _).
    destruct (handleWrite_between c wr (λ _, wr []) Hb Hst Hw1) as (B1 & K1 & E1).
    assert (Hl1 : length (bq_contents (outputBuffer_ c1)) ≤ length wrs).
    { cbn in Hl. destruct (decide (bq_contents (outputBuffer_ c) = [])) as [E|E].
      - unfold c1. cbn [step]. rewrite (handleWrite_empty c wr _ Hb E). simpl. lia.
      - pose proof (handleWrite_progress c wr (λ _, wr []) Hb Hst Hw2 E). unfold c1. cbn [step]. lia. }
    destruct (IH c1 B1) as (B2 & K2 & E2 & O2); [destruct K1 as (K & _); unfold c1; cbn [step]; congruence|done|done|].
    split_and!; [done|by eapply kept_trans| |done]. change (stream (write_all c1 wrs) = stream c). by rewrite E2.
Qed.

(** Once all is written, the wire has the stream, and the write side of a
    connection that is closing is shut down. *)
Lemma between_drained c :
  between c → bq_contents (outputBuffer_ c) = [] →
  wire (log c) = stream c ∧ (state_ c = kDisconnecting → EShutdownWrite ∈ log c).
Proof.
  intros Hb Ho. split; [unfold stream; by rewrite Ho, app_nil_r|]. intros Hc.
  destruct (bt_closing _ Hb Hc) as [Hw|]; [|done]. by destruct (bt_writing _ Hb Hw).
Qed.
End Connection.

Lemma wire_bytes_app a b : wire_bytes (a ++ b) = wire_bytes a ++ wire_bytes b.
Proof. unfold wire_bytes. by rewrite fmap_app, join_app. Qed.
