(* ===== verification/HttpConnection.v ===== *)
(** * HttpConnection: an HTTP server on a TCP connection, end to end

    Composes [HttpServer.v] with [TcpConnection.v]: the connection reads, its
    message callback is [HttpServer::onMessage], and the calls this makes on
    the connection ([ConnectionCalls.v]) are made while the kernel takes as
    much of each write as it likes. *)

From S2P Require Import Prelude Buffer Poller TcpConnection HttpRequest HttpResponse Metrics RateLimiter HttpCore HttpServer ConnectionCalls.

(** ** The server on the connection *)

(** A call that does not send a file. *)
Definition no_file (a : Action) : Prop := match a with SendFile _ _ _ => False | _ => True end.

Section Server.
Context {R L A : Type} `{Limiter L} (regex_match : R → str → bool).
Context (compress decompress : str → str) (fs : FileSystem).
Context (order : gmap str str → list (str * str)).
Context {B : Type} `{ByteQueue B}.
Context (s : @HttpServer R L A).

Local Abbreviation World := (@World L A).
Local Abbreviation serve_all := (serve_all regex_match compress decompress fs order s).

(** The connection, what the handlers work on, and how the last message ended. *)
Record State := mkState { conn : Conn B; wd : World; ended : Exit }.

(** What the loop reports: bytes that came, with what the kernel will take of
    each write of the answers; room for writing; or a queued functor is run. *)
Inductive Event :=
  | Readable (d : str) (wrs : nat → str → WriteResult)
  | Writable (wr : str → WriteResult)
  | Queued (wr : str → WriteResult).

(** Bytes are looked at as long as no answer ended the connection. *)
Definition open (e : Exit) : bool := bool_decide (e = Drained) || bool_decide (e = WaitMore).

(** [TcpConnection::handleRead] with [HttpServer::onMessage] as the message
    callback; nothing the server calls touches the input buffer. *)
Definition on_readable (st : State) (d : str) (wrs : nat → str → WriteResult) : State :=
  let c := handleRead (conn st) (RdData d) in
  let '(acts, e, buf, w) := onMessage regex_match compress decompress fs order s (inputBuffer_ c) (wd st) in
  mkState (perform (with_input c buf) acts wrs) w e.

Definition play (st : State) (e : Event) : option State :=
  match e with
  | Readable [] _ => None
  | Readable d wrs => if open (ended st) then Some (on_readable st d wrs) else None
  | Writable wr => Some (mkState (step (conn st) (SHandleWrite wr (λ _, wr []))) (wd st) (ended st))
  | Queued wr => Some (mkState (step (conn st) (SFunctor wr (λ _, wr []))) (wd st) (ended st))
  end.

Fixpoint plays (st : State) (es : list Event) : option State :=
  match es with [] => Some st | e :: es => st1 ← play st e; plays st1 es end.

(** All that came. *)
Definition received (es : list Event) : str := mjoin (omap (λ e, match e with Readable d _ => Some d | _ => None end) es).

Definition event_ok (e : Event) : Prop :=
  match e with Readable _ wrs => ∀ k, takes_part (wrs k) | Writable wr | Queued wr => takes_part wr end.

Definition start_state (sockfd : Z) (wc hw : bool) (w : World) : State :=
  mkState (connectEstablished (TcpConnection_new sockfd wc hw)) w Drained.

(** ** The calls of the answers *)

Lemma respond_calls req w out b w1 : respond regex_match compress fs order s req w = (Some (out, b), w1) → Forall no_file out →
  if b then ∃ p, out = p ++ [Shutdown] ∧ Forall sends p else Forall sends out.
Proof.
  unfold respond. destruct (handleRequest _ _ _ _ _ _ _) as [resp0 w0]. destruct (deferred _); [done|].
  set (resp := set_close _ _). set (calls := if hasFileBody resp then _ else _). intros E Hn. injection E as <- <- <-.
  apply Forall_app in Hn as [Hn _]. assert (Hs : Forall sends calls).
  { unfold calls in *. destruct (hasFileBody resp); [apply Forall_cons in Hn as [_ Hn]; apply Forall_cons in Hn as [[] _]|].
    destruct (canSendIov resp); repeat constructor; simpl; unfold kMaxIov; lia. }
  destruct (negb (keepAlive req)); [eauto|by rewrite app_nil_r].
Qed.

Lemma serve_calls data w acts e rest w' : serve_all data w = (acts, e, rest, w') → Forall no_file acts →
  if bool_decide (e = Closing) then ∃ p, acts = p ++ [Shutdown] ∧ Forall sends p else Forall sends acts.
Proof.
  intros E Hn. pose proof (serve_with_shape decompress (respond regex_match compress fs order s) [Send (bad_request_page order); Shutdown]
    (λ l, Forall no_file l → Forall sends l) (λ l, Forall no_file l → ∃ p, l = p ++ [Shutdown] ∧ Forall sends p) (S (length data)) data w) as Hs.
  unfold serve_all, serve in E. rewrite E in Hs.
  enough (H' : if bool_decide (e = Closing) then Forall no_file acts → ∃ p, acts = p ++ [Shutdown] ∧ Forall sends p else Forall no_file acts → Forall sends acts)
    by (case_bool_decide; auto).
  apply Hs.
  - by constructor.
  - intros a b Ha Hb [H1 H2]%Forall_app. apply Forall_app. auto.
  - intros a b Ha Hb [H1 H2]%Forall_app. destruct (Hb H2) as (p & -> & Hp). exists (a ++ p). rewrite app_assoc. split; [done|apply Forall_app; auto].
  - intros _. exists [Send (bad_request_page order)]. split; [done|by repeat constructor].
  - intros req w1 out w2 Er Hf. exact (respond_calls _ _ _ _ _ Er Hf).
  - intros req w1 out w2 Er Hf. exact (respond_calls _ _ _ _ _ Er Hf).
Qed.

(** ** The invariant *)

(** What came is what the server has served: its calls, the rest it waits with,
    and the world; and the bytes of the calls are on the wire or in the buffer. *)
Definition in_step (w0 : World) (data : str) (acts : list Action) (st : State) : Prop :=
  bq_valid (inputBuffer_ (conn st)) ∧
  serve_all data w0 = (acts, ended st, bq_contents (inputBuffer_ (conn st)), wd st) ∧
  (Forall no_file acts → between (conn st) ∧ stream (conn st) = wire_bytes acts ∧
     state_ (conn st) = if bool_decide (ended st = Closing) then kDisconnecting else kConnected).

Lemma read_in_step w0 data acts st d wrs : in_step w0 data acts st → d ≠ [] → open (ended st) = true → (∀ k, takes_part (wrs k)) →
  ∃ more, in_step w0 (data ++ d) (acts ++ more) (on_readable st d wrs).
Proof.
  intros (Hv & Hs & Hp) Hd Ho Hw. destruct (handleRead_data (conn st) d Hv Hd) as (Hv1 & Hc1 & Hb1). unfold on_readable.
  pose proof (onMessage_serves regex_match compress decompress fs order s (inputBuffer_ (handleRead (conn st) (RdData d))) (wd st) 0 Hv1) as Hm.
  destruct (onMessage _ _ _ _ _ _ _ _) as [[[more e] buf] w1]. destruct Hm as (Hm & Hvb & _). rewrite Nat.add_0_r, Hc1 in Hm.
  change (serve_all (bq_contents (inputBuffer_ (conn st)) ++ d) (wd st) = (more, e, bq_contents buf, w1)) in Hm.
  assert (Hopen : ended st = Drained ∨ ended st = WaitMore) by (apply orb_true_iff in Ho as [Ho|Ho]; apply bool_decide_eq_true in Ho; auto).
  exists more. unfold in_step. cbn [conn ended wd]. rewrite input_perform. cbn [with_input inputBuffer_]. split_and!; [done| |].
  - etrans; [exact (serve_whole_app _ _ _ data d w0 (wd st) acts (ended st) _ Hs Hopen)|]. unfold serve_all, serve in Hm. unfold serve_whole. by rewrite Hm.
  - intros [Hn1 Hn2]%Forall_app. destruct (Hp Hn1) as (Hbt & Est & Estate).
    rewrite bool_decide_false in Estate by (destruct Hopen; congruence). destruct (Hb1 Hbt) as (Hbt1 & Est1 & Estate1).
    set (c1 := with_input _ buf). assert (Hbc : between c1) by (destruct Hbt1 as [[_ Hvo] ? ? ? ? ?]; by constructor).
    assert (Ec1 : stream c1 = wire_bytes acts) by (rewrite <-Est, <-Est1; done). assert (Es1 : state_ c1 = kConnected) by (rewrite <-Estate, <-Estate1; done).
    pose proof (serve_calls _ _ _ _ _ _ Hm Hn2) as Hcalls. case_bool_decide as He.
    + destruct Hcalls as (p & -> & Hsp). rewrite perform_app. destruct (perform_sends p c1 wrs Hbc Es1 Hsp Hw) as (B1 & (K1 & _) & E1).
      cbn [perform act]. destruct (shutdown_between (perform c1 p wrs) B1) as (B2 & S2 & _ & E2); [congruence|].
      split_and!; [done| |done]. rewrite E2, E1, Ec1, !wire_bytes_app. cbn. by rewrite app_nil_r.
    + destruct (perform_sends more c1 wrs Hbc Es1 Hcalls Hw) as (B1 & (K1 & _) & E1). split_and!; [done| |congruence].
      by rewrite E1, Ec1, wire_bytes_app.
Qed.

Lemma play_in_step w0 data acts st e st' : in_step w0 data acts st → event_ok e → play st e = Some st' →
  ∃ more, in_step w0 (data ++ received [e]) (acts ++ more) st'.
Proof.
  intros Hin He Hp. destruct e as [d wrs|wr|wr]; cbn [play event_ok] in *.
  - destruct d as [|x d]; [done|]. destruct (open (ended st)) eqn:Ho; [|done]. injection Hp as <-.
    change (received [Readable (x :: d) wrs]) with ((x :: d) ++ []). rewrite app_nil_r. by apply read_in_step.
  - apply (inj Some) in Hp. subst st'. exists []. change (received [Writable wr]) with (@nil ascii). rewrite !app_nil_r. destruct Hin as (Hv & Hs & Hi).
    unfold in_step. cbn [conn ended wd]. rewrite input_step by done. split_and!; [done|done|]. intros Hn. destruct (Hi Hn) as (Hb & Es & Est).
    destruct (handleWrite_between (conn st) wr (λ _, wr []) Hb) as (B1 & (K1 & _) & E1); [rewrite Est; by case_match|done|].
    cbn [step]. split_and!; [done|congruence|congruence].
  - apply (inj Some) in Hp. subst st'. exists []. change (received [Queued wr]) with (@nil ascii). rewrite !app_nil_r. destruct Hin as (Hv & Hs & Hi).
    unfold in_step. cbn [conn ended wd]. rewrite input_step by done. split_and!; [done|done|]. intros Hn. destruct (Hi Hn) as (Hb & Es & Est).
    cbn [step]. destruct (pending (conn st)) as [|f q] eqn:Eq; [done|].
    assert (Hf : silent f ∧ Forall silent q) by (pose proof (bt_silent _ Hb) as Hq; rewrite Eq in Hq; by apply Forall_cons in Hq).
    assert (Er : run_functor (set_pending (conn st) q) f wr (λ _, wr []) = set_pending (conn st) q) by (destruct f; by destruct Hf).
    rewrite Er. split_and!; [|done|done]. destruct Hb as [Bv Bi [Bn1 Bn2] Bq Bw Bc]. constructor; try done; [|apply Hf].
    split; [done|]. cbn. rewrite Eq in Bn2. by apply Forall_cons in Bn2 as [_ ?].
Qed.

Lemma plays_in_step w0 es : ∀ data acts st st', in_step w0 data acts st → Forall event_ok es → plays st es = Some st' →
  ∃ more, in_step w0 (data ++ received es) (acts ++ more) st'.
Proof.
  induction es as [|e es IH]; intros data acts st st' Hin He Hp; cbn [plays] in Hp.
  - injection Hp as <-. exists []. by rewrite !app_nil_r.
  - destruct (play st e) as [st1|] eqn:E1; [|done]. apply Forall_cons in He as [He Hes].
    destruct (play_in_step _ _ _ _ _ _ Hin He E1) as (m1 & H1). destruct (IH _ _ _ _ H1 Hes Hp) as (m2 & H2).
    exists (m1 ++ m2). rewrite app_assoc. replace (data ++ received (e :: es)) with ((data ++ received [e]) ++ received es); [done|].
    unfold received. cbn [omap list_omap]. rewrite <-app_assoc. f_equal. destruct e; cbn; by rewrite ?app_nil_r, <-?app_assoc.
Qed.

Lemma start_in_step sockfd wc hw w0 : in_step w0 [] [] (start_state sockfd wc hw w0).
Proof.
  unfold in_step, start_state. cbn [conn ended wd connectEstablished]. split_and!; [apply bq_empty_ok| |].
  - unfold serve_all, serve. cbn. by rewrite (proj2 (bq_empty_ok 4096)).
  - intros _. split_and!; [|unfold stream; cbn; apply bq_empty_ok|done]. constructor; try done.
    + split; apply bq_empty_ok.
    + right; right. split; [|done]. apply bq_empty_ok.
Qed.

(** A connection of an HTTP server.  However the requests are cut into
    reads, whatever part of each write the kernel takes, and whenever the
    loop reports room or runs queued functors: the bytes on the wire, followed
    by those still in the output buffer, are the answers to all that came, in
    order; what is not a complete request yet waits in the input buffer; and
    after an answer that ends the connection, the write side is shut down as
    soon as nothing is left to write. *)
Theorem answers_on_the_wire (sockfd : Z) (wc hw : bool) (w0 : World) (es : list Event) (st : State) :
  Forall event_ok es → plays (start_state sockfd wc hw w0) es = Some st →
  ∃ acts, serve_all (received es) w0 = (acts, ended st, bq_contents (inputBuffer_ (conn st)), wd st) ∧
    (Forall no_file acts →
       wire (log (conn st)) ++ bq_contents (outputBuffer_ (conn st)) = wire_bytes acts ∧
       (ended st = Closing → bq_contents (outputBuffer_ (conn st)) = [] → EShutdownWrite ∈ log (conn st))).
Proof.
  intros He Hp. destruct (plays_in_step w0 es _ _ _ _ (start_in_step sockfd wc hw w0) He Hp) as (acts & Hv & Hs & Hn).
  exists acts. split; [exact Hs|]. intros Hf. destruct (Hn Hf) as (Hb & Est & Estate). split; [exact Est|].
  intros Hc Ho. rewrite bool_decide_true in Estate by done. destruct (bt_closing _ Hb Estate) as [Hw|]; [|done].
  by destruct (bt_writing _ Hb Hw).
Qed.

(** ** Everything is written in the end *)

Lemma plays_writes wrs : ∀ st, plays st (Writable <$> wrs) = Some (mkState (write_all (conn st) wrs) (wd st) (ended st)).
Proof. induction wrs as [|wr wrs IH]; intros st; [by destruct st|]. cbn [fmap list_fmap plays play mbind option_bind]. by rewrite IH. Qed.

Lemma writes_drain w0 data wrs acts st : in_step w0 data acts st → Forall no_file acts →
  Forall (λ wr, takes_part wr ∧ takes_some wr) wrs → length (bq_contents (outputBuffer_ (conn st))) ≤ length wrs →
  ∃ st', plays st (Writable <$> wrs) = Some st' ∧ in_step w0 data acts st' ∧ bq_contents (outputBuffer_ (conn st')) = [].
Proof.
  intros (Hv & Hs & Hi) Hf Hw Hl. destruct (Hi Hf) as (Hb & Est & Ec).
  destruct (write_all_drains wrs (conn st) Hb) as (B1 & (K1 & K2 & _) & E1 & O1); [rewrite Ec; by case_match|done|done|].
  eexists. split; [apply plays_writes|]. split; [|exact O1]. unfold in_step. cbn [conn ended wd]. rewrite K2.
  split_and!; [done|done|]. intros _. split_and!; [done|congruence|congruence].
Qed.

End Server.

(** ** A concrete connection *)

Local Abbreviation sample_plays := (plays (B := Buffer) (λ _ _, true) id id sample_fs map_to_list sample_server).

(** Two requests in three reads, the second the last; the kernel takes seven
    bytes of each write. *)
Definition sample_events : list Event :=
  [Readable (take 9 get_a) (λ _, accepts 7); Readable (drop 9 get_a ++ crlf2 ++ get_a) (λ _, accepts 7); Writable (accepts 7);
   Readable (crlf ++ #"Connection: close" ++ crlf2) (λ _, accepts 7)].

Definition or_start (o : option State) : State := default (start_state (B := Buffer) 5 false false sample_world) o.

Definition sample_end : State := or_start (sample_plays (start_state 5 false false sample_world) sample_events).

Lemma accepts_takes : takes_part (accepts 7) ∧ takes_some (accepts 7).
Proof.
  split; [exact (accepts_ok 7)|]. intros d Hd. unfold accepts. destruct d as [|x d]; [done|]. cbn [length Nat.min]. eauto.
Qed.

Lemma sample_events_ok : Forall event_ok sample_events.
Proof. pose proof (proj1 accepts_takes) as Ha. repeat (apply Forall_cons_2; [cbn [event_ok]; intros; exact Ha|]). by apply Forall_nil. Qed.

Lemma sample_run : is_Some (sample_plays (start_state 5 false false sample_world) sample_events).
Proof. apply (bool_decide_unpack _). vm_compute. exact I. Qed.

Lemma or_start_some o : is_Some o → o = Some (or_start o).
Proof. intros [st ->]. reflexivity. Qed.

Lemma sample_end_reached : sample_plays (start_state 5 false false sample_world) sample_events = Some sample_end.
Proof. exact (or_start_some _ sample_run). Qed.


(** A handler that counts its calls. *)
Definition pay_handler : @HttpHandler TokenBucketLimiter.t nat := λ _ resp w,
  (setText resp #"paid", HttpCore.mkWorld (clock w) (metrics w) (limiters w) (fd_log w) (S (app_state w))).

Definition pay_server : @HttpServer unit TokenBucketLimiter.t nat :=
  mkServer (default HttpCore_new (build (λ _, Some tt) [RegRoute GET #"/pay" pay_handler])) true (dbl 60).

Definition pay_world : @World TokenBucketLimiter.t nat := HttpCore.mkWorld 0 Metrics_new [] [] 0.

Definition pay_read (st : State) (d : str) : State :=
  on_readable (B := Buffer) (λ _ _, true) id id sample_fs map_to_list pay_server st d (λ _, accepts 5000).

(** A request behind one that closed the connection: its handler still runs
    when bytes come, and its answer goes nowhere. *)
Example request_after_close :
  let st1 := pay_read (start_state 5 false false pay_world) (#"GET /pay HTTP/1.1" ++ crlf ++ #"Connection: close" ++ crlf2) in
  let st2 := pay_read st1 (#"GET /pay HTTP/1.1" ++ crlf2) in
  ended st1 = Closing ∧ app_state (wd st1) = 1 ∧ EShutdownWrite ∈ log (conn st1) ∧
  app_state (wd st2) = 2 ∧ wire (log (conn st2)) = wire (log (conn st1)) ∧ bq_contents (outputBuffer_ (conn st2)) = [].
Proof. intros st1 st2. split_and!; [vm_compute; reflexivity|vm_compute; reflexivity|apply (bool_decide_unpack _); vm_compute; exact I|vm_compute; reflexivity..]. Qed.
