(* ===== verification/HttpClient.v ===== *)
(** * HttpClient: requests, responses and the queue of promises

    Models [src/http/HttpClient.h].  Promises are numbered in the order in
    which requests create them; fulfilling one is an event.  The callbacks
    and [asyncRequest] run under the client's mutex, so that a history is a
    sequence of these operations; the wait of up to three seconds for a
    connection is the two steps of [asyncRequest], between which other
    operations may come. *)

From S2P Require Import Prelude Buffer HttpRequest HttpResponse HttpCore.

Record HttpClientResponse := mkClientResponse {
  cr_statusCode : Z;
  cr_statusMessage : str;
  cr_headers : gmap str str;
  cr_body : str;
  cr_success : bool;
  cr_error : str
}.

Definition HttpClientResponse_new : HttpClientResponse := mkClientResponse 0 [] ∅ [] false [].

Definition failed (error : str) : HttpClientResponse := mkClientResponse 0 [] ∅ [] false error.

Record HttpClient := mkClient {
  host_ : str;
  conn_ : bool;
  pendingQueue_ : list nat;
  next_promise : nat;
  recvBuffer_ : str;
  defaultHeaders_ : gmap str str
}.

Definition HttpClient_new (host : str) : HttpClient := mkClient host false [] 0 [] ∅.

(** What the client does to the outside. *)
Inductive ClientEvent :=
  | Fulfil (promise : nat) (resp : HttpClientResponse)
  | Transmit (data : str).

Definition with_queue (c : HttpClient) (q : list nat) : HttpClient :=
  mkClient (host_ c) (conn_ c) q (next_promise c) (recvBuffer_ c) (defaultHeaders_ c).
Definition with_recv (c : HttpClient) (b : str) : HttpClient :=
  mkClient (host_ c) (conn_ c) (pendingQueue_ c) (next_promise c) b (defaultHeaders_ c).
Definition with_conn (c : HttpClient) (up : bool) : HttpClient :=
  mkClient (host_ c) up (pendingQueue_ c) (next_promise c) (recvBuffer_ c) (defaultHeaders_ c).

Definition setHeader (c : HttpClient) (key value : str) : HttpClient :=
  mkClient (host_ c) (conn_ c) (pendingQueue_ c) (next_promise c) (recvBuffer_ c)
    (<[key := value]> (defaultHeaders_ c)).

(** [pendingQueue_.front().set_value(resp); pendingQueue_.pop()], when there is one. *)
Definition fulfil_front (c : HttpClient) (resp : HttpClientResponse) : list ClientEvent * HttpClient :=
  match pendingQueue_ c with
  | [] => ([], c)
  | p :: q => ([Fulfil p resp], with_queue c q)
  end.

(** ** Building a request *)

Section Client.
Context (order : gmap str str → list (str * str)).

Definition request_lines (c : HttpClient) (method path body contentType : str) : list str :=
  [method ++ SP :: path ++ SP :: #"HTTP/1.1"; #"Host: " ++ host_ c; #"Connection: keep-alive"] ++
  (if bool_decide (body = []) then []
   else (if bool_decide (contentType = []) then [] else [ #"Content-Type: " ++ contentType]) ++
        [ #"Content-Length: " ++ to_dec (zlen body)]) ++
  ((λ kv : str * str, kv.1 ++ ":"%char :: SP :: kv.2) <$> order (defaultHeaders_ c)).

Definition buildRequest (c : HttpClient) (method path body contentType : str) : str :=
  mjoin ((λ l, l ++ crlf) <$> request_lines c method path body contentType) ++ crlf ++ body.

(** [asyncRequest] up to the wait: the promise is queued. *)
Definition asyncRequest_begin (c : HttpClient) : nat * HttpClient :=
  (next_promise c,
   mkClient (host_ c) (conn_ c) (pendingQueue_ c ++ [next_promise c]) (S (next_promise c))
     (recvBuffer_ c) (defaultHeaders_ c)).

(** ... and after it: the request is sent, or the front promise fails. *)
Definition asyncRequest_end (c : HttpClient) (httpReq : str) : list ClientEvent * HttpClient :=
  if conn_ c then ([Transmit httpReq], c)
  else fulfil_front c (failed (#"not connected")).

Definition asyncRequest (c : HttpClient) (method path body contentType : str)
    : nat * list ClientEvent * HttpClient :=
  let httpReq := buildRequest c method path body contentType in
  let '(p, c1) := asyncRequest_begin c in
  let '(evs, c2) := asyncRequest_end c1 httpReq in (p, evs, c2).

(** [request]: what the caller gets, [answer] being the value of the future
    when it is set within the time. *)
Definition request_result (answer : option HttpClientResponse) (timeoutMs : Z) : HttpClientResponse :=
  match answer with
  | Some r => r
  | None => failed (#"HTTP request timeout after " ++ to_string timeoutMs ++ #"ms")
  end.

Definition onConnection (c : HttpClient) (connected : bool) : list ClientEvent * HttpClient :=
  if connected then ([], with_conn c true)
  else ((λ p, Fulfil p (failed (#"connection closed"))) <$> pendingQueue_ c,
        with_queue (with_recv (with_conn c false) []) []).
End Client.

(** ** Reading responses *)

Definition set_status (r : HttpClientResponse) (code : Z) (msg : str) : HttpClientResponse :=
  mkClientResponse code msg (cr_headers r) (cr_body r) (cr_success r) (cr_error r).

(** [None] is [false]; [stoi] throws on garbage and on numbers beyond [int]. *)
Definition parseStatusLine (line : str) (r : HttpClientResponse) : option HttpClientResponse :=
  match find [SP] line 0 with
  | None => None
  | Some firstSpace =>
      match find [SP] line (firstSpace + 1) with
      | None => (λ code, set_status r code (cr_statusMessage r)) <$> stoi (drop (firstSpace + 1) line)
      | Some secondSpace =>
          (λ code, set_status r code (drop (secondSpace + 1) line))
            <$> stoi (substr line (firstSpace + 1) (secondSpace - firstSpace - 1))
      end
  end.

Definition response_header (r : HttpClientResponse) (line : str) : HttpClientResponse :=
  if bool_decide (line = []) then r
  else match find [ ":"%char ] line 0 with
       | None => r
       | Some colon =>
           mkClientResponse (cr_statusCode r) (cr_statusMessage r)
             (<[lower (take colon line) := trim_value (drop (colon + 1) line)]> (cr_headers r))
             (cr_body r) (cr_success r) (cr_error r)
       end.

Definition parseHeaders (headerBlock : str) (r : HttpClientResponse) : HttpClientResponse :=
  fold_lines response_header (S (length headerBlock)) headerBlock 0 r.

Definition declared_length (r : HttpClientResponse) : Z :=
  match cr_headers r !! (#"content-length") with
  | Some v => default 0%Z (stoul v)
  | None => 0
  end.

Definition with_error (r : HttpClientResponse) (e : str) : HttpClientResponse :=
  mkClientResponse (cr_statusCode r) (cr_statusMessage r) (cr_headers r) (cr_body r) (cr_success r) e.
Definition succeed (r : HttpClientResponse) (b : str) : HttpClientResponse :=
  mkClientResponse (cr_statusCode r) (cr_statusMessage r) (cr_headers r) b true (cr_error r).

(** One turn of [while (true)]; [None] when it returns to wait for data.  The
    sum of the lengths is a [size_t] and wraps. *)
Definition response_step (c : HttpClient) : option (list ClientEvent * HttpClient) :=
  match find crlf2 (recvBuffer_ c) 0 with
  | None => None
  | Some headerEnd =>
      let headerLen := headerEnd + 4 in
      let headerSection := substr (recvBuffer_ c) 0 headerEnd in
      let firstLineEnd := find crlf headerSection 0 in
      let statusLine := match firstLineEnd with Some n => substr headerSection 0 n | None => headerSection end in
      match parseStatusLine statusLine HttpClientResponse_new with
      | None =>
          let resp := failed (#"malformed HTTP status line: " ++ statusLine) in
          let '(evs, c1) := fulfil_front c resp in
          Some (evs, with_recv c1 (drop headerLen (recvBuffer_ c1)))
      | Some resp0 =>
          let resp := match firstLineEnd with
                      | Some n => parseHeaders (drop (n + 2) headerSection) resp0
                      | None => resp0 end in
          let contentLength := declared_length resp in
          let totalLen := u64 (Z.of_nat headerLen + contentLength) in
          if (zlen (recvBuffer_ c) <? totalLen)%Z then None
          else
            let b := if (0 <? contentLength)%Z then substr_z (recvBuffer_ c) headerLen contentLength
                     else cr_body resp in
            Some (fulfil_front (with_recv c (drop (Z.to_nat totalLen) (recvBuffer_ c))) (succeed resp b))
      end
  end.

(** The loop; [None] when the fuel is used up. *)
Fixpoint response_loop (fuel : nat) (c : HttpClient) : option (list ClientEvent * HttpClient) :=
  match fuel with
  | O => None
  | S f =>
      match response_step c with
      | None => Some ([], c)
      | Some (evs, c1) =>
          match response_loop f c1 with
          | Some (evs', c2) => Some (evs ++ evs', c2)
          | None => None
          end
      end
  end.

Definition onMessage {B : Type} `{ByteQueue B} (fuel : nat) (c : HttpClient) (buf : B)
    : option (list ClientEvent * HttpClient) * B :=
  let data := bq_contents buf in
  (response_loop fuel (with_recv c (recvBuffer_ c ++ data)), bq_retrieve buf (bq_readable buf)).

(** ** A request is read back by the server *)

(** A header the line format can carry. *)
Definition header_ok (kv : str * str) : Prop :=
  ":"%char ∉ kv.1 ∧ CR ∉ kv.1 ∧ CR ∉ kv.2 ∧ match kv.2 with [] => False | c :: _ => c ≠ SP end.

Definition header_text (kv : str * str) : str := kv.1 ++ ":"%char :: SP :: kv.2.

Lemma header_text_ok kv : header_ok kv → line_ok (header_text kv).
Proof.
  intros (_ & Hk & Hv & _). unfold header_text. split.
  - rewrite elem_of_app, !elem_of_cons. intros [?|[?|[?|?]]]; done.
  - by destruct kv.1.
Qed.

Lemma header_line_text r kv :
  header_ok kv → header_line r (header_text kv) = set_header r (lower kv.1) kv.2.
Proof.
  intros (Hk & _ & _ & Hv). unfold header_line, header_text.
  rewrite bool_decide_false by (by destruct kv.1).
  rewrite parseHeader_print by done. cbn [snd]. by rewrite trim_value_sp.
Qed.

Lemma header_lines_text kvs r :
  Forall header_ok kvs →
  foldl header_line r (header_text <$> kvs) = foldl (λ r kv, set_header r (lower kv.1) kv.2) r kvs.
Proof.
  intros H. revert r. induction H as [|kv kvs Hkv _ IH]; intros r; [done|].
  cbn [fmap list_fmap foldl]. by rewrite header_line_text.
Qed.

(** The head of a message: first line and headers, joined by line ends. *)
Lemma parseHeader_message r line kvs r1 :
  line_ok line → Forall header_ok kvs → (zlen line <= kMaxRequestLine)%Z →
  parseRequestLine r line = (true, r1) →
  parseHeader (join_lines (line :: (header_text <$> kvs))) r
  = (true, foldl (λ r kv, set_header r (lower kv.1) kv.2) r1 kvs).
Proof.
  intros [Hcr Hne] Hkvs Hlen Hline. unfold parseHeader.
  destruct kvs as [|kv kvs].
  - simpl join_lines. unfold crlf. rewrite find_0, find0_first_None by done.
    rewrite (proj2 (Z.ltb_ge _ _)) by lia. by rewrite Hline.
  - set (kvs' := kv :: kvs) in *.
    rewrite join_lines_cons by done. rewrite find_0. unfold crlf at 1. rewrite find0_first by done.
    rewrite substr_prefix by done. rewrite (proj2 (Z.ltb_ge _ _)) by lia. rewrite Hline.
    unfold parseHeader_lines. do 2 f_equal.
    replace (length line + 2) with (length (line ++ crlf)) by len.
    rewrite (app_assoc line). rewrite fold_lines_join; [by apply header_lines_text| |len].
    rewrite Forall_fmap. eapply Forall_impl; [done|]. apply header_text_ok.
Qed.

Lemma mjoin_lines ls : ls ≠ [] → mjoin ((λ l, l ++ crlf) <$> ls) = join_lines ls ++ crlf.
Proof.
  induction ls as [|l ls IH]; intros H; [done|]. cbn [fmap list_fmap]. simpl mjoin.
  destruct (decide (ls = [])) as [->|Hls]; [by rewrite app_nil_r|].
  rewrite IH, join_lines_cons by done. by rewrite <-!app_assoc.
Qed.

(** The headers of a client's request. *)
Definition request_headers (order : gmap str str → list (str * str)) (c : HttpClient) (body contentType : str)
    : list (str * str) :=
  [( #"Host", host_ c); ( #"Connection", #"keep-alive")] ++
  (if bool_decide (body = []) then []
   else (if bool_decide (contentType = []) then [] else [( #"Content-Type", contentType)]) ++
        [( #"Content-Length", to_dec (zlen body))]) ++
  order (defaultHeaders_ c).

Lemma request_lines_headers order c m p b ct :
  request_lines order c m p b ct
  = (m ++ SP :: p ++ SP :: #"HTTP/1.1") :: (header_text <$> request_headers order c b ct).
Proof.
  unfold request_lines, request_headers. rewrite !fmap_app. cbn [app]. f_equal.
  do 2 f_equal. by destruct (bool_decide (b = [])), (bool_decide (ct = [])).
Qed.

Lemma set_headers_frame kvs r :
  let r' := foldl (λ r kv, set_header r (lower kv.1) kv.2) r kvs in
  method r' = method r ∧ version r' = version r ∧ path r' = path r ∧ query r' = query r ∧
  params r' = params r ∧ body r' = body r ∧
  headers r' = foldl (λ m kv, <[lower kv.1 := kv.2]> m) (headers r) kvs.
Proof.
  revert r. induction kvs as [|kv kvs IH]; intros r; [done|]. cbn [foldl].
  destruct (IH (set_header r (lower kv.1) kv.2)) as (? & ? & ? & ? & ? & ? & ?). done.
Qed.

Lemma insert_headers_skip (kvs : list (str * str)) (m : gmap str str) k :
  Forall (λ kv, lower kv.1 ≠ k) kvs → foldl (λ m kv, <[lower kv.1 := kv.2]> m) m kvs !! k = m !! k.
Proof.
  intros H. revert m. induction H as [|kv kvs Hkv _ IH]; intros m; [done|]. cbn [foldl].
  rewrite IH. by rewrite lookup_insert_ne.
Qed.

Lemma insert_headers_last (pre : list (str * str)) (kv : str * str) (post : list (str * str)) (m : gmap str str) :
  Forall (λ kv', lower kv'.1 ≠ lower kv.1) post →
  foldl (λ m kv, <[lower kv.1 := kv.2]> m) m (pre ++ kv :: post) !! lower kv.1 = Some kv.2.
Proof.
  intros H. rewrite foldl_app. cbn [foldl]. rewrite insert_headers_skip by done. apply lookup_insert_eq.
Qed.

Lemma to_dec_digits n : (0 <= n)%Z → Forall (λ c, is_Some (digit_in 10 c)) (to_dec n) ∧ to_dec n ≠ [].
Proof.
  intros Hn. split.
  - pose proof (scan_digits_digits 10 n [] ltac:(lia) Hn I) as Hs.
    rewrite app_nil_r in Hs. fold (to_dec n) in Hs. revert Hs. generalize 0%Z.
    induction (to_dec n) as [|c s IH]; intros z Hs; [constructor|]. cbn [scan_digits] in Hs.
    destruct (digit_in 10 c) eqn:E; [|done]. constructor; [by rewrite E|]. by eapply IH.
  - destruct (digits_cons 10 n ltac:(lia) Hn) as (d & t & E & _). unfold to_dec. by rewrite E.
Qed.

Lemma to_dec_no n c : (0 <= n)%Z → digit_in 10 c = None → c ∉ to_dec n.
Proof.
  intros Hn Hc Hin. destruct (to_dec_digits n Hn) as [Hd _]. rewrite Forall_forall in Hd.
  destruct (Hd c Hin) as [? ?]. congruence.
Qed.

(** The headers a client's request does not let the user override. *)
Definition reserved : list str := [ #"content-length"; #"content-encoding"].

Lemma request_reserved order c b ct k :
  k ∈ reserved → Forall (λ kv, lower kv.1 ∉ reserved) (order (defaultHeaders_ c)) →
  foldl (λ h kv, <[lower kv.1 := kv.2]> h) (∅ : gmap str str) (request_headers order c b ct) !! k
  = if bool_decide (k = #"content-length") && negb (bool_decide (b = [])) then Some (to_dec (zlen b)) else None.
Proof.
  intros Hk Hdef.
  assert (Hskip : Forall (λ kv, lower kv.1 ≠ k) (order (defaultHeaders_ c))).
  { eapply Forall_impl; [exact Hdef|]. intros kv Hkv E. simpl in Hkv. by rewrite E in Hkv. }
  assert (Hfix : Forall (λ kv, lower kv.1 ≠ k) [( #"Host", host_ c); ( #"Connection", #"keep-alive")]
    ∧ lower (#"Content-Type") ≠ k).
  { apply elem_of_cons in Hk as [->|Hk%list_elem_of_singleton]; [|subst]; by repeat constructor. }
  destruct Hfix as [Hfix Hct]. unfold request_headers. destruct (decide (b = [])) as [Eb|Eb].
  - rewrite (bool_decide_true _ Eb), andb_false_r.
    rewrite insert_headers_skip; [by rewrite lookup_empty|].
    rewrite !Forall_app. by split_and!.
  - rewrite (bool_decide_false _ Eb). cbn [negb]. rewrite andb_true_r.
    set (pre := [( #"Host", host_ c); ( #"Connection", #"keep-alive")] ++
                (if bool_decide (ct = []) then [] else [( #"Content-Type", ct)])).
    assert (Hpre : Forall (λ kv, lower kv.1 ≠ k) pre)
      by (apply Forall_app; split; [done|]; by destruct (bool_decide (ct = [])); repeat constructor).
    rewrite (app_assoc [_; _]), (app_assoc [_; _]). fold pre. rewrite <-(app_assoc pre). cbn [app].
    destruct (decide (k = #"content-length")) as [->|Hne].
    + rewrite bool_decide_true by done.
      change (#"content-length") with (lower (#"Content-Length")).
      by rewrite (insert_headers_last pre ( #"Content-Length", to_dec (zlen b))).
    + rewrite bool_decide_false by done. rewrite insert_headers_skip; [by rewrite lookup_empty|].
      apply Forall_app. split; [done|]. constructor; [|done].
      intros E. apply Hne. by rewrite <-E.
Qed.

Lemma request_line_parsed m p :
  SP ∉ m → CR ∉ m → SP ∉ p → CR ∉ p → "?"%char ∉ p →
  let line := m ++ SP :: p ++ SP :: #"HTTP/1.1" in
  line_ok line ∧
  parseRequestLine HttpRequest_new line
  = (true, set_version (set_path (set_method HttpRequest_new (stringToMethod m)) p) HTTP_11).
Proof.
  intros Hm1 Hm2 Hp1 Hp2 Hp3 line. unfold line. split; [split; [|by destruct m]|].
  - rewrite elem_of_app, elem_of_cons, elem_of_app, elem_of_cons. intros [?|[?|[?|[?|Hin]]]]; try done.
    revert Hin. vm_compute. set_solver.
  - rewrite parseRequestLine_print by done. do 2 f_equal. unfold set_target.
    by rewrite find_0, (proj2 (find0_char_None _ _)) by done.
Qed.

(** A request whose headers declare the length of its body is read as one
    complete request. *)
Lemma request_frame (decompress : str → str) (m p : str) (kvs : list (str * str)) (b : str) :
  SP ∉ m ∧ CR ∉ m → SP ∉ p ∧ CR ∉ p ∧ "?"%char ∉ p → (zlen m + zlen p <= 8000)%Z → (zlen b <= kMaxBodySize)%Z →
  Forall header_ok kvs →
  let h := foldl (λ h kv, <[lower kv.1 := kv.2]> h) (∅ : gmap str str) kvs in
  h !! #"content-length" = Some (to_dec (zlen b)) ∨ b = [] ∧ h !! #"content-length" = None →
  h !! #"content-encoding" = None →
  ∃ header req,
    mjoin ((λ l, l ++ crlf) <$> ((m ++ SP :: p ++ SP :: #"HTTP/1.1") :: (header_text <$> kvs))) ++ crlf = header ++ crlf2 ∧
    is_frame decompress header b HttpRequest_new req ∧
    method req = stringToMethod m ∧ version req = HTTP_11 ∧ path req = p ∧ query req = [] ∧ body req = b ∧ headers req = h.
Proof.
  intros [Hm1 Hm2] (Hp1 & Hp2 & Hp3) Hline Hb Hhdrs h Hlen Henc.
  destruct (request_line_parsed m p) as [Hlok Hpl]; [done..|]. set (line := m ++ SP :: p ++ SP :: #"HTTP/1.1") in *.
  set (r1 := set_version _ _) in Hpl.
  set (r := foldl (λ r kv, set_header r (lower kv.1) kv.2) r1 kvs).
  assert (Hhead : parseHeader (join_lines (line :: (header_text <$> kvs))) HttpRequest_new = (true, r)).
  { apply parseHeader_message; try done. unfold line, kMaxRequestLine. revert Hline. simpl. len. }
  destruct (set_headers_frame kvs r1) as (F1 & F2 & F3 & F4 & F5 & F6 & F7). fold r in F1, F2, F3, F4, F5, F6, F7.
  change (headers r = h) in F7.
  assert (Hcl : contentLength r = zlen b).
  { unfold contentLength, getHeader. rewrite F7. change (lower #"content-length") with (#"content-length").
    destruct Hlen as [->|[-> ->]]; [|done]. cbn [from_option id]. destruct (to_dec_digits (zlen b)) as [_ Hd]; [len|].
    rewrite (bool_decide_false _ Hd). rewrite stoul_to_dec; [done|]. unfold kMaxBodySize, zlen in *. lia. }
  exists (join_lines (line :: (header_text <$> kvs))), (if bool_decide (b = []) then r else set_body r b). split.
  { rewrite mjoin_lines by done. by rewrite <-app_assoc. }
  split.
  - split.
    + rewrite <-(app_nil_r crlf2). apply find_blank_line; [done|]. constructor; [done|].
      rewrite Forall_fmap. eapply Forall_impl; [done|]. apply header_text_ok.
    + exists r. split_and!; [done..|]. set (r2 := if bool_decide (b = []) then r else set_body r b).
      assert (Hge : getHeader r2 (#"content-encoding") = []).
      { transitivity (getHeader r (#"content-encoding")); [unfold r2; by destruct (bool_decide (b = []))|].
        unfold getHeader. rewrite F7. change (lower #"content-encoding") with (#"content-encoding"). by rewrite Henc. }
      unfold maybeDecompressRequestBody. rewrite Hge. by destruct (bool_decide (body r2 = [])).
  - by destruct (decide (b = [])) as [->|Eb]; [rewrite bool_decide_true by done|rewrite bool_decide_false by done; cbn];
      rewrite ?F1, ?F2, ?F3, ?F4, ?F6, ?F7.
Qed.

Lemma request_message (decompress : str → str) (m p : str) (kvs : list (str * str)) (b rest : str) :
  SP ∉ m ∧ CR ∉ m → SP ∉ p ∧ CR ∉ p ∧ "?"%char ∉ p → (zlen m + zlen p <= 8000)%Z → (zlen b <= kMaxBodySize)%Z →
  Forall header_ok kvs →
  let h := foldl (λ h kv, <[lower kv.1 := kv.2]> h) (∅ : gmap str str) kvs in
  h !! #"content-length" = Some (to_dec (zlen b)) ∨ b = [] ∧ h !! #"content-length" = None →
  h !! #"content-encoding" = None →
  ∃ req,
    parseRequest_string decompress
      (mjoin ((λ l, l ++ crlf) <$> ((m ++ SP :: p ++ SP :: #"HTTP/1.1") :: (header_text <$> kvs))) ++ crlf ++ b ++ rest) HttpRequest_new
      = (Complete, req, rest) ∧
    method req = stringToMethod m ∧ version req = HTTP_11 ∧ path req = p ∧ query req = [] ∧ body req = b ∧ headers req = h.
Proof.
  intros Hm Hp Hline Hb Hhdrs h Hlen Henc.
  destruct (request_frame decompress m p kvs b Hm Hp Hline Hb Hhdrs Hlen Henc) as (header & req & Et & Hf & Hreq).
  exists req. split; [|exact Hreq]. rewrite (app_assoc _ crlf), Et, <-app_assoc. by apply parse_frame.
Qed.

(** What the client builds: a head, and the body. *)
Lemma request_read (order : gmap str str → list (str * str)) (decompress : str → str) (c : HttpClient) (m p b ct : str) :
  SP ∉ m ∧ CR ∉ m → SP ∉ p ∧ CR ∉ p ∧ "?"%char ∉ p → (zlen m + zlen p <= 8000)%Z → (zlen b <= kMaxBodySize)%Z →
  Forall header_ok (request_headers order c b ct) → Forall (λ kv, lower kv.1 ∉ reserved) (order (defaultHeaders_ c)) →
  ∃ header req,
    buildRequest order c m p b ct = header ++ crlf2 ++ b ∧ is_frame decompress header b HttpRequest_new req ∧
    method req = stringToMethod m ∧ version req = HTTP_11 ∧ path req = p ∧ query req = [] ∧ body req = b ∧
    headers req = foldl (λ h kv, <[lower kv.1 := kv.2]> h) ∅ (request_headers order c b ct).
Proof.
  intros. unfold buildRequest. rewrite request_lines_headers.
  edestruct (request_frame decompress m p (request_headers order c b ct) b) as (header & req & Et & Hf & Hreq); try done.
  - rewrite request_reserved by (done || set_solver). rewrite bool_decide_true by done. cbn [andb].
    destruct (decide (b = [])) as [->|Eb]; [by right|rewrite bool_decide_false by done; by left].
  - rewrite request_reserved by (done || set_solver). by rewrite bool_decide_false by done.
  - exists header, req. split; [|done]. by rewrite (app_assoc _ crlf), Et, <-app_assoc.
Qed.


(** ** A response is read back by the client *)

Lemma stoi_to_dec n : (0 <= n < 2 ^ 31)%Z → stoi (to_dec n) = Some n.
Proof.
  intros. unfold stoi. rewrite <-(app_nil_r (to_dec n)), scan_int_dec by (done || lia).
  rewrite (proj2 (Z.leb_le _ _)), (proj2 (Z.ltb_lt _ _)) by lia. done.
Qed.

Lemma parseStatusLine_print n msg r :
  (0 <= n < 2 ^ 31)%Z →
  parseStatusLine (#"HTTP/1.1" ++ SP :: to_dec n ++ SP :: msg) r = Some (set_status r n msg).
Proof.
  intros Hn. unfold parseStatusLine.
  rewrite find_0, find0_char by (vm_compute; set_solver).
  set (v := #"HTTP/1.1"). replace (length v + 1) with (length (v ++ [SP])) by len.
  replace (v ++ SP :: to_dec n ++ SP :: msg) with ((v ++ [SP]) ++ to_dec n ++ SP :: msg)
    by (by rewrite <-app_assoc).
  rewrite find_char_at by (apply to_dec_no; [lia|done]). rewrite substr_app_r.
  replace (length (v ++ [SP]) + length (to_dec n) - length v - 1) with (length (to_dec n)) by len.
  rewrite take_app_length, stoi_to_dec by done. cbn [fmap option_fmap option_map]. do 2 f_equal.
  replace (length (v ++ [SP]) + length (to_dec n) + 1) with (length ((v ++ [SP]) ++ to_dec n ++ [SP])) by len.
  replace ((v ++ [SP]) ++ to_dec n ++ SP :: msg) with (((v ++ [SP]) ++ to_dec n ++ [SP]) ++ msg)
    by (by rewrite <-!app_assoc).
  apply drop_app_length.
Qed.

Definition add_header (r : HttpClientResponse) (kv : str * str) : HttpClientResponse :=
  mkClientResponse (cr_statusCode r) (cr_statusMessage r) (<[lower kv.1 := kv.2]> (cr_headers r))
    (cr_body r) (cr_success r) (cr_error r).

Lemma response_header_text r kv : header_ok kv → response_header r (header_text kv) = add_header r kv.
Proof.
  intros (Hk & _ & _ & Hv). unfold response_header, header_text.
  rewrite bool_decide_false by (by destruct kv.1).
  rewrite find_0, find0_char by done. rewrite take_app_length.
  replace (drop (length kv.1 + 1) _) with (SP :: kv.2); [by rewrite trim_value_sp|].
  rewrite drop_app_ge by lia. by replace (_ - _) with 1 by lia.
Qed.

Lemma parseHeaders_text kvs r :
  Forall header_ok kvs →
  parseHeaders (join_lines (header_text <$> kvs)) r = foldl add_header r kvs.
Proof.
  intros Hok. unfold parseHeaders. pose proof (fold_lines_join response_header (header_text <$> kvs) []) as Hf.
  cbn [app length] in Hf. rewrite Hf; [| |lia].
  - clear Hf. revert r. induction Hok as [|kv kvs Hkv _ IH]; intros r; [done|].
    cbn [fmap list_fmap foldl]. by rewrite response_header_text.
  - rewrite Forall_fmap. eapply Forall_impl; [done|]. apply header_text_ok.
Qed.

Lemma add_headers_frame kvs r :
  let r' := foldl add_header r kvs in
  cr_statusCode r' = cr_statusCode r ∧ cr_statusMessage r' = cr_statusMessage r ∧ cr_body r' = cr_body r ∧
  cr_error r' = cr_error r ∧
  cr_headers r' = foldl (λ m kv, <[lower kv.1 := kv.2]> m) (cr_headers r) kvs.
Proof.
  revert r. induction kvs as [|kv kvs IH]; intros r; [done|]. cbn [foldl].
  destruct (IH (add_header r kv)) as (? & ? & ? & ? & ?). done.
Qed.

Lemma insert_headers_same (kvs : list (str * str)) (m : gmap str str) k v :
  (∃ kv, kv ∈ kvs ∧ lower kv.1 = k) → (∀ kv, kv ∈ kvs → lower kv.1 = k → kv.2 = v) →
  foldl (λ m kv, <[lower kv.1 := kv.2]> m) m kvs !! k = Some v.
Proof.
  induction kvs as [|kv kvs IH] using rev_ind; intros (kv' & Hin & Hk) Hall; [by apply elem_of_nil in Hin|].
  rewrite foldl_app. cbn [foldl]. destruct (decide (lower kv.1 = k)) as [E|E].
  - rewrite E, lookup_insert_eq. f_equal. apply Hall; [set_solver|done].
  - rewrite lookup_insert_ne by done. apply IH; [|set_solver].
    exists kv'. split; [|done]. apply elem_of_app in Hin as [?|Hin%list_elem_of_singleton]; [done|congruence].
Qed.

(** What a printed response [bytes] makes of the client: the front promise gets
    [resp] and the bytes are consumed, whatever follows them. *)
Definition is_response (bytes : str) (resp : HttpClientResponse) : Prop :=
  ∀ c rest, recvBuffer_ c = bytes ++ rest → response_step c = Some (fulfil_front (with_recv c rest) resp).

Lemma response_step_message line kvs b c rest r0 :
  line_ok line → Forall header_ok kvs → kvs ≠ [] →
  parseStatusLine line HttpClientResponse_new = Some r0 →
  declared_length (foldl add_header r0 kvs) = zlen b →
  (zlen (join_lines (line :: (header_text <$> kvs)) ++ crlf2 ++ b) < 2 ^ 63)%Z →
  recvBuffer_ c = join_lines (line :: (header_text <$> kvs)) ++ crlf2 ++ b ++ rest →
  response_step c = Some (fulfil_front (with_recv c rest)
    (succeed (foldl add_header r0 kvs) (if bool_decide (b = []) then cr_body r0 else b))).
Proof.
  intros [Hcr Hne] Hkvs Hnn Hst Hlen Hsz Hrecv. unfold response_step. rewrite Hrecv.
  assert (Hls : Forall line_ok (line :: (header_text <$> kvs))).
  { constructor; [done|]. rewrite Forall_fmap. eapply Forall_impl; [done|]. apply header_text_ok. }
  rewrite find_0, find_blank_line by done. rewrite substr_prefix by done.
  assert (Hjoin : join_lines (line :: (header_text <$> kvs))
    = line ++ crlf ++ join_lines (header_text <$> kvs)) by (apply join_lines_cons; by destruct kvs).
  assert (Hfl : find crlf (join_lines (line :: (header_text <$> kvs))) 0 = Some (length line)).
  { rewrite find_0, Hjoin. unfold crlf. by apply find0_first. }
  rewrite Hfl. rewrite Hjoin at 1. rewrite substr_prefix, Hst by done.
  replace (drop (length line + 2) (join_lines (line :: (header_text <$> kvs))))
    with (join_lines (header_text <$> kvs)).
  2: { rewrite Hjoin. replace (length line + 2) with (length (line ++ crlf)) by len.
       by rewrite app_assoc, drop_app_length. }
  rewrite parseHeaders_text, Hlen by done.
  set (head := join_lines _) in *.
  rewrite u64_small by (revert Hsz; len). rewrite (proj2 (Z.ltb_ge _ _)) by len.
  assert (Hdrop : ∀ n, drop (length head + 4 + n) (head ++ crlf2 ++ b ++ rest) = drop n (b ++ rest)).
  { intros n. rewrite (app_assoc head). replace (length head + 4 + n) with (length (head ++ crlf2) + n) by len.
    by rewrite <-drop_drop, drop_app_length. }
  replace (Z.to_nat (Z.of_nat (length head + 4) + zlen b)) with (length head + 4 + length b) by len.
  rewrite Hdrop, drop_app_length. do 3 f_equal.
  destruct (add_headers_frame kvs r0) as (_ & _ & Hb & _). rewrite Hb.
  destruct b as [|x b']; [done|]. rewrite bool_decide_false by done.
  rewrite (proj2 (Z.ltb_lt _ _)) by len. unfold substr_z.
  rewrite <-(Nat.add_0_r (length head + 4)), Hdrop, drop_0.
  apply take_app_length'. len.
Qed.

(** *** The server's responses *)

Definition response_headers (order : gmap str str → list (str * str)) (r : HttpResponse) : list (str * str) :=
  order (rheaders r) ++
  [( #"Connection", if closeConnection r then #"close" else #"keep-alive"); ( #"Server", #"mymuduo-http/1.0")].

(** A response with a plain body whose length is declared once, and texts
    the line format can carry. *)
Definition plain_response (order : gmap str str → list (str * str)) (r : HttpResponse) : Prop :=
  chunked_ r = false ∧ CR ∉ statusMessage r ∧ Forall header_ok (order (rheaders r)) ∧
  rheaders r !! (#"Content-Length") = Some (to_dec (zlen (rbody r))) ∧
  (∀ k v, rheaders r !! k = Some v → lower k = #"content-length" → k = #"Content-Length") ∧
  (zlen (toHeader order r ++ rbody r) < 2 ^ 63)%Z.

(** What the client makes of it. *)
Definition client_view (order : gmap str str → list (str * str)) (r : HttpResponse) : HttpClientResponse :=
  mkClientResponse (code_int (statusCode r)) (statusMessage r)
    (foldl (λ m kv, <[lower kv.1 := kv.2]> m) ∅ (response_headers order r)) (rbody r) true [].

Definition status_text (r : HttpResponse) : str :=
  #"HTTP/1.1" ++ SP :: to_dec (code_int (statusCode r)) ++ SP :: statusMessage r.

Lemma code_int_range c : (0 <= code_int c < 2 ^ 31)%Z.
Proof. destruct c; simpl; lia. Qed.

Lemma printed_headers_plain order r :
  chunked_ r = false → printed_headers order r = order (rheaders r).
Proof.
  unfold printed_headers. intros ->. induction (order (rheaders r)) as [|kv l IH]; [done|].
  exact (f_equal (cons kv) IH).
Qed.

Lemma print_header_text kv : print_header kv = header_text kv ++ crlf.
Proof. unfold print_header, header_text. destruct kv. simpl. by rewrite <-!app_assoc. Qed.

Lemma toHeader_lines order r :
  chunked_ r = false →
  toHeader order r = join_lines (status_text r :: (header_text <$> response_headers order r)) ++ crlf2.
Proof.
  intros Hch. transitivity (mjoin ((λ l, l ++ crlf) <$> (status_text r :: (header_text <$> response_headers order r))) ++ crlf).
  2: { rewrite mjoin_lines by done. by rewrite <-app_assoc. }
  unfold toHeader. rewrite printed_headers_plain, Hch by done.
  assert (Hst : status_line r = status_text r ++ crlf).
  { unfold status_line, status_text, to_string. pose proof (code_int_range (statusCode r)).
    rewrite (proj2 (Z.ltb_ge _ _)) by lia. by rewrite <-!app_assoc; simpl; rewrite <-!app_assoc. }
  assert (Hps : print_header <$> order (rheaders r)
    = (λ l, l ++ crlf) <$> (header_text <$> order (rheaders r))).
  { rewrite <-list_fmap_compose. apply list_fmap_ext. intros _ kv _. apply print_header_text. }
  rewrite Hst, Hps. clear Hst Hps. generalize (status_text r). intros st.
  rewrite fmap_cons, mjoin_cons. unfold response_headers.
  rewrite !fmap_app, join_app, <-!app_assoc. do 3 f_equal. by destruct (closeConnection r).
Qed.

(** The client reads what the server prints. *)
Lemma response_read order r :
  order_ok order → plain_response order r → is_response (toHeader order r ++ rbody r) (client_view order r).
Proof.
  intros Hord (Hch & Hmsg & Hok & Hlen & Honly & Hsz) c rest Hrecv.
  rewrite toHeader_lines in Hrecv, Hsz by done. rewrite <-!app_assoc in Hrecv, Hsz.
  pose proof (code_int_range (statusCode r)) as Hcode.
  set (r0 := set_status HttpClientResponse_new (code_int (statusCode r)) (statusMessage r)).
  assert (Hhs : Forall header_ok (response_headers order r)).
  { apply Forall_app. split; [done|]. destruct (closeConnection r);
      repeat constructor; vm_compute; try done; set_solver. }
  destruct (add_headers_frame (response_headers order r) r0) as (F1 & F2 & F3 & F4 & F5).
  erewrite (response_step_message (status_text r) (response_headers order r) (rbody r) c rest r0).
  - do 3 f_equal. unfold succeed, client_view. rewrite F1, F2, F4, F5.
    f_equal. by destruct (rbody r).
  - split; [|done]. unfold status_text. rewrite elem_of_app, elem_of_cons, elem_of_app, elem_of_cons.
    intros [Hin|[?|[?|[?|?]]]]; [revert Hin; vm_compute; set_solver|done|by eapply to_dec_no; [| |done]; [lia|]|done..].
  - done.
  - unfold response_headers. by destruct (order (rheaders r)).
  - by apply parseStatusLine_print.
  - unfold declared_length. rewrite F5.
    rewrite (insert_headers_same _ _ _ (to_dec (zlen (rbody r)))).
    + rewrite stoul_to_dec; [done|]. revert Hsz. len.
    + exists (#"Content-Length", to_dec (zlen (rbody r))). split; [|done].
      apply elem_of_app. left. rewrite (Hord (rheaders r)). by apply elem_of_map_to_list.
    + intros [k v] [Hin|Hin]%elem_of_app Hk; simpl in *.
      * rewrite (Hord (rheaders r)) in Hin. apply elem_of_map_to_list in Hin.
        pose proof (Honly k v Hin Hk) as ->. congruence.
      * exfalso. apply elem_of_cons in Hin as [[= -> _]|[[= -> _]|Hin]%elem_of_cons]; [done..|by apply elem_of_nil in Hin].
  - exact Hsz.
  - by rewrite Hrecv, <-!app_assoc.
Qed.


(** ** Responses in chunks

    The bytes of responses may come cut anywhere: a response is only taken
    when it is complete. *)

Lemma recv_fulfil c r : recvBuffer_ (fulfil_front c r).2 = recvBuffer_ c.
Proof. unfold fulfil_front. by destruct (pendingQueue_ c). Qed.

(** How much a turn consumes does not depend on what comes behind, and it is
    there already. *)
Lemma response_step_consumes c evs c1 :
  response_step c = Some (evs, c1) →
  ∃ n, n ≤ length (recvBuffer_ c) ∧
    ∀ x, ∃ evs' c2, response_step (with_recv c (recvBuffer_ c ++ x)) = Some (evs', c2) ∧
      recvBuffer_ c2 = drop n (recvBuffer_ c ++ x).
Proof.
  unfold response_step at 1. rewrite find_0. destruct (find0 crlf2 (recvBuffer_ c)) as [n|] eqn:Ef; [|done].
  pose proof (find0_bound _ _ _ Ef) as Hn. change (length crlf2) with 4 in Hn.
  assert (Hs : ∀ x, substr (recvBuffer_ c ++ x) 0 n = substr (recvBuffer_ c) 0 n).
  { intros x. unfold substr. rewrite !drop_0. apply take_app_le. lia. }
  set (hs := substr (recvBuffer_ c) 0 n) in *. destruct (parseStatusLine _ _) as [r0|] eqn:Est.
  - set (r := match find crlf hs 0 with Some m => parseHeaders (drop (m + 2) hs) r0 | None => r0 end).
    destruct (_ <? u64 _)%Z eqn:Elt; [done|]. intros _. bool_to_prop.
    set (total := u64 (Z.of_nat (n + 4) + declared_length r)) in *.
    exists (Z.to_nat total). split; [unfold zlen in *; lia|]. intros x. unfold response_step. cbn [recvBuffer_ with_recv].
    rewrite find_0, (find0_app _ _ _ _ Ef), Hs, Est. fold r. fold total.
    rewrite (proj2 (Z.ltb_ge _ _)) by (unfold zlen in *; rewrite length_app; lia).
    destruct (fulfil_front _ _) as [evs' c2] eqn:E. exists evs', c2. split; [done|].
    apply (f_equal (recvBuffer_ ∘ snd)) in E. cbn [compose snd] in E. rewrite recv_fulfil in E. by rewrite <-E.
  - intros _. exists (n + 4). split; [lia|]. intros x. unfold response_step. cbn [recvBuffer_ with_recv].
    rewrite find_0, (find0_app _ _ _ _ Ef), Hs, Est. destruct (fulfil_front _ _) as [evs' c2] eqn:E.
    exists evs', (with_recv c2 (drop (n + 4) (recvBuffer_ c2))). split; [done|].
    apply (f_equal (recvBuffer_ ∘ snd)) in E. cbn [compose snd] in E. rewrite recv_fulfil in E. cbn [recvBuffer_ with_recv] in *. by rewrite <-E.
Qed.

(** The beginning of a response is left alone. *)
Lemma response_step_waits bytes resp p q c :
  is_response bytes resp → bytes = p ++ q → q ≠ [] → recvBuffer_ c = p → response_step c = None.
Proof.
  intros Hr Hb Hq Hc. destruct (response_step c) as [[evs c1]|] eqn:E; [exfalso|done].
  destruct (response_step_consumes _ _ _ E) as (n & Hn & Hx). destruct (Hx q) as (evs' & c2 & E2 & Hc2).
  rewrite Hc, <-Hb in Hc2, E2. rewrite (Hr _ []) in E2 by (cbn; by rewrite app_nil_r).
  assert (Hz : recvBuffer_ c2 = []).
  { apply (inj Some) in E2. apply (f_equal (recvBuffer_ ∘ snd)) in E2. cbn [compose snd] in E2. rewrite recv_fulfil in E2. by rewrite <-E2. }
  rewrite Hz in Hc2. symmetry in Hc2. apply (f_equal length) in Hc2. rewrite length_drop in Hc2. cbn in Hc2.
  destruct q; [done|]. subst. revert Hc2 Hn. len.
Qed.

(** A response and what it makes of a promise. *)
Definition reads (t : str * HttpClientResponse) : Prop := is_response t.1 t.2 ∧ t.1 ≠ [].

(** The loop on any beginning of a stream of responses: those that are
    complete go to the promises in front, the rest is kept. *)
Lemma response_loop_prefix ts : ∀ c p q ps qs fuel,
  Forall reads ts → recvBuffer_ c = p → p ++ q = mjoin (fst <$> ts) → pendingQueue_ c = ps ++ qs →
  length ps = length ts → length p < fuel →
  ∃ ts1 ts2 p',
    ts = ts1 ++ ts2 ∧ p = mjoin (fst <$> ts1) ++ p' ∧ p' ++ q = mjoin (fst <$> ts2) ∧
    response_loop fuel c
    = Some (zip_with Fulfil (take (length ts1) ps) (snd <$> ts1), with_recv (with_queue c (drop (length ts1) ps ++ qs)) p') ∧
    response_step (with_recv (with_queue c (drop (length ts1) ps ++ qs)) p') = None.
Proof.
  induction ts as [|[b v] ts IH]; intros c p q ps qs fuel Hts Hc Hpq Hq Hl Hf.
  - apply app_eq_nil in Hpq as [-> ->]. destruct ps; [|done]. exists [], [], []. split_and!; [done..| |done].
    destruct fuel; [lia|]. cbn [response_loop]. assert (En : response_step c = None).
    { unfold response_step. by rewrite Hc. }
    rewrite En. cbn. cbn in Hq. by rewrite <-Hc, <-Hq; destruct c.
  - apply Forall_cons in Hts as [[Hr Hne] Hts]. cbn [fst snd] in *. destruct ps as [|i ps]; [done|]. injection Hl as Hl.
    rewrite fmap_cons, mjoin_cons in Hpq. cbn [fst] in Hpq. destruct fuel as [|fuel]; [lia|].
    destruct (app_cases _ _ _ _ Hpq) as [(x & -> & Hx)|(x & Hx & Eb & _)].
    + clear Hpq. rename Hx into Hpq.
      destruct (IH (with_queue (with_recv c x) (ps ++ qs)) x q ps qs fuel Hts) as (ts1 & ts2 & p' & -> & -> & H3 & H4 & H5);
        [done|done|done|done| |].
      { revert Hf. rewrite length_app. destruct b; [done|]. cbn. lia. }
      exists ((b, v) :: ts1), ts2, p'. rewrite fmap_cons, mjoin_cons, <-app_assoc. split_and!; [done|done|done| |exact H5].
      cbn [response_loop]. rewrite (Hr c _ Hc). unfold fulfil_front. cbn [pendingQueue_ with_recv]. rewrite Hq. cbn [app].
      change (with_queue (with_recv c _) (ps ++ qs)) with (with_queue (with_recv c (mjoin (fst <$> ts1) ++ p')) (ps ++ qs)).
      rewrite H4. done.
    + exists [], ((b, v) :: ts), p. cbn [length take drop fmap list_fmap zip_with response_loop].
      assert (En : response_step c = None) by (by eapply response_step_waits).
      assert (Ec : with_recv (with_queue c ((i :: ps) ++ qs)) p = c) by (rewrite <-Hc, <-Hq; by destruct c).
      rewrite Ec, En. split_and!; [done|done| |done|done]. exact Hpq.
Qed.

(** ** The loop ends, unless a declared length wraps *)

(** A response at the front of the data whose declared length makes the sum
    of the lengths wrap. *)
Definition wraps (data : str) : Prop :=
  ∃ n r, find crlf2 data 0 = Some n ∧ (2 ^ 64 <= Z.of_nat (n + 4) + declared_length r)%Z ∧
    response_step (with_recv (HttpClient_new []) data) ≠ None ∧
    r = (let headerSection := substr data 0 n in
         match find crlf headerSection 0 with
         | Some k =>
             default HttpClientResponse_new
               (parseHeaders (drop (k + 2) headerSection)
                  <$> parseStatusLine (substr headerSection 0 k) HttpClientResponse_new)
         | None => HttpClientResponse_new
         end).

Lemma declared_length_nonneg r : (0 <= declared_length r)%Z.
Proof.
  unfold declared_length. destruct (cr_headers r !! _) as [v|]; [|lia].
  destruct (stoul v) as [x|] eqn:E; simpl; [|lia]. revert E. unfold stoul, scan_int.
  repeat (case_match; try done); intros; simplify_eq; try (apply Z.mod_pos_bound; lia);
    apply (scan_digits_nonneg 10); lia.
Qed.

Lemma response_step_shrinks c evs c1 :
  (zlen (recvBuffer_ c) < 2 ^ 63)%Z → response_step c = Some (evs, c1) →
  (∃ n, 0 < n ∧ recvBuffer_ c1 = drop n (recvBuffer_ c) ∧ n ≤ length (recvBuffer_ c)) ∨ wraps (recvBuffer_ c).
Proof.
  intros Hsz Hstep. unfold response_step in Hstep.
  destruct (find crlf2 (recvBuffer_ c) 0) as [n|] eqn:Ef; [|done].
  pose proof (find_bound _ _ _ _ Ef) as [_ Hn]. change (length crlf2) with 4 in Hn.
  set (hs := substr (recvBuffer_ c) 0 n) in *.
  destruct (parseStatusLine _ _) as [r0|] eqn:Est.
  2: { destruct (fulfil_front c _) as [evs' c'] eqn:Eff. simplify_eq. left. exists (n + 4).
       pose proof (recv_fulfil c (failed (#"malformed HTTP status line: " ++
         match find crlf hs 0 with Some m => substr hs 0 m | None => hs end))) as Hr.
       rewrite Eff in Hr. cbn [recvBuffer_ with_recv snd] in *. rewrite Hr. split_and!; [lia|done|lia]. }
  set (r := match find crlf hs 0 with Some m => parseHeaders (drop (m + 2) hs) r0 | None => r0 end) in *.
  destruct (_ <? u64 _)%Z eqn:Elt; [done|]. bool_to_prop.
  pose proof (declared_length_nonneg r) as Hd.
  assert (Hrec : recvBuffer_ c1 = drop (Z.to_nat (u64 (Z.of_nat (n + 4) + declared_length r))) (recvBuffer_ c)).
  { injection Hstep as Hs. apply (f_equal snd) in Hs. cbn [snd] in Hs. rewrite <-Hs. apply recv_fulfil. }
  destruct (Z_lt_le_dec (Z.of_nat (n + 4) + declared_length r) (2 ^ 64)) as [Hlt|Hge].
  - left. rewrite u64_small in Hrec, Elt by lia. eexists. split_and!; [|exact Hrec|]; [lia|unfold zlen in *; lia].
  - right. exists n, r. split_and!; [done|done|..].
    + unfold response_step. cbn [recvBuffer_ with_recv]. rewrite Ef. fold hs. rewrite Est. fold r.
      rewrite (proj2 (Z.ltb_ge _ _)) by lia. done.
    + cbv zeta. fold hs. unfold r. destruct (find crlf hs 0) as [k|] eqn:Ek; [by rewrite Est|].
      exfalso. (* without headers no length is declared *)
      unfold r in Hge. unfold parseStatusLine in Est.
      assert (declared_length r0 = 0%Z) as Hz.
      { repeat case_match; try done; apply fmap_Some in Est as (code & _ & ->); reflexivity. }
      rewrite Hz in Hge. unfold zlen in Hsz. lia.
Qed.

(** The receive loop ends.  On any state of the client, the loop comes
    to wait for more data within one turn per byte received, or it meets a
    response whose declared length is so close to 2^64 that the sum of the
    lengths wraps around. *)
Theorem response_loop_ends (c : HttpClient) (Hsz : (zlen (recvBuffer_ c) < 2 ^ 63)%Z) :
  (∃ evs c', response_loop (S (length (recvBuffer_ c))) c = Some (evs, c') ∧ response_step c' = None) ∨
  (∃ n, wraps (drop n (recvBuffer_ c))).
Proof.
  cut (∀ f c, length (recvBuffer_ c) < f → (zlen (recvBuffer_ c) < 2 ^ 63)%Z →
    (∃ evs c', response_loop f c = Some (evs, c') ∧ response_step c' = None) ∨
    (∃ n, wraps (drop n (recvBuffer_ c)))); [intros Hg; apply Hg; [lia|done]|]. clear c Hsz.
  induction f as [|f IH]; intros c Hf Hsz; [lia|]. cbn [response_loop].
  destruct (response_step c) as [[evs c1]|] eqn:E; [|left; eauto].
  destruct (response_step_shrinks _ _ _ Hsz E) as [(n & Hn & Hr & Hle)|Hw]; [|right; exists 0; by rewrite drop_0].
  destruct (IH c1) as [(evs' & c' & Hl & Hs)|[m Hw]].
  - rewrite Hr, length_drop. lia.
  - rewrite Hr. unfold zlen in *. rewrite length_drop. lia.
  - left. rewrite Hl. eauto.
  - right. rewrite Hr, drop_drop in Hw. eauto.
Qed.

(** A server can make the client spin for ever with the mutex held: a length
    of minus the size of the header makes every turn consume nothing. *)
Definition spinning : str := #"HTTP/1.1 200 OK" ++ crlf ++ #"Content-Length: -40" ++ crlf2.

Example client_spins (fuel : nat) :
  response_loop fuel (with_recv (HttpClient_new (#"h")) spinning) = None.
Proof.
  induction fuel as [|f IH]; [done|]. cbn [response_loop].
  replace (response_step (with_recv (HttpClient_new (#"h")) spinning))
    with (Some ([] : list ClientEvent, with_recv (HttpClient_new (#"h")) spinning)) by (vm_compute; reflexivity).
  by rewrite IH.
Qed.

(** When the connection does not come up, the promise failed is the one at
    the front of the queue, not the caller's: two waiting requests. *)
Example not_connected_fails_front :
  let c1 := asyncRequest_begin (HttpClient_new (#"h")) in
  let c2 := asyncRequest_begin c1.2 in
  (c1.1, c2.1) = (0, 1) ∧
  (asyncRequest_end c2.2 []).1 = [Fulfil 0 (failed (#"not connected"))].
Proof. done. Qed.

(** ** Witnesses *)

Definition header_okb (kv : str * str) : bool :=
  bool_decide (":"%char ∉ kv.1 ∧ CR ∉ kv.1 ∧ CR ∉ kv.2) && negb (bool_decide (head kv.2 = Some SP))
    && negb (bool_decide (kv.2 = [])).

Lemma header_ok_dec kvs : forallb header_okb kvs = true → Forall header_ok kvs.
Proof.
  rewrite forallb_forall, Forall_forall. intros H kv Hin%list_elem_of_In. apply H in Hin. clear H.
  revert Hin. unfold header_okb. rewrite !andb_true_iff, !negb_true_iff, !bool_decide_eq_true, !bool_decide_eq_false.
  intros [[(H1 & H2 & H3) H4] H5]. split_and!; try done. destruct kv.2; [done|]. by intros ->.
Qed.



Lemma response_loop_ends_witness :
  let c := with_recv (HttpClient_new (#"h")) (#"HTTP/1.1 204 No" ++ crlf2) in
  (∃ evs c', response_loop (S (length (recvBuffer_ c))) c = Some (evs, c') ∧ response_step c' = None) ∨
  (∃ n, wraps (drop n (recvBuffer_ c))).
Proof. intros c. apply (response_loop_ends c). vm_compute. reflexivity. Defined.
