(* ===== verification/HttpSession.v ===== *)
(** * HttpSession: the HTTP client used by several threads

    [asyncRequest] of [src/http/HttpClient.h] takes the client's mutex twice:
    once to queue the promise, and, after the wait for a connection, once to
    send the request.  Between the two, other callers and the callbacks of the
    loop thread may come.  A session is the client ([HttpClient]) with the calls
    that stand between their two sections, what was transmitted on the present
    connection, and what became of the promises. *)

From S2P Require Import Prelude Buffer HttpRequest HttpResponse HttpCore HttpClient.

Record Session := mkSession {
  client : HttpClient;
  waiting : list (nat * str);                      (* calls before their second section *)
  wire : list (nat * str);                         (* requests sent on this connection *)
  came : nat;                                      (* responses read from it *)
  settled : list (nat * HttpClientResponse);       (* the promises set, in order *)
  answers : list (nat * option nat)                (* a promise set by a response, and the request it answers *)
}.

Definition Session_new (host : str) : Session := mkSession (HttpClient_new host) [] [] 0 [] [].

(** The promises an operation set. *)
Definition fulfilments (evs : list ClientEvent) : list (nat * HttpClientResponse) :=
  omap (λ e, match e with Fulfil p r => Some (p, r) | Transmit _ => None end) evs.

(** What it put on the connection. *)
Definition transmissions (evs : list ClientEvent) : list str :=
  omap (λ e, match e with Transmit d => Some d | Fulfil _ _ => None end) evs.

Definition update (s : Session) (evs : list ClientEvent) (c : HttpClient) : Session :=
  mkSession c (waiting s) (wire s) (came s) (settled s ++ fulfilments evs) (answers s).
Definition with_waiting (s : Session) (w : list (nat * str)) : Session :=
  mkSession (client s) w (wire s) (came s) (settled s) (answers s).
Definition with_wire (s : Session) (w : list (nat * str)) (n : nat) : Session :=
  mkSession (client s) (waiting s) w n (settled s) (answers s).

(** One response: it answers the request sent in its place. *)
Definition session_turn (s : Session) : option Session :=
  match response_step (client s) with
  | None => None
  | Some (evs, c1) =>
      Some (mkSession c1 (waiting s) (wire s) (S (came s)) (settled s ++ fulfilments evs)
              (answers s ++ ((λ pr : nat * HttpClientResponse, (pr.1, fst <$> wire s !! came s)) <$> fulfilments evs)))
  end.

(** [onMessage]'s loop, as [response_loop]. *)
Fixpoint session_loop (fuel : nat) (s : Session) : option Session :=
  match fuel with
  | O => None
  | S f => match session_turn s with None => Some s | Some s1 => session_loop f s1 end
  end.

Inductive Act :=
  | Begin (method path body contentType : str)   (* a caller queues its promise *)
  | Resume (i : nat)                             (* the i-th waiting caller goes on *)
  | Up                                           (* the loop thread: [onConnection] *)
  | Down
  | Receive (data : str).                        (* ... and [onMessage] *)

(** The methods for callers, synchronous and asynchronous, all make the same
    request; the synchronous ones then wait for the promise ([request_result]). *)
Definition json_type : str := #"application/json".
Definition GET (path : str) : Act := Begin (#"GET") path [] [].
Definition POST (path body contentType : str) : Act := Begin (#"POST") path body contentType.
Definition PUT (path body contentType : str) : Act := Begin (#"PUT") path body contentType.
Definition DELETE_METHOD (path : str) : Act := Begin (#"DELETE") path [] [].
Definition asyncGET (path : str) : Act := Begin (#"GET") path [] [].
Definition asyncPOST (path body contentType : str) : Act := Begin (#"POST") path body contentType.

Section Session.
Context (order : gmap str str → list (str * str)).

Definition act (s : Session) (a : Act) : option Session :=
  match a with
  | Begin m p b ct =>
      let '(pr, c1) := asyncRequest_begin (client s) in
      Some (with_waiting (update s [] c1) (waiting s ++ [(pr, buildRequest order (client s) m p b ct)]))
  | Resume i =>
      match waiting s !! i with
      | None => None
      | Some w =>
          let '(evs, c1) := asyncRequest_end (client s) w.2 in
          let s1 := with_waiting (update s evs c1) (delete i (waiting s)) in
          Some (with_wire s1 (wire s ++ (pair w.1 <$> transmissions evs)) (came s))
      end
  | Up =>
      if conn_ (client s) then None
      else let '(evs, c1) := onConnection (client s) true in Some (update s evs c1)
  | Down =>
      if conn_ (client s)
      then let '(evs, c1) := onConnection (client s) false in Some (with_wire (update s evs c1) [] 0) else None
  | Receive data =>
      if conn_ (client s) then
        let c1 := with_recv (client s) (recvBuffer_ (client s) ++ data) in
        session_loop (S (length (recvBuffer_ c1))) (update s [] c1)
      else None
  end.

Fixpoint run (acts : list Act) (s : Session) : option Session :=
  match acts with
  | [] => Some s
  | a :: rest => s1 ← act s a; run rest s1
  end.
End Session.

(** ** Every promise is set once, in the order of the queue *)

(** What an operation on the client does to the queue: promises leave at the
    front, and are set. *)
Definition settles (c : HttpClient) (evs : list ClientEvent) (c1 : HttpClient) : Prop :=
  (fulfilments evs).*1 ++ pendingQueue_ c1 = pendingQueue_ c ∧ next_promise c1 = next_promise c.

Lemma fulfil_front_spec c r :
  conn_ (fulfil_front c r).2 = conn_ c ∧
  match pendingQueue_ c with
  | [] => fulfilments (fulfil_front c r).1 = [] ∧ pendingQueue_ (fulfil_front c r).2 = []
  | p :: q => fulfilments (fulfil_front c r).1 = [(p, r)] ∧ pendingQueue_ (fulfil_front c r).2 = q
  end ∧ next_promise (fulfil_front c r).2 = next_promise c.
Proof. unfold fulfil_front. by destruct (pendingQueue_ c) eqn:E; cbn; rewrite ?E. Qed.

Lemma fulfil_front_silent c r : transmissions (fulfil_front c r).1 = [].
Proof. unfold fulfil_front. by destruct (pendingQueue_ c). Qed.

Lemma fulfil_front_settles c r : settles c (fulfil_front c r).1 (fulfil_front c r).2.
Proof.
  destruct (fulfil_front_spec c r) as (_ & H & Hn). split; [|done].
  destruct (pendingQueue_ c); destruct H as [-> ->]; done.
Qed.

(** A response sets the promise at the front, and changes nothing else but
    the bytes that wait. *)
Lemma response_step_queue c evs c1 :
  response_step c = Some (evs, c1) →
  conn_ c1 = conn_ c ∧
  match pendingQueue_ c with
  | [] => fulfilments evs = [] ∧ pendingQueue_ c1 = []
  | p :: q => ∃ r, fulfilments evs = [(p, r)] ∧ pendingQueue_ c1 = q
  end ∧ next_promise c1 = next_promise c.
Proof.
  unfold response_step. destruct (find crlf2 (recvBuffer_ c) 0) as [n|]; [|done].
  destruct (parseStatusLine _ _) as [r0|].
  - destruct (_ <? _)%Z; [done|]. intros [= H].
    match type of H with fulfil_front ?c0 ?r = _ =>
      destruct (fulfil_front_spec c0 r) as (Hc & Hq & Hn); rewrite H in Hc, Hq, Hn end.
    cbn in *. destruct (pendingQueue_ c); eauto.
  - destruct (fulfil_front c _) as [evs' c'] eqn:H. intros [= <- <-].
    match type of H with fulfil_front ?c0 ?r = _ =>
      destruct (fulfil_front_spec c0 r) as (Hc & Hq & Hn); rewrite H in Hc, Hq, Hn end.
    cbn in *. destruct (pendingQueue_ c); eauto.
Qed.

Lemma response_step_settles c evs c1 : response_step c = Some (evs, c1) → settles c evs c1.
Proof.
  intros H. destruct (response_step_queue _ _ _ H) as (_ & Hq & Hn). split; [|done].
  destruct (pendingQueue_ c); [destruct Hq as [-> ->]|destruct Hq as (r & -> & ->)]; reflexivity.
Qed.

Lemma onConnection_settles c up : settles c (onConnection c up).1 (onConnection c up).2.
Proof.
  destruct up; [done|]. split; [|done]. cbn. rewrite app_nil_r.
  induction (pendingQueue_ c) as [|p q IH]; [done|]. cbn. by f_equal.
Qed.

Lemma asyncRequest_end_settles c req : settles c (asyncRequest_end c req).1 (asyncRequest_end c req).2.
Proof. unfold asyncRequest_end. destruct (conn_ c); [done|apply fulfil_front_settles]. Qed.

(** All promises made so far: first those set, in order, then the queue. *)
Definition in_order (s : Session) : Prop :=
  (settled s).*1 ++ pendingQueue_ (client s) = seq 0 (next_promise (client s)).

Lemma settles_in_order s evs c1 n w wi a :
  in_order s → settles (client s) evs c1 →
  in_order (mkSession c1 w wi n (settled s ++ fulfilments evs) a).
Proof.
  unfold in_order. cbn. intros H [Hq Hn]. by rewrite fmap_app, <-app_assoc, Hq, Hn.
Qed.

Lemma session_loop_order f s s1 : in_order s → session_loop f s = Some s1 → in_order s1.
Proof.
  revert s. induction f as [|f IH]; intros s Hs; [done|]. cbn [session_loop]. unfold session_turn.
  destruct (response_step (client s)) as [[evs c1]|] eqn:E; [|by intros [= <-]].
  apply IH. by apply settles_in_order, response_step_settles.
Qed.

Section Order.
Context (order : gmap str str → list (str * str)).

Lemma act_order s a s1 : in_order s → act order s a = Some s1 → in_order s1.
Proof.
  intros Hs. destruct a as [m p b ct|i| | |data]; cbn [act].
  - intros [= <-]. unfold in_order in *.
    change ((settled s ++ []).*1 ++ pendingQueue_ (client s) ++ [next_promise (client s)]
      = seq 0 (S (next_promise (client s)))).
    by rewrite app_nil_r, seq_S, app_assoc, Hs.
  - destruct (waiting s !! i) as [w|]; [|done].
    pose proof (asyncRequest_end_settles (client s) w.2) as He.
    destruct (asyncRequest_end (client s) w.2) as [evs c1]. intros [= <-].
    by apply settles_in_order.
  - destruct (conn_ (client s)); [done|]. intros [= <-].
    exact (settles_in_order s [] _ _ _ _ _ Hs (onConnection_settles _ true)).
  - destruct (conn_ (client s)); [|done]. intros [= <-].
    exact (settles_in_order s _ _ _ _ _ _ Hs (onConnection_settles _ false)).
  - destruct (conn_ (client s)); [|done]. apply session_loop_order. unfold in_order in *. cbn. by rewrite app_nil_r.
Qed.

Lemma run_order acts s s1 : in_order s → run order acts s = Some s1 → in_order s1.
Proof.
  revert s. induction acts as [|a acts IH]; intros s Hs; [by intros [= <-]|]. cbn [run].
  destruct (act order s a) as [s2|] eqn:E; [|done]. cbn [mbind option_bind]. apply IH. by eapply act_order.
Qed.
End Order.

(** ** Responses reach the requests they answer

    Provided that callers do not overlap between their two sections, that the
    connection does not go down between them, and that the server sends one
    response for a request. *)

Definition polite (s : Session) (a : Act) (s1 : Session) : Prop :=
  match a with
  | Begin _ _ _ _ | Down => waiting s = []
  | Receive _ => came s1 ≤ length (wire s1)
  | _ => True
  end.

Inductive reachable (order : gmap str str → list (str * str)) (host : str) : Session → Prop :=
  | reachable_new : reachable order host (Session_new host)
  | reachable_act s a s1 :
      reachable order host s → act order s a = Some s1 → polite s a s1 → reachable order host s1.

Definition outstanding (s : Session) : list nat := (drop (came s) (wire s)).*1.

Definition own_answer (a : nat * option nat) : Prop := a.2 = Some a.1.

Record matched (s : Session) : Prop := {
  matched_answers : Forall own_answer (answers s);
  matched_queue : pendingQueue_ (client s) = outstanding s ++ (waiting s).*1;
  matched_waiting : length (waiting s) ≤ 1;
  matched_down : conn_ (client s) = false → outstanding s = [];
  matched_came : came s ≤ length (wire s)
}.

Lemma session_turn_frame s s1 :
  session_turn s = Some s1 →
  wire s1 = wire s ∧ came s1 = S (came s) ∧ waiting s1 = waiting s ∧ conn_ (client s1) = conn_ (client s).
Proof.
  unfold session_turn. destruct (response_step (client s)) as [[evs c1]|] eqn:E; [|done]. intros [= <-].
  cbn. by destruct (response_step_queue _ _ _ E) as [-> _].
Qed.

Lemma session_turn_matched s s1 :
  matched s → session_turn s = Some s1 → came s1 ≤ length (wire s1) → matched s1.
Proof.
  intros [Ha Hq Hw Hd _] Ht. destruct (session_turn_frame s s1 Ht) as (-> & -> & Ew & Ec). intros Hlen.
  destruct (lookup_lt_is_Some_2 (wire s) (came s)) as [[q req] Hl]; [lia|].
  assert (Ho : outstanding s = q :: (drop (S (came s)) (wire s)).*1).
  { unfold outstanding. by rewrite (drop_S _ _ _ Hl). }
  unfold session_turn in Ht. destruct (response_step (client s)) as [[evs c1]|] eqn:E; [|done].
  destruct (response_step_queue _ _ _ E) as (_ & H & _). rewrite Hq, Ho in H. cbn [app] in H.
  destruct H as (r & He & Hp). injection Ht as <-. split; cbn in *.
  - rewrite He, Hl. apply Forall_app. split; [done|]. by constructor.
  - exact Hp.
  - done.
  - rewrite Ec. intros Hf. by rewrite (Hd Hf) in Ho.
  - lia.
Qed.

Lemma session_loop_frame f s s1 : session_loop f s = Some s1 → came s ≤ came s1 ∧ wire s1 = wire s.
Proof.
  revert s. induction f as [|f IH]; intros s; [done|]. cbn [session_loop].
  destruct (session_turn s) as [s2|] eqn:E; [|by intros [= <-]]. intros H.
  destruct (session_turn_frame _ _ E) as (Hw & Hc & _). destruct (IH _ H) as [Hle ->]. split; [lia|done].
Qed.

Lemma session_loop_matched f s s1 :
  matched s → session_loop f s = Some s1 → came s1 ≤ length (wire s1) → matched s1.
Proof.
  revert s. induction f as [|f IH]; intros s Hm; [done|]. cbn [session_loop].
  destruct (session_turn s) as [s2|] eqn:E; [|by intros [= <-]]. intros H Hle.
  destruct (session_loop_frame _ _ _ H) as [Hc Hw]. apply (IH s2); try done.
  apply (session_turn_matched s); [done|done|]. rewrite <-Hw. lia.
Qed.

Lemma outstanding_send s w : came s ≤ length (wire s) → (drop (came s) (wire s ++ [w])).*1 = outstanding s ++ [w.1].
Proof. intros H. unfold outstanding. rewrite drop_app_le by done. by rewrite fmap_app. Qed.

Section Matched.
Context (order : gmap str str → list (str * str)).

(** A caller queues its promise. *)
Lemma begin_matched s m p b ct s1 :
  matched s → waiting s = [] → act order s (Begin m p b ct) = Some s1 → matched s1.
Proof.
  intros [Ha Hq Hw Hd Hc] He. cbn [act asyncRequest_begin]. intros [= <-].
  split; cbn; try done; rewrite ?He in *; [|cbn; lia]. unfold outstanding in *. cbn in *.
  by rewrite app_nil_r in Hq; rewrite Hq.
Qed.

(** The caller goes on: its request is behind those outstanding, or its own
    promise is the only one there is. *)
Lemma resume_matched s i s1 : matched s → act order s (Resume i) = Some s1 → matched s1.
Proof.
  intros [Ha Hq Hw Hd Hc]. cbn [act]. destruct (waiting s) as [|w [|? ?]] eqn:Ew; [done| |cbn in Hw; lia].
  destruct i as [|i]; [|done]. cbn [lookup list_lookup]. unfold asyncRequest_end.
  destruct (conn_ (client s)) eqn:Ec.
  - intros [= <-]. split; cbn; try done; [| |by rewrite Ec|rewrite length_app; lia].
    + unfold outstanding. cbn. rewrite outstanding_send, app_nil_r by done. exact Hq.
    + lia.
  - destruct (fulfil_front_spec (client s) (failed (#"not connected"))) as (Hc1 & Hp & _).
    pose proof (fulfil_front_silent (client s) (failed (#"not connected"))) as Ht.
    rewrite Hq, (Hd eq_refl) in Hp. cbn in Hp. destruct (fulfil_front _ _) as [evs c1]. cbn [fst snd] in Hc1, Hp, Ht. rewrite Ht, app_nil_r.
    destruct Hp as [_ Hp]. intros [= <-]. specialize (Hd eq_refl). unfold outstanding in *.
    split; cbn; try done; [by rewrite Hd|lia].
Qed.

Lemma act_matched s a s1 : matched s → act order s a = Some s1 → polite s a s1 → matched s1.
Proof.
  intros Hm. destruct a as [m p b ct|i| | |data]; cbn [polite].
  - intros H Hw. by eapply begin_matched.
  - intros H _. by eapply resume_matched.
  - destruct Hm as [Ha Hq Hw Hd Hc]. cbn [act]. destruct (conn_ (client s)) eqn:Ec; [done|]. by intros [= <-].
  - destruct Hm as [Ha Hq Hw Hd Hc]. cbn [act]. destruct (conn_ (client s)) eqn:Ec; [|done]. intros [= <-] He.
    split; cbn; rewrite ?He; cbn; (done || lia).
  - cbn [act]. destruct (conn_ (client s)) eqn:Ec; [|done]. apply session_loop_matched.
    destruct Hm as [Ha Hq Hw Hd Hc]. by split.
Qed.

Lemma reachable_matched host s : reachable order host s → matched s.
Proof. induction 1 as [|s a s1 Hr IH E Hp]; [split; cbn; (done || lia)|by eapply act_matched]. Qed.

(** The loop of the session is [onMessage]'s. *)
Lemma session_loop_client f s :
  match session_loop f s with
  | Some s1 => ∃ evs, response_loop f (client s) = Some (evs, client s1) ∧ settled s1 = settled s ++ fulfilments evs
  | None => response_loop f (client s) = None
  end.
Proof.
  revert s. induction f as [|f IH]; intros s; [done|]. cbn [session_loop response_loop]. unfold session_turn.
  destruct (response_step (client s)) as [[evs c1]|] eqn:E.
  - match goal with |- context [session_loop f ?s2] => specialize (IH s2); destruct (session_loop f s2) as [s1|] end.
    + cbn in IH. destruct IH as (evs' & -> & ->). eexists. split; [done|]. cbn.
      unfold fulfilments. by rewrite omap_app, app_assoc.
    + cbn in IH. by rewrite IH.
  - exists []. split; [done|]. cbn. by rewrite app_nil_r.
Qed.
End Matched.

(** ** The theorems *)

(** Every promise is set at most once and in the order in which requests
    were made, whatever the callers, the connection and the server do: those
    set so far and those in the queue are all that were made, in order.  When
    the connection goes down nobody is left waiting for a response. *)
Theorem promises_settle_in_order (order : gmap str str → list (str * str)) (host : str) (acts : list Act) (s : Session)
    (Hrun : run order acts (Session_new host) = Some s) :
  (settled s).*1 ++ pendingQueue_ (client s) = seq 0 (next_promise (client s)) ∧
  NoDup (settled s).*1 ∧
  ∀ s1, act order s Down = Some s1 → (settled s1).*1 = seq 0 (next_promise (client s1)).
Proof.
  assert (Ho : in_order s) by (by eapply (run_order order acts (Session_new host))).
  split; [exact Ho|]. split.
  - pose proof (NoDup_ListNoDup (seq 0 (next_promise (client s)))) as [_ Hn]. specialize (Hn (seq_NoDup _ _)).
    rewrite <-Ho in Hn. by apply NoDup_app in Hn as [? _].
  - intros s1 H. pose proof (act_order order s Down s1 Ho H) as H1. revert H H1. cbn [act].
    destruct (conn_ (client s)); [|done]. intros [= <-]. unfold in_order. cbn. by rewrite app_nil_r.
Qed.

(** C15: a response sets the promise of the request it answers.  Callers from
    any threads, connections that come up and go down: when no caller comes
    between the two sections of another and the connection does not go down
    there, the responses of the server, which answers the requests of a
    connection one by one, go each to the caller whose request it answers, and
    the queue is at any time the requests still to be answered, with the
    caller still to send last. *)
Theorem responses_reach_their_requests (order : gmap str str → list (str * str)) (host : str) (s : Session)
    (Hr : reachable order host s) :
  (∀ p q, (p, q) ∈ answers s → q = Some p) ∧
  pendingQueue_ (client s) = outstanding s ++ (waiting s).*1.
Proof.
  pose proof (reachable_matched order host s Hr) as [Ha Hq _ _ _]. split; [|exact Hq].
  intros p q Hin. rewrite Forall_forall in Ha. exact (Ha (p, q) Hin).
Qed.

(** ** What happens otherwise *)

Definition ok_response (body : str) : str :=
  #"HTTP/1.1 200 OK" ++ crlf ++ #"Content-Length: " ++ to_dec (zlen body) ++ crlf2 ++ body.

Definition plain_order (m : gmap str str) : list (str * str) := map_to_list m.

(** Two threads: the second to queue its promise is the first to send.  Each
    gets the response to the other's request. *)
Example overlapping_callers_swap :
  answers <$> run plain_order
    [Up; GET (#"/a"); GET (#"/b"); Resume 1; Resume 0;
     Receive (ok_response (#"for b") ++ ok_response (#"for a"))] (Session_new (#"h"))
  = Some [(0, Some 1); (1, Some 0)].
Proof. vm_compute. reflexivity. Qed.

(** The connection is lost and made again between the sections of a call: its
    promise has failed, but its request is sent, and the response to it is
    given to the next caller, and so on from there. *)
Example resent_on_a_new_connection :
  answers <$> run plain_order
    [Up; GET (#"/a"); Down; Up; Resume 0; asyncGET (#"/b"); Resume 0;
     Receive (ok_response (#"for a"))] (Session_new (#"h"))
  = Some [(1, Some 0)].
Proof. vm_compute. reflexivity. Qed.

(** ** Witnesses *)

Local Notation sample :=
  [GET (#"/a"); Up; Resume 0; POST (#"/b") (#"{}") json_type; Resume 0; Receive (ok_response (#"for a")); Down;
   DELETE_METHOD (#"/c"); Resume 0].

Lemma session_run :
  (λ s, ((settled s).*1, answers s)) <$> run plain_order sample (Session_new (#"h")) = Some ([0; 1; 2], [(0, Some 0)]).
Proof. vm_compute. reflexivity. Qed.

Definition politeb (s : Session) (a : Act) (s1 : Session) : bool :=
  match a with
  | Begin _ _ _ _ | Down => match waiting s with [] => true | _ => false end
  | Receive _ => came s1 <=? length (wire s1)
  | _ => true
  end.

Fixpoint polite_run (acts : list Act) (s : Session) : option Session :=
  match acts with
  | [] => Some s
  | a :: rest => s1 ← act plain_order s a; if politeb s a s1 then polite_run rest s1 else None
  end.

Lemma polite_run_reachable host acts s s1 :
  reachable plain_order host s → polite_run acts s = Some s1 → reachable plain_order host s1.
Proof.
  revert s. induction acts as [|a acts IH]; intros s Hr; [by intros [= <-]|]. cbn [polite_run].
  destruct (act plain_order s a) as [s2|] eqn:E; [|done]. cbn [mbind option_bind].
  destruct (politeb s a s2) eqn:Ep; [|done]. apply IH. apply (reachable_act _ _ s a); [done|done|].
  destruct a; cbn in *; try done; [by destruct (waiting s)|by destruct (waiting s)|by apply Nat.leb_le].
Qed.

Lemma promises_settle_in_order_witness :
  ∃ s, run plain_order sample (Session_new (#"h")) = Some s ∧ NoDup (settled s).*1.
Proof.
  destruct (run plain_order sample (Session_new (#"h"))) as [s|] eqn:E; [|by vm_compute in E].
  exists s. split; [done|]. exact (proj1 (proj2 (promises_settle_in_order plain_order (#"h") sample s E))).
Defined.

Lemma responses_reach_their_requests_witness :
  ∃ s, polite_run (take 6 sample) (Session_new (#"h")) = Some s ∧ answers s = [(0, Some 0)] ∧
    pendingQueue_ (client s) = outstanding s ++ (waiting s).*1.
Proof.
  destruct (polite_run (take 6 sample) (Session_new (#"h"))) as [s|] eqn:E; [|by vm_compute in E].
  exists s. split; [done|]. split; [apply (f_equal (fmap answers)) in E; vm_compute in E; by injection E|].
  apply (responses_reach_their_requests plain_order (#"h") s).
  apply (polite_run_reachable _ (take 6 sample) (Session_new (#"h"))); [apply reachable_new|exact E].
Defined.
