(* ===== verification/HttpEndToEnd.v ===== *)
(** * HttpEndToEnd: an HTTP client and an HTTP server over TCP

    Composes [HttpSession] (the callers and the client) with [HttpConnection]
    (the server on its connection): the bytes the client transmits are what the
    server reads, and the bytes the server's kernel takes are what the client
    reads, each cut in any way. *)

From S2P Require Import Prelude Buffer Poller TcpConnection HttpRequest HttpResponse Metrics RateLimiter HttpCore HttpServer ConnectionCalls HttpConnection HttpClient HttpSession.

(** ** The client's side *)

(** A request a caller makes. *)
Record Call := mkCall { c_method : str; c_path : str; c_body : str; c_type : str }.

Section Client.
Context (order : gmap str str → list (str * str)).

(** [asyncRequest] with the connection up: nothing comes between. *)
Definition acts_of (k : Call) : list Act := [Begin (c_method k) (c_path k) (c_body k) (c_type k); Resume 0].

Definition text_of (c : HttpClient) (k : Call) : str := buildRequest order c (c_method k) (c_path k) (c_body k) (c_type k).

(** What the line format of requests can carry, within the server's limits on
    the request line, on the head and on the body. *)
Definition callable (c : HttpClient) (k : Call) : Prop :=
  (SP ∉ c_method k ∧ CR ∉ c_method k) ∧ (SP ∉ c_path k ∧ CR ∉ c_path k ∧ "?"%char ∉ c_path k) ∧
  (zlen (c_method k) + zlen (c_path k) <= 8000)%Z ∧ (zlen (c_body k) <= kMaxBodySize)%Z ∧
  (zlen (text_of c k) <= kMaxRequestLine + zlen (c_body k))%Z ∧
  Forall header_ok (request_headers order c (c_body k) (c_type k)).

(** Connected, and nothing under way. *)
Record client_quiet (s : Session) : Prop := {
  cq_conn : conn_ (client s) = true;
  cq_waiting : waiting s = [];
  cq_queue : pendingQueue_ (client s) = [];
  cq_recv : recvBuffer_ (client s) = []
}.

(** What stays as it is. *)
Definition same_client (c c' : HttpClient) : Prop :=
  host_ c' = host_ c ∧ conn_ c' = conn_ c ∧ defaultHeaders_ c' = defaultHeaders_ c.

Lemma same_text c c' k : same_client c c' → text_of c' k = text_of c k.
Proof. intros (H1 & _ & H2). unfold text_of, buildRequest, request_lines. by rewrite H1, H2. Qed.

(** The calls are queued and transmitted in their order. *)
Lemma calls_run calls : ∀ s,
  conn_ (client s) = true → waiting s = [] →
  ∃ s', run order (calls ≫= acts_of) s = Some s' ∧
    same_client (client s) (client s') ∧ recvBuffer_ (client s') = recvBuffer_ (client s) ∧
    waiting s' = [] ∧ settled s' = settled s ∧
    (wire s').*2 = (wire s).*2 ++ (text_of (client s) <$> calls) ∧
    pendingQueue_ (client s') = pendingQueue_ (client s) ++ seq (next_promise (client s)) (length calls).
Proof.
  induction calls as [|k calls IH]; intros s Hc Hw.
  - exists s. rewrite !app_nil_r. done.
  - set (c1 := (asyncRequest_begin (client s)).2).
    set (s1 := mkSession c1 [] (wire s ++ [(next_promise (client s), text_of (client s) k)]) (came s) (settled s) (HttpSession.answers s)).
    destruct (IH s1 Hc eq_refl) as (s' & Hrun & Hsame & Hrecv & Hwait & Hset & Hwire & Hq).
    exists s'. split_and!; [|exact Hsame|exact Hrecv|done|done| |].
    + rewrite bind_cons. unfold acts_of at 1. cbn [app run act].
      cbn [asyncRequest_begin mbind option_bind]. rewrite Hw. cbn [app waiting with_waiting update lookup list_lookup].
      unfold asyncRequest_end. cbn [client conn_ with_waiting update]. rewrite Hc. cbn [mbind option_bind].
      rewrite <-Hrun. f_equal. unfold s1, c1, with_wire, with_waiting, update. cbn -[buildRequest]. by rewrite Hc, !app_nil_r.
    + rewrite Hwire. unfold s1. cbn [wire client]. rewrite fmap_app, <-app_assoc. do 2 f_equal.
    + rewrite Hq. unfold s1, c1. cbn [client pendingQueue_ asyncRequest_begin snd next_promise]. by rewrite <-app_assoc.
Qed.

Lemma fulfilments_zip ps vs : fulfilments (zip_with Fulfil ps vs) = zip ps vs.
Proof. revert vs. induction ps as [|p ps IH]; intros [|v vs]; [done..|]. cbn. f_equal. apply IH. Qed.

Lemma session_loop_waiting f s s1 : session_loop f s = Some s1 → waiting s1 = waiting s.
Proof.
  revert s. induction f as [|f IH]; intros s; [done|]. cbn [session_loop].
  destruct (session_turn s) as [s2|] eqn:E; [|by intros [= <-]]. intros H. rewrite (IH _ H).
  by destruct (session_turn_frame _ _ E) as (_ & _ & -> & _).
Qed.

(** The responses that come, in any chunks, settle the promises in front. *)
Lemma receives_run chunks : ∀ s ts ps,
  conn_ (client s) = true → Forall reads ts → response_step (client s) = None →
  recvBuffer_ (client s) ++ mjoin chunks = mjoin (fst <$> ts) → pendingQueue_ (client s) = ps → length ps = length ts →
  ∃ s', run order (Receive <$> chunks) s = Some s' ∧ same_client (client s) (client s') ∧ waiting s' = waiting s ∧
    settled s' = settled s ++ zip ps (snd <$> ts) ∧ pendingQueue_ (client s') = [] ∧ recvBuffer_ (client s') = [].
Proof.
  induction chunks as [|d chunks IH]; intros s ts ps Hc Hts Hn Hd Hq Hl.
  - exists s. rewrite app_nil_r in Hd. destruct ts as [|[b v] ts].
    + destruct ps; [|done]. rewrite app_nil_r. done.
    + apply Forall_cons in Hts as [[Hr _] _]. rewrite fmap_cons, mjoin_cons in Hd. by rewrite (Hr _ _ Hd) in Hn.
  - rewrite fmap_cons. cbn [run act]. rewrite Hc.
    set (c1 := with_recv (client s) (recvBuffer_ (client s) ++ d)).
    rewrite mjoin_cons, app_assoc in Hd.
    destruct (response_loop_prefix ts c1 (recvBuffer_ (client s) ++ d) (mjoin chunks) ps [] (S (length (recvBuffer_ c1))) Hts)
      as (ts1 & ts2 & p' & -> & Hp & Hp2 & Hloop & Hnone); [done|done|by rewrite app_nil_r|done|cbn; lia|].
    rewrite app_nil_r in Hloop, Hnone.
    pose proof (session_loop_client (S (length (recvBuffer_ c1))) (update s [] c1)) as Hs.
    destruct (session_loop _ _) as [s1|] eqn:E; cbn [client update] in Hs; rewrite Hloop in Hs; [|done].
    destruct Hs as (evs & Hev & Hset). injection Hev as <- Hc1. cbn [mbind option_bind].
    apply Forall_app in Hts as [Hts1 Hts2]. rewrite length_app in Hl.
    destruct (IH s1 ts2 (drop (length ts1) ps)) as (s' & Hrun & (S1 & S2 & S3) & Hw & Hset' & Hq' & Hr'); try done.
    + by rewrite <-Hc1.
    + by rewrite <-Hc1.
    + by rewrite <-Hc1.
    + by rewrite <-Hc1.
    + rewrite length_drop. lia.
    + exists s'. rewrite <-Hc1 in S1, S2, S3. split_and!; [done|done| | |done|done].
      * rewrite Hw. by apply session_loop_waiting in E.
      * rewrite Hset', Hset, fulfilments_zip. cbn [settled update fulfilments omap list_omap]. rewrite app_nil_r, <-app_assoc. f_equal.
        rewrite <-(take_drop (length ts1) ps) at 3. rewrite fmap_app, zip_with_app; [done|].
        rewrite length_take, length_fmap. lia.
Qed.
End Client.

(** ** The server's side *)

Section Link.
Context {R L A : Type} `{Limiter L} (regex_match : R → str → bool).
Context (compress decompress : str → str) (fs : FileSystem).
Context (order : gmap str str → list (str * str)) (client_order : gmap str str → list (str * str)).
Context {B : Type} `{ByteQueue B}.
Context (s : @HttpServer R L A).

Local Abbreviation World := (@World L A).
Local Abbreviation State := (@State L A B).
Local Abbreviation serve_all := (serve_all regex_match compress decompress fs order s).
Local Abbreviation plays := (plays regex_match compress decompress fs order s).
Local Abbreviation in_step := (in_step regex_match compress decompress fs order s).

(** The response the application makes, as it is sent. *)
Definition answer (req : HttpRequest) (w : World) : HttpResponse * World :=
  let '(resp0, w1) := handleRequest regex_match fs order (core_ s) req HttpResponse_new w in
  (set_close (postProcessResponse compress (core_ s) req resp0) (negb (keepAlive req)), w1).

Fixpoint answer_all (reqs : list HttpRequest) (w : World) : list HttpResponse * World :=
  match reqs with
  | [] => ([], w)
  | req :: reqs' => let '(r, w1) := answer req w in let '(rs, w2) := answer_all reqs' w1 in (r :: rs, w2)
  end.

(** Sent at once, from memory, on a connection that stays open. *)
Definition at_once (r : HttpResponse) : Prop :=
  deferred r = false ∧ hasFileBody r = false ∧ closeConnection r = false ∧ plain_response order r.

Definition response_text (r : HttpResponse) : str := toHeader order r ++ rbody r.
Definition response_call (r : HttpResponse) : Action := SendIov [toHeader order r; rbody r].

Lemma respond_at_once req w : at_once (answer req w).1 →
  respond regex_match compress fs order s req w = (Some ([response_call (answer req w).1], false), (answer req w).2).
Proof.
  unfold answer, respond. destruct (handleRequest _ _ _ _ _ _ _) as [resp0 w1]. cbn [fst snd].
  set (r1 := postProcessResponse _ _ _ _). intros (H1 & H2 & H3 & H4 & _).
  change (deferred r1 = false) in H1. rewrite H1. unfold canSendIov. rewrite H2, H3, H4. done.
Qed.

(** A text that the server's parser takes for one request. *)
Definition is_request (t : str) (req : HttpRequest) : Prop :=
  t ≠ [] ∧ (∀ rest, parseRequest_string decompress (t ++ rest) HttpRequest_new = (Complete, req, rest)) ∧
  (∀ p q, t = p ++ q → q ≠ [] → ∃ r, parseRequest_string decompress p HttpRequest_new = (Incomplete, r, p)).

Lemma serve_at_once ts reqs : Forall2 is_request ts reqs → ∀ w,
  Forall at_once (answer_all reqs w).1 →
  serve_all (mjoin ts) w = (response_call <$> (answer_all reqs w).1, Drained, [], (answer_all reqs w).2).
Proof.
  induction 1 as [|t req ts reqs (_ & Ht & _) _ IH]; intros w Hr; [done|]. cbn [answer_all] in *.
  pose proof (respond_at_once req w) as Hresp. destruct (answer req w) as [r w1]. cbn [fst snd] in Hresp.
  destruct (answer_all reqs w1) as [rs w2] eqn:E. cbn [fst snd] in *. apply Forall_cons in Hr as [Hr Hrs].
  rewrite mjoin_cons. etrans; [eapply serve_whole_complete, Ht|]. rewrite (Hresp Hr).
  specialize (IH w1). rewrite E in IH. unfold HttpServer.serve_all, serve in IH. unfold serve_whole. by rewrite (IH Hrs).
Qed.

Definition still_open (r : list Action * Exit * str * World) : Prop := r.1.1.2 = Drained ∨ r.1.1.2 = WaitMore.

(** Whatever part of the requests has come, the server goes on reading. *)
Lemma serve_prefix ts reqs : Forall2 is_request ts reqs → ∀ p q w,
  p ++ q = mjoin ts → Forall at_once (answer_all reqs w).1 → still_open (serve_all p w).
Proof.
  induction 1 as [|t req ts reqs (Hne & Ht & Hwait) _ IH]; intros p q w Hpq Hr.
  - apply app_eq_nil in Hpq as [-> ->]. by left.
  - rewrite mjoin_cons in Hpq. cbn [answer_all] in Hr. pose proof (respond_at_once req w) as Hresp.
    destruct (answer req w) as [r w1]. specialize (IH) as IHw. destruct (answer_all reqs w1) as [rs w2] eqn:E.
    cbn [fst snd] in *. apply Forall_cons in Hr as [Hr Hrs].
    destruct (app_cases _ _ _ _ Hpq) as [(x & -> & Hx)|(x & Hx & Et & _)].
    + assert (Hopen : still_open (serve_all x w1)) by (apply (IH x q); [done|by rewrite E]).
      assert (Es : serve_all (t ++ x) w = (let '(outs, e, rest2, w2) := serve_all x w1 in ([response_call r] ++ outs, e, rest2, w2))).
      { etrans; [eapply serve_whole_complete, Ht|]. by rewrite (Hresp Hr). }
      rewrite Es. by destruct (serve_all x w1) as [[[? ?] ?] ?].
    + destruct (Hwait p x Et Hx) as (r2 & Hp). destruct p as [|a p]; [by left|]. right.
      unfold HttpServer.serve_all, serve. cbn [length serve_with]. by rewrite Hp.
Qed.

Lemma wire_responses rs : wire_bytes (response_call <$> rs) = mjoin (response_text <$> rs).
Proof.
  induction rs as [|r rs IH]; [done|]. unfold wire_bytes in *. rewrite !fmap_cons, !mjoin_cons, IH.
  cbn [act_bytes response_call]. by rewrite !mjoin_cons, app_nil_r.
Qed.

Lemma no_file_responses rs : Forall no_file (response_call <$> rs).
Proof. apply Forall_fmap, Forall_true. done. Qed.

(** The text of a call is a request, and the request is the call. *)
Definition same_request (k : Call) (req : HttpRequest) : Prop :=
  method req = stringToMethod (c_method k) ∧ path req = c_path k ∧ body req = c_body k.

Definition request_of (c : HttpClient) (k : Call) : HttpRequest :=
  (parseRequest_string decompress (text_of client_order c k) HttpRequest_new).1.2.

Lemma texts_requests (c : HttpClient) calls :
  Forall (callable client_order c) calls → Forall (λ kv, lower kv.1 ∉ reserved) (client_order (defaultHeaders_ c)) →
  Forall2 is_request (text_of client_order c <$> calls) (request_of c <$> calls) ∧
  Forall2 same_request calls (request_of c <$> calls).
Proof.
  intros Hcalls Hdef. induction Hcalls as [|k calls (H1 & H2 & H3 & H4 & Hhead & H5) _ [IH1 IH2]]; [done|].
  destruct (request_read client_order decompress c _ _ _ _ H1 H2 H3 H4 H5 Hdef) as (h & req & Et & Hf & Hm & _ & Hpath & _ & Hb & _).
  change (text_of client_order c k = h ++ crlf2 ++ c_body k) in Et.
  assert (E : request_of c k = req).
  { unfold request_of. rewrite Et. rewrite <-(app_nil_r (c_body k)). by rewrite (parse_frame decompress h _ _ req []). }
  rewrite !fmap_cons, E. split; constructor; [|done|done|done]. rewrite Et. split_and!.
  - by destruct h.
  - intros rest. rewrite <-!app_assoc. by apply parse_frame.
  - intros p q Hpq Hq. apply (frame_prefix decompress h (c_body k) HttpRequest_new req p q Hf Hpq Hq). intros Hnone.
    rewrite app_assoc in Hpq. symmetry in Hpq. destruct (app_cases p q (h ++ crlf2) (c_body k)) as [(x & -> & _)|(x & Hx & Ep & _)]; [done| |].
    + destruct Hf as [Hf _]. by rewrite (find0_app _ _ x _ Hf) in Hnone.
    + apply (f_equal length) in Ep. rewrite Et in Hhead. revert Hhead Ep. len.
Qed.

Lemma answer_all_length reqs w : length (answer_all reqs w).1 = length reqs.
Proof.
  revert w. induction reqs as [|req reqs IH]; intros w; cbn [answer_all]; [done|]. destruct (answer req w) as [r w1].
  specialize (IH w1). destruct (answer_all reqs w1). cbn in *. by f_equal.
Qed.

(** ** The link *)

Record Link := mkLink { session : Session; server : State }.

(** Nothing under way on either side: the server has read and answered all
    that came, and its answers have been written. *)
Definition quiet (l : Link) : Prop :=
  client_quiet (session l) ∧
  ∃ w0 data acts, in_step w0 data acts (server l) ∧ Forall no_file acts ∧
    (ended (server l) = Drained ∨ ended (server l) = WaitMore) ∧
    bq_contents (inputBuffer_ (conn (server l))) = [] ∧ bq_contents (outputBuffer_ (conn (server l))) = [].

Definition Link_start (host : str) (sockfd : Z) (wc hw : bool) (w : World) : Link :=
  mkLink (mkSession (with_conn (HttpClient_new host) true) [] [] 0 [] []) (start_state sockfd wc hw w).

Lemma quiet_start host sockfd wc hw w : quiet (Link_start host sockfd wc hw w).
Proof.
  split; [done|]. exists w, [], []. split_and!; [apply start_in_step|done|by left|apply bq_empty_ok..].
Qed.

(** A read brings something. *)
Definition brings (e : Event) : Prop := match e with Readable d _ => d ≠ [] | _ => True end.

(** The events of such requests can all take place. *)
Lemma plays_go w0 es : ∀ data acts st all q,
  in_step w0 data acts st → data ++ received es ++ q = all →
  (∀ p q, p ++ q = all → length data ≤ length p → still_open (serve_all p w0)) →
  Forall (λ e, event_ok e ∧ brings e) es → ∃ st', plays st es = Some st'.
Proof.
  induction es as [|e es IH]; intros data acts st all q Hin Hall Hopen Hes; [by exists st|].
  apply Forall_cons in Hes as [[He Hb] Hes]. cbn [HttpConnection.plays].
  assert (Ho : open (ended st) = true).
  { destruct (Hopen data (received (e :: es) ++ q) Hall) as [Hd|Hd]; [lia|..];
      pose proof (proj1 (proj2 Hin)) as E; rewrite E in Hd; cbn in Hd; by rewrite Hd. }
  assert (Hp : ∃ st1, play regex_match compress decompress fs order s st e = Some st1).
  { destruct e as [d wrs|wr|wr]; cbn [play]; [|eauto..]. destruct d; [done|]. rewrite Ho. eauto. }
  destruct Hp as [st1 Hp]. rewrite Hp. cbn [mbind option_bind].
  destruct (play_in_step _ _ _ _ _ _ w0 data acts st e st1 Hin He Hp) as (more & Hin1).
  apply (IH (data ++ received [e]) (acts ++ more) st1 all q Hin1); [| |done].
  - rewrite <-Hall, <-app_assoc. f_equal. rewrite (app_assoc (received [e])). f_equal.
    unfold received. cbn [omap list_omap]. destruct e; cbn; by rewrite ?app_nil_r.
  - intros p q' Hpq Hl. apply (Hopen p q' Hpq). rewrite length_app in Hl. lia.
Qed.

Lemma play_served w0 data acts st es ts reqs :
  in_step w0 data acts st → ended st = Drained ∨ ended st = WaitMore → bq_contents (inputBuffer_ (conn st)) = [] →
  Forall (λ e, event_ok e ∧ brings e) es → received es = mjoin ts → Forall2 is_request ts reqs →
  Forall at_once (answer_all reqs (wd st)).1 →
  ∃ st', plays st es = Some st' ∧ in_step w0 (data ++ mjoin ts) (acts ++ (response_call <$> (answer_all reqs (wd st)).1)) st' ∧
  ended st' = Drained ∧ bq_contents (inputBuffer_ (conn st')) = [] ∧ wd st' = (answer_all reqs (wd st)).2.
Proof.
  intros Hin He Hbuf Hes Hrec Hts Hrs.
  assert (Hp : ∃ st', plays st es = Some st').
  { apply (plays_go w0 es data acts st (data ++ mjoin ts) [] Hin); [by rewrite Hrec, app_nil_r| |done].
    intros p q Hpq Hl. destruct (app_cases p q data (mjoin ts) Hpq) as [(x & -> & Hx)|(x & Hx & Ed & _)].
    - pose proof (serve_prefix ts reqs Hts x q (wd st) Hx Hrs) as Hopen. pose proof (proj1 (proj2 Hin)) as E1. rewrite Hbuf in E1.
      assert (E : serve_all (data ++ x) w0 = (let '(more, e', rest', w2) := serve_all x (wd st) in (acts ++ more, e', rest', w2)))
        by exact (serve_whole_app _ _ _ data x w0 (wd st) acts (ended st) [] E1 He).
      rewrite E. by destruct (serve_all x (wd st)) as [[[? ?] ?] ?].
    - rewrite Ed, length_app in Hl. destruct x; [done|simpl in Hl; lia]. }
  destruct Hp as [st' Hp]. exists st'. split; [exact Hp|]. apply Forall_and in Hes as [Hes _].
  destruct (plays_in_step _ _ _ _ _ _ w0 es data acts st st' Hin Hes Hp) as (more & Hin'). rewrite Hrec in Hin'.
  pose proof (proj1 (proj2 Hin)) as E1. pose proof (proj1 (proj2 Hin')) as E2. rewrite Hbuf in E1.
  assert (E3 : serve_all (data ++ mjoin ts) w0
    = (acts ++ (response_call <$> (answer_all reqs (wd st)).1), Drained, [], (answer_all reqs (wd st)).2)).
  { etrans; [exact (serve_whole_app _ _ _ data (mjoin ts) w0 (wd st) acts (ended st) [] E1 He)|].
    pose proof (serve_at_once ts reqs Hts (wd st) Hrs) as E. unfold HttpServer.serve_all, serve in E. unfold serve_whole.
    cbn [app]. by rewrite E. }
  rewrite E3 in E2. injection E2 as E4 E5 E6 E7. apply (inj (app acts)) in E4.
  split_and!; [by rewrite E4|done|done|done].
Qed.

(** With nothing left to write, the wire has the calls. *)
Lemma wire_drained w0 data acts st :
  in_step w0 data acts st → Forall no_file acts → bq_contents (outputBuffer_ (conn st)) = [] →
  TcpConnection.wire (log (conn st)) = wire_bytes acts.
Proof.
  intros (_ & _ & Hi) Hf Ho. destruct (Hi Hf) as (_ & Es & _). rewrite <-Es. unfold stream. by rewrite Ho, app_nil_r.
Qed.

Lemma reads_responses rs :
  order_ok order → Forall at_once rs → Forall reads ((λ r, (response_text r, client_view order r)) <$> rs).
Proof.
  intros Ho Hrs. apply Forall_fmap. eapply Forall_impl; [exact Hrs|]. intros r (_ & _ & _ & Hr). split.
  - by apply response_read.
  - change (response_text r ≠ []). unfold response_text. rewrite toHeader_lines by apply Hr. by destruct (join_lines _).
Qed.

(** C1: a request and its response, from caller to caller.  On a quiet
    connection between an HTTP client and an HTTP server, which is up, callers
    make any number of requests one after the other: each is queued and sent
    before the next begins ([acts_of]; two callers that overlap can get each
    other's response, [HttpSession.overlapping_callers_swap]).  The requests are
    within the line format and the limits of the server, with no question mark
    in the path ([callable]); no default header is a Content-Length or
    a Content-Encoding; and the responses the handlers make are sent at once, from memory, with the
    length of their body, on a connection that stays open ([at_once]).
    Then, if their bytes reach the server cut into any reads, the server's
    kernel takes any part of each write, and in the end something of each until
    the buffer is empty, and what it took reaches the client in any chunks: the handlers
    have been called with exactly the callers' methods, paths and bodies, in the
    order of the calls; every promise is settled, in that order, with the status,
    the headers and the body of the response to its own request; and the
    connection is quiet again. *)
Theorem requests_come_back (l : Link) (calls : list Call) (es : list Event) :
  let c := client (session l) in
  let reqs := request_of c <$> calls in
  let '(rs, w') := answer_all reqs (wd (server l)) in
  quiet l → order_ok order →
  Forall (callable client_order c) calls → Forall (λ kv, lower kv.1 ∉ reserved) (client_order (defaultHeaders_ c)) →
  Forall at_once rs →
  Forall (λ e, event_ok e ∧ brings e) es → received es = mjoin (text_of client_order c <$> calls) →
  Forall2 same_request calls reqs ∧
  ∃ s1 st1,
    run client_order (calls ≫= acts_of) (session l) = Some s1 ∧
    (wire s1).*2 = (wire (session l)).*2 ++ (text_of client_order c <$> calls) ∧
    plays (server l) es = Some st1 ∧ wd st1 = w' ∧
    ∀ wrs, Forall (λ wr, takes_part wr ∧ takes_some wr) wrs → length (bq_contents (outputBuffer_ (conn st1))) ≤ length wrs →
    ∃ st2, plays st1 (Writable <$> wrs) = Some st2 ∧
    ∀ chunks, TcpConnection.wire (log (conn st2)) = TcpConnection.wire (log (conn (server l))) ++ mjoin chunks →
      ∃ s2, run client_order (Receive <$> chunks) s1 = Some s2 ∧
        settled s2 = settled (session l) ++ zip (seq (next_promise c) (length calls)) (client_view order <$> rs) ∧
        quiet (mkLink s2 st2).
Proof.
  intros c reqs. destruct (answer_all reqs (wd (server l))) as [rs w'] eqn:Ers.
  intros [[Q1 Q2 Q3 Q4] (w0 & data & acts & Hin & Hf & He & Hib & Hob)] Horder Hcalls Hdef Hrs Hes Hnet.
  destruct (texts_requests c calls Hcalls Hdef) as [Hts Hsame]. split; [exact Hsame|].
  destruct (play_served w0 data acts (server l) es _ reqs Hin He Hib Hes Hnet Hts) as (st1 & Hplay & Hin1 & He1 & Hib1 & Hw1); [by rewrite Ers|].
  rewrite Ers in Hin1, Hw1. cbn [fst snd] in *.
  assert (Hf1 : Forall no_file (acts ++ (response_call <$> rs))) by (apply Forall_app; split; [done|apply no_file_responses]).
  destruct (calls_run client_order calls (session l) Q1 Q2) as (s1 & Hr1 & (S1 & S2 & S3) & Hrecv1 & Hw & Hset & Hwire & Hq).
  exists s1, st1. split_and!; [done..|]. intros wrs Hwrs Henough.
  destruct (writes_drain _ _ _ _ _ _ w0 _ wrs _ st1 Hin1 Hf1 Hwrs Henough) as (st2 & Hp2 & Hin2 & Ho2).
  exists st2. pose proof (proj1 (proj2 Hin1)) as E1. pose proof (proj1 (proj2 Hin2)) as E2. rewrite E1 in E2.
  injection E2 as E3 E4 E5. split; [done|]. intros chunks Hchunks.
  rewrite (wire_drained _ _ _ _ Hin2 Hf1 Ho2), (wire_drained _ _ _ _ Hin Hf Hob), wire_bytes_app, wire_responses in Hchunks.
  apply (inj (app (wire_bytes acts))) in Hchunks.
  destruct (receives_run client_order chunks s1 ((λ r, (response_text r, client_view order r)) <$> rs)
    (seq (next_promise c) (length calls))) as (s2 & Hr2 & (T1 & T2 & T3) & Hw2 & Hset2 & Hq2 & Hrc2).
  - congruence.
  - by apply reads_responses.
  - unfold response_step. by rewrite Hrecv1, Q4.
  - rewrite Hrecv1, Q4, <-list_fmap_compose. symmetry. exact Hchunks.
  - by rewrite Hq, Q3.
  - pose proof (answer_all_length reqs (wd (server l))) as El. rewrite Ers in El. cbn in El.
    rewrite length_seq, length_fmap, El. unfold reqs. by rewrite length_fmap.
  - exists s2. split_and!; [done|rewrite Hset2, Hset, <-list_fmap_compose; done|]. split.
    + split; cbn [session]; [congruence|congruence|done|done].
    + exists w0, (data ++ mjoin (text_of client_order c <$> calls)), (acts ++ (response_call <$> rs)).
      cbn [server]. split_and!; [done|done|left; congruence|congruence|done].
Qed.
End Link.

(** ** A conversation *)

Definition plain_responseb (order : gmap str str → list (str * str)) (r : HttpResponse) : bool :=
  negb (chunked_ r) && bool_decide (CR ∉ statusMessage r) && forallb header_okb (order (rheaders r)) &&
  bool_decide (rheaders r !! (#"Content-Length") = Some (to_dec (zlen (rbody r)))) &&
  bool_decide (map_Forall (λ k _, lower k = #"content-length" → k = #"Content-Length") (rheaders r)) &&
  (zlen (toHeader order r ++ rbody r) <? 2 ^ 63)%Z.

Lemma plain_response_dec order r : plain_responseb order r = true → plain_response order r.
Proof.
  unfold plain_responseb. rewrite !andb_true_iff, negb_true_iff, !bool_decide_eq_true, Z.ltb_lt.
  intros [[[[[H1 H2] H3%header_ok_dec] H4] H5] H6]. split_and!; try done.
Qed.

Definition at_onceb (order : gmap str str → list (str * str)) (r : HttpResponse) : bool :=
  negb (deferred r) && negb (hasFileBody r) && negb (closeConnection r) && plain_responseb order r.

Lemma at_once_dec order rs : forallb (at_onceb order) rs = true → Forall (at_once order) rs.
Proof.
  rewrite forallb_forall, Forall_forall. intros H r Hr%list_elem_of_In. apply H in Hr. clear H. revert Hr. unfold at_onceb.
  rewrite !andb_true_iff, !negb_true_iff. intros [[[H1 H2] H3] H4%plain_response_dec]. by split_and!.
Qed.

Definition callableb (order : gmap str str → list (str * str)) (c : HttpClient) (k : Call) : bool :=
  bool_decide (SP ∉ c_method k ∧ CR ∉ c_method k) && bool_decide (SP ∉ c_path k ∧ CR ∉ c_path k ∧ "?"%char ∉ c_path k) &&
  (zlen (c_method k) + zlen (c_path k) <=? 8000)%Z && (zlen (c_body k) <=? kMaxBodySize)%Z &&
  (zlen (text_of order c k) <=? kMaxRequestLine + zlen (c_body k))%Z &&
  forallb header_okb (request_headers order c (c_body k) (c_type k)).

Lemma callable_dec order c calls : forallb (callableb order c) calls = true → Forall (callable order c) calls.
Proof.
  rewrite forallb_forall, Forall_forall. intros H k Hk%list_elem_of_In. apply H in Hk. clear H. revert Hk. unfold callableb.
  rewrite !andb_true_iff, !bool_decide_eq_true, !Z.leb_le. intros [[[[[H1 H2] H3] H4] H5] H6%header_ok_dec]. exact (conj H1 (conj H2 (conj H3 (conj H4 (conj H5 H6))))).
Qed.

Definition sample_link : Link := Link_start (B := Buffer) (#"10.0.0.1:80") 5 true false sample_world.

Definition sample_calls : list Call := [mkCall (#"GET") (#"/a") [] []; mkCall (#"GET") (#"/b") (#"hello") (#"text/plain")].

Local Abbreviation sample_text := (mjoin (text_of map_to_list (client (session sample_link)) <$> sample_calls)).

(** The requests come in three reads; the kernel takes eleven bytes of a write. *)
Definition sample_reads : list Event :=
  [Readable (take 30 sample_text) (λ _, accepts 11); Writable (accepts 11);
   Readable (take 60 (drop 30 sample_text)) (λ _, accepts 11); Queued (accepts 11);
   Readable (drop 90 sample_text) (λ _, accepts 11)].

Lemma sample_reads_ok : Forall (λ e, event_ok e ∧ brings e) sample_reads.
Proof.
  pose proof (accepts_ok 11) as Ha. repeat (apply Forall_cons_2; [split; [cbn [event_ok]; intros; exact Ha|vm_compute; done]|]).
  by apply Forall_nil.
Qed.

Lemma requests_come_back_witness :
  let c := client (session sample_link) in
  let reqs := request_of id map_to_list c <$> sample_calls in
  let '(rs, w') := answer_all (λ _ _, true) id sample_fs map_to_list sample_server reqs (wd (server sample_link)) in
  statusCode <$> rs = [OK; OK] ∧
  Forall2 same_request sample_calls reqs ∧
  ∃ s1 st1,
    run map_to_list (sample_calls ≫= acts_of) (session sample_link) = Some s1 ∧
    (wire s1).*2 = (wire (session sample_link)).*2 ++ (text_of map_to_list c <$> sample_calls) ∧
    plays (λ _ _, true) id id sample_fs map_to_list sample_server (server sample_link) sample_reads = Some st1 ∧ wd st1 = w' ∧
    ∀ wrs, Forall (λ wr, takes_part wr ∧ takes_some wr) wrs → length (bq_contents (outputBuffer_ (conn st1))) ≤ length wrs →
    ∃ st2, plays (λ _ _, true) id id sample_fs map_to_list sample_server st1 (Writable <$> wrs) = Some st2 ∧
    ∀ chunks, TcpConnection.wire (log (conn st2)) = TcpConnection.wire (log (conn (server sample_link))) ++ mjoin chunks →
      ∃ s2, run map_to_list (Receive <$> chunks) s1 = Some s2 ∧
        settled s2 = settled (session sample_link)
          ++ zip (seq (next_promise c) (length sample_calls)) (client_view map_to_list <$> rs) ∧
        quiet (λ _ _, true) id id sample_fs map_to_list sample_server (mkLink s2 st2).
Proof.
  intros c reqs.
  pose proof (requests_come_back (λ _ _, true) id id sample_fs map_to_list map_to_list sample_server sample_link sample_calls sample_reads) as H.
  cbv zeta in H. fold c in H. fold reqs in H.
  assert (Hst : statusCode <$> (answer_all (λ _ _, true) id sample_fs map_to_list sample_server reqs (wd (server sample_link))).1
    = [OK; OK]) by (vm_compute; reflexivity).
  assert (Hao : forallb (at_onceb map_to_list)
    (answer_all (λ _ _, true) id sample_fs map_to_list sample_server reqs (wd (server sample_link))).1 = true) by (vm_compute; reflexivity).
  destruct (answer_all _ _ _ _ _ reqs _) as [rs w'] eqn:E. cbn [fst] in Hst, Hao. split; [exact Hst|].
  apply H.
  - apply quiet_start.
  - intros m. reflexivity.
  - apply callable_dec. vm_compute. reflexivity.
  - constructor.
  - by apply at_once_dec.
  - exact sample_reads_ok.
  - vm_compute. reflexivity.
Defined.
