(* ===== verification/WebSocketServer.v ===== *)
(** * WebSocketServer: handshake, frames and sessions

    Models [src/websocket/WsSession.h] and [src/websocket/WebSocketServer.h].
    What a session does to its connection and to the application is a list of
    events; what the application does to the session from inside a callback
    is a list of session operations, which run before the callback returns.
    The clock's reading is an argument.  SHA-1 is a parameter. *)

From S2P Require Import Prelude Buffer WebSocketFrame.

(** ** Sessions *)

Inductive WsState := Connecting | Open | Closing | Closed.

#[export] Instance WsState_eq_dec : EqDecision WsState.
Proof. solve_decision. Defined.

Record WsMessage := mkMessage { msg_opcode : WsOpcode; msg_data : list Z }.

Record WsSession := mkSession {
  state_ : WsState;
  lastActivityMs_ : Z;
  context_ : gmap str str;
  conn_connected : bool
}.

Definition WsSession_new (now : Z) (connected : bool) : WsSession := mkSession Connecting now ∅ connected.

Inductive WsEvent :=
  | Frame (data : list Z)
  | Http (text : str)
  | ShutdownConn
  | Opened (path : str)
  | Message (m : WsMessage)
  | Closed_
  | Failed (error : str).

Definition setState (s : WsSession) (st : WsState) : WsSession :=
  mkSession st (lastActivityMs_ s) (context_ s) (conn_connected s).
Definition setContext (s : WsSession) (k v : str) : WsSession :=
  mkSession (state_ s) (lastActivityMs_ s) (<[k := v]> (context_ s)) (conn_connected s).
Definition getContext (s : WsSession) (k dflt : str) : str := default dflt (context_ s !! k).
Definition updateActivity (s : WsSession) (now : Z) : WsSession :=
  mkSession (state_ s) now (context_ s) (conn_connected s).
Definition idleTimeMs (s : WsSession) (now : Z) : Z := now - lastActivityMs_ s.
Definition isOpen (s : WsSession) : bool := bool_decide (state_ s = Open).

Definition sendRaw (s : WsSession) (data : list Z) : list WsEvent :=
  if conn_connected s then [Frame data] else [].

Definition when_open (s : WsSession) (data : list Z) : list WsEvent * WsSession :=
  (if isOpen s then sendRaw s data else [], s).

Definition sendText (s : WsSession) (text : str) := when_open s (encodeText text).
Definition sendBinary (s : WsSession) (data : list Z) := when_open s (encodeBinary data).
Definition ping (s : WsSession) (data : list Z) := when_open s (encodePing data).
Definition pong (s : WsSession) (data : list Z) := when_open s (encodePong data).

(** After [conn_->shutdown()] the connection no longer reports itself
    connected. *)
Definition hang_up (s : WsSession) : WsSession :=
  mkSession (state_ s) (lastActivityMs_ s) (context_ s) false.

Definition close (s : WsSession) (code : Z) (reason : str) : list WsEvent * WsSession :=
  match state_ s with
  | Closed | Closing => ([], s)
  | _ => (sendRaw s (encodeClose code reason) ++ [ShutdownConn], hang_up (setState s Closing))
  end.

Definition forceClose (s : WsSession) : list WsEvent * WsSession :=
  match state_ s with
  | Closed => ([], s)
  | _ => ([ShutdownConn], hang_up (setState s Closed))
  end.

(** What the application can do to a session. *)
Inductive SessionOp :=
  | DoSendText (text : str)
  | DoSendBinary (data : list Z)
  | DoPing (data : list Z)
  | DoPong (data : list Z)
  | DoClose (code : Z) (reason : str)
  | DoForceClose
  | DoSetContext (k v : str).

Definition run_op (s : WsSession) (o : SessionOp) : list WsEvent * WsSession :=
  match o with
  | DoSendText t => sendText s t
  | DoSendBinary d => sendBinary s d
  | DoPing d => ping s d
  | DoPong d => pong s d
  | DoClose c r => close s c r
  | DoForceClose => forceClose s
  | DoSetContext k v => ([], setContext s k v)
  end.

Fixpoint run_ops (s : WsSession) (ops : list SessionOp) : list WsEvent * WsSession :=
  match ops with
  | [] => ([], s)
  | o :: ops' =>
      let '(e1, s1) := run_op s o in
      let '(e2, s2) := run_ops s1 ops' in (e1 ++ e2, s2)
  end.

(** ** The server *)

Record WebSocketConfig := mkConfig {
  maxMessageSize : Z;
  idleTimeoutMs : Z;
  enablePingPong : bool;
  pingIntervalMs : Z
}.

Definition WebSocketConfig_default : WebSocketConfig := mkConfig (10 * 1024 * 1024) 60000 true 30000.

(** *** Header parsing *)

Definition is_blank (c : ascii) : bool := bool_decide (c ∈ [SP; TAB; CR; LF]).

Definition trim (s : str) : str := rskip_chars [SP; TAB; CR; LF] (skip_chars [SP; TAB; CR; LF] s).

(** [std::map<std::string, std::string>]: an association list in the order of
    its keys. *)
Fixpoint str_ltb (a b : str) : bool :=
  match a, b with
  | _, [] => false
  | [], _ :: _ => true
  | x :: a', y :: b' =>
      if (u8_of x <? u8_of y)%Z then true
      else if (u8_of y <? u8_of x)%Z then false else str_ltb a' b'
  end.

Fixpoint smap_insert (k v : str) (m : list (str * str)) : list (str * str) :=
  match m with
  | [] => [(k, v)]
  | (k', v') :: m' =>
      if str_ltb k k' then (k, v) :: m
      else if bool_decide (k = k') then (k, v) :: m'
      else (k', v') :: smap_insert k v m'
  end.

Definition ws_header_line (m : list (str * str)) (line : str) : list (str * str) :=
  match find [ ":"%char ] line 0 with
  | None => m
  | Some colon => smap_insert (trim (take colon line)) (trim (drop (colon + 1) line)) m
  end.

Definition parseHeaders (header : str) : list (str * str) :=
  fold_lines ws_header_line (S (length header)) header 0 [].

Definition getHeader (headers : list (str * str)) (key : str) : str :=
  match List.find (λ kv, bool_decide (lower kv.1 = lower key)) headers with
  | Some kv => kv.2
  | None => []
  end.

(** *** Error pages *)

Definition bad_request_text (msg : str) : str :=
  #"HTTP/1.1 400 Bad Request" ++ crlf ++ #"Content-Type: text/plain" ++ crlf ++
  #"Content-Length: " ++ to_dec (zlen msg) ++ crlf ++ #"Connection: close" ++ crlf ++ crlf ++ msg.

Definition sendBadRequest (msg : str) : list WsEvent := [Http (bad_request_text msg); ShutdownConn].

Definition sendForbidden : list WsEvent :=
  [Http (#"HTTP/1.1 403 Forbidden" ++ crlf ++ #"Content-Type: text/plain" ++ crlf ++
         #"Content-Length: " ++ to_dec 9 ++ crlf ++ #"Connection: close" ++ crlf ++ crlf ++ #"Forbidden");
   ShutdownConn].

Section Server.
Context {A : Type} (SHA1 : str → list Z).

(** The application's callbacks, with its own state; an absent one is an
    empty [std::function]. *)
Record Handlers := mkHandlers {
  connectionHandler_ : option (str → A → list SessionOp * A);
  messageHandler_ : option (WsMessage → A → list SessionOp * A);
  closeHandler_ : option (A → A);
  errorHandler_ : option (str → A → list SessionOp * A);
  handshakeValidator_ : option (str → list (str * str) → bool)
}.

Context (h : Handlers) (config : WebSocketConfig).

(** A callback, if there is one, with what it does to the session. *)
Definition call_back {X : Type} (f : option (X → A → list SessionOp * A)) (x : X) (e : WsEvent)
    (s : WsSession) (a : A) : list WsEvent * WsSession * A :=
  match f with
  | None => ([], s, a)
  | Some g =>
      let '(ops, a') := g x a in
      let '(evs, s') := run_ops s ops in (e :: evs, s', a')
  end.

Definition accept_text (key : str) : str :=
  #"HTTP/1.1 101 Switching Protocols" ++ crlf ++ #"Upgrade: websocket" ++ crlf ++
  #"Connection: Upgrade" ++ crlf ++ #"Sec-WebSocket-Accept: " ++ computeAcceptKey SHA1 key ++ crlf ++ crlf.

(** The path in a request line; [None] is the error page.  [npos + 1] is
    zero, so that without a first space the second search finds none. *)
Definition request_path (requestLine : str) : option str :=
  match find [SP] requestLine 0 with
  | None => None
  | Some spacePos1 =>
      match find [SP] requestLine (spacePos1 + 1) with
      | None => None
      | Some spacePos2 => Some (substr requestLine (spacePos1 + 1) (spacePos2 - spacePos1 - 1))
      end
  end.

(** The header section; without headers the count [headerEnd - firstLineEnd - 2]
    wraps and takes everything behind the request line. *)
Definition header_section (request : str) (firstLineEnd headerEnd : nat) : str :=
  substr_z request (firstLineEnd + 2) (u64 (Z.of_nat headerEnd - Z.of_nat firstLineEnd - 2)).

Definition handleHandshake {B : Type} `{ByteQueue B} (s : WsSession) (buf : B) (now : Z) (a : A)
    : bool * list WsEvent * WsSession * B * A :=
  let request := bq_contents buf in
  match find crlf2 request 0 with
  | None => (false, [], s, buf, a)
  | Some headerEnd =>
      let buf1 := bq_retrieve buf (headerEnd + 4) in
      match find crlf request 0 with
      | None => (false, sendBadRequest (#"Invalid HTTP request"), hang_up s, buf1, a)
      | Some firstLineEnd =>
          match request_path (substr request 0 firstLineEnd) with
          | None => (false, sendBadRequest (#"Invalid request line"), hang_up s, buf1, a)
          | Some path =>
              let headers := parseHeaders (header_section request firstLineEnd headerEnd) in
              let wsKey := getHeader headers (#"Sec-WebSocket-Key") in
              if negb (bool_decide (lower (getHeader headers (#"Upgrade")) = #"websocket"))
              then (false, sendBadRequest (#"Missing or invalid Upgrade header"), hang_up s, buf1, a)
              else if negb (contains (#"upgrade") (lower (getHeader headers (#"Connection"))))
              then (false, sendBadRequest (#"Missing or invalid Connection header"), hang_up s, buf1, a)
              else if bool_decide (wsKey = [])
              then (false, sendBadRequest (#"Missing Sec-WebSocket-Key header"), hang_up s, buf1, a)
              else if (match handshakeValidator_ h with Some v => negb (v path headers) | None => false end)
              then (false, sendForbidden, hang_up s, buf1, a)
              else
                let s1 := setContext (updateActivity (setState s Open) now) (#"path") path in
                let '(evs, s2, a2) := call_back (connectionHandler_ h) path (Opened path) s1 a in
                (true, Http (accept_text wsKey) :: evs, s2, buf1, a2)
          end
      end
  end.

Definition handleMessage (s : WsSession) (m : WsMessage) (a : A) := call_back (messageHandler_ h) m (Message m) s a.
Definition handleError (s : WsSession) (e : str) (a : A) := call_back (errorHandler_ h) e (Failed e) s a.

(** What one decoded frame does. *)
Definition handle_frame (s : WsSession) (f : WebSocketFrame) (a : A) : list WsEvent * WsSession * A :=
  match opcode f with
  | Text | Binary => handleMessage s (mkMessage (opcode f) (payload f)) a
  | Ping => let '(evs, s') := pong s (payload f) in (evs, s', a)
  | Close => let '(evs, s') := close s 1000 [] in (evs, s', a)
  | _ => ([], s, a)
  end.

Definition too_large (f : WebSocketFrame) : bool :=
  ((0 <? maxMessageSize config) && (maxMessageSize config <? i32 (zlen (payload f))))%Z.

(** [None] is the exception of a frame whose declared length wraps. *)
Fixpoint handleWsFrames {B : Type} `{ByteQueue B} (fuel : nat) (s : WsSession) (buf : B) (now : Z) (a : A)
    : option (list WsEvent * WsSession * B * A) :=
  match fuel with
  | O => Some ([], s, buf, a)
  | S n =>
      if negb (0 <? bq_readable buf) then Some ([], s, buf, a)
      else match decode (u8_of <$> bq_contents buf) with
      | None => None
      | Some r =>
          match status r with
          | Incomplete => Some ([], s, buf, a)
          | Error =>
              let '(e1, s1, a1) := handleError s (#"Frame decode error: ") a in
              let '(e2, s2) := forceClose s1 in Some (e1 ++ e2, s2, buf, a1)
          | Ok =>
              let buf1 := bq_retrieve buf (Z.to_nat (consumed r)) in
              let s1 := updateActivity s now in
              if too_large (frame r) then
                let '(e1, s2, a1) := handleError s1 (#"Message too large") a in
                let '(e2, s3) := close s2 1009 (#"Message too large") in
                Some (e1 ++ e2, s3, buf1, a1)
              else
                let '(e1, s2, a1) := handle_frame s1 (frame r) a in
                match handleWsFrames n s2 buf1 now a1 with
                | Some (e2, s3, buf3, a3) => Some (e1 ++ e2, s3, buf3, a3)
                | None => None
                end
          end
      end
  end.

(** *** The table of sessions *)

Record WebSocketServer := mkServer {
  sessions_ : gmap str WsSession;
  connSessions_ : gset str;
  started_ : bool;
  app_state : A
}.

Definition put_session (srv : WebSocketServer) (name : str) (s : WsSession) (a : A) : WebSocketServer :=
  mkServer (if bool_decide (name ∈ dom (sessions_ srv)) then <[name := s]> (sessions_ srv) else sessions_ srv)
    (connSessions_ srv) (started_ srv) a.

(** [session->handleClose()]: the session object is no longer in the table. *)
Definition handleClose (s : WsSession) (a : A) : list WsEvent * A :=
  match state_ s with
  | Closed => ([], a)
  | _ => match closeHandler_ h with Some f => ([Closed_], f a) | None => ([], a) end
  end.

Definition onConnection (srv : WebSocketServer) (name : str) (connected : bool) (now : Z)
    : list (str * WsEvent) * WebSocketServer :=
  if connected then
    ([], mkServer (<[name := WsSession_new now true]> (sessions_ srv)) ({[name]} ∪ connSessions_ srv)
           (started_ srv) (app_state srv))
  else
    match sessions_ srv !! name with
    | None => ([], mkServer (sessions_ srv) (connSessions_ srv ∖ {[name]}) (started_ srv) (app_state srv))
    | Some s =>
        let '(evs, a') := handleClose s (app_state srv) in
        (pair name <$> evs,
         mkServer (delete name (sessions_ srv)) (connSessions_ srv ∖ {[name]}) (started_ srv) a')
    end.

(** [None]: an exception leaves the callback. *)
Definition onMessage {B : Type} `{ByteQueue B} (srv : WebSocketServer) (name : str) (buf : B) (now : Z)
    : option (list (str * WsEvent) * WebSocketServer * B) :=
  match sessions_ srv !! name with
  | None => Some ([(name, ShutdownConn)], srv, buf)
  | Some s =>
      match state_ s with
      | Connecting =>
          let '(_, evs, s', buf', a') := handleHandshake s buf now (app_state srv) in
          Some (pair name <$> evs, put_session srv name s' a', buf')
      | Open =>
          match handleWsFrames (S (bq_readable buf)) s buf now (app_state srv) with
          | None => None
          | Some (evs, s', buf', a') => Some (pair name <$> evs, put_session srv name s' a', buf')
          end
      | _ => Some ([], srv, buf)
      end
  end.

(** [getAllSessions] in some order, and the loops over it. *)
Context (order : gmap str WsSession → list (str * WsSession)).

Definition getAllSessions (srv : WebSocketServer) : list (str * WsSession) :=
  List.filter (λ kv, isOpen kv.2) (order (sessions_ srv)).

Fixpoint for_each (op : WsSession → list WsEvent * WsSession) (l : list (str * WsSession))
    (srv : WebSocketServer) : list (str * WsEvent) * WebSocketServer :=
  match l with
  | [] => ([], srv)
  | (name, s) :: l' =>
      let '(e1, s') := op s in
      let '(e2, srv') := for_each op l' (put_session srv name s' (app_state srv)) in
      ((pair name <$> e1) ++ e2, srv')
  end.

Definition broadcast (srv : WebSocketServer) (message : str) :=
  for_each (λ s, sendText s message) (getAllSessions srv) srv.
Definition broadcastBinary (srv : WebSocketServer) (data : list Z) :=
  for_each (λ s, sendBinary s data) (getAllSessions srv) srv.
Definition onPingTimer (srv : WebSocketServer) := for_each (λ s, ping s []) (getAllSessions srv) srv.
Definition onIdleTimer (srv : WebSocketServer) (now : Z) :=
  for_each (λ s, if (idleTimeoutMs config <? idleTimeMs s now)%Z
                 then close s 1000 (#"Idle timeout") else ([], s)) (getAllSessions srv) srv.
Definition shutdown (srv : WebSocketServer) :=
  let '(evs, srv') := for_each (λ s, close s 1001 (#"Server shutting down")) (getAllSessions srv) srv in
  (evs, mkServer (sessions_ srv') (connSessions_ srv') false (app_state srv')).

(** The timers that [start] sets up: their periods in milliseconds (the idle
    check runs twice per timeout). *)
Definition start (srv : WebSocketServer) : list (double * bool) * WebSocketServer :=
  if started_ srv then ([], srv)
  else
    ((if enablePingPong config && (0 <? pingIntervalMs config)%Z
      then [(ddiv (dbl (pingIntervalMs config)) (dbl 1000), true)] else []) ++
     (if (0 <? idleTimeoutMs config)%Z then [(ddiv (dbl (idleTimeoutMs config)) (dbl 2000), false)] else []),
     mkServer (sessions_ srv) (connSessions_ srv) true (app_state srv)).
End Server.

(** ** Frames are handled in order *)

Section Facts.
Context {A : Type} (SHA1 : str → list Z) (h : @Handlers A) (config : WebSocketConfig).

(** The frames of a sequence, handled one after the other. *)
Fixpoint process (now : Z) (fs : list WebSocketFrame) (s : WsSession) (a : A) : list WsEvent * WsSession * A :=
  match fs with
  | [] => ([], s, a)
  | f :: fs' =>
      let '(e1, s1, a1) := handle_frame h (updateActivity s now) f a in
      let '(e2, s2, a2) := process now fs' s1 a1 in (e1 ++ e2, s2, a2)
  end.

(** A frame as a client sends it: with its masking key. *)
Definition wire (fk : WebSocketFrame * list Z) : list Z := encode fk.1 true fk.2.
Definition arrives (fk : WebSocketFrame * list Z) : WebSocketFrame := seen fk.1 true fk.2.

Definition client_frame_ok (fk : WebSocketFrame * list Z) : Prop :=
  frame_ok fk.1 ∧ length fk.2 = 4 ∧ too_large config fk.1 = false.

Lemma encode_nonempty f m k : 0 < length (encode f m k).
Proof. unfold encode. len. Qed.

(** Masked frames that arrived back to back are decoded to exactly what was
    sent, and handled one after the other; the bytes behind them are then
    looked at as if they had come alone. *)
Lemma frames_handled {B : Type} `{ByteQueue B} (fs : list (WebSocketFrame * list Z)) (tail : list Z)
    (s : WsSession) (buf : B) (now : Z) (a : A) (fuel : nat)
    (Hv : bq_valid buf) (Hfs : Forall client_frame_ok fs)
    (Hc : u8_of <$> bq_contents buf = mjoin (wire <$> fs) ++ tail)
    (Hsz : (zlen (bq_contents buf) < 2 ^ 63)%Z) :
  ∃ buf',
    bq_valid buf' ∧ u8_of <$> bq_contents buf' = tail ∧
    handleWsFrames h config (length fs + fuel) s buf now a
    = (let '(evs, s1, a1) := process now (arrives <$> fs) s a in
       (λ p, (evs ++ p.1.1.1, p.1.1.2, p.1.2, p.2)) <$> handleWsFrames h config fuel s1 buf' now a1).
Proof.
  revert s buf a Hv Hc Hsz. induction Hfs as [|[f k] fs (Hf & Hk & Htl) Hfs IH]; intros s buf a Hv Hc Hsz.
  - exists buf. split_and!; [done|done|]. simpl.
    by destruct (handleWsFrames h config fuel s buf now a) as [[[[? ?] ?] ?]|].
  - rewrite fmap_cons, mjoin_cons, <-app_assoc in Hc. unfold wire at 1 in Hc. cbn [fst snd] in *.
    set (rest := mjoin (wire <$> fs) ++ tail) in *.
    assert (Hlen : length (bq_contents buf) = length (encode f true k ++ rest))
      by (rewrite <-Hc; len).
    pose proof (encode_nonempty f true k) as Hne.
    cbn [length Nat.add handleWsFrames]. rewrite (bq_readable_ok buf Hv).
    rewrite (proj2 (Nat.ltb_lt _ _)) by (rewrite Hlen; len). cbn [negb].
    rewrite Hc, decode_app by (try done; unfold zlen in *; lia). cbn [status consumed frame].
    replace (too_large config (seen f true k)) with false
      by (rewrite <-Htl; unfold too_large, seen; done).
    unfold zlen at 1. rewrite Nat2Z.id.
    destruct (bq_retrieve_ok buf (length (encode f true k)) Hv) as [Hv1 Hr].
    assert (Hc1 : u8_of <$> bq_contents (bq_retrieve buf (length (encode f true k))) = rest).
    { rewrite Hr, fmap_drop, Hc. apply drop_app_length. }
    cbn [fmap list_fmap process]. unfold arrives at 1. cbn [fst snd].
    destruct (handle_frame h (updateActivity s now) (seen f true k) a) as [[e1 s1] a1].
    destruct (IH s1 _ a1 Hv1 Hc1) as (buf' & Hv' & Hc' & Heq).
    { unfold zlen in *. rewrite Hr, length_drop. lia. }
    exists buf'. split_and!; [done|done|]. rewrite Heq.
    destruct (process now (arrives <$> fs) s1 a1) as [[e2 s2] a2].
    destruct (handleWsFrames h config fuel s2 buf' now a2) as [[[[? ?] ?] ?]|]; [|done].
    cbn [fmap option_fmap option_map fst snd]. by rewrite app_assoc.
Qed.

Lemma wire_count fs : length fs ≤ length (mjoin (wire <$> fs)).
Proof.
  induction fs as [|[f k] fs IH]; [done|]. rewrite fmap_cons, mjoin_cons. unfold wire at 1.
  pose proof (encode_nonempty f true k). cbn [fst snd]. rewrite length_app. cbn [length]. lia.
Qed.

(** The beginning of a frame, or nothing. *)
Definition unfinished (tail : list Z) : Prop := tail = [] ∨ status <$> decode tail = Some Incomplete.

(** In order, none lost.  Whatever the buffer, the masked frames that
    arrived back to back for an open session are decoded to exactly what was
    sent and handled one after the other, and the beginning of another frame
    behind them stays in the buffer, untouched. *)
Theorem frames_in_order {B : Type} `{ByteQueue B} (srv : @WebSocketServer A) (name : str) (s : WsSession) (buf : B)
    (now : Z) (fs : list (WebSocketFrame * list Z)) (tail : list Z)
    (Hv : bq_valid buf) (Hs : sessions_ srv !! name = Some s) (Ho : state_ s = Open)
    (Hfs : Forall client_frame_ok fs) (Ht : unfinished tail)
    (Hc : u8_of <$> bq_contents buf = mjoin (wire <$> fs) ++ tail)
    (Hsz : (zlen (bq_contents buf) < 2 ^ 63)%Z) :
  ∃ buf',
    bq_valid buf' ∧ u8_of <$> bq_contents buf' = tail ∧
    onMessage SHA1 h config srv name buf now
    = (let '(evs, s1, a1) := process now (arrives <$> fs) s (app_state srv) in
       Some (pair name <$> evs, put_session srv name s1 a1, buf')).
Proof.
  assert (Hl : length fs ≤ bq_readable buf).
  { rewrite (bq_readable_ok buf Hv), <-(length_fmap u8_of (bq_contents buf)), Hc, length_app. pose proof (wire_count fs). lia. }
  destruct (frames_handled fs tail s buf now (app_state srv) (S (bq_readable buf - length fs)) Hv Hfs Hc Hsz)
    as (buf' & Hv' & Hc' & Heq).
  exists buf'. split; [done|]. split; [done|]. unfold onMessage. rewrite Hs, Ho.
  replace (S (bq_readable buf)) with (length fs + S (bq_readable buf - length fs)) by lia. rewrite Heq.
  destruct (process now (arrives <$> fs) s (app_state srv)) as [[evs s1] a1]. cbn [handleWsFrames].
  rewrite (bq_readable_ok buf' Hv'), <-(length_fmap u8_of (bq_contents buf')), Hc'. destruct Ht as [->|Ht].
  - cbn. by rewrite app_nil_r.
  - destruct (decode tail) as [r|]; [|done]. injection Ht as Ht. rewrite Ht.
    destruct (negb _); cbn; by rewrite app_nil_r.
Qed.

(** ** The life of a session *)

Definition rank (st : WsState) : nat :=
  match st with Connecting => 0 | Open => 1 | Closing => 2 | Closed => 3 end.

Definition is_frame_event (e : WsEvent) : bool := match e with Frame _ => true | _ => false end.

(** What every operation on a session keeps: the state only moves forward; a
    session that is closing, or whose connection was shut down, sends no
    frame and stays shut down; and nothing is sent after a shutdown. *)
Definition no_frames (evs : list WsEvent) : Prop := Forall (λ e, is_frame_event e = false) evs.

Definition forward (s s' : WsSession) (evs : list WsEvent) : Prop :=
  rank (state_ s) ≤ rank (state_ s') ∧
  (2 ≤ rank (state_ s) → no_frames evs) ∧
  (conn_connected s = false → conn_connected s' = false ∧ no_frames evs) ∧
  (∀ pre post, evs = pre ++ ShutdownConn :: post → no_frames post ∧ conn_connected s' = false).

Lemma forward_silent s s' :
  rank (state_ s) ≤ rank (state_ s') → conn_connected s' = conn_connected s → forward s s' [].
Proof.
  intros E Ec. split_and!; [done|by constructor|rewrite Ec; split; [done|constructor]|by intros [|? ?] ? ?].
Qed.

Lemma forward_trans s1 s2 s3 e1 e2 : forward s1 s2 e1 → forward s2 s3 e2 → forward s1 s3 (e1 ++ e2).
Proof.
  unfold no_frames. intros (R1 & F1 & C1 & P1) (R2 & F2 & C2 & P2). split_and!.
  - lia.
  - intros. apply Forall_app. split; [by apply F1|apply F2; lia].
  - intros Hc. destruct (C1 Hc) as [Hc2 ?]. destruct (C2 Hc2). split; [done|by apply Forall_app].
  - intros pre post E. apply app_eq_inv in E as [(l & -> & E)|(l & -> & E)]; [|by apply (P2 l)].
    destruct l as [|x l]; [by apply (P2 []); simpl in *|].
    injection E as <- ->. destruct (P1 pre l eq_refl) as [? Hc]. destruct (C2 Hc).
    split; [by apply Forall_app|done].
Qed.

Lemma forward_event s e : is_frame_event e = false → e ≠ ShutdownConn → forward s s [e].
Proof.
  intros He Hs. split_and!; [done|by repeat constructor|split; [done|by repeat constructor]|].
  intros [|? [|? ?]] post E; simpl in E; simplify_eq; done.
Qed.

Lemma forward_when_open s d : let '(evs, s') := when_open s d in forward s s' evs.
Proof.
  unfold when_open, isOpen. case_bool_decide as E; [|by apply forward_silent].
  unfold sendRaw. destruct (conn_connected s) eqn:Ec; [|by apply forward_silent].
  split_and!; [done|rewrite E; simpl; lia|congruence|].
  intros [|? [|? ?]] post Eq; simpl in Eq; simplify_eq; done.
Qed.

Lemma forward_shut s s' evs :
  rank (state_ s) < 2 → rank (state_ s) ≤ rank (state_ s') → conn_connected s' = false →
  (conn_connected s = false → no_frames evs) → (∀ e, e ∈ evs → e ≠ ShutdownConn) →
  forward s s' (evs ++ [ShutdownConn]).
Proof.
  intros Hr Hle Hc Hnf Hns. split_and!; [done|lia|..].
  - intros H. split; [done|]. apply Forall_app. split; [by apply Hnf|by repeat constructor].
  - intros pre post E. split; [|done]. apply app_eq_inv in E as [(l & -> & E)|(l & -> & E)].
    + destruct l as [|x l]; [by injection E as ->; constructor|]. injection E as <- ->.
      exfalso. apply (Hns ShutdownConn); [|done]. rewrite elem_of_app, elem_of_cons. auto.
    + destruct l as [|? [|? ?]]; simpl in E; simplify_eq; constructor.
Qed.

Lemma forward_close s c r : let '(evs, s') := close s c r in forward s s' evs.
Proof.
  unfold close. destruct (state_ s) eqn:E; try (by apply forward_silent);
    (apply forward_shut; [rewrite E; simpl; lia|rewrite E; simpl; lia|done|..]);
    unfold sendRaw; destruct (conn_connected s); try done; intros; try constructor; try set_solver.
Qed.

Lemma forward_forceClose s : let '(evs, s') := forceClose s in forward s s' evs.
Proof.
  unfold forceClose. destruct (state_ s) eqn:E; try (by apply forward_silent).
  1, 2: apply (forward_shut s _ []); rewrite ?E; simpl; try done; try lia; set_solver || constructor.
  split_and!; [rewrite E; simpl; lia|by repeat constructor|split; [done|by repeat constructor]|].
  intros [|? [|? ?]] post Eq; simpl in Eq; simplify_eq; split; done || constructor.
Qed.

Lemma forward_op s o : let '(evs, s') := run_op s o in forward s s' evs.
Proof.
  destruct o; cbn [run_op]; try apply forward_when_open.
  - apply forward_close.
  - apply forward_forceClose.
  - by apply forward_silent.
Qed.

Lemma forward_ops s ops : let '(evs, s') := run_ops s ops in forward s s' evs.
Proof.
  revert s. induction ops as [|o ops IH]; intros s; cbn [run_ops]; [by apply forward_silent|].
  pose proof (forward_op s o) as H1. destruct (run_op s o) as [e1 s1].
  specialize (IH s1). destruct (run_ops s1 ops) as [e2 s2]. by eapply forward_trans.
Qed.

Lemma forward_call {X} (f : option (X → A → list SessionOp * A)) x e s a :
  is_frame_event e = false → e ≠ ShutdownConn →
  let '(evs, s', _) := call_back f x e s a in forward s s' evs.
Proof.
  intros He Hs. unfold call_back. destruct f as [g|]; [|by apply forward_silent].
  destruct (g x a) as [ops a']. pose proof (forward_ops s ops) as H1.
  destruct (run_ops s ops) as [evs s']. change (e :: evs) with ([e] ++ evs).
  eapply forward_trans; [by apply forward_event|done].
Qed.

Lemma forward_handle_frame s f a : let '(evs, s', _) := handle_frame h s f a in forward s s' evs.
Proof.
  unfold handle_frame. destruct (opcode f); try (by apply forward_silent); try (by apply forward_call).
  - pose proof (forward_close s 1000 []) as H. by destruct (close s 1000 []).
  - pose proof (forward_when_open s (encodePong (payload f))) as H. unfold pong. by destruct (when_open s _).
Qed.

Lemma forward_active s now s' evs : forward (updateActivity s now) s' evs → forward s s' evs.
Proof. done. Qed.

Lemma forward_frames {B : Type} `{ByteQueue B} fuel s (buf : B) now a :
  match handleWsFrames h config fuel s buf now a with
  | Some (evs, s', _, _) => forward s s' evs
  | None => True
  end.
Proof.
  revert s buf a. induction fuel as [|n IH]; intros s buf a; cbn [handleWsFrames]; [by apply forward_silent|].
  destruct (negb _); [by apply forward_silent|]. destruct (decode _) as [r|]; [|done].
  destruct (status r); [|by apply forward_silent|].
  - apply (forward_active s now) || idtac. destruct (too_large config (frame r)).
    + pose proof (forward_call (errorHandler_ h) (#"Message too large") (Failed (#"Message too large"))
        (updateActivity s now) a eq_refl ltac:(done)) as H1.
      unfold handleError. destruct (call_back _ _ _ _ _) as [[e1 s1] a1].
      pose proof (forward_close s1 1009 (#"Message too large")) as H2.
      destruct (close s1 1009 _) as [e2 s2]. by eapply (forward_trans s).
    + pose proof (forward_handle_frame (updateActivity s now) (frame r) a) as H1.
      destruct (handle_frame h _ (frame r) a) as [[e1 s1] a1].
      specialize (IH s1 (bq_retrieve buf (Z.to_nat (consumed r))) a1).
      destruct (handleWsFrames h config n s1 _ now a1) as [[[[e2 s2] ?] ?]|]; [|done].
      by eapply (forward_trans s).
  - pose proof (forward_call (errorHandler_ h) (#"Frame decode error: ") (Failed (#"Frame decode error: "))
      s a eq_refl ltac:(done)) as H1.
    unfold handleError. destruct (call_back _ _ _ _ _) as [[e1 s1] a1].
    pose proof (forward_forceClose s1) as H2. destruct (forceClose s1) as [e2 s2]. by eapply forward_trans.
Qed.

Lemma forward_reject s text : rank (state_ s) < 2 → forward s (hang_up s) [Http text; ShutdownConn].
Proof.
  intros Hr. apply (forward_shut s (hang_up s) [Http text]); [done|done|done|by repeat constructor|].
  intros e He. apply list_elem_of_singleton in He as ->. done.
Qed.

Lemma forward_handshake {B : Type} `{ByteQueue B} s (buf : B) now a :
  state_ s = Connecting →
  let '(_, evs, s', _, _) := handleHandshake SHA1 h s buf now a in forward s s' evs.
Proof.
  intros Hst. assert (Hr : rank (state_ s) < 2) by (rewrite Hst; simpl; lia).
  unfold handleHandshake. destruct (find crlf2 _ 0) as [he|]; [|by apply forward_silent].
  destruct (find crlf _ 0) as [fl|]; [|by apply forward_reject].
  destruct (request_path _) as [p|]; [|by apply forward_reject].
  cbv zeta. destruct (negb (bool_decide _)); [by apply forward_reject|].
  destruct (negb (contains _ _)); [by apply forward_reject|].
  destruct (bool_decide _); [by apply forward_reject|].
  destruct (match handshakeValidator_ h with Some _ => _ | None => _ end); [by apply forward_reject|].
  set (s1 := setContext _ _ _).
  pose proof (forward_call (connectionHandler_ h) p (Opened p) s1 a eq_refl ltac:(done)) as H1.
  destruct (call_back _ _ _ _ _) as [[evs s2] a2].
  eapply (forward_trans s s1 s2 [_]); [|done].
  split_and!; [rewrite Hst; simpl; lia|rewrite Hst; simpl; lia|split; [done|by repeat constructor]|].
  intros [|? [|? ?]] post E; simpl in E; simplify_eq; done.
Qed.
(** What can happen to a session: data arrives and is dispatched as in the
    server's [onMessage], the application or a timer works on it. *)
Inductive Happening :=
  | HData (data : str) (now : Z)
  | HOp (o : SessionOp)
  | HIdle (now : Z).

Definition happen {B : Type} `{ByteQueue B} (st : WsSession * B * A) (x : Happening)
    : option (list WsEvent * (WsSession * B * A)) :=
  let '(s, buf, a) := st in
  match x with
  | HData data now =>
      let buf1 := bq_append buf data in
      match state_ s with
      | Connecting =>
          let '(_, evs, s', buf', a') := handleHandshake SHA1 h s buf1 now a in Some (evs, (s', buf', a'))
      | Open =>
          (λ p, (p.1.1.1, (p.1.1.2, p.1.2, p.2))) <$> handleWsFrames h config (S (bq_readable buf1)) s buf1 now a
      | _ => Some ([], (s, buf1, a))
      end
  | HOp o => let '(evs, s') := run_op s o in Some (evs, (s', buf, a))
  | HIdle now =>
      let '(evs, s') := if (idleTimeoutMs config <? idleTimeMs s now)%Z
                        then close s 1000 (#"Idle timeout") else ([], s) in Some (evs, (s', buf, a))
  end.

Fixpoint run_session {B : Type} `{ByteQueue B} (st : WsSession * B * A) (xs : list Happening)
    : option (list WsEvent * (WsSession * B * A)) :=
  match xs with
  | [] => Some ([], st)
  | x :: xs' =>
      match happen st x with
      | None => None
      | Some (e1, st1) => (λ p, (e1 ++ p.1, p.2)) <$> run_session st1 xs'
      end
  end.

Lemma forward_happen {B : Type} `{ByteQueue B} (st st' : WsSession * B * A) x evs :
  happen st x = Some (evs, st') → forward st.1.1 st'.1.1 evs.
Proof.
  destruct st as [[s buf] a]. destruct x as [d now|o|now]; cbn [happen fst].
  - destruct (state_ s) eqn:Es.
    + pose proof (forward_handshake s (bq_append buf d) now a Es) as Hf.
      destruct (handleHandshake _ _ _ _ _ _) as [[[[? e] s'] b'] a']. intros [= <- <-]. done.
    + pose proof (forward_frames (S (bq_readable (bq_append buf d))) s (bq_append buf d) now a) as Hf.
      destruct (handleWsFrames _ _ _ _ _ _ _) as [[[[e s'] b'] a']|]; [|done]. intros [= <- <-]. done.
    + intros [= <- <-]. by apply forward_silent.
    + intros [= <- <-]. by apply forward_silent.
  - pose proof (forward_op s o) as Hf. destruct (run_op s o) as [e s']. intros [= <- <-]. done.
  - destruct (_ <? _)%Z.
    + pose proof (forward_close s 1000 (#"Idle timeout")) as Hf. destruct (close s 1000 _) as [e s'].
      intros [= <- <-]. done.
    + intros [= <- <-]. by apply forward_silent.
Qed.

(** The life of a session.  Over any sequence of arriving data,
    application calls and timer ticks, the state only moves forward from
    connecting to open, closing and closed; once a session is closing, or its
    connection was shut down, it sends no frame; and no frame ever follows the
    call that shuts the connection down, so that a close frame is the last. *)
Theorem session_forward {B : Type} `{ByteQueue B} (st st' : WsSession * B * A) (xs : list Happening)
    (evs : list WsEvent) (Hrun : run_session st xs = Some (evs, st')) :
  rank (state_ st.1.1) ≤ rank (state_ st'.1.1) ∧
  (2 ≤ rank (state_ st.1.1) → no_frames evs) ∧
  (conn_connected st.1.1 = false → conn_connected st'.1.1 = false ∧ no_frames evs) ∧
  (∀ pre post, evs = pre ++ ShutdownConn :: post → no_frames post ∧ conn_connected st'.1.1 = false).
Proof.
  change (forward st.1.1 st'.1.1 evs). revert st evs Hrun.
  induction xs as [|x xs IH]; intros st evs Hrun; cbn [run_session] in Hrun.
  - simplify_eq. by apply forward_silent.
  - destruct (happen st x) as [[e1 st1]|] eqn:E1; [|done].
    apply fmap_Some in Hrun as ([e2 st2] & E2 & [= -> ->]).
    eapply forward_trans; [by eapply forward_happen|by apply IH].
Qed.

(** ** The handshake *)

Lemma smap_insert_in k v kv m :
  k ∉ m.*1 → kv ∈ smap_insert k v m ↔ kv = (k, v) ∨ kv ∈ m.
Proof.
  induction m as [|[k' v'] m IH]; intros Hk; cbn [smap_insert]; [set_solver|].
  destruct (str_ltb k k'); [set_solver|]. rewrite bool_decide_false by set_solver.
  rewrite !elem_of_cons, IH by set_solver. naive_solver.
Qed.

Lemma smap_insert_keys k v m x : x ∈ (smap_insert k v m).*1 ↔ x = k ∨ x ∈ m.*1.
Proof.
  induction m as [|[k' v'] m IH]; cbn [smap_insert]; [set_solver|].
  destruct (str_ltb k k'); [set_solver|]. case_bool_decide; [subst; set_solver|].
  cbn [fmap list_fmap fst]. rewrite !elem_of_cons, IH. tauto.
Qed.

Lemma smap_insert_nodup k v m : k ∉ m.*1 → NoDup m.*1 → NoDup (smap_insert k v m).*1.
Proof.
  induction m as [|[k' v'] m IH]; cbn [smap_insert fmap list_fmap fst]; intros Hk Hnd.
  - constructor; [set_solver|constructor].
  - apply NoDup_cons in Hnd as [Hk' Hm].
    destruct (str_ltb k k'); [constructor; [done|by constructor]|].
    rewrite bool_decide_false by set_solver. cbn [fmap list_fmap fst]. constructor; [|apply IH; set_solver].
    rewrite smap_insert_keys. set_solver.
Qed.

(** White space at neither end. *)
Definition blanks : list ascii := [SP; TAB; CR; LF].
Definition clean (v : str) : Prop := skip_chars blanks v = v ∧ skip_chars blanks (rev v) = rev v.

Lemma trim_clean v : clean v → trim v = v ∧ trim (SP :: v) = v.
Proof.
  intros [H1 H2]. unfold trim, rskip_chars. fold blanks.
  change (skip_chars blanks (SP :: v)) with (skip_chars blanks v).
  by rewrite H1, H2, rev_involutive.
Qed.

Definition ws_header_ok (kv : str * str) : Prop :=
  ":"%char ∉ kv.1 ∧ CR ∉ kv.1 ∧ CR ∉ kv.2 ∧ clean kv.1 ∧ clean kv.2.

Definition ws_header_text (kv : str * str) : str := kv.1 ++ ":"%char :: SP :: kv.2.

Lemma ws_header_lines_ok kvs : Forall ws_header_ok kvs → Forall line_ok (ws_header_text <$> kvs).
Proof.
  intros Hk. rewrite Forall_fmap. eapply Forall_impl; [done|].
  intros [k v] (_ & Hk1 & Hv & _). split; unfold ws_header_text; simpl in *; [|by destruct k].
  rewrite elem_of_app, !elem_of_cons. intros [?|[?|[?|?]]]; done.
Qed.

Lemma ws_header_line_text m kv : ws_header_ok kv → ws_header_line m (ws_header_text kv) = smap_insert kv.1 kv.2 m.
Proof.
  intros (Hc & _ & _ & Hk & Hv). unfold ws_header_line, ws_header_text.
  rewrite find_0, find0_char by done. rewrite take_app_length.
  replace (drop (length kv.1 + 1) _) with (SP :: kv.2).
  - by rewrite (proj1 (trim_clean _ Hk)), (proj2 (trim_clean _ Hv)).
  - rewrite drop_app_ge by lia. by replace (_ - _) with 1 by lia.
Qed.

Lemma parse_headers_in kvs kv :
  Forall ws_header_ok kvs → NoDup kvs.*1 →
  kv ∈ parseHeaders (join_lines (ws_header_text <$> kvs)) ↔ kv ∈ kvs.
Proof.
  intros Hok Hnd. unfold parseHeaders.
  pose proof (fold_lines_join ws_header_line (ws_header_text <$> kvs) []) as Hf. cbn [app length] in Hf.
  rewrite Hf; [| |lia]; clear Hf.
  2: { rewrite Forall_fmap. eapply Forall_impl; [done|]. intros [k v] (_ & Hk & Hv & _). split; simpl in *.
       - unfold ws_header_text. simpl. rewrite elem_of_app, !elem_of_cons. intros [?|[?|[?|?]]]; done.
       - unfold ws_header_text. by destruct k. }
  assert (Hg : ∀ m : list (str * str), NoDup (m.*1 ++ kvs.*1) →
    kv ∈ foldl ws_header_line m (ws_header_text <$> kvs) ↔ kv ∈ m ∨ kv ∈ kvs).
  2: { rewrite Hg; [set_solver|done]. }
  clear Hnd. induction Hok as [|[k v] kvs Hkv Hok IH]; intros m Hnd; [set_solver|].
  cbn [fmap list_fmap foldl fst] in *. rewrite ws_header_line_text by done. cbn [fst snd].
  apply NoDup_app in Hnd as (Hm & Hd & [Hk Hnd]%NoDup_cons).
  assert (Hkm : k ∉ m.*1) by (intros Hin; destruct (Hd k Hin); by left).
  rewrite IH; [rewrite (smap_insert_in k v kv m Hkm), elem_of_cons; tauto|].
  apply NoDup_app. split_and!; [by apply smap_insert_nodup| |done].
  intros x [->|Hx]%smap_insert_keys; [done|]. intros Hx'. apply (Hd x Hx). by right.
Qed.

(** A header with this name, in any case. *)
Definition has_header (kvs : list (str * str)) (name v : str) : Prop :=
  ∃ k, (k, v) ∈ kvs ∧ lower k = lower name.

Lemma NoDup_fmap_same {X Y} (f : X → Y) (l : list X) x y :
  NoDup (f <$> l) → x ∈ l → y ∈ l → f x = f y → x = y.
Proof.
  induction l as [|z l IH]; [by intros _ ?%elem_of_nil|]. cbn [fmap list_fmap].
  intros [Hz Hnd]%NoDup_cons [->|Hx]%elem_of_cons [->|Hy]%elem_of_cons E; [done|..|by apply IH].
  - destruct Hz. rewrite E. by apply list_elem_of_fmap_2.
  - destruct Hz. rewrite <-E. by apply list_elem_of_fmap_2.
Qed.

Lemma getHeader_has kvs name v :
  Forall ws_header_ok kvs → NoDup (lower <$> kvs.*1) → has_header kvs name v →
  getHeader (parseHeaders (join_lines (ws_header_text <$> kvs))) name = v.
Proof.
  intros Hok Hnd (k & Hin & Hk).
  assert (Hnd' : NoDup kvs.*1) by (by apply (NoDup_fmap_1 lower)).
  unfold getHeader. destruct (List.find _ _) as [[k' v']|] eqn:E.
  - apply find_some in E as [Hin' E]. apply bool_decide_eq_true in E. simpl in *.
    apply list_elem_of_In in Hin'. apply (parse_headers_in kvs _ Hok Hnd') in Hin'.
    rewrite <-list_fmap_compose in Hnd.
    assert ((k, v) = (k', v')) as [= -> ->]; [|done].
    apply (NoDup_fmap_same (lower ∘ fst) kvs); [done..|]. simpl. congruence.
  - pose proof (find_none _ _ E (k, v)) as Hn. simpl in Hn. rewrite bool_decide_true in Hn by done.
    discriminate Hn. apply list_elem_of_In. by apply (parse_headers_in kvs _ Hok Hnd').
Qed.

(** The handshake.  An upgrade request with its headers in any order and
    any case, which the validator accepts, is answered with the accept key of
    its key; the session is open, knows the path and its activity time, the
    connection handler runs on it, and exactly the bytes behind the request
    are left in the buffer. *)
Theorem handshake_accepts {B : Type} `{ByteQueue B} (buf : B) (s : WsSession) (now : Z) (a : A)
    (m p ver u c key rest : str) (kvs : list (str * str))
    (Hv : bq_valid buf)
    (Hbuf : bq_contents buf
      = join_lines ((m ++ SP :: p ++ SP :: ver) :: (ws_header_text <$> kvs)) ++ crlf2 ++ rest)
    (Hsz : (zlen (bq_contents buf) < 2 ^ 63)%Z)
    (Hm : SP ∉ m ∧ CR ∉ m) (Hp : SP ∉ p ∧ CR ∉ p) (Hver : CR ∉ ver)
    (Hkvs : Forall ws_header_ok kvs) (Hnd : NoDup (lower <$> kvs.*1))
    (Hu : has_header kvs (#"Upgrade") u ∧ lower u = #"websocket")
    (Hc : has_header kvs (#"Connection") c ∧ contains (#"upgrade") (lower c) = true)
    (Hkey : has_header kvs (#"Sec-WebSocket-Key") key ∧ key ≠ [])
    (Hval : match handshakeValidator_ h with
            | Some v => v p (parseHeaders (join_lines (ws_header_text <$> kvs))) = true
            | None => True end) :
  ∃ buf',
    bq_valid buf' ∧ bq_contents buf' = rest ∧
    handleHandshake SHA1 h s buf now a
    = (let s1 := setContext (updateActivity (setState s Open) now) (#"path") p in
       let '(evs, s2, a2) := call_back (connectionHandler_ h) p (Opened p) s1 a in
       (true, Http (accept_text SHA1 key) :: evs, s2, buf', a2)).
Proof.
  set (line := m ++ SP :: p ++ SP :: ver) in *.
  set (hd := join_lines (line :: (ws_header_text <$> kvs))) in *.
  assert (Hne : kvs ≠ []) by (destruct Hu as [(k & Hin & _) _]; intros ->; by apply elem_of_nil in Hin).
  assert (Hline : line_ok line).
  { unfold line. split; [|by destruct m].
    rewrite elem_of_app, elem_of_cons, elem_of_app, elem_of_cons. intros [?|[?|[?|[?|?]]]]; naive_solver. }
  assert (Hls : Forall line_ok (line :: (ws_header_text <$> kvs))).
  { constructor; [done|by apply ws_header_lines_ok]. }
  assert (Hjoin : hd = line ++ crlf ++ join_lines (ws_header_text <$> kvs))
    by (apply join_lines_cons; by destruct kvs).
  assert (Hf : find crlf2 (bq_contents buf) 0 = Some (length hd))
    by (rewrite find_0, Hbuf; by apply find_blank_line).
  assert (Hf1 : find crlf (bq_contents buf) 0 = Some (length line)).
  { rewrite find_0, Hbuf, Hjoin, <-!app_assoc. unfold crlf. apply find0_first. by destruct Hline. }
  destruct (bq_retrieve_ok buf (length hd + 4) Hv) as [Hv1 Hr].
  exists (bq_retrieve buf (length hd + 4)). split_and!; [done|..].
  { rewrite Hr, Hbuf, app_assoc. apply drop_app_length'. len. }
  assert (Hsec : header_section (bq_contents buf) (length line) (length hd) = join_lines (ws_header_text <$> kvs)).
  { unfold header_section, substr_z. assert (length hd = length line + (2 + length (join_lines (ws_header_text <$> kvs))))
      as Hl by (rewrite Hjoin; len).
    rewrite u64_small by (revert Hsz; rewrite Hbuf; len).
    rewrite Hbuf, Hjoin, <-!app_assoc.
    replace (length line + 2) with (length (line ++ crlf)) by len.
    set (body := join_lines (ws_header_text <$> kvs)).
    assert (Hd : drop (length (line ++ crlf)) (line ++ crlf ++ body ++ crlf2 ++ rest) = body ++ crlf2 ++ rest)
      by (rewrite (app_assoc line); apply drop_app_length).
    rewrite Hd. apply take_app_length'. len. }
  assert (Hpath : request_path (substr (bq_contents buf) 0 (length line)) = Some p).
  { rewrite Hbuf, Hjoin, <-!app_assoc, substr_prefix by done. unfold request_path, line.
    rewrite find_0, find0_char by tauto.
    replace (length m + 1) with (length (m ++ [SP])) by len.
    replace (m ++ SP :: p ++ SP :: ver) with ((m ++ [SP]) ++ p ++ SP :: ver) by (by rewrite <-app_assoc).
    rewrite find_app_r, find0_char by tauto. cbn [fmap option_fmap option_map].
    rewrite substr_app_r. f_equal. apply take_app_length'. len. }
  unfold handleHandshake. rewrite Hf, Hf1, Hpath, Hsec. cbv zeta.
  rewrite (getHeader_has kvs _ u), (getHeader_has kvs _ c), (getHeader_has kvs _ key) by tauto.
  destruct Hu as [_ Hu], Hc as [_ Hc], Hkey as [_ Hkey].
  rewrite (bool_decide_true _ Hu), Hc, (bool_decide_false _ Hkey). cbn [negb].
  destruct (handshakeValidator_ h) as [v|]; [rewrite Hval|]; cbn [negb];
    by destruct (call_back _ _ _ _ _) as [[? ?] ?].
Qed.
End Facts.

(** ** A concrete application *)

Definition echo_handlers : @Handlers (list (list Z)) :=
  mkHandlers (Some (λ _ a, ([DoSetContext (#"user") (#"x")], a)))
    (Some (λ m a, ([DoSendBinary (msg_data m)], msg_data m :: a)))
    (Some (λ a, a)) None None.

Definition open_session : WsSession := mkSession Open 0 ∅ true.

Definition hi_frame : WebSocketFrame := mkFrame true 0 0 0 Binary false [0; 0; 0; 0]%Z [104; 105]%Z.
Definition close_frame : WebSocketFrame := mkFrame true 0 0 0 Close false [0; 0; 0; 0]%Z [3; 232]%Z.

Lemma frames_in_order_witness :
  let fs := [(hi_frame, [1; 2; 3; 4]%Z); (hi_frame, [5; 6; 7; 8]%Z)] in
  let buf := append (Buffer_new 64) (chr <$> (mjoin (wire <$> fs) ++ [129]%Z)) in
  let srv := mkServer {[ #"c" := open_session ]} ∅ true [] in
  ∃ buf',
    bq_valid buf' ∧ u8_of <$> bq_contents buf' = [129]%Z ∧
    onMessage (λ _, []) echo_handlers WebSocketConfig_default srv #"c" buf 7
    = (let '(evs, s1, a1) := process echo_handlers 7 (arrives <$> fs) open_session [] in
       Some (pair #"c" <$> evs, put_session srv #"c" s1 a1, buf')).
Proof.
  intros fs buf srv.
  apply (frames_in_order (λ _, []) echo_handlers WebSocketConfig_default srv #"c" open_session buf 7 fs [129]%Z).
  - exact (proj1 (bq_append_ok (Buffer_new 64) _ (proj1 (bq_empty_ok 64)))).
  - vm_compute. reflexivity.
  - reflexivity.
  - assert (∀ k : list Z, length k = 4 → client_frame_ok WebSocketConfig_default (hi_frame, k)).
    { intros k Hk. split_and!; [split; vm_compute; auto; split; congruence|done|reflexivity]. }
    constructor; [by auto|]. constructor; [by auto|]. constructor.
  - right. vm_compute. reflexivity.
  - vm_compute. reflexivity.
  - vm_compute. reflexivity.
Defined.

Lemma session_forward_witness :
  let st := (open_session, Buffer_new 64, [] : list (list Z)) in
  let xs := [HData (chr <$> wire (hi_frame, [1; 2; 3; 4]%Z)) 5; HOp (DoClose 1000 []); HOp (DoSendText (#"late"))] in
  ∃ evs st', run_session (λ _, []) echo_handlers WebSocketConfig_default st xs = Some (evs, st') ∧
  (rank (state_ st.1.1) ≤ rank (state_ st'.1.1) ∧
   (2 ≤ rank (state_ st.1.1) → no_frames evs) ∧
   (conn_connected st.1.1 = false → conn_connected st'.1.1 = false ∧ no_frames evs) ∧
   (∀ pre post, evs = pre ++ ShutdownConn :: post → no_frames post ∧ conn_connected st'.1.1 = false)).
Proof.
  intros st xs.
  assert (Hsome : bool_decide (is_Some (run_session (λ _, []) echo_handlers WebSocketConfig_default st xs)) = true)
    by (vm_compute; reflexivity).
  destruct (run_session _ _ _ st xs) as [[evs st']|] eqn:E;
    [|by apply bool_decide_eq_true in Hsome as [? ?]].
  exists evs, st'. split; [done|].
  exact (session_forward (λ _, []) echo_handlers WebSocketConfig_default st st' xs evs E).
Defined.

Definition upgrade_headers : list (str * str) :=
  [( #"Host", #"h"); ( #"upgrade", #"WebSocket"); ( #"CONNECTION", #"keep-alive, Upgrade");
   ( #"Sec-WebSocket-Key", #"abc")].

Definition upgrade_request : str :=
  join_lines (( #"GET" ++ SP :: #"/chat" ++ SP :: #"HTTP/1.1") :: (ws_header_text <$> upgrade_headers)) ++ crlf2 ++ #"X".

Lemma clean_dec v : bool_decide (skip_chars blanks v = v) && bool_decide (skip_chars blanks (rev v) = rev v) = true → clean v.
Proof. rewrite andb_true_iff, !bool_decide_eq_true. done. Qed.

Lemma handshake_accepts_witness :
  let buf := append (Buffer_new 256) upgrade_request in
  ∃ buf',
    bq_valid buf' ∧ bq_contents buf' = #"X" ∧
    handleHandshake (λ _, [1; 2; 3]%Z) echo_handlers (WsSession_new 0 true) buf 9 []
    = (let s1 := setContext (updateActivity (setState (WsSession_new 0 true) Open) 9) (#"path") (#"/chat") in
       let '(evs, s2, a2) := call_back (connectionHandler_ echo_handlers) (#"/chat") (Opened (#"/chat")) s1 [] in
       (true, Http (accept_text (λ _, [1; 2; 3]%Z) (#"abc")) :: evs, s2, buf', a2)).
Proof.
  intros buf.
  apply (handshake_accepts (λ _, [1; 2; 3]%Z) echo_handlers buf (WsSession_new 0 true) 9 []
    (#"GET") (#"/chat") (#"HTTP/1.1") (#"WebSocket") (#"keep-alive, Upgrade") (#"abc") (#"X") upgrade_headers).
  - exact (proj1 (bq_append_ok (Buffer_new 256) upgrade_request (proj1 (bq_empty_ok 256)))).
  - unfold buf. vm_compute. reflexivity.
  - vm_compute. reflexivity.
  - vm_compute. set_solver.
  - vm_compute. set_solver.
  - vm_compute. set_solver.
  - unfold upgrade_headers. repeat constructor; try (apply clean_dec; vm_compute; reflexivity); vm_compute; set_solver.
  - apply (bool_decide_eq_true_1 _). vm_compute. reflexivity.
  - split; [|reflexivity]. exists (#"upgrade"). split; [unfold upgrade_headers; set_solver|reflexivity].
  - split; [|reflexivity]. exists (#"CONNECTION"). split; [unfold upgrade_headers; set_solver|reflexivity].
  - split; [|done]. exists (#"Sec-WebSocket-Key"). split; [unfold upgrade_headers; set_solver|reflexivity].
  - exact I.
Defined.

(** Without headers the wrapped count reads the headers from behind the blank
    line: a request with none is accepted. *)
Example headers_behind_blank_line :
  let buf := append (Buffer_new 256)
    (#"GET / HTTP/1.1" ++ crlf2 ++ #"Upgrade: websocket" ++ crlf ++ #"Connection: upgrade" ++ crlf
     ++ #"Sec-WebSocket-Key: k") in
  (handleHandshake (λ _, []) echo_handlers (WsSession_new 0 true) buf 0 []).1.1.1.1 = true.
Proof. vm_compute. reflexivity. Qed.

(** A message that follows a close frame in the same read is still given to
    the application. *)
Example message_after_close :
  let buf := append (Buffer_new 64) (chr <$> (wire (close_frame, [1; 2; 3; 4]%Z) ++ wire (hi_frame, [1; 2; 3; 4]%Z))) in
  (λ p, (state_ p.1.1.2, p.2)) <$> handleWsFrames echo_handlers WebSocketConfig_default 9 open_session buf 0 []
  = Some (Closing, [[104; 105]%Z]).
Proof. vm_compute. reflexivity. Qed.
