(* ===== verification/WsConnection.v ===== *)
(** * WsConnection: a WebSocket session on a TCP connection, end to end

    Composes [WebSocketServer.v] with [TcpConnection.v]: the connection reads,
    its message callback is [WebSocketServer::onMessage], the application works
    on its session in the loop of the connection, and what the session sends
    or shuts down is done to the connection ([ConnectionCalls.v]) while the
    kernel takes as much of each write as it likes.  The session asks the
    connection whether it is connected; the model of the session keeps the
    answer in a flag, which is shown here to be the state of the connection. *)

From S2P Require Import Prelude Buffer Poller TcpConnection WebSocketFrame HttpServer ConnectionCalls WebSocketServer.

(** ** What events do to the connection *)

Definition ws_calls (e : WsEvent) : list Action :=
  match e with
  | Frame d => [Send (chr <$> d)]
  | Http t => [Send t]
  | ShutdownConn => [Shutdown]
  | _ => []
  end.

Definition is_shut (e : WsEvent) : bool := match e with ShutdownConn => true | _ => false end.
Definition shut (evs : list WsEvent) : bool := existsb is_shut evs.

(** The bytes that go out: those before the connection is shut down. *)
Fixpoint sent (evs : list WsEvent) : str :=
  match evs with
  | [] => []
  | e :: evs' => if is_shut e then [] else wire_bytes (ws_calls e) ++ sent evs'
  end.

Lemma shut_app a b : shut (a ++ b) = shut a || shut b.
Proof. apply existsb_app. Qed.

Lemma sent_app a b : sent (a ++ b) = sent a ++ (if shut a then [] else sent b).
Proof.
  induction a as [|e a IH]; [done|]. cbn [app sent]. destruct e; cbn [is_shut shut existsb orb]; try done;
    by rewrite IH, app_assoc.
Qed.

(** ** The session's flag *)

(** A session is connected until it has shut its connection down. *)
Definition follows (s s' : WsSession) (evs : list WsEvent) : Prop :=
  conn_connected s' = conn_connected s && negb (shut evs).

Lemma follows_silent s s' : conn_connected s' = conn_connected s → follows s s' [].
Proof. unfold follows. intros ->. by rewrite andb_true_r. Qed.

Lemma follows_trans s1 s2 s3 e1 e2 : follows s1 s2 e1 → follows s2 s3 e2 → follows s1 s3 (e1 ++ e2).
Proof. unfold follows. intros H1 ->. by rewrite H1, shut_app, negb_orb, andb_assoc. Qed.

Lemma follows_event s e : is_shut e = false → follows s s [e].
Proof. unfold follows. cbn. intros ->. by rewrite andb_true_r. Qed.

Lemma follows_raw s d : follows s s (sendRaw s d).
Proof. unfold sendRaw. destruct (conn_connected s); [by apply follows_event|by apply follows_silent]. Qed.

Lemma follows_when_open s d : follows s (when_open s d).2 (when_open s d).1.
Proof. unfold when_open. cbn. destruct (isOpen s); [apply follows_raw|by apply follows_silent]. Qed.

Lemma follows_hang s s' evs : follows s s' evs → follows s (hang_up s') (evs ++ [ShutdownConn]).
Proof. unfold follows. intros _. rewrite shut_app. cbn. by rewrite orb_true_r, andb_false_r. Qed.

Lemma follows_close s c r : follows s (close s c r).2 (close s c r).1.
Proof.
  unfold close. destruct (state_ s); try (by apply follows_silent);
    cbn [fst snd]; by apply (follows_hang s (setState s Closing)), (follows_raw s).
Qed.

Lemma follows_force s : follows s (forceClose s).2 (forceClose s).1.
Proof. unfold forceClose. destruct (state_ s); try (by apply follows_silent); by apply (follows_hang s s []), follows_silent. Qed.

Lemma follows_op s o : follows s (run_op s o).2 (run_op s o).1.
Proof.
  destruct o; cbn [run_op]; try apply follows_when_open; [apply follows_close|apply follows_force|by apply follows_silent].
Qed.

Lemma follows_ops ops : ∀ s, follows s (run_ops s ops).2 (run_ops s ops).1.
Proof.
  induction ops as [|o ops IH]; intros s; cbn [run_ops]; [by apply follows_silent|].
  pose proof (follows_op s o) as H1. destruct (run_op s o) as [e1 s1]. specialize (IH s1).
  destruct (run_ops s1 ops) as [e2 s2]. by eapply follows_trans.
Qed.

Section Callbacks.
Context {A : Type} (SHA1 : str → list Z) (h : @Handlers A) (config : WebSocketConfig).

Lemma follows_call {X} (f : option (X → A → list SessionOp * A)) x e s a :
  is_shut e = false → let '(evs, s', _) := call_back f x e s a in follows s s' evs.
Proof.
  intros He. unfold call_back. destruct f as [g|]; [|by apply follows_silent]. destruct (g x a) as [ops a'].
  pose proof (follows_ops ops s) as H1. destruct (run_ops s ops) as [evs s'].
  change (e :: evs) with ([e] ++ evs). eapply follows_trans; [by apply follows_event|done].
Qed.

Lemma follows_handle_frame s f a : let '(evs, s', _) := handle_frame h s f a in follows s s' evs.
Proof.
  unfold handle_frame. destruct (opcode f); try (by apply follows_silent); try (by apply follows_call).
  - pose proof (follows_close s 1000 []) as H. by destruct (close s 1000 []).
  - pose proof (follows_when_open s (encodePong (payload f))) as H. unfold pong. by destruct (when_open s _).
Qed.

Lemma follows_frames {B : Type} `{ByteQueue B} fuel : ∀ s (buf : B) now a,
  match handleWsFrames h config fuel s buf now a with Some (evs, s', _, _) => follows s s' evs | None => True end.
Proof.
  induction fuel as [|n IH]; intros s buf now a; cbn [handleWsFrames]; [by apply follows_silent|].
  destruct (negb _); [by apply follows_silent|]. destruct (decode _) as [r|]; [|done]. destruct (status r).
  - destruct (too_large config (frame r)).
    + pose proof (follows_call (errorHandler_ h) (#"Message too large") (Failed (#"Message too large"))
        (updateActivity s now) a eq_refl) as H1.
      unfold handleError. destruct (call_back _ _ _ _ _) as [[e1 s1] a1].
      pose proof (follows_close s1 1009 (#"Message too large")) as H2.
      destruct (close s1 1009 _) as [e2 s2]. by eapply (follows_trans (updateActivity s now)).
    + pose proof (follows_handle_frame (updateActivity s now) (frame r) a) as H1.
      destruct (handle_frame h _ (frame r) a) as [[e1 s1] a1].
      specialize (IH s1 (bq_retrieve buf (Z.to_nat (consumed r))) now a1).
      destruct (handleWsFrames h config n s1 _ now a1) as [[[[e2 s2] ?] ?]|]; [|done].
      by eapply (follows_trans (updateActivity s now)).
  - by apply follows_silent.
  - pose proof (follows_call (errorHandler_ h) (#"Frame decode error: ") (Failed (#"Frame decode error: ")) s a eq_refl) as H1.
    unfold handleError. destruct (call_back _ _ _ _ _) as [[e1 s1] a1].
    pose proof (follows_force s1) as H2. destruct (forceClose s1) as [e2 s2]. by eapply follows_trans.
Qed.

Lemma follows_reject s t : follows s (hang_up s) [Http t; ShutdownConn].
Proof. by apply (follows_hang s s [Http t]), follows_event. Qed.

Lemma follows_handshake {B : Type} `{ByteQueue B} s (buf : B) now a :
  let '(_, evs, s', _, _) := handleHandshake SHA1 h s buf now a in follows s s' evs.
Proof.
  unfold handleHandshake. destruct (find crlf2 _ 0) as [he|]; [|by apply follows_silent].
  destruct (find crlf _ 0) as [fl|]; [|apply follows_reject]. destruct (request_path _) as [p|]; [|apply follows_reject].
  cbv zeta. destruct (negb (bool_decide _)); [apply follows_reject|].
  destruct (negb (contains _ _)); [apply follows_reject|]. destruct (bool_decide _); [apply follows_reject|].
  destruct (match handshakeValidator_ h with Some _ => _ | None => _ end); [apply follows_reject|].
  set (s1 := setContext _ _ _). pose proof (follows_call (connectionHandler_ h) p (Opened p) s1 a eq_refl) as H1.
  destruct (call_back _ _ _ _ _) as [[evs s2] a2]. eapply (follows_trans s s1 s2 [_]); [exact (follows_event s (Http _) eq_refl)|done].
Qed.
End Callbacks.

(** ** The calls on the connection *)

Section Calls.
Context {B : Type} `{ByteQueue B}.
Local Abbreviation Conn := (@Conn B).

(** A connection that is not up takes no calls. *)
Lemma act_closed (c : Conn) e a wr : TcpConnection.state_ c ≠ kConnected → a ∈ ws_calls e → act c a wr = c.
Proof.
  intros Hc Ha. destruct e; cbn [ws_calls] in Ha; try (by apply elem_of_nil in Ha);
    apply list_elem_of_singleton in Ha as ->; cbn [act step]; unfold send, TcpConnection.shutdown; by rewrite bool_decide_false.
Qed.

Lemma perform_closed (c : Conn) evs : ∀ wrs, TcpConnection.state_ c ≠ kConnected → perform c (evs ≫= ws_calls) wrs = c.
Proof.
  intros wrs Hc. assert (Hall : ∀ a, a ∈ evs ≫= ws_calls → ∀ wr, act c a wr = c).
  { intros a Ha wr. apply list_elem_of_bind in Ha as (e & Ha & _). by eapply act_closed. }
  revert wrs. induction (evs ≫= ws_calls) as [|a l IH]; intros wrs; [done|]. cbn [perform]. rewrite Hall by left.
  apply IH. intros a' Ha'. apply Hall. by right.
Qed.

(** What events do to a connection that is up: their bytes join the stream,
    up to the one that shuts it down. *)
Lemma perform_events evs : ∀ (c : Conn) wrs,
  between c → TcpConnection.state_ c = kConnected → (∀ k, takes_part (wrs k)) →
  let c' := perform c (evs ≫= ws_calls) wrs in
  between c' ∧ stream c' = stream c ++ sent evs ∧ TcpConnection.state_ c' = (if shut evs then kDisconnecting else kConnected) ∧
  inputBuffer_ c' = inputBuffer_ c.
Proof.
  induction evs as [|e evs IH]; intros c wrs Hb Hst Hw; [by rewrite app_nil_r|].
  rewrite bind_cons, perform_app. cbn [sent shut existsb]. destruct (is_shut e) eqn:Ee.
  - destruct e; try done. cbn [ws_calls perform act orb]. destruct (shutdown_between c Hb Hst) as (B1 & S1 & I1 & E1).
    rewrite perform_closed by congruence. rewrite app_nil_r. done.
  - set (c1 := perform c (ws_calls e) wrs).
    assert (H1 : between c1 ∧ kept c c1 ∧ stream c1 = stream c ++ wire_bytes (ws_calls e)).
    { apply perform_sends; [done|done| |done]. destruct e; try done; by repeat constructor. }
    destruct H1 as (B1 & (K1 & K2 & _) & E1). cbn [orb].
    destruct (IH c1 (λ n, wrs (length (ws_calls e) + n)) B1) as (B2 & E2 & S2 & I2); [congruence|by intros|].
    split_and!; [done| |done|congruence]. by rewrite E2, E1, app_assoc.
Qed.
End Calls.

(** ** The session on the connection *)

Section Server.
Context {A : Type} (SHA1 : str → list Z) (h : @Handlers A) (config : WebSocketConfig) (name : str).
Context {B : Type} `{ByteQueue B}.

(** The connection, the server with the session in its table, and what the
    session has done so far. *)
Record State := mkState { conn : Conn B; srv : @WebSocketServer A; heard : list WsEvent }.

(** Bytes that came, read at a time; work of the application on the session;
    room for writing; a queued functor. *)
Inductive Event :=
  | Readable (d : str) (now : Z) (wrs : nat → str → WriteResult)
  | Work (ops : list SessionOp) (wrs : nat → str → WriteResult)
  | Writable (wr : str → WriteResult)
  | Queued (wr : str → WriteResult).

(** [None]: there is no such read, or an exception ends the process. *)
Definition play (st : State) (e : Event) : option State :=
  match e with
  | Readable d now wrs =>
      if bool_decide (d = []) then None
      else
        let c := handleRead (conn st) (RdData d) in
        match onMessage SHA1 h config (srv st) name (inputBuffer_ c) now with
        | None => None
        | Some (evs, srv', buf) =>
            Some (mkState (perform (with_input c buf) (evs.*2 ≫= ws_calls) wrs) srv' (heard st ++ evs.*2))
        end
  | Work ops wrs =>
      match sessions_ (srv st) !! name with
      | None => None
      | Some s =>
          let '(evs, s') := run_ops s ops in
          Some (mkState (perform (conn st) (evs ≫= ws_calls) wrs) (put_session (srv st) name s' (app_state (srv st))) (heard st ++ evs))
      end
  | Writable wr => Some (mkState (step (conn st) (SHandleWrite wr (λ _, wr []))) (srv st) (heard st))
  | Queued wr => Some (mkState (step (conn st) (SFunctor wr (λ _, wr []))) (srv st) (heard st))
  end.

Fixpoint plays (st : State) (es : list Event) : option State :=
  match es with [] => Some st | e :: es => st1 ← play st e; plays st1 es end.

Definition event_ok (e : Event) : Prop :=
  match e with Readable _ _ wrs | Work _ wrs => ∀ k, takes_part (wrs k) | Writable wr | Queued wr => takes_part wr end.

Definition start_state (sockfd : Z) (wc hw : bool) (srv0 : @WebSocketServer A) (now : Z) : State :=
  mkState (connectEstablished (TcpConnection_new sockfd wc hw)) (WebSocketServer.onConnection h srv0 name true now).2 [].

(** ** The invariant *)

Record in_step (st : State) (s : WsSession) : Prop := {
  is_session : sessions_ (srv st) !! name = Some s;
  is_flag : conn_connected s = negb (shut (heard st));
  is_state : TcpConnection.state_ (conn st) = (if shut (heard st) then kDisconnecting else kConnected);
  is_between : between (conn st);
  is_input : bq_valid (inputBuffer_ (conn st));
  is_stream : stream (conn st) = sent (heard st);
  is_forward : ∃ s0, forward s0 s (heard st)
}.

(** Events of the session, done to the connection. *)
Lemma events_in_step st s (c1 : Conn B) evs s' a' wrs :
  in_step st s → follows s s' evs → forward s s' evs → between c1 → bq_valid (inputBuffer_ c1) → stream c1 = stream (conn st) →
  TcpConnection.state_ c1 = TcpConnection.state_ (conn st) → (∀ k, takes_part (wrs k)) →
  in_step (mkState (perform c1 (evs ≫= ws_calls) wrs) (put_session (srv st) name s' a') (heard st ++ evs)) s'.
Proof.
  intros [H1 H2 H3 H4 H5 H6 [s0 H7]] Hf Hfw Hb Hv Es Est Hw.
  assert (Hfw' : ∃ s0, forward s0 s' (heard st ++ evs)) by (exists s0; by eapply forward_trans).
  assert (Hput : sessions_ (put_session (srv st) name s' a') !! name = Some s').
  { unfold put_session. cbn. rewrite bool_decide_true; [apply lookup_insert_eq|]. apply elem_of_dom. eauto. }
  assert (Hflag : conn_connected s' = negb (shut (heard st ++ evs))) by (rewrite Hf, H2, shut_app; by destruct (shut (heard st))).
  destruct (shut (heard st)) eqn:Esh.
  - assert (Hp : perform c1 (evs ≫= ws_calls) wrs = c1) by (apply perform_closed; congruence).
    split; cbn [conn srv heard]; rewrite ?Hp; try done; [rewrite shut_app, Esh; by rewrite Est|].
    by rewrite Es, H6, sent_app, Esh, app_nil_r.
  - destruct (perform_events evs c1 wrs Hb) as (B1 & E1 & S1 & I1); [congruence|done|].
    split; cbn [conn srv heard]; try done; [rewrite shut_app, Esh; exact S1|by rewrite I1|].
    by rewrite E1, Es, H6, sent_app, Esh.
Qed.

Lemma frames_valid fuel : ∀ s (buf : B) now a, bq_valid buf →
  match handleWsFrames h config fuel s buf now a with Some (_, _, buf', _) => bq_valid buf' | None => True end.
Proof.
  induction fuel as [|n IH]; intros s buf now a Hv; cbn [handleWsFrames]; [done|].
  destruct (negb _); [done|]. destruct (decode _) as [r|]; [|done].
  assert (Hv1 : bq_valid (bq_retrieve buf (Z.to_nat (consumed r)))) by (by apply bq_retrieve_ok).
  destruct (status r); [|done|].
  - destruct (too_large config (frame r)).
    + destruct (handleError _ _ _ _) as [[e1 s1] a1]. by destruct (close s1 1009 _).
    + destruct (handle_frame _ _ _ _) as [[e1 s1] a1]. specialize (IH s1 _ now a1 Hv1).
      by destruct (handleWsFrames h config n s1 _ now a1) as [[[[e2 s2] ?] ?]|].
  - destruct (handleError _ _ _ _) as [[e1 s1] a1]. by destruct (forceClose s1).
Qed.

Lemma handshake_valid s (buf : B) now a : bq_valid buf → let '(_, _, _, buf', _) := handleHandshake SHA1 h s buf now a in bq_valid buf'.
Proof.
  intros Hv. unfold handleHandshake. destruct (find crlf2 _ 0) as [he|]; [|done].
  assert (Hv1 : bq_valid (bq_retrieve buf (he + 4))) by (by apply bq_retrieve_ok).
  destruct (find crlf _ 0) as [fl|]; [|done]. destruct (request_path _) as [p|]; [|done]. cbv zeta.
  destruct (negb (bool_decide _)); [done|]. destruct (negb (contains _ _)); [done|]. destruct (bool_decide _); [done|].
  destruct (match handshakeValidator_ h with Some _ => _ | None => _ end); [done|]. by destruct (call_back _ _ _ _ _) as [[? ?] ?].
Qed.

Lemma put_session_same (srv : @WebSocketServer A) s : sessions_ srv !! name = Some s → put_session srv name s (app_state srv) = srv.
Proof.
  intros Hs. unfold put_session. rewrite bool_decide_true by (apply elem_of_dom; eauto). rewrite insert_id by done. by destruct srv.
Qed.

(** A message, as what it does to the session. *)
Lemma onMessage_session (srv0 srv1 : @WebSocketServer A) s (buf buf' : B) now evs :
  sessions_ srv0 !! name = Some s → bq_valid buf → onMessage SHA1 h config srv0 name buf now = Some (evs, srv1, buf') →
  ∃ evs' s' a', evs.*2 = evs' ∧ srv1 = put_session srv0 name s' a' ∧ follows s s' evs' ∧ forward s s' evs' ∧ bq_valid buf'.
Proof.
  intros Hs Hv. unfold onMessage. rewrite Hs.
  assert (Hsnd : ∀ l : list WsEvent, (pair name <$> l).*2 = l) by (intros l; rewrite <-list_fmap_compose; by rewrite list_fmap_id).
  destruct (state_ s) eqn:Est.
  - pose proof (forward_handshake SHA1 h s buf now (app_state srv0) Est) as Hw.
    pose proof (follows_handshake SHA1 h s buf now (app_state srv0)) as Hf. pose proof (handshake_valid s buf now (app_state srv0) Hv) as Hv'.
    destruct (handleHandshake _ _ _ _ _ _) as [[[[? e] s'] b'] a']. intros [= <- <- <-]. exists e, s', a'. by rewrite Hsnd.
  - pose proof (forward_frames SHA1 h config (S (bq_readable buf)) s buf now (app_state srv0)) as Hw.
    pose proof (follows_frames h config (S (bq_readable buf)) s buf now (app_state srv0)) as Hf.
    pose proof (frames_valid (S (bq_readable buf)) s buf now (app_state srv0) Hv) as Hv'.
    destruct (handleWsFrames _ _ _ _ _ _ _) as [[[[e s'] b'] a']|]; [|done]. intros [= <- <- <-]. exists e, s', a'. by rewrite Hsnd.
  - intros [= <- <- <-]. exists [], s, (app_state srv0). rewrite put_session_same by done. split_and!; try done; [by apply follows_silent|by apply forward_silent].
  - intros [= <- <- <-]. exists [], s, (app_state srv0). rewrite put_session_same by done. split_and!; try done; [by apply follows_silent|by apply forward_silent].
Qed.

Lemma ws_play_in_step st s e st' :
  in_step st s → event_ok e → play st e = Some st' → ∃ s', in_step st' s'.
Proof.
  intros Hin He. pose proof Hin as [H1 H2 H3 H4 H5 H6 H7].
  assert (Hup : TcpConnection.state_ (conn st) ≠ kDisconnected) by (rewrite H3; by destruct (shut (heard st))).
  destruct e as [d now wrs|ops wrs|wr|wr]; cbn [play event_ok] in *.
  - case_bool_decide as Hd; [done|]. destruct (handleRead_data (conn st) d H5 Hd) as (Hv & _ & Hrb).
    destruct (Hrb H4) as (Hb & Es & Ec). set (c := handleRead (conn st) (RdData d)) in *.
    destruct (onMessage _ _ _ _ _ _ _) as [[[evs srv'] buf]|] eqn:Em; [|done]. intros [= <-].
    destruct (onMessage_session _ _ _ _ _ _ _ H1 Hv Em) as (evs' & s' & a' & -> & -> & Hf & Hfw & Hbuf).
    exists s'. apply (events_in_step st s (with_input c buf)); try done.
    by destruct Hb as [[_ Hvo] ? ? ? ? ?]; constructor.
  - rewrite H1. pose proof (follows_ops ops s) as Hf. pose proof (forward_ops SHA1 s ops) as Hfw.
    destruct (run_ops s ops) as [evs s']. intros [= <-]. exists s'. by apply (events_in_step st s (conn st)).
  - intros [= <-]. exists s. destruct (handleWrite_between (conn st) wr (λ _, wr []) H4 Hup He) as (B1 & (K1 & K2 & _) & E1).
    split; cbn [conn srv heard step]; [done|done|congruence|done|by rewrite K2|congruence|done].
  - intros [= <-]. exists s. cbn [step]. destruct (pending (conn st)) as [|f q] eqn:Eq; [done|].
    assert (Hf : silent f ∧ Forall silent q) by (pose proof (bt_silent _ H4) as Hq; rewrite Eq in Hq; by apply Forall_cons in Hq).
    assert (Er : run_functor (set_pending (conn st) q) f wr (λ _, wr []) = set_pending (conn st) q) by (destruct f; by destruct Hf).
    rewrite Er. split; cbn [conn srv heard]; try done. destruct H4 as [Bv Bi [Bn1 Bn2] Bq Bw Bc]. constructor; try done; [|apply Hf].
    split; [done|]. cbn. rewrite Eq in Bn2. by apply Forall_cons in Bn2 as [_ ?].
Qed.

Lemma ws_start_in_step sockfd wc hw srv0 now : in_step (start_state sockfd wc hw srv0 now) (WsSession_new now true).
Proof.
  unfold start_state. split; cbn; try done.
  - apply lookup_insert_eq.
  - constructor; try done; [split; apply bq_empty_ok|]. right; right. split; [|done]. apply bq_empty_ok.
  - apply bq_empty_ok.
  - unfold stream. cbn. apply bq_empty_ok.
  - exists (WsSession_new now true). by apply forward_silent.
Qed.

Lemma ws_plays_in_step es : ∀ st s st', in_step st s → Forall event_ok es → plays st es = Some st' → ∃ s', in_step st' s'.
Proof.
  induction es as [|e es IH]; intros st s st' Hin He; cbn [plays]; [intros [= <-]; eauto|].
  apply Forall_cons in He as [He Hes]. destruct (play st e) as [st1|] eqn:E; [|done]. cbn [mbind option_bind].
  destruct (ws_play_in_step st s e st1 Hin He E) as [s1 H1]. by apply (IH st1 s1).
Qed.

Lemma ws_plays_writes wrs : ∀ st, plays st (Writable <$> wrs) = Some (mkState (write_all (conn st) wrs) (srv st) (heard st)).
Proof. induction wrs as [|wr wrs IH]; intros st; [by destruct st|]. cbn [fmap list_fmap plays play mbind option_bind]. by rewrite IH. Qed.

(** C19: a WebSocket session on its connection.  Whatever comes, however it is
    cut into reads, whatever the application does to the session, and whatever
    part of each write the kernel takes: the session's view of the connection is
    the state of the connection; no frame is made after the connection was shut
    down; and once the kernel has taken at least a byte at each of as many
    write events as there were bytes left, the bytes on the wire are exactly
    the answers to handshakes and the frames made before the session shut the
    connection down, in their order, and behind the last of them, when it did,
    the write side is shut down. *)
Theorem session_on_the_wire (sockfd : Z) (wc hw : bool) (srv0 : @WebSocketServer A) (now : Z) (es : list Event) (st : State) :
  Forall event_ok es → plays (start_state sockfd wc hw srv0 now) es = Some st →
  ∃ s, sessions_ (srv st) !! name = Some s ∧
    conn_connected s = bool_decide (TcpConnection.state_ (conn st) = kConnected) ∧
    (∀ pre post, heard st = pre ++ ShutdownConn :: post → no_frames post) ∧
    ∀ wrs, Forall (λ wr, takes_part wr ∧ takes_some wr) wrs → length (bq_contents (outputBuffer_ (conn st))) ≤ length wrs →
    ∃ st', plays st (Writable <$> wrs) = Some st' ∧ heard st' = heard st ∧
      TcpConnection.wire (log (conn st')) = sent (heard st) ∧
      (ShutdownConn ∈ heard st → EShutdownWrite ∈ log (conn st')).
Proof.
  intros He Hp. destruct (ws_plays_in_step es _ _ _ (ws_start_in_step sockfd wc hw srv0 now) He Hp) as (s & [H1 H2 H3 H4 H5 H6 [s0 H7]]).
  exists s. split_and!; [done|rewrite H2, H3; by destruct (shut (heard st))| |].
  - intros pre post E. destruct H7 as (_ & _ & _ & Hpost). by apply (Hpost pre post).
  - intros wrs Hw Hl.
    destruct (write_all_drains wrs (conn st) H4) as (B1 & (K1 & _) & E1 & O1); [rewrite H3; by destruct (shut (heard st))|done|done|].
    eexists. split; [apply ws_plays_writes|]. cbn [conn heard]. destruct (between_drained _ B1 O1) as [Ew Esh].
    split_and!; [done|congruence|]. intros Hin. apply Esh. rewrite K1, H3.
    assert (shut (heard st) = true) as ->; [|done]. apply existsb_exists. exists ShutdownConn.
    split; [by apply list_elem_of_In|done].
Qed.
End Server.

(** ** A concrete session *)

Local Abbreviation sample_plays := (plays (B := Buffer) (λ _, [1; 2; 3]%Z) echo_handlers WebSocketConfig_default (#"c")).
Local Abbreviation sample_start := (start_state (B := Buffer) echo_handlers (#"c") 5 false false (mkServer ∅ ∅ true []) 0).

Definition upgrade_text : str := take (length upgrade_request - 1) upgrade_request.

(** The handshake in two reads, a message that is echoed, a text from the
    application, and a close; the kernel takes nine bytes of each write. *)
Definition sample_events : list Event :=
  [Readable (take 40 upgrade_text) 1 (λ _, accepts 9); Readable (drop 40 upgrade_text) 2 (λ _, accepts 9);
   Readable (chr <$> WebSocketServer.wire (hi_frame, [1; 2; 3; 4]%Z)) 3 (λ _, accepts 9); Writable (accepts 9);
   Work [DoSendText (#"bye"); DoClose 1000 []; DoSendText (#"late")] (λ _, accepts 9)].

Definition sample_end : State := default sample_start (sample_plays sample_start sample_events).

Lemma sample_session_run : sample_plays sample_start sample_events = Some sample_end.
Proof.
  assert (H : is_Some (sample_plays sample_start sample_events)) by (apply (bool_decide_unpack _); vm_compute; exact I).
  unfold sample_end. by destruct H as [st ->].
Qed.

Lemma sample_session_ok : Forall event_ok sample_events.
Proof.
  assert (Ha : takes_part (accepts 9)) by exact (accepts_ok 9).
  repeat (apply Forall_cons_2; [cbn [event_ok]; intros; exact Ha|]). by apply Forall_nil.
Qed.

Lemma session_on_the_wire_witness :
  ShutdownConn ∈ heard sample_end ∧
  ∃ s, sessions_ (srv sample_end) !! (#"c") = Some s ∧
    conn_connected s = bool_decide (TcpConnection.state_ (conn sample_end) = kConnected) ∧
    (∀ pre post, heard sample_end = pre ++ ShutdownConn :: post → no_frames post) ∧
    ∀ wrs, Forall (λ wr, takes_part wr ∧ takes_some wr) wrs → length (bq_contents (outputBuffer_ (conn sample_end))) ≤ length wrs →
    ∃ st', sample_plays sample_end (Writable <$> wrs) = Some st' ∧ heard st' = heard sample_end ∧
      TcpConnection.wire (log (conn st')) = sent (heard sample_end) ∧
      (ShutdownConn ∈ heard sample_end → EShutdownWrite ∈ log (conn st')).
Proof.
  split.
  - assert (H : existsb is_shut (heard sample_end) = true) by (vm_compute; reflexivity).
    apply existsb_exists in H as (e & Hin & He). destruct e; try discriminate He. by apply list_elem_of_In.
  - apply (session_on_the_wire (λ _, [1; 2; 3]%Z) echo_handlers WebSocketConfig_default (#"c") 5 false false
      (mkServer ∅ ∅ true []) 0 sample_events sample_end).
    + exact sample_session_ok.
    + exact sample_session_run.
Defined.

(** A handshake that is refused shuts the connection down, but leaves the
    session waiting for one: a good request behind it opens the session, and
    the application is told so, on a connection that sends nothing more. *)
Example opened_after_refusal :
  let opened := λ st : State,
    (state_ <$> sessions_ (srv st) !! (#"c"), existsb (λ e, match e with Opened _ => true | _ => false end) (heard st),
     bool_decide (TcpConnection.state_ (conn st) = kConnected)) in
  opened <$> sample_plays sample_start
    [Readable (#"GET / HTTP/1.1" ++ crlf ++ #"Host: h" ++ crlf2) 1 (λ _, accepts 500); Readable upgrade_text 2 (λ _, accepts 500)]
  = Some (Some Open, true, false).
Proof. vm_compute. reflexivity. Qed.
