(* ===== verification/LoadBalancer.v ===== *)
(** * LoadBalancer: the selection strategies

    Models [src/balancer/LoadBalancer.h].  A [shared_ptr<BackendServer>] is a
    number, and the servers are in a store: a client keeps its pointer when
    the balancer drops the server, and the strategies change the servers they
    look at. *)

From S2P Require Import Prelude.

Open Scope Z_scope.

Record BackendServer := mkServer {
  host : str;
  port : Z;
  weight : Z;
  currentWeight : Z;
  connections : Z;
  healthy : bool
}.

Definition BackendServer_new (h : str) (p w : Z) : BackendServer := mkServer h p w 0 0 true.

Definition address (s : BackendServer) : str := host s ++ #":" ++ to_string (port s).

Notation store := (gmap nat BackendServer).

Definition set_weight (s : BackendServer) (c : Z) : BackendServer :=
  mkServer (host s) (port s) (weight s) c (connections s) (healthy s).
Definition set_connections (s : BackendServer) (c : Z) : BackendServer :=
  mkServer (host s) (port s) (weight s) (currentWeight s) c (healthy s).
Definition set_healthy (s : BackendServer) (h : bool) : BackendServer :=
  mkServer (host s) (port s) (weight s) (currentWeight s) (connections s) h.

Definition is_healthy (st : store) (p : nat) : bool :=
  match st !! p with Some s => healthy s | None => false end.

Definition healthy_servers (st : store) (servers : list nat) : list nat := List.filter (is_healthy st) servers.

(** ** Round robin *)

(** [index_.fetch_add(1) % healthy.size()]; the counter is a [size_t]. *)
Definition rr_select (index : Z) (st : store) (servers : list nat) : option nat * Z :=
  match servers with
  | [] => (None, index)
  | _ =>
      match healthy_servers st servers with
      | [] => (None, index)
      | hs => (hs !! Z.to_nat (index mod zlen hs), u64 (index + 1))
      end
  end.

(** ** Smooth weighted round robin *)

(** One turn of the loop: the selected server so far and the total weight. *)
Definition wrr_body (acc : store * option nat * Z) (p : nat) : store * option nat * Z :=
  let '(st, selected, totalWeight) := acc in
  match st !! p with
  | None => acc
  | Some s =>
      if negb (healthy s) then acc else
      let s' := set_weight s (i32 (currentWeight s + weight s)) in
      let st' := <[p := s']> st in
      let better :=
        match selected with
        | None => true
        | Some q => match st' !! q with
                    | Some t => (currentWeight t <? currentWeight s')
                    | None => false end
        end in
      (st', if better then Some p else selected, i32 (totalWeight + weight s))
  end.

Definition wrr_select (st : store) (servers : list nat) : option nat * store :=
  let '(st1, selected, totalWeight) := foldl wrr_body (st, None, 0) servers in
  match selected with
  | None => (None, st1)
  | Some p =>
      match st1 !! p with
      | Some s => (Some p, <[p := set_weight s (i32 (currentWeight s - totalWeight))]> st1)
      | None => (Some p, st1)
      end
  end.

(** ** Least connections *)

Definition INT32_MAX : Z := 2147483647.

Definition lc_body (st : store) (acc : option nat * Z) (p : nat) : option nat * Z :=
  match st !! p with
  | Some s => if healthy s && (connections s <? acc.2) then (Some p, connections s) else acc
  | None => acc
  end.

Definition lc_select (st : store) (servers : list nat) : option nat * store :=
  match (foldl (lc_body st) (None, INT32_MAX) servers).1 with
  | None => (None, st)
  | Some p =>
      (Some p, match st !! p with
               | Some s => <[p := set_connections s (i32 (connections s + 1))]> st
               | None => st end)
  end.

Definition lc_release (st : store) (server : option nat) : store :=
  match server with
  | None => st
  | Some p =>
      match st !! p with
      | Some s => if 0 <? connections s then <[p := set_connections s (connections s - 1)]> st else st
      | None => st
      end
  end.

(** ** Random: the drawn index, below the number of healthy servers *)

Definition random_select (draw : nat → nat) (st : store) (servers : list nat) : option nat :=
  match healthy_servers st servers with
  | [] => None
  | hs => hs !! draw (length hs)
  end.

(** ** Consistent hashing *)

Definition hashString (s : str) : Z :=
  foldl (λ hash c, u32 (u32 (u32 (Z.shiftl hash 5) + hash) + u8_of c)) 5381 s.

Definition node_hash (s : BackendServer) (i : nat) : Z :=
  hashString (address s ++ #"#" ++ to_string (Z.of_nat i)).

Notation ring := (gmap Z nat).

Definition ring_add (virtualNodes : nat) (st : store) (r : ring) (p : nat) : ring :=
  match st !! p with
  | Some s =>
      if healthy s then foldl (λ r i, <[node_hash s i := p]> r) r (seq 0 virtualNodes) else r
  | None => r
  end.

(** [init]. *)
Definition ch_init (virtualNodes : nat) (st : store) (servers : list nat) : ring :=
  foldl (ring_add virtualNodes st) ∅ servers.

(** [std::map] iterates in the order of its keys: the least key of the ring
    that satisfies a test. *)
Definition least (f : Z → bool) (r : ring) : option Z :=
  foldr (λ k best, if f k then match best with Some b => Some (Z.min k b) | None => Some k end else best)
    None (map_to_list r).*1.

(** [lower_bound(key)], or the first node. *)
Definition selectWithKey (r : ring) (key : Z) : option nat :=
  match least (λ k, key <=? k) r with
  | Some k => r !! k
  | None => match least (λ _, true) r with Some k => r !! k | None => None end
  end.

(** ** The balancer *)

Inductive Strategy := RoundRobin | WeightedRoundRobin | LeastConnections | Random | ConsistentHash.

Inductive StrategyImpl :=
  | RoundRobinStrategy (index : Z)
  | WeightedRoundRobinStrategy
  | LeastConnectionsStrategy
  | RandomStrategy (draws : list (nat → nat))
  | ConsistentHashStrategy (virtualNodes : nat) (r : ring).

(** The random numbers that will be drawn are part of the generator's state:
    each gives an index below a bound. *)
Definition createStrategy (t : Strategy) (draws : list (nat → nat)) : StrategyImpl :=
  match t with
  | RoundRobin => RoundRobinStrategy 0
  | WeightedRoundRobin => WeightedRoundRobinStrategy
  | LeastConnections => LeastConnectionsStrategy
  | Random => RandomStrategy draws
  | ConsistentHash => ConsistentHashStrategy 150 ∅
  end.

Record LoadBalancer := mkBalancer {
  strategyType_ : Strategy;
  strategyImpl_ : StrategyImpl;
  servers_ : list nat;
  objects : store;
  next_object : nat
}.

Definition LoadBalancer_new (t : Strategy) (draws : list (nat → nat)) : LoadBalancer :=
  mkBalancer t (createStrategy t draws) [] ∅ 0.

Definition addServer (b : LoadBalancer) (h : str) (p w : Z) : LoadBalancer :=
  mkBalancer (strategyType_ b) (strategyImpl_ b) (servers_ b ++ [next_object b])
    (<[next_object b := BackendServer_new h p w]> (objects b)) (S (next_object b)).

Definition at_address (st : store) (h : str) (p : Z) (ptr : nat) : bool :=
  match st !! ptr with
  | Some s => bool_decide (host s = h) && (port s =? p)
  | None => false
  end.

Definition removeServer (b : LoadBalancer) (h : str) (p : Z) : LoadBalancer :=
  mkBalancer (strategyType_ b) (strategyImpl_ b)
    (List.filter (λ ptr, negb (at_address (objects b) h p ptr)) (servers_ b)) (objects b) (next_object b).

(** Only the first server at the address is changed. *)
Definition setServerHealth (b : LoadBalancer) (h : str) (p : Z) (up : bool) : LoadBalancer :=
  match List.find (at_address (objects b) h p) (servers_ b) with
  | Some ptr =>
      mkBalancer (strategyType_ b) (strategyImpl_ b) (servers_ b)
        (alter (λ s, set_healthy s up) ptr (objects b)) (next_object b)
  | None => b
  end.

Definition with_impl (b : LoadBalancer) (i : StrategyImpl) (st : store) : LoadBalancer :=
  mkBalancer (strategyType_ b) i (servers_ b) st (next_object b).

Definition select (b : LoadBalancer) : option nat * LoadBalancer :=
  match strategyImpl_ b with
  | RoundRobinStrategy index =>
      let '(p, index') := rr_select index (objects b) (servers_ b) in
      (p, with_impl b (RoundRobinStrategy index') (objects b))
  | WeightedRoundRobinStrategy =>
      let '(p, st) := wrr_select (objects b) (servers_ b) in (p, with_impl b WeightedRoundRobinStrategy st)
  | LeastConnectionsStrategy =>
      let '(p, st) := lc_select (objects b) (servers_ b) in (p, with_impl b LeastConnectionsStrategy st)
  | RandomStrategy draws =>
      (random_select (hd (λ _, 0%nat) draws) (objects b) (servers_ b),
       with_impl b (RandomStrategy (tl draws)) (objects b))
  | ConsistentHashStrategy vn r => (selectWithKey r 0, b)
  end.

Definition releaseConnection (b : LoadBalancer) (server : option nat) : LoadBalancer :=
  match strategyImpl_ b with
  | LeastConnectionsStrategy => with_impl b LeastConnectionsStrategy (lc_release (objects b) server)
  | _ => b
  end.

(** ** Smooth weighted round robin is exact *)

Definition zsum (f : nat → Z) (l : list nat) : Z := foldr (λ p acc, f p + acc) 0 l.

Lemma zsum_ext f g l : (∀ p, p ∈ l → f p = g p) → zsum f l = zsum g l.
Proof.
  induction l as [|p l IH]; intros H; simpl; [done|].
  rewrite (H p) by left. rewrite IH; [done|]. intros q Hq. apply H. by right.
Qed.

Lemma zsum_add f g l : zsum (λ p, f p + g p) l = zsum f l + zsum g l.
Proof. induction l as [|p l IH]; simpl; [done|]. lia. Qed.

Lemma zsum_scale k f l : zsum (λ p, k * f p) l = k * zsum f l.
Proof. induction l as [|p l IH]; simpl; [lia|]. lia. Qed.

Lemma zsum_one p l : NoDup l → p ∈ l → zsum (λ q, if bool_decide (q = p) then 1 else 0) l = 1.
Proof.
  induction l as [|q l IH]; [by intros _ ?%elem_of_nil|].
  intros [Hq Hnd]%NoDup_cons Hp. simpl. case_bool_decide as E.
  - subst q. assert (zsum (λ q, if bool_decide (q = p) then 1 else 0) l = 0) as ->; [|lia].
    clear -Hq. induction l as [|q l IH]; simpl; [done|].
    rewrite bool_decide_false by set_solver. rewrite IH; set_solver.
  - apply elem_of_cons in Hp as [->|Hp]; [done|]. by rewrite IH.
Qed.

Lemma zsum_le f g l : (∀ p, p ∈ l → f p <= g p) → zsum f l <= zsum g l.
Proof.
  induction l as [|p l IH]; intros H; simpl; [lia|].
  pose proof (H p ltac:(left)). pose proof (IH (λ q Hq, H q (list_elem_of_further _ _ _ Hq))). lia.
Qed.

Lemma zsum_bound f l m : (∀ p, p ∈ l → f p <= m) → zsum f l <= m * zlen l.
Proof.
  induction l as [|p l IH]; intros H; simpl; [unfold zlen; simpl; lia|].
  pose proof (H p ltac:(left)). pose proof (IH (λ q Hq, H q (list_elem_of_further _ _ _ Hq))).
  unfold zlen in *. simpl. lia.
Qed.

(** A sum of lower-bounded terms bounds each of them from above. *)
Lemma zsum_upper f l p m :
  p ∈ l → (∀ q, q ∈ l → - m < f q) → 0 <= m → f p <= zsum f l + m * zlen l.
Proof.
  induction l as [|q l IH]; [by intros ?%elem_of_nil|]. intros Hp Hlow Hm. simpl.
  assert (Hrest : - (m * zlen l) <= zsum f l).
  { clear IH Hp. assert (∀ x, x ∈ l → - m < f x) as H by (intros x Hx; apply Hlow; by right).
    clear Hlow. induction l as [|x l IH]; simpl; [unfold zlen; simpl; lia|].
    pose proof (H x ltac:(left)). specialize (IH (λ y Hy, H y (list_elem_of_further _ _ _ Hy))).
    unfold zlen in *. simpl length. lia. }
  apply elem_of_cons in Hp as [->|Hp].
  - pose proof (Hlow q ltac:(left)). unfold zlen in *. simpl length. nia.
  - pose proof (Hlow q ltac:(left)). specialize (IH Hp (λ x Hx, Hlow x (list_elem_of_further _ _ _ Hx)) Hm).
    unfold zlen in *. simpl length. lia.
Qed.

Lemma zsum_nonneg f l : (∀ p, p ∈ l → 0 <= f p) → 0 <= zsum f l.
Proof.
  induction l as [|p l IH]; intros H; simpl; [lia|]. pose proof (H p ltac:(left)).
  enough (0 <= zsum f l) by lia. apply IH. set_solver.
Qed.

Lemma zsum_member f l p : (∀ q, q ∈ l → 0 <= f q) → p ∈ l → f p <= zsum f l.
Proof.
  induction l as [|q l IH]; intros H Hp; [by apply elem_of_nil in Hp|]. simpl.
  pose proof (zsum_nonneg f l ltac:(set_solver)). pose proof (H q ltac:(left)).
  apply elem_of_cons in Hp as [->|Hp]; [lia|]. enough (f p <= zsum f l) by lia. apply IH; [set_solver|done].
Qed.

Lemma zsum_app f l k : zsum f (l ++ k) = zsum f l + zsum f k.
Proof. induction l as [|p l IH]; simpl; [done|]. rewrite IH. lia. Qed.

Lemma zsum_squeeze f g l :
  (∀ p, p ∈ l → f p <= g p) → zsum f l = zsum g l → ∀ p, p ∈ l → f p = g p.
Proof.
  induction l as [|q l IH]; [by intros _ _ p ?%elem_of_nil|]. intros Hle Hsum p Hp. simpl in Hsum.
  pose proof (Hle q ltac:(left)). pose proof (zsum_le f g l ltac:(set_solver)).
  apply elem_of_cons in Hp as [->|Hp]; [lia|]. apply IH; [set_solver|lia|done].
Qed.

Lemma zsum_zero f l : (∀ p, p ∈ l → f p = 0) → zsum f l = 0.
Proof. induction l as [|p l IH]; intros H; simpl; [done|]. rewrite (H p), IH; set_solver. Qed.

Lemma i32_id z : - 2 ^ 31 <= z < 2 ^ 31 → i32 z = z.
Proof. apply i32_small. Qed.

Section WeightedRoundRobin.
Context (st0 : store) (servers : list nat).

Definition wt (p : nat) : Z := match st0 !! p with Some s => weight s | None => 0 end.
Definition cw (st : store) (p : nat) : Z := match st !! p with Some s => currentWeight s | None => 0 end.

(** The same servers, up to their current weights. *)
Definition same (st : store) : Prop :=
  ∀ p, match st0 !! p with
       | Some s => ∃ c, st !! p = Some (set_weight s c)
       | None => st !! p = None
       end.

Let hs := healthy_servers st0 servers.
Let W := zsum wt hs.

Context (Hnd : NoDup servers) (Hobj : ∀ p, p ∈ servers → is_Some (st0 !! p)).
Context (Hpos : ∀ p, p ∈ hs → 0 < wt p) (Hsmall : W * (zlen hs + 2) < 2 ^ 31).

Lemma same_refl : same st0.
Proof. intros p. destruct (st0 !! p) as [s|]; [|done]. exists (currentWeight s). by destruct s. Qed.

Lemma same_healthy st p : same st → is_healthy st p = is_healthy st0 p.
Proof.
  intros H. specialize (H p). unfold is_healthy. destruct (st0 !! p) as [s|]; [destruct H as [c ->]|by rewrite H].
  done.
Qed.

Lemma same_insert st p s c : same st → st0 !! p = Some s → same (<[p := set_weight s c]> st).
Proof.
  intros H Hs q. destruct (decide (q = p)) as [->|Hne].
  - rewrite Hs. exists c. by rewrite lookup_insert_eq.
  - rewrite lookup_insert_ne by done. apply H.
Qed.

(** The loop over a part [l] of the servers. *)
Definition loop_spec (st : store) (l : list nat) (acc : store * option nat * Z) : Prop :=
  let '(st', sel, tot) := acc in
  let hl := healthy_servers st0 l in
  same st' ∧ tot = zsum wt hl ∧
  (∀ p, cw st' p = cw st p + (if bool_decide (p ∈ hl) then wt p else 0)) ∧
  match sel with
  | None => hl = []
  | Some p => p ∈ hl ∧ ∀ q, q ∈ hl → cw st' q <= cw st' p
  end.

Lemma healthy_in p l : p ∈ healthy_servers st0 l ↔ p ∈ l ∧ is_healthy st0 p = true.
Proof. unfold healthy_servers. rewrite !list_elem_of_In, filter_In. done. Qed.

Lemma wt_le p : p ∈ hs → wt p <= W.
Proof. intros Hp. apply zsum_member; [intros q Hq; specialize (Hpos q Hq); lia|done]. Qed.

Lemma cw_insert st p s c q :
  cw (<[p := set_weight s c]> st) q = if decide (q = p) then c else cw st q.
Proof. unfold cw. case_decide as E; [subst; by rewrite lookup_insert_eq|by rewrite lookup_insert_ne]. Qed.

Lemma healthy_snoc l p s :
  st0 !! p = Some s → healthy_servers st0 (l ++ [p]) = healthy_servers st0 l ++ (if healthy s then [p] else []).
Proof.
  intros E. unfold healthy_servers. rewrite List.filter_app. simpl. unfold is_healthy at 2. rewrite E.
  by destruct (healthy s).
Qed.

Lemma part_le l rest : servers = l ++ rest → 0 <= zsum wt (healthy_servers st0 l) <= W.
Proof.
  intros E. assert (Hn : ∀ k, (∀ p, p ∈ k → p ∈ hs) → 0 <= zsum wt k).
  { intros k Hk. apply zsum_nonneg. intros p Hp. specialize (Hpos p (Hk p Hp)). lia. }
  assert (Hh : hs = healthy_servers st0 l ++ healthy_servers st0 rest)
    by (unfold hs, healthy_servers; by rewrite E, List.filter_app).
  pose proof (Hn (healthy_servers st0 l) ltac:(rewrite Hh; set_solver)).
  pose proof (Hn (healthy_servers st0 rest) ltac:(rewrite Hh; set_solver)).
  unfold W. rewrite Hh, zsum_app. lia.
Qed.

Lemma W_small : 0 <= W < 2 ^ 31.
Proof.
  pose proof (part_le servers [] (eq_sym (app_nil_r _))) as H. fold hs W in H.
  assert (0 <= zlen hs) by (unfold zlen; lia). nia.
Qed.

(** One turn on a healthy server. *)
Lemma turn_ok st st' sel tot l p s rest :
  servers = l ++ p :: rest → st0 !! p = Some s → healthy s = true →
  (∀ p, p ∈ hs → - W < cw st p <= W * zlen hs) →
  loop_spec st l (st', sel, tot) → loop_spec st (l ++ [p]) (wrr_body (st', sel, tot) p).
Proof.
  intros Hsplit Es Eh Hb (Hs' & Htot & Hcw & Hsel).
  assert (Hnl : p ∉ l).
  { rewrite Hsplit in Hnd. apply NoDup_app in Hnd as (_ & Hd & _). intros Hin. apply (Hd p Hin). by left. }
  assert (Hph : p ∈ hs).
  { apply healthy_in. split; [rewrite Hsplit; set_solver|unfold is_healthy; by rewrite Es]. }
  pose proof (Hs' p) as Hsp. rewrite Es in Hsp. destruct Hsp as [c Ec].
  assert (Hwp : wt p = weight s) by (unfold wt; by rewrite Es).
  assert (Hc : c = cw st p).
  { pose proof (Hcw p) as H. unfold cw at 1 in H. rewrite Ec in H. cbn in H.
    rewrite bool_decide_false in H by (rewrite healthy_in; tauto). lia. }
  pose proof (wt_le p Hph). pose proof (Hb p Hph). pose proof (Hpos p Hph). pose proof W_small.
  assert (Htot' : i32 (tot + weight s) = zsum wt (healthy_servers st0 (l ++ [p]))).
  { assert (servers = (l ++ [p]) ++ rest) as Hsp' by (by rewrite <-app_assoc).
    pose proof (part_le _ _ Hsp') as Hle.
    rewrite (healthy_snoc _ _ _ Es), Eh, zsum_app in *. simpl in *. rewrite i32_id; lia. }
  assert (Hi : i32 (c + weight s) = c + weight s) by (apply i32_id; nia).
  unfold wrr_body, loop_spec. rewrite Ec. cbn [healthy set_weight weight currentWeight].
  rewrite Eh, Hi. cbn [negb].
  change (set_weight (set_weight s c) (c + weight s)) with (set_weight s (c + weight s)).
  rewrite (healthy_snoc _ _ _ Es), Eh in *.
  assert (Hnew : ∀ q, cw (<[p := set_weight s (c + weight s)]> st') q
    = cw st q + (if bool_decide (q ∈ healthy_servers st0 l ++ [p]) then wt q else 0)).
  { intros q. rewrite cw_insert. case_decide as E.
    - subst q. rewrite bool_decide_true by set_solver. lia.
    - rewrite Hcw. do 2 case_bool_decide; try done; set_solver. }
  split; [by apply same_insert|]. split; [exact Htot'|]. split; [exact Hnew|].
  destruct sel as [q|].
  - destruct Hsel as [Hq Hmax].
    assert (Hqp : q ≠ p) by (intros ->; apply healthy_in in Hq; tauto).
    rewrite lookup_insert_ne by done.
    assert (Hqs : ∃ t, st' !! q = Some t).
    { apply healthy_in in Hq as [_ Hq]. unfold is_healthy in Hq. pose proof (Hs' q) as Hsq.
      destruct (st0 !! q); [|done]. destruct Hsq as [d ->]. eauto. }
    destruct Hqs as [t Et]. rewrite Et.
    assert (Hct : cw st' q = currentWeight t) by (unfold cw; by rewrite Et).
    destruct (currentWeight t <? c + weight s) eqn:Elt; bool_to_prop.
    + split; [set_solver|]. intros x Hx. rewrite !cw_insert. rewrite (decide_True (P := p = p)) by done.
      case_decide; [lia|]. assert (x ∈ healthy_servers st0 l) as Hx' by set_solver.
      specialize (Hmax x Hx'). lia.
    + split; [set_solver|]. intros x Hx. rewrite !cw_insert. rewrite (decide_False (P := q = p)) by done.
      case_decide; [lia|]. apply Hmax. set_solver.
  - split; [set_solver|]. rewrite Hsel. intros x Hx. assert (x = p) as -> by set_solver. done.
Qed.

Lemma loop_ok st (l rest : list nat) :
  servers = l ++ rest → same st → (∀ p, p ∈ hs → - W < cw st p <= W * zlen hs) →
  loop_spec st l (foldl wrr_body (st, None, 0) l).
Proof.
  intros Hsplit Hsame Hb. revert rest Hsplit. induction l as [|p l IH] using rev_ind; intros rest Hsplit.
  - cbn [foldl]. unfold loop_spec. split_and!; [done|done| |done]. intros p.
    rewrite bool_decide_false; [lia|]. intros H%healthy_in. set_solver.
  - rewrite foldl_app. cbn [foldl]. rewrite <-app_assoc in Hsplit. specialize (IH (p :: rest) Hsplit).
    destruct (foldl wrr_body (st, None, 0) l) as [[st' sel] tot].
    destruct (Hobj p ltac:(rewrite Hsplit; set_solver)) as [s Es].
    destruct (healthy s) eqn:Eh; [by eapply turn_ok|].
    destruct IH as (Hs' & IH). pose proof (Hs' p) as Hsp. rewrite Es in Hsp. destruct Hsp as [c Ec].
    unfold wrr_body, loop_spec. rewrite Ec, (healthy_snoc _ _ _ Es). cbn [healthy set_weight].
    rewrite Eh. cbn [negb]. by rewrite app_nil_r.
Qed.

(** What one selection does when some server is healthy. *)
Lemma wrr_select_spec st :
  hs ≠ [] → same st → (∀ p, p ∈ hs → - W < cw st p <= W * zlen hs) →
  ∃ p st', wrr_select st servers = (Some p, st') ∧ same st' ∧ p ∈ hs ∧
    (∀ q, q ∈ hs → cw st q + wt q <= cw st p + wt p) ∧
    (∀ q, q ∈ hs → cw st' q = cw st q + wt q - (if bool_decide (q = p) then W else 0)).
Proof.
  intros Hne Hsame Hb. pose proof (loop_ok st servers [] (eq_sym (app_nil_r _)) Hsame Hb) as H.
  unfold wrr_select. destruct (foldl wrr_body (st, None, 0) servers) as [[st1 sel] tot].
  destruct H as (Hs1 & Htot & Hcw & Hsel). destruct sel as [p|]; [|done]. destruct Hsel as [Hp Hmax].
  fold hs in Htot, Hcw, Hp, Hmax.
  assert (Hcw' : ∀ q, q ∈ hs → cw st1 q = cw st q + wt q) by (intros q Hq; rewrite Hcw, bool_decide_true; done).
  assert (Hps : ∃ s, st0 !! p = Some s).
  { apply healthy_in in Hp as [_ H]. unfold is_healthy in H. destruct (st0 !! p); [eauto|done]. }
  destruct Hps as [s Es]. pose proof (Hs1 p) as Hsp. rewrite Es in Hsp. destruct Hsp as [c Ec]. rewrite Ec.
  assert (Hc : cw st1 p = c) by (unfold cw; by rewrite Ec).
  exists p, (<[p := set_weight s (i32 (c - tot))]> st1).
  split; [done|]. split; [by apply same_insert|]. split; [done|].
  split; [intros q Hq; rewrite <-!Hcw' by done; by apply Hmax|].
  intros q Hq. rewrite cw_insert. pose proof W_small. pose proof (Hb p Hp). pose proof (Hpos p Hp).
  pose proof (wt_le p Hp). rewrite (Hcw' p Hp) in Hc. assert (0 <= zlen hs) by (unfold zlen; lia).
  destruct (decide (q = p)) as [->|Hqp].
  - rewrite bool_decide_true by done. fold W in Htot. rewrite Htot, i32_id by nia. lia.
  - rewrite bool_decide_false by done. rewrite Hcw' by done. lia.
Qed.
(** The state between two selections. *)
Definition between (st : store) : Prop :=
  same st ∧ (∀ p, p ∈ hs → - W < cw st p) ∧ zsum (cw st) hs = 0.

Lemma hs_nodup : NoDup hs.
Proof. unfold hs, healthy_servers. apply NoDup_ListNoDup, List.NoDup_filter, NoDup_ListNoDup, Hnd. Qed.

Lemma between_bound st : between st → ∀ p, p ∈ hs → - W < cw st p <= W * zlen hs.
Proof.
  intros (_ & Hlow & Hsum) p Hp. split; [by apply Hlow|].
  pose proof (zsum_upper (cw st) hs p W Hp Hlow ltac:(pose proof W_small; lia)). lia.
Qed.

Lemma between_step st :
  hs ≠ [] → between st →
  ∃ p st', wrr_select st servers = (Some p, st') ∧ p ∈ hs ∧ between st' ∧
    (∀ q, q ∈ hs → cw st' q = cw st q + wt q - W * (if bool_decide (q = p) then 1 else 0)).
Proof.
  intros Hne Hbt. pose proof (between_bound st Hbt) as Hb. destruct Hbt as (Hsame & Hlow & Hsum).
  destruct (wrr_select_spec st Hne Hsame Hb) as (p & st' & E & Hs' & Hp & Hmax & Hcw).
  assert (Hcw' : ∀ q, q ∈ hs → cw st' q = (cw st q + wt q) + (- W) * (if bool_decide (q = p) then 1 else 0)).
  { intros q Hq. rewrite Hcw by done. case_bool_decide; lia. }
  assert (Htotal : zsum (λ q, cw st q + wt q) hs = W) by (rewrite zsum_add, Hsum; done).
  assert (HW : 0 < W) by (pose proof (wt_le p Hp); specialize (Hpos p Hp); lia).
  assert (Hmax0 : 0 < cw st p + wt p).
  { destruct (Z.le_gt_cases (cw st p + wt p) 0) as [Hle|]; [|lia].
    pose proof (zsum_bound (λ q, cw st q + wt q) hs 0 ltac:(intros q Hq; specialize (Hmax q Hq); simpl; lia)).
    lia. }
  exists p, st'. split; [done|]. split; [done|]. split; [split; [done|]; split|].
  - intros q Hq. rewrite Hcw' by done. pose proof (Hlow q Hq). pose proof (Hpos q Hq).
    case_bool_decide; [subst; lia|lia].
  - rewrite (zsum_ext _ _ hs Hcw'), zsum_add, zsum_scale, (zsum_one p hs hs_nodup Hp). lia.
  - intros q Hq. rewrite Hcw' by done. lia.
Qed.

Lemma between_select b :
  hs ≠ [] → servers_ b = servers → strategyImpl_ b = WeightedRoundRobinStrategy → between (objects b) →
  ∃ p b', select b = (Some p, b') ∧ p ∈ hs ∧
    servers_ b' = servers ∧ strategyImpl_ b' = WeightedRoundRobinStrategy ∧ between (objects b') ∧
    (∀ q, q ∈ hs → cw (objects b') q = cw (objects b) q + wt q - W * (if bool_decide (q = p) then 1 else 0)).
Proof.
  intros Hne Hs Hi Hbt. destruct (between_step _ Hne Hbt) as (p & st' & E & Hp & Hbt' & Hcw).
  unfold select. rewrite Hi, Hs, E. exists p. eexists. split; [reflexivity|]. by rewrite <-Hs.
Qed.
End WeightedRoundRobin.

(** [n] selections in a row. *)
Fixpoint selects (n : nat) (b : LoadBalancer) : list (option nat) * LoadBalancer :=
  match n with
  | O => ([], b)
  | S n =>
      let '(p, b1) := select b in
      let '(ps, b2) := selects n b1 in
      (p :: ps, b2)
  end.

(** How often a server was selected. *)
Definition times (p : nat) (l : list (option nat)) : Z :=
  zlen (List.filter (λ o, bool_decide (o = Some p)) l).

Lemma times_cons p o l : times p (o :: l) = (if bool_decide (o = Some p) then 1 else 0) + times p l.
Proof. unfold times, zlen. simpl. case_bool_decide; simpl length; lia. Qed.

Section Runs.
Context (st0 : store) (servers : list nat).
Let hs := healthy_servers st0 servers.
Let W := zsum (wt st0) hs.
Context (Hnd : NoDup servers) (Hobj : ∀ p, p ∈ servers → is_Some (st0 !! p)).
Context (Hpos : ∀ p, p ∈ hs → 0 < wt st0 p) (Hsmall : W * (zlen hs + 2) < 2 ^ 31) (Hne : hs ≠ []).

Lemma selects_spec n b :
  servers_ b = servers → strategyImpl_ b = WeightedRoundRobinStrategy → between st0 servers (objects b) →
  ∃ l b', selects n b = (l, b') ∧ length l = n ∧ (∀ o, o ∈ l → ∃ p, o = Some p ∧ p ∈ hs) ∧
    between st0 servers (objects b') ∧
    (∀ q, q ∈ hs → cw (objects b') q = cw (objects b) q + Z.of_nat n * wt st0 q - W * times q l).
Proof.
  revert b. induction n as [|n IH]; intros b Hs Hi Hbt; simpl selects.
  - exists [], b. split_and!; [done|done|set_solver|done|]. intros q Hq. unfold times, zlen. simpl. lia.
  - destruct (between_select st0 servers Hnd Hobj Hpos Hsmall b Hne Hs Hi Hbt)
      as (p & b1 & E & Hp & Hs1 & Hi1 & Hbt1 & Hcw1). rewrite E.
    destruct (IH b1 Hs1 Hi1 Hbt1) as (l & b2 & El & Hlen & Hin & Hbt2 & Hcw2). rewrite El.
    exists (Some p :: l), b2. split_and!; [done|simpl; lia| |done|].
    + intros o [->|Ho]%elem_of_cons; eauto.
    + intros q Hq. rewrite Hcw2, Hcw1 by done. rewrite times_cons.
      rewrite (bool_decide_ext (Some p = Some q) (q = p)) by naive_solver. fold hs W. lia.
Qed.

Lemma times_total l : (∀ o, o ∈ l → ∃ p, o = Some p ∧ p ∈ hs) → zsum (λ q, times q l) hs = zlen l.
Proof.
  induction l as [|o l IH]; intros H.
  - rewrite (zsum_ext _ (λ q, 0 * 0)) by (intros; reflexivity). rewrite zsum_scale. done.
  - destruct (H o ltac:(left)) as (p & -> & Hp).
    rewrite (zsum_ext _ (λ q, (if bool_decide (q = p) then 1 else 0) + times q l)).
    + rewrite zsum_add, zsum_one, IH; [unfold zlen; simpl; lia|set_solver|by apply hs_nodup|done].
    + intros q _. rewrite times_cons. by rewrite (bool_decide_ext (Some p = Some q) (q = p)) by naive_solver.
Qed.
End Runs.

(** The total weight of the healthy servers. *)
Definition total_weight (b : LoadBalancer) : Z :=
  zsum (wt (objects b)) (healthy_servers (objects b) (servers_ b)).

(** Smooth weighted round robin on fresh servers: positive weights, current
    weights zero, and a total that leaves room in an [int]. *)
Definition wrr_ready (b : LoadBalancer) : Prop :=
  let hs := healthy_servers (objects b) (servers_ b) in
  strategyImpl_ b = WeightedRoundRobinStrategy ∧ NoDup (servers_ b) ∧
  (∀ p, p ∈ servers_ b → is_Some (objects b !! p)) ∧
  (∀ p, p ∈ hs → 0 < wt (objects b) p ∧ cw (objects b) p = 0) ∧
  total_weight b * (zlen hs + 2) < 2 ^ 31 ∧ hs ≠ [].

Lemma wrr_ready_run b n :
  wrr_ready b →
  let hs := healthy_servers (objects b) (servers_ b) in
  ∃ l b', selects n b = (l, b') ∧ length l = n ∧ (∀ o, o ∈ l → ∃ p, o = Some p ∧ p ∈ hs) ∧
    (∀ q, q ∈ hs → cw (objects b') q = Z.of_nat n * wt (objects b) q - total_weight b * times q l ∧
                   - total_weight b < cw (objects b') q <= total_weight b * zlen hs).
Proof.
  intros (Hi & Hnd & Hobj & Hw & Hsmall & Hne) hs.
  assert (Hpos : ∀ p, p ∈ hs → 0 < wt (objects b) p) by (intros p Hp; by apply Hw).
  assert (Hbt : between (objects b) (servers_ b) (objects b)).
  { split; [apply same_refl|]. split; [|apply zsum_zero; intros p Hp; by apply Hw].
    intros p Hp. rewrite (proj2 (Hw p Hp)). pose proof (Hpos p Hp).
    pose proof (wt_le (objects b) (servers_ b) Hpos p Hp). lia. }
  destruct (selects_spec (objects b) (servers_ b) Hnd Hobj Hpos Hsmall Hne n b eq_refl Hi Hbt)
    as (l & b' & E & Hlen & Hin & Hbt' & Hcw).
  exists l, b'. split_and!; [done|done|done|]. intros q Hq.
  split; [rewrite Hcw by done; rewrite (proj2 (Hw q Hq)); unfold total_weight; lia|].
  by apply (between_bound (objects b) (servers_ b) Hnd Hobj Hpos Hsmall).
Qed.

(** C39: smooth weighted round robin is exact: however the weights are chosen,
    in as many consecutive selections as the total weight every healthy server
    is selected exactly as often as its weight, nothing else is selected, and
    all current weights are back at zero, so the pattern repeats. *)
Theorem weighted_round_robin_exact b :
  wrr_ready b →
  let hs := healthy_servers (objects b) (servers_ b) in
  ∃ l b', selects (Z.to_nat (total_weight b)) b = (l, b') ∧
    (∀ o, o ∈ l → ∃ p, o = Some p ∧ p ∈ hs) ∧
    (∀ p, p ∈ hs → times p l = wt (objects b) p ∧ cw (objects b') p = 0).
Proof.
  intros Hr hs. destruct (wrr_ready_run b (Z.to_nat (total_weight b)) Hr) as (l & b' & E & Hlen & Hin & Hcw).
  pose proof Hr as (_ & Hnd & Hobj & Hw & Hsmall & Hne).
  pose proof (λ p Hp, proj1 (Hw p Hp)) as Hpos. fold hs in Hin, Hcw.
  assert (HW : 0 < total_weight b).
  { unfold total_weight. fold hs. fold hs in Hne, Hw. destruct hs as [|p hs']; [done|].
    pose proof (proj1 (Hw p ltac:(left))). pose proof (zsum_member (wt (objects b)) (p :: hs') p
      ltac:(intros q Hq; pose proof (proj1 (Hw q Hq)); lia) ltac:(left)). lia. }
  rewrite Z2Nat.id in Hcw by lia.
  assert (Htimes : ∀ p, p ∈ hs → times p l = wt (objects b) p).
  { apply (zsum_squeeze (λ q, times q l) (wt (objects b)) hs).
    - intros p Hp. destruct (Hcw p Hp) as [Hc Hb]. nia.
    - unfold hs at 1; rewrite (times_total _ _ Hnd Hobj Hpos Hsmall Hne l Hin). unfold zlen. rewrite Hlen. change (zsum (wt (objects b)) hs) with (total_weight b). lia. }
  exists l, b'. split_and!; [done|done|]. intros p Hp. split; [by apply Htimes|].
  rewrite (proj1 (Hcw p Hp)), Htimes by done. lia.
Qed.

(** Three servers of weights 5, 1 and 1, as in the documentation of the
    algorithm: the order is a a b a c a a. *)
Definition three : LoadBalancer :=
  addServer (addServer (addServer (LoadBalancer_new WeightedRoundRobin []) #"a" 80 5) #"b" 80 1) #"c" 80 1.

Example three_order :
  (selects 7 three).1 = Some <$> [0; 0; 1; 0; 2; 0; 0]%nat.
Proof. vm_compute. reflexivity. Qed.

Lemma three_facts :
  servers_ three = [0; 1; 2]%nat ∧ healthy_servers (objects three) (servers_ three) = [0; 1; 2]%nat ∧
  total_weight three = 7 ∧
  Forall (λ p, 0 < wt (objects three) p ∧ cw (objects three) p = 0 ∧ is_Some (objects three !! p)) [0; 1; 2]%nat.
Proof. split_and!; [by vm_compute..|]. repeat constructor; try by vm_compute; eexists; by vm_compute. Qed.

Lemma weighted_round_robin_exact_witness :
  ∃ l b', selects (Z.to_nat (total_weight three)) three = (l, b') ∧
    times 0%nat l = wt (objects three) 0%nat ∧ times 2%nat l = wt (objects three) 2%nat.
Proof.
  destruct three_facts as (Hs & Hh & Ht & Hall). rewrite Forall_forall in Hall.
  destruct (weighted_round_robin_exact three) as (l & b' & E & _ & Hp).
  - unfold wrr_ready. rewrite Hh, Hs, Ht. split_and!.
    + reflexivity.
    + apply NoDup_ListNoDup. repeat constructor; simpl; lia.
    + intros p Hp. apply Hall, Hp.
    + intros p Hp. destruct (Hall p Hp) as (? & ? & _). done.
    + reflexivity.
    + discriminate.
  - exists l, b'. split; [exact E|]. rewrite Hh in Hp.
    clear -Hp. generalize dependent (objects three). intros st Hp.
    split; apply Hp; repeat constructor.
Defined.

(** ** Round robin *)

(** The [k]-th of a run of selections is the healthy server [k] places after
    the counter, as long as the counter does not wrap. *)
Theorem round_robin_rotates b index n :
  strategyImpl_ b = RoundRobinStrategy index → 0 <= index → index + Z.of_nat n < 2 ^ 64 →
  let hs := healthy_servers (objects b) (servers_ b) in
  hs ≠ [] →
  (selects n b).1 = (λ k, hs !! Z.to_nat ((index + Z.of_nat k) mod zlen hs)) <$> seq 0 n.
Proof.
  intros Hi H0 Hn hs Hne. revert b index Hi H0 Hn hs Hne.
  induction n as [|n IH]; intros b index Hi H0 Hn hs Hne; [done|].
  cbn [selects seq]. unfold select. rewrite Hi. unfold rr_select. fold hs.
  destruct (servers_ b) as [|p0 ps] eqn:Es; [done|].
  destruct hs as [|h hs'] eqn:Eh; [done|]. unfold u64. rewrite Z.mod_small by lia.
  set (b1 := with_impl b (RoundRobinStrategy (index + 1)) (objects b)).
  assert (Hhs : healthy_servers (objects b1) (servers_ b1) = h :: hs') by (cbn; rewrite Es; exact Eh).
  specialize (IH b1 (index + 1) eq_refl ltac:(lia) ltac:(lia)). rewrite Hhs in IH. specialize (IH Hne).
  destruct (selects n b1) as [l b2]. cbn [fst] in *. rewrite fmap_cons. f_equal.
  - do 3 f_equal. lia.
  - rewrite IH, <-fmap_S_seq, <-list_fmap_compose. apply list_fmap_ext. intros i k _. unfold compose.
    do 3 f_equal. lia.
Qed.

(** ** Least connections *)

Definition conns (st : store) (p : nat) : Z := match st !! p with Some s => connections s | None => 0 end.

Lemma lc_loop st l :
  let '(sel, m) := foldl (lc_body st) (None, INT32_MAX) l in
  m <= INT32_MAX ∧
  (∀ q, q ∈ healthy_servers st l → m <= conns st q) ∧
  match sel with
  | None => m = INT32_MAX
  | Some p => p ∈ healthy_servers st l ∧ m = conns st p ∧ m < INT32_MAX
  end.
Proof.
  induction l as [|p l IH] using rev_ind; [simpl; split_and!; [done|set_solver|done]|].
  rewrite foldl_app. cbn [foldl]. destruct (foldl (lc_body st) (None, INT32_MAX) l) as [sel m].
  destruct IH as (Hm & Hall & Hsel).
  unfold healthy_servers in *. rewrite List.filter_app. simpl List.filter. unfold lc_body.
  unfold is_healthy at 2 4, conns. destruct (st !! p) as [s|] eqn:Es; [|by rewrite app_nil_r].
  destruct (healthy s) eqn:Eh; cbn [andb]; [|by rewrite app_nil_r]. simpl snd.
  destruct (connections s <? m) eqn:Elt; bool_to_prop.
  - split; [lia|]. split; [|rewrite Es; split_and!; [set_solver|done|lia]].
    intros q [Hq| ->%list_elem_of_singleton]%elem_of_app; [specialize (Hall q Hq); unfold conns in Hall; lia|].
    rewrite Es. lia.
  - split; [done|]. split.
    + intros q [Hq| ->%list_elem_of_singleton]%elem_of_app; [by apply Hall|]. rewrite Es. lia.
    + destruct sel; [|done]. destruct Hsel as (? & ? & ?). split_and!; [set_solver|done|done].
Qed.

(** The selected server has the fewest connections of the healthy ones, gets
    one more, and no other server changes; only servers that are all at
    [INT32_MAX] make a selection fail. *)
Theorem least_connections_minimal b :
  strategyImpl_ b = LeastConnectionsStrategy →
  let hs := healthy_servers (objects b) (servers_ b) in
  match select b with
  | (Some p, b') =>
      p ∈ hs ∧ (∀ q, q ∈ hs → conns (objects b) p <= conns (objects b) q) ∧
      (∀ q, conns (objects b') q = if decide (q = p) then i32 (conns (objects b) p + 1) else conns (objects b) q)
  | (None, b') => objects b' = objects b ∧ ∀ q, q ∈ hs → INT32_MAX <= conns (objects b) q
  end.
Proof.
  intros Hi hs. unfold select. rewrite Hi. unfold lc_select. pose proof (lc_loop (objects b) (servers_ b)) as H.
  destruct (foldl (lc_body (objects b)) (None, INT32_MAX) (servers_ b)) as [sel m]. fold hs in H. cbn [fst].
  destruct H as (Hm & Hall & Hsel). destruct sel as [p|]; cbn.
  - destruct Hsel as (Hp & -> & Hlt). split; [done|]. split; [done|]. intros q. unfold conns.
    unfold hs, healthy_servers in Hp. rewrite list_elem_of_In, filter_In in Hp. destruct Hp as [_ Hp].
    unfold is_healthy in Hp. destruct (objects b !! p) as [s|] eqn:Es; [|done].
    case_decide as E; [subst; by rewrite lookup_insert_eq|by rewrite lookup_insert_ne].
  - split; [done|]. subst m. exact Hall.
Qed.

(** Releasing undoes a selection. *)
Theorem least_connections_release b p b' :
  strategyImpl_ b = LeastConnectionsStrategy → select b = (Some p, b') →
  0 <= conns (objects b) p → conns (objects b) p + 1 < 2 ^ 31 →
  ∀ q, conns (objects (releaseConnection b' (Some p))) q = conns (objects b) q.
Proof.
  intros Hi E H0 Hlt q. pose proof (least_connections_minimal b Hi) as H. rewrite E in H.
  destruct H as (Hp & _ & Hc). rewrite i32_id in Hc by lia.
  assert (Hi' : strategyImpl_ b' = LeastConnectionsStrategy).
  { unfold select in E. rewrite Hi in E. destruct (lc_select _ _). by inversion E. }
  unfold releaseConnection. rewrite Hi'. cbn [objects with_impl]. unfold lc_release.
  pose proof (Hc p) as Hcp. rewrite decide_True in Hcp by done. unfold conns in Hcp at 1.
  destruct (objects b' !! p) as [s|] eqn:Es; [|lia]. replace (0 <? connections s) with true by (symmetry; bool_to_prop; lia).
  unfold conns at 1. destruct (decide (q = p)) as [->|Hne].
  - rewrite lookup_insert_eq. cbn. lia.
  - rewrite lookup_insert_ne by done. fold (conns (objects b') q). rewrite Hc. by rewrite decide_False.
Qed.

(** ** Consistent hashing *)

(** [least] is the least key of the ring that satisfies the test. *)
Lemma least_spec f (r : ring) :
  match least f r with
  | Some k => f k = true ∧ is_Some (r !! k) ∧ ∀ k', f k' = true → is_Some (r !! k') → k <= k'
  | None => ∀ k', f k' = true → r !! k' = None
  end.
Proof.
  unfold least. assert (Hin : ∀ k, k ∈ (map_to_list r).*1 ↔ is_Some (r !! k)).
  { intros k. rewrite list_elem_of_fmap. split.
    - intros ([k' v] & -> & Hv%elem_of_map_to_list). eauto.
    - intros [v Hv]. exists (k, v). split; [done|by apply elem_of_map_to_list]. }
  assert (H : ∀ l, match foldr (λ k best, if f k then match best with Some b => Some (Z.min k b) | None => Some k end
                               else best) None l with
    | Some k => f k = true ∧ k ∈ l ∧ ∀ k', f k' = true → k' ∈ l → k <= k'
    | None => ∀ k', f k' = true → k' ∉ l end).
  { induction l as [|k l IH]; simpl; [set_solver|].
    destruct (foldr _ None l) as [b|]; destruct (f k) eqn:Ef.
    - destruct IH as (Hb & Hbl & Hmin). split; [by destruct (Z.min_spec k b) as [[_ ->]|[_ ->]]|].
      split; [destruct (Z.min_spec k b) as [[_ ->]|[_ ->]]; set_solver|].
      intros k' Hk' [->|Hl]%elem_of_cons; [lia|]. specialize (Hmin k' Hk' Hl). lia.
    - destruct IH as (Hb & Hbl & Hmin). split_and!; [done|set_solver|].
      intros k' Hk' [->|Hl]%elem_of_cons; [congruence|auto].
    - split_and!; [done|set_solver|]. intros k' Hk' [->|Hl]%elem_of_cons; [lia|]. by destruct (IH k' Hk').
    - intros k' Hk' [->|Hl]%elem_of_cons; [congruence|]. by destruct (IH k' Hk'). }
  specialize (H (map_to_list r).*1). destruct (foldr _ None _) as [k|].
  - destruct H as (Hk & Hl & Hmin). split_and!; [done|by apply Hin|]. intros k' ? ?. apply Hmin; [done|by apply Hin].
  - intros k' Hk'. apply eq_None_not_Some. rewrite <-Hin. auto.
Qed.

(** [r'] keeps the nodes of [r] that are not [p]'s and has no other position. *)
Definition ring_without (p : nat) (r r' : ring) : Prop :=
  (∀ k, is_Some (r' !! k) → is_Some (r !! k)) ∧ (∀ k q, r !! k = Some q → q ≠ p → r' !! k = Some q).

Lemma least_without f p r r' k q :
  ring_without p r r' → least f r = Some k → r !! k = Some q → q ≠ p → least f r' = Some k.
Proof.
  intros [Hsub Hkeep] E Hk Hq. pose proof (least_spec f r) as H. rewrite E in H. destruct H as (Hf & _ & Hmin).
  pose proof (least_spec f r') as H'. pose proof (Hkeep _ _ Hk Hq) as Hk'.
  destruct (least f r') as [k'|]; [|by rewrite (H' k Hf) in Hk'].
  destruct H' as (Hf' & Hs' & Hmin'). pose proof (Hmin' k Hf ltac:(eauto)). pose proof (Hmin k' Hf' (Hsub _ Hs')).
  f_equal. lia.
Qed.

Lemma least_none_without f p r r' : ring_without p r r' → least f r = None → least f r' = None.
Proof.
  intros [Hsub _] E. pose proof (least_spec f r) as H. rewrite E in H. pose proof (least_spec f r') as H'.
  destruct (least f r') as [k|]; [|done]. destruct H' as (Hf & [v Hv]%Hsub & _). rewrite (H k Hf) in Hv. done.
Qed.

Lemma selectWithKey_without p r r' key q :
  ring_without p r r' → selectWithKey r key = Some q → q ≠ p → selectWithKey r' key = Some q.
Proof.
  intros Hr. unfold selectWithKey. destruct (least (λ k, key <=? k) r) as [k|] eqn:E.
  - intros Hk Hq. rewrite (least_without _ _ _ _ _ _ Hr E Hk Hq). by apply Hr.
  - rewrite (least_none_without _ _ _ _ Hr E). destruct (least (λ _, true) r) as [k|] eqn:E2; [|done].
    intros Hk Hq. rewrite (least_without _ _ _ _ _ _ Hr E2 Hk Hq). by apply Hr.
Qed.

Lemma nodes_without p r r' (s : BackendServer) q l :
  ring_without p r r' → ring_without p (foldl (λ r i, <[node_hash s i := q]> r) r l)
                                       (foldl (λ r i, <[node_hash s i := q]> r) r' l).
Proof.
  revert r r'. induction l as [|i l IH]; intros r r' H; [done|]. simpl. apply IH. destruct H as [Hsub Hkeep].
  split; intros k; destruct (decide (k = node_hash s i)) as [->|Hne].
  - rewrite !lookup_insert_eq. done.
  - rewrite !lookup_insert_ne by done. apply Hsub.
  - rewrite !lookup_insert_eq. done.
  - rewrite !lookup_insert_ne by done. apply Hkeep.
Qed.

Lemma own_nodes_without p r r' (s : BackendServer) l :
  ring_without p r r' → ring_without p (foldl (λ r i, <[node_hash s i := p]> r) r l) r'.
Proof.
  revert r. induction l as [|i l IH]; intros r H; [done|]. simpl. apply IH. destruct H as [Hsub Hkeep].
  split.
  - intros k Hk. apply lookup_insert_is_Some'. auto.
  - intros k q. destruct (decide (k = node_hash s i)) as [->|Hne].
    + rewrite lookup_insert_eq. congruence.
    + rewrite lookup_insert_ne by done. apply Hkeep.
Qed.

Lemma ch_init_without vn st servers p :
  ring_without p (ch_init vn st servers) (ch_init vn st (List.filter (λ q, negb (bool_decide (q = p))) servers)).
Proof.
  unfold ch_init. assert (H : ring_without p (∅ : ring) ∅) by (split; intros k; [done|by rewrite lookup_empty]).
  assert (∀ r r', ring_without p r r' → ring_without p (foldl (ring_add vn st) r servers)
    (foldl (ring_add vn st) r' (List.filter (λ q, negb (bool_decide (q = p))) servers))) as Hg; [|by apply Hg].
  clear H. induction servers as [|q servers IH]; intros r r' H; [done|]. simpl. case_bool_decide as E; cbn [negb].
  - subst q. apply IH. unfold ring_add. destruct (st !! p) as [s|]; [|done].
    destruct (healthy s); [|done]. by apply own_nodes_without.
  - simpl. apply IH. unfold ring_add. destruct (st !! q) as [s|]; [|done].
    destruct (healthy s); [|done]. by apply nodes_without.
Qed.

(** Consistent hashing is monotone: rebuilding the ring without one server
    moves only the keys that server had.  No hypothesis on hash collisions is
    needed: a node that another server's node overwrites takes nothing away
    from the keys of the others. *)
Theorem consistent_hash_removal vn st servers p key q :
  selectWithKey (ch_init vn st servers) key = Some q → q ≠ p →
  selectWithKey (ch_init vn st (List.filter (λ q, negb (bool_decide (q = p))) servers)) key = Some q.
Proof. apply selectWithKey_without, ch_init_without. Qed.

Definition hash_store : store :=
  <[0%nat := BackendServer_new #"10.0.0.1" 80 1]> (<[1%nat := BackendServer_new #"10.0.0.2" 80 1]>
    (<[2%nat := BackendServer_new #"10.0.0.3" 80 1]> ∅)).

Lemma consistent_hash_removal_witness :
  ∃ q, q ≠ 1%nat ∧
    selectWithKey (ch_init 5 hash_store (List.filter (λ q, negb (bool_decide (q = 1%nat))) [0; 1; 2]%nat)) 1000 = Some q.
Proof.
  destruct (selectWithKey (ch_init 5 hash_store [0; 1; 2]%nat) 1000) as [q|] eqn:E; [|by vm_compute in E].
  assert (Hq : q ≠ 1%nat) by (intros ->; by vm_compute in E).
  exists q. split; [exact Hq|]. exact (consistent_hash_removal 5 hash_store [0; 1; 2]%nat 1 1000 q E Hq).
Defined.

(** Some healthy server is found for every key. *)
Lemma ch_init_owner vn st servers k q :
  ch_init vn st servers !! k = Some q → q ∈ healthy_servers st servers.
Proof.
  unfold ch_init. assert (H : ∀ r, (∀ k q, (r : ring) !! k = Some q → q ∈ healthy_servers st servers) →
    ∀ l, (∀ p, p ∈ l → p ∈ servers) → ∀ k q, foldl (ring_add vn st) r l !! k = Some q → q ∈ healthy_servers st servers).
  { intros r Hr l. revert r Hr. induction l as [|p l IH]; intros r Hr Hl; [exact Hr|]. simpl. apply IH; [|set_solver].
    intros k' q'. unfold ring_add. destruct (st !! p) as [s|] eqn:Es; [|apply Hr].
    destruct (healthy s) eqn:Eh; [|apply Hr]. revert r Hr.
    induction (seq 0 vn) as [|i js IHs]; intros r Hr; [apply Hr|]. simpl. apply IHs.
    intros k1 q1. destruct (decide (k1 = node_hash s i)) as [->|Hne].
    - rewrite lookup_insert_eq. intros [= <-]. unfold healthy_servers. rewrite list_elem_of_In, filter_In.
      split; [apply list_elem_of_In; set_solver|]. unfold is_healthy. by rewrite Es.
    - rewrite lookup_insert_ne by done. apply Hr. }
  apply (H ∅); [intros ??; by rewrite lookup_empty|done].
Qed.

(** ** The strategy that is never initialised *)

(** A balancer with the consistent-hash strategy selects nothing, whatever was
    added to it: nothing calls [init]. *)
Theorem consistent_hash_never_selects draws (adds : list (str * Z * Z)) :
  let b := foldl (λ b '(h, p, w), addServer b h p w) (LoadBalancer_new ConsistentHash draws) adds in
  (select b).1 = None ∧ length (servers_ b) = length adds.
Proof.
  intros b. assert (H : strategyImpl_ b = ConsistentHashStrategy 150 ∅ ∧ length (servers_ b) = length adds).
  { unfold b. induction adds as [|[[h p] w] adds IH] using rev_ind; [done|]. rewrite foldl_app. cbn.
    destruct IH as [IH1 IH2]. split; [done|]. rewrite !length_app. simpl. lia. }
  destruct H as [H1 H2]. split; [|done]. unfold select. by rewrite H1.
Qed.

(** ** The server list *)

Definition wf (b : LoadBalancer) : Prop :=
  NoDup (servers_ b) ∧ ∀ p, p ∈ servers_ b → is_Some (objects b !! p) ∧ (p < next_object b)%nat.

Lemma wf_addServer b h p w : wf b → wf (addServer b h p w).
Proof.
  intros [Hnd Hin]. split; cbn.
  - apply NoDup_app. split_and!; [done| |apply NoDup_singleton].
    intros q Hq ->%list_elem_of_singleton. destruct (Hin _ Hq). lia.
  - intros q [Hq| ->%list_elem_of_singleton]%elem_of_app.
    + destruct (Hin q Hq) as [? ?]. rewrite lookup_insert_ne by lia. split; [done|lia].
    + rewrite lookup_insert_eq. split; [done|lia].
Qed.

Lemma wf_removeServer b h p : wf b → wf (removeServer b h p).
Proof.
  intros [Hnd Hin]. split; cbn.
  - apply NoDup_ListNoDup, List.NoDup_filter, NoDup_ListNoDup, Hnd.
  - intros q. rewrite list_elem_of_In, filter_In, <-list_elem_of_In. intros [Hq _]. auto.
Qed.

Lemma wf_setServerHealth b h p up : wf b → wf (setServerHealth b h p up).
Proof.
  intros [Hnd Hin]. unfold setServerHealth. destruct (List.find _ _); [|done]. split; [done|]. cbn.
  intros q Hq. destruct (Hin q Hq). split; [|done]. by apply lookup_alter_is_Some.
Qed.

(** After [removeServer] no server of that address is in the list. *)
Theorem removeServer_gone b h p q : q ∈ servers_ (removeServer b h p) → at_address (objects b) h p q = false.
Proof. cbn. rewrite list_elem_of_In, filter_In. intros [_ H]. by apply negb_true_iff. Qed.
