(* ===== verification/TimerQueue.v ===== *)
(** * TimerQueue: the hashed timing wheel

    Models [src/timer/Timer.h], [src/timer/TimerQueue.h] and the timer
    functions of [src/net/EventLoop.cc].  The static counter [Timer::nextId_]
    gives every timer an identifier of its own, so a [shared_ptr<Timer>] is
    its identifier and the objects are in a store.  A callback is a number;
    what a callback does to the queue is given by a table [prog]. *)

From S2P Require Import Prelude.

Open Scope Z_scope.

(** ** Data *)

Record Timer := mkTimer {
  callback_ : option nat;
  expiration_ : Z;
  interval_ : Z;
  repeat_ : bool;
  cancelled_ : bool
}.

Definition Timer_new (cb : option nat) (when interval : Z) : Timer :=
  mkTimer cb when interval (0 <? interval) false.

Definition cancel (t : Timer) : Timer := mkTimer (callback_ t) (expiration_ t) (interval_ t) (repeat_ t) true.

Definition restart (t : Timer) (now : Z) : Timer :=
  if repeat_ t then mkTimer (callback_ t) (i64 (now + interval_ t)) (interval_ t) (repeat_ t) (cancelled_ t) else t.

Record TimerQueue := mkQueue {
  buckets_ : nat;
  tickMs_ : Z;
  currentBucket_ : nat;
  wheel_ : list (list Z);
  timers_ : gset Z;
  objects : gmap Z Timer;
  nextId_ : Z
}.

Definition TimerQueue_new (buckets : nat) (tickMs nextId : Z) : TimerQueue :=
  mkQueue buckets tickMs 0 (replicate buckets []) ∅ ∅ nextId.

Definition set_wheel (q : TimerQueue) (w : list (list Z)) : TimerQueue :=
  mkQueue (buckets_ q) (tickMs_ q) (currentBucket_ q) w (timers_ q) (objects q) (nextId_ q).
Definition set_timers (q : TimerQueue) (ts : gset Z) : TimerQueue :=
  mkQueue (buckets_ q) (tickMs_ q) (currentBucket_ q) (wheel_ q) ts (objects q) (nextId_ q).
Definition set_objects (q : TimerQueue) (o : gmap Z Timer) : TimerQueue :=
  mkQueue (buckets_ q) (tickMs_ q) (currentBucket_ q) (wheel_ q) (timers_ q) o (nextId_ q).

Definition push_back (q : TimerQueue) (b : nat) (t : Z) : TimerQueue :=
  set_wheel q (alter (λ l, l ++ [t]) b (wheel_ q)).

(** [(currentBucket_ + ticks) % buckets_], in [size_t]. *)
Definition bucket_after (q : TimerQueue) (ticks : Z) : nat :=
  Z.to_nat (u64 (Z.of_nat (currentBucket_ q) + ticks) mod Z.of_nat (buckets_ q)).

(** [ceil(delayMs / tickMs_)], at least one.  The division truncates; a
    negative quotient becomes a huge [size_t]. *)
Definition delay_ticks (q : TimerQueue) (delayMs : Z) : Z :=
  let ticks := u64 (Z.quot (i32 (delayMs + tickMs_ q - 1)) (tickMs_ q)) in
  if ticks =? 0 then 1 else ticks.

Definition addTimer (q : TimerQueue) (cb : option nat) (delayMs intervalMs now : Z) : Z * TimerQueue :=
  let expiration := i64 (now + delayMs) in
  let timer := Timer_new cb expiration intervalMs in
  let timerId := nextId_ q in
  let bucket := bucket_after q (delay_ticks q delayMs) in
  (timerId,
   mkQueue (buckets_ q) (tickMs_ q) (currentBucket_ q)
     (alter (λ l, l ++ [timerId]) bucket (wheel_ q)) ({[timerId]} ∪ timers_ q)
     (<[timerId := timer]> (objects q)) (nextId_ q + 1)).

Definition cancelTimer (q : TimerQueue) (timerId : Z) : TimerQueue :=
  if bool_decide (timerId ∈ timers_ q)
  then set_timers (set_objects q (alter cancel timerId (objects q))) (timers_ q ∖ {[timerId]})
  else q.

Definition timerCount (q : TimerQueue) : nat := size (timers_ q).

(** ** [tick] *)

Definition due (t : Timer) (now : Z) : bool := (expiration_ t <=? now) && negb (cancelled_ t).

(** [ticks] of a periodic timer, with the [int64_t] division. *)
Definition interval_ticks (q : TimerQueue) (t : Timer) : Z :=
  u64 (Z.quot (i64 (interval_ t + tickMs_ q - 1)) (tickMs_ q)).

Definition erase_at (q : TimerQueue) (i : nat) : TimerQueue :=
  set_wheel q (alter (delete i) (currentBucket_ q) (wheel_ q)).

(** The loop over the current bucket: [i] is the place of the iterator.  A
    periodic timer may be pushed on the list the loop runs over. *)
Fixpoint tick_loop (fuel : nat) (now : Z) (i : nat) (q : TimerQueue) (expired : list Z) : TimerQueue * list Z :=
  match fuel with
  | O => (q, expired)
  | S f =>
      match wheel_ q !! currentBucket_ q ≫= (.!! i) with
      | None => (q, expired)
      | Some id =>
          match objects q !! id with
          | None => (q, expired)
          | Some timer =>
              if due timer now then
                let q1 :=
                  if repeat_ timer then
                    let q0 := set_objects q (<[id := restart timer now]> (objects q)) in
                    push_back q0 (bucket_after q (interval_ticks q timer)) id
                  else set_timers q (timers_ q ∖ {[id]}) in
                tick_loop f now i (erase_at q1 i) (expired ++ [id])
              else if cancelled_ timer then
                tick_loop f now i (erase_at (set_timers q (timers_ q ∖ {[id]})) i) expired
              else tick_loop f now (S i) q expired
          end
      end
  end.

Definition advance (q : TimerQueue) : TimerQueue :=
  mkQueue (buckets_ q) (tickMs_ q) ((currentBucket_ q + 1) mod buckets_ q) (wheel_ q) (timers_ q) (objects q) (nextId_ q).

Definition current (q : TimerQueue) : list Z := default [] (wheel_ q !! currentBucket_ q).

(** Every timer of the bucket is visited once, and once more when it was
    pushed on the same list. *)
Definition collect (q : TimerQueue) (now : Z) : TimerQueue * list Z :=
  let '(q1, expired) := tick_loop (S (2 * length (current q))) now 0 q [] in (advance q1, expired).

(** What a callback may do to its queue, with the clock reading it gets. *)
Inductive Op :=
  | Add (cb : option nat) (delayMs intervalMs now : Z)
  | Cancel (timerId : Z).

Definition do_op (q : TimerQueue) (o : Op) : TimerQueue :=
  match o with
  | Add cb d iv now => (addTimer q cb d iv now).2
  | Cancel i => cancelTimer q i
  end.

Section Running.
Context (prog : nat → list Op).

(** [timer->run()]: the timers it ran. *)
Definition run_timer (acc : TimerQueue * list Z) (id : Z) : TimerQueue * list Z :=
  let '(q, ran) := acc in
  match objects q !! id with
  | Some t =>
      match cancelled_ t, callback_ t with
      | false, Some cb => (foldl do_op q (prog cb), ran ++ [id])
      | _, _ => acc
      end
  | None => acc
  end.

Definition tick (q : TimerQueue) (now : Z) : TimerQueue * list Z :=
  let '(q1, expired) := collect q now in foldl run_timer (q1, []) expired.

(** The life of a queue: operations of its clients, ticks, and timers that
    other queues of the process make. *)
Inductive Step := Do (o : Op) | Elsewhere | Tick (now : Z).

Definition step (acc : TimerQueue * list Z) (s : Step) : TimerQueue * list Z :=
  let '(q, ran) := acc in
  match s with
  | Do o => (do_op q o, ran)
  | Elsewhere => (mkQueue (buckets_ q) (tickMs_ q) (currentBucket_ q) (wheel_ q) (timers_ q) (objects q) (nextId_ q + 1), ran)
  | Tick now => let '(q1, r) := tick q now in (q1, ran ++ r)
  end.

Definition steps (q : TimerQueue) (ss : list Step) : TimerQueue * list Z := foldl step (q, []) ss.
End Running.

(** ** The timer functions of [EventLoop] *)

Definition kTimerBuckets : nat := 60.
Definition kTimerTickMs : Z := 1000.

(** The identifier of the result, with what is left to do: from another thread
    the timer is made later by a queued functor, and the identifier is read at
    once. *)
Definition runAfter (q : TimerQueue) (inLoop : bool) (delayMs : Z) (cb : nat) (now : Z)
    : Z * TimerQueue * list Op :=
  let delayMs := if delayMs <? 0 then 0 else delayMs in
  if inLoop then let '(id, q') := addTimer q (Some cb) delayMs 0 now in (id, q', [])
  else (-1, q, [Add (Some cb) delayMs 0 now]).

Definition runEvery (q : TimerQueue) (inLoop : bool) (intervalMs : Z) (cb : nat) (now : Z)
    : Z * TimerQueue * list Op :=
  let intervalMs := if intervalMs <=? 0 then 1 else intervalMs in
  if inLoop then let '(id, q') := addTimer q (Some cb) intervalMs intervalMs now in (id, q', [])
  else (-1, q, [Add (Some cb) intervalMs intervalMs now]).

(** [TimerId::valid] and [EventLoop::cancel]. *)
Definition valid (id : Z) : bool := 0 <=? id.
Definition cancel_id (q : TimerQueue) (inLoop : bool) (id : Z) : TimerQueue * list Op :=
  if negb (valid id) then (q, [])
  else if inLoop then (cancelTimer q id, []) else (q, [Cancel id]).

(** A periodic timer whose tick comes one millisecond early, because the tick
    before it was handled late, is not due when its bucket is visited, and
    waits for a whole turn of the wheel: here 60 seconds instead of one. *)
Example periodic_skips_a_turn :
  let q := (addTimer (TimerQueue_new kTimerBuckets kTimerTickMs 0) (Some 7%nat) 1000 1000 0).2 in
  let on_time := (λ k, Tick (1000 * Z.of_nat k)) <$> seq 1 5 in
  let late_once := [Tick 1000; Tick 2001; Tick 3000; Tick 4000; Tick 5000] in
  let rest := (λ k, Tick (1000 * Z.of_nat k)) <$> seq 6 60 in
  (steps (λ _, []) q on_time).2 = [0; 0; 0; 0] ∧
  (steps (λ _, []) q late_once).2 = [0] ∧
  length (steps (λ _, []) q (late_once ++ rest)).2 = 4%nat.
Proof. vm_compute. split_and!; reflexivity. Qed.

(** ** Places on the wheel *)

Definition inb (q : TimerQueue) (t : Z) (b : nat) : Prop := ∃ l, wheel_ q !! b = Some l ∧ t ∈ l.
Definition in_wheel (q : TimerQueue) (t : Z) : Prop := t ∈ mjoin (wheel_ q).
(** Timer [t] waits in bucket [b], and its object is [tm]. *)
Definition pend (q : TimerQueue) (t : Z) (b : nat) (tm : Timer) : Prop := inb q t b ∧ objects q !! t = Some tm.

Lemma in_wheel_inb q t : in_wheel q t ↔ ∃ b, inb q t b.
Proof.
  unfold in_wheel, inb. rewrite list_elem_of_join. split.
  - intros (l & Ht & Hl). apply list_elem_of_lookup in Hl as [b Hb]. eauto.
  - intros (b & l & Hb & Ht). exists l. split; [done|]. by eapply list_elem_of_lookup_2.
Qed.

Lemma mjoin_push (w : list (list Z)) b t :
  (b < length w)%nat → mjoin (alter (λ l, l ++ [t]) b w) ≡ₚ t :: mjoin w.
Proof.
  revert b. induction w as [|l w IH]; intros b Hb; [simpl in Hb; lia|]. destruct b as [|b]; cbn.
  - rewrite <-app_assoc. cbn. symmetry. apply Permutation_middle.
  - cbn in Hb. rewrite (IH b) by lia. symmetry. apply Permutation_middle.
Qed.

Lemma mjoin_delete (w : list (list Z)) b i l t :
  w !! b = Some l → l !! i = Some t → t :: mjoin (alter (delete i) b w) ≡ₚ mjoin w.
Proof.
  revert b. induction w as [|l' w IH]; intros b Hb Hi; [done|]. destruct b as [|b]; cbn in *.
  - simplify_eq. change (t :: delete i l ++ mjoin w) with ((t :: delete i l) ++ mjoin w).
    apply Permutation_app_tail. symmetry. by apply delete_Permutation.
  - rewrite <-(IH b Hb Hi). by rewrite Permutation_middle.
Qed.

Lemma delete_push_comm (w : list (list Z)) b c i l t :
  w !! c = Some l → (i < length l)%nat →
  alter (delete i) c (alter (λ l, l ++ [t]) b w) = alter (λ l, l ++ [t]) b (alter (delete i) c w).
Proof.
  intros Hl Hi. apply list_eq. intros k. destruct (decide (b = c)) as [->|Hne].
  2:{ destruct (decide (k = c)) as [E1|E1]; destruct (decide (k = b)) as [E2|E2]; subst; try done;
        repeat (rewrite list_lookup_alter_eq || rewrite list_lookup_alter_ne by done); done. }
  destruct (decide (k = c)) as [->|Hk]; [|by rewrite !list_lookup_alter_ne].
  rewrite !list_lookup_alter_eq, Hl. cbn. f_equal. clear Hl. revert i Hi.
  induction l as [|x l IH]; intros i Hi; [simpl in Hi; lia|].
  destruct i as [|i]; [done|]. cbn in *. f_equal. apply IH. lia.
Qed.

Lemma inb_push q b t t' b' :
  (b < length (wheel_ q))%nat → inb (push_back q b t) t' b' ↔ inb q t' b' ∨ (t' = t ∧ b' = b).
Proof.
  intros Hb. unfold inb, push_back. cbn. destruct (decide (b' = b)) as [->|Hne].
  - destruct (lookup_lt_is_Some_2 _ _ Hb) as [l Hl].
    rewrite list_lookup_alter_eq, Hl. cbn. split.
    + intros (? & [= <-] & Ht%elem_of_app). rewrite list_elem_of_singleton in Ht. naive_solver.
    + intros [(? & [= <-] & Ht)|[-> _]]; (eexists; split; [done|]); set_solver.
  - rewrite list_lookup_alter_ne by done. naive_solver.
Qed.

Lemma nodup_bucket (w : list (list Z)) b l : NoDup (mjoin w) → w !! b = Some l → NoDup l.
Proof.
  revert b. induction w as [|l' w IH]; intros b Hnd Hb; [done|]. cbn in Hnd.
  apply NoDup_app in Hnd as (H1 & _ & H2). destruct b; cbn in Hb; [by simplify_eq|eauto].
Qed.

Lemma inb_unique q t b b' : NoDup (mjoin (wheel_ q)) → inb q t b → inb q t b' → b = b'.
Proof.
  unfold inb. revert b b'. induction (wheel_ q) as [|l w IH]; intros b b' Hnd (l1 & H1 & Ht1) (l2 & H2 & Ht2); [done|].
  cbn in Hnd. apply NoDup_app in Hnd as (_ & Hd & Hnd).
  assert (Hj : ∀ c l', w !! c = Some l' → t ∈ l' → t ∈ mjoin w).
  { intros c l' Hc Ht. apply list_elem_of_join. exists l'. split; [done|]. by eapply list_elem_of_lookup_2. }
  destruct b as [|b], b' as [|b']; cbn in *; simplify_eq; [done|..].
  - by destruct (Hd t Ht1 (Hj _ _ H2 Ht2)).
  - by destruct (Hd t Ht2 (Hj _ _ H1 Ht1)).
  - f_equal. eapply IH; eauto.
Qed.

Lemma elem_delete (l : list Z) i t x : NoDup l → l !! i = Some t → x ∈ delete i l ↔ x ∈ l ∧ x ≠ t.
Proof.
  intros Hnd Hi. pose proof (delete_Permutation l i t Hi) as Hp. rewrite Hp in Hnd.
  apply NoDup_cons in Hnd as [Hn _].
  assert (x ∈ l ↔ x ∈ t :: delete i l) as -> by (by rewrite <-Hp). rewrite elem_of_cons. naive_solver.
Qed.

Lemma inb_erase q i l t t' b' :
  NoDup (mjoin (wheel_ q)) → wheel_ q !! currentBucket_ q = Some l → l !! i = Some t →
  inb (erase_at q i) t' b' ↔ inb q t' b' ∧ t' ≠ t.
Proof.
  intros Hnd Hl Hi. pose proof (nodup_bucket _ _ _ Hnd Hl) as Hndl. unfold erase_at.
  unfold inb at 1. cbn. destruct (decide (b' = currentBucket_ q)) as [->|Hne].
  - rewrite list_lookup_alter_eq, Hl. cbn. split.
    + intros (? & [= <-] & Ht). rewrite (elem_delete _ _ _ _ Hndl Hi) in Ht. destruct Ht. split; [|done]. by exists l.
    + intros [(l' & Hl' & Ht) Hne]. simplify_eq. eexists. split; [done|]. by apply (elem_delete _ _ _ _ Hndl Hi).
  - rewrite list_lookup_alter_ne by done. split; [|naive_solver]. intros H. split; [exact H|]. intros ->.
    apply Hne. apply (inb_unique q t); [done|exact H|]. exists l. split; [done|]. by eapply list_elem_of_lookup_2.
Qed.

(** ** Well-formed queues *)

Record wf (q : TimerQueue) : Prop := {
  wf_buckets : (0 < buckets_ q)%nat ∧ Z.of_nat (buckets_ q) < 2 ^ 31;
  wf_length : length (wheel_ q) = buckets_ q;
  wf_cur : (currentBucket_ q < buckets_ q)%nat;
  wf_tick : 0 < tickMs_ q < 2 ^ 31;
  wf_nodup : NoDup (mjoin (wheel_ q));
  wf_obj : ∀ t, in_wheel q t → is_Some (objects q !! t);
  wf_timers : ∀ t, t ∈ timers_ q ↔ in_wheel q t ∧ ∃ tm, objects q !! t = Some tm ∧ cancelled_ tm = false;
  wf_old : ∀ t tm, objects q !! t = Some tm →
    t < nextId_ q ∧ repeat_ tm = (0 <? interval_ tm) ∧ - 2 ^ 31 <= interval_ tm < 2 ^ 31
}.

(** What no operation within a tick changes. *)
Definition frame (q q' : TimerQueue) : Prop :=
  buckets_ q' = buckets_ q ∧ tickMs_ q' = tickMs_ q ∧ currentBucket_ q' = currentBucket_ q ∧ nextId_ q' = nextId_ q.

Lemma bucket_after_lt q k : wf q → (bucket_after q k < length (wheel_ q))%nat.
Proof.
  intros H. rewrite (wf_length _ H). destruct (wf_buckets _ H). unfold bucket_after.
  pose proof (Z.mod_pos_bound (u64 (Z.of_nat (currentBucket_ q) + k)) (Z.of_nat (buckets_ q))). lia.
Qed.

Lemma bucket_after_frame q q' k : frame q q' → bucket_after q' k = bucket_after q k.
Proof. intros (E1 & E2 & E3 & E4). unfold bucket_after. by rewrite E1, E3. Qed.

(** The timer at the iterator. *)
Definition at_iter (q : TimerQueue) (i : nat) (t : Z) (tm : Timer) : Prop :=
  ∃ l, wheel_ q !! currentBucket_ q = Some l ∧ l !! i = Some t ∧ objects q !! t = Some tm.

Lemma at_iter_in q i t tm : at_iter q i t tm → in_wheel q t.
Proof.
  intros (l & Hl & Hi & _). apply in_wheel_inb. exists (currentBucket_ q), l.
  split; [done|]. by eapply list_elem_of_lookup_2.
Qed.

(** Erased and taken off the table: a one-shot timer that is collected, or a
    cancelled one. *)
Definition removed (q : TimerQueue) (i : nat) (t : Z) : TimerQueue := erase_at (set_timers q (timers_ q ∖ {[t]})) i.

Lemma inb_removed q i t tm t' b' : wf q → at_iter q i t tm → inb (removed q i t) t' b' ↔ inb q t' b' ∧ t' ≠ t.
Proof. intros Hwf (l & Hl & Hi & _). apply (inb_erase (set_timers q _) i l); [apply Hwf|done|done]. Qed.

Lemma in_wheel_removed q i t tm t' : wf q → at_iter q i t tm → in_wheel (removed q i t) t' ↔ in_wheel q t' ∧ t' ≠ t.
Proof.
  intros Hwf Ha. rewrite !in_wheel_inb. setoid_rewrite (inb_removed _ _ _ _ _ _ Hwf Ha). naive_solver.
Qed.

Lemma wf_removed q i t tm : wf q → at_iter q i t tm → wf (removed q i t).
Proof.
  intros Hwf Ha. pose proof (λ t', in_wheel_removed q i t tm t' Hwf Ha) as Hin. destruct Hwf. split; try done.
  - cbn. by rewrite length_alter.
  - destruct Ha as (l & Hl & Hi & _). cbn. pose proof (mjoin_delete _ _ _ _ _ Hl Hi) as Hp.
    rewrite <-Hp in wf_nodup0. by apply NoDup_cons in wf_nodup0 as [_ ?].
  - intros t' Ht'. apply Hin in Ht' as [Ht' _]. by apply wf_obj0.
  - intros t'. rewrite Hin. cbn. rewrite elem_of_difference, wf_timers0, elem_of_singleton. tauto.
Qed.

(** A periodic timer is started again and pushed before it is erased. *)
Definition restarted (q : TimerQueue) (i : nat) (t : Z) (tm : Timer) (now : Z) : TimerQueue :=
  erase_at (push_back (set_objects q (<[t := restart tm now]> (objects q)))
                      (bucket_after q (interval_ticks q tm)) t) i.

Lemma restart_facts tm now :
  cancelled_ (restart tm now) = cancelled_ tm ∧ repeat_ (restart tm now) = repeat_ tm ∧
  interval_ (restart tm now) = interval_ tm ∧ callback_ (restart tm now) = callback_ tm.
Proof. unfold restart. destruct (repeat_ tm) eqn:E; cbn; rewrite ?E; auto. Qed.

Lemma restarted_wheel q i t tm now :
  wf q → at_iter q i t tm →
  wheel_ (restarted q i t tm now)
  = wheel_ (push_back (erase_at q i) (bucket_after q (interval_ticks q tm)) t).
Proof.
  intros Hwf (l & Hl & Hi & _). cbn. eapply delete_push_comm; [done|]. by eapply lookup_lt_Some.
Qed.

Lemma inb_restarted q i t tm now t' b' :
  wf q → at_iter q i t tm →
  inb (restarted q i t tm now) t' b' ↔
  (inb q t' b' ∧ t' ≠ t) ∨ (t' = t ∧ b' = bucket_after q (interval_ticks q tm)).
Proof.
  intros Hwf Ha. unfold inb at 1. rewrite (restarted_wheel q i t tm now Hwf Ha).
  fold (inb (push_back (erase_at q i) (bucket_after q (interval_ticks q tm)) t) t' b').
  rewrite inb_push by (cbn; rewrite length_alter; by apply bucket_after_lt).
  destruct Ha as (l & Hl & Hi & _). rewrite (inb_erase q i l t); [done|apply Hwf|done|done].
Qed.

Lemma in_wheel_restarted q i t tm now t' :
  wf q → at_iter q i t tm → in_wheel (restarted q i t tm now) t' ↔ in_wheel q t'.
Proof.
  intros Hwf Ha. pose proof (at_iter_in _ _ _ _ Ha) as Ht. rewrite in_wheel_inb in Ht. rewrite !in_wheel_inb.
  setoid_rewrite (inb_restarted q i t tm now _ _ Hwf Ha). destruct (decide (t' = t)) as [->|]; naive_solver.
Qed.

Lemma wf_restarted q i t tm now : wf q → at_iter q i t tm → wf (restarted q i t tm now).
Proof.
  intros Hwf Ha. pose proof (λ t', in_wheel_restarted q i t tm now t' Hwf Ha) as Hin.
  pose proof (restarted_wheel q i t tm now Hwf Ha) as Hw.
  destruct (restart_facts tm now) as (Hc & Hr & Hi & _).
  pose proof (bucket_after_lt q (interval_ticks q tm) Hwf) as Hb.
  pose proof (at_iter_in _ _ _ _ Ha) as Ht. destruct Ha as (l & Hl & Hli & Ho). destruct Hwf. split; try done.
  - rewrite Hw. cbn. by rewrite !length_alter.
  - rewrite Hw. cbn. rewrite mjoin_push by (by rewrite length_alter).
    by rewrite (mjoin_delete _ _ _ _ _ Hl Hli).
  - intros t' Ht'. apply Hin in Ht'. cbn. apply lookup_insert_is_Some'. auto.
  - intros t'. rewrite Hin. cbn. rewrite wf_timers0. apply and_iff_compat_l.
    destruct (decide (t' = t)) as [->|Hne]; [rewrite lookup_insert_eq|by rewrite lookup_insert_ne].
    rewrite Ho. naive_solver.
  - intros t' tm'. cbn. destruct (decide (t' = t)) as [->|Hne]; [|rewrite lookup_insert_ne by done; apply wf_old0].
    rewrite lookup_insert_eq. intros [= <-]. rewrite Hr, Hi. by apply wf_old0.
Qed.

(** ** One pass over the current bucket *)

(** The loop's three branches by name. *)
Lemma tick_loop_S f now i q exp :
  tick_loop (S f) now i q exp =
  match wheel_ q !! currentBucket_ q ≫= (.!! i) with
  | None => (q, exp)
  | Some t =>
      match objects q !! t with
      | None => (q, exp)
      | Some tm =>
          if due tm now then
            tick_loop f now i (if repeat_ tm then restarted q i t tm now else removed q i t) (exp ++ [t])
          else if cancelled_ tm then tick_loop f now i (removed q i t) exp
          else tick_loop f now (S i) q exp
      end
  end.
Proof.
  cbn [tick_loop]. destruct (_ ≫= _) as [t|]; [|done]. destruct (objects q !! t) as [tm|]; [|done].
  destruct (due tm now); [|done]. by destruct (repeat_ tm).
Qed.

(** What becomes of a timer [t] of bucket [b] that the loop visits. *)
Definition visited (q : TimerQueue) (now : Z) (t : Z) (b : nat) (tm : Timer) (q' : TimerQueue) (added : list Z) : Prop :=
  if due tm now then
    t ∈ added ∧ objects q' !! t = Some (restart tm now) ∧
    (if repeat_ tm then inb q' t (bucket_after q (interval_ticks q tm)) else ¬ in_wheel q' t)
  else t ∉ added ∧ objects q' !! t = Some tm ∧ (if cancelled_ tm then ¬ in_wheel q' t else inb q' t b).

(** The turns the loop still takes: a timer that is due may come again. *)
Definition cost (q : TimerQueue) (now : Z) (t : Z) : nat :=
  match objects q !! t with Some tm => if due tm now then 2 else 1 | None => 1 end.
Definition todo (q : TimerQueue) (i : nat) : list Z := drop i (current q).
Definition measure (q : TimerQueue) (now : Z) (i : nat) : nat := sum_list (cost q now <$> todo q i).

Lemma inb_current q t b : inb q t (currentBucket_ q) ∧ b = currentBucket_ q ↔ b = currentBucket_ q ∧ t ∈ current q.
Proof.
  unfold inb, current. split.
  - intros [(l & -> & Ht) ->]. done.
  - intros [-> Ht]. split; [|done]. destruct (wheel_ q !! currentBucket_ q) as [l|]; [eauto|]. by apply elem_of_nil in Ht.
Qed.

Lemma iter_todo q i t tm :
  at_iter q i t tm → todo q i = t :: todo q (S i) ∧
  todo (removed q i t) i = todo q (S i) ∧
  (∀ now, wf q → todo (restarted q i t tm now) i
     = todo q (S i) ++ (if decide (bucket_after q (interval_ticks q tm) = currentBucket_ q) then [t] else [])).
Proof.
  intros (l & Hl & Hi & Ho). unfold todo, current. pose proof (lookup_lt_Some _ _ _ Hi) as Hlt.
  assert (Hd : ∀ k : list Z, drop i (delete i l ++ k) = drop (S i) l ++ k).
  { intros k. rewrite delete_take_drop, <-app_assoc. rewrite drop_app_length'; [done|]. rewrite length_take. lia. }
  split; [rewrite Hl; cbn [default]; by apply drop_S|]. split.
  - cbn. rewrite list_lookup_alter_eq, Hl. cbn [default fmap option_fmap option_map].
    specialize (Hd []). by rewrite !app_nil_r in Hd.
  - intros now Hwf. rewrite (restarted_wheel q i t tm now) by (done || by exists l).
    change (currentBucket_ (restarted q i t tm now)) with (currentBucket_ q). cbn.
    rewrite Hl. case_decide as E.
    + rewrite E. rewrite !list_lookup_alter_eq, Hl. apply Hd.
    + rewrite list_lookup_alter_ne by done. rewrite list_lookup_alter_eq, Hl. cbn. rewrite app_nil_r.
      specialize (Hd []). by rewrite !app_nil_r in Hd.
Qed.

(** Only the timer at the iterator changes. *)
Lemma step_objects q i t tm now t' :
  at_iter q i t tm →
  objects (removed q i t) !! t' = objects q !! t' ∧
  objects (restarted q i t tm now) !! t' = if decide (t' = t) then Some (restart tm now) else objects q !! t'.
Proof. intros _. split; [done|]. cbn. case_decide; [subst; by rewrite lookup_insert_eq|by rewrite lookup_insert_ne]. Qed.

Definition time_ok (now : Z) : Prop := - 2 ^ 62 <= now < 2 ^ 62.

Lemma restart_not_due q t tm now :
  wf q → time_ok now → objects q !! t = Some tm → repeat_ tm = true → due (restart tm now) now = false.
Proof.
  intros Hwf Ht Ho Hr. destruct (wf_old _ Hwf _ _ Ho) as (_ & Hri & Hb). rewrite Hr in Hri. symmetry in Hri. bool_to_prop.
  unfold restart. rewrite Hr. unfold due. cbn. apply andb_false_iff. left. unfold time_ok in Ht.
  unfold i64. rewrite Z.mod_small by lia. apply Z.leb_gt. lia.
Qed.

Lemma sum_fmap_cons (f : Z → nat) x l : sum_list (f <$> (x :: l)) = (f x + sum_list (f <$> l))%nat.
Proof. done. Qed.

Lemma sum_fmap_app (f : Z → nat) l k : sum_list (f <$> (l ++ k)) = (sum_list (f <$> l) + sum_list (f <$> k))%nat.
Proof. induction l as [|x l IH]; [done|]. change ((x :: l) ++ k) with (x :: (l ++ k)). rewrite !sum_fmap_cons, IH. lia. Qed.

Lemma measure_removed q i t tm now :
  at_iter q i t tm → (measure (removed q i t) now i + cost q now t = measure q now i)%nat.
Proof.
  intros Ha. destruct (iter_todo _ _ _ _ Ha) as (E1 & E2 & _). unfold measure. rewrite E1, E2, sum_fmap_cons.
  change (cost (removed q i t) now) with (cost q now). lia.
Qed.

Lemma measure_next q i t tm now :
  at_iter q i t tm → (measure q now (S i) + cost q now t = measure q now i)%nat.
Proof.
  intros Ha. destruct (iter_todo _ _ _ _ Ha) as (E1 & _). unfold measure. rewrite E1, sum_fmap_cons. lia.
Qed.

Lemma todo_nodup q i : wf q → NoDup (todo q i).
Proof.
  intros Hwf. unfold todo, current. destruct (wheel_ q !! currentBucket_ q) as [l|] eqn:El; cbn; [|rewrite drop_nil; constructor].
  eapply sublist_NoDup; [by apply (nodup_bucket _ _ _ (wf_nodup _ Hwf) El)|]. apply sublist_drop.
Qed.

Lemma measure_restarted q i t tm now :
  wf q → time_ok now → at_iter q i t tm → repeat_ tm = true → due tm now = true →
  (measure (restarted q i t tm now) now i < measure q now i)%nat.
Proof.
  intros Hwf Hok Ha Hr Hd. destruct (iter_todo _ _ _ _ Ha) as (E1 & _ & E3). specialize (E3 now Hwf).
  pose proof (todo_nodup q i Hwf) as Hnd. rewrite E1 in Hnd. apply NoDup_cons in Hnd as [Hnt _].
  destruct Ha as (l & _ & _ & Ho). unfold measure. rewrite E1, E3, sum_fmap_cons, sum_fmap_app.
  assert (Hsame : cost (restarted q i t tm now) now <$> todo q (S i) = cost q now <$> todo q (S i)).
  { apply list_fmap_ext. intros k x Hx. unfold cost. cbn. rewrite lookup_insert_ne; [done|].
    intros ->. apply Hnt. by eapply list_elem_of_lookup_2. }
  rewrite Hsame. assert (Hself : cost (restarted q i t tm now) now t = 1%nat).
  { unfold cost. cbn. rewrite lookup_insert_eq. by rewrite (restart_not_due q t tm now Hwf Hok Ho Hr). }
  assert (Hc : cost q now t = 2%nat) by (unfold cost; by rewrite Ho, Hd).
  rewrite Hc. case_decide; [change (sum_list (cost (restarted q i t tm now) now <$> [t]))
    with (cost (restarted q i t tm now) now t + 0)%nat; rewrite Hself|cbn]; lia.
Qed.

Lemma todo_in q i t : wf q → t ∈ todo q i → inb q t (currentBucket_ q).
Proof.
  intros _ Ht. unfold todo in Ht. apply (inb_current q t (currentBucket_ q)). split; [done|].
  eapply elem_of_sublist; [exact Ht|apply sublist_drop].
Qed.

Lemma iter_cases q i :
  wf q → (∃ t tm, at_iter q i t tm) ∨ (todo q i = [] ∧ wheel_ q !! currentBucket_ q ≫= (.!! i) = None).
Proof.
  intros Hwf. destruct (lookup_lt_is_Some_2 (wheel_ q) (currentBucket_ q)) as [l Hl].
  { rewrite (wf_length _ Hwf). apply Hwf. }
  unfold at_iter, todo, current. rewrite Hl. cbn. destruct (l !! i) as [t|] eqn:Ei.
  - left. destruct (wf_obj _ Hwf t) as [tm Htm].
    { apply in_wheel_inb. exists (currentBucket_ q), l. split; [done|]. by eapply list_elem_of_lookup_2. }
    exists t, tm, l. done.
  - right. split; [|done]. apply drop_ge. by apply lookup_ge_None.
Qed.

(** What the loop guarantees from place [i] on. *)
Definition pass_done (q : TimerQueue) (now : Z) (i : nat) (q' : TimerQueue) (added : list Z) : Prop :=
  wf q' ∧ frame q q' ∧ NoDup added ∧ (∀ t, t ∈ added → t ∈ todo q i) ∧
  (∀ t, in_wheel q' t → in_wheel q t) ∧
  (∀ t, t ∉ todo q i → objects q' !! t = objects q !! t ∧ ∀ b, inb q t b → inb q' t b) ∧
  (∀ t tm, t ∈ todo q i → objects q !! t = Some tm → visited q now t (currentBucket_ q) tm q' added).

Lemma visited_other q q1 now t b tm q' added t0 :
  frame q q1 → t ≠ t0 → visited q1 now t b tm q' added →
  visited q now t b tm q' added ∧ visited q now t b tm q' (t0 :: added).
Proof.
  intros Hf Hne. unfold visited. rewrite (bucket_after_frame _ _ _ Hf). unfold interval_ticks.
  destruct Hf as (_ & -> & _). destruct (due tm now); set_solver.
Qed.

Lemma frame_trans q q1 q2 : frame q q1 → frame q1 q2 → frame q q2.
Proof. unfold frame. intros (->&->&->&->) (->&->&->&->). done. Qed.

Lemma pass_restarted q now i t tm q' added :
  wf q → time_ok now → at_iter q i t tm → due tm now = true → repeat_ tm = true →
  pass_done (restarted q i t tm now) now i q' added → pass_done q now i q' (t :: added).
Proof.
  intros Hwf Hok Ha Hd Hr (Hwf' & Hfr & Hnd & Hin & Hiw & Hout & Hvis).
  destruct (iter_todo _ _ _ _ Ha) as (E1 & _ & E3). specialize (E3 now Hwf).
  pose proof (todo_nodup q i Hwf) as Hndt. rewrite E1 in Hndt. apply NoDup_cons in Hndt as [Hnt _].
  pose proof Ha as (l & Hl & Hli & Ho).
  assert (Hfq : frame q (restarted q i t tm now)) by done.
  assert (Hobj : ∀ x, x ≠ t → objects (restarted q i t tm now) !! x = objects q !! x)
    by (intros x Hx; cbn; by rewrite lookup_insert_ne).
  assert (Hinb : ∀ x b, x ≠ t → inb q x b → inb (restarted q i t tm now) x b)
    by (intros x b Hx Hb; apply (inb_restarted _ _ _ _ _ _ _ Hwf Ha); auto).
  assert (Hrest : ∀ x, x ≠ t → x ∈ todo q i ↔ x ∈ todo (restarted q i t tm now) i)
    by (intros x Hx; rewrite E1, E3; case_decide; set_solver).
  assert (Hself : t ∉ added ∧ objects q' !! t = Some (restart tm now) ∧ inb q' t (bucket_after q (interval_ticks q tm))).
  { assert (Ho1 : objects (restarted q i t tm now) !! t = Some (restart tm now)) by (cbn; by rewrite lookup_insert_eq).
    assert (Hb1 : inb (restarted q i t tm now) t (bucket_after q (interval_ticks q tm)))
      by (apply (inb_restarted _ _ _ _ _ _ _ Hwf Ha); auto).
    destruct (decide (t ∈ todo (restarted q i t tm now) i)) as [Ht|Ht].
    - pose proof (Hvis t _ Ht Ho1) as Hv. unfold visited in Hv.
      rewrite (restart_not_due q t tm now Hwf Hok Ho Hr) in Hv. destruct Hv as (H1 & H2 & H3).
      rewrite (proj1 (restart_facts tm now)) in H3. unfold due in Hd. destruct (cancelled_ tm); [by rewrite andb_false_r in Hd|].
      rewrite E3 in Ht. case_decide as E; [|set_solver]. rewrite E. done.
    - destruct (Hout t Ht) as [H1 H2]. split; [by intros H%Hin|]. split; [by rewrite H1|by apply H2]. }
  unfold pass_done. split_and!; [done|by eapply frame_trans| | | | |].
  - apply NoDup_cons. tauto.
  - intros x [->|Hx]%elem_of_cons; [rewrite E1; by left|]. apply Hrest; [|by apply Hin]. intros ->. tauto.
  - intros x Hx. apply (in_wheel_restarted q i t tm now x Hwf Ha). auto.
  - intros x Hx. assert (x ≠ t) by (intros ->; apply Hx; rewrite E1; by left).
    rewrite Hrest in Hx by done. destruct (Hout x Hx) as [H1 H2]. rewrite H1, Hobj by done. split; [done|]. auto.
  - intros x tmx Hx Hox. destruct (decide (x = t)) as [->|Hne].
    + simplify_eq. unfold visited. rewrite Hd, Hr. destruct Hself as (_ & ? & ?). split_and!; [by left|done|done].
    + apply Hrest in Hx; [|done]. rewrite <-Hobj in Hox by done.
      by apply (visited_other q _ now x _ tmx q' added t Hfq Hne), Hvis.
Qed.

Lemma pass_removed q now i t tm q' added :
  wf q → at_iter q i t tm → (due tm now = true ∧ repeat_ tm = false ∨ due tm now = false ∧ cancelled_ tm = true) →
  pass_done (removed q i t) now i q' added → pass_done q now i q' (if due tm now then t :: added else added).
Proof.
  intros Hwf Ha Hcase (Hwf' & Hfr & Hnd & Hin & Hiw & Hout & Hvis).
  destruct (iter_todo _ _ _ _ Ha) as (E1 & E2 & _).
  pose proof (todo_nodup q i Hwf) as Hndt. rewrite E1 in Hndt. apply NoDup_cons in Hndt as [Hnt _].
  assert (Hfq : frame q (removed q i t)) by done. rewrite E2 in *.
  pose proof Ha as (_ & _ & _ & Ho).
  assert (Hobj : ∀ x, objects (removed q i t) !! x = objects q !! x) by done.
  assert (Hgone : ¬ in_wheel q' t) by (intros H%Hiw; apply (in_wheel_removed _ _ _ _ _ Hwf Ha) in H; tauto).
  assert (Hta : t ∉ added) by (intros H%Hin; done).
  assert (Hot : objects q' !! t = Some tm) by (by rewrite (proj1 (Hout t Hnt)), Hobj).
  assert (Hrt : repeat_ tm = false → restart tm now = tm) by (intros E; unfold restart; by rewrite E).
  unfold pass_done. split_and!; [done|by eapply frame_trans| | | | |].
  - destruct (due tm now); [apply NoDup_cons; tauto|done].
  - rewrite E1. intros x. destruct (due tm now); set_solver.
  - intros x Hx%Hiw. by apply (in_wheel_removed _ _ _ _ _ Hwf Ha) in Hx as [? _].
  - rewrite E1. intros x Hx. apply not_elem_of_cons in Hx as [Hne Hx]. destruct (Hout x Hx) as [H1 H2].
    rewrite H1. split; [done|]. intros b Hb. apply H2. by apply (inb_removed _ _ _ _ _ _ Hwf Ha).
  - rewrite E1. intros x tmx Hx Hox. destruct (decide (x = t)) as [->|Hne].
    + simplify_eq. unfold visited. destruct Hcase as [[-> Hr]|[-> ->]]; [|done]. rewrite Hr, (Hrt Hr).
      split_and!; [by left|done|done].
    + assert (Hx' : x ∈ todo q (S i)) by set_solver. specialize (Hvis x tmx Hx' Hox).
      pose proof (visited_other q _ now x _ tmx q' added t Hfq Hne Hvis). destruct (due tm now); tauto.
Qed.

Lemma pass_ok fuel now i q exp :
  wf q → time_ok now → (measure q now i < fuel)%nat →
  ∃ q' added, tick_loop fuel now i q exp = (q', exp ++ added) ∧ pass_done q now i q' added.
Proof.
  revert i q exp. induction fuel as [|fuel IH]; intros i q exp Hwf Hok Hm; [lia|]. rewrite tick_loop_S.
  destruct (iter_cases q i Hwf) as [(t & tm & Ha)|[E ->]].
  2:{ exists q, []. rewrite app_nil_r. split; [done|]. unfold pass_done. rewrite E.
      split_and!; [done|done|constructor|set_solver|done|done|set_solver]. }
  pose proof Ha as (l & Hl & Hli & Ho). rewrite Hl. cbn [mbind option_bind]. rewrite Hli, Ho.
  assert (Hcost : (0 < cost q now t)%nat) by (unfold cost; rewrite Ho; destruct (due tm now); lia).
  destruct (due tm now) eqn:Hd; [destruct (repeat_ tm) eqn:Hr|destruct (cancelled_ tm) eqn:Hc].
  - pose proof (measure_restarted q i t tm now Hwf Hok Ha Hr Hd).
    destruct (IH i (restarted q i t tm now) (exp ++ [t])) as (q' & added & E & Hdone); [by apply wf_restarted|done|lia|].
    exists q', (t :: added). rewrite E, <-app_assoc. split; [done|]. by eapply pass_restarted.
  - pose proof (measure_removed q i t tm now Ha).
    destruct (IH i (removed q i t) (exp ++ [t])) as (q' & added & E & Hdone); [by eapply wf_removed|done|lia|].
    exists q', (t :: added). rewrite E, <-app_assoc. split; [done|].
    pose proof (pass_removed q now i t tm q' added Hwf Ha) as H1. rewrite Hd in H1. auto.
  - pose proof (measure_removed q i t tm now Ha).
    destruct (IH i (removed q i t) exp) as (q' & added & E & Hdone); [by eapply wf_removed|done|lia|].
    exists q', added. split; [done|].
    pose proof (pass_removed q now i t tm q' added Hwf Ha) as H1. rewrite Hd in H1. auto.
  - pose proof (measure_next q i t tm now Ha).
    destruct (IH (S i) q exp) as (q' & added & E & (Hwf' & Hfr & Hnd & Hin & Hiw & Hout & Hvis)); [done|done|lia|].
    exists q', added. split; [done|]. destruct (iter_todo _ _ _ _ Ha) as (E1 & _).
    pose proof (todo_nodup q i Hwf) as Hndt. rewrite E1 in Hndt. apply NoDup_cons in Hndt as [Hnt _].
    unfold pass_done. rewrite E1. split_and!; [done|done|done|set_solver|done| |].
    + intros x Hx. apply Hout. set_solver.
    + intros x tmx Hx Hox. destruct (decide (x = t)) as [->|Hne]; [|apply Hvis; set_solver].
      simplify_eq. unfold visited. rewrite Hd, Hc. destruct (Hout t Hnt) as [H1 H2].
      split_and!; [by intros H'%Hin|by rewrite H1|]. apply H2. apply todo_in with i; [done|]. rewrite E1. by left.
Qed.

(** ** A whole tick *)

Lemma cost_le q now l : (sum_list (cost q now <$> l) <= 2 * length l)%nat.
Proof.
  induction l as [|t l IH]; [done|]. rewrite sum_fmap_cons. cbn [length].
  assert (cost q now t <= 2)%nat by (unfold cost; destruct (objects q !! t) as [tm|]; [destruct (due tm now)|]; lia). lia.
Qed.

Lemma collect_ok q now :
  wf q → time_ok now → ∃ q' added, collect q now = (advance q', added) ∧ pass_done q now 0 q' added.
Proof.
  intros Hwf Hok. destruct (pass_ok (S (2 * length (current q))) now 0 q [] Hwf Hok) as (q' & added & E & Hdone).
  - unfold measure, todo. rewrite drop_0. pose proof (cost_le q now (current q)). lia.
  - exists q', added. split; [|done]. unfold collect. by rewrite E.
Qed.

Lemma wf_advance q : wf q → wf (advance q).
Proof. intros Hwf. destruct Hwf. split; try done. cbn. apply Nat.mod_upper_bound. lia. Qed.

Lemma inb_lt q t b : wf q → inb q t b → t < nextId_ q.
Proof.
  intros Hwf Hb. destruct (wf_obj _ Hwf t) as [tm Htm]; [apply in_wheel_inb; eauto|]. by apply (wf_old _ Hwf t tm).
Qed.

(** ** Operations of clients *)

Definition op_ok (o : Op) : Prop := match o with Add _ _ iv _ => - 2 ^ 31 <= iv < 2 ^ 31 | Cancel _ => True end.

(** [t] keeps its place; its object may only be cancelled. *)
Definition keeps (t : Z) (q q' : TimerQueue) : Prop :=
  wf q' ∧ buckets_ q' = buckets_ q ∧ tickMs_ q' = tickMs_ q ∧ currentBucket_ q' = currentBucket_ q ∧
  nextId_ q <= nextId_ q' ∧ ∀ b, inb q' t b ↔ inb q t b.

Lemma keeps_refl t q : wf q → keeps t q q.
Proof. intros Hwf. unfold keeps. repeat (split; [done || lia|]). done. Qed.

Lemma keeps_trans t q q1 q2 : keeps t q q1 → keeps t q1 q2 → keeps t q q2.
Proof.
  intros (_ & A1 & A2 & A3 & A4 & A5) (Hwf & B1 & B2 & B3 & B4 & B5). unfold keeps.
  split_and!; [done|congruence|congruence|congruence|lia|]. intros b. rewrite B5. apply A5.
Qed.

Lemma do_add_ok q cb d iv now t :
  wf q → - 2 ^ 31 <= iv < 2 ^ 31 → t < nextId_ q →
  keeps t q (addTimer q cb d iv now).2 ∧ objects (addTimer q cb d iv now).2 !! t = objects q !! t.
Proof.
  intros Hwf Hiv Ht. set (b0 := bucket_after q (delay_ticks q d)).
  pose proof (bucket_after_lt q (delay_ticks q d) Hwf) as Hb0. fold b0 in Hb0.
  assert (Hfresh : ¬ in_wheel q (nextId_ q)).
  { intros [tm Htm]%(wf_obj _ Hwf). apply (wf_old _ Hwf) in Htm. lia. }
  assert (Hin : ∀ x b, inb (addTimer q cb d iv now).2 x b ↔ inb q x b ∨ (x = nextId_ q ∧ b = b0))
    by (intros x b; apply (inb_push q b0); done).
  assert (Hiw : ∀ x, in_wheel (addTimer q cb d iv now).2 x ↔ in_wheel q x ∨ x = nextId_ q)
    by (intros x; rewrite !in_wheel_inb; setoid_rewrite Hin; naive_solver).
  split; [|cbn; rewrite lookup_insert_ne by lia; done]. split; [|repeat (split; [done || (cbn; lia)|])].
  - destruct Hwf. split; try done.
    + cbn. by rewrite length_alter.
    + cbn. rewrite mjoin_push by done. apply NoDup_cons. done.
    + intros x [Hx| ->]%Hiw; apply lookup_insert_is_Some'; auto.
    + intros x. rewrite Hiw. cbn. rewrite elem_of_union, elem_of_singleton, wf_timers0.
      destruct (decide (x = nextId_ q)) as [->|Hne].
      * rewrite lookup_insert_eq. split; [|auto]. intros _. split; [auto|]. eexists. done.
      * rewrite lookup_insert_ne by done. tauto.
    + intros x tm. cbn. destruct (decide (x = nextId_ q)) as [->|Hne].
      * rewrite lookup_insert_eq. intros [= <-]. cbn. split_and!; [lia|done|lia|lia].
      * rewrite lookup_insert_ne by done. intros H%wf_old0. split_and!; try tauto; lia.
  - intros b. rewrite Hin. split; [|auto]. intros [?|[-> _]]; [done|lia].
Qed.

Lemma do_cancel_ok q i t :
  wf q → keeps t q (cancelTimer q i) ∧ (t ≠ i → objects (cancelTimer q i) !! t = objects q !! t).
Proof.
  intros Hwf. unfold cancelTimer. case_bool_decide as Hi; [|split; [by apply keeps_refl|done]].
  split; [|intros Hne; cbn; by rewrite lookup_alter_ne].
  split; [|repeat (split; [done || (cbn; lia)|]); done].
  destruct Hwf. split; try done.
  - intros x Hx%wf_obj0. by apply lookup_alter_is_Some.
  - intros x. cbn. rewrite elem_of_difference, elem_of_singleton, wf_timers0.
    change (in_wheel (set_timers _ _) x) with (in_wheel q x).
    destruct (decide (x = i)) as [->|Hne].
    + rewrite lookup_alter_eq. split; [naive_solver|]. intros (_ & tm & Htm & Hc).
      destruct (objects q !! i); [|done]. cbn in Htm. by simplify_eq.
    + rewrite lookup_alter_ne by done. tauto.
  - intros x tm. cbn. destruct (decide (x = i)) as [->|Hne]; [rewrite lookup_alter_eq|rewrite lookup_alter_ne by done; apply wf_old0].
    destruct (objects q !! i) as [tm0|] eqn:E; [|done]. cbn. intros [= <-]. exact (wf_old0 _ _ E).
Qed.

Lemma do_op_ok q o t :
  wf q → op_ok o → t < nextId_ q →
  keeps t q (do_op q o) ∧ (o ≠ Cancel t → objects (do_op q o) !! t = objects q !! t).
Proof.
  intros Hwf Hok Ht. destruct o as [cb d iv now|i]; cbn [do_op].
  - destruct (do_add_ok q cb d iv now t Hwf Hok Ht). auto.
  - destruct (do_cancel_ok q i t Hwf) as [H1 H2]. split; [done|]. intros Hne. apply H2. congruence.
Qed.

Lemma do_ops_ok os q t :
  wf q → Forall op_ok os → t < nextId_ q →
  keeps t q (foldl do_op q os) ∧ (Cancel t ∉ os → objects (foldl do_op q os) !! t = objects q !! t).
Proof.
  revert q. induction os as [|o os IH]; intros q Hwf Hok Ht; [split; [by apply keeps_refl|done]|].
  apply Forall_cons in Hok as [Ho Hos]. destruct (do_op_ok q o t Hwf Ho Ht) as [Hk Hobj]. cbn [foldl].
  pose proof Hk as (Hwf1 & _ & _ & _ & Hn & _). destruct (IH (do_op q o) Hwf1 Hos ltac:(lia)) as [Hk2 Hobj2].
  split; [by eapply keeps_trans|]. intros Hc. apply not_elem_of_cons in Hc as [Hc1 Hc2].
  rewrite Hobj2 by done. apply Hobj. congruence.
Qed.

(** ** Callbacks *)

Section Life.
Context (prog : nat → list Op) (Hprog : ∀ cb, Forall op_ok (prog cb)).

Lemma run_timer_ok q ran i t :
  wf q → t < nextId_ q →
  let '(q', ran') := run_timer prog (q, ran) i in
  keeps t q q' ∧ ((∀ cb, Cancel t ∉ prog cb) → objects q' !! t = objects q !! t) ∧
  (ran' = ran ∨ ran' = ran ++ [i]) ∧
  (∀ tm cb, objects q !! i = Some tm → cancelled_ tm = false → callback_ tm = Some cb → ran' = ran ++ [i]).
Proof.
  intros Hwf Ht. unfold run_timer.
  destruct (objects q !! i) as [tm|] eqn:Ei; [|split; [by apply keeps_refl|]; split_and!; [done|by left|done]].
  destruct (cancelled_ tm) eqn:Ec; [split; [by apply keeps_refl|]; split_and!; [done|by left|intros; simplify_eq; congruence]|].
  destruct (callback_ tm) as [cb|] eqn:Ecb; [|split; [by apply keeps_refl|]; split_and!; [done|by left|intros; simplify_eq; congruence]].
  destruct (do_ops_ok (prog cb) q t Hwf (Hprog cb) Ht) as [Hk Ho]. split; [done|]. split_and!; auto.
Qed.

Lemma run_timers_ok l q ran t :
  wf q → t < nextId_ q →
  ∃ q' r, foldl (run_timer prog) (q, ran) l = (q', ran ++ r) ∧ keeps t q q' ∧
    ((∀ cb, Cancel t ∉ prog cb) → objects q' !! t = objects q !! t) ∧ r `sublist_of` l ∧
    (∀ tm cb, (∀ cb, Cancel t ∉ prog cb) → t ∈ l → objects q !! t = Some tm → cancelled_ tm = false →
              callback_ tm = Some cb → t ∈ r).
Proof.
  revert q ran. induction l as [|i l IH]; intros q ran Hwf Ht.
  - exists q, []. rewrite app_nil_r. split; [done|]. split; [by apply keeps_refl|]. split_and!; [done|done|set_solver].
  - cbn [foldl]. pose proof (run_timer_ok q ran i t Hwf Ht) as H1.
    destruct (run_timer prog (q, ran) i) as [q1 ran1]. destruct H1 as (Hk & Ho & Hran & Hself).
    pose proof Hk as (Hwf1 & _ & _ & _ & Hn & _).
    destruct (IH q1 ran1 Hwf1 ltac:(lia)) as (q' & r & E & Hk' & Ho' & Hsub & Hin).
    exists q', (if decide (ran1 = ran) then r else i :: r). split; [|split; [|split_and!]].
    + rewrite E. case_decide as D; [by rewrite D|]. destruct Hran as [?| ->]; [done|]. by rewrite <-app_assoc.
    + by eapply keeps_trans.
    + intros Hc. rewrite Ho' by done. by apply Ho.
    + case_decide; [by apply sublist_cons|by apply sublist_skip].
    + intros tm cb Hc Hl Hot Hcan Hcb. destruct (decide (t = i)) as [->|Hne].
      * rewrite (Hself _ _ Hot Hcan Hcb). rewrite decide_False by (intros D%(f_equal length); rewrite length_app in D; cbn in D; lia).
        by left.
      * apply elem_of_cons in Hl as [?|Hl]; [done|]. assert (t ∈ r).
        { eapply Hin; [done|done| |done|done]. by rewrite Ho. }
        case_decide; [done|by right].
Qed.
(** ** The life of a timer *)

(** No client and no callback cancels [t], and clocks and intervals are within
    their machine width. *)
Definition leaves_alone (t : Z) (s : Step) : Prop :=
  match s with
  | Do o => op_ok o ∧ o ≠ Cancel t
  | Elsewhere => True
  | Tick now => time_ok now
  end.

Context (t : Z) (Hcalm : ∀ cb, Cancel t ∉ prog cb).

(** Waiting in bucket [b]. *)
Definition waits (q : TimerQueue) (b : nat) (tm : Timer) : Prop :=
  wf q ∧ t < nextId_ q ∧ pend q t b tm ∧ cancelled_ tm = false.
(** Off the wheel for good. *)
Definition gone (q : TimerQueue) : Prop := wf q ∧ t < nextId_ q ∧ ¬ in_wheel q t.

Lemma keeps_waits q q' b tm :
  keeps t q q' → objects q' !! t = objects q !! t → waits q b tm → waits q' b tm.
Proof.
  intros (Hwf & _ & _ & _ & Hn & Hb) Ho (_ & Ht & [Hin Hot] & Hc). unfold waits, pend.
  split; [done|]. split; [lia|]. rewrite Ho. split; [|done]. split; [by apply Hb|done].
Qed.

Lemma keeps_gone q q' : keeps t q q' → gone q → gone q'.
Proof.
  intros (Hwf & _ & _ & _ & Hn & Hb) (_ & Ht & Hg). split; [done|]. split; [lia|].
  rewrite in_wheel_inb in *. setoid_rewrite Hb. done.
Qed.

(** A tick: nothing happens to a timer of another bucket or one not due; a due
    one runs, and leaves the wheel or goes to its next bucket. *)
Lemma tick_waits q now b tm cb :
  waits q b tm → time_ok now → callback_ tm = Some cb →
  ∃ q' r, tick prog q now = (q', r) ∧ NoDup r ∧ buckets_ q' = buckets_ q ∧ tickMs_ q' = tickMs_ q ∧
    currentBucket_ q' = ((currentBucket_ q + 1) mod buckets_ q)%nat ∧
    if decide (b = currentBucket_ q ∧ due tm now = true) then
      t ∈ r ∧ (if repeat_ tm then waits q' (bucket_after q (interval_ticks q tm)) (restart tm now) else gone q')
    else t ∉ r ∧ waits q' b tm.
Proof.
  intros (Hwf & Ht & [Hin Hot] & Hc) Hok Hcb. unfold tick.
  destruct (collect_ok q now Hwf Hok) as (q1 & added & -> & (Hwf1 & (Eb & Et & Ec & En) & Hnd & Hadd & Hiw & Hout & Hvis)).
  destruct (run_timers_ok added (advance q1) [] t (wf_advance _ Hwf1) ltac:(cbn; lia))
    as (q' & r & -> & Hk & Hobj & Hsub & Hrun). specialize (Hobj Hcalm).
  cbn [List.app]. exists q', r. split; [done|]. split; [by eapply sublist_NoDup|].
  pose proof Hk as (_ & Kb & Kt & Kc & Kn & _). cbn in Kb, Kt, Kc, Kn.
  split; [congruence|]. split; [congruence|]. split; [rewrite Kc; congruence|].
  assert (Hw : ∀ b' tm', inb q1 t b' → objects q1 !! t = Some tm' → cancelled_ tm' = false → waits q' b' tm').
  { intros b' tm' Hb' Ho' Hc'. apply (keeps_waits (advance q1)); [done|done|].
    split; [by apply wf_advance|]. split; [cbn; lia|]. done. }
  destruct (decide (t ∈ todo q 0)) as [Htodo|Htodo].
  - pose proof (todo_in q 0 t Hwf Htodo) as Hcur. pose proof (inb_unique q t _ _ (wf_nodup _ Hwf) Hin Hcur) as ->.
    specialize (Hvis t tm Htodo Hot). unfold visited in Hvis. destruct (due tm now) eqn:Hd.
    + rewrite decide_True by done. destruct Hvis as (Ha & Ho & Hplace).
      destruct (restart_facts tm now) as (Fc & Fr & _ & Fcb). split.
      * eapply (Hrun (restart tm now) cb); [done|done|done|congruence|congruence].
      * destruct (repeat_ tm); [apply Hw; congruence|]. apply (keeps_gone (advance q1)); [done|].
        split; [by apply wf_advance|]. split; [cbn; lia|done].
    + rewrite decide_False by (intros [_ ?]; done). rewrite Hc in Hvis. destruct Hvis as (Ha & Ho & Hplace).
      split; [intros Hr; apply Ha; by eapply elem_of_sublist|]. by apply Hw.
  - rewrite decide_False.
    + destruct (Hout t Htodo) as [Ho Hb]. split; [|apply Hw; [auto|congruence|done]].
      intros Hr. apply Htodo, Hadd. by eapply elem_of_sublist.
    + intros [-> _]. apply Htodo. unfold todo. rewrite drop_0.
      by apply (inb_current q t (currentBucket_ q)).
Qed.

Lemma tick_gone q now : gone q → time_ok now → ∃ q' r, tick prog q now = (q', r) ∧ t ∉ r ∧ gone q'.
Proof.
  intros (Hwf & Ht & Hg) Hok. unfold tick.
  destruct (collect_ok q now Hwf Hok) as (q1 & added & -> & (Hwf1 & (Eb & Et & Ec & En) & Hnd & Hadd & Hiw & Hout & Hvis)).
  destruct (run_timers_ok added (advance q1) [] t (wf_advance _ Hwf1) ltac:(cbn; lia))
    as (q' & r & -> & Hk & Hobj & Hsub & Hrun).
  exists q', r. split; [done|]. split.
  - intros Hr. apply Hg. assert (t ∈ added) as Ha%Hadd by (by eapply elem_of_sublist).
    apply in_wheel_inb. eexists. by eapply todo_in.
  - apply (keeps_gone (advance q1)); [done|]. split; [by apply wf_advance|]. split; [cbn; lia|].
    intros H. apply Hg. by apply Hiw.
Qed.

Lemma elsewhere_keeps q : wf q → keeps t q (step prog (q, []) Elsewhere).1.
Proof.
  intros Hwf. destruct Hwf. split; [|repeat (split; [done || (cbn; lia)|]); done]. split; try done.
  intros x tm Hx. cbn. destruct (wf_old0 x tm Hx) as (? & ? & ?). split; [lia|done].
Qed.

Lemma step_acc q ran s : step prog (q, ran) s = ((step prog (q, []) s).1, ran ++ (step prog (q, []) s).2).
Proof. destruct s as [o| |now]; cbn; [by rewrite app_nil_r..|]. by destruct (tick prog q now). Qed.

Lemma steps_acc q ran ss : foldl (step prog) (q, ran) ss = ((steps prog q ss).1, ran ++ (steps prog q ss).2).
Proof.
  unfold steps. revert q ran. induction ss as [|s ss IH]; intros q ran; cbn [foldl]; [by rewrite app_nil_r|].
  rewrite (step_acc q ran), (step_acc q []). rewrite IH, (IH _ ([] ++ _)). cbn. by rewrite app_assoc.
Qed.

Lemma steps_cons q s ss :
  steps prog q (s :: ss) = ((steps prog (step prog (q, []) s).1 ss).1,
                            (step prog (q, []) s).2 ++ (steps prog (step prog (q, []) s).1 ss).2).
Proof. unfold steps at 1. cbn [foldl]. rewrite (step_acc q []). by rewrite steps_acc. Qed.

Lemma steps_app q s1 s2 :
  steps prog q (s1 ++ s2) = ((steps prog (steps prog q s1).1 s2).1,
                             (steps prog q s1).2 ++ (steps prog (steps prog q s1).1 s2).2).
Proof.
  unfold steps at 1. rewrite foldl_app. fold (steps prog q s1). destruct (steps prog q s1) as [q1 r1].
  by rewrite steps_acc.
Qed.

Lemma steps_gone q ss :
  gone q → Forall (leaves_alone t) ss → t ∉ (steps prog q ss).2.
Proof.
  revert q. induction ss as [|s ss IH]; intros q Hg Hss; [cbn; set_solver|].
  apply Forall_cons in Hss as [Hs Hss]. rewrite steps_cons. cbn [snd].
  assert (H : t ∉ (step prog (q, []) s).2 ∧ gone (step prog (q, []) s).1).
  { destruct s as [o| |now]; cbn [step fst snd].
    - split; [set_solver|]. destruct Hs as [Ho _]. destruct Hg as (Hwf & Ht & Hg).
      eapply keeps_gone; [apply (do_op_ok q o t Hwf Ho Ht)|done].
    - split; [set_solver|]. eapply keeps_gone; [by apply elsewhere_keeps, Hg|done].
    - destruct (tick_gone q now Hg Hs) as (q' & r & -> & Hr & Hg'). done. }
  destruct H as [H1 H2]. specialize (IH _ H2 Hss). set_solver.
Qed.

(** The clock readings of the ticks of a run. *)
Definition ticks (ss : list Step) : list Z := omap (λ s, match s with Tick now => Some now | _ => None end) ss.

(** Up to its moment a timer stays where it is: none of the ticks that come to
    its bucket finds it due. *)
Lemma steps_wait q ss b tm cb :
  waits q b tm → callback_ tm = Some cb → Forall (leaves_alone t) ss →
  (∀ j now, ticks ss !! j = Some now → ((currentBucket_ q + j) mod buckets_ q)%nat = b → due tm now = false) →
  let '(q', ran) := steps prog q ss in
  t ∉ ran ∧ waits q' b tm ∧ buckets_ q' = buckets_ q ∧ tickMs_ q' = tickMs_ q ∧
  currentBucket_ q' = ((currentBucket_ q + length (ticks ss)) mod buckets_ q)%nat.
Proof.
  intros Hw Hcb. revert q Hw. induction ss as [|s ss IH]; intros q Hw Hss Hdue.
  - cbn. split; [set_solver|]. split; [done|]. pose proof Hw as (Hwf & _). split_and!; [done|done|].
    rewrite Nat.add_0_r, Nat.mod_small; [done|apply Hwf].
  - apply Forall_cons in Hss as [Hs Hss]. rewrite steps_cons. pose proof Hw as (Hwf & Ht & _).
    assert (Hquiet : ∀ q1 r1, step prog (q, []) s = (q1, r1) → ticks (s :: ss) = ticks ss → t ∉ r1 → waits q1 b tm →
      buckets_ q1 = buckets_ q → tickMs_ q1 = tickMs_ q → currentBucket_ q1 = currentBucket_ q →
      let '(q', ran) := ((steps prog q1 ss).1, r1 ++ (steps prog q1 ss).2) in
      t ∉ ran ∧ waits q' b tm ∧ buckets_ q' = buckets_ q ∧ tickMs_ q' = tickMs_ q ∧
      currentBucket_ q' = ((currentBucket_ q + length (ticks (s :: ss))) mod buckets_ q)%nat).
    { intros q1 r1 E Et Hr Hw1 Eb Etk Ec. rewrite Et in *. specialize (IH q1 Hw1 Hss).
      rewrite Eb, Ec, Etk in IH. specialize (IH Hdue). destruct (steps prog q1 ss) as [q' ran]. cbn [fst snd].
      destruct IH as (H1 & H2 & H3 & H4 & H5). split; [set_solver|]. done. }
    destruct s as [o| |now].
    + destruct Hs as [Ho Hne]. destruct (do_op_ok q o t Hwf Ho Ht) as [Hk Hobj]. pose proof Hk as (_ & E1 & E2 & E3 & _).
      apply (Hquiet (do_op q o) []); try done; [set_solver|]. by apply (keeps_waits q); auto.
    + pose proof (elsewhere_keeps q Hwf) as Hk.
      apply (Hquiet (step prog (q, []) Elsewhere).1 []); try done; [set_solver|]. by apply (keeps_waits q).
    + destruct (tick_waits q now b tm cb Hw Hs Hcb) as (q1 & r & E & _ & Eb & Etk & Ec & H).
      cbn [step]. rewrite E. cbn [fst snd List.app]. rewrite decide_False in H.
      2:{ intros [-> Hd]. specialize (Hdue 0%nat now eq_refl).
          rewrite Nat.add_0_r, Nat.mod_small in Hdue by apply Hwf. rewrite Hdue in Hd; done. }
      destruct H as [Hr Hw1]. specialize (IH q1 Hw1 Hss). rewrite Eb, Ec, Etk in IH.
      assert (Hshift : ∀ j, (((currentBucket_ q + 1) mod buckets_ q + j) mod buckets_ q
                            = (currentBucket_ q + S j) mod buckets_ q)%nat).
      { intros j. rewrite Nat.Div0.add_mod_idemp_l. f_equal. lia. }
      destruct (steps prog q1 ss) as [q' ran]. rewrite Hshift in IH. cbn [fst snd].
      destruct IH as (H1 & H2 & H3 & H4 & H5).
      * intros j u Hj Hb. apply (Hdue (S j) u); [done|]. by rewrite <-Hshift.
      * split; [set_solver|]. split_and!; [apply H2|done|done|exact H5].
Qed.
End Life.

Lemma delay_ticks_eq q d :
  wf q → 0 <= d → d + tickMs_ q <= 2 ^ 31 → delay_ticks q d = Z.max 1 ((d + tickMs_ q - 1) / tickMs_ q).
Proof.
  intros Hwf Hd Hb. pose proof (wf_tick _ Hwf) as Ht. unfold delay_ticks.
  assert (Hi : i32 (d + tickMs_ q - 1) = d + tickMs_ q - 1) by (unfold i32; rewrite Z.mod_small; lia).
  rewrite Hi, Z.quot_div_nonneg by lia.
  assert (0 <= (d + tickMs_ q - 1) / tickMs_ q < 2 ^ 64).
  { split; [apply Z.div_pos; lia|]. apply Z.le_lt_trans with (d + tickMs_ q - 1); [|lia]. apply Z.div_le_upper_bound; nia. }
  unfold u64. rewrite Z.mod_small by lia. destruct (_ =? 0) eqn:E; bool_to_prop; lia.
Qed.

Lemma bucket_after_eq q (k : nat) :
  wf q → Z.of_nat k < 2 ^ 32 → bucket_after q (Z.of_nat k) = ((currentBucket_ q + k) mod buckets_ q)%nat.
Proof.
  intros Hwf Hk. destruct (wf_buckets _ Hwf) as [H1 H2]. pose proof (wf_cur _ Hwf). unfold bucket_after, u64.
  rewrite (Z.mod_small _ (2 ^ 64)) by lia. rewrite <-Nat2Z.inj_add, <-Nat2Z.inj_mod. apply Nat2Z.id.
Qed.

Definition count (t : Z) (l : list Z) : nat := length (List.filter (Z.eqb t) l).

Lemma count_none t l : t ∉ l → count t l = 0%nat.
Proof.
  unfold count. induction l as [|x l IH]; [done|]. intros H. cbn. destruct (Z.eqb_spec t x); [subst; set_solver|].
  apply IH. set_solver.
Qed.

Lemma count_one t l : NoDup l → t ∈ l → count t l = 1%nat.
Proof.
  induction l as [|x l IH]; [set_solver|]. intros [Hx Hnd]%NoDup_cons Ht. unfold count in *. cbn.
  destruct (Z.eqb_spec t x) as [->|Hne]; cbn [length].
  - f_equal. by apply count_none.
  - apply IH; [done|]. set_solver.
Qed.

Lemma count_app t l k : count t (l ++ k) = (count t l + count t k)%nat.
Proof. unfold count. by rewrite List.filter_app, length_app. Qed.

(** Two ticks come to the same bucket when their numbers agree modulo the
    number of buckets. *)
Lemma visit_iff (n c j k : nat) :
  (0 < n)%nat → ((c + j) mod n = (c + k) mod n ↔ j mod n = k mod n)%nat.
Proof.
  intros Hn. split; intros H.
  - apply Nat2Z.inj. rewrite !Nat2Z.inj_mod. apply (f_equal Z.of_nat) in H.
    rewrite !Nat2Z.inj_mod, !Nat2Z.inj_add in H.
    rewrite <-(Z.add_simpl_l (Z.of_nat c) (Z.of_nat j)), <-(Z.add_simpl_l (Z.of_nat c) (Z.of_nat k)).
    rewrite <-(Zminus_mod_idemp_l (_ + Z.of_nat j)), H. by rewrite Zminus_mod_idemp_l.
  - rewrite <-(Nat.Div0.add_mod_idemp_r _ j), H. by rewrite Nat.Div0.add_mod_idemp_r.
Qed.

Definition delay_turns (q : TimerQueue) (d : Z) : nat := Z.to_nat (Z.max 1 ((d + tickMs_ q - 1) / tickMs_ q)).

(** A new timer waits [delay_turns] buckets further on. *)
Lemma add_waits q cb d iv t0 :
  wf q → 0 <= d → d + tickMs_ q <= 2 ^ 31 → - 2 ^ 31 <= iv < 2 ^ 31 →
  waits (nextId_ q) (addTimer q (Some cb) d iv t0).2 ((currentBucket_ q + delay_turns q d) mod buckets_ q)%nat
    (Timer_new (Some cb) (i64 (t0 + d)) iv).
Proof.
  intros Hwf Hd Hdb Hiv. pose proof (wf_tick _ Hwf) as Htick.
  assert (Hb : bucket_after q (delay_ticks q d) = ((currentBucket_ q + delay_turns q d) mod buckets_ q)%nat).
  { assert ((d + tickMs_ q - 1) / tickMs_ q <= d + tickMs_ q - 1) by (apply Z.div_le_upper_bound; nia).
    rewrite (delay_ticks_eq q d Hwf Hd Hdb), <-bucket_after_eq by (done || unfold delay_turns; lia).
    unfold delay_turns. by rewrite Z2Nat.id by lia. }
  destruct (do_add_ok q (Some cb) d iv t0 (nextId_ q - 1) Hwf Hiv ltac:(lia)) as [(Hwf1 & _) _].
  split; [done|]. split; [cbn; lia|]. split; [|done]. split.
  - apply (inb_push q (bucket_after q (delay_ticks q d))); [by apply bucket_after_lt|]. right. by rewrite Hb.
  - cbn. by rewrite lookup_insert_eq.
Qed.

(** C10: a one-shot timer runs exactly once, at the first visit of the wheel to
    its bucket at which its delay is over, and never before.  With [k] the
    delay in ticks rounded up, and at least one, the wheel comes to the
    timer's bucket at the ticks whose number is [k] modulo the number of
    buckets, counted from zero after the call.  Other timers, periodic ones
    included, and their callbacks may do anything to the queue meanwhile,
    except cancel this timer; delays longer than a turn of the wheel are
    served as well. *)
Theorem oneshot_fires_once (prog : nat → list Op) (q : TimerQueue) (cb : nat) (d t0 now : Z) (ss1 ss2 : list Step)
    (Hwf : wf q) (Ht0 : time_ok t0) (Hd : 0 <= d) (Hdb : d + tickMs_ q <= 2 ^ 31) :
  let '(i, q1) := addTimer q (Some cb) d 0 t0 in
  let k := delay_turns q d in
  (∀ cb, Forall op_ok (prog cb)) → (∀ cb, Cancel i ∉ prog cb) →
  Forall (leaves_alone i) (ss1 ++ Tick now :: ss2) →
  (∀ j u, ticks ss1 !! j = Some u → (j mod buckets_ q = k mod buckets_ q)%nat → u < t0 + d) →
  (length (ticks ss1) mod buckets_ q = k mod buckets_ q)%nat → t0 + d <= now →
  count i (steps prog q1 ss1).2 = 0%nat ∧
  count i (steps prog q1 (ss1 ++ [Tick now])).2 = 1%nat ∧
  count i (steps prog q1 (ss1 ++ Tick now :: ss2)).2 = 1%nat.
Proof.
  destruct (addTimer q (Some cb) d 0 t0) as [i q1] eqn:E. intros k Hprog Hcalm Hss Hearly Hlen Hnow.
  pose proof (add_waits q cb d 0 t0 Hwf Hd Hdb ltac:(lia)) as Hw. rewrite E in Hw.
  pose proof (wf_tick _ Hwf). destruct (wf_buckets _ Hwf) as [HN _].
  set (tm := Timer_new (Some cb) (i64 (t0 + d)) 0) in Hw. fold k in Hw.
  assert (Hexp : expiration_ tm = t0 + d) by (unfold time_ok in Ht0; cbn; unfold i64; rewrite Z.mod_small; lia).
  assert (Hfr : nextId_ q = i ∧ buckets_ q1 = buckets_ q ∧ currentBucket_ q1 = currentBucket_ q) by (by inversion E).
  destruct Hfr as (Hi & Eb & Ec). rewrite Hi in Hw. cbn [snd] in Hw.
  apply Forall_app in Hss as [Hss1 [Hok Hss2]%Forall_cons].
  pose proof (steps_wait prog Hprog i Hcalm q1 ss1 _ tm cb Hw eq_refl Hss1) as Hrun.
  destruct (steps prog q1 ss1) as [q2 ran1] eqn:E1. rewrite Eb, Ec in Hrun.
  destruct Hrun as (Hr1 & Hw2 & _ & _ & Ec2).
  { intros j u Hj Hv%visit_iff; [|done]. specialize (Hearly j u Hj Hv). unfold due. rewrite Hexp.
    apply andb_false_iff. left. apply Z.leb_gt. lia. }
  destruct (tick_waits prog Hprog i Hcalm q2 now _ tm cb Hw2 Hok eq_refl) as (q3 & r & E3 & Hnd & _ & _ & _ & H0).
  rewrite decide_True in H0.
  2:{ split; [rewrite Ec2; symmetry; by apply visit_iff|]. unfold due. rewrite Hexp. cbn. bool_to_prop. lia. }
  destruct H0 as [Hr Hg]. pose proof (steps_gone prog Hprog i Hcalm q3 ss2 Hg Hss2) as Hgone.
  assert (E4 : steps prog q2 [Tick now] = (q3, r)) by (unfold steps; cbn [foldl step]; by rewrite E3).
  change (Tick now :: ss2) with ([Tick now] ++ ss2).
  rewrite !(steps_app prog), E1. cbn [fst snd]. rewrite E4. cbn [fst snd].
  by rewrite !count_app, (count_none i ran1 Hr1), (count_one i r Hnd Hr), (count_none i _ Hgone).
Qed.

Lemma wf_new (n : nat) (tickMs nextId : Z) :
  (0 < n)%nat → Z.of_nat n < 2 ^ 31 → 0 < tickMs < 2 ^ 31 → wf (TimerQueue_new n tickMs nextId).
Proof.
  intros Hn Hn2 Ht. assert (Hj : mjoin (replicate n ([] : list Z)) = []) by (clear; by induction n).
  split; cbn; rewrite ?Hj; try done.
  - by rewrite length_replicate.
  - constructor.
  - intros t Hin. unfold in_wheel in Hin. cbn in Hin. rewrite Hj in Hin. set_solver.
  - intros t. unfold in_wheel. cbn. rewrite Hj. set_solver.
Qed.

(** Two and a half seconds on the queue of an event loop: the fourth tick. *)
Lemma oneshot_fires_once_witness :
  let q := TimerQueue_new kTimerBuckets kTimerTickMs 40 in
  let prog := λ cb : nat, if bool_decide (cb = 9%nat) then [Add (Some 9%nat) 1000 0 5000; Cancel 41] else [] in
  let q1 := (addTimer q (Some 7%nat) 2500 0 100).2 in
  let before := [Do (Add (Some 9%nat) 1000 1000 150); Tick 1000; Tick 2000; Elsewhere; Tick 3000] in
  count 40 (steps prog q1 before).2 = 0%nat ∧
  count 40 (steps prog q1 (before ++ [Tick 4000])).2 = 1%nat ∧
  count 40 (steps prog q1 (before ++ Tick 4000 :: [Tick 5000; Do (Cancel 41); Tick 6000])).2 = 1%nat.
Proof.
  intros q prog q1 before.
  apply (oneshot_fires_once prog q 7 2500 100 4000 before [Tick 5000; Do (Cancel 41); Tick 6000]).
  - apply wf_new; unfold kTimerBuckets, kTimerTickMs; lia.
  - split; lia.
  - lia.
  - unfold q. cbn. unfold kTimerTickMs. lia.
  - intros cb. unfold prog. case_bool_decide; repeat constructor; cbn; lia.
  - intros cb. unfold prog. change (nextId_ q) with 40. case_bool_decide; [|by apply not_elem_of_nil].
    rewrite !not_elem_of_cons. split_and!; [discriminate|intros [=]|apply not_elem_of_nil].
  - unfold before. repeat constructor; cbn; try lia; discriminate.
  - intros [|[|[|j]]] u Hj; [intros Hk; vm_compute in Hk; discriminate..|]. discriminate.
  - reflexivity.
  - lia.
Defined.

(** A timer made from another thread has no handle: the identifier is read
    before the functor that makes the timer has run, and cancelling does
    nothing. *)
Example cross_thread_no_handle (q : TimerQueue) (d now : Z) (cb : nat) (inLoop : bool) :
  let '(id, _, ops) := runAfter q false d cb now in
  id = -1 ∧ ops ≠ [] ∧ cancel_id (foldl do_op q ops) inLoop id = (foldl do_op q ops, []).
Proof. by unfold runAfter. Qed.

(** Two timers of the same tick: the first callback cancels the second timer,
    which the tick has taken off the table already, and it runs all the same. *)
Example sibling_cancel_lost :
  let prog := λ cb : nat, if bool_decide (cb = 1%nat) then [Cancel 1] else [] in
  let q := TimerQueue_new kTimerBuckets kTimerTickMs 0 in
  let q1 := (addTimer q (Some 1%nat) 500 0 0).2 in
  let q2 := (addTimer q1 (Some 2%nat) 500 0 0).2 in
  (steps prog q2 [Tick 1000; Tick 2000]).2 = [0; 1].
Proof. vm_compute. reflexivity. Qed.
