(* ===== verification/EventLoop.v ===== *)
(** * EventLoop: the loop thread, the queue of functors and the wake-up

    Models [src/net/EventLoop.cc].  The loop thread and any number of other
    threads interleave at the places where they touch shared state: the mutex
    around [pendingFunctors_], the atomics [quit_] and
    [callingPendingFunctors_], and the eventfd.  A functor is a number; a table
    gives what it does to the loop. *)

From S2P Require Import Prelude.

Open Scope nat_scope.

(** What code running in the loop thread does to its loop; the body of a
    functor run at once by [runInLoop] follows as operations of its own. *)
Inductive LoopOp := OQueue (f : nat) | ORun (f : nat) | OQuit.

(** Where the loop thread is: before [loop], at the test of [quit_], in
    [poll], in the handlers, before and after the swap, and after [loop]. *)
Inductive Event := EvWake | EvChannel (ops : list LoopOp).
Inductive Pc := Idle | Top | Polling | Handling (events : list Event) | Swap | Running (functors : list nat) | Stopped.

Record EventLoop := mkLoop {
  pc : Pc;
  looping_ : bool;
  quit_ : bool;
  callingPendingFunctors_ : bool;
  pendingFunctors_ : list nat;
  eventfd : nat;          (* the counter of the eventfd *)
  wakers : nat;           (* other threads that have yet to write it *)
  executed : list nat;    (* functors run by [doPendingFunctors] *)
  direct : list nat;      (* functors run at once by [runInLoop] *)
  queued : list nat;      (* functors queued so far *)
  iterations : nat
}.

Definition EventLoop_new : EventLoop := mkLoop Idle false false false [] 0 0 [] [] [] 0.

Definition set_pc (l : EventLoop) (p : Pc) : EventLoop :=
  mkLoop p (looping_ l) (quit_ l) (callingPendingFunctors_ l) (pendingFunctors_ l) (eventfd l) (wakers l)
    (executed l) (direct l) (queued l) (iterations l).
Definition set_calling (l : EventLoop) (b : bool) : EventLoop :=
  mkLoop (pc l) (looping_ l) (quit_ l) b (pendingFunctors_ l) (eventfd l) (wakers l)
    (executed l) (direct l) (queued l) (iterations l).
Definition set_quit (l : EventLoop) (b : bool) : EventLoop :=
  mkLoop (pc l) (looping_ l) b (callingPendingFunctors_ l) (pendingFunctors_ l) (eventfd l) (wakers l)
    (executed l) (direct l) (queued l) (iterations l).

(** The critical section of [queueInLoop]. *)
Definition push (l : EventLoop) (f : nat) : EventLoop :=
  mkLoop (pc l) (looping_ l) (quit_ l) (callingPendingFunctors_ l) (pendingFunctors_ l ++ [f]) (eventfd l) (wakers l)
    (executed l) (direct l) (queued l ++ [f]) (iterations l).

Definition wakeup (l : EventLoop) : EventLoop :=
  mkLoop (pc l) (looping_ l) (quit_ l) (callingPendingFunctors_ l) (pendingFunctors_ l) (eventfd l + 1) (wakers l)
    (executed l) (direct l) (queued l) (iterations l).

(** [read] empties the counter. *)
Definition handleRead (l : EventLoop) : EventLoop :=
  mkLoop (pc l) (looping_ l) (quit_ l) (callingPendingFunctors_ l) (pendingFunctors_ l) 0 (wakers l)
    (executed l) (direct l) (queued l) (iterations l).

(** In the loop thread, the test reads [callingPendingFunctors_]. *)
Definition queueInLoop (l : EventLoop) (f : nat) : EventLoop :=
  let l1 := push l f in if callingPendingFunctors_ l1 then wakeup l1 else l1.

Definition run_directly (l : EventLoop) (f : nat) : EventLoop :=
  mkLoop (pc l) (looping_ l) (quit_ l) (callingPendingFunctors_ l) (pendingFunctors_ l) (eventfd l) (wakers l)
    (executed l) (direct l ++ [f]) (queued l) (iterations l).

(** Another thread has done the first half of [queueInLoop] or [quit], and
    its [wakeup] is still to come. *)
Definition owe_wakeup (l : EventLoop) : EventLoop :=
  mkLoop (pc l) (looping_ l) (quit_ l) (callingPendingFunctors_ l) (pendingFunctors_ l) (eventfd l) (wakers l + 1)
    (executed l) (direct l) (queued l) (iterations l).
Definition pay_wakeup (l : EventLoop) : option EventLoop :=
  match wakers l with
  | O => None
  | S n => Some (wakeup (mkLoop (pc l) (looping_ l) (quit_ l) (callingPendingFunctors_ l) (pendingFunctors_ l)
                           (eventfd l) n (executed l) (direct l) (queued l) (iterations l)))
  end.

Definition quit (l : EventLoop) (inLoop : bool) : EventLoop :=
  if inLoop then set_quit l true else owe_wakeup (set_quit l true).

Definition runInLoop (l : EventLoop) (inLoop : bool) (f : nat) : EventLoop :=
  if inLoop then run_directly l f else owe_wakeup (push l f).

Definition loop_op (l : EventLoop) (o : LoopOp) : EventLoop :=
  match o with
  | OQueue f => queueInLoop l f
  | ORun f => runInLoop l true f
  | OQuit => quit l true
  end.

(** [loop], up to the test. *)
Definition enter_loop (l : EventLoop) : EventLoop :=
  mkLoop Top true false (callingPendingFunctors_ l) (pendingFunctors_ l) (eventfd l) (wakers l)
    (executed l) (direct l) (queued l) (iterations l).
Definition leave_loop (l : EventLoop) : EventLoop :=
  mkLoop Stopped false (quit_ l) (callingPendingFunctors_ l) (pendingFunctors_ l) (eventfd l) (wakers l)
    (executed l) (direct l) (queued l) (iterations l).

(** [functors.swap(pendingFunctors_)]. *)
Definition swap_functors (l : EventLoop) : EventLoop :=
  mkLoop (Running (pendingFunctors_ l)) (looping_ l) (quit_ l) (callingPendingFunctors_ l) [] (eventfd l) (wakers l)
    (executed l) (direct l) (queued l) (iterations l).

Definition run_functor (prog : nat → list LoopOp) (l : EventLoop) (f : nat) (rest : list nat) : EventLoop :=
  let l1 := mkLoop (Running rest) (looping_ l) (quit_ l) (callingPendingFunctors_ l) (pendingFunctors_ l) (eventfd l)
              (wakers l) (executed l ++ [f]) (direct l) (queued l) (iterations l) in
  foldl loop_op l1 (prog f).

Definition end_iteration (l : EventLoop) : EventLoop :=
  mkLoop Top (looping_ l) (quit_ l) false (pendingFunctors_ l) (eventfd l) (wakers l)
    (executed l) (direct l) (queued l) (S (iterations l)).

#[global] Instance loop_op_eq_dec : EqDecision LoopOp.
Proof. solve_decision. Defined.
#[global] Instance event_eq_dec : EqDecision Event.
Proof. solve_decision. Defined.
#[global] Instance pc_eq_dec : EqDecision Pc.
Proof. solve_decision. Defined.

Definition has_wake (evs : list Event) : bool := existsb (λ e, bool_decide (e = EvWake)) evs.

(** One step of the loop thread; [polled] is what [poll] returns, which has
    the wake-up channel exactly when the eventfd is readable. *)
Definition loop_step (prog : nat → list LoopOp) (polled : list Event) (l : EventLoop) : option EventLoop :=
  match pc l with
  | Idle => Some (enter_loop l)
  | Top => Some (if quit_ l then leave_loop l else set_pc l Polling)
  | Polling => if Bool.eqb (has_wake polled) (0 <? eventfd l) then Some (set_pc l (Handling polled)) else None
  | Handling (EvWake :: evs) => Some (set_pc (handleRead l) (Handling evs))
  | Handling (EvChannel ops :: evs) => Some (set_pc (foldl loop_op l ops) (Handling evs))
  | Handling [] => Some (set_pc (set_calling l true) Swap)
  | Swap => Some (swap_functors l)
  | Running (f :: rest) => Some (run_functor prog l f rest)
  | Running [] => Some (end_iteration l)
  | Stopped => None
  end.

(** [Setup]: what the owner does to the loop before it calls [loop]. *)
Inductive Act :=
  | Setup (ops : list LoopOp) | OtherQueue (f : nat) | OtherQuit | OtherWake | LoopStep (polled : list Event).

Definition act (prog : nat → list LoopOp) (l : EventLoop) (a : Act) : option EventLoop :=
  match a with
  | Setup ops => if bool_decide (pc l = Idle) then Some (foldl loop_op l ops) else None
  | OtherQueue f => Some (runInLoop l false f)
  | OtherQuit => Some (quit l false)
  | OtherWake => pay_wakeup l
  | LoopStep polled => loop_step prog polled l
  end.

Fixpoint run (prog : nat → list LoopOp) (l : EventLoop) (as_ : list Act) : option EventLoop :=
  match as_ with
  | [] => Some l
  | a :: rest => l1 ← act prog l a; run prog l1 rest
  end.

(** ** Every functor once, in the order of the queue *)

Definition swapped_out (l : EventLoop) : list nat := match pc l with Running fs => fs | _ => [] end.

(** The code sets [callingPendingFunctors_] exactly around the functors, and
    whoever leaves something to do while the loop may be about to block has
    written the eventfd or is about to.  The exception is what the owner queues
    before it calls [loop]: that waits for the poll to time out. *)
Record loop_inv (l : EventLoop) : Prop := {
  inv_fifo : queued l = executed l ++ swapped_out l ++ pendingFunctors_ l;
  inv_calling : callingPendingFunctors_ l = true ↔ (pc l = Swap ∨ ∃ fs, pc l = Running fs);
  inv_wake : match pc l with
             | Running _ => pendingFunctors_ l ≠ [] → 0 < eventfd l + wakers l
             | Top | Polling => 0 < iterations l → pendingFunctors_ l ≠ [] → 0 < eventfd l + wakers l
             | _ => True
             end;
  inv_quit : pc l = Polling → quit_ l = true → 0 < eventfd l + wakers l;
  inv_idle : pc l = Idle → iterations l = 0
}.

(** What the operations of one handler or functor leave alone. *)
Record same_place (l l' : EventLoop) : Prop := {
  same_pc : pc l' = pc l;
  same_calling : callingPendingFunctors_ l' = callingPendingFunctors_ l;
  same_executed : executed l' = executed l;
  same_iterations : iterations l' = iterations l;
  same_queue : ∃ new, queued l' = queued l ++ new ∧ pendingFunctors_ l' = pendingFunctors_ l ++ new;
  same_eventfd : eventfd l ≤ eventfd l' ∧ wakers l ≤ wakers l';
  same_wake : callingPendingFunctors_ l = true → pendingFunctors_ l' ≠ pendingFunctors_ l → 0 < eventfd l' + wakers l'
}.

Lemma same_place_refl l : same_place l l.
Proof. split; try done. exists []. by rewrite !app_nil_r. Qed.

Lemma same_place_trans l l1 l2 : same_place l l1 → same_place l1 l2 → same_place l l2.
Proof.
  intros [A1 A2 A3 A4 (n1 & A5 & A5') [A6 A6'] A7] [B1 B2 B3 B4 (n2 & B5 & B5') [B6 B6'] B7].
  split; try congruence; [|lia|].
  - exists (n1 ++ n2). rewrite B5, A5, B5', A5', !app_assoc. done.
  - intros Hc Hne. rewrite B5', A5' in Hne. destruct n1 as [|x n1].
    + rewrite app_nil_r in *. apply B7; [congruence|]. by rewrite B5', A5'.
    + enough (0 < eventfd l1 + wakers l1) by lia. apply A7; [done|]. rewrite A5'.
      intros H%(f_equal length). rewrite length_app in H. cbn in H. lia.
Qed.

Lemma loop_op_place l o : same_place l (loop_op l o).
Proof.
  destruct o as [f|f|]; cbn; [|split; try done; exists []; by rewrite !app_nil_r..].
  unfold queueInLoop. cbn. destruct (callingPendingFunctors_ l) eqn:E; split; cbn; try done; try lia; try (by exists [f]);
    intros; (congruence || lia).
Qed.

Lemma loop_ops_place ops l : same_place l (foldl loop_op l ops).
Proof.
  revert l. induction ops as [|o ops IH]; intros l; [apply same_place_refl|].
  cbn. eapply same_place_trans; [apply loop_op_place|apply IH].
Qed.

Lemma loop_inv_new : loop_inv EventLoop_new.
Proof. split; cbn; try done. split; [done|]. intros [?|[? ?]]; done. Qed.

(** Code of the loop thread outside the functors: the swap comes next. *)
Lemma handler_inv l l' evs :
  loop_inv l → (∃ e, pc l = Handling (e :: evs)) → executed l' = executed l →
  callingPendingFunctors_ l' = callingPendingFunctors_ l →
  (∃ new, queued l' = queued l ++ new ∧ pendingFunctors_ l' = pendingFunctors_ l ++ new) →
  loop_inv (set_pc l' (Handling evs)).
Proof.
  intros [Hf Hc Hw Hq _] [e Hpc] He Hcal (new & Hn1 & Hn2). unfold swapped_out in Hf. rewrite Hpc in *.
  split; cbn.
  - rewrite Hn1, Hf, He, Hn2. cbn. by rewrite app_assoc.
  - rewrite Hcal, Hc. split; intros [?|[? ?]]; done.
  - done.
  - done.
  - done.
Qed.

Lemma functor_inv prog l f rest : loop_inv l → pc l = Running (f :: rest) → loop_inv (run_functor prog l f rest).
Proof.
  intros [Hf Hc Hw Hq _] Hpc. unfold run_functor. set (l1 := mkLoop _ _ _ _ _ _ _ _ _ _ _).
  pose proof (loop_ops_place (prog f) l1) as [A1 A2 A3 A4 (new & A5 & A6) A7 A8].
  unfold swapped_out in Hf. rewrite Hpc in *. assert (Hcal : callingPendingFunctors_ l = true) by (apply Hc; eauto).
  split.
  - unfold swapped_out. rewrite A1, A3, A5, A6. cbn. rewrite Hf, <-!app_assoc. done.
  - rewrite A1, A2. cbn. rewrite Hcal. split; eauto.
  - rewrite A1. cbn. intros Hne.
    destruct (decide (pendingFunctors_ (foldl loop_op l1 (prog f)) = pendingFunctors_ l1)) as [E|E]; [|by apply A8].
    rewrite E in Hne. specialize (Hw Hne). cbn in A7. lia.
  - rewrite A1. cbn. done.
  - rewrite A1. cbn. done.
Qed.

Lemma loop_step_inv prog polled l l' : loop_inv l → loop_step prog polled l = Some l' → loop_inv l'.
Proof.
  intros Hinv. pose proof Hinv as [Hf Hc Hw Hq Hi]. unfold swapped_out in Hf. unfold loop_step.
  destruct (pc l) as [| | |[|[|ops] evs]| |[|f rest]|] eqn:Hpc; intros Hs.
  - simplify_eq. split; cbn; [done| |rewrite Hi by done; lia|done|done].
    rewrite Hc. split; intros [?|[? ?]]; done.
  - destruct (quit_ l) eqn:Eq; simplify_eq; split; cbn; try done; try congruence;
      rewrite Hc; split; intros [?|[? ?]]; done.
  - destruct (Bool.eqb _ _); [|done]. simplify_eq. split; cbn; try done. rewrite Hc. split; intros [?|[? ?]]; done.
  - simplify_eq. split; cbn; try done. split; [by left|done].
  - simplify_eq. apply handler_inv with l; try done; [by eexists|]. exists []. by rewrite !app_nil_r.
  - simplify_eq. pose proof (loop_ops_place ops l) as [A1 A2 A3 A4 A5 A6 A7]. apply handler_inv with l; try done. by eexists.
  - simplify_eq. assert (callingPendingFunctors_ l = true) as Hcal by (apply Hc; by left).
    split; cbn; try done; [by rewrite app_nil_r|]. rewrite Hcal. split; [|done]. right. by eexists.
  - simplify_eq. split; cbn; try done; auto. split; [done|]. intros [?|[? ?]]; done.
  - simplify_eq. by apply functor_inv.
  - done.
Qed.

Lemma other_inv l l' :
  loop_inv l → pc l' = pc l → executed l' = executed l → iterations l' = iterations l →
  callingPendingFunctors_ l' = callingPendingFunctors_ l →
  (∃ new, queued l' = queued l ++ new ∧ pendingFunctors_ l' = pendingFunctors_ l ++ new) →
  (0 < eventfd l + wakers l → 0 < eventfd l' + wakers l') →
  (pendingFunctors_ l' ≠ pendingFunctors_ l ∨ quit_ l' ≠ quit_ l → 0 < eventfd l' + wakers l') →
  loop_inv l'.
Proof.
  intros [Hf Hc Hw Hq Hi] E1 E2 E3 E4 (new & E5 & E6) Hmono Hnew. unfold swapped_out in *.
  assert (Hp : ∀ P : Prop, (P → pendingFunctors_ l ≠ [] → 0 < eventfd l + wakers l) → P →
             pendingFunctors_ l' ≠ [] → 0 < eventfd l' + wakers l').
  { intros P HP p Hne. destruct (decide (pendingFunctors_ l' = pendingFunctors_ l)) as [E|E]; [|by apply Hnew; left].
    apply Hmono, HP; [done|congruence]. }
  split; unfold swapped_out; rewrite ?E1, ?E2, ?E3, ?E4; try done.
  - rewrite E5, E6, Hf. by rewrite !app_assoc.
  - destruct (pc l); try done; [by apply Hp|by apply Hp|]. by apply (Hp True).
  - intros Hpc Hq'. destruct (decide (quit_ l' = quit_ l)) as [E|E]; [|by apply Hnew; right].
    apply Hmono, Hq; congruence.
Qed.

Lemma loop_act_inv prog l a l' : loop_inv l → act prog l a = Some l' → loop_inv l'.
Proof.
  intros Hinv. destruct a as [ops|f| | |polled]; cbn [act].
  - case_bool_decide as Hpc; [|done]. intros [= <-]. pose proof Hinv as [Hf Hc Hw Hq Hi].
    pose proof (loop_ops_place ops l) as [A1 A2 A3 A4 (new & A5 & A6) A7 A8]. unfold swapped_out in *. rewrite Hpc in *.
    split; unfold swapped_out; rewrite ?A1, ?A2, ?A3, ?A4; try done; auto.
    rewrite A5, A6, Hf. by rewrite !app_assoc.
  - intros [= <-]. apply (other_inv l); cbn; try done; [by exists [f]|lia|lia].
  - intros [= <-]. apply (other_inv l); cbn; try done; [by exists []; rewrite !app_nil_r|lia|lia].
  - unfold pay_wakeup. destruct (wakers l) as [|n] eqn:En; [done|]. intros [= <-].
    apply (other_inv l); cbn; try done; [by exists []; rewrite !app_nil_r|lia|lia].
  - by apply loop_step_inv.
Qed.

Lemma loop_run_inv prog l as_ l' : loop_inv l → run prog l as_ = Some l' → loop_inv l'.
Proof.
  revert l. induction as_ as [|a as_ IH]; intros l Hinv; cbn; [by intros [= <-]|].
  destruct (act prog l a) as [l1|] eqn:E; [|done]. cbn. apply IH. by eapply loop_act_inv.
Qed.

(** C11: no wake-up is lost and no functor is lost, doubled or overtaken.  In
    every interleaving of the loop thread with other threads, the functors
    already run, those swapped out and those still pending are together, in
    this order, exactly the functors queued so far; and whenever the loop is
    about to block in [poll] although a functor is pending or another thread
    has called [quit], the eventfd is readable or some thread is about to write
    it, so that the loop does not wait for its timeout.  Excepted is only the
    first round, for functors that the owner queued before [loop]. *)
Theorem no_lost_wakeup (prog : nat → list LoopOp) (acts : list Act) (l : EventLoop)
    (Hrun : run prog EventLoop_new acts = Some l) :
  queued l = executed l ++ swapped_out l ++ pendingFunctors_ l ∧
  (pc l = Polling → (quit_ l = true ∨ (0 < iterations l ∧ pendingFunctors_ l ≠ [])) → 0 < eventfd l + wakers l).
Proof.
  destruct (loop_run_inv _ _ _ _ loop_inv_new Hrun) as [Hf Hc Hw Hq Hi]. split; [done|].
  intros Hpc. rewrite Hpc in Hw. intros [Hquit|[Hit Hp]]; auto.
Qed.

(** The owner queues functor 5; another thread queues 6 while functor 5 runs,
    which queues 7. *)
Definition sample_prog (f : nat) : list LoopOp := if bool_decide (f = 5) then [OQueue 7] else [].
Definition sample_acts : list Act :=
  [Setup [OQueue 5]; LoopStep []; LoopStep []; LoopStep []; LoopStep []; LoopStep []; LoopStep [];
   OtherQueue 6; LoopStep []; LoopStep []].

Lemma no_lost_wakeup_witness :
  ∃ l, run sample_prog EventLoop_new sample_acts = Some l ∧
       queued l = executed l ++ swapped_out l ++ pendingFunctors_ l.
Proof.
  destruct (run sample_prog EventLoop_new sample_acts) as [l|] eqn:E; [|by vm_compute in E].
  exists l. split; [done|]. exact (proj1 (no_lost_wakeup sample_prog sample_acts l E)).
Defined.

(** ** No functor waits for more than two rounds *)

(** Progress of the functors [Q] that were queued when [n] rounds were done. *)
Definition on_time (Q : list nat) (n : nat) (l : EventLoop) : Prop :=
  Q `prefix_of` queued l ∧
  (n < iterations l → ∀ fs, pc l = Running fs → Q `prefix_of` executed l ++ fs) ∧
  (S n < iterations l → Q `prefix_of` executed l).

Lemma on_time_place Q n l l' :
  on_time Q n l → pc l' = pc l → executed l' = executed l → iterations l' = iterations l →
  queued l `prefix_of` queued l' → on_time Q n l'.
Proof.
  intros (H1 & H2 & H3) E1 E2 E3 Hq. unfold on_time. rewrite E1, E2, E3.
  split; [by etrans|]. auto.
Qed.

Lemma on_time_step prog Q n l a l' :
  loop_inv l → on_time Q n l → n ≤ iterations l → act prog l a = Some l' → on_time Q n l' ∧ n ≤ iterations l'.
Proof.
  intros Hinv Hot Hn. pose proof Hot as (H1 & H2 & H3). pose proof (inv_fifo _ Hinv) as Hf. unfold swapped_out in Hf.
  assert (Hpre : ∀ new, queued l `prefix_of` queued l ++ new) by (intros new; by apply prefix_app_r).
  destruct a as [ops|f| | |polled]; cbn [act].
  - case_bool_decide as Hpc; [|done]. intros [= <-]. destruct (loop_ops_place ops l) as [A1 A2 A3 A4 (new & A5 & _) _ _].
    split; [|lia]. apply (on_time_place Q n l); try done. rewrite A5. apply Hpre.
  - intros [= <-]. split; [|done]. apply (on_time_place Q n l); try done. cbn. apply Hpre.
  - intros [= <-]. done.
  - unfold pay_wakeup. destruct (wakers l); [done|]. by intros [= <-].
  - unfold loop_step. destruct (pc l) as [| | |[|[|ops] evs]| |[|f rest]|] eqn:Hpc; intros Hs; try (simplify_eq; done).
    + simplify_eq. by destruct (quit_ l).
    + destruct (Bool.eqb _ _); by simplify_eq.
    + simplify_eq. destruct (loop_ops_place ops l) as [A1 A2 A3 A4 (new & A5 & _) _ _]. cbn. split; [|cbn; lia].
      split; cbn; [rewrite A5; by apply prefix_app_r|]. split; [done|]. rewrite A3, A4. auto.
    + simplify_eq. split; [|done]. split; [done|]. cbn. split; [|done].
      intros _ fs [= <-]. cbn in Hf. by rewrite <-Hf.
    + simplify_eq. cbn. split; [|lia]. split; [done|]. cbn. split; [done|]. intros Hlt.
      destruct (decide (n < iterations l)) as [Hd|Hd]; [|lia]. specialize (H2 Hd [] eq_refl). by rewrite app_nil_r in H2.
    + simplify_eq. unfold run_functor. set (l1 := mkLoop _ _ _ _ _ _ _ _ _ _ _).
      destruct (loop_ops_place (prog f) l1) as [A1 A2 A3 A4 (new & A5 & _) _ _]. cbn in *. split; [|lia].
      unfold on_time. rewrite A1, A3, A4, A5. split; [by apply prefix_app_r|]. split.
      * intros Hlt fs [= <-]. rewrite <-app_assoc. by apply H2.
      * intros Hlt. apply prefix_app_r. by apply H3.
Qed.

(** No functor waits for more than two rounds of the loop: every functor
    queued, by whatever thread and at whatever moment, has been run when two
    further rounds are complete, and before any functor queued later. *)
Theorem queued_runs_in_two_rounds (prog : nat → list LoopOp) (before after : list Act) (l l' : EventLoop)
    (Hl : run prog EventLoop_new before = Some l) (Hl' : run prog l after = Some l')
    (Hrounds : iterations l + 2 ≤ iterations l') :
  queued l `prefix_of` executed l'.
Proof.
  pose proof (loop_run_inv _ _ _ _ loop_inv_new Hl) as Hinv. clear Hl.
  assert (Hot : on_time (queued l) (iterations l) l) by (split; [done|]; split; intros; lia).
  assert (H : ∀ l0, loop_inv l0 → on_time (queued l) (iterations l) l0 → iterations l ≤ iterations l0 →
    run prog l0 after = Some l' → on_time (queued l) (iterations l) l').
  { clear. induction after as [|a after IH]; intros l0 Hinv Hot Hn; cbn; [by intros [= <-]|].
    destruct (act prog l0 a) as [l1|] eqn:E; [|done]. cbn.
    destruct (on_time_step _ _ _ _ _ _ Hinv Hot Hn E). apply IH; [by eapply loop_act_inv|done|done]. }
  destruct (H l Hinv Hot ltac:(lia) Hl') as (_ & _ & H3). apply H3. lia.
Qed.

(** ** A round ends *)

Lemma run_app prog l a1 a2 : run prog l (a1 ++ a2) = (l1 ← run prog l a1; run prog l1 a2).
Proof. revert l. induction a1 as [|a a1 IH]; intros l; [done|]. cbn. destruct (act prog l a); [apply IH|done]. Qed.

(** [l] comes to [l'] by steps of the loop thread alone. *)
Definition alone (prog : nat → list LoopOp) (l l' : EventLoop) : Prop :=
  ∃ polls, run prog l (LoopStep <$> polls) = Some l'.

Lemma alone_step prog l l1 l' polled : loop_step prog polled l = Some l1 → alone prog l1 l' → alone prog l l'.
Proof. intros E [polls H]. exists (polled :: polls). cbn. by rewrite E. Qed.

Lemma alone_refl prog l : alone prog l l.
Proof. by exists []. Qed.

Definition finishes (prog : nat → list LoopOp) (l : EventLoop) : Prop :=
  ∃ l', alone prog l l' ∧ pc l' = Top ∧ iterations l' = S (iterations l) ∧ (quit_ l = true → quit_ l' = true).

Lemma finishes_step prog l l1 polled :
  loop_step prog polled l = Some l1 → iterations l1 = iterations l → (quit_ l = true → quit_ l1 = true) →
  finishes prog l1 → finishes prog l.
Proof.
  intros E Ei Eq (l' & Ha & Hpc & Hi & Hq). exists l'. split; [by eapply alone_step|].
  split_and!; [done|congruence|auto].
Qed.

Lemma loop_ops_quit ops l : quit_ l = true → quit_ (foldl loop_op l ops) = true.
Proof.
  revert l. induction ops as [|o ops IH]; intros l Hq; [done|]. cbn. apply IH. destruct o; cbn; try done.
  unfold queueInLoop. by destruct (callingPendingFunctors_ (push l f)).
Qed.

Lemma running_finishes prog l fs : pc l = Running fs → finishes prog l.
Proof.
  revert l. induction fs as [|f fs IH]; intros l Hpc.
  - exists (end_iteration l). split; [|done]. apply alone_step with (end_iteration l) []; [|apply alone_refl].
    unfold loop_step. by rewrite Hpc.
  - assert (E : loop_step prog [] l = Some (run_functor prog l f fs)) by (unfold loop_step; by rewrite Hpc).
    unfold run_functor in E. set (l1 := mkLoop _ _ _ _ _ _ _ _ _ _ _) in E.
    destruct (loop_ops_place (prog f) l1) as [A1 _ _ A4 _ _ _].
    apply (finishes_step _ _ _ _ E); [by rewrite A4|intros Hq; by apply loop_ops_quit|]. apply IH. by rewrite A1.
Qed.

Lemma handling_finishes prog l evs : pc l = Handling evs → finishes prog l.
Proof.
  revert l. induction evs as [|[|ops] evs IH]; intros l Hpc.
  - apply finishes_step with (set_pc (set_calling l true) Swap) []; [unfold loop_step; by rewrite Hpc|done|done|].
    apply finishes_step with (swap_functors (set_pc (set_calling l true) Swap)) []; [done|done|done|].
    by eapply running_finishes.
  - apply finishes_step with (set_pc (handleRead l) (Handling evs)) []; [unfold loop_step; by rewrite Hpc|done|done|].
    by apply IH.
  - destruct (loop_ops_place ops l) as [_ _ _ A4 _ _ _].
    apply finishes_step with (set_pc (foldl loop_op l ops) (Handling evs)) [];
      [unfold loop_step; by rewrite Hpc|done|intros Hq; by apply loop_ops_quit|]. by apply IH.
Qed.

(** Rounds end.  A loop that has been entered and not been left completes
    its round by steps of its own thread, whatever is pending; and once [quit]
    has been called it leaves [loop] at the end of that round. *)
Theorem round_ends (prog : nat → list LoopOp) (l : EventLoop)
    (Hin : pc l ≠ Idle) (Hout : pc l ≠ Stopped) (Htop : pc l = Top → quit_ l = false) :
  (∃ l', alone prog l l' ∧ pc l' = Top ∧ iterations l' = S (iterations l)) ∧
  (quit_ l = true → ∃ l', alone prog l l' ∧ pc l' = Stopped ∧ iterations l' = S (iterations l)).
Proof.
  assert (H : finishes prog l).
  { assert (Hpoll : ∀ l0, pc l0 = Polling → finishes prog l0).
    { intros l0 Hpc. set (evs := if 0 <? eventfd l0 then [EvWake] else []).
      apply finishes_step with (set_pc l0 (Handling evs)) evs; [|done|done|by eapply handling_finishes].
      unfold loop_step. rewrite Hpc. unfold evs. by destruct (0 <? eventfd l0). }
    destruct (pc l) as [| | |evs| |fs|] eqn:Hpc; try done.
    - apply finishes_step with (set_pc l Polling) []; [|done|done|by apply Hpoll].
      unfold loop_step. by rewrite Hpc, (Htop eq_refl).
    - by apply Hpoll.
    - by eapply handling_finishes.
    - apply finishes_step with (swap_functors l) []; [unfold loop_step; by rewrite Hpc|done|done|]. by eapply running_finishes.
    - by eapply running_finishes. }
  destruct H as (l' & [polls Ha] & Hpc & Hi & Hq). split; [exists l'; split; [by exists polls|done]|].
  intros Hquit. exists (leave_loop l'). split; [|done]. exists (polls ++ [[]]). rewrite fmap_app, run_app, Ha. cbn.
  unfold loop_step. by rewrite Hpc, (Hq Hquit).
Qed.

(** [loop] clears [quit_], so that a [quit] that comes first is lost: the loop
    runs on, with the wake-up consumed. *)
Example quit_before_loop_lost :
  (λ l, (pc l, quit_ l, eventfd l + wakers l)) <$>
    run (λ _, []) EventLoop_new
      [OtherQuit; OtherWake; LoopStep []; LoopStep []; LoopStep [EvWake]; LoopStep []; LoopStep []; LoopStep [];
       LoopStep []; LoopStep []] = Some (Polling, false, 0).
Proof. vm_compute. reflexivity. Qed.

(** A functor queued in the last round is dropped when the loop is left. *)
Example queued_while_quitting_lost :
  (λ l, (pc l, executed l, pendingFunctors_ l)) <$>
    run (λ f, if bool_decide (f = 1) then [OQuit; OQueue 2] else []) EventLoop_new
      [Setup [OQueue 1]; LoopStep []; LoopStep []; LoopStep []; LoopStep []; LoopStep []; LoopStep []; LoopStep [];
       LoopStep []] = Some (Stopped, [1], [2]).
Proof. vm_compute. reflexivity. Qed.

Definition later_acts : list Act := OtherWake :: (LoopStep <$> ([EvWake] :: replicate 11 [])).

Lemma queued_runs_in_two_rounds_witness :
  ∃ l l', run sample_prog EventLoop_new sample_acts = Some l ∧ run sample_prog l later_acts = Some l' ∧
    queued l `prefix_of` executed l'.
Proof.
  assert (H1 : iterations <$> run sample_prog EventLoop_new sample_acts = Some 1) by (vm_compute; reflexivity).
  assert (H2 : iterations <$> run sample_prog EventLoop_new (sample_acts ++ later_acts) = Some 3)
    by (vm_compute; reflexivity).
  rewrite run_app in H2.
  destruct (run sample_prog EventLoop_new sample_acts) as [l|] eqn:E; [|discriminate H1]. cbn [mbind option_bind] in H2.
  destruct (run sample_prog l later_acts) as [l'|] eqn:E'; [|discriminate H2]. injection H1 as H1. injection H2 as H2.
  exists l, l'. split; [reflexivity|]. split; [exact E'|].
  apply (queued_runs_in_two_rounds sample_prog sample_acts later_acts l l' E E'). rewrite H1, H2. lia.
Defined.

Lemma round_ends_witness :
  ∃ l', alone sample_prog (mkLoop (Running [5; 6]) true true true [] 0 1 [] [] [5; 6] 3) l' ∧
    pc l' = Stopped ∧ iterations l' = 4.
Proof.
  refine (proj2 (round_ends sample_prog (mkLoop (Running [5; 6]) true true true [] 0 1 [] [] [5; 6] 3) _ _ _) eq_refl);
    discriminate.
Defined.
