(* ===== verification/TcpServer.v ===== *)
(** * TcpServer: connections from [accept] to destruction

    Models [src/net/TcpServer.cc], [src/net/Acceptor.cc] and
    [src/net/EventLoopThreadPool.cc].  Loop 0 is the base loop, the others are
    those of the pool.  Each loop has its queue of functors, which it runs
    first-in first-out and exactly once (see EventLoop); the connections are
    objects in a store, of which only the state and the callbacks matter
    here (see TcpConnection). *)

From S2P Require Import Prelude Buffer Poller TcpConnection.

Open Scope nat_scope.

(** ** The pool *)

Record EventLoopThreadPool := mkPool { numThreads_ : nat; loops_ : list nat; next_ : nat }.

Definition pool_new : EventLoopThreadPool := mkPool 0 [] 0.
Definition pool_setThreadNum (p : EventLoopThreadPool) (n : nat) : EventLoopThreadPool := mkPool n (loops_ p) (next_ p).
Definition pool_start (p : EventLoopThreadPool) : EventLoopThreadPool :=
  mkPool (numThreads_ p) (loops_ p ++ seq 1 (numThreads_ p)) (next_ p).
Definition getAllLoops (p : EventLoopThreadPool) : list nat :=
  match numThreads_ p with O => [0] | _ => loops_ p end.
Definition getNextLoop (p : EventLoopThreadPool) : nat * EventLoopThreadPool :=
  match loops_ p with
  | [] => (0, p)
  | _ =>
      let next := S (next_ p) in
      (nth (next_ p) (loops_ p) 0,
       mkPool (numThreads_ p) (loops_ p) (if length (loops_ p) <=? next then 0 else next))
  end.

(** ** Connections and the server *)

Inductive Functor := FEstablish (c : nat) | FDestroy (c : nat) | FRemove (c : nat) | FListen.

(** What becomes visible: the connection callback and the channel leaving
    the poller. *)
Inductive Visible := Up (c : nat) | Down (c : nat) | Removed (c : nat).

Record Connection := mkConnection { cname : str; cloop : nat; cstate : StateE }.

Record TcpServer := mkServer {
  ipPort_ : str;
  name_ : str;
  threadPool_ : EventLoopThreadPool;
  nextConnId_ : Z;
  started_ : Z;
  listenning_ : bool;
  connections_ : gmap str nat;
  objects : gmap nat Connection;
  queues : nat → list Functor;
  visible : list Visible;
  alive : bool;        (* the destructor has not run *)
  dangling : bool      (* a callback used the server after its destructor *)
}.

Definition TcpServer_new (ipPort name : str) : TcpServer :=
  mkServer ipPort name pool_new 1 0 false ∅ ∅ (λ _, []) [] true false.

Definition with_table (s : TcpServer) (t : gmap str nat) : TcpServer :=
  mkServer (ipPort_ s) (name_ s) (threadPool_ s) (nextConnId_ s) (started_ s) (listenning_ s) t (objects s) (queues s)
    (visible s) (alive s) (dangling s).
Definition with_objects (s : TcpServer) (o : gmap nat Connection) : TcpServer :=
  mkServer (ipPort_ s) (name_ s) (threadPool_ s) (nextConnId_ s) (started_ s) (listenning_ s) (connections_ s) o (queues s)
    (visible s) (alive s) (dangling s).
Definition with_queues (s : TcpServer) (q : nat → list Functor) : TcpServer :=
  mkServer (ipPort_ s) (name_ s) (threadPool_ s) (nextConnId_ s) (started_ s) (listenning_ s) (connections_ s) (objects s) q
    (visible s) (alive s) (dangling s).
Definition show (s : TcpServer) (v : list Visible) : TcpServer :=
  mkServer (ipPort_ s) (name_ s) (threadPool_ s) (nextConnId_ s) (started_ s) (listenning_ s) (connections_ s) (objects s)
    (queues s) (visible s ++ v) (alive s) (dangling s).
Definition with_pool (s : TcpServer) (p : EventLoopThreadPool) : TcpServer :=
  mkServer (ipPort_ s) (name_ s) p (nextConnId_ s) (started_ s) (listenning_ s) (connections_ s) (objects s)
    (queues s) (visible s) (alive s) (dangling s).
Definition listen (s : TcpServer) : TcpServer :=
  mkServer (ipPort_ s) (name_ s) (threadPool_ s) (nextConnId_ s) (started_ s) true (connections_ s) (objects s)
    (queues s) (visible s) (alive s) (dangling s).

Definition set_state (s : TcpServer) (c : nat) (st : StateE) : TcpServer :=
  with_objects s (alter (λ k, mkConnection (cname k) (cloop k) st) c (objects s)).

Definition queueInLoop (s : TcpServer) (l : nat) (f : Functor) : TcpServer :=
  with_queues s (λ i, if i =? l then queues s i ++ [f] else queues s i).

(** [TcpConnection::connectEstablished] and [connectDestroyed], as far as
    their state and callbacks go. *)
Definition connectEstablished (s : TcpServer) (c : nat) : TcpServer := show (set_state s c kConnected) [Up c].
Definition connectDestroyed (s : TcpServer) (c : nat) : TcpServer :=
  match objects s !! c with
  | Some k =>
      if bool_decide (cstate k = kConnected)
      then show (set_state s c kDisconnected) [Down c; Removed c]
      else show s [Removed c]
  | None => s
  end.

Definition removeConnectionInLoop (s : TcpServer) (c : nat) : TcpServer :=
  match objects s !! c with
  | Some k => queueInLoop (with_table s (delete (cname k) (connections_ s))) (cloop k) (FDestroy c)
  | None => s
  end.

(** A functor runs in the thread of its loop. *)
Definition run_functor (s : TcpServer) (f : Functor) : TcpServer :=
  match f with
  | FEstablish c => connectEstablished s c
  | FDestroy c => connectDestroyed s c
  | FRemove c => removeConnectionInLoop s c
  | FListen => listen s
  end.

Definition runInLoop (s : TcpServer) (cur l : nat) (f : Functor) : TcpServer :=
  if cur =? l then run_functor s f else queueInLoop s l f.

(** The close callback of a connection, in the thread of its loop. *)
Definition removeConnection (s : TcpServer) (cur c : nat) : TcpServer :=
  if alive s then runInLoop s cur 0 (FRemove c)
  else mkServer (ipPort_ s) (name_ s) (threadPool_ s) (nextConnId_ s) (started_ s) (listenning_ s) (connections_ s)
         (objects s) (queues s) (visible s) false true.

Definition start (s : TcpServer) : TcpServer :=
  let s1 := mkServer (ipPort_ s) (name_ s) (threadPool_ s) (nextConnId_ s) (started_ s + 1)%Z (listenning_ s)
              (connections_ s) (objects s) (queues s) (visible s) (alive s) (dangling s) in
  if (started_ s =? 0)%Z then runInLoop (with_pool s1 (pool_start (threadPool_ s1))) 0 0 FListen else s1.

Definition setThreadNum (s : TcpServer) (n : nat) : TcpServer := with_pool s (pool_setThreadNum (threadPool_ s) n).

(** [snprintf(buf, 64, "-%s#%d", ...)]. *)
Definition connName (s : TcpServer) (connId : Z) : str :=
  name_ s ++ take 63 (#"-" ++ ipPort_ s ++ #"#" ++ to_string connId).

(** [newConnection]; the new object is numbered by the size of the store. *)
Definition newConnection (s : TcpServer) : TcpServer :=
  let '(ioLoop, pool) := getNextLoop (threadPool_ s) in
  let connId := nextConnId_ s in
  let c := size (objects s) in
  let nm := connName s connId in
  let s1 := mkServer (ipPort_ s) (name_ s) pool (i32 (connId + 1)) (started_ s) (listenning_ s)
              (<[nm := c]> (connections_ s)) (<[c := mkConnection nm ioLoop kConnecting]> (objects s))
              (queues s) (visible s) (alive s) (dangling s) in
  runInLoop s1 0 ioLoop (FEstablish c).

(** [Acceptor::handleRead] with the result of [accept4]; the server has always
    set the callback. *)
Definition acceptor_handleRead (s : TcpServer) (connfd : Z) : TcpServer :=
  if (0 <=? connfd)%Z then newConnection s else s.

(** [TcpConnection::handleClose]. *)
Definition handleClose (s : TcpServer) (c : nat) : TcpServer :=
  match objects s !! c with
  | Some k => removeConnection (show (set_state s c kDisconnected) [Down c]) (cloop k) c
  | None => s
  end.

(** [~TcpServer], in the base loop's thread. *)
Definition destructor (s : TcpServer) : TcpServer :=
  let s1 := foldl (λ s (kv : str * nat),
              match objects s !! kv.2 with
              | Some k => runInLoop s 0 (cloop k) (FDestroy kv.2)
              | None => s end) s (map_to_list (connections_ s)) in
  mkServer (ipPort_ s1) (name_ s1) (threadPool_ s1) (nextConnId_ s1) (started_ s1) (listenning_ s1) ∅ (objects s1)
    (queues s1) (visible s1) false (dangling s1).

(** ** Runs *)

Inductive Act :=
  | Accept (connfd : Z)        (* the listening socket is readable *)
  | RunFunctor (l : nat)       (* loop [l] runs its next functor *)
  | ShutdownConn (c : nat)     (* the application shuts a connection down *)
  | CloseConn (c : nat).       (* the peer has closed, or the connection failed *)

(** A connection's channel is enabled, and so may be closed or shut down,
    between [connectEstablished] and [handleClose]. *)
Definition enabled (s : TcpServer) (c : nat) : bool :=
  match objects s !! c with
  | Some k => bool_decide (cstate k = kConnected ∨ cstate k = kDisconnecting)
  | None => false
  end.

Definition act (s : TcpServer) (a : Act) : option TcpServer :=
  match a with
  | Accept fd => if listenning_ s && alive s then Some (acceptor_handleRead s fd) else None
  | RunFunctor l =>
      match queues s l with
      | [] => None
      | f :: fs => Some (run_functor (with_queues s (λ i, if i =? l then fs else queues s i)) f)
      end
  | ShutdownConn c =>
      if enabled s c then Some (match objects s !! c with
                                | Some k => if bool_decide (cstate k = kConnected) then set_state s c kDisconnecting else s
                                | None => s end) else None
  | CloseConn c => if enabled s c then Some (handleClose s c) else None
  end.

Fixpoint run (s : TcpServer) (acts : list Act) : option TcpServer :=
  match acts with
  | [] => Some s
  | a :: rest => s1 ← act s a; run s1 rest
  end.

(** ** The connections are those of TcpConnection

    The three operations above have the state changes and the visible events
    of the detailed ones. *)

Definition seen (c : nat) (es : list Effect) : list Visible :=
  omap (λ e, match e with
             | EConnectionCallback kConnected => Some (Up c)
             | EConnectionCallback _ => Some (Down c)
             | ERemoveChannel => Some (Removed c)
             | _ => None end) es.

Section Detailed.
Context {B : Type} `{Buffer.ByteQueue B}.

(** Connection [c] of the server stands for the detailed [d]. *)
Definition stands_for (s : TcpServer) (c : nat) (d : TcpConnection.Conn B) : Prop :=
  ∃ k, objects s !! c = Some k ∧ cstate k = TcpConnection.state_ d.

Lemma established_as_detailed s c d :
  stands_for s c d →
  stands_for (connectEstablished s c) c (TcpConnection.connectEstablished d) ∧
  ∃ es, TcpConnection.log (TcpConnection.connectEstablished d) = TcpConnection.log d ++ es ∧
        visible (connectEstablished s c) = visible s ++ seen c es.
Proof.
  intros (k & Hk & Hst). split.
  - eexists. split; [cbn; rewrite lookup_alter_eq, Hk; reflexivity|]. done.
  - exists [EUpdate (events_ (enableReading (tie (TcpConnection.channel_ d)))); EConnectionCallback kConnected].
    split; [|done]. cbn. by rewrite <-app_assoc.
Qed.

Lemma destroyed_as_detailed s c d :
  stands_for s c d →
  stands_for (connectDestroyed s c) c (TcpConnection.connectDestroyed d) ∧
  ∃ es, TcpConnection.log (TcpConnection.connectDestroyed d) = TcpConnection.log d ++ es ∧
        visible (connectDestroyed s c) = visible s ++ seen c es.
Proof.
  intros (k & Hk & Hst). unfold connectDestroyed, TcpConnection.connectDestroyed. rewrite Hk, Hst.
  case_bool_decide as E.
  - split; [eexists; split; [cbn; rewrite lookup_alter_eq, Hk; reflexivity|done]|].
    exists [EUpdate (events_ (disableAll (TcpConnection.channel_ d))); EConnectionCallback kDisconnected; ERemoveChannel].
    split; [|done]. cbn. by rewrite <-!app_assoc.
  - split; [by exists k|]. exists [ERemoveChannel]. done.
Qed.

Lemma closed_as_detailed s c d :
  stands_for s c d → alive s = true →
  ∃ es, TcpConnection.log (TcpConnection.handleClose d) = TcpConnection.log d ++ es ∧
        TcpConnection.state_ (TcpConnection.handleClose d) = kDisconnected ∧
        ∃ k, objects s !! c = Some k ∧
        handleClose s c = runInLoop (show (set_state s c kDisconnected) (seen c es)) (cloop k) 0 (FRemove c).
Proof.
  intros (k & Hk & Hst) Hal. exists [EUpdate (events_ (disableAll (TcpConnection.channel_ d))); EConnectionCallback kDisconnected; ECloseCallback].
  split; [cbn; by rewrite <-!app_assoc|]. split; [done|].
  exists k. split; [done|]. unfold handleClose, removeConnection. rewrite Hk. cbn [alive show set_state with_objects].
  by rewrite Hal.
Qed.
End Detailed.

(** ** The life of a connection *)

Definition about (c : nat) (f : Functor) : bool :=
  match f with FEstablish d | FDestroy d | FRemove d => c =? d | FListen => false end.
Definition shows (c : nat) (v : Visible) : bool := match v with Up d | Down d | Removed d => c =? d end.

(** The functors of loop [l], and the visible events, that are about [c]. *)
Definition pending (s : TcpServer) (c l : nat) : list Functor := List.filter (about c) (queues s l).
Definition history (s : TcpServer) (c : nat) : list Visible := List.filter (shows c) (visible s).

Inductive Phase := Fresh | Open | Closing | Doomed | Gone.

Definition phase_state (p : Phase) (st : StateE) : Prop :=
  match p with
  | Fresh => st = kConnecting
  | Open => st = kConnected ∨ st = kDisconnecting
  | _ => st = kDisconnected
  end.
Definition phase_pending (p : Phase) (k : Connection) (c l : nat) : list Functor :=
  match p with
  | Fresh => if l =? cloop k then [FEstablish c] else []
  | Closing => if l =? 0 then [FRemove c] else []
  | Doomed => if l =? cloop k then [FDestroy c] else []
  | _ => []
  end.
Definition phase_history (p : Phase) (c : nat) : list Visible :=
  match p with
  | Fresh => []
  | Open => [Up c]
  | Closing | Doomed => [Up c; Down c]
  | Gone => [Up c; Down c; Removed c]
  end.
Definition in_table (p : Phase) : Prop := match p with Fresh | Open | Closing => True | _ => False end.

(** Connection [c] is in phase [p]: its state, the functors that wait, what
    has been seen of it, and whether the table has it, all agree. *)
Record conn_inv (s : TcpServer) (c : nat) (k : Connection) (p : Phase) : Prop := {
  inv_state : phase_state p (cstate k);
  inv_pending : ∀ l, pending s c l = phase_pending p k c l;
  inv_history : history s c = phase_history p c;
  inv_table : ∀ n, connections_ s !! n = Some c ↔ in_table p ∧ n = cname k
}.

(** A step that is about [c] only. *)
Record touches (c : nat) (s s' : TcpServer) : Prop := {
  touch_objects : ∀ d, d ≠ c → objects s' !! d = objects s !! d;
  touch_pending : ∀ d l, d ≠ c → pending s' d l = pending s d l;
  touch_history : ∀ d, d ≠ c → history s' d = history s d;
  touch_table : ∀ d n, d ≠ c → connections_ s' !! n = Some d ↔ connections_ s !! n = Some d;
  touch_inv : ∀ d, d ≠ c → ∀ k p, conn_inv s d k p → conn_inv s' d k p
}.

Lemma touches_intro c s s' :
  (∀ d, d ≠ c → objects s' !! d = objects s !! d) →
  (∀ d l, d ≠ c → pending s' d l = pending s d l) →
  (∀ d, d ≠ c → history s' d = history s d) →
  (∀ d n, d ≠ c → connections_ s' !! n = Some d ↔ connections_ s !! n = Some d) → touches c s s'.
Proof.
  intros H1 H2 H3 H4. split; try done. intros d Hd k p [A B C D].
  split; [done|intros l; by rewrite H2|by rewrite H3|intros n; by rewrite H4].
Qed.

Lemma touches_refl c s : touches c s s.
Proof. by apply touches_intro. Qed.

Lemma touches_trans c s s1 s2 : touches c s s1 → touches c s1 s2 → touches c s s2.
Proof.
  intros [A1 A2 A3 A4 _] [B1 B2 B3 B4 _]. apply touches_intro; intros d *.
  - intros Hd. by rewrite B1, A1.
  - intros Hd. by rewrite B2, A2.
  - intros Hd. by rewrite B3, A3.
  - intros Hd. by rewrite B4, A4.
Qed.

Lemma about_self_or c d f : d ≠ c → about c f = true → about d f = false.
Proof. intros Hd. destruct f; cbn; try done; intros ->%Nat.eqb_eq; by apply Nat.eqb_neq. Qed.

Lemma shows_other c d v : d ≠ c → shows c v = true → shows d v = false.
Proof. intros Hd. destruct v; cbn; intros ->%Nat.eqb_eq; by apply Nat.eqb_neq. Qed.

Lemma pending_queue s l f d i :
  pending (queueInLoop s l f) d i = pending s d i ++ (if (i =? l) && about d f then [f] else []).
Proof.
  unfold pending, queueInLoop. cbn. destruct (i =? l); cbn; [|by rewrite app_nil_r].
  rewrite List.filter_app. cbn. by destruct (about d f).
Qed.

Lemma history_show s vs d : history (show s vs) d = history s d ++ List.filter (shows d) vs.
Proof. unfold history, show. cbn. by rewrite List.filter_app. Qed.

Lemma touches_set_state c s st : touches c s (set_state s c st).
Proof. apply touches_intro; try done. intros d Hd. cbn. by rewrite lookup_alter_ne. Qed.

Lemma touches_show c s vs : Forall (λ v, shows c v = true) vs → touches c s (show s vs).
Proof.
  intros Hvs. apply touches_intro; try done. intros d Hd. rewrite history_show.
  replace (List.filter (shows d) vs) with (@nil Visible); [by rewrite app_nil_r|].
  induction Hvs as [|v vs Hv Hvs IH]; [done|]. cbn. by rewrite (shows_other c d v Hd Hv).
Qed.

Lemma touches_queue c s l f : about c f = true → touches c s (queueInLoop s l f).
Proof.
  intros Hf. apply touches_intro; try done. intros d i Hd. rewrite pending_queue, (about_self_or c d f Hd Hf), andb_false_r.
  by rewrite app_nil_r.
Qed.

Lemma touches_delete c s n :
  (connections_ s !! n = Some c ∨ connections_ s !! n = None) → touches c s (with_table s (delete n (connections_ s))).
Proof.
  intros Hn. apply touches_intro; try done. intros d m Hd. cbn. destruct (decide (m = n)) as [->|Hne].
  - rewrite lookup_delete_eq. destruct Hn as [-> | ->]; naive_solver.
  - by rewrite lookup_delete_ne.
Qed.

(** The queue of loop [l] after its first functor is taken. *)
Definition pop (s : TcpServer) (l : nat) (fs : list Functor) : TcpServer :=
  with_queues s (λ i, if i =? l then fs else queues s i).

Lemma pending_pop s l f fs d i :
  queues s l = f :: fs →
  pending s d i = (if (i =? l) && about d f then [f] else []) ++ pending (pop s l fs) d i.
Proof.
  intros Hq. unfold pending, pop. cbn. destruct (Nat.eqb_spec i l) as [->|Hne]; [|done].
  rewrite Hq. cbn. by destruct (about d f).
Qed.

Lemma touches_pop c s l f fs : queues s l = f :: fs → about c f = true → touches c s (pop s l fs).
Proof.
  intros Hq Hf. apply touches_intro; try done. intros d i Hd.
  rewrite (pending_pop s l f fs d i Hq), (about_self_or c d f Hd Hf), andb_false_r. done.
Qed.

(** The steps on one connection leave the server's own fields alone. *)
Record same_server (s s' : TcpServer) : Prop := {
  same_ip : ipPort_ s' = ipPort_ s;
  same_name : name_ s' = name_ s;
  same_next : nextConnId_ s' = nextConnId_ s;
  same_alive : alive s' = alive s;
  same_dangling : dangling s' = dangling s;
  same_pool : threadPool_ s' = threadPool_ s;
  same_size : size (objects s') = size (objects s)
}.

Lemma same_server_trans s s1 s2 : same_server s s1 → same_server s1 s2 → same_server s s2.
Proof. intros [] []. split; congruence. Qed.

Lemma size_alter_conn (m : gmap nat Connection) f c : size (alter f c m) = size m.
Proof. rewrite <-!size_dom, dom_alter_L. done. Qed.

(** A step that takes connection [c] from one phase to another. *)
Definition moves (s s' : TcpServer) (c : nat) : Prop :=
  touches c s s' ∧ same_server s s' ∧
  ∃ k k' p, objects s !! c = Some k ∧ objects s' !! c = Some k' ∧ cname k' = cname k ∧ cloop k' = cloop k ∧
            conn_inv s' c k' p.

Definition with_cstate (k : Connection) (st : StateE) : Connection := mkConnection (cname k) (cloop k) st.

Lemma set_state_lookup s c k st : objects s !! c = Some k → objects (set_state s c st) !! c = Some (with_cstate k st).
Proof. intros Hk. cbn. by rewrite lookup_alter_eq, Hk. Qed.

Lemma same_set_state s c st : same_server s (set_state s c st).
Proof. split; try done. cbn. apply size_alter_conn. Qed.

(** At most one functor about [c] is pending anywhere. *)
Lemma pop_empties s l f fs c k p :
  conn_inv s c k p → queues s l = f :: fs → about c f = true →
  phase_pending p k c l = [f] ∧ ∀ i, pending (pop s l fs) c i = [].
Proof.
  intros [_ Hp _ _] Hq Hf.
  assert (H : ∀ i, phase_pending p k c i = (if i =? l then [f] else []) ++ pending (pop s l fs) c i).
  { intros i. rewrite <-Hp, (pending_pop s l f fs c i Hq), Hf, andb_true_r. done. }
  assert (Hl : phase_pending p k c l = [f] ∧ pending (pop s l fs) c l = []).
  { specialize (H l). rewrite Nat.eqb_refl in H. clear Hp. generalize dependent (pending (pop s l fs) c l).
    intros rest H. cbn [List.app] in H. destruct p; cbn [phase_pending] in *; repeat case_match; by simplify_eq. }
  split; [apply Hl|]. intros i. destruct (decide (i = l)) as [->|Hne]; [apply Hl|].
  specialize (H i). rewrite (proj2 (Nat.eqb_neq i l) Hne) in H. cbn [List.app] in H. rewrite <-H. destruct Hl as [Hl _].
  clear H. destruct p; cbn [phase_pending] in *; try done.
  - destruct (Nat.eqb_spec i (cloop k)), (Nat.eqb_spec l (cloop k)); congruence.
  - destruct (Nat.eqb_spec i 0), (Nat.eqb_spec l 0); congruence.
  - destruct (Nat.eqb_spec i (cloop k)), (Nat.eqb_spec l (cloop k)); congruence.
Qed.

Lemma establish_moves s l fs c k p :
  queues s l = FEstablish c :: fs → objects s !! c = Some k → conn_inv s c k p →
  moves s (run_functor (pop s l fs) (FEstablish c)) c.
Proof.
  intros Hq Hk Hinv. assert (Ha : about c (FEstablish c) = true) by apply Nat.eqb_refl.
  destruct (pop_empties s l _ fs c k p Hinv Hq Ha) as [Hpl Hempty].
  assert (p = Fresh) as -> by (destruct p; cbn in Hpl; repeat case_match; by simplify_eq).
  destruct Hinv as [_ _ Hh Ht]. cbn [run_functor]. unfold connectEstablished. split; [|split].
  - eapply touches_trans; [by eapply touches_pop|].
    eapply touches_trans; [apply touches_set_state|]. apply touches_show. repeat constructor. apply Nat.eqb_refl.
  - split; try done. cbn. apply size_alter_conn.
  - exists k, (with_cstate k kConnected), Open. split; [done|].
    split; [exact (set_state_lookup (pop s l fs) c k kConnected Hk)|]. split_and!; [done|done|]. split.
    + by left.
    + exact Hempty.
    + rewrite history_show. change (history (set_state (pop s l fs) c kConnected) c) with (history s c).
      rewrite Hh. cbn. by rewrite Nat.eqb_refl.
    + exact Ht.
Qed.

Lemma remove_moves s l fs c k p :
  queues s l = FRemove c :: fs → objects s !! c = Some k → conn_inv s c k p →
  moves s (run_functor (pop s l fs) (FRemove c)) c.
Proof.
  intros Hq Hk Hinv. assert (Ha : about c (FRemove c) = true) by apply Nat.eqb_refl.
  destruct (pop_empties s l _ fs c k p Hinv Hq Ha) as [Hpl Hempty].
  assert (p = Closing) as -> by (destruct p; cbn in Hpl; repeat case_match; by simplify_eq).
  destruct Hinv as [Hst _ Hh Ht]. cbn in Hst. cbn [run_functor]. unfold removeConnectionInLoop.
  change (objects (pop s l fs) !! c) with (objects s !! c). rewrite Hk. split; [|split].
  - eapply touches_trans; [by eapply touches_pop|].
    eapply touches_trans; [apply (touches_delete c (pop s l fs) (cname k)); left; by apply Ht|].
    apply touches_queue. apply Nat.eqb_refl.
  - by split.
  - exists k, k, Doomed. split_and!; try done. split.
    + done.
    + intros i. rewrite pending_queue.
      change (pending (with_table (pop s l fs) (delete (cname k) (connections_ (pop s l fs)))) c i)
        with (pending (pop s l fs) c i). rewrite Hempty. cbn. rewrite Nat.eqb_refl. by rewrite andb_true_r.
    + exact Hh.
    + intros n. cbn. split; [|tauto]. intros Hn. destruct (decide (n = cname k)) as [->|Hne];
        [by rewrite lookup_delete_eq in Hn|]. rewrite lookup_delete_ne in Hn by done. apply Ht in Hn. tauto.
Qed.

Lemma destroy_moves s l fs c k p :
  queues s l = FDestroy c :: fs → objects s !! c = Some k → conn_inv s c k p →
  moves s (run_functor (pop s l fs) (FDestroy c)) c.
Proof.
  intros Hq Hk Hinv. assert (Ha : about c (FDestroy c) = true) by apply Nat.eqb_refl.
  destruct (pop_empties s l _ fs c k p Hinv Hq Ha) as [Hpl Hempty].
  assert (p = Doomed) as -> by (destruct p; cbn in Hpl; repeat case_match; by simplify_eq).
  destruct Hinv as [Hst _ Hh Ht]. cbn in Hst. cbn [run_functor]. unfold connectDestroyed.
  change (objects (pop s l fs) !! c) with (objects s !! c). rewrite Hk, bool_decide_false by congruence.
  split; [|split].
  - eapply touches_trans; [by eapply touches_pop|]. apply touches_show. repeat constructor. apply Nat.eqb_refl.
  - by split.
  - exists k, k, Gone. split_and!; try done. split; [done|exact Hempty| |exact Ht].
    rewrite history_show. change (history (pop s l fs) c) with (history s c). rewrite Hh. cbn. by rewrite Nat.eqb_refl.
Qed.

(** The peer closes: the removal is queued, or done at once when the
    connection belongs to the base loop. *)
Lemma close_moves s c k :
  objects s !! c = Some k → alive s = true → conn_inv s c k Open → moves s (handleClose s c) c.
Proof.
  intros Hk Hal [Hst Hp Hh Ht]. unfold handleClose. rewrite Hk. unfold removeConnection.
  set (s1 := show (set_state s c kDisconnected) [Down c]). change (alive s1) with (alive s). rewrite Hal.
  assert (Ho1 : objects s1 !! c = Some (with_cstate k kDisconnected)) by exact (set_state_lookup s c k kDisconnected Hk).
  assert (Ht1 : touches c s s1).
  { eapply touches_trans; [apply touches_set_state|]. apply touches_show. repeat constructor. apply Nat.eqb_refl. }
  assert (Hs1 : same_server s s1) by (split; try done; cbn; apply size_alter_conn).
  assert (Hh1 : history s1 c = [Up c; Down c]).
  { unfold s1. rewrite history_show. change (history (set_state s c kDisconnected) c) with (history s c).
    rewrite Hh. cbn. by rewrite Nat.eqb_refl. }
  unfold runInLoop. destruct (Nat.eqb_spec (cloop k) 0) as [E|E].
  - cbn [run_functor]. unfold removeConnectionInLoop. rewrite Ho1. split; [|split].
    + eapply touches_trans; [exact Ht1|].
      eapply touches_trans; [apply (touches_delete c s1 (cname k)); left; by apply Ht|].
      apply touches_queue. apply Nat.eqb_refl.
    + eapply same_server_trans; [exact Hs1|by split].
    + exists k, (with_cstate k kDisconnected), Doomed. split_and!; try done. split; [done| |exact Hh1|].
      * intros i. rewrite pending_queue. change (pending (with_table s1 _) c i) with (pending s c i). rewrite Hp. cbn.
        by rewrite Nat.eqb_refl, andb_true_r.
      * intros n. cbn. split; [|tauto]. intros Hn. destruct (decide (n = cname k)) as [->|Hne];
          [by rewrite lookup_delete_eq in Hn|]. rewrite lookup_delete_ne in Hn by done. apply Ht in Hn. tauto.
  - split; [|split].
    + eapply touches_trans; [exact Ht1|]. apply touches_queue. apply Nat.eqb_refl.
    + eapply same_server_trans; [exact Hs1|by split].
    + exists k, (with_cstate k kDisconnected), Closing. split_and!; try done. split; [done| |exact Hh1|exact Ht].
      intros i. rewrite pending_queue. change (pending s1 c i) with (pending s c i). rewrite Hp. cbn.
      by rewrite Nat.eqb_refl, andb_true_r.
Qed.

Lemma shutdown_moves s c k :
  objects s !! c = Some k → cstate k = kConnected → conn_inv s c k Open → moves s (set_state s c kDisconnecting) c.
Proof.
  intros Hk Hst [_ Hp Hh Ht]. split; [apply touches_set_state|].
  split; [split; try done; cbn; apply size_alter_conn|].
  exists k, (with_cstate k kDisconnecting), Open. split; [done|]. split; [by apply set_state_lookup|].
  split_and!; [done|done|]. split; [by right|done|done|done].
Qed.

(** ** All connections at once *)

(** [connName] as a function of the server's constants. *)
Definition conn_name (name ipPort : str) (connId : Z) : str := name ++ take 63 (#"-" ++ ipPort ++ #"#" ++ to_string connId).

Record server_inv (s : TcpServer) : Prop := {
  sinv_alive : alive s = true ∧ dangling s = false;
  sinv_objects : ∀ c, is_Some (objects s !! c) ↔ c < size (objects s);
  sinv_next : nextConnId_ s = (Z.of_nat (size (objects s)) + 1)%Z;
  sinv_names : ∀ c k, objects s !! c = Some k → cname k = conn_name (name_ s) (ipPort_ s) (Z.of_nat c + 1);
  sinv_conns : ∀ c k, objects s !! c = Some k → ∃ p, conn_inv s c k p;
  sinv_unborn : ∀ c, size (objects s) ≤ c →
    (∀ l, pending s c l = []) ∧ history s c = [] ∧ ∀ n, connections_ s !! n ≠ Some c;
  sinv_ip : length (ipPort_ s) ≤ 40
}.

Lemma moves_inv s s' c : server_inv s → moves s s' c → server_inv s'.
Proof.
  intros [H1 H2 H3 H4 H5 H6 H7] (Ht & Hs & k & k' & p & Hk & Hk' & Hn & Hl & Hinv).
  pose proof Ht as [T1 T2 T3 T4 T5]. destruct Hs as [S1 S2 S3 S4 S5 S6 S7].
  assert (Hc : c < size (objects s)) by (apply H2; eauto).
  assert (Hobj : ∀ d, is_Some (objects s' !! d) ↔ is_Some (objects s !! d)).
  { intros d. destruct (decide (d = c)) as [->|Hd]; [rewrite Hk, Hk'; naive_solver|by rewrite T1]. }
  split.
  - by rewrite S4, S5.
  - intros d. by rewrite Hobj, S7.
  - by rewrite S3, S7.
  - intros d kd Hd. rewrite S1, S2. destruct (decide (d = c)) as [->|Hne]; [simplify_eq; rewrite Hn; by apply H4|].
    rewrite T1 in Hd by done. by apply H4.
  - intros d kd Hd. destruct (decide (d = c)) as [->|Hne]; [simplify_eq; eauto|].
    rewrite T1 in Hd by done. destruct (H5 d kd Hd) as [q Hq]. exists q. by apply T5.
  - intros d Hd. rewrite S7 in Hd. assert (d ≠ c) by lia. destruct (H6 d Hd) as (U1 & U2 & U3). split_and!.
    + intros l. by rewrite T2.
    + by rewrite T3.
    + intros n. rewrite T4 by done. apply U3.
  - by rewrite S1.
Qed.

Lemma conn_name_inj name ip n m :
  length ip ≤ 40 → (0 ≤ n < 2 ^ 31)%Z → (0 ≤ m < 2 ^ 31)%Z → conn_name name ip n = conn_name name ip m → n = m.
Proof.
  intros Hip Hn Hm. unfold conn_name, to_string. rewrite !(proj2 (Z.ltb_ge _ _)) by lia. intros H%app_inv_head.
  pose proof (to_dec_length n 9 ltac:(lia)). pose proof (to_dec_length m 9 ltac:(lia)).
  rewrite !take_ge in H by (rewrite !length_app; change (length (#"-")) with 1; change (length (#"#")) with 1; lia).
  apply app_inv_head, app_inv_head, app_inv_head in H. apply to_dec_inj; [lia|lia|done].
Qed.

Lemma touches_new s c nm l pool nid :
  size (objects s) = c → (∀ d k, objects s !! d = Some k → connections_ s !! nm ≠ Some d) →
  (∀ d, c ≤ d → connections_ s !! nm ≠ Some d) → (∀ d, is_Some (objects s !! d) ↔ d < size (objects s)) →
  touches c s (mkServer (ipPort_ s) (name_ s) pool nid (started_ s) (listenning_ s)
     (<[nm := c]> (connections_ s)) (<[c := mkConnection nm l kConnecting]> (objects s))
     (queues s) (visible s) (alive s) (dangling s)).
Proof.
  intros Hc Hn1 Hn2 Hdom. apply touches_intro; try done.
  - intros d Hd. cbn. by rewrite lookup_insert_ne.
  - intros d n Hd. cbn. destruct (decide (n = nm)) as [->|Hne]; [|by rewrite lookup_insert_ne].
    rewrite lookup_insert_eq. split; [naive_solver|]. intros Hl. exfalso.
    destruct (decide (d < size (objects s))) as [Hlt|Hge]; [|by apply (Hn2 d); [lia|]].
    apply Hdom in Hlt as [k Hk]. by apply (Hn1 d k).
Qed.

(** The new connection is fresh when its loop has yet to establish it, and
    open when that is the base loop. *)
Lemma newConnection_spec s :
  server_inv s → (Z.of_nat (size (objects s)) + 2 < 2 ^ 31)%Z →
  let c := size (objects s) in
  touches c s (newConnection s) ∧
  (∃ k p, objects (newConnection s) !! c = Some k ∧ conn_inv (newConnection s) c k p ∧
          cname k = conn_name (name_ s) (ipPort_ s) (Z.of_nat c + 1)) ∧
  size (objects (newConnection s)) = S c ∧ nextConnId_ (newConnection s) = (Z.of_nat c + 2)%Z ∧
  ipPort_ (newConnection s) = ipPort_ s ∧ name_ (newConnection s) = name_ s ∧
  alive (newConnection s) = alive s ∧ dangling (newConnection s) = dangling s.
Proof.
  intros [H1 H2 H3 H4 H5 H6 H7] Hsz c. unfold newConnection. destruct (getNextLoop (threadPool_ s)) as [l pool].
  fold c. set (nm := connName s (nextConnId_ s)).
  assert (Hnm : nm = conn_name (name_ s) (ipPort_ s) (Z.of_nat c + 1)) by (unfold nm, connName, conn_name; by rewrite H3).
  assert (Hnone : objects s !! c = None).
  { apply eq_None_not_Some. intros H%H2. unfold c in H. lia. }
  set (s1 := mkServer _ _ _ _ _ _ _ _ _ _ _ _).
  assert (Ht1 : touches c s s1).
  { apply touches_new; [done| | |done].
    - intros d k Hd E. destruct (H5 d k Hd) as [p Hp].
      apply (inv_table _ _ _ _ Hp) in E. destruct E as [_ E].
      assert (d < c) by (apply H2; eauto). rewrite (H4 d k Hd), Hnm in E. apply conn_name_inj in E; lia.
    - intros d Hd. by apply H6. }
  assert (Hsize : size (objects s1) = S c) by (cbn; by rewrite map_size_insert_None).
  assert (Hnext : nextConnId_ s1 = (Z.of_nat c + 2)%Z).
  { cbn. rewrite H3. fold c. unfold i32. rewrite Z.mod_small by lia. lia. }
  destruct (H6 c ltac:(done)) as (U1 & U2 & U3).
  assert (Hp1 : ∀ i, pending s1 c i = []) by exact U1.
  assert (Hh1 : history s1 c = []) by exact U2.
  assert (Hk1 : objects s1 !! c = Some (mkConnection nm l kConnecting)) by (cbn; by rewrite lookup_insert_eq).
  assert (Htab : ∀ n, connections_ s1 !! n = Some c ↔ n = nm).
  { intros n. cbn. destruct (decide (n = nm)) as [->|Hne]; [by rewrite lookup_insert_eq|].
    rewrite lookup_insert_ne by done. split; [intros E; by apply U3 in E|done]. }
  unfold runInLoop. destruct (Nat.eqb_spec 0 l) as [<-|Hl].
  - cbn [run_functor]. unfold connectEstablished. split_and!; try done.
    + eapply touches_trans; [exact Ht1|]. eapply touches_trans; [apply touches_set_state|].
      apply touches_show. repeat constructor. apply Nat.eqb_refl.
    + exists (with_cstate (mkConnection nm 0 kConnecting) kConnected), Open.
      split; [exact (set_state_lookup s1 c _ kConnected Hk1)|]. split; [|exact Hnm]. split.
      * by left.
      * exact Hp1.
      * rewrite history_show. change (history (set_state s1 c kConnected) c) with (history s1 c). rewrite Hh1. cbn.
        by rewrite Nat.eqb_refl.
      * intros n. pose proof (Htab n). cbn [in_table cname with_cstate]. tauto.
    + cbn [show objects set_state with_objects]. by rewrite size_alter_conn.
  - split_and!; try done.
    + eapply touches_trans; [exact Ht1|]. apply touches_queue. apply Nat.eqb_refl.
    + exists (mkConnection nm l kConnecting), Fresh. split; [done|]. split; [|exact Hnm]. split.
      * done.
      * intros i. rewrite pending_queue, Hp1. cbn. by rewrite Nat.eqb_refl, andb_true_r.
      * exact Hh1.
      * intros n. pose proof (Htab n). cbn [in_table cname]. tauto.
Qed.

Lemma newConnection_inv s :
  server_inv s → (Z.of_nat (size (objects s)) + 2 < 2 ^ 31)%Z → server_inv (newConnection s).
Proof.
  intros Hinv Hsz. destruct (newConnection_spec s Hinv Hsz) as (Ht & (k & p & Hk & Hci & Hn) & E1 & E2 & E3 & E4 & E5 & E6).
  destruct Hinv as [H1 H2 H3 H4 H5 H6 H7]. destruct Ht as [T1 T2 T3 T4 T5]. set (c := size (objects s)) in *.
  assert (Hdom : ∀ d, is_Some (objects (newConnection s) !! d) ↔ d < S c).
  { intros d. destruct (decide (d = c)) as [->|Hd]; [rewrite Hk; split; [lia|eauto]|]. rewrite T1 by done. rewrite H2. lia. }
  split.
  - by rewrite E5, E6.
  - intros d. rewrite E1. apply Hdom.
  - rewrite E2, E1. lia.
  - intros d kd Hd. rewrite E3, E4. destruct (decide (d = c)) as [->|Hne]; [by simplify_eq|].
    rewrite T1 in Hd by done. by apply H4.
  - intros d kd Hd. destruct (decide (d = c)) as [->|Hne]; [simplify_eq; eauto|].
    rewrite T1 in Hd by done. destruct (H5 d kd Hd) as [q Hq]. exists q. by apply T5.
  - intros d Hd. rewrite E1 in Hd. assert (d ≠ c) by lia. destruct (H6 d ltac:(lia)) as (U1 & U2 & U3). split_and!.
    + intros l. by rewrite T2.
    + by rewrite T3.
    + intros n. rewrite T4 by done. apply U3.
  - by rewrite E3.
Qed.

(** Steps about no connection at all. *)
Lemma idle_inv s s' :
  server_inv s → same_server s s' → objects s' = objects s → connections_ s' = connections_ s →
  (∀ c l, pending s' c l = pending s c l) → (∀ c, history s' c = history s c) → server_inv s'.
Proof.
  intros [H1 H2 H3 H4 H5 H6 H7] [S1 S2 S3 S4 S5 S6 S7] Eo Ec Ep Eh. split; rewrite ?S1, ?S2, ?S3, ?S4, ?S5, ?Eo, ?Ec; try done.
  - intros c k Hk. destruct (H5 c k Hk) as [p [A B C D]]. exists p.
    split; [done|intros l; by rewrite Ep|by rewrite Eh|intros n; by rewrite Ec].
  - intros c Hc. rewrite Eh. setoid_rewrite Ep. auto.
Qed.

Lemma enabled_open s c :
  server_inv s → enabled s c = true → ∃ k, objects s !! c = Some k ∧ conn_inv s c k Open.
Proof.
  intros Hinv. unfold enabled. destruct (objects s !! c) as [k|] eqn:Hk; [|done]. intros Hst%bool_decide_eq_true.
  exists k. split; [done|]. destruct (sinv_conns s Hinv c k Hk) as [p Hp]. pose proof (inv_state _ _ _ _ Hp) as Hps.
  destruct p; cbn in Hps; [destruct Hst; congruence|done|destruct Hst; congruence..].
Qed.

Lemma head_exists s l f fs c :
  server_inv s → queues s l = f :: fs → about c f = true → ∃ k p, objects s !! c = Some k ∧ conn_inv s c k p.
Proof.
  intros Hinv Hq Hf. destruct (objects s !! c) as [k|] eqn:Hk.
  - destruct (sinv_conns s Hinv c k Hk) as [p Hp]. eauto.
  - assert (Hc : size (objects s) ≤ c).
    { destruct (le_lt_dec (size (objects s)) c) as [|Hlt]; [done|]. apply (sinv_objects s Hinv) in Hlt as [? ?]. congruence. }
    destruct (sinv_unborn s Hinv c Hc) as (Hp & _). specialize (Hp l). unfold pending in Hp. rewrite Hq in Hp. cbn in Hp.
    by rewrite Hf in Hp.
Qed.

(** Every step accepts a connection, is about one connection, or about none. *)
Lemma act_cases s a s' :
  server_inv s → act s a = Some s' →
  s' = newConnection s ∨ (∃ c, moves s s' c) ∨
  (same_server s s' ∧ objects s' = objects s ∧ connections_ s' = connections_ s ∧
   (∀ c l, pending s' c l = pending s c l) ∧ ∀ c, history s' c = history s c).
Proof.
  intros Hinv. destruct a as [fd|l|c|c]; cbn [act].
  - destruct (listenning_ s && alive s); [|done]. intros [= <-]. unfold acceptor_handleRead.
    destruct (0 <=? fd)%Z; [by left|right; right; by split_and!].
  - destruct (queues s l) as [|f fs] eqn:Hq; [done|]. intros [= <-]. fold (pop s l fs). right.
    assert (Hmove : ∀ c, about c f = true → ∃ c, moves s (run_functor (pop s l fs) f) c).
    { intros c Hf. exists c. destruct (head_exists s l f fs c Hinv Hq Hf) as (k & p & Hk & Hci).
      destruct f as [d|d|d|]; cbn in Hf; [..|done]; apply Nat.eqb_eq in Hf as ->.
      - by eapply establish_moves.
      - by eapply destroy_moves.
      - by eapply remove_moves. }
    destruct f as [d|d|d|]; [left; apply (Hmove d), Nat.eqb_refl..|right]. split_and!; try done.
    intros c i. pose proof (pending_pop s l FListen fs c i Hq) as E. rewrite andb_false_r in E. by rewrite E.
  - destruct (enabled s c) eqn:He; [|done]. destruct (enabled_open s c Hinv He) as (k & Hk & Hci). rewrite Hk.
    intros [= <-]. right. case_bool_decide as Hst; [left|right; by split_and!]. exists c. by eapply shutdown_moves.
  - destruct (enabled s c) eqn:He; [|done]. destruct (enabled_open s c Hinv He) as (k & Hk & Hci).
    intros [= <-]. right; left. exists c. apply (close_moves s c k); [done|apply Hinv|done].
Qed.

Lemma server_act_inv s a s' :
  server_inv s → (Z.of_nat (size (objects s)) + 2 < 2 ^ 31)%Z → act s a = Some s' →
  server_inv s' ∧ size (objects s') ≤ S (size (objects s)).
Proof.
  intros Hinv Hsz E. destruct (act_cases s a s' Hinv E) as [->|[[c Hc]|(Hs & Ho & Hc & Hp & Hh)]].
  - split; [by apply newConnection_inv|]. destruct (newConnection_spec s Hinv Hsz) as (_ & _ & -> & _). lia.
  - split; [by eapply moves_inv|]. destruct Hc as (_ & [] & _). lia.
  - split; [by apply (idle_inv s)|]. rewrite Ho. lia.
Qed.

Lemma server_run_inv s acts s' :
  server_inv s → (Z.of_nat (size (objects s) + length acts) + 2 < 2 ^ 31)%Z → run s acts = Some s' → server_inv s'.
Proof.
  revert s. induction acts as [|a acts IH]; intros s Hinv Hsz; cbn [run]; [by intros [= <-]|].
  destruct (act s a) as [s1|] eqn:E; [|done]. cbn. destruct (server_act_inv s a s1 Hinv ltac:(lia) E) as [Hinv1 Hle].
  apply IH; [done|]. cbn [length] in Hsz. lia.
Qed.

(** A started server. *)
Definition started (ipPort name : str) (threads : nat) : TcpServer := start (setThreadNum (TcpServer_new ipPort name) threads).

Lemma started_inv ipPort name threads : length ipPort ≤ 40 → server_inv (started ipPort name threads).
Proof.
  intros Hip. split; try done.
  - intros c. cbn. rewrite lookup_empty. rewrite map_size_empty. split; [by intros [? ?]|lia].
Qed.

Section Started.
Context (ipPort name : str) (threads : nat) (Hip : length ipPort ≤ 40).

(** C9: the life of a connection.  However the base loop, the pool's loops and
    the peers interleave, the connection callback of a connection is called at
    most once with the connection up and then at most once with it down, the
    channel leaves the poller after that and once, and the server's table has
    the connection under its own name exactly until its removal has been done
    in the base loop.  Each connection has at most one functor pending, in the
    right loop. *)
Theorem connection_life (acts : list Act) (s : TcpServer)
    (Hfew : (Z.of_nat (length acts) + 2 < 2 ^ 31)%Z) (Hrun : run (started ipPort name threads) acts = Some s) :
  ∀ c k, objects s !! c = Some k → ∃ p,
    history s c = phase_history p c ∧ phase_state p (cstate k) ∧
    (∀ l, pending s c l = phase_pending p k c l) ∧
    (∀ n, connections_ s !! n = Some c ↔ in_table p ∧ n = cname k).
Proof.
  intros c k Hk. pose proof (server_run_inv _ acts s (started_inv ipPort name threads Hip) Hfew Hrun) as Hinv.
  destruct (sinv_conns s Hinv c k Hk) as [p [A B C D]]. by exists p.
Qed.

(** Nothing is forgotten.  When every loop has run its functors, the table
    holds exactly the connections that are still open, and every other
    connection has been up, down and removed from its poller. *)
Theorem quiescent_table (acts : list Act) (s : TcpServer)
    (Hfew : (Z.of_nat (length acts) + 2 < 2 ^ 31)%Z) (Hrun : run (started ipPort name threads) acts = Some s)
    (Hquiet : ∀ l, queues s l = []) :
  (∀ n c, connections_ s !! n = Some c ↔ ∃ k, objects s !! c = Some k ∧ cname k = n ∧ enabled s c = true) ∧
  (∀ c k, objects s !! c = Some k → enabled s c = false → history s c = [Up c; Down c; Removed c]).
Proof.
  pose proof (server_run_inv _ acts s (started_inv ipPort name threads Hip) Hfew Hrun) as Hinv.
  assert (Hph : ∀ c k, objects s !! c = Some k → conn_inv s c k Open ∨ conn_inv s c k Gone).
  { intros c k Hk. destruct (sinv_conns s Hinv c k Hk) as [p Hp]. pose proof (inv_pending _ _ _ _ Hp) as Hpend.
    assert (Hn : ∀ l, phase_pending p k c l = []) by (intros l; rewrite <-Hpend; unfold pending; by rewrite Hquiet).
    destruct p; [specialize (Hn (cloop k))|by left|specialize (Hn 0)|specialize (Hn (cloop k))|by right];
      cbn in Hn; by rewrite ?Nat.eqb_refl in Hn. }
  assert (Hen : ∀ c k, objects s !! c = Some k → conn_inv s c k Open → enabled s c = true).
  { intros c k Hk Hp. unfold enabled. rewrite Hk. apply bool_decide_eq_true. exact (inv_state _ _ _ _ Hp). }
  split.
  - intros n c. split.
    + intros Hn. destruct (objects s !! c) as [k|] eqn:Hk.
      * exists k. destruct (Hph c k Hk) as [Hp|Hp]; apply (inv_table _ _ _ _ Hp) in Hn; destruct Hn as [Ht Hn']; [|done].
        split_and!; [done|done|by eapply Hen].
      * assert (size (objects s) ≤ c).
        { destruct (le_lt_dec (size (objects s)) c) as [|Hlt]; [done|].
          apply (sinv_objects s Hinv) in Hlt as [? ?]. congruence. }
        exfalso. eapply (proj2 (proj2 (sinv_unborn s Hinv c ltac:(done)))), Hn.
    + intros (k & Hk & <- & He). destruct (enabled_open s c Hinv He) as (k' & Hk' & Hp). simplify_eq.
      by apply (inv_table _ _ _ _ Hp).
  - intros c k Hk He. destruct (Hph c k Hk) as [Hp|Hp]; [rewrite (Hen c k Hk Hp) in He; done|].
    exact (inv_history _ _ _ _ Hp).
Qed.
End Started.

(** ** The pool shares the connections out *)

Definition loop_of (threads c : nat) : nat := if threads =? 0 then 0 else S (c mod threads).

Record pool_inv (threads : nat) (s : TcpServer) : Prop := {
  pinv_loops : loops_ (threadPool_ s) = seq 1 threads;
  pinv_next : 0 < threads → next_ (threadPool_ s) = size (objects s) mod threads;
  pinv_conns : ∀ c k, objects s !! c = Some k → cloop k = loop_of threads c
}.

Lemma getNextLoop_rotates threads p n :
  loops_ p = seq 1 threads → (0 < threads → next_ p = n mod threads) →
  (getNextLoop p).1 = loop_of threads n ∧ loops_ (getNextLoop p).2 = seq 1 threads ∧
  (0 < threads → next_ (getNextLoop p).2 = S n mod threads).
Proof.
  intros Hl Hn. unfold getNextLoop, loop_of. rewrite Hl. destruct threads as [|t]; [cbn; split_and!; [done|done|lia]|].
  specialize (Hn ltac:(lia)). cbn [seq]. change (1 :: seq 2 t) with (seq 1 (S t)). cbn [Nat.eqb fst snd].
  pose proof (Nat.mod_upper_bound n (S t) ltac:(lia)) as Hlt. rewrite length_seq, Hn, seq_nth by lia.
  split; [done|]. split; [done|]. intros _. cbn [next_].
  destruct (S t <=? S (n mod S t)) eqn:E.
  - apply Nat.leb_le in E. assert (E2 : n mod S t = t) by lia.
    replace (S n) with (n + 1) by lia. rewrite <-Nat.Div0.add_mod_idemp_l, E2. replace (t + 1) with (S t) by lia.
    by rewrite Nat.Div0.mod_same.
  - apply Nat.leb_gt in E. replace (S n) with (n + 1) by lia. rewrite <-Nat.Div0.add_mod_idemp_l.
    rewrite (Nat.mod_small (n mod S t + 1)) by lia. lia.
Qed.

Lemma newConnection_pool threads s : server_inv s → pool_inv threads s → pool_inv threads (newConnection s).
Proof.
  intros Hinv [P1 P2 P3]. destruct (getNextLoop_rotates threads (threadPool_ s) (size (objects s)) P1 P2) as (Q1 & Q2 & Q3).
  unfold newConnection. destruct (getNextLoop (threadPool_ s)) as [l pool]. cbn [fst snd] in *.
  set (c := size (objects s)) in *. set (nm := connName s (nextConnId_ s)).
  assert (Hnone : objects s !! c = None) by (apply eq_None_not_Some; intros H%(sinv_objects s Hinv); unfold c in H; lia).
  set (s1 := mkServer _ _ _ _ _ _ _ _ _ _ _ _).
  assert (H1 : pool_inv threads s1).
  { split; cbn; [done|by rewrite map_size_insert_None|]. intros d k. destruct (decide (d = c)) as [->|Hd].
    - rewrite lookup_insert_eq. by intros [= <-].
    - rewrite lookup_insert_ne by done. apply P3. }
  unfold runInLoop. destruct (0 =? l); [|by destruct H1]. destruct H1 as [R1 R2 R3]. cbn [run_functor].
  split; [done|cbn; cbn in R2; by rewrite size_alter_conn|]. intros d k. cbn. destruct (decide (d = c)) as [->|Hd].
  - rewrite lookup_alter_eq, lookup_insert_eq. cbn. by intros [= <-].
  - rewrite lookup_alter_ne by done. rewrite lookup_insert_ne by done. apply P3.
Qed.

Lemma moves_pool threads s s' c : pool_inv threads s → moves s s' c → pool_inv threads s'.
Proof.
  intros [P1 P2 P3] (Ht & Hs & k & k' & p & Hk & Hk' & _ & Hl & _). destruct Hs as [_ _ _ _ _ S6 S7].
  split; [by rewrite S6|by rewrite S6, S7|]. intros d kd Hd. destruct (decide (d = c)) as [->|Hne].
  - simplify_eq. rewrite Hl. by apply P3.
  - rewrite (touch_objects _ _ _ Ht) in Hd by done. by apply P3.
Qed.

(** The pool shares the connections out: the k-th connection of a server
    with [threads] loops is handled by loop [k mod threads] of the pool, and by
    the base loop when there are none, so that the loops never differ by more
    than one in the number of connections they were given. *)
Theorem round_robin_loops (ipPort name : str) (threads : nat) (acts : list Act) (s : TcpServer)
    (Hip : length ipPort ≤ 40) (Hfew : (Z.of_nat (length acts) + 2 < 2 ^ 31)%Z)
    (Hrun : run (started ipPort name threads) acts = Some s) (c : nat) (k : Connection) (Hk : objects s !! c = Some k) :
  cloop k = loop_of threads c.
Proof.
  assert (H : ∀ s0, server_inv s0 → pool_inv threads s0 → (Z.of_nat (size (objects s0) + length acts) + 2 < 2 ^ 31)%Z →
    run s0 acts = Some s → pool_inv threads s).
  { clear. induction acts as [|a acts IH]; intros s0 Hinv Hp Hsz; cbn [run]; [by intros [= <-]|].
    destruct (act s0 a) as [s1|] eqn:E; [|done]. cbn. destruct (server_act_inv s0 a s1 Hinv ltac:(lia) E) as [Hinv1 Hle].
    apply IH; [done| |cbn [length] in Hsz; lia].
    destruct (act_cases s0 a s1 Hinv E) as [->|[[c Hc]|([S1 S2 S3 S4 S5 S6 S7] & Ho & _)]].
    - by apply newConnection_pool.
    - by eapply moves_pool.
    - destruct Hp as [P1 P2 P3]. by split; rewrite ?Ho, ?S6. }
  refine (pinv_conns threads s (H _ (started_inv ipPort name threads Hip) _ Hfew Hrun) c k Hk).
  split; [cbn; done|cbn; rewrite map_size_empty; intros; by rewrite Nat.Div0.mod_0_l|].
  intros d kd. cbn. by rewrite lookup_empty.
Qed.

(** A server with two loops; the peer of the first of two connections closes. *)
Definition sample_acts : list Act :=
  [Accept 7; Accept (-1); Accept 8; RunFunctor 2; RunFunctor 1; ShutdownConn 1; CloseConn 0; RunFunctor 0; RunFunctor 1]%Z.
Local Notation sample_server := (run (started (#"0.0.0.0:8080") (#"demo") 2) sample_acts).

Example sample_outcome :
  (λ s, (visible s, (λ n, connections_ s !! n) <$> [ #"demo-0.0.0.0:8080#1"; #"demo-0.0.0.0:8080#2"])) <$> sample_server
  = Some ([Up 1; Up 0; Down 0; Removed 0], [None; Some 1]).
Proof. vm_compute. reflexivity. Qed.

Lemma connection_life_witness :
  ∃ s, sample_server = Some s ∧ ∀ c k, objects s !! c = Some k → ∃ p,
    history s c = phase_history p c ∧ phase_state p (cstate k) ∧
    (∀ l, pending s c l = phase_pending p k c l) ∧
    (∀ n, connections_ s !! n = Some c ↔ in_table p ∧ n = cname k).
Proof.
  assert (H : (λ _, tt) <$> sample_server = Some tt) by (vm_compute; reflexivity).
  destruct sample_server as [s|] eqn:E; [|discriminate H]. exists s. split; [reflexivity|].
  refine (connection_life (#"0.0.0.0:8080") (#"demo") 2 _ sample_acts s _ E).
  - apply Nat.leb_le. reflexivity.
  - apply Z.ltb_lt. reflexivity.
Defined.

Lemma round_robin_loops_witness :
  ∃ s k, sample_server = Some s ∧ objects s !! 1 = Some k ∧ cloop k = loop_of 2 1.
Proof.
  assert (H : (λ s, bool_decide (is_Some (objects s !! 1))) <$> sample_server = Some true) by (vm_compute; reflexivity).
  destruct sample_server as [s|] eqn:E; [|discriminate H]. injection H as H. apply bool_decide_eq_true in H as [k Hk].
  exists s, k. split; [reflexivity|]. split; [exact Hk|].
  refine (round_robin_loops (#"0.0.0.0:8080") (#"demo") 2 sample_acts s _ _ E 1 k Hk).
  - apply Nat.leb_le. reflexivity.
  - apply Z.ltb_lt. reflexivity.
Defined.

Lemma quiescent_table_witness :
  ∃ s, sample_server = Some s ∧
    (∀ n c, connections_ s !! n = Some c ↔ ∃ k, objects s !! c = Some k ∧ cname k = n ∧ enabled s c = true).
Proof.
  assert (H : match sample_server with Some s => ∀ l, queues s l = [] | None => False end)
    by (vm_compute; intros [|[|[|l]]]; reflexivity).
  destruct sample_server as [s|] eqn:E; [|destruct H]. exists s. split; [reflexivity|].
  refine (proj1 (quiescent_table (#"0.0.0.0:8080") (#"demo") 2 _ sample_acts s _ E H)).
  - apply Nat.leb_le. reflexivity.
  - apply Z.ltb_lt. reflexivity.
Defined.

(** The destructor leaves its connections to their loops; when a peer closes
    before the loop has come to it, the close callback uses the server that is
    no more. *)
Example close_after_destructor_dangles :
  (λ s, dangling <$> act (destructor s) (CloseConn 0)) <$>
    run (started (#"0.0.0.0:8080") (#"demo") 1) [Accept 7; RunFunctor 1]%Z = Some (Some true).
Proof. vm_compute. reflexivity. Qed.
