(* ===== verification/TcpClient.v ===== *)
(** * TcpClient: connecting, retrying and reconnecting

    Models [src/net/Connector.cc] and [src/net/TcpClient.cc].  Sockets are
    numbered in the order in which they are created; the model counts which of
    them the connector holds, which are registered with the poller, and which
    were handed over to a connection.  What the kernel answers ([connect]'s
    error, [SO_ERROR]) comes with each step. *)

From S2P Require Import Prelude.

Open Scope nat_scope.

Inductive Errno :=
  | E0 | EINPROGRESS | EINTR | EISCONN
  | EAGAIN | EADDRINUSE | EADDRNOTAVAIL | ECONNREFUSED | ENETUNREACH
  | EACCES | EPERM | EAFNOSUPPORT | EALREADY | EBADF | EFAULT | ENOTSOCK
  | EOther.

Inductive States := kDisconnected | kConnecting | kConnected.
#[global] Instance States_eq_dec : EqDecision States.
Proof. solve_decision. Defined.

Inductive Functor := StartInLoop | StopInLoop | ResetChannel | ConnectDestroyed (fd : nat).
#[global] Instance Functor_eq_dec : EqDecision Functor.
Proof. solve_decision. Defined.

Definition kMaxRetryDelayMs : Z := 30000.
Definition kInitRetryDelayMs : Z := 500.

(** The client with its connector, and the loop as far as they use it. *)
Record TcpClient := mkClient {
  (* Connector *)
  connect_ : bool;
  state_ : States;
  channel_ : option nat;
  retryDelayMs_ : Z;
  (* TcpClient *)
  retry_ : bool;
  client_connect_ : bool;
  nextConnId_ : Z;
  connection_ : option nat;
  (* the loop and the kernel *)
  functors : list Functor;
  timers : list Z;          (* delays of the pending [startInLoop] *)
  next_fd : nat;
  held : gset nat;          (* sockets the connector has open *)
  registered : gset nat;    (* those whose channel is with the poller *)
  handed : list nat;        (* those given to a connection *)
  dangling : bool           (* a channel was destroyed while registered *)
}.

Definition TcpClient_new : TcpClient :=
  mkClient false kDisconnected None kInitRetryDelayMs false true 1 None [] [] 0 ∅ ∅ [] false.

Definition setState (c : TcpClient) (s : States) : TcpClient :=
  mkClient (connect_ c) s (channel_ c) (retryDelayMs_ c) (retry_ c) (client_connect_ c) (nextConnId_ c) (connection_ c)
    (functors c) (timers c) (next_fd c) (held c) (registered c) (handed c) (dangling c).
Definition set_connect (c : TcpClient) (b : bool) : TcpClient :=
  mkClient b (state_ c) (channel_ c) (retryDelayMs_ c) (retry_ c) (client_connect_ c) (nextConnId_ c) (connection_ c)
    (functors c) (timers c) (next_fd c) (held c) (registered c) (handed c) (dangling c).
Definition set_delay (c : TcpClient) (d : Z) : TcpClient :=
  mkClient (connect_ c) (state_ c) (channel_ c) d (retry_ c) (client_connect_ c) (nextConnId_ c) (connection_ c)
    (functors c) (timers c) (next_fd c) (held c) (registered c) (handed c) (dangling c).
Definition set_client_connect (c : TcpClient) (b : bool) : TcpClient :=
  mkClient (connect_ c) (state_ c) (channel_ c) (retryDelayMs_ c) (retry_ c) b (nextConnId_ c) (connection_ c)
    (functors c) (timers c) (next_fd c) (held c) (registered c) (handed c) (dangling c).
Definition set_functors (c : TcpClient) (fs : list Functor) : TcpClient :=
  mkClient (connect_ c) (state_ c) (channel_ c) (retryDelayMs_ c) (retry_ c) (client_connect_ c) (nextConnId_ c)
    (connection_ c) fs (timers c) (next_fd c) (held c) (registered c) (handed c) (dangling c).
Definition set_timers (c : TcpClient) (ts : list Z) : TcpClient :=
  mkClient (connect_ c) (state_ c) (channel_ c) (retryDelayMs_ c) (retry_ c) (client_connect_ c) (nextConnId_ c)
    (connection_ c) (functors c) ts (next_fd c) (held c) (registered c) (handed c) (dangling c).
Definition set_connection (c : TcpClient) (o : option nat) : TcpClient :=
  mkClient (connect_ c) (state_ c) (channel_ c) (retryDelayMs_ c) (retry_ c) (client_connect_ c) (nextConnId_ c) o
    (functors c) (timers c) (next_fd c) (held c) (registered c) (handed c) (dangling c).
Definition set_sockets (c : TcpClient) (h r : gset nat) : TcpClient :=
  mkClient (connect_ c) (state_ c) (channel_ c) (retryDelayMs_ c) (retry_ c) (client_connect_ c) (nextConnId_ c)
    (connection_ c) (functors c) (timers c) (next_fd c) h r (handed c) (dangling c).

Definition queueInLoop (c : TcpClient) (f : Functor) : TcpClient := set_functors c (functors c ++ [f]).

(** [::close] on a socket the connector holds. *)
Definition close_socket (c : TcpClient) (fd : nat) : TcpClient := set_sockets c (held c ∖ {[fd]}) (registered c).

(** [channel_.reset(...)] destroys the channel there was. *)
Definition reset_to (c : TcpClient) (ch : option nat) : TcpClient :=
  let broken := match channel_ c with Some fd => bool_decide (fd ∈ registered c) | None => false end in
  mkClient (connect_ c) (state_ c) ch (retryDelayMs_ c) (retry_ c) (client_connect_ c) (nextConnId_ c) (connection_ c)
    (functors c) (timers c) (next_fd c) (held c) (registered c) (handed c) (dangling c || broken).

(** ** Connector *)

Definition resetChannel (c : TcpClient) : TcpClient := reset_to c None.

(** The socket of the channel, whose channel is unregistered and will be
    destroyed by a functor.  It is only called with a channel. *)
Definition removeAndResetChannel (c : TcpClient) : nat * TcpClient :=
  let fd := default 0 (channel_ c) in
  (fd, queueInLoop (set_sockets c (held c) (registered c ∖ {[fd]})) ResetChannel).

Definition retry (c : TcpClient) (fd : nat) : TcpClient :=
  let c1 := setState (close_socket c fd) kDisconnected in
  if connect_ c1
  then set_delay (set_timers c1 (timers c1 ++ [retryDelayMs_ c1])) (Z.min (retryDelayMs_ c1 * 2) kMaxRetryDelayMs)
  else c1.

Definition connecting (c : TcpClient) (fd : nat) : TcpClient :=
  let c1 := reset_to (setState c kConnecting) (Some fd) in
  set_sockets c1 (held c1) (registered c1 ∪ {[fd]}).

Definition new_socket (c : TcpClient) : nat * TcpClient :=
  (next_fd c,
   mkClient (connect_ c) (state_ c) (channel_ c) (retryDelayMs_ c) (retry_ c) (client_connect_ c) (nextConnId_ c)
     (connection_ c) (functors c) (timers c) (S (next_fd c)) (held c ∪ {[next_fd c]}) (registered c) (handed c) (dangling c)).

Definition connect (c : TcpClient) (savedErrno : Errno) : TcpClient :=
  let '(sockfd, c1) := new_socket c in
  match savedErrno with
  | E0 | EINPROGRESS | EINTR | EISCONN => connecting c1 sockfd
  | EAGAIN | EADDRINUSE | EADDRNOTAVAIL | ECONNREFUSED | ENETUNREACH => retry c1 sockfd
  | _ => close_socket c1 sockfd
  end.

Definition startInLoop (c : TcpClient) (e : Errno) : TcpClient := if connect_ c then connect c e else c.

Definition stopInLoop (c : TcpClient) : TcpClient :=
  if bool_decide (state_ c = kConnecting) then
    let '(sockfd, c1) := removeAndResetChannel (setState c kDisconnected) in close_socket c1 sockfd
  else c.

Definition start (c : TcpClient) (inLoop : bool) (e : Errno) : TcpClient :=
  let c1 := set_connect c true in if inLoop then startInLoop c1 e else queueInLoop c1 StartInLoop.

Definition restart (c : TcpClient) (e : Errno) : TcpClient :=
  startInLoop (set_connect (set_delay (setState c kDisconnected) kInitRetryDelayMs) true) e.

Definition connector_stop (c : TcpClient) : TcpClient := queueInLoop (set_connect c false) StopInLoop.

(** ** TcpClient *)

(** [TcpClient::newConnection]: the socket now belongs to the connection. *)
Definition newConnection (c : TcpClient) (fd : nat) : TcpClient :=
  mkClient (connect_ c) (state_ c) (channel_ c) (retryDelayMs_ c) (retry_ c) (client_connect_ c) (i32 (nextConnId_ c + 1))
    (Some fd) (functors c) (timers c) (next_fd c) (held c ∖ {[fd]}) (registered c) (handed c ++ [fd]) (dangling c).

Definition handleWrite (c : TcpClient) (so_error : bool) : TcpClient :=
  if bool_decide (state_ c = kConnecting) then
    let '(sockfd, c1) := removeAndResetChannel c in
    if so_error then retry c1 sockfd
    else
      let c2 := setState c1 kConnected in
      if connect_ c2 then newConnection (set_delay c2 kInitRetryDelayMs) sockfd else close_socket c2 sockfd
  else c.

Definition handleError (c : TcpClient) : TcpClient :=
  if bool_decide (state_ c = kConnecting) then
    let '(sockfd, c1) := removeAndResetChannel c in retry c1 sockfd
  else c.

Definition client_connect (c : TcpClient) (inLoop : bool) (e : Errno) : TcpClient :=
  start (set_client_connect c true) inLoop e.

(** What is called on the connection, which is [TcpConnection]'s business. *)
Inductive ConnCall := SetCloseCallback (fd : nat) | Shutdown (fd : nat).
#[global] Instance ConnCall_eq_dec : EqDecision ConnCall.
Proof. solve_decision. Defined.

Definition disconnect (c : TcpClient) : list ConnCall * TcpClient :=
  let c1 := set_client_connect c false in
  (match connection_ c1 with Some fd => [Shutdown fd] | None => [] end, c1).

Definition stop (c : TcpClient) : TcpClient := connector_stop (set_client_connect c false).

Definition enableRetry (c : TcpClient) : TcpClient :=
  mkClient (connect_ c) (state_ c) (channel_ c) (retryDelayMs_ c) true (client_connect_ c) (nextConnId_ c) (connection_ c)
    (functors c) (timers c) (next_fd c) (held c) (registered c) (handed c) (dangling c).

Definition removeConnection (c : TcpClient) (fd : nat) (e : Errno) : TcpClient :=
  let c1 := queueInLoop (set_connection c None) (ConnectDestroyed fd) in
  if retry_ c1 && client_connect_ c1 then restart c1 e else c1.

Definition run_functor (c : TcpClient) (f : Functor) (e : Errno) : TcpClient :=
  match f with
  | StartInLoop => startInLoop c e
  | StopInLoop => stopInLoop c
  | ResetChannel => resetChannel c
  | ConnectDestroyed _ => c
  end.

(** ** Runs *)

Inductive Act :=
  | Connect (inLoop : bool) (e : Errno)
  | Disconnect | Stop | EnableRetry
  | RunFunctor (e : Errno)          (* the loop runs its next functor *)
  | TimerFires (e : Errno)          (* the first pending timer *)
  | Writable (so_error : bool)      (* the socket that is connecting *)
  | SocketError
  | PeerCloses (e : Errno).         (* the established connection *)

Definition act (c : TcpClient) (a : Act) : option TcpClient :=
  match a with
  | Connect inLoop e => Some (client_connect c inLoop e)
  | Disconnect => Some (disconnect c).2
  | Stop => Some (stop c)
  | EnableRetry => Some (enableRetry c)
  | RunFunctor e => match functors c with [] => None | f :: fs => Some (run_functor (set_functors c fs) f e) end
  | TimerFires e =>
      (* later than the round that made the timer, whose functors have run *)
      match timers c with
      | [] => None
      | _ :: ts => if bool_decide (ResetChannel ∈ functors c) then None else Some (startInLoop (set_timers c ts) e)
      end
  | Writable so_error =>
      match channel_ c with
      | Some fd => if bool_decide (fd ∈ registered c) then Some (handleWrite c so_error) else None
      | None => None end
  | SocketError =>
      match channel_ c with
      | Some fd => if bool_decide (fd ∈ registered c) then Some (handleError c) else None
      | None => None end
  | PeerCloses e =>
      match connection_ c with
      | Some fd => if bool_decide (ResetChannel ∈ functors c) then None else Some (removeConnection c fd e)
      | None => None end
  end.

(** ** What can be reached

    [connect] is called when nothing is under way: no attempt or connection,
    no retry timer, no queued start and no channel waiting to be destroyed. *)

Definition quiet (c : TcpClient) : Prop :=
  state_ c ≠ kConnecting ∧ connection_ c = None ∧ timers c = [] ∧
  StartInLoop ∉ functors c ∧ ResetChannel ∉ functors c.

Definition polite (c : TcpClient) (a : Act) : Prop := match a with Connect _ _ => quiet c | _ => True end.

Inductive reachable : TcpClient → Prop :=
  | reachable_new : reachable TcpClient_new
  | reachable_act c a c' : reachable c → polite c a → act c a = Some c' → reachable c'.

(** The socket the connector is busy with. *)
Record busy (c : TcpClient) (fd : nat) : Prop := {
  busy_state : state_ c = kConnecting;
  busy_channel : channel_ c = Some fd;
  busy_held : held c = {[fd]};
  busy_registered : registered c = {[fd]};
  busy_functors : StartInLoop ∉ functors c ∧ ResetChannel ∉ functors c;
  busy_timers : timers c = [];
  busy_connection : connection_ c = None
}.

Definition starts (c : TcpClient) : nat :=
  length (timers c) + length (List.filter (λ f, bool_decide (f = StartInLoop)) (functors c)).

(** ... or it holds nothing, and at most one start is to come. *)
Record free (c : TcpClient) : Prop := {
  free_state : state_ c ≠ kConnecting;
  free_held : held c = ∅;
  free_registered : registered c = ∅;
  free_starts : starts c ≤ 1;
  free_order : StartInLoop ∈ functors c → ResetChannel ∉ functors c;
  free_connection : is_Some (connection_ c) → state_ c = kConnected ∧ starts c = 0
}.

Record client_inv (c : TcpClient) : Prop := {
  inv_sound : dangling c = false;
  inv_sockets : (∃ fd, busy c fd) ∨ free c;
  inv_handed : NoDup (handed c);
  inv_numbers : (∀ fd, fd ∈ handed c → fd < next_fd c ∧ fd ∉ held c) ∧ ∀ fd, fd ∈ held c → fd < next_fd c;
  inv_delay : (kInitRetryDelayMs <= retryDelayMs_ c <= kMaxRetryDelayMs)%Z
}.

Lemma starts_queue c f : f ≠ StartInLoop → starts (queueInLoop c f) = starts c.
Proof.
  intros Hf. unfold starts. cbn. rewrite List.filter_app. cbn. rewrite bool_decide_false by done. by rewrite app_nil_r.
Qed.

Lemma starts_zero c : starts c = 0 → timers c = [] ∧ StartInLoop ∉ functors c.
Proof.
  unfold starts. intros H. split; [destruct (timers c); [done|cbn in H; lia]|].
  intros Hin. assert (StartInLoop ∈ List.filter (λ f, bool_decide (f = StartInLoop)) (functors c)) as Hf.
  { rewrite list_elem_of_In, filter_In. split; [by apply list_elem_of_In|]. by apply bool_decide_eq_true. }
  destruct (List.filter _ _); [by apply elem_of_nil in Hf|cbn in H; lia].
Qed.

Lemma zero_starts c : timers c = [] → StartInLoop ∉ functors c → starts c = 0.
Proof.
  intros Ht Hs. unfold starts. rewrite Ht. cbn. induction (functors c) as [|f fs IH]; [done|]. cbn.
  apply not_elem_of_cons in Hs as [Hne Hs]. rewrite bool_decide_false by done. by apply IH.
Qed.

(** An attempt, made when nothing is under way, and no channel waits. *)
Lemma connect_inv c e :
  client_inv c → free c → starts c = 0 → ResetChannel ∉ functors c → connection_ c = None → client_inv (connect c e).
Proof.
  intros [Hd _ Hn [Hh Hl] Hdel] [F1 F2 F3 F4 F5 F6] Hs Hr Hc. destruct (starts_zero c Hs) as [Ht Hst].
  set (fd := next_fd c). assert (Hfd : ∀ x, x ∈ handed c → x ≠ fd) by (intros x Hx ->; apply Hh in Hx; unfold fd in Hx; lia).
  unfold connect. cbn [new_socket]. fold fd.
  set (c1 := mkClient _ _ _ _ _ _ _ _ _ _ _ _ _ _ _).
  assert (Hconn : client_inv (connecting c1 fd)).
  { split; cbn; try done.
    - rewrite Hd, F3. destruct (channel_ c) as [x|]; [|done]. rewrite bool_decide_false; [done|set_solver].
    - left. exists fd. split; cbn; try done; [rewrite F2; set_solver|rewrite F3; set_solver].
    - rewrite F2. split; [intros x Hx; specialize (Hh x Hx); split; [lia|specialize (Hfd x Hx); set_solver]|].
      intros x Hx. assert (x = fd) as -> by set_solver. unfold fd. lia. }
  assert (Hheld : held c ∪ {[fd]} ∖ {[fd]} = ∅) by (rewrite F2; set_solver).
  assert (Hclose : client_inv (close_socket c1 fd)).
  { split; cbn; try done.
    - right. split; cbn; try done. rewrite F2; set_solver.
    - rewrite F2. split; [intros x Hx; specialize (Hh x Hx); split; [lia|set_solver]|set_solver]. }
  assert (Hretry : client_inv (retry c1 fd)).
  { unfold retry. cbn. destruct (connect_ c); split; cbn; try done.
    - right. split; cbn; try done; [rewrite F2; set_solver| |rewrite Hc; by intros [? ?]].
      unfold starts in *. cbn. rewrite Ht in *. cbn in *. lia.
    - rewrite F2. split; [intros x Hx; specialize (Hh x Hx); split; [lia|set_solver]|set_solver].
    - unfold kInitRetryDelayMs, kMaxRetryDelayMs in *. lia.
    - right. split; cbn; try done; [rewrite F2; set_solver|rewrite Hc; by intros [? ?]].
    - rewrite F2. split; [intros x Hx; specialize (Hh x Hx); split; [lia|set_solver]|set_solver]. }
  by destruct e.
Qed.

(** The channel is taken off the poller and waits for its destruction. *)
Lemma removed_spec c fd :
  busy c fd →
  (removeAndResetChannel c).1 = fd ∧
  let c1 := (removeAndResetChannel c).2 in
  held c1 = {[fd]} ∧ registered c1 = ∅ ∧ starts c1 = 0 ∧ connection_ c1 = None ∧ timers c1 = [] ∧
  StartInLoop ∉ functors c1 ∧ connect_ c1 = connect_ c ∧ handed c1 = handed c ∧ next_fd c1 = next_fd c ∧
  dangling c1 = dangling c ∧ retryDelayMs_ c1 = retryDelayMs_ c.
Proof.
  intros [B1 B2 B3 B4 [B5 B6] B7 B8]. unfold removeAndResetChannel. rewrite B2. cbn. split; [done|].
  assert (StartInLoop ∉ functors c ++ [ResetChannel]) by set_solver.
  split_and!; try done; [rewrite B4; set_solver|].
  exact (zero_starts (queueInLoop c ResetChannel) B7 H).
Qed.

Lemma retry_inv c fd :
  client_inv c → busy c fd → client_inv (let '(sockfd, c1) := removeAndResetChannel c in retry c1 sockfd).
Proof.
  intros [Hd _ Hn [Hh Hl] Hdel] Hb. destruct (removed_spec c fd Hb) as (E1 & H).
  destruct (removeAndResetChannel c) as [s c1]. cbn [fst snd] in *. subst s.
  destruct H as (R1 & R2 & R3 & R4 & R5 & R6 & R7 & R8 & R9 & R10 & R11).
  assert (Hheld : held c1 ∖ {[fd]} = ∅) by (rewrite R1; set_solver).
  unfold retry. cbn. destruct (connect_ c1); split; cbn; rewrite ?R8, ?R9, ?R10, ?R11, ?Hheld; try done.
  - right. split; cbn; rewrite ?R4; try done.
    unfold starts in *; cbn; rewrite R5 in *; cbn in *; lia.
  - split; [intros x Hx; split; [by apply Hh|set_solver]|set_solver].
  - unfold kInitRetryDelayMs, kMaxRetryDelayMs in *. lia.
  - right. split; cbn; rewrite ?R4; try done. unfold starts in *; cbn; lia.
  - split; [intros x Hx; split; [by apply Hh|set_solver]|set_solver].
Qed.

Lemma handleWrite_inv c so_error fd : client_inv c → busy c fd → client_inv (handleWrite c so_error).
Proof.
  intros Hinv Hb. unfold handleWrite. rewrite bool_decide_true by apply Hb.
  destruct so_error; [by apply (retry_inv c fd)|].
  destruct Hinv as [Hd _ Hn [Hh Hl] Hdel]. destruct (removed_spec c fd Hb) as (E1 & H).
  destruct (removeAndResetChannel c) as [s c1]. cbn [fst snd] in *. subst s.
  destruct H as (R1 & R2 & R3 & R4 & R5 & R6 & R7 & R8 & R9 & R10 & R11).
  assert (Hheld : held c1 ∖ {[fd]} = ∅) by (rewrite R1; set_solver).
  assert (Hfd : fd ∈ held c) by (rewrite (busy_held _ _ Hb); set_solver).
  cbn. destruct (connect_ c1); split; cbn; rewrite ?R8, ?R9, ?R10, ?R11, ?Hheld; try done.
  - right. split; cbn; try done; unfold starts in *; cbn; lia.
  - apply NoDup_app. split_and!; [done| |apply NoDup_singleton].
    intros x Hx ->%list_elem_of_singleton. destruct (Hh _ Hx). done.
  - split; [|set_solver]. intros x [Hx| ->%list_elem_of_singleton]%elem_of_app; (split; [|set_solver]); [by apply Hh|by apply Hl].
  - right. split; cbn; rewrite ?R4; try done. unfold starts in *; cbn; lia.
  - split; [intros x Hx; split; [by apply Hh|set_solver]|set_solver].
Qed.

Lemma starts_pop c f fs :
  functors c = f :: fs → starts c = (if bool_decide (f = StartInLoop) then 1 else 0) + starts (set_functors c fs).
Proof. intros E. unfold starts. cbn. rewrite E. cbn. case_bool_decide; cbn; lia. Qed.

Lemma pop_inv c f fs : functors c = f :: fs → client_inv c → client_inv (set_functors c fs).
Proof.
  intros E [Hd Hs Hn Hh Hdel]. pose proof (starts_pop c f fs E) as Hp.
  assert (Hle : starts (set_functors c fs) ≤ starts c) by (rewrite Hp; apply Nat.le_add_l). clear Hp.
  split; try done.
  destruct Hs as [[fd [B1 B2 B3 B4 [B5 B6] B7 B8]]|[F1 F2 F3 F4 F5 F6]].
  - left. exists fd. rewrite E in *. split; cbn; try done. split; set_solver.
  - right. split; try done; [lia| |].
    + cbn. rewrite E in F5. intros H. assert (ResetChannel ∉ f :: fs) by (apply F5; by right). set_solver.
    + intros H. destruct (F6 H). split; [done|lia].
Qed.

Lemma queue_inv c f :
  client_inv c → f = StopInLoop ∨ (∃ fd, f = ConnectDestroyed fd) → client_inv (queueInLoop c f).
Proof.
  intros [Hd Hs Hn Hh Hdel] Hf.
  assert (Hne : f ≠ StartInLoop ∧ f ≠ ResetChannel) by (destruct Hf as [->|[? ->]]; done). destruct Hne as [N1 N2].
  split; try done. destruct Hs as [[fd [B1 B2 B3 B4 [B5 B6] B7 B8]]|[F1 F2 F3 F4 F5 F6]].
  - left. exists fd. split; cbn; try done. set_solver.
  - right. split; try done; rewrite ?(starts_queue c f N1); [lia| |done].
    cbn. intros H. assert (ResetChannel ∉ functors c) by (apply F5; set_solver). set_solver.
Qed.

Lemma inv_free c : client_inv c → state_ c ≠ kConnecting → free c.
Proof. intros [_ [[fd Hb]|Hf] _ _ _] Hs; [by destruct Hs; apply Hb|done]. Qed.

Lemma pop_start c fs :
  client_inv c → functors c = StartInLoop :: fs →
  let c1 := set_functors c fs in
  client_inv c1 ∧ free c1 ∧ starts c1 = 0 ∧ ResetChannel ∉ functors c1 ∧ connection_ c1 = None.
Proof.
  intros Hinv E c1. pose proof (pop_inv _ _ _ E Hinv) as Hinv1. pose proof (starts_pop c _ _ E) as Hp.
  rewrite bool_decide_true in Hp by done. fold c1 in Hinv1, Hp.
  destruct Hinv as [_ [[fd Hb]|[F1 F2 F3 F4 F5 F6]] _ _ _].
  { pose proof (busy_functors _ _ Hb) as [Hb1 _]. rewrite E in Hb1. set_solver. }
  split; [done|]. split; [by apply inv_free|]. split; [lia|]. rewrite E in F5. split.
  - cbn. assert (ResetChannel ∉ StartInLoop :: fs) by (apply F5; by left). set_solver.
  - cbn. destruct (connection_ c) eqn:Ec; [|done]. destruct F6; [eauto|lia].
Qed.

Lemma stopInLoop_inv c : client_inv c → client_inv (stopInLoop c).
Proof.
  intros Hinv. unfold stopInLoop. case_bool_decide as Hst; [|done].
  destruct Hinv as [Hd [[fd Hb]|Hf] Hn [Hh Hl] Hdel]; [|by destruct (free_state _ Hf)].
  destruct Hb as [B1 B2 B3 B4 [B5 B6] B7 B8]. unfold removeAndResetChannel. cbn. rewrite B2. cbn.
  assert (Hs : StartInLoop ∉ functors c ++ [ResetChannel]) by set_solver.
  split; cbn; try done.
  - right. split; cbn; try done.
    + rewrite B3. set_solver.
    + rewrite B4. set_solver.
    + pose proof (zero_starts (queueInLoop c ResetChannel) B7 Hs) as Hz.
      unfold starts in *. cbn in *. lia.
    + rewrite B8. by intros [? ?].
  - rewrite B3 in *. split; [intros x Hx; split; [by apply Hh|set_solver]|set_solver].
Qed.

Lemma client_functor_inv c f fs e : client_inv c → functors c = f :: fs → client_inv (run_functor (set_functors c fs) f e).
Proof.
  intros Hinv E. destruct f as [| | |fd]; cbn [run_functor].
  - destruct (pop_start c fs Hinv E) as (H1 & H2 & H3 & H4 & H5). unfold startInLoop.
    destruct (connect_ (set_functors c fs)); [by apply connect_inv|done].
  - by eapply stopInLoop_inv, pop_inv.
  - assert (Hst : state_ c ≠ kConnecting).
    { destruct Hinv as [_ [[fd Hb]|Hf] _ _ _]; [|apply Hf].
      pose proof (busy_functors _ _ Hb) as [_ Hb2]. rewrite E in Hb2. set_solver. }
    pose proof (pop_inv _ _ _ E Hinv) as [Hd Hs Hn Hh Hdel].
    assert (Hf : free (set_functors c fs)) by (apply inv_free; [by eapply pop_inv|done]). destruct Hf as [F1 F2 F3 F4 F5 F6].
    split; try done; [|right; by split]. cbn. cbn in F3. rewrite F3. cbn in Hd. rewrite Hd.
    destruct (channel_ c); [|done]. rewrite bool_decide_false; [done|set_solver].
  - by eapply pop_inv.
Qed.

Lemma client_timer_inv c d ts e :
  client_inv c → timers c = d :: ts → ResetChannel ∉ functors c → client_inv (startInLoop (set_timers c ts) e).
Proof.
  intros Hinv Et Hr. destruct Hinv as [Hd [[fd Hb]|[F1 F2 F3 F4 F5 F6]] Hn Hh Hdel]; [by rewrite (busy_timers _ _ Hb) in Et|].
  assert (Hz : starts (set_timers c ts) = 0) by (unfold starts in *; rewrite Et in F4; cbn in *; lia).
  assert (Hc : connection_ c = None).
  { destruct (connection_ c) eqn:Ec; [|done]. destruct F6 as [_ H]; [eauto|]. unfold starts in H. rewrite Et in H. cbn in H. lia. }
  assert (Hfree : free (set_timers c ts)) by (split; try done; rewrite ?Hz; [lia|cbn; rewrite Hc; by intros [? ?]]).
  assert (Hinv1 : client_inv (set_timers c ts)) by (split; try done; by right).
  unfold startInLoop. destruct (connect_ (set_timers c ts)); [by apply connect_inv|done].
Qed.

Lemma client_remove_inv c fd e :
  client_inv c → connection_ c = Some fd → ResetChannel ∉ functors c → client_inv (removeConnection c fd e).
Proof.
  intros Hinv Ec Hr. unfold removeConnection. set (c1 := queueInLoop (set_connection c None) (ConnectDestroyed fd)).
  assert (Hf : free c ∧ starts c = 0).
  { pose proof Hinv as [_ [[fd' Hb]|Hf] _ _ _]; [by rewrite (busy_connection _ _ Hb) in Ec|].
    split; [done|]. apply (free_connection _ Hf). rewrite Ec. eauto. }
  destruct Hf as [Hf Hz]. pose proof Hf as [F1 F2 F3 F4 F5 F6].
  assert (Hz1 : starts c1 = 0) by (unfold c1; rewrite starts_queue; done).
  assert (Hr1 : ResetChannel ∉ functors c1) by (unfold c1; cbn; set_solver).
  assert (Hfree : ∀ d co, free (set_connect (set_delay (setState c1 kDisconnected) d) co)).
  { intros d co. split; try done; [change (starts c1 ≤ 1); lia|]. intros [? H]. discriminate H. }
  destruct Hinv as [Hd Hs Hn Hh Hdel].
  destruct (retry_ c1 && client_connect_ c1).
  - unfold restart, startInLoop. cbn [connect_ set_connect]. apply connect_inv; try done.
    split; try done. right. apply Hfree.
  - split; try done. right. split; try done; [lia|]. intros [? H]. discriminate H.
Qed.

Lemma client_connect_inv c inLoop e : client_inv c → quiet c → client_inv (client_connect c inLoop e).
Proof.
  intros Hinv (Q1 & Q2 & Q3 & Q4 & Q5). pose proof (inv_free c Hinv Q1) as Hf.
  pose proof (zero_starts c Q3 Q4) as Hz. unfold client_connect, start.
  destruct Hinv as [Hd Hs Hn Hh Hdel]. destruct Hf as [F1 F2 F3 F4 F5 F6]. destruct inLoop.
  - unfold startInLoop. cbn [connect_ set_connect set_client_connect]. apply connect_inv; try done; split; try done; right; by split.
  - split; try done. right. split; try done; cbn.
    + unfold starts in *. cbn. rewrite List.filter_app, length_app. cbn. rewrite bool_decide_true by done. cbn. lia.
    + set_solver.
    + rewrite Q2. by intros [? ?].
Qed.

Lemma client_act_inv c a c' : client_inv c → polite c a → act c a = Some c' → client_inv c'.
Proof.
  intros Hinv Hpol. destruct a as [inLoop e| | | |e|e|so| |e]; cbn [act].
  - intros [= <-]. by apply client_connect_inv.
  - intros [= <-]. destruct Hinv as [Hd [[fd []]|[]] Hn Hh Hdel]; split; try done; [left; exists fd; by split|right; by split].
  - intros [= <-]. unfold stop, connector_stop.
    apply (queue_inv (set_connect (set_client_connect c false) false)); [|by left].
    destruct Hinv as [Hd [[fd []]|[]] Hn Hh Hdel]; split; try done; [left; exists fd; by split|right; by split].
  - intros [= <-]. destruct Hinv as [Hd [[fd []]|[]] Hn Hh Hdel]; split; try done; [left; exists fd; by split|right; by split].
  - destruct (functors c) as [|f fs] eqn:E; [done|]. intros [= <-]. by apply client_functor_inv.
  - destruct (timers c) as [|d ts] eqn:Et; [done|]. case_bool_decide as Hr; [done|]. intros [= <-]. by eapply client_timer_inv.
  - destruct (channel_ c) as [fd|] eqn:Ec; [|done]. case_bool_decide as Hr; [|done]. intros [= <-].
    pose proof Hinv as [_ [[fd' Hb]|Hf] _ _ _]; [by apply (handleWrite_inv c so fd')|].
    rewrite (free_registered _ Hf) in Hr. set_solver.
  - destruct (channel_ c) as [fd|] eqn:Ec; [|done]. case_bool_decide as Hr; [|done]. intros [= <-].
    pose proof Hinv as [_ [[fd' Hb]|Hf] _ _ _]; [|rewrite (free_registered _ Hf) in Hr; set_solver].
    unfold handleError. rewrite bool_decide_true by apply Hb. by apply (retry_inv c fd').
  - destruct (connection_ c) as [fd|] eqn:Ec; [|done]. case_bool_decide as Hr; [done|]. intros [= <-]. by apply client_remove_inv.
Qed.

Lemma reachable_inv c : reachable c → client_inv c.
Proof.
  induction 1 as [|c a c' Hr IH Hp E]; [|by eapply client_act_inv]. split; try done.
  - right. split; try done; [unfold starts; cbn; lia|cbn; set_solver|]. intros [? H]. discriminate H.
  - constructor.
  - cbn. split; intros x Hx; set_solver.
Qed.

(** C21: no socket is lost, as long as [connect] is only called when nothing is
    under way: no attempt, no connection, no retry timer, no queued start and no
    channel that waits to be reset ([polite]).  Then, whatever the kernel answers
    and however retries, failures, [disconnect], [stop], closes and such calls of
    [connect] interleave, the connector holds one socket while it is connecting,
    with that socket's channel registered, and no socket otherwise; no channel
    is destroyed while registered; every socket is handed to at most one
    connection, and none that the connector still holds; and at most one start
    is pending.  (Without the condition a socket can be lost and a registered
    channel destroyed: [restart_with_retry_pending],
    [stop_then_connect_elsewhere].) *)
Theorem connector_no_leak (c : TcpClient) (Hr : reachable c) :
  dangling c = false ∧
  (if bool_decide (state_ c = kConnecting)
   then ∃ fd, channel_ c = Some fd ∧ held c = {[fd]} ∧ registered c = {[fd]} ∧ starts c = 0
   else held c = ∅ ∧ registered c = ∅ ∧ starts c ≤ 1) ∧
  NoDup (handed c) ∧ (∀ fd, fd ∈ handed c → fd ∉ held c).
Proof.
  destruct (reachable_inv c Hr) as [Hd Hs Hn [Hh _] _]. split; [done|]. split; [|split; [done|intros fd Hfd; by apply Hh]].
  destruct Hs as [[fd Hb]|Hf].
  - rewrite bool_decide_true by apply Hb. exists fd. destruct Hb as [_ B2 B3 B4 [B5 _] B7 _].
    split_and!; [done|done|done|by apply zero_starts].
  - rewrite bool_decide_false by apply Hf. by destruct Hf.
Qed.

(** [n] refusals in a row. *)
Fixpoint refusals (n : nat) (c : TcpClient) : option TcpClient :=
  match n with
  | O => Some c
  | S n => c1 ← act c (TimerFires ECONNREFUSED); refusals n c1
  end.

Lemma refusals_S n c : refusals (S n) c = (c1 ← refusals n c; act c1 (TimerFires ECONNREFUSED)).
Proof.
  revert c. induction n as [|n IH]; intros c.
  - change (refusals 1 c) with (c1 ← act c (TimerFires ECONNREFUSED); Some c1).
    change (refusals 0 c) with (Some c). cbn [mbind option_bind]. by destruct (act c _).
  - change (refusals (S (S n)) c) with (c1 ← act c (TimerFires ECONNREFUSED); refusals (S n) c1).
    change (refusals (S n) c) with (c1 ← act c (TimerFires ECONNREFUSED); refusals n c1).
    destruct (act c _) as [c1|]; [|done]. exact (IH c1).
Qed.

Definition backoff (n : nat) : Z := Z.min (kInitRetryDelayMs * 2 ^ Z.of_nat n) kMaxRetryDelayMs.

Lemma backoff_S n : backoff (S n) = Z.min (backoff n * 2) kMaxRetryDelayMs.
Proof.
  unfold backoff. rewrite Nat2Z.inj_succ, Z.pow_succ_r by lia. unfold kInitRetryDelayMs, kMaxRetryDelayMs. lia.
Qed.

Lemma refused_again c d :
  connect_ c = true → timers c = [d] → ResetChannel ∉ functors c → ∀ c', act c (TimerFires ECONNREFUSED) = Some c' →
  connect_ c' = true ∧ timers c' = [retryDelayMs_ c] ∧ functors c' = functors c ∧
  retryDelayMs_ c' = Z.min (retryDelayMs_ c * 2) kMaxRetryDelayMs.
Proof.
  intros Hc Ht Hr c'. cbn [act]. rewrite Ht, bool_decide_false by done. intros [= <-].
  unfold startInLoop. cbn [connect_ set_timers]. rewrite Hc. cbn. unfold retry. cbn. rewrite Hc. done.
Qed.

(** The retry delays.  A client that is refused again and again waits half
    a second, then twice as long each time, up to thirty seconds; it never
    gives up and never has two retries pending. *)
Theorem retry_backoff (c c0 cn : TcpClient) (n : nat)
    (Hidle : retryDelayMs_ c = kInitRetryDelayMs) (Hq : quiet c)
    (Hstart : act c (Connect true ECONNREFUSED) = Some c0) (Hn : refusals n c0 = Some cn) :
  timers cn = [backoff n] ∧ (500 <= backoff n <= 30000)%Z ∧ is_Some (refusals (S n) c0).
Proof.
  assert (H : ∀ m c1, refusals m c0 = Some c1 →
    connect_ c1 = true ∧ timers c1 = [backoff m] ∧ ResetChannel ∉ functors c1 ∧ retryDelayMs_ c1 = backoff (S m)).
  { destruct Hq as (Q1 & Q2 & Q3 & Q4 & Q5).
    induction m as [|m IH]; intros c1.
    - intros [= <-]. cbn [act] in Hstart. unfold client_connect, start, startInLoop in Hstart.
      cbn [connect_ set_connect set_client_connect] in Hstart. unfold connect, retry in Hstart. cbn in Hstart.
      injection Hstart as <-. cbn. rewrite Q3, Hidle. split_and!; done.
    - rewrite refusals_S. destruct (refusals m c0) as [c3|] eqn:E; [|done]. cbn [mbind option_bind].
      destruct (IH c3 eq_refl) as (I1 & I2 & I3 & I4). intros E1.
      destruct (refused_again c3 _ I1 I2 I3 c1 E1) as (J1 & J2 & J3 & J4).
      rewrite J3, J2, J4, I4. split_and!; [done|done|done|]. by rewrite (backoff_S (S m)). }
  destruct (H n cn Hn) as (H1 & H2 & H3 & H4). split; [done|]. split.
  - unfold backoff, kInitRetryDelayMs, kMaxRetryDelayMs. pose proof (Z.pow_pos_nonneg 2 (Z.of_nat n)). lia.
  - rewrite refusals_S, Hn. cbn [mbind option_bind act]. rewrite H2, bool_decide_false by done. eauto.
Qed.

Fixpoint drain (n : nat) (e : Errno) (c : TcpClient) : option TcpClient :=
  match n with
  | O => Some c
  | S n => c1 ← act c (RunFunctor e); drain n e c1
  end.

(** A functor run while [connect_] is off starts nothing. *)
Lemma functor_when_stopped c f fs e c' :
  connect_ c = false → functors c = f :: fs → act c (RunFunctor e) = Some c' →
  connect_ c' = false ∧ (∃ more, functors c' = fs ++ more) ∧ next_fd c' = next_fd c ∧
  (state_ c ≠ kConnecting ∨ f = StopInLoop → state_ c' ≠ kConnecting).
Proof.
  intros Hc Hf. cbn [act]. rewrite Hf. intros [= <-].
  assert (Hnil : ∃ more, fs = fs ++ more) by (exists []; by rewrite app_nil_r).
  destruct f as [| | |fd]; cbn [run_functor].
  - unfold startInLoop. cbn [connect_ set_functors]. rewrite Hc.
    split; [done|]. split; [done|]. split; [done|]. by intros [?|?].
  - unfold stopInLoop. cbn [state_ set_functors]. case_bool_decide as Hs.
    + unfold removeAndResetChannel. cbn. split; [done|]. split; [by eexists|]. by split.
    + split; [done|]. split; [done|]. by split.
  - split; [done|]. split; [done|]. split; [done|]. by intros [?|?].
  - split; [done|]. split; [done|]. split; [done|]. by intros [?|?].
Qed.

Lemma drain_to_stop fs c rest e c' :
  connect_ c = false → functors c = fs ++ StopInLoop :: rest → drain (S (length fs)) e c = Some c' →
  connect_ c' = false ∧ state_ c' ≠ kConnecting ∧ next_fd c' = next_fd c.
Proof.
  revert c rest. induction fs as [|f fs IH]; intros c rest Hc Hf.
  - cbn [length drain]. destruct (act c (RunFunctor e)) as [c1|] eqn:E; [|done]. cbn. intros [= <-].
    destruct (functor_when_stopped c StopInLoop rest e c1 Hc Hf E) as (H1 & _ & H3 & H4). auto.
  - cbn [length]. change (drain (S (S (length fs))) e c) with (c1 ← act c (RunFunctor e); drain (S (length fs)) e c1).
    destruct (act c (RunFunctor e)) as [c1|] eqn:E; [|done]. cbn [mbind option_bind]. intros Hd.
    destruct (functor_when_stopped c f _ e c1 Hc Hf E) as (H1 & (more & H2) & H3 & _).
    rewrite <-app_assoc in H2. destruct (IH c1 _ H1 H2 Hd) as (I1 & I2 & I3). split_and!; [done|done|congruence].
Qed.

(** [stop] stops.  When the functors queued up to [stop] have run, the
    connector holds no socket and has nothing registered, no matter at what
    point of connecting or retrying it was; and a retry timer that fires later
    makes no attempt. *)
Theorem stop_ends_it (c c1 c2 : TcpClient) (e : Errno) (Hr : reachable c)
    (Hstop : act c Stop = Some c1) (Hdrain : drain (length (functors c1)) e c1 = Some c2) :
  connect_ c2 = false ∧ state_ c2 ≠ kConnecting ∧ held c2 = ∅ ∧ registered c2 = ∅ ∧
  ∀ e' c3, act c2 (TimerFires e') = Some c3 → held c3 = ∅ ∧ next_fd c3 = next_fd c2 ∧ state_ c3 = state_ c2.
Proof.
  assert (Hr2 : ∀ n c0 c', reachable c0 → drain n e c0 = Some c' → reachable c').
  { clear. induction n as [|n IH]; intros c0 c' H0; [by intros [= <-]|]. cbn [drain].
    destruct (act c0 (RunFunctor e)) as [c1|] eqn:E; [|done]. cbn [mbind option_bind].
    apply IH. by eapply (reachable_act c0 (RunFunctor e)). }
  assert (H1 : reachable c1) by (by eapply (reachable_act c Stop)).
  pose proof (reachable_inv c2 (Hr2 _ _ _ H1 Hdrain)) as Hinv. cbn in Hstop. injection Hstop as <-.
  unfold stop, connector_stop in Hdrain. cbn [functors queueInLoop set_functors set_connect set_client_connect] in Hdrain.
  rewrite length_app in Hdrain. cbn [length] in Hdrain. rewrite Nat.add_1_r in Hdrain.
  edestruct (drain_to_stop (functors c)) as (D1 & D2 & D3); [..|exact Hdrain|]; [done|done|].
  pose proof (inv_free c2 Hinv D2) as [F1 F2 F3 F4 F5 F6]. split_and!; try done.
  intros e' c3. cbn [act]. destruct (timers c2) as [|d ts]; [done|]. case_bool_decide; [done|]. intros [= <-].
  unfold startInLoop. cbn [connect_ set_timers]. by rewrite D1.
Qed.

(** ** The end of a client

    The destructor gives the connection a close callback that does not mention
    the client, and shuts it down when nobody else holds it ([unique]); without
    a connection it stops the connector. *)

Definition TcpClient_destroy (c : TcpClient) (unique : bool) : list ConnCall * TcpClient :=
  match connection_ c with
  | Some fd => (SetCloseCallback fd :: (if unique then [Shutdown fd] else []), c)
  | None => ([], connector_stop c)
  end.

(** The functors bound to a plain pointer to the connector. *)
Definition uses_connector (f : Functor) : bool := match f with ConnectDestroyed _ => false | _ => true end.

(** The client's own reference gone, only a pending retry owns the connector
    ([shared_from_this]); functors and channel callbacks do not. *)
Definition connector_freed (c : TcpClient) : bool := bool_decide (timers c = []).

Definition used_after_free (c : TcpClient) : Prop :=
  connector_freed c = true ∧ ((∃ f, f ∈ functors c ∧ uses_connector f = true) ∨ registered c ≠ ∅).

(** A client may be destroyed when it is connected and the connector has no
    functor left, or while a retry is pending; otherwise the destructor queues
    [stopInLoop] for a connector that it then frees. *)
Theorem destroyed_safely_iff (c : TcpClient) (unique : bool) (Hr : reachable c) :
  ¬ used_after_free (TcpClient_destroy c unique).2 ↔
  timers c ≠ [] ∨ (is_Some (connection_ c) ∧ ∀ f, f ∈ functors c → uses_connector f = false).
Proof.
  pose proof (reachable_inv c Hr) as [_ Hs _ _ _]. unfold used_after_free, connector_freed, TcpClient_destroy.
  destruct (connection_ c) as [fd|] eqn:Ec; cbn [snd].
  - assert (Hreg : registered c = ∅).
    { destruct Hs as [[x Hb]|Hf]; [by rewrite (busy_connection _ _ Hb) in Ec|apply Hf]. }
    rewrite bool_decide_eq_true, Hreg. split.
    + intros H. destruct (decide (timers c = [])) as [Ht|Ht]; [right|by left]. split; [eauto|].
      intros f Hf. apply not_true_is_false. intros Hu. apply H. eauto.
    + intros [Ht|[_ Hall]] [Hz [(f & Hf & Hu)|?]]; [done..| |done]. by rewrite (Hall f Hf) in Hu.
  - cbn [timers functors connector_stop queueInLoop set_functors set_connect]. rewrite bool_decide_eq_true. split.
    + intros H. left. intros Ht. apply H. split; [done|]. left. exists StopInLoop. split; [set_solver|done].
    + intros [Ht|[[? ?] _]] [Hz _]; done.
Qed.

(** ** Examples *)

(** A client that never connected is destroyed. *)
Example destroyed_before_connecting :
  let c := (TcpClient_destroy TcpClient_new true).2 in
  (connector_freed c, functors c) = (true, [StopInLoop]).
Proof. reflexivity. Qed.

Fixpoint runs (acts : list Act) (c : TcpClient) : option TcpClient :=
  match acts with
  | [] => Some c
  | a :: rest => c1 ← act c a; runs rest c1
  end.

(** Stopping and starting again while a retry is pending makes two attempts:
    the second one destroys the channel of the first while it is registered,
    and the socket of the first is lost. *)
Example restart_with_retry_pending :
  (λ c, (dangling c, elements (held c), channel_ c)) <$>
    runs [Connect true ECONNREFUSED; Stop; RunFunctor E0; Connect true EINPROGRESS; TimerFires EINPROGRESS] TcpClient_new
  = Some (true, [2; 1], Some 2).
Proof. vm_compute. reflexivity. Qed.

(** [stop] and [connect] from another thread while connecting: the functor
    that destroys the old channel comes after the one that makes the new. *)
Example stop_then_connect_elsewhere :
  (λ c, (dangling c, state_ c, channel_ c)) <$>
    runs [Connect true EINPROGRESS; Stop; Connect false E0; RunFunctor E0; RunFunctor EINPROGRESS; RunFunctor E0] TcpClient_new
  = Some (true, kConnecting, None).
Proof. vm_compute. reflexivity. Qed.

(** An error [connect] does not expect ends the attempts: with retrying
    switched on, a client that meets [ETIMEDOUT] never tries again. *)
Example unexpected_errno_gives_up :
  (λ c, (state_ c, timers c, connect_ c)) <$> runs [EnableRetry; Connect true EOther] TcpClient_new
  = Some (kDisconnected, [], true).
Proof. vm_compute. reflexivity. Qed.

Lemma runs_reachable acts c c' :
  reachable c → (∀ a, a ∈ acts → ∀ i e, a ≠ Connect i e) → runs acts c = Some c' → reachable c'.
Proof.
  revert c. induction acts as [|a acts IH]; intros c Hr Hp; [by intros [= <-]|]. cbn [runs].
  destruct (act c a) as [c1|] eqn:E; [|done]. cbn [mbind option_bind]. apply IH.
  - eapply reachable_act; [done| |done]. destruct a; try done. by destruct (Hp _ ltac:(left) inLoop e).
  - intros b Hb. apply Hp. by right.
Qed.

Lemma quiet_new : quiet TcpClient_new.
Proof. split_and!; cbn; try done; set_solver. Qed.

Lemma quiet_retry : quiet (enableRetry TcpClient_new).
Proof. split_and!; cbn; try done; set_solver. Qed.

Local Notation sample_rest := [TimerFires EINPROGRESS; Writable true; RunFunctor E0; TimerFires EINPROGRESS;
   Writable false; RunFunctor E0; PeerCloses EINPROGRESS].

Lemma act_connect c i e : act c (Connect i e) = Some (client_connect c i e).
Proof. reflexivity. Qed.

Local Notation started := (client_connect (enableRetry TcpClient_new) true ECONNREFUSED).

Lemma started_reachable : reachable started.
Proof.
  apply (reachable_act (enableRetry TcpClient_new) (Connect true ECONNREFUSED)); [|exact quiet_retry|apply act_connect].
  by apply (reachable_act TcpClient_new EnableRetry); [apply reachable_new| |].
Qed.

Lemma rest_polite a : a ∈ sample_rest → ∀ i e, a ≠ Connect i e.
Proof. intros Ha i e ->. set_solver. Qed.

Lemma sample_state : state_ <$> runs sample_rest started = Some kConnecting.
Proof. vm_compute. reflexivity. Qed.

Lemma sample_stops : is_Some (c ← runs sample_rest started; c1 ← act c Stop; drain (length (functors c1)) E0 c1).
Proof. vm_compute. eauto. Qed.

(** Refused and retried, an error on the socket, connected, closed by the
    peer, connecting again, and then stopped. *)
Lemma stopped_life :
  ∃ c c1 c2, reachable c ∧ state_ c = kConnecting ∧ act c Stop = Some c1 ∧ drain (length (functors c1)) E0 c1 = Some c2.
Proof.
  pose proof sample_state as H. pose proof sample_stops as Hs. pose proof started_reachable as H0.
  revert H Hs H0. generalize started. intros c0 H Hs H0.
  destruct (runs sample_rest c0) as [c|] eqn:E; [|discriminate H]. injection H as H. exists c.
  cbn [mbind option_bind] in Hs. destruct (act c Stop) as [c1|] eqn:E1; [|by destruct Hs].
  destruct Hs as [c2 E2]. exists c1, c2. split; [|split; [exact H|split; [reflexivity|exact E2]]].
  exact (runs_reachable sample_rest c0 c H0 rest_polite E).
Qed.

Lemma connector_no_leak_witness : ∃ c, reachable c ∧ NoDup (handed c).
Proof.
  destruct stopped_life as (c & _ & _ & Hr & _). exists c. split; [exact Hr|].
  exact (proj1 (proj2 (proj2 (connector_no_leak c Hr)))).
Defined.

Lemma retry_backoff_witness :
  ∃ c0 cn, act TcpClient_new (Connect true ECONNREFUSED) = Some c0 ∧ refusals 7 c0 = Some cn ∧ timers cn = [30000%Z].
Proof.
  destruct (act TcpClient_new (Connect true ECONNREFUSED)) as [c0|] eqn:E0; [|by vm_compute in E0].
  assert (H : is_Some (refusals 7 c0)) by (injection E0 as <-; vm_compute; eauto). destruct H as [cn E].
  exists c0, cn. split; [done|]. split; [done|].
  exact (proj1 (retry_backoff TcpClient_new c0 cn 7 eq_refl quiet_new E0 E)).
Defined.

Lemma stop_ends_it_witness :
  ∃ c c1 c2, state_ c = kConnecting ∧ act c Stop = Some c1 ∧ drain (length (functors c1)) E0 c1 = Some c2 ∧ held c2 = ∅.
Proof.
  destruct stopped_life as (c & c1 & c2 & Hr & Hc & E1 & E2). exists c, c1, c2.
  split; [exact Hc|]. split; [exact E1|]. split; [exact E2|]. apply (stop_ends_it c c1 c2 E0 Hr E1 E2).
Defined.

Lemma destroyed_safely_iff_witness : reachable started ∧ ¬ used_after_free (TcpClient_destroy started true).2.
Proof.
  split; [exact started_reachable|]. apply (destroyed_safely_iff started true started_reachable). left.
  vm_compute. discriminate.
Defined.
