(* ===== verification/Config.v ===== *)
(** * Config: the INI reader

    Models [src/config/Config.h].  A file is its contents, or nothing when it
    cannot be opened; the singleton is a value that the operations return
    changed.  Loading never removes an entry. *)

From S2P Require Import Prelude.

Open Scope nat_scope.

(** ** [std::getline] *)

(** The lines a loop over [std::getline] sees: a delimiter at the end of the
    text does not start another line. *)
Fixpoint getlines (delim : ascii) (s : str) : list str :=
  match s with
  | [] => []
  | c :: s' =>
      if bool_decide (c = delim) then [] :: getlines delim s'
      else match getlines delim s' with
           | l :: ls => (c :: l) :: ls
           | [] => [[c]]
           end
  end.

(** ** [ConfigValue] *)

Definition ConfigValue : Type := str.

Definition asString (v : ConfigValue) : str := v.
Definition asInt (v : ConfigValue) : option Z := stoi v.
(** [std::stoll]: [None] is the exception. *)
Definition asInt64 (v : ConfigValue) : option Z :=
  match scan_int v with
  | Some (neg, n) => let x := if neg then (- n)%Z else n in if ((- 2 ^ 63 <=? x) && (x <? 2 ^ 63))%Z then Some x else None
  | None => None
  end.
Definition asBool (v : ConfigValue) : bool := bool_decide (v = #"true") || bool_decide (v = #"1").
Definition asList (delim : ascii) (v : ConfigValue) : list str := getlines delim v.

(** ** [Config] *)

Record Config := mkConfig { filename_ : str; values_ : gmap str ConfigValue }.

Definition Config_new : Config := mkConfig [] ∅.

Definition trim (line : str) : str := rskip_chars [SP; TAB] (skip_chars [SP; TAB] line).

(** A value without the quotes around it. *)
Definition unquote (value : str) : str :=
  if (2 <=? length value) && bool_decide (head value = Some DQ) && bool_decide (last value = Some DQ)
  then substr value 1 (length value - 2) else value.

(** One turn of the loop of [load]: the current section and the entries. *)
Definition load_line (st : str * gmap str ConfigValue) (raw : str) : str * gmap str ConfigValue :=
  let '(section, values) := st in
  let line := trim raw in
  match line with
  | [] => st
  | c :: _ =>
      if bool_decide (c = "#"%char) then st
      else if bool_decide (c = "["%char) && bool_decide (last line = Some "]"%char)
      then (substr line 1 (length line - 2) ++ #".", values)
      else match find [("=")%char] line 0 with
           | Some eq =>
               let key := substr line 0 eq in
               let value := drop (eq + 1) line in
               (section, <[section ++ key := unquote value]> values)
           | None => st
           end
  end.

Definition load (c : Config) (filename : str) (file : option str) : bool * Config :=
  match file with
  | None => (false, c)
  | Some text => (true, mkConfig filename (foldl load_line ([], values_ c) (getlines LF text)).2)
  end.

Definition reload (c : Config) (files : str → option str) : bool * Config :=
  if bool_decide (filename_ c = []) then (false, c) else load c (filename_ c) (files (filename_ c)).

Definition get (c : Config) (key defaultValue : str) : ConfigValue := default defaultValue (values_ c !! key).
Definition set (c : Config) (key value : str) : Config := mkConfig (filename_ c) (<[key := value]> (values_ c)).
Definition has (c : Config) (key : str) : bool := bool_decide (is_Some (values_ c !! key)).

(** ** Writing a file *)

(** What a file says: entries, and named sections of entries. *)
Definition Entries : Type := list (str * str).

Definition put_entry (e : str * str) : str := e.1 ++ #"=" ++ [DQ] ++ e.2 ++ [DQ] ++ [LF].
Definition put_entries (es : Entries) : str := mjoin (put_entry <$> es).
Definition put_section (s : str * Entries) : str := #"[" ++ s.1 ++ #"]" ++ [LF] ++ put_entries s.2.
Definition put_file (global : Entries) (sections : list (str * Entries)) : str :=
  put_entries global ++ mjoin (put_section <$> sections).

(** A key may hold anything but a line break and an equals sign, and starts
    with a character that is neither white space nor ["#"]; values and section
    names are only kept from breaking the line. *)
Definition key_ok (k : str) : Prop :=
  LF ∉ k ∧ "="%char ∉ k ∧ match k with [] => True | c :: _ => c ∉ [SP; TAB; "#"%char] end.
Definition entry_ok (e : str * str) : Prop := key_ok e.1 ∧ LF ∉ e.2.
Definition section_ok (s : str * Entries) : Prop := LF ∉ s.1 ∧ Forall entry_ok s.2.

(** The entries in file order under their full names. *)
Definition full_name (section : str) (e : str * str) : str * str := (section ++ e.1, e.2).
Definition file_entries (global : Entries) (sections : list (str * Entries)) : Entries :=
  global ++ mjoin ((λ s : str * Entries, full_name (s.1 ++ #".") <$> s.2) <$> sections).

Definition store (m : gmap str str) (e : str * str) : gmap str str := <[e.1 := e.2]> m.

(** ** Lines *)

Lemma getlines_line d l s : d ∉ l → getlines d (l ++ d :: s) = l :: getlines d s.
Proof.
  induction l as [|c l IH]; intros Hd; cbn [app getlines].
  - by rewrite bool_decide_true.
  - rewrite bool_decide_false by set_solver. by rewrite IH by set_solver.
Qed.

Lemma getlines_last d l : d ∉ l → l ≠ [] → getlines d l = [l].
Proof.
  induction l as [|c l IH]; intros Hd Hl; [done|]. cbn [getlines].
  rewrite bool_decide_false by set_solver. destruct l as [|c' l]; [done|]. by rewrite IH by set_solver.
Qed.

Lemma trim_id s :
  match s with [] => True | c :: _ => c ∉ [SP; TAB] end → match last s with None => True | Some c => c ∉ [SP; TAB] end →
  trim s = s.
Proof.
  intros H1 H2. unfold trim. rewrite skip_chars_nil by done. unfold rskip_chars.
  rewrite skip_chars_nil; [by rewrite rev_involutive|].
  destruct (rev s) as [|c r] eqn:E; [done|]. apply (f_equal (@rev ascii)) in E. rewrite rev_involutive in E. subst s.
  cbn [rev] in H2. by rewrite last_snoc in H2.
Qed.

Lemma skip_chars_left cs w s : Forall (.∈ cs) w → skip_chars cs (w ++ s) = skip_chars cs s.
Proof. induction 1; [done|]. cbn [app skip_chars]. by rewrite bool_decide_true. Qed.

Lemma skip_chars_app cs s t :
  skip_chars cs (s ++ t) = match skip_chars cs s with [] => skip_chars cs t | c :: r => (c :: r) ++ t end.
Proof. induction s as [|c s IH]; [done|]. cbn [app skip_chars]. by case_bool_decide. Qed.

Lemma trim_left w s : Forall (.∈ [SP; TAB]) w → trim (w ++ s) = trim s.
Proof. intros H. unfold trim. by rewrite skip_chars_left. Qed.

Lemma trim_right w s : Forall (.∈ [SP; TAB]) w → trim (s ++ w) = trim s.
Proof.
  intros H. unfold trim, rskip_chars. rewrite skip_chars_app. destruct (skip_chars _ s) as [|c r].
  - by rewrite <-(app_nil_r w), skip_chars_left.
  - rewrite rev_app_distr, skip_chars_left; [done|]. by apply Forall_rev.
Qed.

(** Trimming keeps a first character that is not white space. *)
Lemma trim_head s c t : s = c :: t → c ∉ [SP; TAB] → ∃ r, trim s = c :: r.
Proof.
  intros -> Hc. unfold trim. rewrite skip_chars_nil by done. unfold rskip_chars. cbn [rev]. rewrite skip_chars_app.
  destruct (skip_chars _ (rev t)) as [|a r].
  - cbn [skip_chars]. rewrite bool_decide_false by done. by exists [].
  - rewrite rev_app_distr. by eexists.
Qed.

Lemma unquote_quoted v : unquote ([DQ] ++ v ++ [DQ]) = v.
Proof.
  unfold unquote. rewrite !length_app. cbn [length]. rewrite (bool_decide_true (head _ = _)) by done.
  rewrite app_assoc, last_snoc, bool_decide_true by done. destruct (_ <=? _) eqn:E; [|apply Nat.leb_gt in E; lia].
  cbn [andb]. unfold substr. cbn [app drop]. rewrite drop_0. replace (_ - 2) with (length v) by lia. apply take_app_length.
Qed.

Lemma load_entry sec m e :
  entry_ok e → load_line (sec, m) (e.1 ++ #"=" ++ [DQ] ++ e.2 ++ [DQ]) = (sec, store m (full_name sec e)).
Proof.
  destruct e as [k v]. cbn [fst snd]. intros [(_ & Hk & Hc) Hv]. unfold load_line.
  change (k ++ #"=" ++ [DQ] ++ v ++ [DQ]) with (k ++ ("="%char :: DQ :: v) ++ [DQ]).
  assert (Hl : last (k ++ ("="%char :: DQ :: v) ++ [DQ]) = Some DQ) by (rewrite app_assoc; apply last_snoc).
  rewrite trim_id; [|destruct k; cbn in *; set_solver|by rewrite Hl; set_solver].
  destruct (k ++ ("="%char :: DQ :: v) ++ [DQ]) as [|c line] eqn:E; [by destruct k|].
  assert (Hc0 : c ≠ "#"%char) by (destruct k; cbn in E; injection E as <- _; [done|cbn in Hc; set_solver]).
  rewrite bool_decide_false by done. rewrite Hl, <-E.
  rewrite (bool_decide_false (Some DQ = _)) by done. rewrite andb_false_r. cbn [app].
  rewrite find_0, find0_char by done. unfold store, full_name. cbn [fst snd].
  rewrite substr_prefix by done. rewrite <-drop_drop, drop_app_length. cbn [drop].
  change (DQ :: v ++ [DQ]) with ([DQ] ++ v ++ [DQ]). by rewrite unquote_quoted.
Qed.

Lemma load_section sec m name :
  load_line (sec, m) (#"[" ++ name ++ #"]") = (name ++ #".", m).
Proof.
  unfold load_line. change (#"[" ++ name ++ #"]") with ("["%char :: name ++ ["]"%char]).
  assert (Hl : last ("["%char :: name ++ ["]"%char]) = Some "]"%char) by (rewrite app_comm_cons; apply last_snoc).
  rewrite trim_id; [|cbn; set_solver|by rewrite Hl; set_solver].
  rewrite bool_decide_false by done. rewrite Hl, !bool_decide_true by done. cbn [andb].
  unfold substr. cbn [drop length]. rewrite drop_0, length_app, take_app_length'; [done|]. cbn [length]. lia.
Qed.

Lemma load_entries es sec m rest :
  Forall entry_ok es →
  foldl load_line (sec, m) (getlines LF (put_entries es ++ rest)) =
  foldl load_line (sec, foldl store m (full_name sec <$> es)) (getlines LF rest).
Proof.
  revert m. induction es as [|[k v] es IH]; intros m Hes; [done|]. apply Forall_cons in Hes as [He Hes].
  change (put_entries ((k, v) :: es)) with (put_entry (k, v) ++ put_entries es).
  rewrite <-app_assoc. unfold put_entry. cbn [fst snd].
  pose proof (load_entry sec m (k, v) He) as Hl. destruct He as [(H1 & H2 & _) H3]. cbn [fst snd] in *.
  replace ((k ++ #"=" ++ [DQ] ++ v ++ [DQ] ++ [LF]) ++ put_entries es ++ rest)
    with ((k ++ #"=" ++ [DQ] ++ v ++ [DQ]) ++ LF :: put_entries es ++ rest) by (by rewrite <-!app_assoc).
  rewrite getlines_line by (rewrite !elem_of_app; change (lit "=") with ["="%char]; set_solver).
  cbn [foldl fmap list_fmap]. rewrite Hl. by apply IH.
Qed.

Lemma load_sections ss sec m :
  Forall section_ok ss →
  (foldl load_line (sec, m) (getlines LF (mjoin (put_section <$> ss)))).2 =
  foldl store m (mjoin ((λ s : str * Entries, full_name (s.1 ++ #".") <$> s.2) <$> ss)).
Proof.
  revert sec m. induction ss as [|[name es] ss IH]; intros sec m Hs; [done|]. apply Forall_cons in Hs as [[Hn Hes] Hs].
  cbn [fmap list_fmap]. rewrite !mjoin_cons. unfold put_section. cbn [fst snd] in *.
  replace ((#"[" ++ name ++ #"]" ++ [LF] ++ put_entries es) ++ mjoin (put_section <$> ss))
    with ((#"[" ++ name ++ #"]") ++ LF :: put_entries es ++ mjoin (put_section <$> ss)) by (by rewrite <-!app_assoc).
  rewrite getlines_line by (rewrite !elem_of_app; change (lit "[") with ["["%char]; change (lit "]") with ["]"%char]; set_solver).
  cbn [foldl]. rewrite load_section, load_entries by done. rewrite foldl_app. by apply IH.
Qed.

(** ** Correctness *)

(** Loading what [put_file] writes gives back every entry under its full
    name, later entries replacing earlier ones and entries of a previous file
    staying; the values are kept to the byte, white space, quotes and comment
    signs included. *)
Theorem load_put_file (c : Config) (filename : str) (global : Entries) (sections : list (str * Entries))
    (Hg : Forall entry_ok global) (Hs : Forall section_ok sections) :
  load c filename (Some (put_file global sections)) =
  (true, mkConfig filename (foldl store (values_ c) (file_entries global sections))).
Proof.
  unfold load, put_file, file_entries. rewrite load_entries by done. do 2 f_equal.
  rewrite load_sections, foldl_app by done. f_equal. f_equal.
  rewrite <-(list_fmap_id global) at 2. by apply list_fmap_ext; intros ? [].
Qed.

(** A comment, an empty line or one of white space changes nothing, and
    neither does white space around a line. *)
Theorem load_line_layout (st : str * gmap str ConfigValue) (l w1 w2 : str)
    (H1 : Forall (.∈ [SP; TAB]) w1) (H2 : Forall (.∈ [SP; TAB]) w2) :
  load_line st (w1 ++ l ++ w2) = load_line st l ∧
  load_line st (w1 ++ #"#" ++ l) = st ∧ load_line st w1 = st.
Proof.
  assert (Hb : trim w1 = []) by (rewrite <-(app_nil_r w1); by rewrite trim_left).
  unfold load_line. rewrite Hb, (trim_left w1 (l ++ w2)), trim_right by done. split; [done|]. split; [|by destruct st].
  rewrite (trim_left w1) by done.
  destruct (trim_head (#"#" ++ l) "#"%char l) as [r ->]; [done|set_solver|]. destruct st. by rewrite bool_decide_true.
Qed.

(** ** Values *)

(** A list written with a separator is read back, as long as its last item
    is not empty. *)
Theorem asList_join (d : ascii) (items : list str) (last : str)
    (Hi : Forall (d ∉.) items) (Hl : d ∉ last) (Hne : last ≠ []) :
  asList d (mjoin ((.++ [d]) <$> items) ++ last) = items ++ [last].
Proof.
  unfold asList. induction Hi as [|i items Hd _ IH]; [by apply getlines_last|].
  cbn [fmap list_fmap]. rewrite mjoin_cons, <-!app_assoc. cbn [app]. by rewrite getlines_line, IH.
Qed.

(** ** Examples *)

Definition sample_file : str :=
  put_file [(#"name", #" a=b ")] [(#"server", [(#"port", #"8080"); (#"hosts", #"a,b,c")]); (#"log", [(#"level", #"INFO")])].

Lemma load_put_file_witness :
  load Config_new #"x" (Some sample_file) =
  (true, mkConfig #"x" (foldl store ∅ [(#"name", #" a=b "); (#"server.port", #"8080"); (#"server.hosts", #"a,b,c");
                                       (#"log.level", #"INFO")])).
Proof.
  apply (load_put_file Config_new #"x" [(#"name", #" a=b ")]
           [(#"server", [(#"port", #"8080"); (#"hosts", #"a,b,c")]); (#"log", [(#"level", #"INFO")])]).
  - repeat constructor; vm_compute; set_solver.
  - repeat constructor; vm_compute; set_solver.
Defined.

Lemma load_line_layout_witness :
  load_line ([], ∅) (#"  " ++ #"port=80" ++ #" ") = load_line ([], ∅) #"port=80".
Proof. apply (load_line_layout ([], ∅) #"port=80" #"  " #" "); repeat constructor; set_solver. Defined.

Lemma asList_join_witness : asList ","%char #"a,,b" = [ #"a"; []; #"b"].
Proof. apply (asList_join ","%char [ #"a"; []] #"b"); [repeat constructor; vm_compute; set_solver|set_solver|done]. Defined.

(** A trailing empty item is lost. *)
Example asList_trailing : asList ","%char #"a,b," = [ #"a"; #"b"].
Proof. reflexivity. Qed.

(** A file laid out as the shipped configuration and the documentation do,
    with spaces around the equals sign, is not readable by its keys: the space
    is part of the key, and the value asked for is the default. *)
Example spaced_keys_are_lost :
  let c := (load Config_new #"server.conf" (Some (#"[server]" ++ [LF] ++ #"port = 8080" ++ [LF]))).2 in
  get c #"server.port" [] = [] ∧ asInt (get c #"server.port" []) = None ∧ get c #"server.port " [] = #" 8080".
Proof. split_and!; vm_compute; reflexivity. Qed.
