(* ===== verification/ConnectionPool.v ===== *)
(** * ConnectionPool: idle connections, blocked clients and the health check

    Models [src/pool/ConnectionPool.h].  Connections are numbered in the order
    in which they are made.  Every critical section of the pool's mutex is a
    step; between them, threads sleep on the condition variable, are on their
    way to the mutex after a notification, or are connecting outside the lock.
    Whether [createConnection] succeeds comes with the step. *)

From S2P Require Import Prelude.

Open Scope Z_scope.

Record Connection := mkConn { fd_ : Z; lastUsed_ : Z }.

Definition Connection_new (fd : Z) : Connection := mkConn fd 0.
Definition valid (c : Connection) : bool := 0 <=? fd_ c.
Definition markUsed (c : Connection) (now : Z) : Connection := mkConn (fd_ c) now.

Record ConnectionPool := mkPool {
  minSize_ : Z;
  maxSize_ : Z;
  totalCreated_ : Z;
  closed_ : bool;
  pool_ : list nat
}.

Definition set_total (p : ConnectionPool) (t : Z) : ConnectionPool := mkPool (minSize_ p) (maxSize_ p) t (closed_ p) (pool_ p).
Definition set_pool (p : ConnectionPool) (q : list nat) : ConnectionPool :=
  mkPool (minSize_ p) (maxSize_ p) (totalCreated_ p) (closed_ p) q.

(** The pool, its connections, and where the threads that use it are. *)
Record World := mkWorld {
  pl : ConnectionPool;
  conns : gmap nat Connection;
  next_conn : nat;
  creating : nat;        (* in [createConnection], outside the lock *)
  sleeping : nat;        (* in [wait_for], not notified *)
  notified : nat;        (* notified, on the way to the mutex *)
  out : gset nat;        (* given to clients *)
  lost : nat             (* dropped by a client without [release] *)
}.

Definition set_pl (w : World) (p : ConnectionPool) : World :=
  mkWorld p (conns w) (next_conn w) (creating w) (sleeping w) (notified w) (out w) (lost w).
Definition set_threads (w : World) (c s n : nat) : World :=
  mkWorld (pl w) (conns w) (next_conn w) c s n (out w) (lost w).
Definition set_conns (w : World) (m : gmap nat Connection) : World :=
  mkWorld (pl w) m (next_conn w) (creating w) (sleeping w) (notified w) (out w) (lost w).
Definition set_out (w : World) (o : gset nat) : World :=
  mkWorld (pl w) (conns w) (next_conn w) (creating w) (sleeping w) (notified w) o (lost w).

Definition notify_one (w : World) : World :=
  match sleeping w with
  | O => w
  | S n => set_threads w (creating w) n (S (notified w))
  end.

Definition notify_all (w : World) : World := set_threads w (creating w) 0 (sleeping w + notified w).

(** The connections the constructor makes; it runs before anybody uses the
    pool, and keeps only the attempts that succeed. *)
Definition ConnectionPool_new (minSize maxSize : Z) (made : nat) : World :=
  mkWorld (mkPool minSize maxSize (Z.of_nat made) false (seq 0 made))
    (list_to_map ((λ i, (i, Connection_new (Z.of_nat i))) <$> seq 0 made)) made 0 0 0 ∅ 0.

(** ** [acquire] *)

(** The predicate of the wait. *)
Definition ready (p : ConnectionPool) : bool :=
  closed_ p || negb (bool_decide (pool_ p = [])) || (totalCreated_ p <? maxSize_ p).

Inductive Outcome := Nullptr | Got (c : nat) | Connecting.

(** After the wait, with the lock. *)
Definition take (w : World) (now : Z) : Outcome * World :=
  let p := pl w in
  if closed_ p then (Nullptr, w)
  else match pool_ p with
       | conn :: rest =>
           (Got conn, set_out (set_conns (set_pl w (set_pool p rest)) (alter (λ c, markUsed c now) conn (conns w)))
                        (out w ∪ {[conn]}))
       | [] =>
           if totalCreated_ p <? maxSize_ p
           then (Connecting, set_threads (set_pl w (set_total p (u64 (totalCreated_ p + 1)))) (S (creating w)) (sleeping w) (notified w))
           else (Nullptr, w)
       end.

(** [createConnection] has returned: the rest of [acquire]. *)
Definition created (w : World) (ok : bool) : Outcome * World :=
  let w1 := set_threads w (Nat.pred (creating w)) (sleeping w) (notified w) in
  if ok
  then (Got (next_conn w),
        mkWorld (pl w1) (<[next_conn w := Connection_new (Z.of_nat (next_conn w))]> (conns w1)) (S (next_conn w))
          (creating w1) (sleeping w1) (notified w1) (out w1 ∪ {[next_conn w]}) (lost w1))
  else (Nullptr, set_pl w1 (set_total (pl w1) (u64 (totalCreated_ (pl w1) - 1)))).

(** ** [release], [healthCheck], the destructor *)

Definition uncount (p : ConnectionPool) : ConnectionPool :=
  if 0 <? totalCreated_ p then set_total p (u64 (totalCreated_ p - 1)) else p.

Definition release (w : World) (conn : option nat) : World :=
  match conn ≫= λ c, (λ o, (c, o)) <$> conns w !! c with
  | None => w
  | Some (c, o) =>
      if negb (valid o) then notify_one (set_pl w (uncount (pl w)))
      else
        let p := pl w in
        notify_one (set_pl w (if closed_ p || (maxSize_ p <=? zlen (pool_ p)) then uncount p else set_pool p (pool_ p ++ [c])))
  end.

(** The loop of [healthCheck] over the queue, with the connections it keeps. *)
Fixpoint check_loop (now : Z) (m : gmap nat Connection) (p : ConnectionPool) (q kept : list nat) : ConnectionPool * list nat :=
  match q with
  | [] => (p, kept)
  | c :: q =>
      let used := default 0 (lastUsed_ <$> m !! c) in
      if (60 <? i64 (now - used)) && (minSize_ p <=? zlen kept)
      then check_loop now m (uncount p) q kept
      else check_loop now m p q (kept ++ [c])
  end.

Definition healthCheck (w : World) (now : Z) : World :=
  let p := pl w in
  if closed_ p then w
  else let '(p1, kept) := check_loop now (conns w) p (pool_ p) [] in set_pl w (set_pool p1 kept).

(** The two critical sections of [~ConnectionPool]. *)
Definition close (w : World) : World :=
  let p := pl w in notify_all (set_pl w (mkPool (minSize_ p) (maxSize_ p) (totalCreated_ p) true (pool_ p))).
Definition clear (w : World) : World := set_pl w (set_pool (pl w) []).

Definition available (w : World) : Z := zlen (pool_ (pl w)).
Definition isClosed (w : World) : bool := closed_ (pl w).

(** ** Runs *)

Inductive Act :=
  | Acquire (now : Z)          (* a client calls [acquire] *)
  | Wakes (now : Z)            (* a notified thread has the mutex again *)
  | TimesOut (now : Z)         (* a sleeping thread's time is over *)
  | Created (ok : bool)        (* a thread is done connecting *)
  | Release (c : nat)          (* a client gives back what it has *)
  | Lose (c : nat)             (* a client drops what it has *)
  | HealthCheck (now : Z)
  | Close | Clear.

Definition goes_on (w : World) (now : Z) : World :=
  if ready (pl w) then (take w now).2 else set_threads w (creating w) (S (sleeping w)) (notified w).

Definition act (w : World) (a : Act) : option World :=
  match a with
  | Acquire now => Some (goes_on w now)
  | Wakes now => match notified w with O => None | S n => Some (goes_on (set_threads w (creating w) (sleeping w) n) now) end
  | TimesOut now => match sleeping w with O => None | S n => Some (take (set_threads w (creating w) n (notified w)) now).2 end
  | Created ok => match creating w with O => None | S _ => Some (created w ok).2 end
  | Release c => if bool_decide (c ∈ out w) then Some (set_out (release w (Some c)) (out w ∖ {[c]})) else None
  | Lose c => if bool_decide (c ∈ out w)
              then Some (mkWorld (pl w) (conns w) (next_conn w) (creating w) (sleeping w) (notified w) (out w ∖ {[c]}) (S (lost w)))
              else None
  | HealthCheck now => Some (healthCheck w now)
  | Close => Some (close w)
  | Clear => if closed_ (pl w) then Some (clear w) else None
  end.

Fixpoint runs (acts : list Act) (w : World) : option World :=
  match acts with [] => Some w | a :: rest => w1 ← act w a; runs rest w1 end.

(** ** Every connection is accounted for *)

Definition owned (w : World) : Z :=
  zlen (pool_ (pl w)) + Z.of_nat (size (out w)) + Z.of_nat (creating w) + Z.of_nat (lost w).

Record pool_inv (lo hi : Z) (w : World) : Prop := {
  inv_min : minSize_ (pl w) = lo;
  inv_max : maxSize_ (pl w) = hi;
  inv_limits : 0 ≤ lo < 2 ^ 64 ∧ 0 ≤ hi < 2 ^ 64;
  inv_nodup : NoDup (pool_ (pl w));
  inv_apart : ∀ c, c ∈ pool_ (pl w) → c ∉ out w;
  inv_known : ∀ c, c ∈ pool_ (pl w) ∨ c ∈ out w → (c < next_conn w)%nat ∧ valid <$> conns w !! c = Some true;
  inv_total : owned w ≤ totalCreated_ (pl w) ≤ Z.max lo hi;
  inv_exact : closed_ (pl w) = false → owned w = totalCreated_ (pl w)
}.

Lemma owned_pos w : 0 ≤ owned w.
Proof. unfold owned. len; lia. Qed.

Lemma size_add (o : gset nat) c : c ∉ o → Z.of_nat (size (o ∪ {[c]})) = Z.of_nat (size o) + 1.
Proof. intros. rewrite size_union by set_solver. rewrite size_singleton. lia. Qed.

Lemma size_del (o : gset nat) c : c ∈ o → Z.of_nat (size (o ∖ {[c]})) = Z.of_nat (size o) - 1.
Proof.
  intros. rewrite size_difference by set_solver. rewrite size_singleton.
  assert (size o ≠ 0%nat) by (apply size_non_empty_iff; set_solver). lia.
Qed.

(** Where the threads are does not matter to the accounts, connecting apart. *)
Lemma inv_threads lo hi w s n : pool_inv lo hi w → pool_inv lo hi (set_threads w (creating w) s n).
Proof. by intros []. Qed.

Lemma inv_notify lo hi w : pool_inv lo hi w → pool_inv lo hi (notify_one w).
Proof. unfold notify_one. destruct (sleeping w); [done|apply inv_threads]. Qed.

Lemma inv_take lo hi w now : pool_inv lo hi w → pool_inv lo hi (take w now).2.
Proof.
  intros Hinv. destruct (Hinv) as [Hmin Hmax Hlim Hnd Hap Hkn Htot Hex]. unfold take.
  destruct (closed_ (pl w)) eqn:Hc; [done|]. specialize (Hex eq_refl). unfold owned in *.
  destruct (pool_ (pl w)) as [|c rest] eqn:Hp.
  - destruct (totalCreated_ (pl w) <? maxSize_ (pl w)) eqn:Hlt; [|done]. apply Z.ltb_lt in Hlt.
    pose proof (owned_pos w) as H0. unfold owned in H0. rewrite Hp in H0.
    assert (Ht : u64 (totalCreated_ (pl w) + 1) = totalCreated_ (pl w) + 1) by (apply u64_small; lia).
    constructor; cbn; rewrite ?Hp, ?Ht; try done; unfold owned; cbn; rewrite ?Hp; lia.
  - apply NoDup_cons in Hnd as [Hc1 Hnd]. assert (c ∉ out w) by (apply Hap; left).
    constructor; cbn; try done.
    + intros d Hd Hd2. apply elem_of_union in Hd2 as [Hd2|Hd2]; [by apply (Hap d); [by right|]|set_solver].
    + intros d Hd. assert (Hd' : d ∈ c :: rest ∨ d ∈ out w) by set_solver.
      destruct (Hkn d Hd') as [Hl Hv]. split; [done|]. rewrite lookup_alter. destruct (decide (c = d)) as [->|].
      * destruct (conns w !! d); [done|done].
      * done.
    + unfold owned; cbn. rewrite size_add by done. len; lia.
    + intros _. unfold owned; cbn. rewrite size_add by done. len; lia.
Qed.

Lemma inv_created lo hi w ok n : creating w = S n → pool_inv lo hi w → pool_inv lo hi (created w ok).2.
Proof.
  intros Hn [Hmin Hmax Hlim Hnd Hap Hkn Htot Hex]. unfold created, owned in *. rewrite Hn in *. destruct ok.
  - constructor; cbn; try done.
    + intros d Hd Hd2. apply elem_of_union in Hd2 as [Hd2|Hd2]; [by apply (Hap d)|].
      apply elem_of_singleton in Hd2 as ->. destruct (Hkn (next_conn w)) as [? _]; [by left|lia].
    + intros d Hd. destruct (decide (d = next_conn w)) as [->|Hne].
      * rewrite lookup_insert_eq. split; [lia|]. cbn. f_equal. unfold valid. cbn. apply Z.leb_le. lia.
      * rewrite lookup_insert_ne by done. destruct (Hkn d) as [? ?]; [set_solver|]. split; [lia|done].
    + unfold owned; cbn. assert (next_conn w ∉ out w) by (intros H; destruct (Hkn (next_conn w)) as [? _]; [by right|lia]).
      rewrite size_add by done. lia.
    + intros Hc. specialize (Hex Hc). unfold owned; cbn.
      assert (next_conn w ∉ out w) by (intros H; destruct (Hkn (next_conn w)) as [? _]; [by right|lia]).
      rewrite size_add by done. lia.
  - assert (Ht : u64 (totalCreated_ (pl w) - 1) = totalCreated_ (pl w) - 1) by (apply u64_small; len; lia).
    constructor; cbn; rewrite ?Ht; try done; unfold owned; cbn; try lia. intros Hc. specialize (Hex Hc). lia.
Qed.

Lemma inv_release lo hi w c :
  c ∈ out w → pool_inv lo hi w → pool_inv lo hi (set_out (release w (Some c)) (out w ∖ {[c]})).
Proof.
  intros Hc [Hmin Hmax Hlim Hnd Hap Hkn Htot Hex]. destruct (Hkn c) as [Hl Hv]; [by right|].
  unfold release. cbn. destruct (conns w !! c) as [o|]; [|done]. cbn in *. injection Hv as Hv. rewrite Hv. cbn [negb].
  assert (Hnot : ∀ w1, pool_inv lo hi (set_out w1 (out w ∖ {[c]})) → pool_inv lo hi (set_out (notify_one w1) (out w ∖ {[c]}))).
  { intros w1 H1. unfold notify_one. destruct (sleeping w1) as [|n]; [done|]. exact (inv_threads _ _ _ n (S (notified w1)) H1). }
  apply Hnot. pose proof (size_del _ _ Hc) as Hs. pose proof (owned_pos w) as H0. unfold owned in *.
  assert (0 < Z.of_nat (size (out w))) by (assert (size (out w) ≠ 0%nat) by (apply size_non_empty_iff; set_solver); lia).
  destruct (closed_ (pl w) || (maxSize_ (pl w) <=? zlen (pool_ (pl w)))).
  - unfold uncount. rewrite (proj2 (Z.ltb_lt 0 _)) by (len; lia).
    assert (Ht : u64 (totalCreated_ (pl w) - 1) = totalCreated_ (pl w) - 1) by (apply u64_small; len; lia).
    constructor; cbn; rewrite ?Ht; try done; unfold owned; cbn; rewrite ?Hs; try lia; [set_solver|set_solver|].
    intros Hcl. specialize (Hex Hcl). lia.
  - constructor; cbn; try done; unfold owned; cbn; rewrite ?Hs; try (len; lia).
    + apply NoDup_app. split; [done|]. split; [set_solver|apply NoDup_singleton].
    + set_solver.
    + set_solver.
    + intros Hcl. specialize (Hex Hcl). len; lia.
Qed.

Definition idle (now : Z) (m : gmap nat Connection) (c : nat) : bool := 60 <? i64 (now - default 0 (lastUsed_ <$> m !! c)).

Lemma check_loop_spec now m p q kept p1 k :
  zlen q ≤ totalCreated_ p < 2 ^ 64 → check_loop now m p q kept = (p1, k) →
  ∃ ks, k = kept ++ ks ∧ ks `sublist_of` q ∧ p1 = set_total p (totalCreated_ p - (zlen q - zlen ks)) ∧
    (∀ c, c ∈ q → c ∉ ks → idle now m c = true) ∧ Z.min (minSize_ p) (zlen (kept ++ q)) ≤ zlen k ∧
    (∀ i c, ks !! i = Some c → idle now m c = true → zlen kept + Z.of_nat i < minSize_ p).
Proof.
  revert p kept. induction q as [|c q IH]; intros p kept Htot.
  - cbn [check_loop]. intros [= <- <-]. exists []. rewrite !app_nil_r, Z.sub_0_r.
    split_and!; [done|done|by destruct p|set_solver|lia|done].
  - cbn [check_loop]. change (60 <? i64 (now - default 0 (lastUsed_ <$> m !! c))) with (idle now m c).
    assert (Hq : zlen (c :: q) = zlen q + 1) by (len; lia). rewrite Hq in Htot.
    assert (H0 : 0 ≤ zlen q) by (len; lia).
    destruct (idle now m c && (minSize_ p <=? zlen kept)) eqn:E; intros H.
    + apply andb_true_iff in E as [Ei Ek]. apply Z.leb_le in Ek. unfold uncount in H.
      rewrite (proj2 (Z.ltb_lt 0 _)), u64_small in H by lia.
      destruct (IH (set_total p (totalCreated_ p - 1)) kept) as (ks & -> & Hs & -> & Hd & Hm & Hi); [cbn; lia|done|].
      exists ks. cbn in *. split_and!; [done|by constructor| |set_solver|len; lia|done].
      unfold set_total. cbn. f_equal. lia.
    + destruct (IH p (kept ++ [c])) as (ks & -> & Hs & -> & Hd & Hm & Hi); [lia|done|].
      exists (c :: ks). rewrite <-!app_assoc in Hm. rewrite <-app_assoc. split_and!; [done|by constructor| | |exact Hm|].
      * f_equal. len; lia.
      * set_solver.
      * intros [|i] d; cbn [lookup list_lookup].
        -- intros [= <-] Hidle. rewrite Hidle in E. cbn in E. apply Z.leb_gt in E. lia.
        -- intros Hd1 Hd2. specialize (Hi i d Hd1 Hd2). len; lia.
Qed.

Lemma owned_pool lo hi w : pool_inv lo hi w → zlen (pool_ (pl w)) ≤ totalCreated_ (pl w) < 2 ^ 64.
Proof. intros [? ? ? ? ? ? H ?]. unfold owned in H. lia. Qed.

Lemma inv_health lo hi w now : pool_inv lo hi w → pool_inv lo hi (healthCheck w now).
Proof.
  intros Hinv. pose proof (owned_pool _ _ _ Hinv) as Hb. unfold healthCheck. destruct (closed_ (pl w)) eqn:Hc; [done|].
  destruct Hinv as [Hmin Hmax Hlim Hnd Hap Hkn Htot Hex]. specialize (Hex Hc).
  destruct (check_loop _ _ _ _ _) as [p1 k] eqn:E. apply check_loop_spec in E as (ks & -> & Hs & -> & Hd & _); [|done].
  pose proof (sublist_length _ _ Hs) as Hsl. assert (Hsub : ∀ c, c ∈ ks → c ∈ pool_ (pl w)) by (intros c Hc1; by eapply elem_of_sublist).
  unfold owned in *. constructor; cbn; try done; unfold owned; cbn.
  - by eapply sublist_NoDup.
  - intros c Hc1. by apply Hap, Hsub.
  - intros c [Hc1|Hc1]; apply Hkn; [left; by apply Hsub|by right].
  - len; lia.
  - intros _. len; lia.
Qed.

Lemma inv_close lo hi w : pool_inv lo hi w → pool_inv lo hi (close w).
Proof. by intros []. Qed.

Lemma inv_clear lo hi w : closed_ (pl w) = true → pool_inv lo hi w → pool_inv lo hi (clear w).
Proof.
  intros Hc [Hmin Hmax Hlim Hnd Hap Hkn Htot Hex]. unfold owned in *.
  constructor; cbn; try done; unfold owned; cbn; try congruence; [constructor|set_solver| |len; lia].
  intros c [?|?]; [set_solver|]. apply Hkn. by right.
Qed.

Lemma pool_act_inv lo hi w a w' : act w a = Some w' → pool_inv lo hi w → pool_inv lo hi w'.
Proof.
  intros Ha Hinv. destruct a as [now|now|now|ok|c|c|now| |]; cbn [act] in Ha.
  - injection Ha as <-. unfold goes_on. case_match; [by apply inv_take|by apply inv_threads].
  - destruct (notified w) as [|n]; [done|]. injection Ha as <-. unfold goes_on.
    case_match; [by apply inv_take, inv_threads|]. exact (inv_threads _ _ w _ _ Hinv).
  - destruct (sleeping w) as [|n]; [done|]. injection Ha as <-. by apply inv_take, inv_threads.
  - destruct (creating w) as [|n] eqn:E; [done|]. injection Ha as <-. by eapply inv_created.
  - case_bool_decide; [|done]. injection Ha as <-. by apply inv_release.
  - case_bool_decide as Hc; [|done]. injection Ha as <-. destruct Hinv as [Hmin Hmax Hlim Hnd Hap Hkn Htot Hex].
    pose proof (size_del _ _ Hc). unfold owned in *.
    constructor; cbn; try done; unfold owned; cbn; [set_solver|set_solver|lia|]. intros Hcl. specialize (Hex Hcl). lia.
  - injection Ha as <-. by apply inv_health.
  - injection Ha as <-. by apply inv_close.
  - destruct (closed_ (pl w)) eqn:E; [|done]. injection Ha as <-. by apply inv_clear.
Qed.

Lemma new_inv lo hi made :
  0 ≤ lo < 2 ^ 64 → 0 ≤ hi < 2 ^ 64 → Z.of_nat made ≤ lo → pool_inv lo hi (ConnectionPool_new lo hi made).
Proof.
  intros Hlo Hhi Hm. unfold ConnectionPool_new.
  constructor; cbn; try done; unfold owned; cbn [pl pool_ out creating lost]; rewrite ?size_empty.
  - apply NoDup_seq.
  - intros c [Hc|Hc]; [|set_solver]. apply elem_of_seq in Hc. split; [lia|].
    erewrite (elem_of_list_to_map_1 _ c (Connection_new (Z.of_nat c))); [cbn; f_equal; apply Z.leb_le; cbn; lia| |].
    + rewrite <-list_fmap_compose. rewrite (list_fmap_ext _ id); [|done]. rewrite list_fmap_id. apply NoDup_seq.
    + apply list_elem_of_fmap. exists c. split; [done|]. apply elem_of_seq. lia.
  - unfold zlen. rewrite length_seq. lia.
  - intros _. unfold zlen. rewrite length_seq. lia.
Qed.

Lemma pool_runs_inv lo hi acts w w' : runs acts w = Some w' → pool_inv lo hi w → pool_inv lo hi w'.
Proof.
  revert w. induction acts as [|a acts IH]; intros w; cbn [runs]; [by intros [= <-]|].
  destruct (act w a) as [w1|] eqn:E; [|done]. cbn [mbind option_bind]. intros H Hinv.
  eapply IH; [exact H|]. by eapply pool_act_inv.
Qed.

(** C22: The accounts of the pool.  Whatever its clients do and however the
    attempts to connect turn out, until the pool is closed the counter is the
    number of connections that are idle, with clients, being made, or dropped
    by a client without [release]; there are never more than the limit; an idle
    connection is in the queue once and with no client; and every connection is
    valid. *)
Theorem pool_accounting (lo hi : Z) (made : nat) (acts : list Act) (w : World)
    (Hlo : 0 ≤ lo < 2 ^ 64) (Hhi : 0 ≤ hi < 2 ^ 64) (Hmade : Z.of_nat made ≤ lo)
    (Hruns : runs acts (ConnectionPool_new lo hi made) = Some w) :
  (isClosed w = false →
   totalCreated_ (pl w) = available w + Z.of_nat (size (out w)) + Z.of_nat (creating w) + Z.of_nat (lost w)) ∧
  available w + Z.of_nat (size (out w)) + Z.of_nat (creating w) ≤ Z.max lo hi ∧
  NoDup (pool_ (pl w)) ∧
  (∀ c, c ∈ pool_ (pl w) → c ∉ out w) ∧ (∀ c, c ∈ pool_ (pl w) ∨ c ∈ out w → valid <$> conns w !! c = Some true).
Proof.
  destruct (pool_runs_inv lo hi acts _ w Hruns (new_inv lo hi made Hlo Hhi Hmade)) as [_ _ _ H1 H2 H3 H4 H5].
  unfold owned, available, isClosed in *. split; [intros Hc; by rewrite <-(H5 Hc)|]. split; [lia|].
  split; [done|]. split; [done|]. intros c Hc. by apply H3.
Qed.

(** ** Nobody sleeps while there is something to take *)

Definition free_places (p : ConnectionPool) : Z := zlen (pool_ p) + Z.max 0 (maxSize_ p - totalCreated_ p).

Record awake (w : World) : Prop := {
  awake_closed : closed_ (pl w) = true → sleeping w = 0%nat;
  awake_free : sleeping w = 0%nat ∨ free_places (pl w) ≤ Z.of_nat (notified w)
}.

Lemma not_ready p : ready p = false → closed_ p = false ∧ free_places p = 0.
Proof.
  unfold ready, free_places. rewrite !orb_false_iff, negb_false_iff, bool_decide_eq_true. intros [[Hc ->] H].
  apply Z.ltb_ge in H. split; [done|]. len; lia.
Qed.

(** Who goes on takes a place. *)
Lemma take_free lo hi w now :
  pool_inv lo hi w → closed_ (pl w) = false →
  free_places (pl (take w now).2) ≤ Z.max 0 (free_places (pl w) - 1) ∧
  sleeping (take w now).2 = sleeping w ∧ notified (take w now).2 = notified w ∧ closed_ (pl (take w now).2) = false.
Proof.
  intros [Hmin Hmax Hlim Hnd Hap Hkn Htot Hex] Hc. specialize (Hex Hc). pose proof (owned_pos w) as H0.
  unfold take, free_places. rewrite Hc. destruct (pool_ (pl w)) as [|c rest] eqn:Hp.
  - destruct (totalCreated_ (pl w) <? maxSize_ (pl w)) eqn:Hlt; cbn.
    + apply Z.ltb_lt in Hlt. rewrite Hp, u64_small by lia. split_and!; [len; lia|done..].
    + rewrite Hp. apply Z.ltb_ge in Hlt. split_and!; [len; lia|done..].
  - cbn. split_and!; [len; lia|done..].
Qed.

Lemma closed_take w now : closed_ (pl w) = true → take w now = (Nullptr, w).
Proof. intros Hc. unfold take. by rewrite Hc. Qed.

Lemma awake_goes_on lo hi w now :
  pool_inv lo hi w → (closed_ (pl w) = true → sleeping w = 0%nat) →
  (sleeping w = 0%nat ∨ free_places (pl w) ≤ Z.of_nat (notified w) + 1) → awake (goes_on w now).
Proof.
  intros Hinv Hcl Hfree. unfold goes_on. destruct (ready (pl w)) eqn:Hr.
  - destruct (closed_ (pl w)) eqn:Hc.
    + rewrite closed_take by done. constructor; cbn; auto.
    + destruct (take_free lo hi w now Hinv Hc) as (H1 & H2 & H3 & H4).
      constructor; [congruence|]. rewrite H2, H3. destruct Hfree; [by left|right; lia].
  - apply not_ready in Hr as [Hc H0]. constructor; cbn; [congruence|]. right. lia.
Qed.

Lemma awake_notify w :
  (closed_ (pl w) = true → sleeping w = 0%nat) →
  (sleeping w = 0%nat ∨ free_places (pl w) ≤ Z.of_nat (notified w) + 1) → awake (notify_one w).
Proof.
  intros Hcl Hf. unfold notify_one. destruct (sleeping w) as [|n] eqn:E; constructor; cbn.
  - by rewrite E.
  - by left.
  - intros Hc. specialize (Hcl Hc). lia.
  - destruct Hf as [?|?]; [done|]. right. lia.
Qed.

Lemma free_uncount p : totalCreated_ p < 2 ^ 64 → free_places (uncount p) ≤ free_places p + 1.
Proof.
  intros. unfold uncount. case_match eqn:E; [|lia]. apply Z.ltb_lt in E. unfold free_places. cbn.
  rewrite u64_small by lia. lia.
Qed.

Lemma awake_release lo hi w c :
  pool_inv lo hi w → awake w → awake (release w (Some c)).
Proof.
  intros Hinv [Hcl Hf]. pose proof (owned_pool _ _ _ Hinv) as Hb. unfold release. cbn.
  assert (Hu : free_places (uncount (pl w)) ≤ free_places (pl w) + 1) by (apply free_uncount; lia).
  assert (Hcu : closed_ (uncount (pl w)) = closed_ (pl w)) by (unfold uncount; by case_match).
  destruct (conns w !! c) as [o|]; [|done]. cbn. destruct (negb (valid o)).
  - apply awake_notify; cbn; [by rewrite Hcu|]. destruct Hf; [by left|right; lia].
  - case_match; (apply awake_notify; cbn; [by rewrite ?Hcu|]; destruct Hf as [Hf|Hf]; [by left|right]).
    + lia.
    + unfold free_places in *. cbn. len; lia.
Qed.

Lemma awake_health lo hi w now : pool_inv lo hi w → awake w → awake (healthCheck w now).
Proof.
  intros Hinv [Hcl Hf]. pose proof (owned_pool _ _ _ Hinv) as Hb. unfold healthCheck.
  destruct (closed_ (pl w)) eqn:Hc; [by constructor; rewrite ?Hc|].
  destruct (check_loop _ _ _ _ _) as [p1 k] eqn:E. apply check_loop_spec in E as (ks & -> & Hs & -> & _); [|done].
  apply sublist_length in Hs. constructor; cbn; [congruence|]. destruct Hf as [Hf|Hf]; [by left|right].
  unfold free_places in *. cbn. len; lia.
Qed.

Lemma awake_act lo hi w a w' : act w a = Some w' → a ≠ Created false → pool_inv lo hi w → awake w → awake w'.
Proof.
  intros Ha Hne Hinv [Hcl Hf]. destruct a as [now|now|now|ok|c|c|now| |]; cbn [act] in Ha.
  - injection Ha as <-. eapply awake_goes_on; [done|done|]. destruct Hf; [by left|right; lia].
  - destruct (notified w) as [|n] eqn:En; [done|]. injection Ha as <-.
    eapply awake_goes_on; [by apply inv_threads|done|]. cbn. destruct Hf; [by left|right; lia].
  - destruct (sleeping w) as [|n] eqn:En; [done|]. injection Ha as <-. destruct Hf as [|Hf]; [done|].
    assert (Hc : closed_ (pl w) = false) by (destruct (closed_ (pl w)); [by specialize (Hcl eq_refl)|done]).
    destruct (take_free lo hi (set_threads w (creating w) n (notified w)) now (inv_threads _ _ _ _ _ Hinv) Hc)
      as (H1 & H2 & H3 & H4). constructor; [congruence|]. right. rewrite H3. cbn in *.
    assert (0 ≤ free_places (pl w)) by (unfold free_places; len; lia). lia.
  - destruct (creating w) as [|n]; [done|]. injection Ha as <-. destruct ok; [|done]. by constructor.
  - case_bool_decide; [|done]. injection Ha as <-. by destruct (awake_release lo hi w c Hinv (Build_awake _ Hcl Hf)).
  - case_bool_decide; [|done]. injection Ha as <-. by constructor.
  - injection Ha as <-. by eapply awake_health; [|constructor].
  - injection Ha as <-. constructor; cbn; auto.
  - destruct (closed_ (pl w)) eqn:E; [|done]. injection Ha as <-. constructor; cbn; [by rewrite E|left; auto].
Qed.

(** C23: No client sleeps beside a place it could take.  While attempts to
    connect succeed, clients that sleep in [acquire] imply that the idle
    connections and the places for new ones are no more than the clients that
    were notified and are on their way to the mutex; a client never sleeps in a
    closed pool. *)
Theorem no_sleeper_left (lo hi : Z) (made : nat) (acts : list Act) (w : World)
    (Hlo : 0 ≤ lo < 2 ^ 64) (Hhi : 0 ≤ hi < 2 ^ 64) (Hmade : Z.of_nat made ≤ lo) (Hok : Created false ∉ acts)
    (Hruns : runs acts (ConnectionPool_new lo hi made) = Some w) :
  sleeping w = 0%nat ∨
  isClosed w = false ∧ available w + Z.max 0 (hi - totalCreated_ (pl w)) ≤ Z.of_nat (notified w).
Proof.
  assert (H : ∀ acts w0, Created false ∉ acts → runs acts w0 = Some w → pool_inv lo hi w0 → awake w0 →
    pool_inv lo hi w ∧ awake w).
  { clear. induction acts as [|a acts IH]; intros w0 Hok Hr Hi Ha; [by injection Hr as <-|]. cbn [runs] in Hr.
    destruct (act w0 a) as [w1|] eqn:E; [|done]. cbn [mbind option_bind] in Hr.
    apply (IH w1); [set_solver|done|by eapply pool_act_inv|]. eapply awake_act; [done| |done|done]. set_solver. }
  destruct (H acts _ Hok Hruns (new_inv lo hi made Hlo Hhi Hmade)) as [Hinv [Hc Hf]]; [by constructor; [|left]|].
  destruct (sleeping w) as [|n] eqn:Es; [by left|right]. destruct Hf as [|Hf]; [done|].
  unfold isClosed, available, free_places in *. rewrite (inv_max _ _ _ Hinv) in Hf. split; [|done].
  destruct (closed_ (pl w)); [by specialize (Hc eq_refl)|done].
Qed.

(** What the health check removes was unused for more than a minute by its
    time stamp, order is kept, at least [minSize_] connections stay if there
    were as many, and no connection that has been idle that long is left beyond
    the first [minSize_]; the counter falls by what was removed. *)
Theorem healthCheck_spec (lo hi : Z) (w : World) (now : Z) (Hinv : pool_inv lo hi w) (Hopen : isClosed w = false) :
  let w' := healthCheck w now in
  pool_ (pl w') `sublist_of` pool_ (pl w) ∧
  totalCreated_ (pl w') = totalCreated_ (pl w) - (available w - available w') ∧
  (∀ c, c ∈ pool_ (pl w) → c ∉ pool_ (pl w') → idle now (conns w) c = true) ∧
  Z.min lo (available w) ≤ available w' ∧
  (∀ i c, pool_ (pl w') !! i = Some c → idle now (conns w) c = true → Z.of_nat i < lo).
Proof.
  pose proof (owned_pool _ _ _ Hinv) as Hb. pose proof (inv_min _ _ _ Hinv) as Hmin. unfold isClosed in Hopen.
  intros w'. subst w'. unfold healthCheck, available. rewrite Hopen.
  destruct (check_loop _ _ _ _ _) as [p1 k] eqn:E.
  apply check_loop_spec in E as (ks & -> & Hs & -> & Hd & Hm & Hi); [|done]. rewrite Hmin in *. cbn [app] in *. cbn.
  split_and!; [done|done|done|done|]. intros i c H1 H2. apply (Hi i c H1 H2).
Qed.

(** ** Examples *)

(** Two clients share a pool of one; the first fails to connect, and nobody
    wakes the second, although the place is free again: it goes on when its
    time is over. *)
Example failed_creation_strands :
  (λ w, (sleeping w, notified w, totalCreated_ (pl w))) <$>
    runs [Acquire 0; Acquire 0; Created false] (ConnectionPool_new 0 1 0) = Some (1%nat, 0%nat, 0).
Proof. vm_compute. reflexivity. Qed.

(** A new connection has no time stamp: given back right after its first use it
    counts as unused since the clock began. *)
Example fresh_connection_evicted :
  (λ w, pool_ (pl w)) <$> runs [Acquire 5000; Created true; Release 0; HealthCheck 5001] (ConnectionPool_new 0 2 0)
  = Some [].
Proof. vm_compute. reflexivity. Qed.

(** A pool whose [minSize] is over its [maxSize] starts over its limit, and
    drops what is released while it is. *)
Example over_the_limit :
  (λ w, (pool_ (pl w), totalCreated_ (pl w))) <$> runs [Acquire 0; Release 0; Acquire 0; Release 1] (ConnectionPool_new 3 1 3)
  = Some ([2%nat], 1).
Proof. vm_compute. reflexivity. Qed.

Local Notation busy_day :=
  [Acquire 10; Acquire 11; Acquire 12; Created true; Acquire 13; Release 0; Wakes 14; Acquire 15; Release 1;
   Acquire 16; Acquire 17; HealthCheck 20].

Lemma pool_accounting_witness :
  ∃ w, runs busy_day (ConnectionPool_new 2 3 2) = Some w ∧ totalCreated_ (pl w) = 3 ∧ NoDup (pool_ (pl w)).
Proof.
  assert (H : (λ w, totalCreated_ (pl w)) <$> runs busy_day (ConnectionPool_new 2 3 2) = Some 3) by (vm_compute; reflexivity).
  destruct (runs busy_day (ConnectionPool_new 2 3 2)) as [w|] eqn:E; [|discriminate H]. injection H as H.
  exists w. split; [reflexivity|]. split; [exact H|].
  apply (pool_accounting 2 3 2 busy_day w); [lia..|exact E].
Defined.

Lemma busy_day_succeeds : Created false ∉ busy_day.
Proof. rewrite !not_elem_of_cons. split_and!; try discriminate. apply not_elem_of_nil. Qed.

Lemma no_sleeper_left_witness :
  ∃ w, runs busy_day (ConnectionPool_new 2 3 2) = Some w ∧ sleeping w = 1%nat ∧ available w ≤ Z.of_nat (notified w).
Proof.
  assert (H : sleeping <$> runs busy_day (ConnectionPool_new 2 3 2) = Some 1%nat) by (vm_compute; reflexivity).
  destruct (runs busy_day (ConnectionPool_new 2 3 2)) as [w|] eqn:E; [|discriminate H]. injection H as H.
  exists w. split; [reflexivity|]. split; [exact H|].
  destruct (no_sleeper_left 2 3 2 busy_day w) as [H1|[_ H1]]; [lia|lia|lia|exact busy_day_succeeds|exact E| |].
  - rewrite H1 in H. discriminate H.
  - pose proof (Z.le_max_l 0 (3 - totalCreated_ (pl w))). lia.
Defined.

Lemma healthCheck_spec_witness :
  pool_ (pl (healthCheck (ConnectionPool_new 1 3 1) 100)) `sublist_of` [0%nat] ∧
  1 ≤ available (healthCheck (ConnectionPool_new 1 3 1) 100).
Proof.
  destruct (healthCheck_spec 1 3 (ConnectionPool_new 1 3 1) 100) as (H1 & _ & _ & H2 & _);
    [apply new_inv; lia|reflexivity|]. split; [exact H1|exact H2].
Defined.
