(* ===== verification/WebSocketClient.v ===== *)
(** * WebSocketClient: the client end of a WebSocket connection

    Models [src/websocket/WebSocketClient.h] over the frame codec.  What the
    client does to its TCP connection and to the application is a list of
    events; what the application does to the client from inside a callback is
    a list of operations, which run before the callback returns.  The random
    generators are arguments: the nonce of a handshake and the stream of
    masking keys.  The last part runs the client against the server of
    [WebSocketServer.v]. *)

From S2P Require Import Prelude Buffer WebSocketFrame WebSocketServer.

Open Scope nat_scope.

Record WebSocketClient := mkClient {
  state_ : WsState;
  path_ : str;
  host_ : str;
  conn_ : option bool;        (* the connection, and whether it is still up *)
  pendingKey_ : str;
  recvBuffer_ : list Z;
  drawn : nat                 (* masking keys used so far *)
}.

Definition WebSocketClient_new (path host : str) : WebSocketClient := mkClient Closed path host None [] [] 0.

Inductive ClientEvent :=
  | TcpConnect | TcpDisconnect
  | SentText (text : str)           (* the handshake request *)
  | Sent (data : list Z)
  | Shut
  | OnOpen | OnMessage (m : WsMessage) | OnClose (code : Z) (reason : str) | OnError (error : str).

Definition setState (c : WebSocketClient) (s : WsState) : WebSocketClient :=
  mkClient s (path_ c) (host_ c) (conn_ c) (pendingKey_ c) (recvBuffer_ c) (drawn c).
Definition set_conn (c : WebSocketClient) (o : option bool) : WebSocketClient :=
  mkClient (state_ c) (path_ c) (host_ c) o (pendingKey_ c) (recvBuffer_ c) (drawn c).
Definition set_recv (c : WebSocketClient) (b : list Z) : WebSocketClient :=
  mkClient (state_ c) (path_ c) (host_ c) (conn_ c) (pendingKey_ c) b (drawn c).
Definition set_key (c : WebSocketClient) (k : str) : WebSocketClient :=
  mkClient (state_ c) (path_ c) (host_ c) (conn_ c) k (recvBuffer_ c) (drawn c).
Definition draw (c : WebSocketClient) : WebSocketClient :=
  mkClient (state_ c) (path_ c) (host_ c) (conn_ c) (pendingKey_ c) (recvBuffer_ c) (S (drawn c)).

Definition isOpen (c : WebSocketClient) : bool := bool_decide (state_ c = Open).

(** A shut down connection does not report itself connected. *)
Definition hang_up (c : WebSocketClient) : WebSocketClient := set_conn c (match conn_ c with Some _ => Some false | None => None end).

Definition sendRaw (c : WebSocketClient) (data : list Z) : list ClientEvent :=
  if bool_decide (conn_ c = Some true) then [Sent data] else [].

(** ** [base64Encode] *)

(** The group of four characters for the bytes from [i] on. *)
Definition base64_at (data : list Z) (i : nat) : str :=
  let at_ := λ j, nth j data 0%Z in
  let n0 := u32 (Z.shiftl (at_ i) 16) in
  let n1 := if i + 1 <? length data then Z.lor n0 (u32 (Z.shiftl (at_ (i + 1)) 8)) else n0 in
  let n := if i + 2 <? length data then Z.lor n1 (at_ (i + 2)) else n1 in
  [base64Char (Z.shiftr n 18); base64Char (Z.shiftr n 12);
   if i + 1 <? length data then base64Char (Z.shiftr n 6) else "="%char;
   if i + 2 <? length data then base64Char n else "="%char].

Fixpoint base64_loop (fuel : nat) (data : list Z) (i : nat) : str :=
  match fuel with
  | O => []
  | S f => if i <? length data then base64_at data i ++ base64_loop f data (i + 3) else []
  end.

Definition base64Encode (data : list Z) : str := base64_loop (S (length data)) data 0.

Section Client.
Context {A : Type} (SHA1 : str → list Z) (rng : nat → list Z).

(** ** What the application can do *)

Inductive ClientOp :=
  | CConnect | CDisconnect
  | CSendText (text : str) | CSendBinary (data : list Z) | CPing (data : list Z)
  | CClose (code : Z) (reason : str).

(** A masked frame, with the next masking key. *)
Definition send_frame (c : WebSocketClient) (op : WsOpcode) (p : list Z) : list ClientEvent * WebSocketClient :=
  (sendRaw c (encode (mkFrame true 0 0 0 op false [0; 0; 0; 0]%Z p) true (rng (drawn c))), draw c).

Definition when_open (c : WebSocketClient) (op : WsOpcode) (p : list Z) : list ClientEvent * WebSocketClient :=
  if isOpen c then send_frame c op p else ([], c).

Definition sendText (c : WebSocketClient) (text : str) := when_open c Text (u8_of <$> text).
Definition sendBinary (c : WebSocketClient) (data : list Z) := when_open c Binary data.
Definition ping (c : WebSocketClient) (data : list Z) := when_open c Ping data.

Definition close_payload (code : Z) (reason : str) : list Z :=
  [u8 (Z.land (Z.shiftr code 8) 0xFF); u8 (Z.land code 0xFF)] ++ (u8_of <$> reason).

Definition close (c : WebSocketClient) (code : Z) (reason : str) : list ClientEvent * WebSocketClient :=
  if isOpen c then send_frame (setState c Closing) Close (close_payload code reason) else ([], c).

Definition connect (c : WebSocketClient) : list ClientEvent * WebSocketClient := ([TcpConnect], setState c Connecting).

(** [client_.disconnect()] shuts the connection down. *)
Definition disconnect (c : WebSocketClient) : list ClientEvent * WebSocketClient :=
  let '(evs, c1) := if isOpen c then close c 1000 [] else ([], c) in (evs ++ [TcpDisconnect], hang_up c1).

Definition client_op (c : WebSocketClient) (o : ClientOp) : list ClientEvent * WebSocketClient :=
  match o with
  | CConnect => connect c
  | CDisconnect => disconnect c
  | CSendText t => sendText c t
  | CSendBinary d => sendBinary c d
  | CPing d => ping c d
  | CClose code reason => close c code reason
  end.

Fixpoint client_ops (c : WebSocketClient) (ops : list ClientOp) : list ClientEvent * WebSocketClient :=
  match ops with
  | [] => ([], c)
  | o :: ops' =>
      let '(e1, c1) := client_op c o in let '(e2, c2) := client_ops c1 ops' in (e1 ++ e2, c2)
  end.

(** ** Callbacks *)

Record Callbacks := mkCallbacks {
  openCallback_ : option (A → list ClientOp * A);
  messageCallback_ : option (WsMessage → A → list ClientOp * A);
  closeCallback_ : option (Z → str → A → list ClientOp * A);
  errorCallback_ : option (str → A → list ClientOp * A)
}.

Context (cb : Callbacks).

Definition called (f : option (A → list ClientOp * A)) (e : ClientEvent) (c : WebSocketClient) (a : A)
    : list ClientEvent * WebSocketClient * A :=
  match f with
  | None => ([], c, a)
  | Some g => let '(ops, a') := g a in let '(evs, c') := client_ops c ops in (e :: evs, c', a')
  end.

Definition on_open (c : WebSocketClient) (a : A) := called (openCallback_ cb) OnOpen c a.
Definition on_message (m : WsMessage) (c : WebSocketClient) (a : A) :=
  called ((λ g, g m) <$> messageCallback_ cb) (OnMessage m) c a.
Definition on_close (code : Z) (reason : str) (c : WebSocketClient) (a : A) :=
  called ((λ g, g code reason) <$> closeCallback_ cb) (OnClose code reason) c a.
Definition on_error (error : str) (c : WebSocketClient) (a : A) :=
  called ((λ g, g error) <$> errorCallback_ cb) (OnError error) c a.

(** ** Frames *)

(** The code and the reason in a Close frame. *)
Definition close_info (p : list Z) : Z * str :=
  match p with
  | b0 :: b1 :: rest => (Z.lor (Z.shiftl b0 8) b1, chr <$> rest)
  | _ => (1005%Z, [])
  end.

Definition handle_frame (c : WebSocketClient) (f : WebSocketFrame) (a : A) : list ClientEvent * WebSocketClient * A :=
  match opcode f with
  | Text | Binary => on_message (mkMessage (opcode f) (payload f)) c a
  | Ping => let '(evs, c1) := send_frame c Pong (payload f) in (evs, c1, a)
  | Close =>
      let '(code, reason) := close_info (payload f) in
      let '(e1, c1) := if bool_decide (state_ c = Open) then send_frame c Close (payload f) else ([], c) in
      let '(e2, c2, a2) := on_close code reason (setState c1 Closed) a in (e1 ++ e2, c2, a2)
  | _ => ([], c, a)
  end.

(** The loop over the receive buffer; [None] is the exception of a frame whose
    declared length wraps.  Every turn takes at least one byte. *)
Fixpoint frame_loop (fuel : nat) (c : WebSocketClient) (a : A) : option (list ClientEvent * WebSocketClient * A) :=
  match fuel with
  | O => Some ([], c, a)
  | S n =>
      if length (recvBuffer_ c) <? 2 then Some ([], c, a)
      else match decode (recvBuffer_ c) with
      | None => None
      | Some r =>
          match status r with
          | Incomplete => Some ([], c, a)
          | Error => Some (on_error (#"Frame decode error: ") c a)
          | Ok =>
              let '(e1, c1, a1) := handle_frame c (frame r) a in
              let c2 := set_recv c1 (drop (Z.to_nat (consumed r)) (recvBuffer_ c1)) in
              (λ x, (e1 ++ x.1.1, x.1.2, x.2)) <$> frame_loop n c2 a1
          end
      end
  end.

Definition handleWsFrames (c : WebSocketClient) (data : str) (a : A) : option (list ClientEvent * WebSocketClient * A) :=
  let c1 := set_recv c (recvBuffer_ c ++ (u8_of <$> data)) in frame_loop (S (length (recvBuffer_ c1))) c1 a.

(** ** Handshake *)

Definition request_text (c : WebSocketClient) (key : str) : str :=
  #"GET " ++ path_ c ++ #" HTTP/1.1" ++ crlf ++ #"Host: " ++ host_ c ++ crlf ++ #"Upgrade: websocket" ++ crlf ++
  #"Connection: Upgrade" ++ crlf ++ #"Sec-WebSocket-Key: " ++ key ++ crlf ++ #"Sec-WebSocket-Version: 13" ++ crlf ++ crlf.

(** Blanks at either end; a value of nothing but blanks is left as it is. *)
Definition trim_value (v : str) : str :=
  let v1 := match skip_chars [SP; TAB] v with [] => v | w => w end in
  match rskip_chars [SP; TAB] v1 with [] => v1 | w => w end.

Definition accept_line (acc line : str) : str :=
  match find [ ":"%char ] line 0 with
  | None => acc
  | Some colon => if bool_decide (lower (take colon line) = #"sec-websocket-accept") then trim_value (drop (colon + 1) line) else acc
  end.

Definition fail_handshake (c : WebSocketClient) (error : str) (a : A) : list ClientEvent * WebSocketClient * A :=
  let '(evs, c1, a1) := on_error error (setState c Closed) a in
  match conn_ c1 with
  | Some _ => (evs ++ [Shut], hang_up c1, a1)
  | None => (evs, c1, a1)
  end.

Definition handleHandshakeResponse (c : WebSocketClient) (data : str) (a : A) : option (list ClientEvent * WebSocketClient * A) :=
  let c1 := set_recv c (recvBuffer_ c ++ (u8_of <$> data)) in
  let bufStr := chr <$> recvBuffer_ c1 in
  match find crlf2 bufStr 0 with
  | None => Some ([], c1, a)
  | Some headerEnd =>
      let headerBlock := substr bufStr 0 headerEnd in
      let firstLineEnd := find crlf headerBlock 0 in
      let statusLine := match firstLineEnd with Some n => substr headerBlock 0 n | None => headerBlock end in
      if negb (contains (#"HTTP/1.1 101") statusLine)
      then Some (fail_handshake c1 (#"Handshake failed: " ++ statusLine) a)
      else
        let headerSection := match firstLineEnd with Some n => drop (n + 2) headerBlock | None => [] end in
        let acceptValue := fold_lines accept_line (S (length headerSection)) headerSection 0 [] in
        if negb (bool_decide (acceptValue = computeAcceptKey SHA1 (pendingKey_ c1)))
        then Some (fail_handshake c1 (#"Handshake failed: invalid Sec-WebSocket-Accept") a)
        else
          let '(e1, c2, a1) := on_open (setState c1 Open) a in
          let remaining := drop (headerEnd + 4) (recvBuffer_ c2) in
          let c3 := set_recv c2 [] in
          match remaining with
          | [] => Some (e1, c3, a1)
          | _ => (λ x, (e1 ++ x.1.1, x.1.2, x.2)) <$> handleWsFrames c3 (chr <$> remaining) a1
          end
  end.

(** ** Events of the connection *)

Definition onConnection (c : WebSocketClient) (connected : bool) (nonce : list Z) (a : A)
    : list ClientEvent * WebSocketClient * A :=
  if connected then
    let key := base64Encode nonce in
    ([SentText (request_text c key)], set_key (set_recv (setState (set_conn c (Some true)) Connecting) []) key, a)
  else
    let c1 := set_conn (setState c Closed) None in
    match state_ c with
    | Open | Closing => on_close 1006 (#"TCP connection lost") c1 a
    | Connecting => on_error (#"Connection failed during handshake") c1 a
    | Closed => ([], c1, a)
    end.

(** The buffer is emptied whatever becomes of the bytes. *)
Definition onMessage (c : WebSocketClient) (data : str) (a : A) : option (list ClientEvent * WebSocketClient * A) :=
  match state_ c with
  | Connecting => handleHandshakeResponse c data a
  | Open => handleWsFrames c data a
  | _ => Some ([], c, a)
  end.
End Client.

(** ** [base64Encode] is the codec's *)

Lemma nth_pre {X} (pre : list X) x rest d i : i = length pre → nth i (pre ++ x :: rest) d = x.
Proof. intros ->. induction pre; [done|]. by cbn. Qed.

Lemma u32_byte x k : (0 ≤ x < 256)%Z → (0 ≤ k ≤ 16)%Z → u32 (Z.shiftl x k) = Z.shiftl x k.
Proof.
  intros Hx Hk. unfold u32. apply Z.mod_small. rewrite Z.shiftl_mul_pow2 by lia.
  assert (2 ^ k ≤ 2 ^ 16)%Z by (apply Z.pow_le_mono_r; lia). nia.
Qed.

Lemma base64_at_last1 pre x : (0 ≤ x < 256)%Z → base64_at (pre ++ [x]) (length pre) = base64 [x].
Proof.
  intros Hx. unfold base64_at. rewrite length_app. cbn [length base64].
  rewrite !(proj2 (Nat.ltb_ge _ _)) by lia. rewrite nth_pre by done. by rewrite u32_byte, !Z.lor_0_r by lia.
Qed.

Lemma base64_at_last2 pre x y :
  (0 ≤ x < 256)%Z → (0 ≤ y < 256)%Z → base64_at (pre ++ [x; y]) (length pre) = base64 [x; y].
Proof.
  intros Hx Hy. unfold base64_at. rewrite length_app. cbn [length base64].
  rewrite (proj2 (Nat.ltb_lt (length pre + 1) _)) by lia. rewrite (proj2 (Nat.ltb_ge (length pre + 2) _)) by lia.
  rewrite (nth_pre pre) by done. change (pre ++ [x; y]) with (pre ++ [x] ++ [y]).
  rewrite (app_assoc pre), (nth_pre _ y) by (rewrite length_app; done). by rewrite !u32_byte, Z.lor_0_r by lia.
Qed.

Lemma base64_at_group pre x y z rest :
  (0 ≤ x < 256)%Z → (0 ≤ y < 256)%Z → base64_at (pre ++ x :: y :: z :: rest) (length pre) = base64 [x; y; z].
Proof.
  intros Hx Hy. unfold base64_at. rewrite length_app. cbn [length base64].
  rewrite (proj2 (Nat.ltb_lt (length pre + 1) _)), (proj2 (Nat.ltb_lt (length pre + 2) _)) by lia.
  rewrite (nth_pre pre) by done. change (pre ++ x :: y :: z :: rest) with (pre ++ [x] ++ y :: z :: rest).
  rewrite (app_assoc pre), (nth_pre _ y) by (rewrite length_app; done).
  change (y :: z :: rest) with ([y] ++ z :: rest). rewrite (app_assoc (pre ++ [x])), (nth_pre _ z)
    by (rewrite !length_app; cbn [length]; lia). by rewrite !u32_byte by lia.
Qed.

Lemma base64_loop_end fuel data i : length data ≤ i → base64_loop fuel data i = [].
Proof. intros H. destruct fuel; [done|]. cbn [base64_loop]. by rewrite (proj2 (Nat.ltb_ge _ _)) by lia. Qed.

(** The two Base64 routines of the sources, the loop over indices here and
    the one over the digest in the frame codec, agree on every byte sequence. *)
Theorem base64Encode_base64 (data : list Z) (Hb : byte_list data) : base64Encode data = base64 data.
Proof.
  assert (H : ∀ n rest pre fuel, length rest ≤ n → length rest < fuel → byte_list rest →
    base64_loop fuel (pre ++ rest) (length pre) = base64 rest).
  { clear. induction n as [|n IH]; intros rest pre [|fuel] Hn Hf Hb; [lia| |lia|].
    { destruct rest; [|cbn in Hn; lia]. rewrite base64_loop_end; [done|]. by rewrite app_nil_r. }
    destruct rest as [|x rest]; [rewrite base64_loop_end; [done|]; by rewrite app_nil_r|].
    cbn [base64_loop]. rewrite (proj2 (Nat.ltb_lt _ _)) by (rewrite length_app; cbn; lia).
    apply Forall_cons in Hb as [Hx Hb]. destruct rest as [|y rest].
    { rewrite base64_at_last1, base64_loop_end, app_nil_r by (rewrite ?length_app; cbn; lia). done. }
    apply Forall_cons in Hb as [Hy Hb]. destruct rest as [|z rest].
    { rewrite base64_at_last2, base64_loop_end, app_nil_r by (rewrite ?length_app; cbn; lia). done. }
    apply Forall_cons in Hb as [_ Hb]. rewrite base64_at_group by done. cbn [length] in *.
    specialize (IH rest (pre ++ [x; y; z]) fuel ltac:(lia) ltac:(lia) Hb).
    rewrite length_app, <-app_assoc in IH. cbn [length app] in IH. by rewrite IH. }
  unfold base64Encode. by apply (H (length data) data [] (S (length data))); [lia..|].
Qed.

(** ** The handshake between client and server *)

Definition base64_alphabet : str := base64Chars ++ [ "="%char ].

Lemma base64Char_in n : base64Char n ∈ base64_alphabet.
Proof.
  unfold base64Char, base64_alphabet. rewrite elem_of_app. destruct (nth_in_or_default (Z.to_nat (Z.land n 63)) base64Chars "="%char) as [H|H].
  - left. by apply list_elem_of_In.
  - right. rewrite H. by left.
Qed.

Lemma base64_in data : Forall (.∈ base64_alphabet) (base64 data).
Proof.
  assert (He : "="%char ∈ base64_alphabet) by (unfold base64_alphabet; rewrite elem_of_app; right; by left).
  assert (H : ∀ n data, length data ≤ n → Forall (.∈ base64_alphabet) (base64 data)).
  { clear data. induction n as [|n IH]; intros data Hn; [destruct data; [constructor|cbn in Hn; lia]|].
    destruct data as [|x [|y [|z rest]]]; cbn [base64]; repeat (apply Forall_cons; split);
      try apply base64Char_in; try done; try apply Forall_nil_2. apply IH. cbn in Hn. lia. }
  by apply (H (length data)).
Qed.

Lemma base64_nonempty data : data ≠ [] → base64 data ≠ [].
Proof. by destruct data as [|x [|y [|z rest]]]. Qed.

Lemma alphabet_not c : c ∈ [SP; TAB; CR; LF] → c ∉ base64_alphabet.
Proof.
  intros Hc. assert (H : forallb (λ c, negb (bool_decide (c ∈ base64_alphabet))) [SP; TAB; CR; LF] = true) by (vm_compute; reflexivity).
  rewrite forallb_forall in H. specialize (H c (proj1 (list_elem_of_In _ _) Hc)).
  by apply negb_true_iff, bool_decide_eq_false in H.
Qed.

(** A text without white space. *)
Definition solid (v : str) : Prop := Forall (.∉ [SP; TAB; CR; LF]) v.

Lemma base64_solid data : solid (base64 data).
Proof. eapply Forall_impl; [apply base64_in|]. intros c Hc Hb. by apply (alphabet_not c). Qed.

Lemma solid_not c v : c ∈ [SP; TAB; CR; LF] → solid v → c ∉ v.
Proof. intros Hc Hv Hin. by apply (proj1 (Forall_forall _ _) Hv c Hin). Qed.

Lemma solid_skip cs v : (∀ c, c ∈ cs → c ∈ [SP; TAB; CR; LF]) → solid v → skip_chars cs v = v.
Proof.
  intros Hcs Hv. apply skip_chars_nil. destruct v as [|c v]; [done|]. apply Forall_cons in Hv as [Hc _].
  intros H. by apply Hc, Hcs.
Qed.

Lemma solid_rskip cs v : (∀ c, c ∈ cs → c ∈ [SP; TAB; CR; LF]) → solid v → rskip_chars cs v = v.
Proof.
  intros Hcs Hv. unfold rskip_chars. rewrite (solid_skip cs) by (try done; by apply Forall_rev). apply rev_involutive.
Qed.

Lemma solid_clean v : solid v → clean v.
Proof.
  intros Hv. split; [by apply solid_skip|]. apply solid_skip; [done|]. by apply Forall_rev.
Qed.

Lemma two_blanks c : c ∈ [SP; TAB] → c ∈ [SP; TAB; CR; LF].
Proof. rewrite !elem_of_cons. naive_solver. Qed.

Lemma trim_value_solid v : solid v → v ≠ [] → trim_value (SP :: v) = v.
Proof.
  intros Hv Hne. unfold trim_value.
  change (skip_chars [SP; TAB] (SP :: v)) with (skip_chars [SP; TAB] v).
  rewrite (solid_skip [SP; TAB]) by (try done; apply two_blanks).
  destruct v as [|c v]; [done|]. by rewrite (solid_rskip [SP; TAB]) by (try done; apply two_blanks).
Qed.

(** The request as header lines. *)
Definition request_headers (c : WebSocketClient) (key : str) : list (str * str) :=
  [( #"Host", host_ c); ( #"Upgrade", #"websocket"); ( #"Connection", #"Upgrade"); ( #"Sec-WebSocket-Key", key);
   ( #"Sec-WebSocket-Version", #"13")].

Lemma request_text_lines c key :
  request_text c key =
  join_lines (( #"GET" ++ SP :: path_ c ++ SP :: #"HTTP/1.1") :: (ws_header_text <$> request_headers c key)) ++ crlf2.
Proof. unfold request_text. cbn. rewrite <-!app_assoc. cbn. rewrite <-!app_assoc. cbn. by rewrite <-!app_assoc. Qed.

(** What a client can be configured with. *)
Record client_ok (c : WebSocketClient) : Prop := {
  ok_path : SP ∉ path_ c ∧ CR ∉ path_ c;
  ok_host : CR ∉ host_ c ∧ clean (host_ c)
}.

Lemma request_headers_ok c key : client_ok c → solid key → Forall ws_header_ok (request_headers c key).
Proof.
  intros [_ [Hh1 Hh2]] Hk. unfold request_headers. repeat (apply Forall_cons; split); [..|constructor];
    split_and!; cbn [fst snd]; try done; try (by apply solid_clean); try (by apply clean_dec);
    try (apply (solid_not CR); [rewrite !elem_of_cons; tauto|done]); by apply (bool_decide_unpack _).
Qed.

(** Operations leave the receive buffer alone. *)
Lemma send_frame_recv rng c op p b :
  send_frame rng (set_recv c b) op p = ((send_frame rng c op p).1, set_recv (send_frame rng c op p).2 b).
Proof. done. Qed.

Lemma client_op_recv rng c o b :
  client_op rng (set_recv c b) o = ((client_op rng c o).1, set_recv (client_op rng c o).2 b).
Proof.
  destruct c as [st p h cn k rb d]. destruct o; try done; cbn [client_op];
    unfold sendText, sendBinary, ping, disconnect, close, when_open, isOpen; cbn [state_ set_recv];
    by destruct (bool_decide (st = Open)).
Qed.

Lemma client_ops_recv rng c ops b :
  client_ops rng (set_recv c b) ops = ((client_ops rng c ops).1, set_recv (client_ops rng c ops).2 b).
Proof.
  revert c. induction ops as [|o ops IH]; intros c; [done|]. cbn [client_ops]. rewrite client_op_recv.
  destruct (client_op rng c o) as [e1 c1]. cbn [fst snd]. rewrite IH. by destruct (client_ops rng c1 ops).
Qed.

Lemma called_recv {A} rng (f : option (A → list ClientOp * A)) e c a b :
  called rng f e (set_recv c b) a = let '(evs, c', a') := called rng f e c a in (evs, set_recv c' b, a').
Proof.
  destruct f as [g|]; [|done]. cbn [called]. destruct (g a) as [ops a']. rewrite client_ops_recv.
  by destruct (client_ops rng c ops).
Qed.

Lemma set_recv_same c : set_recv c (recvBuffer_ c) = c.
Proof. by destruct c. Qed.

Lemma called_keeps {A} rng (f : option (A → list ClientOp * A)) e c a :
  let '(_, c', _) := called rng f e c a in recvBuffer_ c' = recvBuffer_ c.
Proof.
  pose proof (called_recv rng f e c a (recvBuffer_ c)) as H. rewrite set_recv_same in H.
  destruct (called rng f e c a) as [[evs c'] a']. injection H as H. by rewrite H.
Qed.

Definition reply_lines (key : str) : list str :=
  [ #"HTTP/1.1 101 Switching Protocols"; #"Upgrade: websocket"; #"Connection: Upgrade"; #"Sec-WebSocket-Accept: " ++ key].

Lemma reply_text SHA1 key :
  accept_text SHA1 key = join_lines (reply_lines (computeAcceptKey SHA1 key)) ++ crlf2.
Proof. unfold accept_text. cbn. rewrite <-?app_assoc. cbn. by rewrite <-?app_assoc. Qed.

(** The accept key a client finds in the header lines of the reply. *)
Lemma accept_value key :
  solid key → key ≠ [] →
  foldl accept_line [] [ #"Upgrade: websocket"; #"Connection: Upgrade"; #"Sec-WebSocket-Accept: " ++ key] = key.
Proof.
  intros Hs Hne. cbn [foldl].
  assert (H1 : accept_line [] (#"Upgrade: websocket") = []) by (vm_compute; reflexivity).
  assert (H2 : accept_line [] (#"Connection: Upgrade") = []) by (vm_compute; reflexivity).
  rewrite H1, H2. unfold accept_line.
  change (#"Sec-WebSocket-Accept: " ++ key) with (#"Sec-WebSocket-Accept" ++ ":"%char :: SP :: key).
  rewrite find_0, find0_char by (by apply (bool_decide_unpack _)).
  rewrite take_app_length, bool_decide_true by (vm_compute; reflexivity).
  rewrite <-drop_drop, drop_app_length. cbn [drop]. by apply trim_value_solid.
Qed.

Lemma reply_ok key : solid key → Forall line_ok (reply_lines key).
Proof.
  intros Hs. unfold reply_lines. repeat (apply Forall_cons; split); [..|apply Forall_nil_2]; split; try done;
    try (by apply (bool_decide_unpack _)).
  rewrite elem_of_app. intros [H|H]; [revert H; by apply (bool_decide_unpack _)|].
  revert H. apply (solid_not CR); [rewrite !elem_of_cons; tauto|done].
Qed.

Section Meeting.
Context {A S B : Type} `{ByteQueue B} (SHA1 : str → list Z) (rng : nat → list Z).
Context (cb : @Callbacks A) (h : @Handlers S).
(** A SHA-1 digest has twenty bytes. *)
Context (Hsha : ∀ x, length (SHA1 x) = 20).

Lemma accept_solid key : solid (computeAcceptKey SHA1 key) ∧ computeAcceptKey SHA1 key ≠ [].
Proof.
  unfold computeAcceptKey. split; [apply base64_solid|]. apply base64_nonempty. intros E.
  specialize (Hsha (key ++ GUID)). by rewrite E in Hsha.
Qed.

(** The client takes the server's answer, in whatever pieces it comes. *)
Lemma client_opens (c : WebSocketClient) (pre data tail : str) (a : A) :
  recvBuffer_ c = [] → pre ++ data = accept_text SHA1 (pendingKey_ c) ++ tail →
  handleHandshakeResponse SHA1 rng cb (set_recv c (u8_of <$> pre)) data a =
  (let '(e1, c2, a2) := on_open rng cb (setState c Open) a in
   (λ x, (e1 ++ x.1.1, x.1.2, x.2)) <$> handleWsFrames rng cb c2 tail a2).
Proof.
  intros Hr Hd. set (key := computeAcceptKey SHA1 (pendingKey_ c)).
  destruct (accept_solid (pendingKey_ c)) as [Hs Hne]. fold key in Hs, Hne.
  rewrite reply_text in Hd. fold key in Hd.
  unfold handleHandshakeResponse. cbn [recvBuffer_ set_recv pendingKey_]. rewrite <-fmap_app, chr_u8_of_list, Hd.
  rewrite <-(app_assoc (join_lines _)), find_0, find_blank_line by (try done; by apply reply_ok).
  rewrite substr_prefix by done. unfold reply_lines. rewrite join_lines_cons by done. set (rest := join_lines _).
  set (first := #"HTTP/1.1 101 Switching Protocols").
  assert (Hfirst : find crlf (first ++ crlf ++ rest) 0 = Some (length first))
    by (rewrite find_0; apply find0_first; by apply (bool_decide_unpack _)).
  rewrite Hfirst, substr_prefix by done.
  replace (contains (#"HTTP/1.1 101") first) with true by (vm_compute; reflexivity).
  cbv zeta. cbn [negb]. rewrite <-drop_drop, drop_app_length. replace (drop 2 (crlf ++ rest)) with rest by done.
  pose proof (fold_lines_join accept_line [ #"Upgrade: websocket"; #"Connection: Upgrade"; #"Sec-WebSocket-Accept: " ++ key]
    [] (Datatypes.S (length rest)) []) as Hf.
  cbn [app length] in Hf. fold rest in Hf. rewrite Hf;
    [|by pose proof (reply_ok key Hs) as Hok; apply Forall_cons in Hok as [_ ?]|unfold rest; lia].
  rewrite accept_value, bool_decide_true by done. cbn [negb].
  change (setState (set_recv (set_recv c (u8_of <$> pre)) ?b) Open) with (set_recv (setState c Open) b).
  unfold on_open. rewrite called_recv. pose proof (called_keeps rng (openCallback_ cb) OnOpen (setState c Open) a) as Hk.
  destruct (called _ _ _ _ _) as [[e1 c2] a2]. cbn in Hk. cbn [recvBuffer_ set_recv].
  rewrite <-fmap_drop.
  replace (drop (length (first ++ crlf ++ rest) + 4) ((first ++ crlf ++ rest) ++ crlf2 ++ tail)) with tail
    by (by rewrite <-drop_drop, drop_app_length).
  change (set_recv (set_recv c2 ?b) []) with (set_recv c2 []).
  replace (set_recv c2 []) with c2 by (rewrite <-(set_recv_same c2), Hk, Hr at 1; done).
  destruct tail as [|x tail].
  - unfold handleWsFrames. cbn [fmap list_fmap]. rewrite app_nil_r, set_recv_same, Hk, Hr. cbn. rewrite ?Hk, ?Hr. cbn. by rewrite ?app_nil_r.
  - by rewrite chr_u8_of_list.
Qed.

(** A server without a validator takes the client's request. *)
Lemma server_accepts (c : WebSocketClient) (nonce : list Z) (s : WsSession) (buf : B) (now : Z) (sa : S) (rest : str)
    (Hc : client_ok c) (Hn : length nonce = 16) (Hb : byte_list nonce) (Hval : handshakeValidator_ h = None)
    (Hv : bq_valid buf) (Hbuf : bq_contents buf = request_text c (base64Encode nonce) ++ rest)
    (Hsz : (zlen (bq_contents buf) < 2 ^ 63)%Z) :
  ∃ buf', bq_valid buf' ∧ bq_contents buf' = rest ∧
    handleHandshake SHA1 h s buf now sa =
    (let s1 := setContext (updateActivity (WebSocketServer.setState s Open) now) (#"path") (path_ c) in
     let '(evs, s2, sa2) := call_back (connectionHandler_ h) (path_ c) (Opened (path_ c)) s1 sa in
     (true, Http (accept_text SHA1 (base64Encode nonce)) :: evs, s2, buf', sa2)).
Proof.
  assert (Hs : solid (base64Encode nonce)) by (rewrite base64Encode_base64 by done; apply base64_solid).
  assert (Hne : base64Encode nonce ≠ [])
    by (rewrite base64Encode_base64 by done; apply base64_nonempty; by destruct nonce).
  destruct Hc as [Hp Hh] eqn:Ec. rewrite request_text_lines, <-app_assoc in Hbuf.
  apply (handshake_accepts SHA1 h buf s now sa (#"GET") (path_ c) (#"HTTP/1.1") (#"websocket") (#"Upgrade")
           (base64Encode nonce) rest (request_headers c (base64Encode nonce))); try done.
  - split; by apply (bool_decide_unpack _).
  - by apply (bool_decide_unpack _).
  - by apply request_headers_ok.
  - cbn [request_headers fmap list_fmap fst]. by apply (bool_decide_unpack _).
  - split; [|by vm_compute]. exists (#"Upgrade"). split; [right; by left|done].
  - split; [|by vm_compute]. exists (#"Connection"). split; [do 2 right; by left|done].
  - split; [|done]. exists (#"Sec-WebSocket-Key"). split; [do 3 right; by left|done].
  - by rewrite Hval.
Qed.

(** Client and server agree on the handshake.  The request a client sends
    when its connection is up, whatever its path, host and nonce, is accepted by
    a server without a validator, which takes exactly the request off its
    buffer and answers; and the answer, cut into pieces at will and with frames
    behind it, opens the client, whose open callback runs before the frames are
    looked at. *)
Theorem handshake_agrees (c : WebSocketClient) (nonce : list Z) (a : A)
    (s : WsSession) (buf : B) (now : Z) (sa : S) (rest pre data tail : str)
    (Hc : client_ok c) (Hn : length nonce = 16) (Hb : byte_list nonce) (Hval : handshakeValidator_ h = None)
    (Hv : bq_valid buf) (Hbuf : bq_contents buf = request_text c (base64Encode nonce) ++ rest)
    (Hsz : (zlen (bq_contents buf) < 2 ^ 63)%Z)
    (Hreply : pre ++ data = accept_text SHA1 (base64Encode nonce) ++ tail) :
  let '(evs, c1, a1) := onConnection rng cb c true nonce a in
  evs = [SentText (request_text c (base64Encode nonce))] ∧
  (∃ buf', bq_valid buf' ∧ bq_contents buf' = rest ∧
    handleHandshake SHA1 h s buf now sa =
    (let s1 := setContext (updateActivity (WebSocketServer.setState s Open) now) (#"path") (path_ c) in
     let '(evs, s2, sa2) := call_back (connectionHandler_ h) (path_ c) (Opened (path_ c)) s1 sa in
     (true, Http (accept_text SHA1 (base64Encode nonce)) :: evs, s2, buf', sa2))) ∧
  handleHandshakeResponse SHA1 rng cb (set_recv c1 (u8_of <$> pre)) data a1 =
  (let '(e1, c2, a2) := on_open rng cb (setState c1 Open) a1 in
   (λ x, (e1 ++ x.1.1, x.1.2, x.2)) <$> handleWsFrames rng cb c2 tail a2).
Proof.
  cbn [onConnection]. split; [done|]. split; [by apply server_accepts|by apply client_opens].
Qed.
End Meeting.

(** ** Frames from the server *)

Section Frames.
Context {A : Type} (rng : nat → list Z) (cb : @Callbacks A).

Fixpoint client_process (fs : list WebSocketFrame) (c : WebSocketClient) (a : A) : list ClientEvent * WebSocketClient * A :=
  match fs with
  | [] => ([], c, a)
  | f :: fs =>
      let '(e1, c1, a1) := handle_frame rng cb c f a in
      let '(e2, c2, a2) := client_process fs c1 a1 in (e1 ++ e2, c2, a2)
  end.

(** A frame as a server sends it: unmasked. *)
Definition plain (f : WebSocketFrame) : list Z := encode f false [0; 0; 0; 0]%Z.

Lemma handle_frame_recv c f a b :
  handle_frame rng cb (set_recv c b) f a = let '(evs, c', a') := handle_frame rng cb c f a in (evs, set_recv c' b, a').
Proof.
  unfold handle_frame, on_message, on_close. destruct (opcode f); try done; try apply called_recv.
  destruct (close_info (payload f)) as [code reason]. cbn [state_ set_recv].
  destruct (bool_decide (state_ c = Open)).
  - rewrite send_frame_recv. destruct (send_frame rng c Close (payload f)) as [e1 c1]. cbn [fst snd].
    change (setState (set_recv c1 b) Closed) with (set_recv (setState c1 Closed) b). rewrite called_recv.
    by destruct (called _ _ _ _ _) as [[??]?].
  - change (setState (set_recv c b) Closed) with (set_recv (setState c Closed) b). rewrite called_recv.
    by destruct (called _ _ _ _ _) as [[??]?].
Qed.

Lemma frame_loop_frames fs n c a tail :
  Forall frame_ok fs → unfinished tail → (zlen (mjoin (plain <$> fs) ++ tail) < 2 ^ 63)%Z →
  frame_loop rng cb (length fs + S n) (set_recv c (mjoin (plain <$> fs) ++ tail)) a =
  let '(evs, c1, a1) := client_process ((λ f, seen f false [0; 0; 0; 0]%Z) <$> fs) c a in Some (evs, set_recv c1 tail, a1).
Proof.
  intros Hfs Ht. revert c a. induction Hfs as [|f fs Hf Hfs IH]; intros c a Hsz.
  - cbn [length Nat.add fmap list_fmap app client_process frame_loop]. cbn [recvBuffer_ set_recv mjoin list_join app].
    case_match; [done|]. destruct Ht as [->|Ht]; [done|].
    destruct (decode tail) as [r|]; [|done]. injection Ht as Ht. by rewrite Ht.
  - cbn [length Nat.add fmap list_fmap client_process frame_loop]. rewrite mjoin_cons, <-app_assoc.
    cbn [recvBuffer_ set_recv]. set (rest := mjoin (plain <$> fs) ++ tail) in *.
    rewrite fmap_cons, mjoin_cons, <-app_assoc in Hsz. fold rest in Hsz.
    assert (Hl : 2 ≤ length (plain f ++ rest)).
    { assert (0 < length (encode_len false (zlen (payload f)))) by (unfold encode_len; repeat case_match; cbn; lia).
      unfold plain, encode. rewrite !length_app. cbn [length]. lia. }
    rewrite (proj2 (Nat.ltb_ge _ _)) by lia. unfold plain at 1. rewrite decode_app by done. cbn [status frame consumed].
    rewrite handle_frame_recv. destruct (handle_frame rng cb c _ a) as [[e1 c1] a1]. cbn [recvBuffer_ set_recv].
    unfold zlen at 1. rewrite Nat2Z.id. fold (plain f). rewrite drop_app_length.
    change (set_recv (set_recv c1 ?b) rest) with (set_recv c1 rest).
    rewrite IH by (unfold zlen in *; rewrite length_app in Hsz; lia).
    by destruct (client_process _ c1 a1) as [[e2 c2] a2].
Qed.

Lemma plain_count fs : length fs ≤ length (mjoin (plain <$> fs)).
Proof.
  induction fs as [|f fs IH]; [done|]. rewrite fmap_cons, mjoin_cons, length_app. cbn [length].
  unfold plain at 1, encode. cbn [app length]. lia.
Qed.

(** Whatever the pieces in which a server's frames arrive, an open client
    decodes them to exactly what was sent and handles them one after the other;
    an unfinished frame at the end stays for the next piece. *)
Theorem client_frames_in_order (SHA1 : str → list Z) (c : WebSocketClient) (data : str) (fs : list WebSocketFrame)
    (tail : list Z) (a : A)
    (Ho : state_ c = Open) (Hfs : Forall frame_ok fs) (Ht : unfinished tail)
    (Hd : recvBuffer_ c ++ (u8_of <$> data) = mjoin (plain <$> fs) ++ tail)
    (Hsz : (zlen (recvBuffer_ c ++ (u8_of <$> data)) < 2 ^ 63)%Z) :
  onMessage SHA1 rng cb c data a =
  let '(evs, c1, a1) := client_process ((λ f, seen f false [0; 0; 0; 0]%Z) <$> fs) c a in Some (evs, set_recv c1 tail, a1).
Proof.
  unfold onMessage. rewrite Ho. unfold handleWsFrames. cbn [recvBuffer_ set_recv]. rewrite Hd in *.
  pose proof (plain_count fs) as Hc.
  replace (S (length (mjoin (plain <$> fs) ++ tail)))
    with (length fs + S (length (mjoin (plain <$> fs) ++ tail) - length fs)) by (rewrite length_app; lia).
  by apply frame_loop_frames.
Qed.
End Frames.

(** ** Frames to the server *)

Section Speaking.
Context {S : Type} (rng : nat → list Z) (h : @Handlers S) (config : WebSocketConfig).

(** What an operation says to the server. *)
Definition says (o : ClientOp) : option (WsOpcode * list Z) :=
  match o with
  | CSendText t => Some (Text, u8_of <$> t)
  | CSendBinary d => Some (Binary, d)
  | CPing d => Some (Ping, d)
  | _ => None
  end.

(** The frames of a sequence of sends, with the masking keys from the [n]th
    on. *)
Fixpoint said (n : nat) (ops : list ClientOp) : list (WebSocketFrame * list Z) :=
  match ops with
  | [] => []
  | o :: ops =>
      match says o with
      | Some (op, p) => (mkFrame true 0 0 0 op false [0; 0; 0; 0]%Z p, rng n) :: said (Datatypes.S n) ops
      | None => said n ops
      end
  end.

Definition bytes_sent (evs : list ClientEvent) : list Z :=
  mjoin ((λ e, match e with Sent d => d | _ => [] end) <$> evs).

Lemma client_says c ops :
  state_ c = Open → conn_ c = Some true → Forall (λ o, is_Some (says o)) ops →
  client_ops rng c ops =
  ((λ fk, Sent (wire fk)) <$> said (drawn c) ops,
   mkClient Open (path_ c) (host_ c) (Some true) (pendingKey_ c) (recvBuffer_ c) (drawn c + length ops)).
Proof.
  intros Ho Hc Hops. revert c Ho Hc. induction Hops as [|o ops [x Hx] Hops IH]; intros c Ho Hc.
  { cbn. f_equal. destruct c as [? ? ? ? ? ? d]. cbn in *. subst. f_equal. lia. }
  cbn [client_ops said]. rewrite Hx. destruct x as [op p].
  assert (H1 : client_op rng c o = send_frame rng c op p).
  { destruct o; cbn [says] in Hx; try done; injection Hx as <- <-; cbn [client_op];
      unfold sendText, sendBinary, ping, when_open, isOpen; by rewrite Ho. }
  rewrite H1. unfold send_frame. rewrite (IH (draw c)) by done. cbn [draw path_ host_ pendingKey_ recvBuffer_ drawn length].
  unfold sendRaw. rewrite bool_decide_true by done. cbn [app fmap list_fmap]. f_equal. f_equal. lia.
Qed.

(** What an open client sends, the server handles: the frames of any
    sequence of texts, binaries and pings, put on the wire with any masking
    keys, are decoded by the server's session to exactly these payloads in this
    order; the client stays open and uses one key per frame. *)
Theorem client_heard {B : Type} `{ByteQueue B} (c : WebSocketClient) (ops : list ClientOp)
    (s : WsSession) (buf : B) (now : Z) (sa : S) (fuel : nat)
    (Ho : state_ c = Open) (Hup : conn_ c = Some true) (Hops : Forall (λ o, is_Some (says o)) ops)
    (Hfit : Forall (client_frame_ok config) (said (drawn c) ops)) (Hv : bq_valid buf)
    (Hbuf : u8_of <$> bq_contents buf = bytes_sent (client_ops rng c ops).1)
    (Hsz : (zlen (bq_contents buf) < 2 ^ 63)%Z) :
  let c1 := (client_ops rng c ops).2 in
  state_ c1 = Open ∧ drawn c1 = drawn c + length ops ∧
  ∃ buf', bq_valid buf' ∧ bq_contents buf' = [] ∧
    WebSocketServer.handleWsFrames h config (length ops + Datatypes.S fuel) s buf now sa =
    (let '(evs, s1, sa1) := process h now (arrives <$> said (drawn c) ops) s sa in Some (evs, s1, buf', sa1)).
Proof.
  assert (Hl : ∀ n, length (said n ops) = length ops).
  { clear -Hops. induction Hops as [|o ops [[op p] Hx] Hops IH]; intros n; [done|]. cbn [said length]. rewrite Hx. cbn. by rewrite IH. }
  rewrite client_says in * by done. cbn [fst snd state_ drawn] in *. split; [done|]. split; [done|].
  unfold bytes_sent in Hbuf. rewrite <-list_fmap_compose in Hbuf.
  destruct (frames_handled h config (said (drawn c) ops) [] s buf now sa (Datatypes.S fuel) Hv Hfit) as (buf' & Hv' & Hc' & He);
    [rewrite app_nil_r; exact Hbuf|done|].
  exists buf'. split; [done|]. assert (Hnil : bq_contents buf' = []) by (by destruct (bq_contents buf')). split; [done|].
  rewrite (Hl (drawn c)) in He. rewrite He. destruct (process _ _ _ _ _) as [[evs s1] sa1]. cbn [WebSocketServer.handleWsFrames].
  rewrite (bq_readable_ok buf' Hv'), Hnil. cbn. by rewrite app_nil_r.
Qed.
End Speaking.

(** ** A concrete client *)

Definition quiet_callbacks : @Callbacks unit :=
  mkCallbacks (Some (λ a, ([CSendText (#"hello")], a))) (Some (λ _ a, ([], a))) (Some (λ _ _ a, ([], a))) (Some (λ _ a, ([], a))).
Definition sample_keys (n : nat) : list Z := [Z.of_nat n mod 256; 1; 2; 3]%Z.
Definition sample_digest (_ : str) : list Z := replicate 20 7%Z.
Definition sample_client : WebSocketClient := WebSocketClient_new #"/chat" #"10.0.0.1:80".
Definition sample_nonce : list Z := replicate 16 200%Z.
Definition open_client : WebSocketClient := mkClient Open #"/chat" #"10.0.0.1:80" (Some true) [] [] 0.

Definition text_frame (t : str) : WebSocketFrame := mkFrame true 0 0 0 Text false [0; 0; 0; 0]%Z (u8_of <$> t).

(** The loop does not stop at a Close frame: what the server sent behind it is
    delivered after the close callback. *)
Example client_message_after_close :
  (λ x, x.1.1) <$> onMessage sample_digest sample_keys quiet_callbacks open_client
    (chr <$> plain WebSocketServer.close_frame ++ plain (text_frame #"late")) () =
  Some [Sent (encode (mkFrame true 0 0 0 Close false [0; 0; 0; 0]%Z [3; 232]%Z) true (sample_keys 0));
        OnClose 1000 []; OnMessage (mkMessage Text (u8_of <$> #"late"))].
Proof. vm_compute. reflexivity. Qed.

(** A client that closes does not look at the server's Close frame, and reports
    the orderly end as a lost connection. *)
Example clean_close_reports_1006 :
  let c := (close sample_keys open_client 1000 []).2 in
  onMessage sample_digest sample_keys quiet_callbacks c (chr <$> plain WebSocketServer.close_frame) () = Some ([], c, ()) ∧
  (onConnection sample_keys quiet_callbacks c false [] ()).1.1 = [OnClose 1006 (#"TCP connection lost")].
Proof. split; vm_compute; reflexivity. Qed.

(** The first fragment of a message is delivered as a message, the others are
    dropped. *)
Example fragments_not_joined :
  (λ x, x.1.1) <$> onMessage sample_digest sample_keys quiet_callbacks open_client
    (chr <$> plain (mkFrame false 0 0 0 Text false [0; 0; 0; 0]%Z [104]%Z) ++
             plain (mkFrame true 0 0 0 Continuation false [0; 0; 0; 0]%Z [105]%Z)) () =
  Some [OnMessage (mkMessage Text [104]%Z)].
Proof. vm_compute. reflexivity. Qed.

Lemma base64Encode_base64_witness : base64Encode [77; 97; 110; 33]%Z = #"TWFuIQ==".
Proof. rewrite base64Encode_base64; [reflexivity|]. repeat constructor; lia. Defined.

Lemma sample_client_ok : client_ok sample_client.
Proof. constructor; (split; [by apply (bool_decide_unpack _)|]); [by apply (bool_decide_unpack _)|by apply clean_dec]. Qed.

Lemma sample_nonce_ok : byte_list sample_nonce.
Proof. apply Forall_replicate. lia. Qed.

Lemma handshake_agrees_witness :
  let text := request_text sample_client (base64Encode sample_nonce) in
  let buf := Buffer.append (Buffer_new 512) (text ++ #"X") in
  let reply := accept_text sample_digest (base64Encode sample_nonce) in
  let '(evs, c1, a1) := onConnection sample_keys quiet_callbacks sample_client true sample_nonce () in
  evs = [SentText text] ∧
  handleHandshakeResponse sample_digest sample_keys quiet_callbacks (set_recv c1 (u8_of <$> take 40 reply)) (drop 40 reply) a1 =
  (let '(e1, c2, a2) := on_open sample_keys quiet_callbacks (WebSocketClient.setState c1 Open) a1 in
   (λ x, (e1 ++ x.1.1, x.1.2, x.2)) <$> handleWsFrames sample_keys quiet_callbacks c2 [] a2).
Proof.
  intros text buf reply.
  destruct (handshake_agrees sample_digest sample_keys quiet_callbacks (mkHandlers None None None None None : @Handlers unit)
    (λ _, eq_refl) sample_client sample_nonce () (WsSession_new 0 true) buf 9 () #"X" (take 40 reply) (drop 40 reply) []
    sample_client_ok eq_refl sample_nonce_ok eq_refl) as (H1 & _ & H3).
  - exact (proj1 (bq_append_ok (Buffer_new 512) _ (proj1 (bq_empty_ok 512)))).
  - vm_compute. reflexivity.
  - vm_compute. reflexivity.
  - rewrite take_drop. unfold reply. by rewrite app_nil_r.
  - split; [exact H1|exact H3].
Defined.

Lemma client_frames_in_order_witness :
  let fs := [text_frame #"a"; text_frame #"b"] in
  onMessage sample_digest sample_keys quiet_callbacks (set_recv open_client [129]%Z)
    (chr <$> drop 1 (mjoin (plain <$> fs) ++ [129]%Z)) () =
  let '(evs, c1, a1) := client_process sample_keys quiet_callbacks ((λ f, seen f false [0; 0; 0; 0]%Z) <$> fs)
                          (set_recv open_client [129]%Z) () in
  Some (evs, set_recv c1 [129]%Z, a1).
Proof.
  intros fs.
  apply (client_frames_in_order sample_keys quiet_callbacks sample_digest (set_recv open_client [129]%Z) _ fs [129]%Z ()).
  - reflexivity.
  - assert (H : ∀ t, (zlen t < 100)%Z → frame_ok (text_frame t)).
    { intros t Ht. split; cbn; try (by left); [lia|done|]. unfold zlen in *. rewrite length_fmap. lia. }
    constructor; [apply H; reflexivity|]. constructor; [apply H; reflexivity|constructor].
  - right. vm_compute. reflexivity.
  - vm_compute. reflexivity.
  - vm_compute. reflexivity.
Defined.

Lemma client_heard_witness :
  let ops := [CSendText (#"hi"); CPing []; CSendBinary [1; 2]%Z] in
  let buf := Buffer.append (Buffer_new 64) (chr <$> bytes_sent (client_ops sample_keys open_client ops).1) in
  ∃ buf', bq_contents buf' = [] ∧
    WebSocketServer.handleWsFrames echo_handlers WebSocketConfig_default 4 open_session buf 5 [] =
    (let '(evs, s1, sa1) := process echo_handlers 5 (arrives <$> said sample_keys 0 ops) open_session [] in Some (evs, s1, buf', sa1)).
Proof.
  intros ops buf.
  destruct (client_heard sample_keys echo_handlers WebSocketConfig_default open_client ops open_session buf 5 [] 0)
    as (_ & _ & buf' & _ & H2 & H3).
  - reflexivity.
  - reflexivity.
  - repeat constructor; vm_compute; eauto.
  - repeat (apply Forall_cons; split); [..|apply Forall_nil_2];
      (split; [split; vm_compute; auto; split; congruence|split; vm_compute; reflexivity]).
  - exact (proj1 (bq_append_ok (Buffer_new 64) _ (proj1 (bq_empty_ok 64)))).
  - vm_compute. reflexivity.
  - vm_compute. reflexivity.
  - exists buf'. split; [exact H2|exact H3].
Defined.
