(* ===== verification/WsEndToEnd.v ===== *)
(** * WsEndToEnd: a WebSocket client and a WebSocket server over TCP

    Composes [WebSocketClient] with [WsConnection]: what the client transmits is
    what the server reads, and what the server's kernel takes is what the client
    reads, each cut in any way.  The applications at both ends send what they
    like, from their callbacks and, at the server, between them; they do not
    close. *)

From S2P Require Import Prelude Buffer Poller TcpConnection WebSocketFrame HttpServer ConnectionCalls WebSocketServer WsConnection WebSocketClient.

(** ** Frames and cuts *)

(** Whole messages, unmasked. *)
Definition whole (op : WsOpcode) (p : list Z) : WebSocketFrame := mkFrame true 0 0 0 op false [0; 0; 0; 0]%Z p.

Definition fits (p : list Z) : Prop := byte_list p ∧ (zlen p < 2 ^ 62)%Z.
Definition frame_fits (f : WebSocketFrame) : Prop := frame_ok f ∧ byte_list (payload f).

Definition named (op : WsOpcode) : bool := match op with Text | Binary | Ping | Pong => true | _ => false end.

(** A frame that the two ends exchange on an open session. *)
Definition speaks (f : WebSocketFrame) : Prop := frame_fits f ∧ named (opcode f) = true.

Lemma whole_speaks op p : named op = true → fits p → speaks (whole op p).
Proof. intros Ho [Hb Hs]. split; [split; [|done]|done]. destruct op; try done; (split; cbn; try done; by left). Qed.

Lemma encode_unmasked f key : encode f false key = plain f.
Proof. done. Qed.

Lemma bytes_u8 z : (0 ≤ u8 z < 256)%Z.
Proof. unfold u8. apply Z.mod_pos_bound. lia. Qed.

Lemma encode_len_bytes n : byte_list (encode_len false n).
Proof.
  unfold encode_len. destruct (n <=? 125)%Z; [|destruct (n <=? 65535)%Z].
  - apply Forall_cons_2; [|constructor]. change (Z.lor 0 (u8 n)) with (u8 n). apply bytes_u8.
  - apply Forall_cons_2; [by vm_compute|]. repeat (apply Forall_cons_2; [apply bytes_u8|]). constructor.
  - apply Forall_cons_2; [by vm_compute|]. apply Forall_fmap, Forall_true. intros. apply bytes_u8.
Qed.

Lemma plain_bytes f : byte_list (payload f) → byte_list (plain f).
Proof.
  intros Hp. unfold plain, encode. apply Forall_cons_2; [apply bytes_u8|].
  apply Forall_app; split; [apply encode_len_bytes|exact Hp].
Qed.

Lemma u8_chr_list l : byte_list l → u8_of <$> (chr <$> l) = l.
Proof. intros Hl. rewrite <-list_fmap_compose. induction Hl as [|z l Hz _ IH]; [done|]. cbn. rewrite u8_of_chr by done. by f_equal. Qed.

Lemma plain_mjoin_bytes fs : Forall frame_fits fs → byte_list (mjoin (plain <$> fs)).
Proof. induction 1 as [|f fs [_ Hf] _ IH]; [constructor|]. rewrite fmap_cons, mjoin_cons. apply Forall_app; split; [by apply plain_bytes|done]. Qed.

(** A stream of encoded frames, cut anywhere. *)
Section Cuts.
Context {X : Type} (enc : X → list Z) (ok : X → Prop).
Context (enc_cut : ∀ x k, ok x → k < length (enc x) → unfinished (take k (enc x))).

Lemma cut_frames xs : Forall ok xs → ∀ p q, p ++ q = mjoin (enc <$> xs) →
  ∃ xs1 xs2 tail, xs = xs1 ++ xs2 ∧ p = mjoin (enc <$> xs1) ++ tail ∧ unfinished tail ∧ tail ++ q = mjoin (enc <$> xs2).
Proof.
  induction 1 as [|x xs Hx Hxs IH]; intros p q Hpq.
  - apply app_eq_nil in Hpq as [-> ->]. exists [], [], []. split_and!; try done. by left.
  - rewrite fmap_cons, mjoin_cons in Hpq. destruct (app_cases _ _ _ _ Hpq) as [(y & -> & Hy)|(y & Hy & Ex & ->)].
    + destruct (IH y q Hy) as (xs1 & xs2 & tail & -> & -> & Ht & Hq). exists (x :: xs1), xs2, tail.
      split_and!; [done| |done|done]. by rewrite fmap_cons, mjoin_cons, app_assoc.
    + exists [], (x :: xs), p. split_and!; [done|done| |].
      * assert (E : p = take (length p) (enc x)) by (by rewrite Ex, take_app_length). rewrite E. apply enc_cut; [done|].
        rewrite Ex, length_app. destruct y; [done|cbn; lia].
      * by rewrite fmap_cons, mjoin_cons, Ex, app_assoc.
Qed.
End Cuts.

Lemma plain_cut f k : frame_ok f → k < length (plain f) → unfinished (take k (plain f)).
Proof. unfold plain. intros Hf Hk. right. destruct (decode_prefix f false [0; 0; 0; 0]%Z k Hf eq_refl Hk) as (r & -> & Hr). cbn. by rewrite Hr. Qed.

Lemma wire_cut config fk k : client_frame_ok config fk → k < length (WebSocketServer.wire fk) → unfinished (take k (WebSocketServer.wire fk)).
Proof. unfold WebSocketServer.wire. intros (Hf & Hk4 & _) Hk. right. destruct (decode_prefix fk.1 true fk.2 k Hf Hk4 Hk) as (r & -> & Hr). cbn. by rewrite Hr. Qed.

(** A beginning of frames that is no frame yet, and nothing behind it. *)
Lemma unfinished_whole f m k rest : frame_ok f → length k = 4 → (zlen (encode f m k ++ rest) < 2 ^ 63)%Z → ¬ unfinished (encode f m k ++ rest).
Proof.
  intros Hf Hk Hs [H|H].
  - apply (f_equal length) in H. rewrite length_app in H. pose proof (encode_nonempty f m k). cbn in H. lia.
  - rewrite decode_app in H by done. done.
Qed.

(** ** What is said on an open session *)

Definition op_frame (o : SessionOp) : option WebSocketFrame :=
  match o with
  | DoSendText t => Some (whole Text (u8_of <$> t))
  | DoSendBinary d => Some (whole Binary d)
  | DoPing d => Some (whole Ping d)
  | DoPong d => Some (whole Pong d)
  | _ => None
  end.

(** It does not end the session, and what it sends can be sent. *)
Definition keeps_open (o : SessionOp) : Prop :=
  match o with DoClose _ _ | DoForceClose => False | _ => ∀ f, op_frame o = Some f → fits (payload f) end.

(** [l] is an interleaving of [l1] and [l2]. *)
Inductive merged {X : Type} : list X → list X → list X → Prop :=
  | merged_nil : merged [] [] []
  | merged_l x l1 l2 l : merged l1 l2 l → merged (x :: l1) l2 (x :: l)
  | merged_r x l1 l2 l : merged l1 l2 l → merged l1 (x :: l2) (x :: l).

Lemma merged_left {X} (l : list X) : merged l [] l.
Proof. induction l; by constructor. Qed.

Lemma merged_right {X} (l : list X) : merged [] l l.
Proof. induction l; by constructor. Qed.

Lemma merged_app {X} (a1 a2 a b1 b2 b : list X) : merged a1 a2 a → merged b1 b2 b → merged (a1 ++ b1) (a2 ++ b2) (a ++ b).
Proof. intros Ha Hb. induction Ha; [done|by constructor..]. Qed.

Lemma merged_Forall {X} (P : X → Prop) (l1 l2 l : list X) : merged l1 l2 l → Forall P l1 → Forall P l2 → Forall P l.
Proof. induction 1 as [| |]; intros H1 H2; [done| |]; [apply Forall_cons in H1 as [? ?]|apply Forall_cons in H2 as [? ?]]; constructor; auto. Qed.

Lemma merged_omap {X Y} (f : X → option Y) (l1 l2 l : list X) : merged l1 l2 l → omap f l2 = [] → omap f l = omap f l1.
Proof.
  induction 1 as [|x l1 l2 l _ IH|x l1 l2 l _ IH]; intros H; [done| |].
  - cbn. rewrite (IH H). done.
  - cbn in H |- *. destruct (f x); [done|]. by apply IH.
Qed.

Definition frame_event (f : WebSocketFrame) : WsEvent := Frame (plain f).
Definition op_frames (ops : list SessionOp) : list WebSocketFrame := omap op_frame ops.

(** Events of an open session: messages come, frames go. *)
Definition event_frame (e : WsEvent) : option (list Z) := match e with Frame d => Some d | _ => None end.
Definition event_message (e : WsEvent) : option WsMessage := match e with Message m => Some m | _ => None end.
Definition calm (e : WsEvent) : Prop :=
  match e with Frame d => ∃ f, d = plain f ∧ speaks f | Message _ | Opened _ => True | _ => False end.

Definition frame_message (f : WebSocketFrame) : option WsMessage :=
  match opcode f with Text | Binary => Some (mkMessage (opcode f) (payload f)) | _ => None end.

Lemma frame_events_silent l : omap event_message (frame_event <$> l) = [].
Proof. by induction l. Qed.

Lemma op_frame_speaks o f : keeps_open o → op_frame o = Some f → speaks f.
Proof. destruct o; cbn; try done; intros Hk [= <-]; specialize (Hk _ eq_refl); by apply whole_speaks. Qed.

Lemma op_frames_calm ops : Forall keeps_open ops → Forall calm (frame_event <$> op_frames ops).
Proof.
  induction 1 as [|o ops Ho _ IH]; [constructor|]. unfold op_frames. cbn [omap list_omap]. destruct (op_frame o) as [f|] eqn:E; [|done].
  constructor; [|done]. exists f. split; [done|]. by apply (op_frame_speaks o).
Qed.

Lemma frames_calm_back evs : Forall calm evs → ∃ back, omap event_frame evs = plain <$> back ∧ Forall speaks back.
Proof.
  induction 1 as [|e evs He _ (back & IH & Hb)]; [by exists []|]. destruct e; cbn [omap list_omap event_frame calm] in *; try done;
    try (by exists back). destruct He as (f & -> & Hf). exists (f :: back). rewrite IH. split; [done|by constructor].
Qed.

Section Server.
Context {S : Type} (h : @Handlers S) (config : WebSocketConfig).

Record steady : Prop := {
  steady_connection : ∀ g p a, connectionHandler_ h = Some g → Forall keeps_open (g p a).1;
  steady_message : ∀ g m a, messageHandler_ h = Some g → fits (msg_data m) → Forall keeps_open (g m a).1
}.

Definition is_open (s : WsSession) : Prop := WebSocketServer.state_ s = Open ∧ conn_connected s = true.

Lemma run_op_open s o : is_open s → keeps_open o →
  ∃ s', run_op s o = (frame_event <$> op_frames [o], s') ∧ is_open s'.
Proof.
  intros [Hs Hc] Ho. destruct o; try done; cbn [run_op];
    unfold WebSocketServer.sendText, WebSocketServer.sendBinary, WebSocketServer.ping, pong, WebSocketServer.when_open,
      WebSocketServer.isOpen, WebSocketServer.sendRaw; rewrite ?bool_decide_true, ?Hc by done; by eexists.
Qed.

Lemma run_ops_open ops : Forall keeps_open ops → ∀ s, is_open s →
  ∃ s', run_ops s ops = (frame_event <$> op_frames ops, s') ∧ is_open s'.
Proof.
  induction 1 as [|o ops Ho _ IH]; intros s Hs; [by exists s|].
  destruct (run_op_open s o Hs Ho) as (s1 & E1 & Hs1). destruct (IH s1 Hs1) as (s2 & E2 & Hs2).
  exists s2. split; [|done]. cbn [run_ops]. rewrite E1, E2, <-fmap_app. do 2 f_equal. unfold op_frames. cbn. by destruct (op_frame o).
Qed.

(** What an open session does with a message, and with a frame: its events, and
    the state of the application. *)
Definition message_reaction (m : WsMessage) (a : S) : list WsEvent * S :=
  match messageHandler_ h with
  | None => ([], a)
  | Some g => let '(ops, a') := g m a in (Message m :: (frame_event <$> op_frames ops), a')
  end.

Definition reaction (f : WebSocketFrame) (a : S) : list WsEvent * S :=
  match opcode f with
  | Text | Binary => message_reaction (mkMessage (opcode f) (payload f)) a
  | Ping => ([frame_event (whole Pong (payload f))], a)
  | _ => ([], a)
  end.

Fixpoint reactions (fs : list WebSocketFrame) (a : S) : list WsEvent * S :=
  match fs with
  | [] => ([], a)
  | f :: fs => let '(e1, a1) := reaction f a in let '(e2, a2) := reactions fs a1 in (e1 ++ e2, a2)
  end.

Lemma reactions_app fs1 fs2 a :
  reactions (fs1 ++ fs2) a = let '(e1, a1) := reactions fs1 a in let '(e2, a2) := reactions fs2 a1 in (e1 ++ e2, a2).
Proof.
  revert a. induction fs1 as [|f fs1 IH]; intros a; cbn [app reactions]; [by destruct (reactions fs2 a)|].
  destruct (reaction f a) as [e1 a1]. rewrite IH. destruct (reactions fs1 a1) as [e2 a2]. destruct (reactions fs2 a2). by rewrite app_assoc.
Qed.

Lemma message_calm m a : steady → fits (msg_data m) → Forall calm (message_reaction m a).1.
Proof.
  intros Hst Hm. unfold message_reaction. destruct (messageHandler_ h) as [g|] eqn:Eg; [|constructor].
  pose proof (steady_message Hst g m a Eg Hm) as H. destruct (g m a) as [ops a']. constructor; [done|]. by apply op_frames_calm.
Qed.

Lemma reaction_calm f a : steady → speaks f → Forall calm (reaction f a).1.
Proof.
  intros Hst [[Hf Hb] Hn]. assert (Hfit : fits (payload f)) by (split; [done|apply Hf]). unfold reaction.
  destruct (opcode f) eqn:Eo; try done; try by apply message_calm. constructor; [|constructor]. eexists. split; [done|].
  by apply whole_speaks.
Qed.

Lemma handleMessage_open s m a : steady → is_open s → fits (msg_data m) →
  ∃ s', handleMessage h s m a = ((message_reaction m a).1, s', (message_reaction m a).2) ∧ is_open s'.
Proof.
  intros Hst Hs Hm. unfold handleMessage, call_back, message_reaction. destruct (messageHandler_ h) as [g|] eqn:Eg; [|by exists s].
  pose proof (steady_message Hst g m a Eg Hm) as H. destruct (g m a) as [ops a'].
  destruct (run_ops_open ops H s Hs) as (s' & -> & Hs'). by exists s'.
Qed.

Lemma handle_frame_open s f a : steady → is_open s → speaks f →
  ∃ s', WebSocketServer.handle_frame h s f a = ((reaction f a).1, s', (reaction f a).2) ∧ is_open s'.
Proof.
  intros Hst Hs [[Hf Hb] Hn]. assert (Hfit : fits (payload f)) by (split; [done|apply Hf]).
  unfold WebSocketServer.handle_frame, reaction.
  destruct (opcode f) eqn:Eo; try done; [by apply handleMessage_open|by apply handleMessage_open| |by exists s].
  exists s. split; [|done]. destruct Hs as [Hs Hc].
  unfold pong, WebSocketServer.when_open, WebSocketServer.isOpen, WebSocketServer.sendRaw. by rewrite bool_decide_true, Hc by done.
Qed.

Lemma process_open now fs : steady → Forall speaks fs → ∀ s a, is_open s →
  ∃ s', process h now fs s a = ((reactions fs a).1, s', (reactions fs a).2) ∧ is_open s'.
Proof.
  intros Hst. induction 1 as [|f fs Hf _ IH]; intros s a Hs; [by exists s|]. cbn [process reactions].
  destruct (handle_frame_open (updateActivity s now) f a Hst Hs Hf) as (s1 & E1 & Hs1). rewrite E1.
  destruct (reaction f a) as [e1 a1]. cbn [fst snd]. destruct (IH s1 a1 Hs1) as (s2 & E2 & Hs2). rewrite E2.
  destruct (reactions fs a1) as [e2 a2]. by exists s2.
Qed.

Lemma reactions_calm fs : steady → Forall speaks fs → ∀ a, Forall calm (reactions fs a).1.
Proof.
  intros Hst. induction 1 as [|f fs Hf _ IH]; intros a; [constructor|]. cbn [reactions].
  pose proof (reaction_calm f a Hst Hf) as H1. destruct (reaction f a) as [e1 a1]. specialize (IH a1).
  destruct (reactions fs a1). by apply Forall_app.
Qed.

Lemma reactions_messages fs : is_Some (messageHandler_ h) → ∀ a,
  omap event_message (reactions fs a).1 = omap frame_message fs.
Proof.
  intros [g Hg].
  induction fs as [|f fs IH]; intros a; [done|]. cbn [reactions].
  assert (H1 : omap event_message (reaction f a).1 = omap frame_message [f]).
  { unfold reaction, frame_message, message_reaction. cbn [omap list_omap]. rewrite Hg. destruct (opcode f); try done;
      destruct (g _ a) as [ops a']; cbn [fst omap list_omap event_message]; by rewrite frame_events_silent. }
  destruct (reaction f a) as [e1 a1]. specialize (IH a1). destruct (reactions fs a1) as [e2 a2]. cbn [fst] in *.
  change (f :: fs) with ([f] ++ fs). rewrite !omap_app. by rewrite H1, IH.
Qed.
End Server.

(** ** The server on its connection *)

Lemma seen_speaks fk : speaks fk.1 → speaks (arrives fk).
Proof. intros [[[H1 H2 H3 H4 H5 H6] Hb] Hn]. split; [split; [by split|done]|done]. Qed.

Lemma arrive_speaks fs : Forall speaks (fst <$> fs) → Forall speaks (arrives <$> fs).
Proof.
  induction fs as [|fk fs IH]; [done|]. rewrite !fmap_cons. intros [H1 H2]%Forall_cons.
  constructor; [by apply seen_speaks|by apply IH].
Qed.

Section Talk.
Context {S : Type} (SHA1 : str → list Z) (h : @Handlers S) (config : WebSocketConfig) (name : str).
Context {B : Type} `{ByteQueue B}.
Context (Hst : steady h).

Local Abbreviation State := (@State S B).
Local Abbreviation play := (play SHA1 h config name).
Local Abbreviation plays := (plays SHA1 h config name).
Local Abbreviation in_step := (in_step name).

Definition received (es : list Event) : str := mjoin (omap (λ e, match e with Readable d _ _ => Some d | _ => None end) es).

(** What the application sends between its callbacks. *)
Definition pushed (es : list Event) : list WebSocketFrame := es ≫= (λ e, match e with Work ops _ => op_frames ops | _ => [] end).

Definition goes (e : Event) : Prop :=
  event_ok e ∧ match e with Readable d _ _ => d ≠ [] | Work ops _ => Forall keeps_open ops | _ => True end.

Definition input (st : State) : list Z := u8_of <$> bq_contents (inputBuffer_ (conn st)).

Lemma open_up (st : State) s : in_step st s → is_open s → shut (heard st) = false ∧ TcpConnection.state_ (conn st) = kConnected.
Proof.
  intros [_ H2 H3 _ _ _ _] [_ Hc]. rewrite Hc in H2. destruct (shut (heard st)); [done|]. done.
Qed.

Lemma arrives_reactions fs a : reactions h (arrives <$> fs) a = reactions h (fst <$> fs) a.
Proof.
  revert a. induction fs as [|fk fs IH]; intros a; [done|]. rewrite !fmap_cons. cbn [reactions].
  change (reaction h (arrives fk) a) with (reaction h fk.1 a). destruct (reaction h fk.1 a) as [e1 a1]. by rewrite IH.
Qed.

(** What is put into the table is the session of the invariant. *)
Lemma play_session (st : State) s e c1 s1 a1 evs :
  in_step st s → event_ok e → play st e = Some (WsConnection.mkState c1 (put_session (srv st) name s1 a1) evs) →
  in_step (WsConnection.mkState c1 (put_session (srv st) name s1 a1) evs) s1.
Proof.
  intros Hin He Hp. destruct (ws_play_in_step SHA1 h config name st s e _ Hin He Hp) as (s2 & Hin2).
  pose proof (is_session _ _ _ Hin2) as Hl. pose proof (is_session _ _ _ Hin) as H1.
  cbn [srv] in Hl. unfold put_session in Hl. cbn [sessions_] in Hl. rewrite bool_decide_true in Hl by (apply elem_of_dom; eauto).
  rewrite lookup_insert_eq in Hl. by injection Hl as <-.
Qed.

(** A read: the frames that are complete now get their reaction. *)
Lemma play_read (st : State) s d now wrs fs tail :
  in_step st s → is_open s → d ≠ [] → (∀ k, takes_part (wrs k)) →
  Forall (client_frame_ok config) fs → Forall speaks (fst <$> fs) → unfinished tail →
  input st ++ (u8_of <$> d) = mjoin (WebSocketServer.wire <$> fs) ++ tail → (zlen (input st ++ (u8_of <$> d)) < 2 ^ 63)%Z →
  ∃ st1 s1, play st (Readable d now wrs) = Some st1 ∧ in_step st1 s1 ∧ is_open s1 ∧ input st1 = tail ∧
    heard st1 = heard st ++ (reactions h (fst <$> fs) (app_state (srv st))).1 ∧
    app_state (srv st1) = (reactions h (fst <$> fs) (app_state (srv st))).2.
Proof.
  intros Hin Hs Hd Hw Hfs Hsp Ht Hc Hsz. destruct (open_up st s Hin Hs) as [Hnot Hup]. pose proof Hin as [H1 H2 H3 H4 H5 H6 H7].
  destruct (handleRead_data (conn st) d H5 Hd) as (Hv & Ec & Hrb). destruct (Hrb H4) as (Hb & _ & Est).
  assert (Hp : play st (Readable d now wrs) = play st (Readable d now wrs)) by done.
  unfold WsConnection.play in Hp at 2. rewrite bool_decide_false in Hp by done. set (c := handleRead (conn st) (RdData d)) in *.
  assert (Ec1 : u8_of <$> bq_contents (inputBuffer_ c) = input st ++ (u8_of <$> d)) by (by rewrite Ec, fmap_app).
  destruct (frames_in_order SHA1 h config (srv st) name s (inputBuffer_ c) now fs tail Hv H1 (proj1 Hs) Hfs Ht) as (buf & Hbv & Hbuf & Hon).
  { by rewrite Ec1. }
  { unfold zlen in *. by rewrite <-(length_fmap u8_of), Ec1. }
  cbv zeta in Hp. rewrite Hon in Hp.
  destruct (process_open h now (arrives <$> fs) Hst) with (s := s) (a := app_state (srv st)) as (s1 & Ep & Hs1); [by apply arrive_speaks|done|].
  rewrite Ep, arrives_reactions in Hp. set (r := reactions h (fst <$> fs) (app_state (srv st))) in *.
  rewrite <-list_fmap_compose in Hp. change (snd ∘ pair name) with (λ x : WsEvent, x) in Hp. rewrite list_fmap_id in Hp.
  eexists _, s1. split; [exact Hp|].
  pose proof (play_session st s (Readable d now wrs) _ _ _ _ Hin Hw Hp) as Hin1. split_and!; [done|done| |done|done].
  unfold input. cbn [conn]. destruct (perform_events r.1 (with_input c buf) wrs) as (_ & _ & _ & ->); [|by cbn; congruence|done|done].
  by destruct Hb as [[_ Hvo] ? ? ? ? ?]; constructor.
Qed.

(** The application sends. *)
Lemma play_work (st : State) s ops wrs :
  in_step st s → is_open s → Forall keeps_open ops → (∀ k, takes_part (wrs k)) →
  ∃ st1 s1, play st (Work ops wrs) = Some st1 ∧ in_step st1 s1 ∧ is_open s1 ∧ input st1 = input st ∧
    heard st1 = heard st ++ (frame_event <$> op_frames ops) ∧ app_state (srv st1) = app_state (srv st).
Proof.
  intros Hin Hs Hops Hw. destruct (open_up st s Hin Hs) as [Hnot Hup]. pose proof Hin as [H1 H2 H3 H4 H5 H6 H7].
  assert (Hp : play st (Work ops wrs) = play st (Work ops wrs)) by done. unfold WsConnection.play in Hp at 2. rewrite H1 in Hp.
  destruct (run_ops_open ops Hops s Hs) as (s1 & E & Hs1). rewrite E in Hp. eexists _, s1. split; [exact Hp|].
  pose proof (play_session st s (Work ops wrs) _ _ _ _ Hin Hw Hp) as Hin1. split_and!; [done|done| |done|done].
  unfold input. cbn [conn]. by destruct (perform_events (frame_event <$> op_frames ops) (conn st) wrs) as (_ & _ & _ & ->).
Qed.

(** The loop writes, or runs what was queued. *)
Lemma play_silent (st : State) s e :
  in_step st s → event_ok e → (match e with Writable _ | Queued _ => True | _ => False end) →
  ∃ st1, play st e = Some st1 ∧ in_step st1 s ∧ input st1 = input st ∧ heard st1 = heard st ∧ srv st1 = srv st.
Proof.
  intros Hin He Hsil. pose proof Hin as [H1 H2 H3 H4 H5 H6 H7].
  assert (Hup : TcpConnection.state_ (conn st) ≠ kDisconnected) by (rewrite H3; by destruct (shut (heard st))).
  assert (Hp : ∃ st1, play st e = Some st1 ∧ inputBuffer_ (conn st1) = inputBuffer_ (conn st) ∧ heard st1 = heard st ∧ srv st1 = srv st).
  { destruct e as [| |wr|wr]; try done; cbn [WsConnection.play]; eexists; (split; [done|]); cbn [conn srv heard step].
    - by destruct (handleWrite_between (conn st) wr (λ _, wr []) H4) as (_ & (_ & -> & _) & _).
    - destruct (pending (conn st)) as [|f q] eqn:Eq; [done|].
      assert (Hf : silent f) by (pose proof (bt_silent _ H4) as Hq; rewrite Eq in Hq; by apply Forall_cons in Hq as [? _]).
      by destruct f. }
  destruct Hp as (st1 & Hp & Hi & Hh & Hsrv). exists st1. unfold input. rewrite Hi.
  destruct (ws_play_in_step SHA1 h config name st s e st1 Hin He Hp) as (s1 & Hin1).
  pose proof (is_session _ _ _ Hin1) as Hl. rewrite Hsrv, H1 in Hl. injection Hl as <-. done.
Qed.

(** Everything but a read. *)
Lemma play_other (st : State) s e :
  in_step st s → is_open s → goes e → (match e with Readable _ _ _ => False | _ => True end) →
  ∃ st1 s1, play st e = Some st1 ∧ in_step st1 s1 ∧ is_open s1 ∧ input st1 = input st ∧
    heard st1 = heard st ++ (frame_event <$> pushed [e]) ∧ app_state (srv st1) = app_state (srv st).
Proof.
  intros Hin Hs [He Hgo] Hno. destruct e as [d now wrs|ops wrs|wr|wr]; [done| |..].
  - destruct (play_work st s ops wrs Hin Hs Hgo He) as (st1 & s1 & Hp & Hin1 & Hs1 & Hi1 & Hh1 & Ha1).
    exists st1, s1. split_and!; try done. by rewrite Hh1; change (pushed [Work ops wrs]) with (op_frames ops ++ []); rewrite app_nil_r.
  - destruct (play_silent st s (Writable wr) Hin He I) as (st1 & Hp & Hin1 & Hi1 & Hh1 & Hv1). exists st1, s.
    rewrite Hh1, Hv1, app_nil_r. done.
  - destruct (play_silent st s (Queued wr) Hin He I) as (st1 & Hp & Hin1 & Hi1 & Hh1 & Hv1). exists st1, s.
    rewrite Hh1, Hv1, app_nil_r. done.
Qed.

(** What events do to an open session [st] that gets the frames [fs]. *)
Definition talked (st st1 : State) (fs : list WebSocketFrame) (es : list Event) : Prop :=
  ∃ s1 evs, in_step st1 s1 ∧ is_open s1 ∧ input st1 = [] ∧ heard st1 = heard st ++ evs ∧
    merged (reactions h fs (app_state (srv st))).1 (frame_event <$> pushed es) evs ∧
    app_state (srv st1) = (reactions h fs (app_state (srv st))).2.

Lemma talked_read st st1 st2 fs1 fs2 d now wrs es :
  heard st1 = heard st ++ (reactions h fs1 (app_state (srv st))).1 →
  app_state (srv st1) = (reactions h fs1 (app_state (srv st))).2 →
  talked st1 st2 fs2 es → talked st st2 (fs1 ++ fs2) (Readable d now wrs :: es).
Proof.
  intros Hh1 Ha1 (s2 & evs & Hin & Hs & Hi & Hh & Hm & Ha). rewrite Ha1 in Hm, Ha.
  exists s2, ((reactions h fs1 (app_state (srv st))).1 ++ evs). rewrite reactions_app.
  destruct (reactions h fs1 _) as [e1 a1]. cbn [fst snd] in *. destruct (reactions h fs2 a1) as [e2 a2].
  split_and!; try done; [by rewrite Hh, Hh1, app_assoc|]. apply (merged_app e1 [] e1); [apply merged_left|done].
Qed.

Lemma talked_other st st1 st2 fs e es :
  heard st1 = heard st ++ (frame_event <$> pushed [e]) → app_state (srv st1) = app_state (srv st) →
  talked st1 st2 fs es → talked st st2 fs (e :: es).
Proof.
  intros Hh1 Ha1 (s2 & evs & Hin & Hs & Hi & Hh & Hm & Ha). rewrite Ha1 in Hm, Ha.
  exists s2, ((frame_event <$> pushed [e]) ++ evs). split_and!; try done; [by rewrite Hh, Hh1, app_assoc|].
  change (e :: es) with ([e] ++ es). unfold pushed. rewrite bind_app, fmap_app.
  apply (merged_app [] _ _); [apply merged_right|done].
Qed.

(** Any number of events: the frames that come get their reactions, in their
    order, and what the application sends goes between. *)
Lemma plays_talk es : ∀ (st : State) s fs,
  in_step st s → is_open s → Forall (client_frame_ok config) fs → Forall speaks (fst <$> fs) → unfinished (input st) →
  input st ++ (u8_of <$> received es) = mjoin (WebSocketServer.wire <$> fs) → (zlen (mjoin (WebSocketServer.wire <$> fs)) < 2 ^ 63)%Z →
  Forall goes es → ∃ st1, plays st es = Some st1 ∧ talked st st1 (fst <$> fs) es.
Proof.
  induction es as [|e es IH]; intros st s fs Hin Hs Hfs Hsp Ht Hc Hsz Hes.
  - rewrite app_nil_r in Hc. destruct fs as [|fk fs].
    + exists st. split; [done|]. exists s, []. rewrite app_nil_r. split_and!; try done. constructor.
    + exfalso. rewrite Hc, fmap_cons, mjoin_cons in *. apply Forall_cons in Hfs as [(Hf & Hk & _) _].
      by apply (unfinished_whole fk.1 true fk.2 _ Hf Hk Hsz).
  - apply Forall_cons in Hes as [Hgo Hes]. cbn [WsConnection.plays].
    assert (Hcase : (∃ d now wrs, e = Readable d now wrs) ∨ match e with Readable _ _ _ => False | _ => True end)
      by (destruct e; [left; eauto|by right..]).
    destruct Hcase as [(d & now & wrs & ->)|Hno].
    + assert (Er : u8_of <$> received (Readable d now wrs :: es) = (u8_of <$> d) ++ (u8_of <$> received es)) by apply fmap_app.
      rewrite Er, app_assoc in Hc. destruct (cut_frames _ _ (wire_cut config) fs Hfs _ _ Hc) as (fs1 & fs2 & tail & -> & E1 & Ht1 & E2).
      apply Forall_app in Hfs as [Hfs1 Hfs2]. rewrite fmap_app in Hsp |- *. apply Forall_app in Hsp as [Hsp1 Hsp2].
      destruct Hgo as [He Hd].
      destruct (play_read st s d now wrs fs1 tail Hin Hs Hd He Hfs1 Hsp1 Ht1 E1) as (st1 & s1 & Hp & Hin1 & Hs1 & Hi1 & Hh1 & Ha1).
      { rewrite <-Hc in Hsz. unfold zlen in *. rewrite length_app in Hsz. lia. }
      destruct (IH st1 s1 fs2) as (st2 & Hp2 & Htk); try done; [by rewrite Hi1|by rewrite Hi1| |].
      { rewrite fmap_app, join_app in Hsz. unfold zlen in *. rewrite length_app in Hsz. lia. }
      exists st2. rewrite Hp. split; [done|]. by eapply talked_read.
    + assert (Er : received (e :: es) = received es) by (by destruct e).
      destruct (play_other st s e Hin Hs Hgo Hno) as (st1 & s1 & Hp & Hin1 & Hs1 & Hi1 & Hh1 & Ha1).
      rewrite Er in Hc. destruct (IH st1 s1 fs) as (st2 & Hp2 & Htk); try done; [by rewrite Hi1|by rewrite Hi1|].
      exists st2. rewrite Hp. split; [done|]. by eapply talked_other.
Qed.

(** With nothing left to write, what the session said is on the wire. *)
Lemma quiet_wire (st : State) s :
  in_step st s → bq_contents (outputBuffer_ (conn st)) = [] → TcpConnection.wire (log (conn st)) = sent (heard st).
Proof. intros Hin Ho. destruct (between_drained _ (is_between _ _ _ Hin) Ho) as [-> _]. apply (is_stream _ _ _ Hin). Qed.

Lemma plays_drain (st : State) s wrs :
  in_step st s → Forall (λ wr, takes_part wr ∧ takes_some wr) wrs → length (bq_contents (outputBuffer_ (conn st))) ≤ length wrs →
  ∃ st1, plays st (Writable <$> wrs) = Some st1 ∧ in_step st1 s ∧ input st1 = input st ∧ heard st1 = heard st ∧ srv st1 = srv st ∧
    bq_contents (outputBuffer_ (conn st1)) = [].
Proof.
  intros Hin Hw Hl. pose proof Hin as [H1 H2 H3 H4 H5 H6 H7].
  destruct (write_all_drains wrs (conn st) H4) as (B1 & (K1 & K2 & _) & E1 & O1); [rewrite H3; by destruct (shut (heard st))|done|done|].
  eexists. split; [apply ws_plays_writes|].
  destruct (ws_plays_in_step SHA1 h config name (Writable <$> wrs) st s (WsConnection.mkState (write_all (conn st) wrs) (srv st) (heard st)) Hin) as (s1 & Hin1); [|apply ws_plays_writes|].
  { clear -Hw. induction Hw as [|wr wrs [Hwr _] _ IH]; by constructor. }
  pose proof (is_session _ _ _ Hin1) as Hs1. cbn [srv] in Hs1. rewrite H1 in Hs1. injection Hs1 as <-.
  split; [exact Hin1|]. unfold input. cbn [conn heard srv]. by rewrite K2.
Qed.

Lemma sent_calm evs back : Forall calm evs → omap event_frame evs = plain <$> back → sent evs = chr <$> mjoin (plain <$> back).
Proof.
  intros Hc <-. induction Hc as [|e evs He _ IH]; [done|]. destruct e; try done.
  cbn [sent is_shut omap list_omap event_frame]. rewrite IH, mjoin_cons, fmap_app. unfold wire_bytes. cbn. by rewrite app_nil_r.
Qed.

Lemma calm_unshut evs : Forall calm evs → shut evs = false.
Proof. induction 1 as [|e evs He _ IH]; [done|]. cbn. by destruct e. Qed.
End Talk.

(** ** The client *)

Definition client_message (e : ClientEvent) : option WsMessage := match e with OnMessage m => Some m | _ => None end.

Section Client.
Context {A : Type} (SHA1 : str → list Z) (rng : nat → list Z) (cb : @Callbacks A).

(** The chunks that arrive, one after the other. *)
Fixpoint client_hears (chunks : list str) (c : WebSocketClient) (a : A) : option (list ClientEvent * WebSocketClient * A) :=
  match chunks with
  | [] => Some ([], c, a)
  | d :: chunks =>
      '(e1, c1, a1) ← WebSocketClient.onMessage SHA1 rng cb c d a;
      '(e2, c2, a2) ← client_hears chunks c1 a1; Some (e1 ++ e2, c2, a2)
  end.

Definition only_sends (ops : list ClientOp) : Prop := Forall (λ o, is_Some (says o)) ops.

Record client_steady : Prop := {
  steady_open : ∀ g a, openCallback_ cb = Some g → only_sends (g a).1;
  steady_heard : ∀ g m a, messageCallback_ cb = Some g → only_sends (g m a).1
}.
Context (Hcs : client_steady).

Definition client_up (c : WebSocketClient) : Prop := state_ c = Open ∧ conn_ c = Some true.

Lemma called_up (f : option (A → list ClientOp * A)) e c a :
  client_up c → (∀ g, f = Some g → only_sends (g a).1) →
  let '(evs, c', _) := called rng f e c a in
  client_up c' ∧ (is_Some f → omap client_message evs = omap client_message [e]).
Proof.
  intros [Ho Hc] Hf. destruct f as [g|]; cbn [called]; [|by split; [|intros [? ?]]]. specialize (Hf g eq_refl). destruct (g a) as [ops a'].
  rewrite client_says by done. split; [done|]. intros _. cbn [omap list_omap].
  assert (Hno : ∀ l, omap client_message ((λ fk, Sent (WebSocketServer.wire fk)) <$> l) = []) by (by induction l). by rewrite Hno.
Qed.

Definition unmasked (f : WebSocketFrame) : WebSocketFrame := seen f false [0; 0; 0; 0]%Z.

Lemma handle_frame_up c f a : client_up c → named (opcode f) = true →
  let '(evs, c', _) := handle_frame rng cb c (unmasked f) a in
  client_up c' ∧ (is_Some (messageCallback_ cb) → omap client_message evs = omap frame_message [f]).
Proof.
  intros Hc Hn.
  assert (Hm : ∀ m, let '(evs, c', _) := on_message rng cb m c a in
    client_up c' ∧ (is_Some (messageCallback_ cb) → omap client_message evs = [m])).
  { intros m. pose proof (called_up ((λ g, g m) <$> messageCallback_ cb) (OnMessage m) c a Hc) as H. unfold on_message.
    destruct (called _ _ _ _ _) as [[evs c'] a']. destruct H as [H1 H2].
    { intros g Hg. destruct (messageCallback_ cb) as [g'|] eqn:Eg; [|done]. injection Hg as <-. by apply (steady_heard Hcs). }
    split; [done|]. intros Hs. apply H2. by apply fmap_is_Some. }
  unfold handle_frame, frame_message. cbn [unmasked seen opcode payload omap list_omap].
  destruct (opcode f) eqn:Eo; try done; try exact (Hm _).
  unfold send_frame, WebSocketClient.sendRaw. destruct Hc as [Ho Hc]. rewrite bool_decide_true by done. done.
Qed.

Lemma client_process_up fs : ∀ c a, client_up c → Forall (λ f, named (opcode f) = true) fs →
  let '(evs, c', _) := client_process rng cb (unmasked <$> fs) c a in
  client_up c' ∧ (is_Some (messageCallback_ cb) → omap client_message evs = omap frame_message fs).
Proof.
  induction fs as [|f fs IH]; intros c a Hc Hn; [done|]. apply Forall_cons in Hn as [Hf Hn]. cbn [fmap list_fmap client_process].
  pose proof (handle_frame_up c f a Hc Hf) as H1. destruct (handle_frame _ _ _ _ _) as [[e1 c1] a1]. destruct H1 as [Hc1 H1].
  specialize (IH c1 a1 Hc1 Hn). destruct (client_process _ _ _ _ _) as [[e2 c2] a2]. destruct IH as [Hc2 H2]. split; [done|].
  intros Hs. change (f :: fs) with ([f] ++ fs). by rewrite !omap_app, H1, H2.
Qed.

Lemma client_process_app fs1 fs2 c a :
  client_process rng cb (fs1 ++ fs2) c a =
  let '(e1, c1, a1) := client_process rng cb fs1 c a in
  let '(e2, c2, a2) := client_process rng cb fs2 c1 a1 in (e1 ++ e2, c2, a2).
Proof.
  revert c a. induction fs1 as [|f fs1 IH]; intros c a; cbn [app client_process]; [by destruct (client_process _ _ fs2 c a) as [[??]?]|].
  destruct (handle_frame _ _ _ _ _) as [[e1 c1] a1]. rewrite IH. destruct (client_process _ _ fs1 c1 a1) as [[e2 c2] a2].
  destruct (client_process _ _ fs2 c2 a2) as [[e3 c3] a3]. by rewrite app_assoc.
Qed.

Lemma client_process_recv fs : ∀ c a b,
  client_process rng cb fs (set_recv c b) a =
  let '(evs, c', a') := client_process rng cb fs c a in (evs, set_recv c' b, a').
Proof.
  induction fs as [|f fs IH]; intros c a b; [done|]. cbn [client_process]. rewrite handle_frame_recv.
  destruct (handle_frame _ _ _ _ _) as [[e1 c1] a1]. rewrite IH. by destruct (client_process _ _ fs c1 a1) as [[e2 c2] a2].
Qed.

(** The frames that come, in any chunks, are handled one after the other. *)
Lemma client_hears_frames chunks : ∀ c a fs,
  client_up c → Forall frame_ok fs → Forall (λ f, named (opcode f) = true) fs → unfinished (recvBuffer_ c) →
  recvBuffer_ c ++ (u8_of <$> mjoin chunks) = mjoin (plain <$> fs) → (zlen (mjoin (plain <$> fs)) < 2 ^ 63)%Z →
  client_hears chunks c a =
  let '(evs, c1, a1) := client_process rng cb (unmasked <$> fs) c a in Some (evs, set_recv c1 [], a1).
Proof.
  induction chunks as [|d chunks IH]; intros c a fs Hc Hfs Hn Hu Hd Hsz.
  - cbn in Hd. rewrite app_nil_r in Hd. destruct fs as [|f fs].
    + change (recvBuffer_ c = []) in Hd. cbn. by rewrite <-Hd, set_recv_same.
    + exfalso. rewrite Hd, fmap_cons, mjoin_cons in *. apply Forall_cons in Hfs as [Hf _].
      by apply (unfinished_whole f false [0; 0; 0; 0]%Z _ Hf eq_refl Hsz).
  - rewrite mjoin_cons, fmap_app, app_assoc in Hd.
    destruct (cut_frames _ _ plain_cut fs Hfs _ _ Hd) as (fs1 & fs2 & tail & -> & E1 & Ht1 & E2).
    apply Forall_app in Hfs as [Hfs1 Hfs2]. apply Forall_app in Hn as [Hn1 Hn2].
    assert (Hl : (zlen (recvBuffer_ c ++ (u8_of <$> d)) < 2 ^ 63)%Z ∧ (zlen (mjoin (plain <$> fs2)) < 2 ^ 63)%Z).
    { split; [rewrite <-Hd in Hsz|rewrite fmap_app, join_app in Hsz]; unfold zlen in *; rewrite length_app in Hsz; lia. }
    cbn [client_hears]. rewrite (client_frames_in_order rng cb SHA1 c d fs1 tail a (proj1 Hc) Hfs1 Ht1 E1 (proj1 Hl)).
    change (λ f, seen f false [0; 0; 0; 0]%Z) with unmasked. rewrite fmap_app, client_process_app.
    pose proof (client_process_up fs1 c a Hc Hn1) as H1. destruct (client_process _ _ (unmasked <$> fs1) c a) as [[e1 c1] a1].
    destruct H1 as [Hc1 _]. cbn [mbind option_bind]. rewrite (IH (set_recv c1 tail) a1 fs2); try done; [|by apply Hl].
    rewrite client_process_recv. by destruct (client_process _ _ (unmasked <$> fs2) c1 a1) as [[e2 c2] a2].
Qed.
End Client.

(** ** The link *)

(** What a client says, as frames before they are masked. *)
Definition frames_said (ops : list ClientOp) : list WebSocketFrame := omap (λ o, (λ x, whole x.1 x.2) <$> says o) ops.

Lemma said_frames rng n ops : fst <$> said rng n ops = frames_said ops.
Proof.
  revert n. induction ops as [|o ops IH]; intros n; [done|]. unfold frames_said. cbn [said omap list_omap].
  destruct (says o) as [[op p]|]; [|apply IH]. cbn. by rewrite IH.
Qed.

Section Link.
Context {A S : Type} (SHA1 : str → list Z) (rng : nat → list Z) (cb : @Callbacks A) (h : @Handlers S).
Context (config : WebSocketConfig) (name : str) {B : Type} `{ByteQueue B}.
Context (Hkeys : ∀ n, length (rng n) = 4) (Hcs : client_steady cb) (Hst : steady h).

Local Abbreviation State := (@State S B).
Local Abbreviation plays := (plays SHA1 h config name).

(** What a client may say: a message or a ping of at most the size the server
    takes. *)
Definition utterable (o : ClientOp) : Prop :=
  match says o with Some (op, p) => fits p ∧ too_large config (whole op p) = false | None => False end.

Lemma utterable_said ops : Forall utterable ops → ∀ n,
  only_sends ops ∧ Forall (client_frame_ok config) (said rng n ops) ∧ Forall speaks (fst <$> said rng n ops).
Proof.
  induction 1 as [|o ops Ho _ IH]; intros n; [split_and!; constructor|]. unfold utterable in Ho. cbn [said].
  destruct (says o) as [[op p]|] eqn:Es; [|done]. destruct Ho as [Hp Ht]. destruct (IH (Datatypes.S n)) as (H1 & H2 & H3).
  assert (Hn : named op = true) by (destruct o; cbn in Es; by simplify_eq).
  pose proof (whole_speaks op p Hn Hp) as Hw. split_and!; [|constructor|constructor]; try done; [constructor; [by rewrite Es|done]|].
  split; [apply Hw|]. split; [apply Hkeys|done].
Qed.

Record Link := mkLink { client : WebSocketClient; client_app : A; server : State }.

(** Both ends open, and nothing under way. *)
Definition link_open (l : Link) : Prop :=
  client_up (client l) ∧ recvBuffer_ (client l) = [] ∧
  ∃ s, in_step name (server l) s ∧ is_open s ∧ input (server l) = [] ∧ bq_contents (outputBuffer_ (conn (server l))) = [].

(** What an open server sends back arrives. *)
Lemma back_arrives (st st1 : State) s s1 evs wrs (c : WebSocketClient) (a : A) :
  in_step name st s → is_open s → bq_contents (outputBuffer_ (conn st)) = [] →
  in_step name st1 s1 → is_open s1 → input st1 = [] → heard st1 = heard st ++ evs → Forall calm evs →
  Forall (λ wr, takes_part wr ∧ takes_some wr) wrs → length (bq_contents (outputBuffer_ (conn st1))) ≤ length wrs →
  client_up c → recvBuffer_ c = [] →
  ∃ st2, plays st1 (Writable <$> wrs) = Some st2 ∧
  ∀ chunks, TcpConnection.wire (log (conn st2)) = TcpConnection.wire (log (conn st)) ++ mjoin chunks → (zlen (mjoin chunks) < 2 ^ 63)%Z →
    ∃ evs2 c2 a2 back, client_hears SHA1 rng cb chunks c a = Some (evs2, c2, a2) ∧
      omap event_frame evs = plain <$> back ∧
      (is_Some (messageCallback_ cb) → omap client_message evs2 = omap frame_message back) ∧
      link_open (mkLink c2 a2 st2).
Proof.
  intros Hin Hs Ho Hin1 Hs1 Hi1 Hh1 Hcalm Hw Hl Hc Hr.
  destruct (plays_drain SHA1 h config name st1 s1 wrs Hin1 Hw Hl) as (st2 & Hp2 & Hin2 & Hi2 & Hh2 & Hv2 & Ho2).
  exists st2. split; [done|]. intros chunks Hchunks Hsz.
  destruct (frames_calm_back evs Hcalm) as (back & Hback & Hsp).
  rewrite (quiet_wire name st s Hin Ho), (quiet_wire name st2 s1 Hin2 Ho2), Hh2, Hh1, sent_app in Hchunks.
  rewrite (proj1 (open_up name st s Hin Hs)), (sent_calm evs back Hcalm Hback) in Hchunks. apply (inj (app (sent (heard st)))) in Hchunks.
  assert (Hbytes : u8_of <$> mjoin chunks = mjoin (plain <$> back)).
  { rewrite <-Hchunks. apply u8_chr_list, plain_mjoin_bytes. eapply Forall_impl; [exact Hsp|]. by intros f [? _]. }
  assert (Hn : Forall (λ f, named (opcode f) = true) back) by (eapply Forall_impl; [exact Hsp|]; by intros f [_ ?]).
  assert (Hok : Forall frame_ok back) by (eapply Forall_impl; [exact Hsp|]; by intros f [[? _] _]).
  pose proof (client_process_up rng cb Hcs back c a Hc Hn) as Hup.
  pose proof (client_hears_frames SHA1 rng cb Hcs chunks c a back Hc Hok Hn) as Hhear.
  rewrite Hr in Hhear. destruct (client_process _ _ _ _ _) as [[evs2 c2] a2]. destruct Hup as [Hup Hmsg].
  exists evs2, (set_recv c2 []), a2, back. split_and!; [|done|done|].
  - apply Hhear; [by left|done|]. rewrite <-Hbytes. unfold zlen in *. by rewrite length_fmap.
  - split; [exact Hup|]. split; [done|]. exists s1. cbn [server]. by rewrite Hi2.
Qed.
Lemma bytes_said ops n : bytes_sent ((λ fk, Sent (WebSocketServer.wire fk)) <$> said rng n ops) = mjoin (WebSocketServer.wire <$> said rng n ops).
Proof. unfold bytes_sent. by rewrite <-list_fmap_compose. Qed.

Lemma talked_calm (st st1 : State) fs es evs :
  Forall speaks fs → Forall goes es → merged (reactions h fs (app_state (srv st))).1 (frame_event <$> pushed es) evs → Forall calm evs.
Proof.
  intros Hfs Hes Hm. apply (merged_Forall _ _ _ _ Hm); [by apply reactions_calm|].
  clear Hm. induction Hes as [|e es [_ He] _ IH]; [constructor|]. change (e :: es) with ([e] ++ es). unfold pushed.
  rewrite bind_app, fmap_app. apply Forall_app; split; [|done]. destruct e as [|ops wrs| |]; try constructor.
  change ([Work ops wrs] ≫= _) with (op_frames ops ++ []). rewrite app_nil_r. by apply op_frames_calm.
Qed.

(** C17: Messages get through, both ways.  On an open connection between a
    WebSocket client and a server, the client sends any texts, binaries and
    pings; their masked frames reach the server cut into any reads, while the
    server's application sends what it likes between them and the kernel takes
    any part of each write; what it took reaches the client in any chunks.
    Then the server's message handler has been called with exactly the client's
    messages, in order; the frames the session sent are its replies, in order,
    with the application's own between them; the client's message callback is
    called with exactly the messages among these, in order; and the connection
    is open and quiet again at both ends. *)
Theorem messages_get_through (l : Link) (ops : list ClientOp) (es : list Event) :
  let '(cevs, c1) := client_ops rng (client l) ops in
  let '(replies, a1) := reactions h (frames_said ops) (app_state (srv (server l))) in
  link_open l → Forall utterable ops → Forall goes es →
  u8_of <$> received es = bytes_sent cevs → (zlen (received es) < 2 ^ 63)%Z →
  ∃ st1 evs, plays (server l) es = Some st1 ∧ heard st1 = heard (server l) ++ evs ∧
    merged replies (frame_event <$> pushed es) evs ∧ app_state (srv st1) = a1 ∧
    (is_Some (messageHandler_ h) → omap event_message evs = omap frame_message (frames_said ops)) ∧
    ∀ wrs, Forall (λ wr, takes_part wr ∧ takes_some wr) wrs → length (bq_contents (outputBuffer_ (conn st1))) ≤ length wrs →
    ∃ st2, plays st1 (Writable <$> wrs) = Some st2 ∧
    ∀ chunks, TcpConnection.wire (log (conn st2)) = TcpConnection.wire (log (conn (server l))) ++ mjoin chunks →
      (zlen (mjoin chunks) < 2 ^ 63)%Z →
      ∃ cevs2 c2 a2 back, client_hears SHA1 rng cb chunks c1 (client_app l) = Some (cevs2, c2, a2) ∧
        omap event_frame evs = plain <$> back ∧
        (is_Some (messageCallback_ cb) → omap client_message cevs2 = omap frame_message back) ∧
        link_open (mkLink c2 a2 st2).
Proof.
  destruct (client_ops _ _ _) as [cevs c1] eqn:Ec. destruct (reactions _ _ _) as [replies a1] eqn:Er.
  intros ([Ho Hc] & Hr & s & Hin & Hs & Hi & Hob) Hops Hes Hnet Hsz.
  destruct (utterable_said ops Hops (drawn (client l))) as (Hsends & Hok & Hsp). rewrite client_says in Ec by done.
  injection Ec as <- <-. rewrite bytes_said in Hnet.
  destruct (plays_talk SHA1 h config name Hst es (server l) s (said rng (drawn (client l)) ops) Hin Hs Hok Hsp)
    as (st1 & Hp & s1 & evs & Hin1 & Hs1 & Hi1 & Hh1 & Hm & Ha); try done.
  { rewrite Hi. by left. }
  { by rewrite Hi. }
  { rewrite <-Hnet. unfold zlen in *. by rewrite length_fmap. }
  pose proof (talked_calm (server l) st1 _ es evs Hsp Hes Hm) as Hcalm. rewrite said_frames in *. rewrite Er in Hm, Ha.
  exists st1, evs. split_and!; try done.
  - intros Hh. pose proof (reactions_messages h (frames_said ops) Hh (app_state (srv (server l)))) as Hmsg. rewrite Er in Hmsg.
    rewrite <-Hmsg. apply (merged_omap _ _ _ _ Hm). apply frame_events_silent.
  - intros wrs Hw Hl. by apply (back_arrives (server l) st1 s s1 evs wrs).
Qed.
(** ** The opening *)

Context (Hsha : ∀ x, length (SHA1 x) = 20).

(** A text that ends with its only blank line, cut before its end. *)
Lemma no_blank_line ls p q :
  ls ≠ [] → Forall line_ok ls → p ++ q = join_lines ls ++ crlf2 → q ≠ [] → find crlf2 p 0 = None.
Proof.
  intros Hne Hls Hpq Hq. rewrite find_0. destruct (find0 crlf2 p) as [k|] eqn:E; [|done]. exfalso.
  pose proof (find0_app _ _ q _ E) as E1. rewrite Hpq in E1.
  pose proof (find_blank_line ls [] Hne Hls) as E2. rewrite app_nil_r in E2. rewrite E1 in E2. injection E2 as ->.
  apply find0_bound in E. apply (f_equal length) in Hpq. rewrite !length_app in Hpq. destruct q; [done|]. cbn in *. lia.
Qed.

(** A part of the request waits in the buffer. *)
Lemma play_waits (st : State) s d now wrs :
  in_step name st s → WebSocketServer.state_ s = Connecting → d ≠ [] → (∀ k, takes_part (wrs k)) →
  find crlf2 (bq_contents (inputBuffer_ (conn st)) ++ d) 0 = None →
  ∃ st1, play SHA1 h config name st (Readable d now wrs) = Some st1 ∧ in_step name st1 s ∧ srv st1 = srv st ∧ heard st1 = heard st ∧
    bq_contents (inputBuffer_ (conn st1)) = bq_contents (inputBuffer_ (conn st)) ++ d.
Proof.
  intros Hin Hs Hd Hw Hno. pose proof Hin as [H1 H2 H3 H4 H5 H6 H7].
  destruct (handleRead_data (conn st) d H5 Hd) as (Hv & Ec & _).
  assert (Hp : play SHA1 h config name st (Readable d now wrs) =
    Some (WsConnection.mkState (with_input (handleRead (conn st) (RdData d)) (inputBuffer_ (handleRead (conn st) (RdData d)))) (srv st) (heard st))).
  { cbn [WsConnection.play]. rewrite bool_decide_false by done. cbv zeta. unfold WebSocketServer.onMessage. rewrite H1, Hs. unfold handleHandshake.
    rewrite Ec, Hno. rewrite put_session_same by done. cbn. by rewrite app_nil_r. }
  eexists. split; [exact Hp|]. destruct (ws_play_in_step SHA1 h config name st s (Readable d now wrs) _ Hin Hw Hp) as (s1 & Hin1).
  pose proof (is_session _ _ _ Hin1) as Hl. cbn [srv] in Hl. rewrite H1 in Hl. injection Hl as <-. done.
Qed.

(** What an open session does first. *)
Definition opening (path : str) (a : S) : list WsEvent * S :=
  match connectionHandler_ h with
  | None => ([], a)
  | Some g => let '(ops, a') := g path a in (Opened path :: (frame_event <$> op_frames ops), a')
  end.

Lemma opening_calm path a : Forall calm (opening path a).1.
Proof.
  unfold opening. destruct (connectionHandler_ h) as [g|] eqn:Eg; [|constructor].
  pose proof (steady_connection h Hst g path a Eg) as Hg. destruct (g path a). constructor; [done|by apply op_frames_calm].
Qed.

Lemma opening_open path s a : is_open s → ∃ s1,
  call_back (connectionHandler_ h) path (Opened path) s a = ((opening path a).1, s1, (opening path a).2) ∧ is_open s1.
Proof.
  intros Hs. unfold call_back, opening. destruct (connectionHandler_ h) as [g|] eqn:Eg; [|by exists s].
  pose proof (steady_connection h Hst g path a Eg) as Hg. destruct (g path a) as [ops a'].
  destruct (run_ops_open ops Hg s Hs) as (s' & -> & Hs'). by exists s'.
Qed.

Section Handshake.
Context (c : WebSocketClient) (nonce : list Z).
Context (Hc : client_ok c) (Hn : length nonce = 16) (Hb : byte_list nonce) (Hval : handshakeValidator_ h = None).

Local Abbreviation key := (base64Encode nonce).
Local Abbreviation text := (request_text c key).

Lemma request_cut p q : p ++ q = text → q ≠ [] → find crlf2 p 0 = None.
Proof.
  rewrite request_text_lines. apply no_blank_line; [done|]. constructor.
  - split; [|done]. destruct Hc as [[Hsp Hcr] _]. rewrite elem_of_app, elem_of_cons, elem_of_app, elem_of_cons.
    intros [Hin|[Hin|[Hin|[Hin|Hin]]]]; try done; revert Hin; by apply (bool_decide_unpack _).
  - apply ws_header_lines_ok, request_headers_ok; [done|]. rewrite base64Encode_base64 by done. apply base64_solid.
Qed.

(** The read that completes the request opens the session. *)
Lemma play_opens (st : State) s d now wrs :
  in_step name st s → WebSocketServer.state_ s = Connecting → shut (heard st) = false → d ≠ [] → (∀ k, takes_part (wrs k)) →
  bq_contents (inputBuffer_ (conn st)) ++ d = text → (zlen text < 2 ^ 63)%Z →
  ∃ st1 s1, play SHA1 h config name st (Readable d now wrs) = Some st1 ∧ in_step name st1 s1 ∧ is_open s1 ∧ input st1 = [] ∧
    heard st1 = heard st ++ Http (accept_text SHA1 key) :: (opening (path_ c) (app_state (srv st))).1 ∧
    app_state (srv st1) = (opening (path_ c) (app_state (srv st))).2.
Proof.
  intros Hin Hs Hnot Hd Hw Htext Hsz. pose proof Hin as [H1 H2 H3 H4 H5 H6 H7].
  destruct (handleRead_data (conn st) d H5 Hd) as (Hv & Ec & Hrb). destruct (Hrb H4) as (Hbt & _ & Est).
  assert (Hp : play SHA1 h config name st (Readable d now wrs) = play SHA1 h config name st (Readable d now wrs)) by done.
  unfold WsConnection.play in Hp at 2. rewrite bool_decide_false in Hp by done. set (cn := handleRead (conn st) (RdData d)) in *.
  cbv zeta in Hp. unfold WebSocketServer.onMessage in Hp. rewrite H1, Hs in Hp.
  destruct (server_accepts SHA1 h c nonce s (inputBuffer_ cn) now (app_state (srv st)) [] Hc Hn Hb Hval Hv) as (buf & Hbv & Hbuf & Hacc).
  { by rewrite Ec, app_nil_r. }
  { by rewrite Ec, Htext. }
  rewrite Hacc in Hp. cbv zeta in Hp. set (s0 := setContext _ _ _) in Hp.
  destruct (opening_open (path_ c) s0 (app_state (srv st))) as (s1 & E & Hs1); [split; [done|]; cbn; by rewrite H2, Hnot|].
  rewrite E in Hp. set (r := opening (path_ c) (app_state (srv st))) in *.
  rewrite <-list_fmap_compose in Hp. change (snd ∘ pair name) with (λ x : WsEvent, x) in Hp. rewrite list_fmap_id in Hp.
  eexists _, s1. split; [exact Hp|].
  pose proof (play_session SHA1 h config name st s (Readable d now wrs) _ _ _ _ Hin Hw Hp) as Hin1.
  split_and!; [done|done| |done|done].
  unfold input. cbn [conn].
  destruct (perform_events (Http (accept_text SHA1 key) :: r.1) (with_input cn buf) wrs) as (_ & _ & _ & ->); [| |done|by cbn; rewrite Hbuf].
  - by destruct Hbt as [[_ Hvo] ? ? ? ? ?]; constructor.
  - cbn. rewrite Est, H3. by rewrite Hnot.
Qed.
(** No sends of the application's own while the session opens. *)
Definition opens (e : Event) : Prop := goes e ∧ match e with Work _ _ => False | _ => True end.

Lemma nothing_pushed es : Forall opens es → pushed es = [].
Proof. induction 1 as [|e es [_ He] _ IH]; [done|]. by destruct e. Qed.

Lemma merged_nothing {X} (l : list X) : merged [] [] l → l = [].
Proof. by inversion 1. Qed.

(** The request arrives, in any reads. *)
Lemma plays_open es : ∀ (st : State) s,
  in_step name st s → WebSocketServer.state_ s = Connecting → shut (heard st) = false →
  bq_contents (inputBuffer_ (conn st)) ++ received es = text → received es ≠ [] → (zlen text < 2 ^ 63)%Z → Forall opens es →
  ∃ st1 s1, plays st es = Some st1 ∧ in_step name st1 s1 ∧ is_open s1 ∧ input st1 = [] ∧
    heard st1 = heard st ++ Http (accept_text SHA1 key) :: (opening (path_ c) (app_state (srv st))).1 ∧
    app_state (srv st1) = (opening (path_ c) (app_state (srv st))).2.
Proof.
  induction es as [|e es IH]; intros st s Hin Hs Hnot Htext Hmore Hsz Hes; [done|].
  apply Forall_cons in Hes as [[[He Hgo] Hno] Hes]. cbn [WsConnection.plays].
  assert (Hcase : (∃ d now wrs, e = Readable d now wrs) ∨ match e with Writable _ | Queued _ => True | _ => False end)
    by (destruct e; [left; eauto|by right..]).
  destruct Hcase as [(d & now & wrs & ->)|Hsil].
  - assert (Er : received (Readable d now wrs :: es) = d ++ received es) by done.
    rewrite Er, app_assoc in Htext. destruct (decide (received es = [])) as [Hlast|Hlast].
    + rewrite Hlast, app_nil_r in Htext.
      destruct (play_opens st s d now wrs Hin Hs Hnot Hgo He Htext Hsz) as (st1 & s1 & Hp & Hin1 & Hs1 & Hi1 & Hh1 & Ha1).
      destruct (plays_talk SHA1 h config name Hst es st1 s1 [] Hin1 Hs1) as (st2 & Hp2 & s2 & evs & Hin2 & Hs2 & Hi2 & Hh2 & Hm & Ha2);
        [constructor|constructor|by left|by rewrite Hi1, Hlast|done|eapply Forall_impl; [exact Hes|]; by intros ? [? _]|].
      rewrite nothing_pushed in Hm by done. apply merged_nothing in Hm as ->. rewrite app_nil_r in Hh2.
      exists st2, s2. rewrite Hp. split_and!; try done; [by rewrite Hh2|]. by rewrite <-Ha1.
    + destruct (play_waits st s d now wrs Hin Hs Hgo He (request_cut _ _ Htext Hlast)) as (st1 & Hp & Hin1 & Hv1 & Hh1 & Hc1).
      destruct (IH st1 s) as (st2 & s2 & Hp2 & H2); try done; [by rewrite Hh1|by rewrite Hc1|].
      exists st2, s2. rewrite Hp, <-Hh1, <-Hv1. done.
  - assert (Er : received (e :: es) = received es) by (by destruct e). rewrite Er in *.
    destruct (play_silent SHA1 h config name st s e Hin He Hsil) as (st1 & Hp & Hin1 & Hi1 & Hh1 & Hv1).
    destruct (IH st1 s) as (st2 & s2 & Hp2 & H2); try done; [by rewrite Hh1| |].
    { rewrite <-Htext. f_equal. unfold input in Hi1. apply (f_equal (fmap chr)) in Hi1. by rewrite !chr_u8_of_list in Hi1. }
    exists st2, s2. rewrite Hp, <-Hh1, <-Hv1. done.
Qed.
(** The answer arrives, in any chunks, with frames behind it: the client opens
    and handles them. *)
Lemma client_hears_open chunks : ∀ (c0 : WebSocketClient) pre a back,
  state_ c0 = Connecting → conn_ c0 = Some true → recvBuffer_ c0 = [] →
  pre ++ mjoin chunks = accept_text SHA1 (pendingKey_ c0) ++ (chr <$> mjoin (plain <$> back)) →
  (∃ x, x ≠ [] ∧ accept_text SHA1 (pendingKey_ c0) = pre ++ x) →
  Forall speaks back → (zlen (mjoin (plain <$> back)) < 2 ^ 63)%Z →
  client_hears SHA1 rng cb chunks (set_recv c0 (u8_of <$> pre)) a =
  let '(e1, c2, a2) := on_open rng cb (setState c0 Open) a in
  let '(e2, c3, a3) := client_process rng cb (unmasked <$> back) c2 a2 in Some (e1 ++ e2, set_recv c3 [], a3).
Proof.
  induction chunks as [|d chunks IH]; intros c0 pre a back Hcon Hup Hr Hd (x & Hx & Ex) Hsp Hsz.
  - exfalso. rewrite app_nil_r, Ex, <-app_assoc in Hd. apply (f_equal length) in Hd. rewrite !length_app in Hd. destruct x; [done|]. cbn in Hd. lia.
  - rewrite mjoin_cons, app_assoc in Hd. cbn [client_hears]. unfold WebSocketClient.onMessage. cbn [state_ set_recv]. rewrite Hcon.
    destruct (app_cases _ _ _ _ Hd) as [(t & Et & Ht)|(y & Hy & Ey & _)].
    + rewrite (client_opens SHA1 rng cb Hsha c0 pre d t a Hr Et).
      pose proof (called_up rng (openCallback_ cb) OnOpen (setState c0 Open) a (conj eq_refl Hup)) as Hop.
      pose proof (called_keeps rng (openCallback_ cb) OnOpen (setState c0 Open) a) as Hk. unfold on_open.
      destruct (called _ _ _ _ _) as [[e1 c2] a2]. cbn [recvBuffer_ setState] in Hk. rewrite Hr in Hk.
      destruct Hop as [Hc2 _]; [by intros g Hg; apply (steady_open cb Hcs)|].
      assert (Hnm : Forall (λ f, named (opcode f) = true) back) by (eapply Forall_impl; [exact Hsp|]; by intros f [_ ?]).
      assert (Hok : Forall frame_ok back) by (eapply Forall_impl; [exact Hsp|]; by intros f [[? _] _]).
      pose proof (client_hears_frames SHA1 rng cb Hcs (t :: chunks) c2 a2 back Hc2 Hok Hnm) as Hrest.
      rewrite Hk, mjoin_cons, Ht in Hrest. specialize (Hrest (or_introl eq_refl)).
      specialize (Hrest (u8_chr_list _ (plain_mjoin_bytes _ (Forall_impl _ _ _ Hsp (λ f Hf, proj1 Hf)))) Hsz).
      cbn [client_hears] in Hrest. unfold WebSocketClient.onMessage in Hrest. rewrite (proj1 Hc2) in Hrest.
      destruct (handleWsFrames rng cb c2 t a2) as [[[e2 c3] a3]|]; cbn [fmap option_fmap option_map mbind option_bind fst snd] in *;
        [|by destruct (client_process _ _ _ _ _) as [[??]?]].
      destruct (client_hears SHA1 rng cb chunks c3 a3) as [[[e3 c4] a4]|]; cbn [mbind option_bind] in *;
        destruct (client_process _ _ _ _ _) as [[e5 c5] a5]; [|done]. injection Hrest as <- <- <-. by rewrite app_assoc.
    + assert (Hwait : handleHandshakeResponse SHA1 rng cb (set_recv c0 (u8_of <$> pre)) d a = Some ([], set_recv c0 (u8_of <$> (pre ++ d)), a)).
      { unfold handleHandshakeResponse. cbn [recvBuffer_ set_recv]. rewrite <-fmap_app, chr_u8_of_list.
        rewrite reply_text in Ey. rewrite (no_blank_line (reply_lines (computeAcceptKey SHA1 (pendingKey_ c0))) (pre ++ d) y); [done|done| |done|done].
        apply reply_ok. by apply (accept_solid SHA1 Hsha). }
      rewrite Hwait. cbn [mbind option_bind]. rewrite (IH c0 (pre ++ d) a back); try done; [|by exists y].
      destruct (on_open _ _ _ _) as [[e1 c2] a2]. by destruct (client_process _ _ _ _ _) as [[e2 c3] a3].
Qed.
Lemma on_open_up c0 a : client_up (setState c0 Open) →
  let '(evs, c', _) := on_open rng cb (setState c0 Open) a in
  client_up c' ∧ omap client_message evs = [] ∧ (is_Some (openCallback_ cb) → head evs = Some OnOpen).
Proof.
  intros Hup. pose proof (called_up rng (openCallback_ cb) OnOpen (setState c0 Open) a Hup) as H1. unfold on_open.
  assert (H2 : ∀ g, openCallback_ cb = Some g → only_sends (g a).1) by (intros g Hg; by apply (steady_open cb Hcs)).
  specialize (H1 H2). destruct (openCallback_ cb) as [g|]; cbn [called] in *; [|split_and!; [apply H1|done|by intros [? ?]]].
  destruct (g a) as [ops a']. destruct (client_ops _ _ _) as [evs c']. destruct H1 as [H1 H3]. split_and!; [done|by apply H3|done].
Qed.

(** C18: The link opens.  The request that a client sends when its connection is
    up, whatever its path, host and nonce, reaches a server without a validator
    in any reads; the kernel takes any part of each write, and what it took
    reaches the client in any chunks.  Then the session has been opened once,
    the server's connection handler has been called with the path, and what it
    sends follows the answer; the client accepts the answer, its open callback
    is called first, its message callback with exactly the messages the handler
    sent, in order; and both ends are open and quiet, ready for
    [messages_get_through]. *)
Theorem link_opens (a : A) (sockfd : Z) (wc hw : bool) (srv0 : @WebSocketServer S) (now : Z) (es : list Event) :
  let '(cevs, c1, a1) := onConnection rng cb c true nonce a in
  let '(evs, sa1) := opening (path_ c) (app_state srv0) in
  Forall opens es → cevs = [SentText (received es)] → (zlen (received es) < 2 ^ 63)%Z →
  ∃ st1, plays (start_state h name sockfd wc hw srv0 now) es = Some st1 ∧
    heard st1 = Http (accept_text SHA1 (pendingKey_ c1)) :: evs ∧ app_state (srv st1) = sa1 ∧
    ∀ wrs, Forall (λ wr, takes_part wr ∧ takes_some wr) wrs → length (bq_contents (outputBuffer_ (conn st1))) ≤ length wrs →
    ∃ st2, plays st1 (Writable <$> wrs) = Some st2 ∧
    ∀ chunks, TcpConnection.wire (log (conn st2)) = mjoin chunks → (zlen (mjoin chunks) < 2 ^ 63)%Z →
      ∃ cevs2 c2 a2 back, client_hears SHA1 rng cb chunks c1 a1 = Some (cevs2, c2, a2) ∧
        omap event_frame evs = plain <$> back ∧
        (is_Some (openCallback_ cb) → head cevs2 = Some OnOpen) ∧
        (is_Some (messageCallback_ cb) → omap client_message cevs2 = omap frame_message back) ∧
        link_open (mkLink c2 a2 st2).
Proof.
  cbn [onConnection]. set (c1 := set_key _ _). destruct (opening _ _) as [evs sa1] eqn:Eo. intros Hes Hnet Hsz.
  injection Hnet as Hnet. rewrite <-Hnet in Hsz.
  assert (Hin0 : in_step name (start_state h name sockfd wc hw srv0 now) (WsSession_new now true)) by apply ws_start_in_step.
  set (st0 := start_state h name sockfd wc hw srv0 now) in *.
  destruct (plays_open es st0 _ Hin0 eq_refl eq_refl) as (st1 & s1 & Hp1 & Hin1 & Hs1 & Hi1 & Hh1 & Ha1); try done.
  { rewrite <-Hnet. unfold st0. cbn [start_state conn connectEstablished]. cbn. by rewrite (proj2 (bq_empty_ok _)). }
  { by rewrite <-Hnet. }
  change (app_state (srv st0)) with (app_state srv0) in Hh1, Ha1. rewrite Eo in Hh1, Ha1. change (heard st0) with (@nil WsEvent) in Hh1.
  cbn [fst snd] in Hh1, Ha1. change (([] : list WsEvent) ++ ?x :: evs) with ([x] ++ evs) in Hh1.
  exists st1. split_and!; try done. intros wrs Hw Hl.
  destruct (plays_drain SHA1 h config name st1 s1 wrs Hin1 Hw Hl) as (st2 & Hp2 & Hin2 & Hi2 & Hh2 & Hv2 & Ho2).
  exists st2. split; [done|]. intros chunks Hchunks Hcsz.
  pose proof (opening_calm (path_ c) (app_state srv0)) as Hcalm. rewrite Eo in Hcalm. cbn [fst] in Hcalm.
  destruct (frames_calm_back evs Hcalm) as (back & Hback & Hsp).
  rewrite (quiet_wire name st2 s1 Hin2 Ho2), Hh2, Hh1 in Hchunks.
  rewrite sent_app, (sent_calm evs back Hcalm Hback) in Hchunks.
  change (sent [Http (accept_text SHA1 key)]) with ((accept_text SHA1 key ++ []) ++ []) in Hchunks.
  cbn [shut existsb is_shut orb] in Hchunks. rewrite !app_nil_r in Hchunks.
  assert (Hbsz : (zlen (mjoin (plain <$> back)) < 2 ^ 63)%Z).
  { rewrite <-Hchunks in Hcsz. unfold zlen in *. rewrite length_app, length_fmap in Hcsz. lia. }
  assert (Hnm : Forall (λ f, named (opcode f) = true) back) by (eapply Forall_impl; [exact Hsp|]; by intros f [_ ?]).
  pose proof (client_hears_open chunks c1 [] a back eq_refl eq_refl eq_refl (eq_sym Hchunks)) as Hhear.
  pose proof (on_open_up c1 a (conj eq_refl eq_refl)) as Hop. destruct (on_open _ _ _ _) as [[e1 c2] a2]. destruct Hop as (Hc2 & Hno & Hhd).
  pose proof (client_process_up rng cb Hcs back c2 a2 Hc2 Hnm) as Hup. destruct (client_process _ _ _ _ _) as [[e2 c3] a3].
  destruct Hup as [Hup Hmsg]. exists (e1 ++ e2), (set_recv c3 []), a3, back. split_and!; [|done| | |].
  - change c1 with (set_recv c1 (u8_of <$> [])). apply Hhear; [|done|done]. exists (accept_text SHA1 (pendingKey_ c1)). done.
  - intros Hs. specialize (Hhd Hs). by destruct e1.
  - intros Hs. by rewrite omap_app, Hno, (Hmsg Hs).
  - split; [exact Hup|]. split; [done|]. exists s1. cbn [server]. by rewrite Hi2.
Qed.
End Handshake.
End Link.

(** ** A conversation *)

Local Abbreviation sample_plays := (plays (B := Buffer) sample_digest echo_handlers WebSocketConfig_default (#"c")).
Local Abbreviation sample_start := (start_state (B := Buffer) echo_handlers (#"c") 5 false false (mkServer ∅ ∅ true []) 0).

Lemma echo_steady : steady echo_handlers.
Proof.
  split; cbn.
  - intros g p a [= <-]. by repeat constructor.
  - intros g m a [= <-] Hm. constructor; [|constructor]. by intros f [= <-].
Qed.

Lemma quiet_steady : client_steady quiet_callbacks.
Proof. split; cbn; [intros g a [= <-]|intros g m a [= <-]]; cbn; repeat constructor; by eexists. Qed.

Definition sample_request : str := request_text sample_client (base64Encode sample_nonce).

(** The request in two reads; the kernel takes what it is given. *)
Definition opening_events : list Event :=
  [Readable (take 40 sample_request) 1 (λ _, accepts 9); Queued (accepts 9); Readable (drop 40 sample_request) 2 (λ _, accepts 500)].

Lemma opening_events_ok : Forall opens opening_events.
Proof.
  repeat (apply Forall_cons_2; [split; [split; [cbn [event_ok]; intros; apply accepts_ok|vm_compute; done]|done]|]). by apply Forall_nil.
Qed.

Lemma link_opens_witness :
  let '(cevs, c1, a1) := onConnection sample_keys quiet_callbacks sample_client true sample_nonce () in
  let '(evs, sa1) := opening echo_handlers (path_ sample_client) [] in
  ∃ st1, sample_plays sample_start opening_events = Some st1 ∧
    heard st1 = Http (accept_text sample_digest (pendingKey_ c1)) :: evs ∧ app_state (srv st1) = sa1 ∧
    ∀ wrs, Forall (λ wr, takes_part wr ∧ takes_some wr) wrs → length (bq_contents (outputBuffer_ (conn st1))) ≤ length wrs →
    ∃ st2, sample_plays st1 (Writable <$> wrs) = Some st2 ∧
    ∀ chunks, TcpConnection.wire (log (conn st2)) = mjoin chunks → (zlen (mjoin chunks) < 2 ^ 63)%Z →
      ∃ cevs2 c2 a2 back, client_hears sample_digest sample_keys quiet_callbacks chunks c1 a1 = Some (cevs2, c2, a2) ∧
        omap event_frame evs = plain <$> back ∧
        (is_Some (openCallback_ quiet_callbacks) → head cevs2 = Some OnOpen) ∧
        (is_Some (messageCallback_ quiet_callbacks) → omap client_message cevs2 = omap frame_message back) ∧
        link_open (#"c") (mkLink c2 a2 st2).
Proof.
  apply (link_opens sample_digest sample_keys quiet_callbacks echo_handlers WebSocketConfig_default (#"c") quiet_steady echo_steady
    (λ _, eq_refl) sample_client sample_nonce sample_client_ok eq_refl sample_nonce_ok eq_refl () 5 false false (mkServer ∅ ∅ true []) 0 opening_events).
  - exact opening_events_ok.
  - vm_compute. reflexivity.
  - vm_compute. reflexivity.
Defined.

Definition opened_server : @State (list (list Z)) Buffer := default sample_start (sample_plays sample_start opening_events).
Definition sample_link : @Link unit (list (list Z)) Buffer := mkLink open_client () opened_server.

Lemma opened_run : sample_plays sample_start opening_events = Some opened_server.
Proof.
  assert (H : is_Some (sample_plays sample_start opening_events)) by (apply (bool_decide_unpack _); vm_compute; exact I).
  unfold opened_server. by destruct H as [st ->].
Qed.

Lemma opened_session : ∃ s, in_step (#"c") opened_server s ∧ is_open s.
Proof.
  destruct (ws_plays_in_step sample_digest echo_handlers WebSocketConfig_default (#"c") opening_events sample_start _ opened_server
    (ws_start_in_step echo_handlers (#"c") 5 false false (mkServer ∅ ∅ true []) 0)) as (s & Hin); [|exact opened_run|].
  { eapply Forall_impl; [exact opening_events_ok|]. by intros e [[? _] _]. }
  exists s. split; [exact Hin|]. pose proof (is_session _ _ _ Hin) as Hs. clear Hin.
  assert (Hv : (λ s, (WebSocketServer.state_ s, conn_connected s)) <$> sessions_ (srv opened_server) !! (#"c") = Some (Open, true))
    by (vm_compute; reflexivity).
  rewrite Hs in Hv. injection Hv as H1 H2. split; [exact H1|exact H2].
Qed.

Lemma sample_link_open : link_open (#"c") sample_link.
Proof.
  split; [split; reflexivity|]. split; [reflexivity|]. destruct opened_session as (s & Hin & Hs). exists s.
  split; [exact Hin|]. split; [exact Hs|]. split; vm_compute; reflexivity.
Qed.

Definition sample_said : list ClientOp := [CSendText (#"hi"); CPing [7]%Z; CSendBinary [1; 2]%Z].
Definition sample_bytes : str := chr <$> bytes_sent (client_ops sample_keys open_client sample_said).1.

(** The frames in two reads, and the application speaks between them. *)
Definition sample_talk : list Event :=
  [Readable (take 9 sample_bytes) 3 (λ _, accepts 3); Work [DoSendText (#"note")] (λ _, accepts 3); Writable (accepts 3);
   Readable (drop 9 sample_bytes) 4 (λ _, accepts 3)].

Lemma sample_talk_goes : Forall goes sample_talk.
Proof.
  repeat (apply Forall_cons_2; [split; [cbn [event_ok]; intros; apply accepts_ok|]|]); [vm_compute; done| |done|vm_compute; done|by apply Forall_nil].
  constructor; [|constructor]. intros f [= <-]. split; [|by vm_compute]. repeat constructor; vm_compute; intuition congruence.
Qed.

Lemma sample_said_utterable : Forall (utterable WebSocketConfig_default) sample_said.
Proof. repeat constructor; try (vm_compute; intuition congruence). Qed.

Lemma messages_get_through_witness :
  let '(cevs, c1) := client_ops sample_keys (client sample_link) sample_said in
  let '(replies, a1) := reactions echo_handlers (frames_said sample_said) (app_state (srv (server sample_link))) in
  ∃ st1 evs, sample_plays (server sample_link) sample_talk = Some st1 ∧ heard st1 = heard (server sample_link) ++ evs ∧
    merged replies (frame_event <$> pushed sample_talk) evs ∧ app_state (srv st1) = a1 ∧
    (is_Some (messageHandler_ echo_handlers) → omap event_message evs = omap frame_message (frames_said sample_said)) ∧
    ∀ wrs, Forall (λ wr, takes_part wr ∧ takes_some wr) wrs → length (bq_contents (outputBuffer_ (conn st1))) ≤ length wrs →
    ∃ st2, sample_plays st1 (Writable <$> wrs) = Some st2 ∧
    ∀ chunks, TcpConnection.wire (log (conn st2)) = TcpConnection.wire (log (conn (server sample_link))) ++ mjoin chunks →
      (zlen (mjoin chunks) < 2 ^ 63)%Z →
      ∃ cevs2 c2 a2 back, client_hears sample_digest sample_keys quiet_callbacks chunks c1 (client_app sample_link) = Some (cevs2, c2, a2) ∧
        omap event_frame evs = plain <$> back ∧
        (is_Some (messageCallback_ quiet_callbacks) → omap client_message cevs2 = omap frame_message back) ∧
        link_open (#"c") (mkLink c2 a2 st2).
Proof.
  apply (messages_get_through sample_digest sample_keys quiet_callbacks echo_handlers WebSocketConfig_default (#"c")
    (λ _, eq_refl) quiet_steady echo_steady sample_link sample_said sample_talk).
  - exact sample_link_open.
  - exact sample_said_utterable.
  - exact sample_talk_goes.
  - vm_compute. reflexivity.
  - vm_compute. reflexivity.
Defined.

(** What the server's session says in that conversation: it echoes, answers the
    ping, and the application's text comes where it was sent. *)
Example sample_heard :
  (λ st, drop (length (heard opened_server)) (heard st)) <$> sample_plays opened_server sample_talk =
  Some [Message (mkMessage Text (u8_of <$> #"hi")); frame_event (whole Binary (u8_of <$> #"hi"));
        frame_event (whole Text (u8_of <$> #"note")); frame_event (whole Pong [7]%Z);
        Message (mkMessage Binary [1; 2]%Z); frame_event (whole Binary [1; 2]%Z)].
Proof. vm_compute. reflexivity. Qed.
