(* ===== verification/ServiceCatalog.v ===== *)
(** * ServiceCatalog: services, instances and their heartbeats

    Models [src/registry/ServiceMeta.h] (without the JSON conversions),
    [src/registry/ServiceCatalog.h] and [src/registry/HealthChecker.h].  A
    [shared_ptr<InstanceMeta>] is a number and the instances are in a store,
    since a client keeps its pointer and the catalog changes the instance.  The
    system clock is read for every instance an operation looks at: a reading is
    given by the service and the instance it is made for. *)

From S2P Require Import Prelude.
From Stdlib Require Import Sorted.

Open Scope Z_scope.

(** ** ServiceMeta *)

Record ServiceKey := mkKey { namespace_ : str; serviceName : str; version : str }.

#[export] Instance ServiceKey_eq_dec : EqDecision ServiceKey.
Proof. solve_decision. Defined.

(** [ServiceKey::key]; [operator<] compares these texts. *)
Definition key (k : ServiceKey) : str := namespace_ k ++ #":" ++ serviceName k ++ #":" ++ version k.

Record InstanceMeta := mkInstance {
  instanceId : str;
  host : str;
  port : Z;
  weight : Z;
  lastHeartbeatMs : Z;
  ttlSeconds : Z;
  status : str;
  metadata : gmap str str
}.

(** The constructor with an address. *)
Definition InstanceMeta_new (id h : str) (p now : Z) : InstanceMeta := mkInstance id h p 1 now 30 #"UP" ∅.

Definition address (m : InstanceMeta) : str := host m ++ #":" ++ to_string (port m).

Definition beat (m : InstanceMeta) (now : Z) : InstanceMeta :=
  mkInstance (instanceId m) (host m) (port m) (weight m) now (ttlSeconds m) #"UP" (metadata m).

Definition set_status (m : InstanceMeta) (s : str) : InstanceMeta :=
  mkInstance (instanceId m) (host m) (port m) (weight m) (lastHeartbeatMs m) (ttlSeconds m) s (metadata m).

(** [ttlSeconds * 1000] is computed in [int]. *)
Definition isExpired (m : InstanceMeta) (now : Z) : bool := i32 (ttlSeconds m * 1000) <? i64 (now - lastHeartbeatMs m).

Definition remainingTtlMs (m : InstanceMeta) (now : Z) : Z :=
  Z.max 0 (i64 (i32 (ttlSeconds m * 1000) - i64 (now - lastHeartbeatMs m))).

Definition is_up (m : InstanceMeta) : bool := bool_decide (status m = #"UP").

(** ** The catalog

    [std::map<ServiceKey, ...>]: entries in the order of their keys' texts,
    each with the first key it was created for. *)

Record Entry := mkEntry { e_name : str; e_key : ServiceKey; e_list : list nat }.

Record ServiceCatalog := mkCatalog {
  catalog_ : list Entry;
  objects : gmap nat InstanceMeta
}.

Definition ServiceCatalog_new : ServiceCatalog := mkCatalog [] ∅.

(** The order of [std::string]. *)
Fixpoint text_lt (a b : str) : bool :=
  match a, b with
  | _, [] => false
  | [], _ :: _ => true
  | x :: a', y :: b' => if u8_of x <? u8_of y then true else if u8_of y <? u8_of x then false else text_lt a' b'
  end.

Fixpoint find_entry (n : str) (c : list Entry) : option Entry :=
  match c with
  | [] => None
  | e :: c => if bool_decide (e_name e = n) then Some e else find_entry n c
  end.

(** [catalog_[k] = l], keeping the key of an entry there is. *)
Fixpoint put_entry (k : ServiceKey) (l : list nat) (c : list Entry) : list Entry :=
  match c with
  | [] => [mkEntry (key k) k l]
  | e :: c' =>
      if bool_decide (e_name e = key k) then mkEntry (e_name e) (e_key e) l :: c'
      else if text_lt (key k) (e_name e) then mkEntry (key k) k l :: c
      else e :: put_entry k l c'
  end.

Definition erase_entry (n : str) (c : list Entry) : list Entry := List.filter (λ e, negb (bool_decide (e_name e = n))) c.

Definition with_entries (s : ServiceCatalog) (c : list Entry) : ServiceCatalog := mkCatalog c (objects s).
Definition with_objects (s : ServiceCatalog) (o : gmap nat InstanceMeta) : ServiceCatalog := mkCatalog (catalog_ s) o.

Definition has_id (o : gmap nat InstanceMeta) (id : str) (p : nat) : bool :=
  match o !! p with Some m => bool_decide (instanceId m = id) | None => false end.

(** The clock reading for an instance of a service. *)
Definition Clock : Type := str → nat → Z.

Definition expired_at (o : gmap nat InstanceMeta) (t : Z) (p : nat) : bool :=
  match o !! p with Some m => isExpired m t | None => false end.
Definition up_at (o : gmap nat InstanceMeta) (p : nat) : bool :=
  match o !! p with Some m => is_up m | None => false end.

(** The first instance with the identifier is replaced. *)
Fixpoint replace_first (o : gmap nat InstanceMeta) (id : str) (p : nat) (l : list nat) : option (list nat) :=
  match l with
  | [] => None
  | q :: l => if has_id o id q then Some (p :: l) else cons q <$> replace_first o id p l
  end.

Definition registerInstance (s : ServiceCatalog) (k : ServiceKey) (instance : nat) (clk : Clock) : bool * ServiceCatalog :=
  match objects s !! instance with
  | None => (true, s)
  | Some m =>
      let instances := default [] (e_list <$> find_entry (key k) (catalog_ s)) in
      match replace_first (objects s) (instanceId m) instance instances with
      | Some l => (true, mkCatalog (put_entry k l (catalog_ s)) (alter (λ m, beat m (clk (key k) instance)) instance (objects s)))
      | None => (true, with_entries s (put_entry k (instances ++ [instance]) (catalog_ s)))
      end
  end.

Fixpoint erase_first (o : gmap nat InstanceMeta) (id : str) (l : list nat) : option (list nat) :=
  match l with
  | [] => None
  | q :: l => if has_id o id q then Some l else cons q <$> erase_first o id l
  end.

Definition deregisterInstance (s : ServiceCatalog) (k : ServiceKey) (id : str) : bool * ServiceCatalog :=
  match find_entry (key k) (catalog_ s) with
  | None => (false, s)
  | Some e =>
      match erase_first (objects s) id (e_list e) with
      | None => (false, s)
      | Some [] => (true, with_entries s (erase_entry (key k) (catalog_ s)))
      | Some l => (true, with_entries s (put_entry k l (catalog_ s)))
      end
  end.

Definition heartbeat (s : ServiceCatalog) (k : ServiceKey) (id : str) (clk : Clock) : bool * ServiceCatalog :=
  match find_entry (key k) (catalog_ s) with
  | None => (false, s)
  | Some e =>
      match List.find (has_id (objects s) id) (e_list e) with
      | None => (false, s)
      | Some p => (true, with_objects s (alter (λ m, beat m (clk (key k) p)) p (objects s)))
      end
  end.

Definition healthy (o : gmap nat InstanceMeta) (clk : nat → Z) (p : nat) : bool := up_at o p && negb (expired_at o (clk p) p).

Definition discover (s : ServiceCatalog) (k : ServiceKey) (clk : Clock) : list nat :=
  match find_entry (key k) (catalog_ s) with
  | None => []
  | Some e => List.filter (healthy (objects s) (clk (key k))) (e_list e)
  end.

Definition discoverByNamespace (s : ServiceCatalog) (ns : str) : list ServiceKey :=
  e_key <$> List.filter (λ e, bool_decide (namespace_ (e_key e) = ns)) (catalog_ s).

Definition getAllServices (s : ServiceCatalog) : list (ServiceKey * list nat) := (λ e, (e_key e, e_list e)) <$> catalog_ s.

(** The inner loop of [cleanExpiredInstances]: what stays, the store, how many
    went. *)
Fixpoint clean_list (clk : nat → Z) (o : gmap nat InstanceMeta) (l : list nat) : list nat * gmap nat InstanceMeta * Z :=
  match l with
  | [] => ([], o, 0)
  | p :: l =>
      if expired_at o (clk p) p then
        let '(l', o', n) := clean_list clk (alter (λ m, set_status m #"DOWN") p o) l in (l', o', n + 1)
      else let '(l', o', n) := clean_list clk o l in (p :: l', o', n)
  end.

Fixpoint clean_loop (clk : Clock) (o : gmap nat InstanceMeta) (c : list Entry) : list Entry * gmap nat InstanceMeta * Z :=
  match c with
  | [] => ([], o, 0)
  | e :: c =>
      let '(l, o1, n) := clean_list (clk (e_name e)) o (e_list e) in
      let '(c', o2, n') := clean_loop clk o1 c in
      (match l with [] => c' | _ => mkEntry (e_name e) (e_key e) l :: c' end, o2, n + n')
  end.

Definition cleanExpiredInstances (s : ServiceCatalog) (clk : Clock) : Z * ServiceCatalog :=
  let '(c, o, n) := clean_loop clk (objects s) (catalog_ s) in (i32 n, mkCatalog c o).

Fixpoint mark_list (clk : nat → Z) (o : gmap nat InstanceMeta) (l : list nat) : gmap nat InstanceMeta * Z :=
  match l with
  | [] => (o, 0)
  | p :: l =>
      if up_at o p && expired_at o (clk p) p then
        let '(o', n) := mark_list clk (alter (λ m, set_status m #"DOWN") p o) l in (o', n + 1)
      else mark_list clk o l
  end.

Fixpoint mark_loop (clk : Clock) (o : gmap nat InstanceMeta) (c : list Entry) : gmap nat InstanceMeta * Z :=
  match c with
  | [] => (o, 0)
  | e :: c =>
      let '(o1, n) := mark_list (clk (e_name e)) o (e_list e) in
      let '(o2, n') := mark_loop clk o1 c in (o2, n + n')
  end.

Definition markExpiredInstancesDown (s : ServiceCatalog) (clk : Clock) : Z * ServiceCatalog :=
  let '(o, n) := mark_loop clk (objects s) (catalog_ s) in (i32 n, with_objects s o).

Record Stats := mkStats { totalServices : Z; totalInstances : Z; healthyInstances : Z; expiredInstances : Z }.

Definition getStats (s : ServiceCatalog) (clk : Clock) : Stats :=
  let ok := λ e, List.filter (healthy (objects s) (clk (e_name e))) (e_list e) in
  let total := foldr (λ e n, zlen (e_list e) + n) 0 (catalog_ s) in
  let good := foldr (λ e n, zlen (ok e) + n) 0 (catalog_ s) in
  mkStats (zlen (catalog_ s)) total good (total - good).

Definition clear (s : ServiceCatalog) : ServiceCatalog := with_entries s [].

(** ** HealthChecker *)

(** [checkOnce] with a callback set: the number marked, and what the callback
    is called with. *)
Definition checkOnce (s : ServiceCatalog) (clk : Clock) : Z * option (list str) * ServiceCatalog :=
  let '(marked, s1) := markExpiredInstancesDown s clk in
  let down := List.filter (λ p, match objects s1 !! p with Some m => bool_decide (status m = #"DOWN") | None => false end)
                (mjoin (e_list <$> catalog_ s1)) in
  (marked,
   if 0 <? marked then Some (omap (λ p, instanceId <$> objects s1 !! p) down) else None, s1).

Definition cleanExpired (s : ServiceCatalog) (clk : Clock) : Z * ServiceCatalog := cleanExpiredInstances s clk.

(** ** Specification: leases

    To its users the catalog is, for every service, a list of leases; an
    instance is found as long as its lease runs.  There is no status, no store
    of shared instances and no entry that has to be erased. *)

Record Lease := mkLease { l_reg : nat; l_id : str; l_addr : str * Z * Z; l_ttl : Z; l_beat : Z }.

Definition Leases : Type := str → list Lease.

Definition over (l : Lease) (now : Z) : bool := l_ttl l * 1000 <? now - l_beat l.
Definition renew (l : Lease) (now : Z) : Lease := mkLease (l_reg l) (l_id l) (l_addr l) (l_ttl l) now.
Definition upd (s : Leases) (n : str) (l : list Lease) : Leases := λ n', if decide (n' = n) then l else s n'.

(** The operations of the users: registration as the registry server does it
    (a new instance that has just sent its heartbeat), the others as they are;
    [OMark] and [OClean] are the health check. *)
Inductive Op :=
  | ORegister (k : ServiceKey) (m : InstanceMeta) (now : Z) (clk : Clock)
  | ODeregister (k : ServiceKey) (id : str)
  | OHeartbeat (k : ServiceKey) (id : str) (clk : Clock)
  | ODiscover (k : ServiceKey) (clk : Clock)
  | OMark (clk : Clock)
  | OClean (clk : Clock).

Inductive Result := RUnit | RBool (b : bool) | RFound (l : list Lease).

Definition lease_id (id : str) (l : Lease) : bool := bool_decide (l_id l = id).

(** [f] on the first lease with the identifier. *)
Fixpoint on_first (id : str) (f : Lease → list Lease) (l : list Lease) : option (list Lease) :=
  match l with
  | [] => None
  | x :: l => if lease_id id x then Some (f x ++ l) else cons x <$> on_first id f l
  end.

Definition spec_op (st : nat * Leases) (o : Op) : Result * (nat * Leases) :=
  let '(next, s) := st in
  match o with
  | ORegister k m now clk =>
      let new := mkLease next (instanceId m) (host m, port m, weight m) (ttlSeconds m) now in
      match on_first (instanceId m) (λ _, [renew new (clk (key k) next)]) (s (key k)) with
      | Some l => (RBool true, (S next, upd s (key k) l))
      | None => (RBool true, (S next, upd s (key k) (s (key k) ++ [new])))
      end
  | ODeregister k id =>
      match on_first id (λ _, []) (s (key k)) with
      | Some l => (RBool true, (next, upd s (key k) l))
      | None => (RBool false, st)
      end
  | OHeartbeat k id clk =>
      match on_first id (λ x, [renew x (clk (key k) (l_reg x))]) (s (key k)) with
      | Some l => (RBool true, (next, upd s (key k) l))
      | None => (RBool false, st)
      end
  | ODiscover k clk => (RFound (List.filter (λ l, negb (over l (clk (key k) (l_reg l)))) (s (key k))), st)
  | OMark _ => (RUnit, st)
  | OClean clk => (RUnit, (next, λ n, List.filter (λ l, negb (over l (clk n (l_reg l)))) (s n)))
  end.

(** The same operations on the catalog; [next] is the next free pointer. *)
Definition lease_of (o : gmap nat InstanceMeta) (p : nat) : list Lease :=
  match o !! p with
  | Some m => [mkLease p (instanceId m) (host m, port m, weight m) (ttlSeconds m) (lastHeartbeatMs m)]
  | None => []
  end.

Definition leases (o : gmap nat InstanceMeta) (l : list nat) : list Lease := mjoin (lease_of o <$> l).

Definition catalog_op (st : nat * ServiceCatalog) (o : Op) : Result * (nat * ServiceCatalog) :=
  let '(next, s) := st in
  match o with
  | ORegister k m now clk =>
      let '(b, s1) := registerInstance (with_objects s (<[next := beat m now]> (objects s))) k next clk in
      (RBool b, (S next, s1))
  | ODeregister k id => let '(b, s1) := deregisterInstance s k id in (RBool b, (next, s1))
  | OHeartbeat k id clk => let '(b, s1) := heartbeat s k id clk in (RBool b, (next, s1))
  | ODiscover k clk => (RFound (leases (objects s) (discover s k clk)), st)
  | OMark clk => (RUnit, (next, (markExpiredInstancesDown s clk).2))
  | OClean clk => (RUnit, (next, (cleanExpiredInstances s clk).2))
  end.

Fixpoint run {X} (step : X → Op → Result * X) (st : X) (ops : list Op) : list Result :=
  match ops with
  | [] => []
  | o :: ops => let '(r, st1) := step st o in r :: run step st1 ops
  end.

(** The clock does not run backwards from one operation to the next, and
    stays, like the times to live, in the range of its type. *)
Definition in_window (lo hi : Z) (clk : Clock) : Prop := ∀ n p, lo ≤ clk n p ≤ hi.

Definition op_window (lo hi : Z) (o : Op) : Prop :=
  match o with
  | ORegister _ m now clk => lo ≤ now ≤ hi ∧ in_window now hi clk ∧ 0 ≤ ttlSeconds m * 1000 < 2 ^ 31
  | ODeregister _ _ => True
  | OHeartbeat _ _ clk | ODiscover _ clk | OMark clk | OClean clk => in_window lo hi clk
  end.

Fixpoint timed (t : Z) (ops : list Op) : Prop :=
  match ops with
  | [] => True
  | o :: ops => ∃ hi, t ≤ hi < 2 ^ 62 ∧ op_window t hi o ∧ timed hi ops
  end.

(** ** The lists of the services *)

Definition list_at (n : str) (c : list Entry) : list nat := default [] (e_list <$> find_entry n c).

Lemma list_at_put k l c n : list_at n (put_entry k l c) = if decide (n = key k) then l else list_at n c.
Proof.
  unfold list_at. induction c as [|e c IH]; cbn [put_entry find_entry].
  - cbn [find_entry e_name]. destruct (decide (n = key k)) as [->|Hn]; [by rewrite bool_decide_true|].
    by rewrite bool_decide_false by congruence.
  - destruct (decide (e_name e = key k)) as [He|He].
    + rewrite bool_decide_true by done. cbn [find_entry e_name]. rewrite He.
      destruct (decide (n = key k)) as [->|Hn]; [by rewrite bool_decide_true|]. by rewrite bool_decide_false by congruence.
    + rewrite (bool_decide_false (e_name e = key k)) by done. destruct (text_lt (key k) (e_name e)); cbn [find_entry e_name].
      * destruct (decide (n = key k)) as [->|Hn]; [by rewrite bool_decide_true|].
        by rewrite (bool_decide_false (key k = n)) by congruence.
      * destruct (decide (e_name e = n)) as [<-|Hn].
        -- rewrite bool_decide_true by done. by destruct (decide (e_name e = key k)).
        -- rewrite bool_decide_false by done. exact IH.
Qed.

Lemma list_at_erase m c n : list_at n (erase_entry m c) = if decide (n = m) then [] else list_at n c.
Proof.
  unfold list_at, erase_entry. induction c as [|e c IH]; cbn [List.filter find_entry]; [by destruct (decide (n = m))|].
  destruct (decide (e_name e = m)) as [He|He].
  - rewrite (bool_decide_true (e_name e = m)) by done. cbn [negb]. rewrite IH.
    destruct (decide (n = m)) as [->|Hn]; [done|]. by rewrite bool_decide_false by congruence.
  - rewrite (bool_decide_false (e_name e = m)) by done. cbn [negb find_entry].
    destruct (decide (e_name e = n)) as [<-|Hn].
    + rewrite bool_decide_true by done. by rewrite decide_False.
    + rewrite bool_decide_false by done. exact IH.
Qed.

(** [std::string]'s order is a strict total order. *)
Lemma u8_of_inj a b : u8_of a = u8_of b → a = b.
Proof. intros H. by rewrite <-(chr_u8_of a), H, chr_u8_of. Qed.

Lemma text_lt_irrefl a : text_lt a a = false.
Proof. induction a as [|x a IH]; [done|]. cbn. by rewrite Z.ltb_irrefl. Qed.

Lemma text_lt_trans a b c : text_lt a b = true → text_lt b c = true → text_lt a c = true.
Proof.
  revert b c. induction a as [|x a IH]; intros [|y b] [|z c]; try done. cbn.
  destruct (u8_of x <? u8_of y) eqn:E1, (u8_of y <? u8_of x) eqn:E1', (u8_of y <? u8_of z) eqn:E2, (u8_of z <? u8_of y) eqn:E2',
    (u8_of x <? u8_of z) eqn:E3, (u8_of z <? u8_of x) eqn:E3'; bool_to_prop; try done; try lia. apply IH.
Qed.

Lemma text_lt_total a b : text_lt a b = false → a ≠ b → text_lt b a = true.
Proof.
  revert b. induction a as [|x a IH]; intros [|y b]; try done. cbn.
  destruct (u8_of x <? u8_of y) eqn:E1; [done|]. destruct (u8_of y <? u8_of x) eqn:E2; [done|]. bool_to_prop.
  assert (x = y) as <- by (apply u8_of_inj; lia). intros H Hne. apply IH; [done|congruence].
Qed.

(** The names of the entries are in increasing order. *)
Definition sorted (c : list Entry) : Prop := StronglySorted (λ a b, text_lt a b = true) (e_name <$> c).

Lemma sorted_put k l c : sorted c → sorted (put_entry k l c).
Proof.
  unfold sorted. induction c as [|e c IH]; cbn [put_entry fmap list_fmap]; intros Hs; [repeat constructor|].
  inversion Hs as [|?? Hs' Hall]; subst. destruct (decide (e_name e = key k)) as [He|He].
  - rewrite bool_decide_true by done. by constructor.
  - rewrite bool_decide_false by done. destruct (text_lt (key k) (e_name e)) eqn:E.
    + cbn [fmap list_fmap e_name]. constructor; [done|]. constructor; [done|].
      eapply Forall_impl; [done|]. intros n Hn. by eapply text_lt_trans.
    + cbn [fmap list_fmap]. constructor; [by apply IH|]. apply text_lt_total in E; [|done].
      clear -E Hall. induction c as [|e' c IH]; cbn [put_entry fmap list_fmap]; [by constructor|].
      apply Forall_cons in Hall as [H1 H2]. case_bool_decide; [by constructor|].
      case_match; cbn [fmap list_fmap e_name]; constructor; [done|by constructor|done|by apply IH].
Qed.

Lemma sorted_sub c' c : (e_name <$> c') `sublist_of` (e_name <$> c) → sorted c → sorted c'.
Proof.
  unfold sorted. generalize (e_name <$> c'), (e_name <$> c). clear.
  induction 1 as [|n l' l Hs IH|n l' l Hs IH]; intros H; [done| |]; inversion H as [|?? H1 H2]; subst.
  - constructor; [by apply IH|]. rewrite Forall_forall in *. intros x Hx. apply H2. by eapply elem_of_sublist.
  - by apply IH.
Qed.

Lemma erase_names n c : (e_name <$> erase_entry n c) `sublist_of` (e_name <$> c).
Proof. unfold erase_entry. induction c as [|e c IH]; [done|]. cbn. destruct (negb _); by constructor. Qed.

Lemma sorted_head e c : sorted (e :: c) → list_at (e_name e) c = [] ∧ ∀ n, list_at n c ≠ [] → n ≠ e_name e.
Proof.
  unfold sorted, list_at. cbn. intros H. inversion H as [|?? H1 H2]; subst.
  assert (Hn : find_entry (e_name e) c = None).
  { clear H H1. induction c as [|e' c IH]; [done|]. cbn in *. apply Forall_cons in H2 as [H2 H3].
    rewrite bool_decide_false; [by apply IH|]. intros E. rewrite E, text_lt_irrefl in H2. done. }
  rewrite Hn. split; [done|]. intros n Hne ->. by rewrite Hn in Hne.
Qed.

(** ** The first instance with an identifier *)

Definition split_at (o : gmap nat InstanceMeta) (id : str) (l pre : list nat) (q : nat) (post : list nat) : Prop :=
  l = pre ++ q :: post ∧ (∀ x, x ∈ pre → has_id o id x = false) ∧ has_id o id q = true.

Lemma first_split o id l : (∀ q, q ∈ l → has_id o id q = false) ∨ ∃ pre q post, split_at o id l pre q post.
Proof.
  induction l as [|x l IH]; [left; set_solver|]. destruct (has_id o id x) eqn:E.
  - right. exists [], x, l. split; [done|]. split; [set_solver|done].
  - destruct IH as [IH|(pre & q & post & -> & Hp & Hq)].
    + left. intros q [->|Hq]%elem_of_cons; [done|by apply IH].
    + right. exists (x :: pre), q, post. split; [done|]. split; [|done]. intros y [->|Hy]%elem_of_cons; [done|by apply Hp].
Qed.

Lemma replace_none o id p l : (∀ q, q ∈ l → has_id o id q = false) → replace_first o id p l = None.
Proof. induction l as [|x l IH]; intros H; [done|]. cbn. rewrite H by left. rewrite IH; [done|]. intros q Hq. apply H. by right. Qed.
Lemma replace_split o id p l pre q post : split_at o id l pre q post → replace_first o id p l = Some (pre ++ p :: post).
Proof.
  intros (-> & Hp & Hq). induction pre as [|x pre IH]; cbn; [by rewrite Hq|].
  rewrite Hp by left. rewrite IH; [done|]. intros y Hy. apply Hp. by right.
Qed.
Lemma erase_none o id l : (∀ q, q ∈ l → has_id o id q = false) → erase_first o id l = None.
Proof. induction l as [|x l IH]; intros H; [done|]. cbn. rewrite H by left. rewrite IH; [done|]. intros q Hq. apply H. by right. Qed.
Lemma erase_split o id l pre q post : split_at o id l pre q post → erase_first o id l = Some (pre ++ post).
Proof.
  intros (-> & Hp & Hq). induction pre as [|x pre IH]; cbn; [by rewrite Hq|].
  rewrite Hp by left. rewrite IH; [done|]. intros y Hy. apply Hp. by right.
Qed.
Lemma find_id_none o id l : (∀ q, q ∈ l → has_id o id q = false) → List.find (has_id o id) l = None.
Proof. induction l as [|x l IH]; intros H; [done|]. cbn. rewrite H by left. apply IH. intros q Hq. apply H. by right. Qed.
Lemma find_id_split o id l pre q post : split_at o id l pre q post → List.find (has_id o id) l = Some q.
Proof.
  intros (-> & Hp & Hq). induction pre as [|x pre IH]; cbn; [by rewrite Hq|].
  rewrite Hp by left. apply IH. intros y Hy. apply Hp. by right.
Qed.

Lemma leases_app o l l' : leases o (l ++ l') = leases o l ++ leases o l'.
Proof. unfold leases. induction l as [|x l IH]; [done|]. cbn [app fmap list_fmap]. by rewrite !mjoin_cons, <-app_assoc, <-IH. Qed.

Lemma leases_cons o p l : leases o (p :: l) = lease_of o p ++ leases o l.
Proof. done. Qed.

Lemma lease_of_has o id p : has_id o id p = match lease_of o p with [l] => lease_id id l | _ => false end.
Proof. unfold has_id, lease_of. by destruct (o !! p). Qed.

Lemma on_first_skip o id f l rest :
  (∀ q, q ∈ l → has_id o id q = false) → on_first id f (leases o l ++ rest) = app (leases o l) <$> on_first id f rest.
Proof.
  induction l as [|p l IH]; intros H; [cbn; by destruct (on_first id f rest)|]. rewrite leases_cons, <-app_assoc.
  pose proof (H p ltac:(left)) as Hp. rewrite lease_of_has in Hp.
  assert (Hl : on_first id f (leases o l ++ rest) = app (leases o l) <$> on_first id f rest)
    by (apply IH; intros q Hq; apply H; by right).
  unfold lease_of in *. destruct (o !! p) as [m|]; [|exact Hl]. cbn [app on_first]. rewrite Hp, Hl.
  by destruct (on_first id f rest).
Qed.

Lemma on_first_none o id f l : (∀ q, q ∈ l → has_id o id q = false) → on_first id f (leases o l) = None.
Proof. intros H. rewrite <-(app_nil_r (leases o l)). by rewrite on_first_skip. Qed.

Lemma on_first_split o id f l pre q post :
  split_at o id l pre q post →
  on_first id f (leases o l) = Some (leases o pre ++ mjoin (f <$> lease_of o q) ++ leases o post).
Proof.
  intros (-> & Hp & Hq). rewrite leases_app, leases_cons, on_first_skip by done. rewrite lease_of_has in Hq.
  unfold lease_of in *. destruct (o !! q) as [m|]; [|done]. cbn [app on_first]. rewrite Hq. cbn. by rewrite app_nil_r.
Qed.

Lemma leases_other o l p m : p ∉ l → leases (<[p := m]> o) l = leases o l.
Proof.
  unfold leases. induction l as [|x l IH]; intros H; [done|]. cbn. f_equal; [|apply IH; set_solver].
  unfold lease_of. rewrite lookup_insert_ne by set_solver. done.
Qed.

Lemma leases_same o o' l : (∀ p, p ∈ l → lease_of o' p = lease_of o p) → leases o' l = leases o l.
Proof.
  unfold leases. induction l as [|x l IH]; intros H; [done|]. cbn. f_equal; [apply H; by left|].
  apply IH. intros p Hp. apply H. by right.
Qed.

(** ** The invariant *)

Record meta_ok (t : Z) (m : InstanceMeta) : Prop := {
  mo_beat : 0 ≤ lastHeartbeatMs m ≤ t;
  mo_ttl : 0 ≤ ttlSeconds m * 1000 < 2 ^ 31;
  mo_status : is_up m = true ∨ lastHeartbeatMs m + ttlSeconds m * 1000 < t
}.

Record cat_inv (t : Z) (next : nat) (s : ServiceCatalog) : Prop := {
  ci_time : 0 ≤ t < 2 ^ 62;
  ci_sorted : sorted (catalog_ s);
  ci_nodup : ∀ n, NoDup (list_at n (catalog_ s));
  ci_apart : ∀ n n' p, p ∈ list_at n (catalog_ s) → p ∈ list_at n' (catalog_ s) → n = n';
  ci_objs : ∀ n p, p ∈ list_at n (catalog_ s) → (p < next)%nat ∧ ∃ m, objects s !! p = Some m ∧ meta_ok t m
}.

(** What the specification sees of a catalog. *)
Definition sees (s : ServiceCatalog) (sp : Leases) : Prop := ∀ n, sp n = leases (objects s) (list_at n (catalog_ s)).

Lemma meta_later t t' m : t ≤ t' → meta_ok t m → meta_ok t' m.
Proof. intros Ht [H1 H2 H3]. split; [lia|done|]. destruct H3; [by left|right; lia]. Qed.

Lemma inv_later t t' next s : t ≤ t' < 2 ^ 62 → cat_inv t next s → cat_inv t' next s.
Proof.
  intros Ht [H1 H2 H3 H4 H5]. split; [lia|done..|]. intros n p Hp. destruct (H5 n p Hp) as (? & m & ? & Hm).
  split; [done|]. exists m. split; [done|]. eapply meta_later; [|exact Hm]. lia.
Qed.

Lemma isExpired_small m now :
  0 ≤ lastHeartbeatMs m < 2 ^ 62 → 0 ≤ now < 2 ^ 62 → 0 ≤ ttlSeconds m * 1000 < 2 ^ 31 →
  isExpired m now = (lastHeartbeatMs m + ttlSeconds m * 1000 <? now).
Proof.
  intros H1 H2 H3. unfold isExpired. rewrite i64_small by lia. unfold i32. rewrite Z.mod_small by lia.
  apply eq_iff_eq_true. rewrite !Z.ltb_lt. lia.
Qed.

(** Whether a lease runs is whether the instance is up and not expired. *)
Lemma healthy_lease t hi o p now m :
  o !! p = Some m → meta_ok t m → t ≤ now ≤ hi → hi < 2 ^ 62 →
  up_at o p && negb (expired_at o now p) = forallb (λ l, negb (over l now)) (lease_of o p) ∧
  negb (expired_at o now p) = forallb (λ l, negb (over l now)) (lease_of o p).
Proof.
  intros Hm [H1 H2 H3] Hn Hhi. unfold up_at, expired_at, lease_of. rewrite Hm. cbn [forallb].
  rewrite isExpired_small by lia. unfold over. cbn [l_ttl l_beat].
  assert (E : (ttlSeconds m * 1000 <? now - lastHeartbeatMs m) = (lastHeartbeatMs m + ttlSeconds m * 1000 <? now))
    by (apply eq_iff_eq_true; rewrite !Z.ltb_lt; lia).
  rewrite E, andb_true_r. split; [|done]. destruct H3 as [->|H3]; [done|].
  rewrite (proj2 (Z.ltb_lt _ _)) by lia. by rewrite andb_false_r.
Qed.

(** Filtering the instances is filtering the leases. *)
Lemma leases_filter o f (g : Lease → bool) l :
  (∀ p, p ∈ l → f p = forallb g (lease_of o p)) → leases o (List.filter f l) = List.filter g (leases o l).
Proof.
  induction l as [|p l IH]; intros H; [done|]. rewrite leases_cons, List.filter_app.
  rewrite <-IH by (intros q Hq; apply H; by right). cbn [List.filter]. rewrite (H p) by left.
  unfold lease_of at 1 2. destruct (o !! p) as [m|] eqn:E; cbn [forallb List.filter app].
  - rewrite andb_true_r. destruct (g _); [|done]. rewrite leases_cons. unfold lease_of. by rewrite E.
  - rewrite leases_cons. unfold lease_of. by rewrite E.
Qed.

(** One service's list is replaced and some instances change. *)
Lemma inv_update t hi next next' s k l' c' o' :
  cat_inv t next s → t ≤ hi < 2 ^ 62 → sorted c' → NoDup l' →
  (∀ n, list_at n c' = if decide (n = key k) then l' else list_at n (catalog_ s)) →
  (∀ p, p ∈ l' → p ∈ list_at (key k) (catalog_ s) ∨ ∀ n, p ∉ list_at n (catalog_ s)) →
  (∀ n p, p ∈ list_at n c' → (p < next')%nat ∧ ∃ m, o' !! p = Some m ∧ meta_ok hi m) →
  cat_inv hi next' (mkCatalog c' o').
Proof.
  intros [H1 H2 H3 H4 H5] Ht Hs Hnd Hl Hsrc Ho. split; cbn [catalog_ objects]; [lia|done| | |done].
  - intros n. rewrite Hl. by destruct (decide (n = key k)).
  - assert (Hin : ∀ n p, p ∈ list_at n c' → p ∈ list_at n (catalog_ s) ∨ n = key k ∧ ∀ n', p ∉ list_at n' (catalog_ s)).
    { intros n p. rewrite Hl. destruct (decide (n = key k)) as [->|]; [|by left]. intros Hp.
      destruct (Hsrc p Hp); [by left|by right]. }
    intros n n' p Hp Hp'. destruct (Hin n p Hp) as [Ha|[-> Ha]], (Hin n' p Hp') as [Hb|[-> Hb]].
    + by apply (H4 n n' p).
    + by destruct (Hb n).
    + by destruct (Ha n').
    + done.
Qed.

Lemma beat_ok hi m now : 0 ≤ now ≤ hi → 0 ≤ ttlSeconds m * 1000 < 2 ^ 31 → meta_ok hi (beat m now).
Proof. intros H1 H2. split; [done|done|]. left. by apply bool_decide_eq_true. Qed.

Lemma lease_of_alter o p q f : p ≠ q → lease_of (alter f p o) q = lease_of o q.
Proof. intros H. unfold lease_of. by rewrite lookup_alter_ne. Qed.

Lemma split_nodup o id l pre q post :
  split_at o id l pre q post → NoDup l → q ∉ pre ∧ q ∉ post ∧ NoDup (pre ++ post) ∧ q ∈ l.
Proof.
  intros (-> & _ & _) Hnd. apply NoDup_app in Hnd as (H1 & H2 & [H3 H4]%NoDup_cons). split_and!.
  - intros Hq. apply (H2 q Hq). by left.
  - done.
  - apply NoDup_app. split; [done|]. split; [|done]. intros x Hx Hx'. apply (H2 x Hx). by right.
  - rewrite elem_of_app, elem_of_cons. auto.
Qed.

Definition similar (t : Z) (r : Result * (nat * ServiceCatalog)) (r' : Result * (nat * Leases)) : Prop :=
  r.1 = r'.1 ∧ r.2.1 = r'.2.1 ∧ cat_inv t r.2.1 r.2.2 ∧ sees r.2.2 r'.2.2.

Lemma sim_discover t hi next s sp k clk :
  cat_inv t next s → sees s sp → t ≤ hi < 2 ^ 62 → in_window t hi clk →
  similar hi (catalog_op (next, s) (ODiscover k clk)) (spec_op (next, sp) (ODiscover k clk)).
Proof.
  intros Hi Hs Ht Hw. split_and!; cbn; [|done|by apply (inv_later t)|done]. f_equal. rewrite Hs.
  assert (E : discover s k clk = List.filter (healthy (objects s) (clk (key k))) (list_at (key k) (catalog_ s))).
  { unfold discover, list_at. by destruct (find_entry (key k) (catalog_ s)). }
  rewrite E. rewrite (leases_filter _ _ (λ l, negb (over l (clk (key k) (l_reg l))))); [done|].
  intros p Hp. destruct (ci_objs _ _ _ Hi _ _ Hp) as (_ & m & Hm & Hok).
  destruct (healthy_lease t hi (objects s) p (clk (key k) p) m Hm Hok (Hw _ _) (proj2 Ht)) as [H _].
  unfold healthy. rewrite H. unfold lease_of. by rewrite Hm.
Qed.

Lemma old_objs t hi next next' s n p :
  cat_inv t next s → t ≤ hi → (next ≤ next')%nat → p ∈ list_at n (catalog_ s) →
  (p < next')%nat ∧ ∃ m, objects s !! p = Some m ∧ meta_ok hi m.
Proof.
  intros Hi Ht Hn Hp. destruct (ci_objs _ _ _ Hi _ _ Hp) as (H & m & Hm & Hok). split; [lia|].
  exists m. split; [done|]. by eapply meta_later.
Qed.

Lemma list_at_same k c n : list_at n c = if decide (n = key k) then list_at (key k) c else list_at n c.
Proof. by destruct (decide (n = key k)) as [->|]. Qed.

Lemma sim_deregister t hi next s sp k id :
  cat_inv t next s → sees s sp → t ≤ hi < 2 ^ 62 →
  similar hi (catalog_op (next, s) (ODeregister k id)) (spec_op (next, sp) (ODeregister k id)).
Proof.
  intros Hi Hs Ht. cbn [catalog_op spec_op]. rewrite Hs. unfold deregisterInstance.
  assert (El : list_at (key k) (catalog_ s) = default [] (e_list <$> find_entry (key k) (catalog_ s))) by done.
  assert (Hinv : cat_inv hi next s) by (by apply (inv_later t)).
  destruct (find_entry (key k) (catalog_ s)) as [e|]; cbn in El; rewrite El; [|by split_and!].
  destruct (first_split (objects s) id (e_list e)) as [Hn|(pre & q & post & Hsp)].
  { rewrite erase_none, on_first_none by done. by split_and!. }
  rewrite (erase_split _ _ _ _ _ _ Hsp), (on_first_split _ _ _ _ _ _ _ Hsp).
  pose proof (ci_nodup _ _ _ Hi (key k)) as Hnd. rewrite El in Hnd.
  destruct (split_nodup _ _ _ _ _ _ Hsp Hnd) as (_ & _ & Hnd' & _).
  assert (Hsub : ∀ p, p ∈ pre ++ post → p ∈ e_list e).
  { destruct Hsp as (-> & _). intros p. rewrite !elem_of_app, elem_of_cons. tauto. }
  assert (Hm : ∀ o f, mjoin ((λ _ : Lease, [] : list Lease) <$> lease_of o f) = []) by (intros; unfold lease_of; by destruct (_ !! _)).
  assert (H : ∀ c', sorted c' → (∀ n, list_at n c' = if decide (n = key k) then pre ++ post else list_at n (catalog_ s)) →
    similar hi (RBool true, (next, with_entries s c'))
      (RBool true, (next, upd sp (key k) (leases (objects s) pre ++
        mjoin ((λ _ : Lease, [] : list Lease) <$> lease_of (objects s) q) ++ leases (objects s) post)))).
  { intros c' Hc Hl. split_and!; [done|done| |].
    - eapply (inv_update t hi next next s k (pre ++ post)); try done.
      + intros p Hp. left. rewrite El. by apply Hsub.
      + intros n p. rewrite Hl. destruct (decide (n = key k)) as [->|]; intros Hp; (eapply (old_objs t hi next next); [done|lia|lia|]).
        * rewrite El. by apply Hsub.
        * done.
    - intros n. cbn [snd with_entries catalog_ objects]. rewrite Hl. unfold upd. destruct (decide (n = key k)); [|apply Hs].
      by rewrite Hm, leases_app. }
  destruct (pre ++ post) as [|x l] eqn:E.
  - apply H; [|intros n; by rewrite list_at_erase]. eapply sorted_sub; [|apply Hi]. apply erase_names.
  - apply H; [apply sorted_put, Hi|intros n; by rewrite list_at_put].
Qed.

Lemma leases_alter o q f pre post :
  q ∉ pre → q ∉ post → leases (alter f q o) (pre ++ q :: post) = leases o pre ++ lease_of (alter f q o) q ++ leases o post.
Proof.
  intros H1 H2. rewrite leases_app, leases_cons. f_equal; [|f_equal];
    apply leases_same; intros p Hp; apply lease_of_alter; set_solver.
Qed.

Lemma sim_heartbeat t hi next s sp k id clk :
  cat_inv t next s → sees s sp → t ≤ hi < 2 ^ 62 → in_window t hi clk →
  similar hi (catalog_op (next, s) (OHeartbeat k id clk)) (spec_op (next, sp) (OHeartbeat k id clk)).
Proof.
  intros Hi Hs Ht Hw. cbn [catalog_op spec_op]. rewrite Hs. unfold heartbeat.
  assert (El : list_at (key k) (catalog_ s) = default [] (e_list <$> find_entry (key k) (catalog_ s))) by done.
  assert (Hinv : cat_inv hi next s) by (by apply (inv_later t)).
  destruct (find_entry (key k) (catalog_ s)) as [e|]; cbn in El; rewrite El; [|by split_and!].
  destruct (first_split (objects s) id (e_list e)) as [Hn|(pre & q & post & Hsp)].
  { rewrite find_id_none, on_first_none by done. by split_and!. }
  rewrite (find_id_split _ _ _ _ _ _ Hsp), (on_first_split _ _ _ _ _ _ _ Hsp).
  pose proof (ci_nodup _ _ _ Hi (key k)) as Hnd. rewrite El in Hnd.
  destruct (split_nodup _ _ _ _ _ _ Hsp Hnd) as (Hq1 & Hq2 & _ & Hq). rewrite <-El in Hq.
  pose proof (ci_time _ _ _ Hi) as H0. destruct (Hw (key k) q) as [Hw1 Hw2].
  destruct (old_objs t hi next next s (key k) q Hi (proj1 Ht) (le_n _) Hq) as (_ & m & Hm & Hok).
  split_and!; [done|done| |]; cbn [snd fst with_objects].
  - eapply (inv_update t hi next next s k (list_at (key k) (catalog_ s))); try done; [apply Hi|by rewrite El|apply list_at_same|by left|].
    intros n p Hp. destruct (old_objs t hi next next s n p Hi (proj1 Ht) (le_n _) Hp) as (Hlt & m' & Hm' & Hok').
    split; [done|]. destruct (decide (q = p)) as [<-|Hne].
    + rewrite lookup_alter_eq, Hm. eexists. split; [done|]. apply beat_ok; [lia|apply Hok].
    + rewrite lookup_alter_ne by done. by exists m'.
  - intros n. unfold with_objects. cbn [catalog_ objects]. unfold upd. destruct (decide (n = key k)) as [->|Hne].
    + rewrite El. destruct Hsp as (El' & _). rewrite El', leases_alter by done. unfold lease_of.
      rewrite lookup_alter_eq, Hm. done.
    + rewrite Hs. symmetry. apply leases_same. intros p Hp. apply lease_of_alter. intros <-. apply Hne. by apply (ci_apart _ _ _ Hi _ _ q).
Qed.

(** A new instance [next] has come into the list of a service. *)
Lemma inv_joined t hi next s sp k l' L o' :
  cat_inv t next s → sees s sp → t ≤ hi < 2 ^ 62 → NoDup l' →
  (∀ p, p ∈ l' → p = next ∨ p ∈ list_at (key k) (catalog_ s)) →
  (∀ p, p ≠ next → o' !! p = objects s !! p) → (∃ m', o' !! next = Some m' ∧ meta_ok hi m') → leases o' l' = L →
  similar hi (RBool true, (S next, mkCatalog (put_entry k l' (catalog_ s)) o')) (RBool true, (S next, upd sp (key k) L)).
Proof.
  intros Hi Hs Ht Hnd Hin Ho Hnext <-.
  assert (Hnew : ∀ n, next ∉ list_at n (catalog_ s)).
  { intros n Hn. destruct (ci_objs _ _ _ Hi _ _ Hn) as [? _]. lia. }
  assert (Hobj : ∀ n p, p ∈ list_at n (catalog_ s) → (p < S next)%nat ∧ ∃ m, o' !! p = Some m ∧ meta_ok hi m).
  { intros n p Hp. rewrite Ho by (intros ->; by apply (Hnew n)). eapply (old_objs t hi next (S next)); [done|lia|lia|done]. }
  split_and!; [done|done| |].
  - eapply (inv_update t hi next (S next) s k l'); [done|done|apply sorted_put, Hi|done|intros n; apply list_at_put| |].
    + intros p Hp. destruct (Hin p Hp) as [->|]; [by right|by left].
    + intros n p. rewrite list_at_put. destruct (decide (n = key k)) as [->|]; [|apply Hobj].
      intros Hp. destruct (Hin p Hp) as [->|Hp']; [split; [lia|done]|by apply (Hobj (key k))].
  - intros n. cbn [snd catalog_ objects]. rewrite list_at_put. unfold upd. destruct (decide (n = key k)); [done|].
    rewrite Hs. symmetry. apply leases_same. intros p Hp. unfold lease_of. rewrite Ho; [done|]. intros ->. by apply (Hnew n).
Qed.

Lemma sim_register t hi next s sp k m now clk :
  cat_inv t next s → sees s sp → t ≤ hi < 2 ^ 62 → op_window t hi (ORegister k m now clk) →
  similar hi (catalog_op (next, s) (ORegister k m now clk)) (spec_op (next, sp) (ORegister k m now clk)).
Proof.
  intros Hi Hs Ht (Hnow & Hw & Httl). cbn [catalog_op spec_op]. unfold registerInstance.
  cbn [objects with_objects catalog_]. rewrite lookup_insert_eq.
  change (default [] (e_list <$> find_entry (key k) (catalog_ s))) with (list_at (key k) (catalog_ s)).
  set (l := list_at (key k) (catalog_ s)). assert (Hk : sp (key k) = leases (objects s) l) by apply Hs. rewrite !Hk. set (o := <[next:=beat m now]> (objects s)).
  pose proof (ci_time _ _ _ Hi) as H0. destruct (Hw (key k) next) as [Hw1 Hw2].
  assert (Hnew : next ∉ l) by (intros Hn; destruct (ci_objs _ _ _ Hi _ _ Hn) as [? _]; lia).
  assert (Hid : ∀ q, q ∈ l → has_id o (instanceId m) q = has_id (objects s) (instanceId m) q).
  { intros q Hq. unfold has_id, o. rewrite lookup_insert_ne; [done|]. by intros <-. }
  pose proof (ci_nodup _ _ _ Hi (key k)) as Hnd. fold l in Hnd.
  assert (Hlease : ∀ o' m', (∀ p, p ≠ next → o' !! p = objects s !! p) → o' !! next = Some m' → ∀ l1, next ∉ l1 →
    leases o' l1 = leases (objects s) l1).
  { intros o' m' Ho' _ l1 Hl1. apply leases_same. intros p Hp. unfold lease_of. rewrite Ho'; [done|]. by intros ->. }
  destruct (first_split (objects s) (instanceId m) l) as [Hn|(pre & q & post & Hsp)].
  - rewrite replace_none, on_first_none by (intros; rewrite ?Hid; auto). unfold with_entries, with_objects. cbn [objects catalog_].
    apply (inv_joined t); try done.
    + apply NoDup_app. split; [done|]. split; [set_solver|apply NoDup_singleton].
    + set_solver.
    + intros p Hp. unfold o. by rewrite lookup_insert_ne.
    + unfold o. rewrite lookup_insert_eq. eexists. split; [done|]. apply beat_ok; [lia|done].
    + rewrite leases_app, (Hlease o (beat m now)); [|unfold o; intros; by rewrite lookup_insert_ne|apply lookup_insert_eq|done].
      f_equal. unfold leases, lease_of, o. cbn [fmap list_fmap]. by rewrite lookup_insert_eq.
  - assert (Hsp' : split_at o (instanceId m) l pre q post).
    { destruct Hsp as (E & Hp & Hq). split; [done|]. split; [intros x Hx|]; rewrite Hid; auto; rewrite E; set_solver. }
    rewrite (replace_split _ _ _ _ _ _ _ Hsp'), (on_first_split _ _ _ _ _ _ _ Hsp).
    destruct (split_nodup _ _ _ _ _ _ Hsp Hnd) as (Hq1 & Hq2 & Hnd' & _). destruct Hsp as (E & _ & Hq). rewrite E in Hnew.
    apply (inv_joined t); try done.
    + rewrite NoDup_app in Hnd' |- *. rewrite NoDup_cons. destruct Hnd' as (A1 & A2 & A3). set_solver.
    + fold l. rewrite E. set_solver.
    + intros p Hp. unfold o. by rewrite lookup_alter_ne, lookup_insert_ne.
    + unfold o. rewrite lookup_alter_eq, lookup_insert_eq. eexists. split; [done|]. apply beat_ok; [lia|done].
    + assert (Ho : ∀ f p, p ≠ next → alter f next o !! p = objects s !! p)
        by (intros; unfold o; by rewrite lookup_alter_ne, lookup_insert_ne).
      assert (Hon : alter (λ m, beat m (clk (key k) next)) next o !! next = Some (beat (beat m now) (clk (key k) next)))
        by (unfold o; by rewrite lookup_alter_eq, lookup_insert_eq).
      rewrite leases_app, leases_cons, !(Hlease _ _ (Ho _) Hon) by set_solver. unfold lease_of at 1. rewrite Hon.
      f_equal. f_equal. unfold has_id in Hq. unfold lease_of. by destruct (objects s !! q).
Qed.

(** ** The health check *)

(** Some instances were found expired and marked. *)
Definition downed (hi : Z) (o o' : gmap nat InstanceMeta) : Prop :=
  ∀ p, o' !! p = o !! p ∨
       ∃ m, o !! p = Some m ∧ o' !! p = Some (set_status m #"DOWN") ∧
            (meta_ok hi m → lastHeartbeatMs m + ttlSeconds m * 1000 < hi).

Lemma downed_refl hi o : downed hi o o.
Proof. by left. Qed.

Lemma downed_trans hi o1 o2 o3 : downed hi o1 o2 → downed hi o2 o3 → downed hi o1 o3.
Proof.
  intros H1 H2 p. destruct (H2 p) as [E2|(m2 & E2 & E2' & F2)], (H1 p) as [E1|(m1 & E1 & E1' & F1)].
  - left. congruence.
  - right. exists m1. split; [done|]. split; [congruence|done].
  - right. exists m2. split; [congruence|]. by split.
  - right. exists m1. split; [done|]. rewrite E2 in E1'. injection E1' as ->. by split.
Qed.

Lemma downed_one hi o p now :
  0 ≤ now ≤ hi → hi < 2 ^ 62 → expired_at o now p = true → downed hi o (alter (λ m, set_status m #"DOWN") p o).
Proof.
  intros Hn Hhi He q. destruct (decide (p = q)) as [<-|Hne]; [|left; by rewrite lookup_alter_ne].
  unfold expired_at in He. destruct (o !! p) as [m|] eqn:E; [|done]. right. exists m. split; [done|].
  rewrite lookup_alter_eq, E. split; [done|]. intros [H1 H2 _]. rewrite isExpired_small in He by lia. apply Z.ltb_lt in He. lia.
Qed.

Lemma downed_facts hi o o' p m :
  downed hi o o' → o !! p = Some m → meta_ok hi m → lease_of o' p = lease_of o p ∧ ∃ m', o' !! p = Some m' ∧ meta_ok hi m'.
Proof.
  intros Hd Hm Hok. unfold lease_of. destruct (Hd p) as [E|(m1 & E & E' & F)].
  - rewrite E, Hm. split; [done|]. by exists m.
  - rewrite E'. rewrite Hm in E. injection E as <-. rewrite Hm. split; [done|]. eexists. split; [done|].
    destruct (Hok) as [H1 H2 H3]. split; [done|done|]. right. by apply F.
Qed.

(** Marking changes neither whether an instance is expired nor what is seen. *)
Lemma downed_expired hi o o' p now : downed hi o o' → expired_at o' now p = expired_at o now p.
Proof. intros Hd. unfold expired_at. destruct (Hd p) as [->|(m & -> & -> & _)]; done. Qed.

Lemma mark_list_downed hi clk o l :
  (∀ p, 0 ≤ clk p ≤ hi) → hi < 2 ^ 62 → downed hi o (mark_list clk o l).1.
Proof.
  intros Hc Hhi. revert o. induction l as [|p l IH]; intros o; [apply downed_refl|]. cbn [mark_list].
  destruct (up_at o p && expired_at o (clk p) p) eqn:E; [|apply IH]. apply andb_true_iff in E as [_ E].
  specialize (IH (alter (λ m, set_status m #"DOWN") p o)). destruct (mark_list clk _ l) as [o' n]. cbn in *.
  eapply downed_trans; [|exact IH]. by eapply downed_one.
Qed.

Lemma mark_loop_downed hi clk o c :
  (∀ n p, 0 ≤ clk n p ≤ hi) → hi < 2 ^ 62 → downed hi o (mark_loop clk o c).1.
Proof.
  intros Hc Hhi. revert o. induction c as [|e c IH]; intros o; [apply downed_refl|]. cbn [mark_loop].
  pose proof (mark_list_downed hi (clk (e_name e)) o (e_list e) (Hc _) Hhi) as H.
  destruct (mark_list _ o _) as [o1 n]. specialize (IH o1). destruct (mark_loop clk o1 c) as [o2 n']. cbn in *.
  by eapply downed_trans.
Qed.

Lemma clean_list_spec hi clk o l :
  (∀ p, 0 ≤ clk p ≤ hi) → hi < 2 ^ 62 →
  downed hi o (clean_list clk o l).1.2 ∧ (clean_list clk o l).1.1 = List.filter (λ p, negb (expired_at o (clk p) p)) l.
Proof.
  intros Hc Hhi. revert o. induction l as [|p l IH]; intros o; [split; [apply downed_refl|done]|]. cbn [clean_list List.filter].
  destruct (expired_at o (clk p) p) eqn:E; cbn [negb].
  - pose proof (downed_one hi o p (clk p) (Hc p) Hhi E) as Hd.
    destruct (IH (alter (λ m, set_status m #"DOWN") p o)) as [H1 H2]. destruct (clean_list clk _ l) as [[l' o'] n].
    cbn in *. split; [by eapply downed_trans|]. rewrite H2. apply List.filter_ext.
    intros q. by rewrite (downed_expired hi o _ q _ Hd).
  - destruct (IH o) as [H1 H2]. destruct (clean_list clk o l) as [[l' o'] n]. cbn in *. split; [done|]. by rewrite H2.
Qed.

Lemma clean_loop_spec hi clk o c :
  (∀ n p, 0 ≤ clk n p ≤ hi) → hi < 2 ^ 62 → sorted c →
  downed hi o (clean_loop clk o c).1.2 ∧ (e_name <$> (clean_loop clk o c).1.1) `sublist_of` (e_name <$> c) ∧
  ∀ n, list_at n (clean_loop clk o c).1.1 = List.filter (λ p, negb (expired_at o (clk n p) p)) (list_at n c).
Proof.
  intros Hc Hhi. revert o. induction c as [|e c IH]; intros o Hs; [split; [apply downed_refl|done]|]. cbn [clean_loop].
  destruct (clean_list_spec hi (clk (e_name e)) o (e_list e) (Hc _) Hhi) as [H1 H2].
  destruct (clean_list _ o _) as [[l o1] n1]. cbn [fst snd] in H1, H2.
  pose proof Hs as Hs'. inversion Hs' as [|?? Hs1 Hall]; subst. destruct (sorted_head e c Hs) as [Hh _].
  destruct (IH o1 Hs1) as (I1 & I2 & I3). destruct (clean_loop clk o1 c) as [[c' o2] n2]. cbn [fst snd] in *.
  assert (Hf : ∀ n, list_at n c' = List.filter (λ p, negb (expired_at o (clk n p) p)) (list_at n c)).
  { intros n. rewrite I3. apply List.filter_ext. intros p. by rewrite (downed_expired hi o o1 p _ H1). }
  split; [by eapply downed_trans|]. split.
  - case_match; [by constructor|]. cbn [fmap list_fmap e_name]. by constructor.
  - intros n. unfold list_at in *. cbn [find_entry]. destruct (decide (e_name e = n)) as [<-|Hne].
    + rewrite (bool_decide_true (e_name e = e_name e)) by done. cbn [fmap option_fmap option_map default].
      destruct (List.filter _ (e_list e)) as [|x l] eqn:E; [by rewrite Hf, Hh|].
      cbn [find_entry e_name]. by rewrite bool_decide_true.
    + rewrite (bool_decide_false (e_name e = n)) by done. rewrite <-Hf. case_match; [done|].
      cbn [find_entry e_name]. by rewrite bool_decide_false.
Qed.

Lemma sim_downed t hi next s sp c' o' (sp' : Leases) :
  cat_inv t next s → sees s sp → t ≤ hi < 2 ^ 62 → sorted c' → downed hi (objects s) o' →
  (∀ n p, p ∈ list_at n c' → p ∈ list_at n (catalog_ s)) → (∀ n, NoDup (list_at n c')) →
  (∀ n, sp' n = leases (objects s) (list_at n c')) →
  similar hi (RUnit, (next, mkCatalog c' o')) (RUnit, (next, sp')).
Proof.
  intros Hi Hs Ht Hc Hd Hsub Hnd Hsp.
  assert (Hobj : ∀ n p, p ∈ list_at n c' → (p < next)%nat ∧ lease_of o' p = lease_of (objects s) p ∧
    ∃ m, o' !! p = Some m ∧ meta_ok hi m).
  { intros n p Hp. destruct (old_objs t hi next next s n p Hi (proj1 Ht) (le_n _) (Hsub n p Hp)) as (Hl & m & Hm & Hok).
    split; [done|]. by apply (downed_facts hi (objects s) o' p m). }
  split_and!; [done|done| |]; cbn [snd fst].
  - pose proof (ci_time _ _ _ Hi). split; cbn [catalog_ objects]; [lia|done|done| |].
    + intros n n' p Hp Hp'. apply (ci_apart _ _ _ Hi n n' p); by apply Hsub.
    + intros n p Hp. destruct (Hobj n p Hp) as (? & _ & ?). by split.
  - intros n. cbn [catalog_ objects]. rewrite Hsp. symmetry. apply leases_same. intros p Hp. by destruct (Hobj n p Hp) as (_ & ? & _).
Qed.

Lemma sim_mark t hi next s sp clk :
  cat_inv t next s → sees s sp → t ≤ hi < 2 ^ 62 → in_window t hi clk →
  similar hi (catalog_op (next, s) (OMark clk)) (spec_op (next, sp) (OMark clk)).
Proof.
  intros Hi Hs Ht Hw. pose proof (ci_time _ _ _ Hi) as H0. cbn [catalog_op spec_op]. unfold markExpiredInstancesDown.
  pose proof (mark_loop_downed hi clk (objects s) (catalog_ s)) as Hd. destruct (mark_loop clk _ _) as [o n]. cbn in Hd |- *.
  unfold with_objects. apply (sim_downed t hi next s sp); try done; [apply Hi| |apply Hi].
  apply Hd; [|lia]. intros m p. destruct (Hw m p). lia.
Qed.

Lemma sim_clean t hi next s sp clk :
  cat_inv t next s → sees s sp → t ≤ hi < 2 ^ 62 → in_window t hi clk →
  similar hi (catalog_op (next, s) (OClean clk)) (spec_op (next, sp) (OClean clk)).
Proof.
  intros Hi Hs Ht Hw. pose proof (ci_time _ _ _ Hi) as H0. cbn [catalog_op spec_op]. unfold cleanExpiredInstances.
  destruct (clean_loop_spec hi clk (objects s) (catalog_ s)) as (H1 & H2 & H3);
    [intros m p; destruct (Hw m p); lia|lia|apply Hi|].
  destruct (clean_loop clk _ _) as [[c' o'] n]. cbn [fst snd] in *.
  apply (sim_downed t hi next s sp); try done; [by eapply sorted_sub; [|apply Hi]| | |].
  - intros m p. rewrite H3. intros Hp%list_elem_of_In. apply filter_In in Hp as [Hp _]. by apply list_elem_of_In.
  - intros m. rewrite H3. apply NoDup_ListNoDup, List.NoDup_filter, NoDup_ListNoDup, Hi.
  - intros m. rewrite H3, Hs. symmetry. apply leases_filter. intros p Hp.
    destruct (ci_objs _ _ _ Hi _ _ Hp) as (_ & mt & Hm & Hok).
    destruct (healthy_lease t hi (objects s) p (clk m p) mt Hm Hok (Hw _ _) (proj2 Ht)) as [_ H].
    rewrite H. unfold lease_of. by rewrite Hm.
Qed.

(** ** Refinement *)

Lemma op_similar t hi next s sp o :
  cat_inv t next s → sees s sp → t ≤ hi < 2 ^ 62 → op_window t hi o →
  similar hi (catalog_op (next, s) o) (spec_op (next, sp) o).
Proof.
  intros Hi Hs Hh Hw. destruct o; [by eapply sim_register|by eapply sim_deregister|by eapply sim_heartbeat|by eapply sim_discover|
    by eapply sim_mark|by eapply sim_clean].
Qed.

Lemma run_similar ops t next s sp :
  cat_inv t next s → sees s sp → timed t ops → run catalog_op (next, s) ops = run spec_op (next, sp) ops.
Proof.
  revert t next s sp. induction ops as [|o ops IH]; intros t next s sp Hi Hs Ht; [done|]. destruct Ht as (hi & Hh & Hw & Ht).
  pose proof (op_similar t hi next s sp o Hi Hs Hh Hw) as Hsim.
  cbn [run]. destruct (catalog_op _ o) as [r [n1 s1]], (spec_op _ o) as [r' [n2 sp1]], Hsim as (H1 & H2 & H3 & H4).
  cbn in H1, H2, H3, H4. subst. f_equal. by apply (IH hi).
Qed.

Lemma catalog_new_inv : cat_inv 0 0 ServiceCatalog_new.
Proof. split; try done; [constructor|intros; cbn; constructor|intros ???; set_solver|intros ??; set_solver]. Qed.

(** C26: The catalog implements leases.  In any sequence of registrations,
    renewals, removals, lookups and health checks whose clock does not run
    backwards, every operation returns what the specification returns: a lookup
    finds exactly the instances whose lease runs, in the order of registration.
    Marking instances down is invisible, an instance that was marked and sends
    a heartbeat is found again, and one that was cleaned is gone. *)
Theorem catalog_refines_leases (ops : list Op) (Ht : timed 0 ops) :
  run catalog_op (0%nat, ServiceCatalog_new) ops = run spec_op (0%nat, λ _, []) ops.
Proof. by apply (run_similar ops 0); [exact catalog_new_inv| |]. Qed.

(** ** Examples *)

Definition users : ServiceKey := mkKey #"default" #"users" #"v1".
Definition at_time (t : Z) : Clock := λ _ _, t.
Definition instance_of (id : str) (ttl : Z) : InstanceMeta := mkInstance id #"10.0.0.1" 80 1 0 ttl #"STARTING" ∅.

(** Two instances; the second misses its heartbeats, is marked down and comes
    back. *)
Definition sample_ops : list Op :=
  [ORegister users (instance_of #"a" 30) 1000 (at_time 1000); ORegister users (instance_of #"b" 10) 2000 (at_time 2000);
   ODiscover users (at_time 12000); OHeartbeat users #"a" (at_time 12000); OMark (at_time 12001);
   ODiscover users (at_time 12001); OHeartbeat users #"b" (at_time 13000); ODiscover users (at_time 13000);
   OClean (at_time 42500); ODiscover users (at_time 42500); OHeartbeat users #"b" (at_time 42600)].

Ltac window t := exists t; split; [lia|]; split; [unfold in_window, at_time; cbn; repeat split; intros; lia|].

Lemma catalog_refines_leases_witness :
  run catalog_op (0%nat, ServiceCatalog_new) sample_ops = run spec_op (0%nat, λ _, []) sample_ops.
Proof.
  apply catalog_refines_leases. unfold sample_ops. cbn [timed op_window].
  window 1000. window 2000. window 12000. window 12000. window 12001. window 12001. window 13000. window 13000.
  window 42500. window 42500. window 42600. exact I.
Defined.

Example sample_found :
  (λ r, match r with RFound l => l_id <$> l | _ => [] end) <$> run catalog_op (0%nat, ServiceCatalog_new) sample_ops =
  [[]; []; [ #"a"; #"b"]; []; []; [ #"a"]; []; [ #"a"; #"b"]; []; []; []].
Proof. vm_compute. reflexivity. Qed.

(** A time to live of 25 days or more overflows: [int] milliseconds end at
    about 24.8 days, and the instance counts as expired at once. *)
Example long_ttl_expires_at_once : isExpired (beat (instance_of #"a" 2160000) 1000) 1000 = true.
Proof. vm_compute. reflexivity. Qed.

(** Two keys that [operator==] tells apart have the same text, and share an
    entry of the catalog. *)
Example keys_collide :
  let k1 := mkKey #"a:b" #"c" #"v1" in let k2 := mkKey #"a" #"b:c" #"v1" in
  let s := (registerInstance (mkCatalog [] {[ 0%nat := beat (instance_of #"i" 30) 0 ]}) k1 0 (at_time 0)).2 in
  k1 ≠ k2 ∧ discover s k2 (at_time 0) = [0%nat].
Proof. split; [by apply (bool_decide_unpack _)|vm_compute; reflexivity]. Qed.

(** The callback of the health check is called with every instance that is
    down, not with those that were found expired just now. *)
Example callback_repeats_old_ones :
  let s0 := mkCatalog [] {[ 0%nat := beat (instance_of #"a" 10) 0; 1%nat := beat (instance_of #"b" 20) 0 ]} in
  let s1 := (registerInstance (registerInstance s0 users 0 (at_time 0)).2 users 1 (at_time 0)).2 in
  let '(_, r1, s2) := checkOnce s1 (at_time 15000) in
  let '(n, r2, _) := checkOnce s2 (at_time 25000) in
  (r1, n, r2) = (Some [ #"a"], 1, Some [ #"a"; #"b"]).
Proof. vm_compute. reflexivity. Qed.
