(* ===== verification/ServiceLeases.v ===== *)
(** * ServiceLeases: one instance of the registry, from its heartbeats

    What [src/registry/ServiceCatalog.h], with the health checks of
    [src/registry/HealthChecker.h] and the heartbeats of any number of other
    instances interleaved, promises to one registered instance and to those who
    look it up: it is found while its heartbeats come in time, and only then. *)

From S2P Require Import Prelude ServiceCatalog.

Open Scope Z_scope.

(** ** The instance seen on its own *)

Section instance.
(** The text of the service's key, the instance's identifier, its pointer and
    its time to live. *)
Context (n id : str) (p : nat) (ttl : Z).

Definition mine (k : ServiceKey) (id' : str) : bool := bool_decide (key k = n) && bool_decide (id' = id).

Definition in_time (last : option Z) (now : Z) : bool := match last with Some b => now <=? b + ttl * 1000 | None => false end.

(** The time of the last heartbeat after an operation, as long as the instance
    is there at all: a clean-up takes it when its time is over. *)
Definition after (last : option Z) (o : Op) : option Z :=
  match o with
  | OHeartbeat k id' clk => if mine k id' then (λ _, clk n p) <$> last else last
  | OClean clk => if in_time last (clk n p) then last else None
  | _ => last
  end.

(** What an operation should tell of the instance: a lookup of its service,
    whether it is found; its heartbeat, whether it is known. *)
Definition due (last : option Z) (o : Op) : option bool :=
  match o with
  | ODiscover k clk => if bool_decide (key k = n) then Some (in_time last (clk n p)) else None
  | OHeartbeat k id' _ => if mine k id' then Some (bool_decide (is_Some last)) else None
  | _ => None
  end.

Fixpoint watch (last : option Z) (ops : list Op) : list (option bool) :=
  match ops with [] => [] | o :: ops => due last o :: watch (after last o) ops end.

(** What the results do tell of it. *)
Definition told (o : Op) (r : Result) : option bool :=
  match o, r with
  | ODiscover k _, RFound l => if bool_decide (key k = n) then Some (existsb (lease_id id) l) else None
  | OHeartbeat k id' _, RBool b => if mine k id' then Some b else None
  | _, _ => None
  end.

(** Nobody registers or removes an instance of this identifier. *)
Definition untouched (o : Op) : bool :=
  match o with
  | ORegister k m _ _ => negb (mine k (instanceId m))
  | ODeregister k id' => negb (mine k id')
  | _ => true
  end.

(** Every lookup of its service, and every clean-up, comes at most a time to
    live after the heartbeat before it. *)
Fixpoint attended (last : Z) (ops : list Op) : bool :=
  match ops with
  | [] => true
  | o :: ops =>
      (match o with
       | ODiscover k clk => negb (bool_decide (key k = n)) || (clk n p <=? last + ttl * 1000)
       | OClean clk => clk n p <=? last + ttl * 1000
       | _ => true
       end) && attended (match o with OHeartbeat k id' clk => if mine k id' then clk n p else last | _ => last end) ops
  end.

(** The lease of the instance, by the last heartbeat: the only one with its
    identifier. *)
Definition follows (s : Leases) (last : option Z) : Prop :=
  match last with
  | Some b => ∃ x, List.filter (lease_id id) (s n) = [x] ∧ l_reg x = p ∧ l_ttl x = ttl ∧ l_beat x = b
  | None => List.filter (lease_id id) (s n) = []
  end.

(** ** Lists of leases *)

Lemma filter_on_first_other id' f l l' :
  id' ≠ id → (∀ x, lease_id id' x = true → List.filter (lease_id id) (f x) = []) →
  on_first id' f l = Some l' → List.filter (lease_id id) l' = List.filter (lease_id id) l.
Proof.
  intros Hne Hf. revert l'. induction l as [|x l IH]; intros l' H; [done|]. cbn [on_first] in H. destruct (lease_id id' x) eqn:E.
  - injection H as <-. rewrite List.filter_app, Hf by done. cbn. unfold lease_id in *. apply bool_decide_eq_true in E.
    by rewrite bool_decide_false by congruence.
  - destruct (on_first id' f l) as [l1|]; [|done]. injection H as <-. cbn. by rewrite (IH l1).
Qed.

Lemma on_first_absent f l : List.filter (lease_id id) l = [] → on_first id f l = None.
Proof. induction l as [|x l IH]; [done|]. cbn. destruct (lease_id id x); [done|]. intros H. by rewrite (IH H). Qed.

Lemma on_first_only f l x :
  List.filter (lease_id id) l = [x] → ∃ l', on_first id f l = Some l' ∧ List.filter (lease_id id) l' = List.filter (lease_id id) (f x).
Proof.
  induction l as [|y l IH]; [done|]. cbn. destruct (lease_id id y) eqn:E.
  - intros [= -> H]. eexists. split; [done|]. by rewrite List.filter_app, H, app_nil_r.
  - intros H. destruct (IH H) as (l' & -> & H'). eexists. split; [done|]. cbn. by rewrite E.
Qed.

Lemma filter_swap {A} (f g : A → bool) l : List.filter f (List.filter g l) = List.filter g (List.filter f l).
Proof. induction l as [|x l IH]; [done|]. cbn. destruct (g x) eqn:Eg, (f x) eqn:Ef; cbn; rewrite ?Eg, ?Ef, ?IH; done. Qed.

Lemma existsb_filter {A} (f : A → bool) l : existsb f l = negb (bool_decide (List.filter f l = [])).
Proof. induction l as [|x l IH]; [done|]. cbn. by destruct (f x). Qed.

(** ** One operation *)

Lemma follows_list (s s' : Leases) last :
  List.filter (lease_id id) (s' n) = List.filter (lease_id id) (s n) → follows s last → follows s' last.
Proof. unfold follows. by intros ->. Qed.

Lemma follows_upd s last m l :
  (m = n → List.filter (lease_id id) l = List.filter (lease_id id) (s n)) → follows s last → follows (upd s m l) last.
Proof. intros H. apply follows_list. unfold upd. case_decide as E; [by apply H|done]. Qed.

Lemma mine_false k id' : mine k id' = false → key k = n → id' ≠ id.
Proof. unfold mine. intros H Hk ->. by rewrite !bool_decide_true in H. Qed.

Lemma mine_true k id' : mine k id' = true → key k = n ∧ id' = id.
Proof. unfold mine. rewrite andb_true_iff, !bool_decide_eq_true. done. Qed.

Lemma lease_id_spec id' x : lease_id id' x = true ↔ l_id x = id'.
Proof. apply bool_decide_eq_true. Qed.

Lemma filter_one f (x : Lease) : List.filter f [x] = if f x then [x] else [].
Proof. done. Qed.

(** An operation on another instance, or on another service. *)
Lemma other_upd s last k id' f l :
  mine k id' = false → (∀ x, lease_id id' x = true → ∀ y, y ∈ f x → l_id y = id') →
  on_first id' f (s (key k)) = Some l → follows s last → follows (upd s (key k) l) last.
Proof.
  intros Hm Hf Hl. apply follows_upd. intros Hk. rewrite Hk in Hl. pose proof (mine_false _ _ Hm Hk) as Hne.
  apply (filter_on_first_other id' f); [done| |done]. intros x Hx. specialize (Hf x Hx).
  induction (f x) as [|y ys IH]; [done|]. cbn. unfold lease_id at 1. rewrite bool_decide_false; [apply IH; set_solver|].
  rewrite (Hf y) by set_solver. done.
Qed.

Lemma register_told next s last k m now clk :
  mine k (instanceId m) = false → follows s last → follows (spec_op (next, s) (ORegister k m now clk)).2.2 last.
Proof.
  intros Hm Hs. cbn. destruct (on_first _ _ _) as [l|] eqn:E.
  - eapply other_upd; [done| |done|done]. intros x _ y Hy. apply list_elem_of_singleton in Hy as ->. done.
  - apply follows_upd; [|done]. intros Hk. rewrite Hk, List.filter_app, filter_one. unfold lease_id at 2. cbn.
    rewrite bool_decide_false by (by apply (mine_false k)). apply app_nil_r.
Qed.

Lemma deregister_told next s last k id' :
  mine k id' = false → follows s last → follows (spec_op (next, s) (ODeregister k id')).2.2 last.
Proof.
  intros Hm Hs. cbn. destruct (on_first _ _ _) as [l|] eqn:E; [|done].
  eapply other_upd; [done| |done|done]. intros x _ y Hy. by apply not_elem_of_nil in Hy.
Qed.

Lemma heartbeat_told next s last k id' clk :
  follows s last →
  let '(r, (_, s')) := spec_op (next, s) (OHeartbeat k id' clk) in
  told (OHeartbeat k id' clk) r = due last (OHeartbeat k id' clk) ∧ follows s' (after last (OHeartbeat k id' clk)).
Proof.
  intros Hs. cbn [spec_op told due after]. destruct (mine k id') eqn:Em.
  - apply mine_true in Em as [Hk ->]. rewrite Hk. unfold follows in Hs. destruct last as [b|]; cbn [fmap option_fmap option_map].
    + destruct Hs as (x & Hx & Hp & Ht & Hb). destruct (on_first_only (λ x, [renew x (clk n (l_reg x))]) _ _ Hx) as (l' & -> & H).
      cbn. split; [done|]. exists (renew x (clk n p)). unfold upd. rewrite decide_True by done.
      rewrite H, filter_one, Hp. unfold lease_id at 1. cbn [l_id renew].
      assert (Hi : x ∈ List.filter (lease_id id) (s n)) by (rewrite Hx; by apply list_elem_of_singleton).
      apply list_elem_of_In, filter_In, proj2, lease_id_spec in Hi. rewrite bool_decide_true by done. done.
    + rewrite (on_first_absent _ _ Hs). done.
  - destruct (on_first _ _ _) as [l|] eqn:E; cbn; rewrite ?Em; (split; [done|]); [|done].
    eapply other_upd; [done| |done|done]. intros x Hx y Hy. apply list_elem_of_singleton in Hy as ->. by apply lease_id_spec.
Qed.

Lemma over_in_time x now : l_ttl x = ttl → negb (over x now) = in_time (Some (l_beat x)) now.
Proof. intros Ht. unfold over, in_time. rewrite Ht. apply eq_true_iff_eq. rewrite negb_true_iff. lia. Qed.

Lemma clean_told s last (clk : Clock) :
  follows s last →
  follows (λ m, List.filter (λ l, negb (over l (clk m (l_reg l)))) (s m)) (after last (OClean clk)).
Proof.
  unfold follows. intros Hs. destruct last as [b|]; cbn [after].
  - destruct Hs as (x & Hx & Hp & Ht & Hb). rewrite filter_swap, Hx, filter_one, Hp, over_in_time, Hb by done.
    destruct (in_time (Some b) (clk n p)); [by exists x|done].
  - cbn [in_time]. by rewrite filter_swap, Hs.
Qed.

Lemma discover_told s last k clk :
  follows s last →
  told (ODiscover k clk) (RFound (List.filter (λ l, negb (over l (clk (key k) (l_reg l)))) (s (key k)))) = due last (ODiscover k clk).
Proof.
  unfold follows. intros Hs. cbn [told due]. case_bool_decide as Hk; [|done]. f_equal. rewrite Hk, existsb_filter, filter_swap.
  destruct last as [b|]; [|by rewrite Hs]. destruct Hs as (x & Hx & Hp & Ht & Hb).
  rewrite Hx, filter_one, Hp, over_in_time, Hb by done. by destruct (in_time (Some b) (clk n p)).
Qed.

Lemma spec_told next s last o :
  follows s last → untouched o = true →
  let '(r, (_, s')) := spec_op (next, s) o in told o r = due last o ∧ follows s' (after last o).
Proof.
  intros Hs Hu. destruct o as [k m now clk|k id'|k id' clk|k clk|clk|clk]; cbn [untouched] in Hu.
  - apply negb_true_iff in Hu. pose proof (register_told next s last k m now clk Hu Hs) as H.
    cbn [spec_op] in *. by destruct (on_first _ _ _).
  - apply negb_true_iff in Hu. pose proof (deregister_told next s last k id' Hu Hs) as H.
    cbn [spec_op] in *. by destruct (on_first _ _ _).
  - by apply heartbeat_told.
  - cbn [spec_op]. split; [by apply discover_told|done].
  - done.
  - cbn [spec_op]. split; [done|by apply clean_told].
Qed.

(** ** Histories *)

Lemma spec_watch ops next s last :
  follows s last → forallb untouched ops = true → zip_with told ops (run spec_op (next, s) ops) = watch last ops.
Proof.
  revert next s last. induction ops as [|o ops IH]; intros next s last Hs Hu; [done|]. cbn [forallb] in Hu.
  apply andb_prop in Hu as [Hu1 Hu2]. pose proof (spec_told next s last o Hs Hu1) as H. cbn [run watch].
  destruct (spec_op (next, s) o) as [r [next1 s1]]. destruct H as [H1 H2]. cbn [zip_with]. rewrite H1. f_equal. by apply IH.
Qed.

(** In time all answers are good. *)
Lemma watch_attended ops b : attended b ops = true → Forall (λ a, a ≠ Some false) (watch (Some b) ops).
Proof.
  revert b. induction ops as [|o ops IH]; intros b H; [constructor|]. cbn [attended] in H. apply andb_prop in H as [H1 H2].
  cbn [watch]. destruct o as [k m now clk|k id'|k id' clk|k clk|clk|clk]; cbn [due after] in *;
    try (constructor; [done|by apply IH]).
  - destruct (mine k id'); (constructor; [done|by apply IH]).
  - constructor; [|by apply IH]. case_bool_decide; [|done]. cbn [negb orb] in H1. cbn. by rewrite H1.
  - constructor; [done|]. cbn [in_time]. rewrite H1. by apply IH.
Qed.

End instance.

(** ** From the registration on *)

Definition registrations (ops : list Op) : nat :=
  length (List.filter (λ o, match o with ORegister _ _ _ _ => true | _ => false end) ops).

Fixpoint exec {X} (step : X → Op → Result * X) (st : X) (ops : list Op) : X :=
  match ops with [] => st | o :: ops => exec step (step st o).2 ops end.

Lemma run_length {X} (step : X → Op → Result * X) st ops : length (run step st ops) = length ops.
Proof. revert st. induction ops as [|o ops IH]; intros st; [done|]. cbn. destruct (step st o). cbn. by rewrite IH. Qed.

Lemma results_app {X} (step : X → Op → Result * X) st ops1 ops2 :
  run step st (ops1 ++ ops2) = run step st ops1 ++ run step (exec step st ops1) ops2.
Proof. revert st. induction ops1 as [|o ops1 IH]; intros st; [done|]. cbn. destruct (step st o). cbn. by rewrite IH. Qed.

(** No identifier occurs twice in a service. *)
Definition unique (s : Leases) : Prop := ∀ n id, (length (List.filter (lease_id id) (s n)) ≤ 1)%nat.

Lemma filter_le {A} (f g : A → bool) l : (length (List.filter f (List.filter g l)) ≤ length (List.filter f l))%nat.
Proof. induction l as [|x l IH]; [done|]. cbn. destruct (g x), (f x) eqn:E; cbn; rewrite ?E; cbn; lia. Qed.

Lemma on_first_le id f l l' id1 :
  (∀ x, lease_id id x = true → (length (List.filter (lease_id id1) (f x)) ≤ if lease_id id1 x then 1 else 0)%nat) →
  on_first id f l = Some l' → (length (List.filter (lease_id id1) l') ≤ length (List.filter (lease_id id1) l))%nat.
Proof.
  intros Hf. revert l'. induction l as [|x l IH]; intros l' H; [done|]. cbn in H. destruct (lease_id id x) eqn:E.
  - injection H as <-. specialize (Hf x E). rewrite List.filter_app, length_app. cbn. destruct (lease_id id1 x); cbn; lia.
  - destruct (on_first id f l) as [l1|]; [|done]. injection H as <-. specialize (IH l1 eq_refl). cbn.
    destruct (lease_id id1 x); cbn; lia.
Qed.

(** A lease put in the place of one with the same identifier. *)
Lemma one_for_one id (y x : Lease) id1 :
  l_id y = id → lease_id id x = true → (length (List.filter (lease_id id1) [y]) ≤ if lease_id id1 x then 1 else 0)%nat.
Proof. intros Hy Hx. apply lease_id_spec in Hx. rewrite filter_one. unfold lease_id. rewrite Hy, Hx. by case_bool_decide. Qed.

Lemma on_first_none_absent id f l : on_first id f l = None → List.filter (lease_id id) l = [].
Proof. induction l as [|x l IH]; [done|]. cbn. destruct (lease_id id x); [done|]. destruct (on_first id f l); [done|]. intros _. by apply IH. Qed.

Lemma unique_upd s m l : unique s → (∀ id, (length (List.filter (lease_id id) l) ≤ 1)%nat) → unique (upd s m l).
Proof. intros Hs Hl n id. unfold upd. case_decide; [apply Hl|apply Hs]. Qed.

Lemma unique_step next s o : unique s → unique (spec_op (next, s) o).2.2.
Proof.
  intros Hs. destruct o as [k m now clk|k id'|k id' clk|k clk|clk|clk]; cbn [spec_op].
  - destruct (on_first _ _ _) as [l|] eqn:E; cbn [snd]; (apply unique_upd; [done|]); intros id1.
    + etransitivity; [|exact (Hs (key k) id1)]. refine (on_first_le _ _ _ _ _ _ E). intros x Hx. by apply (one_for_one (instanceId m)).
    + rewrite List.filter_app, length_app, filter_one. unfold lease_id at 2. cbn [l_id]. case_bool_decide as Ei; cbn [length].
      * rewrite <-Ei, (on_first_none_absent _ _ _ E). cbn. lia.
      * specialize (Hs (key k) id1). lia.
  - destruct (on_first _ _ _) as [l|] eqn:E; cbn [snd]; [|done]. apply unique_upd; [done|]. intros id1.
    etransitivity; [|exact (Hs (key k) id1)]. refine (on_first_le _ _ _ _ _ _ E). intros x _. cbn. lia.
  - destruct (on_first _ _ _) as [l|] eqn:E; cbn [snd]; [|done]. apply unique_upd; [done|]. intros id1.
    etransitivity; [|exact (Hs (key k) id1)]. refine (on_first_le _ _ _ _ _ _ E). intros x Hx.
    apply (one_for_one id'); [by apply lease_id_spec|done].
  - done.
  - done.
  - cbn. intros n id. etransitivity; [apply filter_le|apply Hs].
Qed.

Lemma exec_spec ops next s :
  unique s → ∃ s', exec spec_op (next, s) ops = ((next + registrations ops)%nat, s') ∧ unique s'.
Proof.
  revert next s. induction ops as [|o ops IH]; intros next s Hs.
  - exists s. cbn. by rewrite Nat.add_0_r.
  - pose proof (unique_step next s o Hs) as Hs1. cbn [exec].
    assert (E : (spec_op (next, s) o).2.1 = (next + registrations [o])%nat).
    { destruct o; cbn [spec_op]; try (destruct (on_first _ _ _)); unfold registrations; cbn; lia. }
    destruct (spec_op (next, s) o) as [r [next1 s1]]. cbn [snd fst] in *. subst next1. destruct (IH (next + registrations [o])%nat s1 Hs1) as (s' & -> & H).
    exists s'. split; [|done]. f_equal. unfold registrations. cbn. destruct o; cbn; lia.
Qed.

Lemma registered_follows next s k m now clk :
  unique s → ∃ b, (b = now ∨ b = clk (key k) next) ∧
  follows (key k) (instanceId m) next (ttlSeconds m) (spec_op (next, s) (ORegister k m now clk)).2.2 (Some b).
Proof.
  intros Hs. cbn [spec_op]. destruct (on_first _ _ _) as [l|] eqn:E; cbn [snd].
  - exists (clk (key k) next). split; [by right|]. unfold follows, upd. rewrite decide_True by done.
    specialize (Hs (key k) (instanceId m)). destruct (List.filter (lease_id (instanceId m)) (s (key k))) as [|x [|? ?]] eqn:Ef;
      [by rewrite (on_first_absent _ _ _ Ef) in E| |cbn in Hs; lia].
    destruct (on_first_only (instanceId m) (λ _, [renew (mkLease next (instanceId m) (host m, port m, weight m) (ttlSeconds m) now) (clk (key k) next)]) _ _ Ef)
      as (l' & El & Hl). rewrite E in El. injection El as <-. rewrite Hl, filter_one. unfold lease_id. cbn [renew l_id].
    rewrite bool_decide_true by done. by eexists.
  - exists now. split; [by left|]. unfold follows, upd. rewrite decide_True by done.
    rewrite List.filter_app, (on_first_none_absent _ _ _ E), filter_one. unfold lease_id. cbn [l_id]. rewrite bool_decide_true by done. by eexists.
Qed.

Lemma drop_past {A} (l : list A) r l' k : length l = k → drop (S k) (l ++ r :: l') = l'.
Proof. intros <-. rewrite cons_middle, app_assoc. apply drop_app_length'. rewrite length_app. cbn. lia. Qed.

(** C27: An instance of the registry is found while its heartbeats come in time,
    and only then.  Take any history of the catalog whose clock does not run
    backwards, with registrations, removals, heartbeats and lookups of any
    instances and health checks in between, and a registration in it after
    which nobody registers or removes that identifier.  What the later results
    tell of the instance is what [watch] computes from its own heartbeats and
    the clean-ups alone, starting at the time of the registration: a lookup
    finds it exactly when its time to live since the last heartbeat is not
    over and no clean-up has come after that time; marking down changes nothing.
    So while no lookup and no clean-up comes later than its time to live after
    the last heartbeat, every lookup of the service finds it and every
    heartbeat is accepted. *)
Theorem found_while_it_beats (ops1 ops2 : list Op) (k : ServiceKey) (m : InstanceMeta) (now : Z) (clk : Clock)
    (Ht : timed 0 (ops1 ++ ORegister k m now clk :: ops2))
    (Hu : forallb (untouched (key k) (instanceId m)) ops2 = true) :
  let p := registrations ops1 in
  let results := run catalog_op (0%nat, ServiceCatalog_new) (ops1 ++ ORegister k m now clk :: ops2) in
  let answers := zip_with (told (key k) (instanceId m)) ops2 (drop (S (length ops1)) results) in
  ∃ b, (b = now ∨ b = clk (key k) p) ∧
    answers = watch (key k) (instanceId m) p (ttlSeconds m) (Some b) ops2 ∧
    (attended (key k) (instanceId m) p (ttlSeconds m) b ops2 = true → Forall (λ a, a ≠ Some false) answers).
Proof.
  cbn zeta. rewrite (run_similar _ 0 _ _ (λ _, []) catalog_new_inv); [|done|done]. rewrite results_app.
  destruct (exec_spec ops1 0%nat (λ _, [])) as (s & -> & Hs); [by intros ??; cbn; lia|]. cbn [Nat.add].
  destruct (registered_follows (registrations ops1) s k m now clk Hs) as (b & Hb & Hf). exists b. split; [done|].
  cbn [run]. destruct (spec_op _ (ORegister _ _ _ _)) as [r [next1 s1]]. cbn [snd] in Hf.
  rewrite drop_past by apply run_length. rewrite (spec_watch _ _ _ _ _ _ _ _ Hf Hu). split; [done|]. apply watch_attended.
Qed.

(** ** Example *)

(** A first history that ends with an instance of the same identifier, marked
    down. *)
Definition before : list Op :=
  [ORegister users (instance_of #"b" 30) 500 (at_time 500); ORegister users (instance_of #"a" 10) 1000 (at_time 1000);
   OMark (at_time 12000)].

Definition sample : InstanceMeta := instance_of #"a" 10.

(** Registered at 20 s for 10 s: a heartbeat in time, one that comes late after
    a mark and is accepted, one that comes after a clean-up. *)
Definition sample_after : list Op :=
  [ODiscover users (at_time 30000); OHeartbeat users #"a" (at_time 30000); ODeregister users #"b"; ODiscover users (at_time 40000);
   OMark (at_time 40001); ODiscover users (at_time 40001); OHeartbeat users #"a" (at_time 41000); ODiscover users (at_time 41000);
   OClean (at_time 51001); OHeartbeat users #"a" (at_time 51002)].

Definition sample_answers : list (option bool) :=
  zip_with (told (key users) (instanceId sample)) sample_after
    (drop 4 (run catalog_op (0%nat, ServiceCatalog_new) (before ++ ORegister users sample 20000 (at_time 20000) :: sample_after))).

Lemma found_while_it_beats_witness :
  ∃ b, (b = 20000 ∨ b = 20000) ∧
    sample_answers = watch (key users) (instanceId sample) 2 (ttlSeconds sample) (Some b) sample_after ∧
    (attended (key users) (instanceId sample) 2 (ttlSeconds sample) b sample_after = true → Forall (λ a, a ≠ Some false) sample_answers).
Proof.
  apply (found_while_it_beats before sample_after users sample 20000 (at_time 20000)); [|reflexivity].
  cbn [app before sample_after timed op_window].
  window 500. window 1000. window 12000. window 20000. window 30000. window 30000. exists 30000. split; [lia|]. split; [exact I|].
  window 40000. window 40001. window 40001. window 41000. window 41000. window 51001. window 51002. exact I.
Defined.

Example sample_story :
  sample_answers = [Some true; Some true; None; Some true; None; Some false; Some true; Some true; None; Some false].
Proof. vm_compute. reflexivity. Qed.
