(* ===== verification/Registry.v ===== *)
(** * Registry: the registry server's handlers and the registry client

    Models [src/registry/RegistryServer.h], the JSON conversions of
    [src/registry/ServiceMeta.h] and [src/registry/RegistryClient.h].  The JSON
    library is not part of the repository: it is the class [Json], where
    [None] is an exception of the library ([dump] throws on a text that is not
    UTF-8), with the laws of building, dumping and parsing a value as
    [JsonLaws].  The client's results are taken from
    the reply's status and body here; its exchanges are in [RegistryClient.v]. *)

From S2P Require Import Prelude HttpRequest HttpResponse ServiceCatalog LoadBalancer.

Open Scope Z_scope.

(** ** nlohmann::json *)

(** Well-formed UTF-8: no overlong form, no surrogate, nothing above U+10FFFF. *)
Definition within (lo hi : Z) (c : ascii) : bool := (lo <=? u8_of c) && (u8_of c <=? hi).

Fixpoint utf8 (s : str) : bool :=
  match s with
  | [] => true
  | a :: s1 =>
      let n := u8_of a in
      if n <? 128 then utf8 s1
      else match s1 with
      | [] => false
      | b :: s2 =>
          if (194 <=? n) && (n <=? 223) then within 128 191 b && utf8 s2
          else match s2 with
          | [] => false
          | c :: s3 =>
              if (224 <=? n) && (n <=? 239) then
                within (if n =? 224 then 160 else 128) (if n =? 237 then 159 else 191) b && within 128 191 c && utf8 s3
              else match s3 with
              | [] => false
              | d :: s4 =>
                  (240 <=? n) && (n <=? 244) && within (if n =? 240 then 144 else 128) (if n =? 244 then 143 else 191) b &&
                  within 128 191 c && within 128 191 d && utf8 s4
              end
          end
      end
  end.

Class Json (J : Type) := {
  jstr : str → J;
  jint : Z → J;
  jbool : bool → J;
  jobj : list (str * J) → J;
  jarr : list J → J;
  dump : J → option str;                     (* None: type_error.316 *)
  parse : str → option J;
  what : str → str;                          (* what() of the exception that handling this text ends in *)
  member : J → str → option J;               (* operator[] *)
  value_str : J → str → str → option str;    (* value(key, default) *)
  value_int : J → str → Z → option Z;        (* as an int *)
  value_int64 : J → str → Z → option Z;
  value_bool : J → str → bool → option bool;
  elements : J → str → list J;                (* of a member that is an array; none when there is no member *)
  map_member : J → str → option (gmap str str) (* a member that is an object, as a map; empty when there is none *)
}.

Fixpoint assoc {X} (k : str) (l : list (str * X)) : option X :=
  match l with
  | [] => None
  | (k', v) :: l => if bool_decide (k' = k) then Some v else assoc k l
  end.

(** Objects are built with every key once.  [dumpable] values have UTF-8 texts
    only, integers of 64 bits, and no number that is not finite: they can be
    dumped, and come back. *)
Class JsonLaws (J : Type) `{Json J} := {
  dumpable : J → Prop;
  dumpable_str s : utf8 s = true → dumpable (jstr s);
  dumpable_int z : - 2 ^ 63 ≤ z < 2 ^ 63 → dumpable (jint z);
  dumpable_bool b : dumpable (jbool b);
  dumpable_obj l : NoDup l.*1 → Forall (λ kv, utf8 kv.1 = true ∧ dumpable kv.2) l → dumpable (jobj l);
  dump_parse j : dumpable j → ∃ t, dump j = Some t ∧ parse t = Some j;
  dump_str_throws s : utf8 s = false → dump (jstr s) = None;
  dump_obj_throws l k v : NoDup l.*1 → (k, v) ∈ l → utf8 k = false ∨ dump v = None → dump (jobj l) = None;
  parse_empty : parse [] = None;
  member_obj l k j : NoDup l.*1 → assoc k l = Some j → member (jobj l) k = Some j;
  value_str_obj l k d s : NoDup l.*1 → assoc k l = Some (jstr s) → value_str (jobj l) k d = Some s;
  value_str_default l k d : NoDup l.*1 → assoc k l = None → value_str (jobj l) k d = Some d;
  value_int_obj l k d z : NoDup l.*1 → assoc k l = Some (jint z) → - 2 ^ 31 ≤ z < 2 ^ 31 → value_int (jobj l) k d = Some z;
  value_int64_obj l k d z : NoDup l.*1 → assoc k l = Some (jint z) → - 2 ^ 63 ≤ z < 2 ^ 63 → value_int64 (jobj l) k d = Some z;
  map_member_none l k : NoDup l.*1 → assoc k l = None → map_member (jobj l) k = Some ∅;
  map_member_obj l k (m : gmap str str) :
    NoDup l.*1 → assoc k l = Some (jobj ((λ kv, (kv.1, jstr kv.2)) <$> map_to_list m)) → map_member (jobj l) k = Some m
}.

Section Registry.
Context {J : Type} `{Json J}.

(** ** Conversions *)

Definition key_toJson (k : ServiceKey) : J :=
  jobj [( #"namespace", jstr (namespace_ k)); ( #"serviceName", jstr (serviceName k)); ( #"version", jstr (ServiceCatalog.version k))].

Definition key_fromJson (j : J) : option ServiceKey :=
  n ← value_str j #"namespace" #"default";
  s ← value_str j #"serviceName" [];
  v ← value_str j #"version" #"v1.0.0";
  Some (mkKey n s v).

Definition instance_toJson (m : InstanceMeta) : J :=
  jobj ([( #"instanceId", jstr (instanceId m)); ( #"host", jstr (ServiceCatalog.host m)); ( #"port", jint (ServiceCatalog.port m));
         ( #"weight", jint (ServiceCatalog.weight m)); ( #"lastHeartbeatMs", jint (lastHeartbeatMs m));
         ( #"ttlSeconds", jint (ttlSeconds m)); ( #"status", jstr (status m))] ++
        if bool_decide (metadata m = ∅) then []
        else [( #"metadata", jobj ((λ kv, (kv.1, jstr kv.2)) <$> map_to_list (metadata m)))]).

Definition instance_fromJson (j : J) (now : Z) : option InstanceMeta :=
  id ← value_str j #"instanceId" [];
  h ← value_str j #"host" [];
  p ← value_int j #"port" 0;
  w ← value_int j #"weight" 1;
  b ← value_int64 j #"lastHeartbeatMs" now;
  t ← value_int j #"ttlSeconds" 30;
  st ← value_str j #"status" #"UP";
  md ← map_member j #"metadata";
  Some (mkInstance id h p w b t st md).

(** ** The server *)

Definition makeError (code : Z) (message : str) : option str :=
  dump (jobj [( #"success", jbool false); ( #"error", jobj [( #"code", jint code); ( #"message", jstr message)])]).

(** [resp.json(text)]: a static member function, whose result is a response of
    its own and is dropped.  When making the text throws there is no response:
    the exception leaves the handler. *)
Definition answer (resp : HttpResponse) (text : option str) : option HttpResponse :=
  t ← text; let _ := HttpResponse.json t in Some resp.

(** A text made inside [try], and the one that the [catch] makes. *)
Definition or_else (text caught : option str) : option str := match text with Some _ => text | None => caught end.

Definition generateInstanceId (k : ServiceKey) (m : InstanceMeta) (now : Z) : str :=
  serviceName k ++ #"-" ++ ServiceCatalog.host m ++ #"-" ++ to_string (ServiceCatalog.port m) ++ #"-" ++ to_string now.

(** [getQueryParam]: the first occurrence of the text, wherever it is. *)
Definition getQueryParam (path param dflt : str) : str :=
  match find [ "?"%char ] path 0 with
  | None => dflt
  | Some queryPos =>
      let query := drop (queryPos + 1) path in
      let searchKey := param ++ #"=" in
      match find searchKey query 0 with
      | None => dflt
      | Some pos =>
          let startPos := (pos + length searchKey)%nat in
          match find [ "&"%char ] query startPos with
          | None => drop startPos query
          | Some endPos => substr query startPos (endPos - startPos)
          end
      end
  end.

Definition set_id (m : InstanceMeta) (id : str) : InstanceMeta :=
  mkInstance id (ServiceCatalog.host m) (ServiceCatalog.port m) (ServiceCatalog.weight m) (lastHeartbeatMs m) (ttlSeconds m)
    (status m) (metadata m).

(** The next pointer and the catalog. *)
Definition Server : Type := nat * ServiceCatalog.

(** [now] is the clock of the handler, [clk] that of the catalog.  [None] for
    the response: an exception leaves the handler. *)
Definition handleRegister (s : Server) (req : HttpRequest) (resp : HttpResponse) (now : Z) (clk : Clock) : Server * option HttpResponse :=
  let caught := makeError (-32700) (#"Parse error: " ++ what (body req)) in
  match (b ← parse (body req); sj ← member b #"service"; k ← key_fromJson sj;
         ij ← member b #"instance"; m ← instance_fromJson ij now; Some (k, m)) with
  | None => (s, answer resp caught)
  | Some (k, m) =>
      let m1 := if bool_decide (instanceId m = []) then set_id m (generateInstanceId k m now) else m in
      let m2 := beat m1 now in
      let '(next, c) := s in
      let '(_, c1) := registerInstance (with_objects c (<[next := m2]> (ServiceCatalog.objects c))) k next clk in
      ((S next, c1), answer resp (or_else (dump (jobj [( #"success", jbool true); ( #"instanceId", jstr (instanceId m2))])) caught))
  end.

Definition with_service (req : HttpRequest) : option (ServiceKey * str) :=
  b ← parse (body req); sj ← member b #"service"; k ← key_fromJson sj; id ← value_str b #"instanceId" []; Some (k, id).

Definition handleDeregister (s : Server) (req : HttpRequest) (resp : HttpResponse) : Server * option HttpResponse :=
  match with_service req with
  | None => (s, answer resp (makeError (-32700) (#"Parse error")))
  | Some (k, id) =>
      if bool_decide (id = []) then
        (s, answer resp (or_else (makeError (-32602) (#"Missing instanceId")) (makeError (-32700) (#"Parse error"))))
      else let '(ok, c1) := deregisterInstance s.2 k id in
           ((s.1, c1), answer resp (or_else (dump (jobj [( #"success", jbool ok)])) (makeError (-32700) (#"Parse error"))))
  end.

Definition handleHeartbeat (s : Server) (req : HttpRequest) (resp : HttpResponse) (clk : Clock) : Server * option HttpResponse :=
  match with_service req with
  | None => (s, answer resp (makeError (-32700) (#"Parse error")))
  | Some (k, id) =>
      if bool_decide (id = []) then
        (s, answer resp (or_else (makeError (-32602) (#"Missing instanceId")) (makeError (-32700) (#"Parse error"))))
      else let '(ok, c1) := heartbeat s.2 k id clk in
           ((s.1, c1), answer resp (or_else (dump (jobj [( #"success", jbool ok)])) (makeError (-32700) (#"Parse error"))))
  end.

Definition instances_json (c : ServiceCatalog) (l : list nat) : J :=
  jarr (omap (λ p, instance_toJson <$> ServiceCatalog.objects c !! p) l).

(** The key a lookup is for; [None]: the service name is missing. *)
Definition discover_key (req : HttpRequest) : option ServiceKey :=
  let ns := getQueryParam (path req) #"namespace" #"default" in
  let name := getQueryParam (path req) #"serviceName" [] in
  let v := getQueryParam (path req) #"version" #"v1.0.0" in
  if bool_decide (name = []) then None else Some (mkKey ns name v).

Definition handleDiscover (s : Server) (req : HttpRequest) (resp : HttpResponse) (clk : Clock) : Server * option HttpResponse :=
  let caught := makeError (-32603) (#"Internal error") in
  match discover_key req with
  | None => (s, answer resp (or_else (makeError (-32602) (#"Missing serviceName")) caught))
  | Some k =>
      (s, answer resp (or_else (dump (jobj [( #"success", jbool true); ( #"service", key_toJson k);
                                            ( #"instances", instances_json s.2 (discover s.2 k clk))])) caught))
  end.

Definition handleGetAllServices (s : Server) (req : HttpRequest) (resp : HttpResponse) : Server * option HttpResponse :=
  let services := (λ kl : ServiceKey * list nat, jobj [( #"service", key_toJson kl.1); ( #"instances", instances_json s.2 kl.2)])
                    <$> getAllServices s.2 in
  (s, answer resp (dump (jobj [( #"success", jbool true); ( #"services", jarr services)]))).

Definition handleGetStats (s : Server) (req : HttpRequest) (resp : HttpResponse) (clk : Clock) : Server * option HttpResponse :=
  let st := getStats s.2 clk in
  (s, answer resp (dump (jobj [( #"success", jbool true);
    ( #"stats", jobj [( #"totalServices", jint (totalServices st)); ( #"totalInstances", jint (totalInstances st));
                      ( #"healthyInstances", jint (healthyInstances st)); ( #"expiredInstances", jint (expiredInstances st))])]))).

(** ** The client *)

(** What [SimpleHttpClient] reports of a reply. *)
Record Response := mkReply { r_status : Z; r_body : str; r_success : bool }.

Definition register_json (k : ServiceKey) (m : InstanceMeta) : J :=
  jobj [( #"service", key_toJson k); ( #"instance", instance_toJson m)].

Definition register_body (k : ServiceKey) (m : InstanceMeta) : option str := dump (register_json k m).

Definition instance_body (k : ServiceKey) (id : str) : option str :=
  dump (jobj [( #"service", key_toJson k); ( #"instanceId", jstr id)]).

(** [registerService], [deregisterService] and [sendHeartbeat] after the
    request. *)
Definition reply_ok (resp : Response) : bool :=
  r_success resp && match parse (r_body resp) with
                    | None => false
                    | Some j => default false (value_bool j #"success" false)
                    end.

Definition discover_path (k : ServiceKey) : str :=
  #"/api/v1/registry/discover?namespace=" ++ namespace_ k ++ #"&serviceName=" ++ serviceName k ++ #"&version=" ++
  ServiceCatalog.version k.

(** [selectInstance], once the instances are there: a balancer of its own for
    every call. *)
Definition selectInstance (strategy : Strategy) (draws : list (nat → nat)) (instances : list InstanceMeta) : option InstanceMeta :=
  match instances with
  | [] => None
  | _ =>
      let balancer := foldl (λ b m, addServer b (ServiceCatalog.host m) (ServiceCatalog.port m) (ServiceCatalog.weight m))
                        (LoadBalancer_new strategy draws) instances in
      match (select balancer).1 ≫= λ p, LoadBalancer.objects balancer !! p with
      | None => None
      | Some selected =>
          List.find (λ m, bool_decide (ServiceCatalog.host m = LoadBalancer.host selected) &&
                          (ServiceCatalog.port m =? LoadBalancer.port selected)) instances
      end
  end.
End Registry.

(** ** Registration through the wire format *)

(** The keys of a concrete object are different; each of its members. *)
Ltac no_dup := by apply (bool_decide_unpack _).
Ltac each_field tac := repeat (apply Forall_cons; split; [split; [reflexivity|cbn [snd]; tac]|]); try apply Forall_nil_2.

Section Laws.
Context {J : Type} `{JsonLaws J}.

Lemma key_roundtrip (k : ServiceKey) : key_fromJson (key_toJson k) = Some k.
Proof.
  unfold key_fromJson, key_toJson. destruct k as [n s v]. set (l := [_; _; _]).
  assert (Hnd : NoDup l.*1) by (by apply (bool_decide_unpack _)).
  rewrite (value_str_obj l #"namespace" _ n), (value_str_obj l #"serviceName" _ s), (value_str_obj l #"version" _ v) by done. done.
Qed.

(** The values are in the range of their types. *)
Definition fits (m : InstanceMeta) : Prop :=
  let int z := - 2 ^ 31 ≤ z < 2 ^ 31 in
  int (ServiceCatalog.port m) ∧ int (ServiceCatalog.weight m) ∧ int (ttlSeconds m) ∧ - 2 ^ 63 ≤ lastHeartbeatMs m < 2 ^ 63.

Lemma instance_roundtrip (m : InstanceMeta) (now : Z) : fits m → instance_fromJson (instance_toJson m) now = Some m.
Proof.
  unfold instance_fromJson, instance_toJson. destruct m as [id h p w b t st md]. intros (Hp & Hw & Ht & Hb).
  cbn [ServiceCatalog.host ServiceCatalog.port ServiceCatalog.weight instanceId lastHeartbeatMs ttlSeconds status metadata] in *.
  set (l := _ ++ _). assert (Hnd : NoDup l.*1) by (unfold l; case_bool_decide; by apply (bool_decide_unpack _)).
  rewrite (value_str_obj l #"instanceId" _ id), (value_str_obj l #"host" _ h), (value_int_obj l #"port" _ p),
    (value_int_obj l #"weight" _ w), (value_int64_obj l #"lastHeartbeatMs" _ b), (value_int_obj l #"ttlSeconds" _ t),
    (value_str_obj l #"status" _ st) by done. cbn [mbind option_bind].
  assert (Hm : map_member (jobj l) #"metadata" = Some md); [|by rewrite Hm].
  unfold l in *. case_bool_decide as E; [by rewrite map_member_none, E|by rewrite (map_member_obj _ _ md)].
Qed.

(** The texts are UTF-8. *)
Definition utf8_key (k : ServiceKey) : bool := utf8 (namespace_ k) && utf8 (serviceName k) && utf8 (ServiceCatalog.version k).
Definition utf8_instance (m : InstanceMeta) : bool :=
  utf8 (instanceId m) && utf8 (ServiceCatalog.host m) && utf8 (status m) &&
  forallb (λ kv : str * str, utf8 kv.1 && utf8 kv.2) (map_to_list (metadata m)).

Lemma key_dumpable k : utf8_key k = true → dumpable (key_toJson k).
Proof.
  unfold utf8_key, key_toJson. rewrite !andb_true_iff. intros [[H1 H2] H3].
  apply dumpable_obj; [no_dup|]. each_field ltac:(by apply dumpable_str).
Qed.

Lemma metadata_dumpable (m : gmap str str) :
  forallb (λ kv : str * str, utf8 kv.1 && utf8 kv.2) (map_to_list m) = true →
  dumpable (jobj ((λ kv : str * str, (kv.1, jstr kv.2)) <$> map_to_list m)).
Proof.
  intros Hm. apply dumpable_obj.
  - rewrite <-list_fmap_compose. exact (NoDup_fst_map_to_list m).
  - rewrite Forall_fmap, Forall_forall. rewrite forallb_forall in Hm. intros kv Hkv%list_elem_of_In. apply Hm in Hkv.
    apply andb_prop in Hkv as [H1 H2]. split; [done|by apply dumpable_str].
Qed.

Lemma instance_dumpable m : fits m → utf8_instance m = true → dumpable (instance_toJson m).
Proof.
  intros (Hp & Hw & Ht & Hb). unfold utf8_instance, instance_toJson. rewrite !andb_true_iff. intros [[[H1 H2] H3] H4].
  apply dumpable_obj; [case_bool_decide; no_dup|]. apply Forall_app. split.
  - each_field ltac:(first [by apply dumpable_str|apply dumpable_int; lia]).
  - case_bool_decide; [constructor|]. each_field ltac:(by apply metadata_dumpable).
Qed.

(** Well-formed texts can be sent, and are read back. *)
Lemma register_body_text k m : fits m → utf8_key k = true → utf8_instance m = true →
  ∃ t, register_body k m = Some t ∧ parse t = Some (register_json k m).
Proof.
  intros Hf Hk Hm. apply dump_parse, dumpable_obj; [no_dup|].
  apply Forall_cons; split; [split; [reflexivity|by apply key_dumpable]|].
  apply Forall_cons; split; [split; [reflexivity|by apply instance_dumpable]|apply Forall_nil_2].
Qed.

(** An ill-formed text of the key or the instance's id is an exception of
    [registerService], [deregisterService] and [sendHeartbeat]. *)
Lemma ill_formed_throws k m :
  utf8_key k = false ∨ utf8 (instanceId m) = false → register_body k m = None ∧ instance_body k (instanceId m) = None.
Proof.
  intros H1. assert (Hk : utf8_key k = false → dump (key_toJson k) = None).
  { unfold utf8_key, key_toJson. rewrite !andb_false_iff. intros [[Hn|Hn]|Hn].
    - eapply dump_obj_throws; [no_dup|by left|]. right. by apply dump_str_throws.
    - eapply dump_obj_throws; [no_dup|by right; left|]. right. by apply dump_str_throws.
    - eapply dump_obj_throws; [no_dup|by right; right; left|]. right. by apply dump_str_throws. }
  unfold register_body, register_json, instance_body. destruct H1 as [H1|H1].
  - split; (eapply dump_obj_throws; [no_dup|by left|right; by apply Hk]).
  - split; (eapply dump_obj_throws; [no_dup|by right; left|right]); [|by apply dump_str_throws].
    unfold instance_toJson. eapply dump_obj_throws; [case_bool_decide; no_dup|by left|right; by apply dump_str_throws].
Qed.

(** The reply to a registration can be made, and errors with a plain text. *)
Lemma answer_some resp j : dumpable j → ∀ caught, answer resp (or_else (dump j) caught) = Some resp.
Proof. intros Hj caught. destruct (dump_parse j Hj) as (t & -> & _). done. Qed.

(** What the handler does with the body of a registration: the response is
    returned as it came. *)
Lemma register_effect (next : nat) (c : ServiceCatalog) (req : HttpRequest) (resp : HttpResponse) (k : ServiceKey) (m : InstanceMeta)
    (now : Z) (clk : Clock) : parse (body req) = Some (register_json k m) → instanceId m ≠ [] → utf8 (instanceId m) = true → fits m →
  handleRegister (next, c) req resp now clk = ((catalog_op (next, c) (ORegister k m now clk)).2, Some resp).
Proof.
  intros Hreq Hid Hu Hfit.
  unfold handleRegister. rewrite Hreq. cbn [mbind option_bind]. unfold register_json.
  rewrite (member_obj _ #"service" (key_toJson k)) by (done || no_dup). cbn [mbind option_bind]. rewrite key_roundtrip.
  cbn [mbind option_bind]. rewrite (member_obj _ #"instance" (instance_toJson m)) by (done || no_dup). cbn [mbind option_bind].
  rewrite instance_roundtrip by done. cbn [mbind option_bind]. rewrite bool_decide_false by done. cbn [catalog_op].
  destruct (registerInstance _ k next clk) as [b c1]. rewrite answer_some; [done|].
  apply dumpable_obj; [no_dup|]. each_field ltac:(first [by apply dumpable_bool|by apply dumpable_str]).
Qed.

(** A registration arrives as it was sent, and is reported as failed.  What
    [registerService] puts on the wire, for well-formed texts, makes the handler
    register exactly the client's instance, with a fresh heartbeat, under the
    client's key, as [ORegister] of the catalog's specification; but the reply
    has no body, and [registerService] takes an empty body for a failure. *)
Theorem registration_arrives (next : nat) (c : ServiceCatalog) (req : HttpRequest) (k : ServiceKey) (m : InstanceMeta)
    (now : Z) (clk : Clock) (Hid : instanceId m ≠ []) (Hfit : fits m) (Hk : utf8_key k = true) (Hm : utf8_instance m = true) :
  ∃ text, register_body k m = Some text ∧
    (body req = text →
     handleRegister (next, c) req HttpResponse_new now clk = ((catalog_op (next, c) (ORegister k m now clk)).2, Some HttpResponse_new) ∧
     reply_ok (mkReply 200 (rbody HttpResponse_new) true) = false).
Proof.
  destruct (register_body_text k m Hfit Hk Hm) as (text & Ht & Hp). exists text. split; [done|]. intros Hreq.
  split; [|unfold reply_ok; cbn; by rewrite parse_empty].
  apply register_effect; [by rewrite Hreq|done| |done]. unfold utf8_instance in Hm. rewrite !andb_true_iff in Hm. by destruct Hm as [[[? _] _] _].
Qed.
End Laws.

(** ** Lookups *)

Definition plain_text (v : str) : Prop := Forall (.∉ [ "?"%char; "&"%char; "="%char]) v.

Lemma find0_before c s n : find0 [c] s = Some n → c ∉ take n s.
Proof.
  revert n. induction s as [|d s IH]; intros n; cbn [find0 prefixb]; [done|].
  destruct (decide (c = d)) as [->|Hne].
  - rewrite bool_decide_true by done. cbn. intros [= <-]. set_solver.
  - rewrite bool_decide_false by done. cbn [andb]. destruct (find0 [c] s) as [k|]; [|done]. intros [= <-].
    cbn [take]. apply not_elem_of_cons. split; [done|]. by apply IH.
Qed.

Lemma set_target_path r full : "?"%char ∉ path (set_target r full).
Proof.
  unfold set_target. rewrite find_0. destruct (find0 _ full) as [n|] eqn:E.
  - unfold set_query, set_path. cbn [path]. by apply find0_before.
  - unfold set_path. cbn [path]. by apply find0_char_None.
Qed.

Lemma parsed_path r line r' : parseRequestLine r line = (true, r') → "?"%char ∉ path r'.
Proof.
  unfold parseRequestLine. destruct (find [SP] line 0) as [n|]; [|done]. destruct (find [SP] line (n + 1)) as [n'|]; [|done].
  intros [= <-]. apply set_target_path.
Qed.

Lemma plain_not c v : c ∈ [ "?"%char; "&"%char; "="%char] → plain_text v → c ∉ v.
Proof. intros Hc Hv Hin. by apply (proj1 (Forall_forall _ _) Hv c Hin). Qed.

(** *** Finding [name=] in a query *)

(** The value of the parameter that starts behind [pre]. *)
Lemma query_value base pre w v rest dflt :
  "?"%char ∉ base → plain_text v → match rest with [] => True | c :: _ => c = "&"%char end →
  find0 (w ++ #"=") (pre ++ w ++ #"=" ++ v ++ rest) = Some (length pre) →
  getQueryParam (base ++ #"?" ++ pre ++ w ++ #"=" ++ v ++ rest) w dflt = v.
Proof.
  intros Hb Hv Hr Hf. unfold getQueryParam. change (#"?" ++ ?x) with ("?"%char :: x).
  rewrite find_0, find0_char by done. rewrite <-drop_drop, drop_app_length. cbn [drop]. rewrite drop_0, find_0, Hf.
  rewrite length_app, Nat.add_assoc.
  replace (pre ++ w ++ #"=" ++ v ++ rest) with (((pre ++ w) ++ #"=") ++ v ++ rest) by (by rewrite <-!app_assoc).
  replace (length pre + length w + length (#"="))%nat with (length ((pre ++ w) ++ #"=")) by (rewrite !length_app; lia).
  rewrite find_app_r, drop_app_length.
  assert (Hamp : "&"%char ∉ v) by (apply plain_not; [rewrite !elem_of_cons; tauto|done]).
  destruct rest as [|c rest]; [rewrite app_nil_r, (proj2 (find0_char_None _ _)) by done; done|].
  subst c. rewrite find0_char by done. cbn [fmap option_fmap option_map].
  rewrite substr_app_r, Nat.add_comm, Nat.add_sub. apply take_app_length.
Qed.

Lemma not_suffix (y x w : str) n :
  n = length w → (length w ≤ length x)%nat → drop (length x - n) x ≠ w → ∀ z, y ++ x ≠ z ++ w.
Proof.
  intros -> Hl Hne z E. apply Hne. assert (Hlen : (length y + length x = length z + length w)%nat)
    by (rewrite <-!length_app; by rewrite E).
  apply (f_equal (drop (length y + (length x - length w)))) in E. rewrite <-drop_drop, drop_app_length in E. rewrite E.
  replace (length y + (length x - length w))%nat with (length z) by lia. apply drop_app_length.
Qed.

Lemma plain_cons c v : plain_text v → c ∈ [ "?"%char; "&"%char; "="%char] → c ∉ v.
Proof. intros ??. by apply plain_not. Qed.

(** What the handler would find in the path the client asks for. *)
Lemma discover_key_path (k : ServiceKey) (req : HttpRequest) :
  plain_text (namespace_ k) → plain_text (serviceName k) → plain_text (ServiceCatalog.version k) → serviceName k ≠ [] →
  path req = discover_path k → discover_key req = Some k.
Proof.
  intros Hn Hs Hv Hne Hp. unfold discover_key. rewrite Hp.
  set (base := #"/api/v1/registry/discover"). assert (Hb : "?"%char ∉ base) by (by apply (bool_decide_unpack _)).
  assert (Heq : ∀ v, plain_text v → "="%char ∉ v) by (intros; apply plain_not; [rewrite !elem_of_cons; tauto|done]).
  assert (Hns : ∀ z, #"namespace" ≠ z ++ #"serviceName")
    by (intros z E; apply (f_equal length) in E; rewrite length_app in E; cbn in E; lia).
  assert (Hnv : ∀ z, #"namespace" ≠ z ++ #"version") by (apply (not_suffix [] #"namespace" #"version" 7); [done|cbn; lia|done]).
  assert (Hsv : ∀ z, namespace_ k ++ #"&serviceName" ≠ z ++ #"version")
    by (apply (not_suffix _ #"&serviceName" #"version" 7); [done|cbn; lia|done]).
  assert (H1 : getQueryParam (discover_path k) #"namespace" #"default" = namespace_ k).
  { change (discover_path k) with (base ++ #"?" ++ [] ++ #"namespace" ++ #"=" ++ namespace_ k ++
      (#"&serviceName=" ++ serviceName k ++ #"&version=" ++ ServiceCatalog.version k)).
    apply query_value; [done|done|done|]. apply (find_key "="%char #"namespace" []); by apply (bool_decide_unpack _). }
  assert (H2 : getQueryParam (discover_path k) #"serviceName" [] = serviceName k).
  { replace (discover_path k) with (base ++ #"?" ++ (#"namespace=" ++ namespace_ k ++ #"&") ++ #"serviceName" ++ #"=" ++
      serviceName k ++ (#"&version=" ++ ServiceCatalog.version k)) by (unfold discover_path; cbn; by rewrite <-?app_assoc).
    apply query_value; [done|done|done|].
    change (find0 (#"serviceName" ++ [ "="%char ]) (#"namespace" ++ "="%char :: (namespace_ k ++ #"&") ++ #"serviceName" ++
      "="%char :: (serviceName k ++ #"&version=" ++ ServiceCatalog.version k)) = Some (length (#"namespace=" ++ namespace_ k ++ #"&"))).
    rewrite find_other; [|by apply (bool_decide_unpack _)|by apply (bool_decide_unpack _)|done].
    rewrite find_key; [done|by apply (bool_decide_unpack _)|].
    rewrite elem_of_app. intros [H|H]; [by apply (Heq (namespace_ k))|revert H; by apply (bool_decide_unpack _)]. }
  assert (H3 : getQueryParam (discover_path k) #"version" #"v1.0.0" = ServiceCatalog.version k).
  { replace (discover_path k) with (base ++ #"?" ++ (#"namespace=" ++ namespace_ k ++ #"&serviceName=" ++ serviceName k ++ #"&") ++
      #"version" ++ #"=" ++ ServiceCatalog.version k ++ []) by (unfold discover_path; cbn; by rewrite app_nil_r, <-?app_assoc; cbn; rewrite <-?app_assoc).
    apply query_value; [done|done|done|]. rewrite app_nil_r.
    replace ((#"namespace=" ++ namespace_ k ++ #"&serviceName=" ++ serviceName k ++ #"&") ++ #"version" ++ #"=" ++ ServiceCatalog.version k)
      with (#"namespace" ++ "="%char :: (namespace_ k ++ #"&serviceName") ++ "="%char :: (serviceName k ++ #"&") ++ #"version" ++
            "="%char :: ServiceCatalog.version k) by (cbn; by rewrite <-?app_assoc; cbn; rewrite <-?app_assoc).
    change (#"version" ++ #"=") with (#"version" ++ [ "="%char ]).
    rewrite find_other; [|by apply (bool_decide_unpack _)|by apply (bool_decide_unpack _)|done].
    rewrite find_other; [|by apply (bool_decide_unpack _)| |done].
    2: { rewrite elem_of_app. intros [H|H]; [by apply (Heq (namespace_ k))|revert H; by apply (bool_decide_unpack _)]. }
    rewrite find_key; [|by apply (bool_decide_unpack _)|].
    - cbn [fmap option_fmap option_map]. f_equal. rewrite !length_app. cbn. lia.
    - rewrite elem_of_app. intros [H|H]; [by apply (Heq (serviceName k))|revert H; by apply (bool_decide_unpack _)]. }
  rewrite H1, H2, H3, bool_decide_false by done. by destruct k.
Qed.

(** Why a lookup over HTTP finds nothing.  From the path that
    [discoverService] asks for the handler would get the client's key back, for
    any texts without delimiters; but the path of a parsed request never has
    its query, and without the query there is no service name. *)
Theorem discover_needs_query (k : ServiceKey)
    (Hn : plain_text (namespace_ k)) (Hs : plain_text (serviceName k)) (Hv : plain_text (ServiceCatalog.version k))
    (Hne : serviceName k ≠ []) :
  (∀ req, path req = discover_path k → discover_key req = Some k) ∧
  (∀ r line req, parseRequestLine r line = (true, req) → discover_key req = None).
Proof.
  split; [intros req; by apply discover_key_path|]. intros r line req Hr. apply parsed_path in Hr.
  unfold discover_key, getQueryParam. rewrite find_0, (proj2 (find0_char_None _ _)) by done. done.
Qed.

(** ** Choosing an instance *)

Lemma added_servers strategy draws l :
  let b := foldl (λ b m, addServer b (ServiceCatalog.host m) (ServiceCatalog.port m) (ServiceCatalog.weight m))
             (LoadBalancer_new strategy draws) l in
  next_object b = length l ∧ servers_ b = seq 0 (length l) ∧ strategyImpl_ b = createStrategy strategy draws ∧
  ∀ i m, l !! i = Some m → LoadBalancer.objects b !! i =
    Some (BackendServer_new (ServiceCatalog.host m) (ServiceCatalog.port m) (ServiceCatalog.weight m)).
Proof.
  induction l as [|x l IH] using rev_ind; [done|]. rewrite foldl_app. cbn [foldl]. destruct IH as (I1 & I2 & I3 & I4).
  set (b := foldl _ _ l) in *. unfold addServer at 1 2 3 4. cbn [next_object servers_ strategyImpl_ LoadBalancer.objects].
  rewrite I1, I2, length_app. cbn [length]. split; [lia|]. split; [by rewrite seq_app|]. split; [done|].
  intros i m Hi. destruct (decide (i = length l)) as [->|Hne].
  - rewrite lookup_insert_eq. rewrite list_lookup_middle in Hi by done. by injection Hi as ->.
  - rewrite lookup_insert_ne by done. apply I4. rewrite lookup_app_l in Hi; [done|].
    apply lookup_lt_Some in Hi. rewrite length_app in Hi. cbn in Hi. lia.
Qed.

Lemma first_stays st p0 c l :
  (∀ p s, p ∈ l → st !! p = Some s → connections s = c) → foldl (lc_body st) (Some p0, c) l = (Some p0, c).
Proof.
  induction l as [|p l IH]; intros Hc; [done|]. cbn [foldl].
  assert (E : lc_body st (Some p0, c) p = (Some p0, c)).
  { unfold lc_body. destruct (st !! p) as [s|] eqn:Es; [|done]. rewrite (Hc p s ltac:(left) Es). cbn [snd].
    by rewrite Z.ltb_irrefl, andb_false_r. }
  rewrite E. apply IH. intros q s Hq. apply Hc. by right.
Qed.

(** [selectInstance] does not spread its calls.  With a fresh balancer for
    every call, the round-robin and the least-connections strategy always
    choose the first of the instances. *)
Theorem select_always_first (strategy : Strategy) (draws : list (nat → nat)) (m : InstanceMeta) (l : list InstanceMeta)
    (Hs : strategy = RoundRobin ∨ strategy = LeastConnections) :
  selectInstance strategy draws (m :: l) = Some m.
Proof.
  unfold selectInstance. destruct (added_servers strategy draws (m :: l)) as (_ & H2 & H3 & H4).
  set (b := foldl _ _ _) in *. specialize (H4 0%nat m eq_refl) as H0.
  assert (Hsel : (select b).1 = Some 0%nat).
  { unfold select. rewrite H3. destruct Hs as [-> | ->]; cbn [createStrategy].
    - rewrite H2. cbn [length seq]. unfold rr_select, healthy_servers. cbn [List.filter].
      unfold is_healthy at 1. rewrite H0. cbn [healthy BackendServer_new]. by rewrite Z.mod_0_l by (unfold zlen; cbn; lia).
    - rewrite H2. unfold lc_select. cbn [length seq foldl]. unfold lc_body at 2. rewrite H0. cbn [healthy connections BackendServer_new].
      cbn [andb snd]. replace (0 <? INT32_MAX) with true by reflexivity. rewrite first_stays; [done|].
      intros p q Hp Hq. apply elem_of_seq in Hp. destruct (lookup_lt_is_Some_2 (m :: l) p) as [x Hx]; [cbn; lia|].
      rewrite (H4 p x Hx) in Hq. by injection Hq as <-. }
  rewrite Hsel. cbn [mbind option_bind]. rewrite H0. cbn [List.find].
  unfold BackendServer_new. cbn [LoadBalancer.host LoadBalancer.port]. by rewrite bool_decide_true, Z.eqb_refl.
Qed.

(** ** A concrete JSON library

    Values are trees; the text is a letter and the bits of the tree's code. *)

Definition tree : Type := gen_tree (str + (Z + bool)).

Fixpoint bits (p : positive) : str :=
  match p with xH => [] | xO p => "0"%char :: bits p | xI p => "1"%char :: bits p end.
Fixpoint unbits (s : str) : positive :=
  match s with [] => xH | c :: s => if bool_decide (c = "1"%char) then xI (unbits s) else xO (unbits s) end.

Lemma unbits_bits p : unbits (bits p) = p.
Proof. induction p as [p IH|p IH|]; cbn [bits unbits]; [rewrite bool_decide_true|rewrite bool_decide_false|]; by rewrite ?IH. Qed.

Definition leaf_str (s : str) : tree := GenLeaf (inl s).
Definition pair_tree (kv : str * tree) : tree := GenNode 2 [leaf_str kv.1; kv.2].
Definition tree_pair (t : tree) : option (str * tree) :=
  match t with GenNode 2 [GenLeaf (inl k); v] => Some (k, v) | _ => None end.
Definition tree_fields (t : tree) : option (list (str * tree)) :=
  match t with GenNode 0 l => Some (omap tree_pair l) | _ => None end.
Definition tree_str (t : tree) : option str := match t with GenLeaf (inl s) => Some s | _ => None end.
Definition tree_int (t : tree) : option Z := match t with GenLeaf (inr (inl z)) => Some z | _ => None end.
Definition tree_bool (t : tree) : option bool := match t with GenLeaf (inr (inr b)) => Some b | _ => None end.

Definition tree_value {X} (get : tree → option X) (t : tree) (k : str) (d : X) : option X :=
  l ← tree_fields t; match assoc k l with None => Some d | Some v => get v end.

Fixpoint tree_utf8 (t : tree) : bool :=
  match t with
  | GenLeaf (inl s) => utf8 s
  | GenLeaf _ => true
  | GenNode _ l => forallb tree_utf8 l
  end.

#[export] Instance tree_json : Json tree := {
  jstr := leaf_str;
  jint z := GenLeaf (inr (inl z));
  jbool b := GenLeaf (inr (inr b));
  jobj l := GenNode 0 (pair_tree <$> l);
  jarr l := GenNode 1 l;
  dump t := if tree_utf8 t then Some ("J"%char :: bits (encode t)) else None;
  what s := s;
  parse s := match s with c :: s => if bool_decide (c = "J"%char) then decode (unbits s) else None | [] => None end;
  member t k := l ← tree_fields t; assoc k l;
  value_str := tree_value tree_str;
  value_int := tree_value tree_int;
  value_int64 := tree_value tree_int;
  value_bool := tree_value tree_bool;
  elements t k := match tree_fields t ≫= assoc k with Some (GenNode 1 l) => l | _ => [] end;
  map_member t k :=
    l ← tree_fields t;
    match assoc k l with
    | None => Some ∅
    | Some v => fs ← tree_fields v; Some (list_to_map (omap (λ kv, pair kv.1 <$> tree_str kv.2) fs))
    end
}.

Lemma tree_fields_obj (l : list (str * tree)) : tree_fields (GenNode 0 (pair_tree <$> l)) = Some l.
Proof. cbn. f_equal. induction l as [|[k v] l IH]; [done|]. cbn. by rewrite IH. Qed.

Lemma tree_utf8_obj (l : list (str * tree)) :
  tree_utf8 (GenNode 0 (pair_tree <$> l)) = forallb (λ kv, utf8 kv.1 && tree_utf8 kv.2) l.
Proof. induction l as [|[k v] l IH]; [done|]. cbn in *. by rewrite IH, andb_true_r. Qed.

#[export] Instance tree_laws : JsonLaws tree.
Proof.
  apply (Build_JsonLaws tree tree_json (λ t, tree_utf8 t = true));
    cbn [parse dump member value_str value_int value_int64 map_member jstr jint jbool jobj tree_json]; unfold tree_value;
    intros; rewrite ?tree_fields_obj; cbn [mbind option_bind]; try done.
  - rewrite tree_utf8_obj. apply forallb_forall. intros kv Hkv%list_elem_of_In. rewrite Forall_forall in H0.
    destruct (H0 kv Hkv) as [-> ->]. done.
  - rewrite H. eexists. split; [reflexivity|]. cbv beta iota. rewrite bool_decide_true by done. by rewrite unbits_bits, decode_encode.
  - cbn. by rewrite H.
  - rewrite tree_utf8_obj. destruct (forallb _ l) eqn:E; [|done]. exfalso. rewrite forallb_forall in E.
    apply list_elem_of_In in H0. specialize (E _ H0). cbn in E. destruct H1 as [H1|H1]; [by rewrite H1 in E|].
    destruct (tree_utf8 v); [done|]. by rewrite andb_false_r in E.
  - by rewrite H0.
  - by rewrite H0.
  - by rewrite H0.
  - by rewrite H0.
  - by rewrite H0.
  - rewrite H0, tree_fields_obj. cbn [mbind option_bind]. f_equal. rewrite <-(list_to_map_to_list m) at 2. f_equal.
    clear. induction (map_to_list m) as [|[k' v] l' IH]; [done|]. cbn. by rewrite IH.
Qed.

(** ** Examples *)

Definition orders : ServiceKey := mkKey #"default" #"orders" #"v2".
Definition order_node : InstanceMeta := mkInstance #"n1" #"10.0.0.7" 8080 3 0 30 #"UP" {[ #"zone" := #"a" ]}.

Definition order_text : str := default [] (register_body (J := tree) orders order_node).

Lemma registration_arrives_witness :
  let req := set_body HttpRequest_new order_text in
  handleRegister (J := tree) (0%nat, ServiceCatalog_new) req HttpResponse_new 5000 (λ _ _, 5000)
  = ((catalog_op (0%nat, ServiceCatalog_new) (ORegister orders order_node 5000 (λ _ _, 5000))).2, Some HttpResponse_new).
Proof.
  intros req.
  destruct (registration_arrives (J := tree) 0 ServiceCatalog_new req orders order_node 5000 (λ _ _, 5000)) as (text & Ht & Hr).
  - discriminate.
  - split_and!; cbn; lia.
  - reflexivity.
  - reflexivity.
  - apply Hr. unfold req, order_text. by rewrite Ht.
Defined.

(** A name in Latin-1 cannot be registered: [dump] throws before anything is
    sent. *)
Example latin1_name_throws : register_body (J := tree) (mkKey #"default" [ "233"%char ] #"v1") order_node = None.
Proof. vm_compute. reflexivity. Qed.

(** A body with an ill-formed text in it does not parse; when the text of that
    exception repeats the bytes, the handler's own error page throws, outside
    of any [try]. *)
Example ill_formed_body_escapes :
  (handleRegister (J := tree) (0%nat, ServiceCatalog_new) (set_body HttpRequest_new [ "{"%char; "255"%char ])
     HttpResponse_new 5000 (λ _ _, 5000)).2 = None.
Proof. vm_compute. reflexivity. Qed.

Lemma discover_needs_query_witness :
  discover_key (set_path HttpRequest_new (discover_path orders)) = Some orders ∧
  discover_key (parseRequestLine HttpRequest_new (#"GET " ++ discover_path orders ++ #" HTTP/1.1")).2 = None.
Proof.
  destruct (discover_needs_query orders) as [H1 H2]; [by apply (bool_decide_unpack _)..|discriminate|].
  split; [by apply H1|]. eapply (H2 HttpRequest_new (#"GET " ++ discover_path orders ++ #" HTTP/1.1")).
  apply injective_projections; [vm_compute; reflexivity|reflexivity].
Defined.

Lemma select_always_first_witness :
  selectInstance RoundRobin [] [order_node; set_id order_node #"n2"] = Some order_node.
Proof. apply select_always_first. by left. Defined.
