(* ===== verification/MultipartParser.v ===== *)
(** * MultipartParser: multipart/form-data bodies

    Models [src/http/MultipartParser.h].  Positions are those of
    [std::string::find]; the loops run on fuel, and the length of the text is
    enough. *)

From S2P Require Import Prelude.

Open Scope nat_scope.

Record MultipartPart := mkPart { name : str; filename : str; contentType : str; data : str }.

Definition MultipartPart_new : MultipartPart := mkPart [] [] [] [].

Definition isFile (p : MultipartPart) : bool := negb (bool_decide (filename p = [])).

(** The value of [param="..."] in a header line. *)
Definition extractHeaderParam (line param : str) : str :=
  let key := param ++ #"=" ++ [DQ] in
  match find key line 0 with
  | None => []
  | Some n =>
      let pos := n + length key in
      match find [DQ] line pos with
      | None => []
      | Some e => substr line pos (e - pos)
      end
  end.

(** What one header line does to the part. *)
Definition part_line (p : MultipartPart) (line : str) : MultipartPart :=
  if contains (#"Content-Disposition:") line
  then mkPart (extractHeaderParam line #"name") (extractHeaderParam line #"filename") (contentType p) (data p)
  else if contains (#"Content-Type:") line then
    match find [ ":"%char ] line 0 with
    | None => p
    | Some colonPos =>
        let value := drop (colonPos + 1) line in
        match skip_chars [SP] value with
        | [] => p
        | v => mkPart (name p) (filename p) v (data p)
        end
    end
  else p.

Definition parsePart (partContent : str) : MultipartPart :=
  match find crlf2 partContent 0 with
  | None => MultipartPart_new
  | Some headerEnd =>
      let headers := substr partContent 0 headerEnd in
      let data0 := drop (headerEnd + 4) partContent in
      let data :=
        if (2 <=? length data0) && bool_decide (drop (length data0 - 2) data0 = crlf)
        then take (length data0 - 2) data0 else data0 in
      fold_lines part_line (S (length headers)) headers 0 (mkPart [] [] [] data)
  end.

(** [while (pos < body.size())]. *)
Fixpoint parse_loop (fuel : nat) (body delimiter : str) (pos : nat) (parts : list MultipartPart) : list MultipartPart :=
  match fuel with
  | O => parts
  | S f =>
      if negb (pos <? length body) then parts
      else match find delimiter body pos with
           | None => parts
           | Some nextDelim =>
               let part := parsePart (substr body pos (nextDelim - pos)) in
               let parts1 := if bool_decide (name part = []) then parts else parts ++ [part] in
               let pos1 := nextDelim + length delimiter in
               if bool_decide (substr body pos1 2 = #"--") then parts1
               else
                 let pos2 := if bool_decide (substr body pos1 2 = crlf) then pos1 + 2 else pos1 in
                 parse_loop f body delimiter pos2 parts1
           end
  end.

Definition parse (body boundary : str) : list MultipartPart :=
  match body, boundary with
  | [], _ | _, [] => []
  | _, _ =>
      let delimiter := #"--" ++ boundary in
      match find delimiter body 0 with
      | None => []
      | Some first =>
          match find crlf body first with
          | None => []
          | Some pos => parse_loop (S (length body)) body delimiter (pos + 2) []
          end
      end
  end.

(** [extractBoundary]. *)
Fixpoint token (s : str) : str :=
  match s with
  | [] => []
  | c :: s => if bool_decide (c ∈ [SP; ";"%char; CR; LF]) then [] else c :: token s
  end.

Definition extractBoundary (ct : str) : str :=
  let key := #"boundary=" in
  match find key ct 0 with
  | None => []
  | Some n =>
      let rest := drop (n + length key) ct in
      match rest with
      | c :: rest' =>
          if bool_decide (c = DQ)
          then match find [DQ] rest' 0 with None => rest' | Some e => take e rest' end
          else token rest
      | [] => []
      end
  end.

(** ** What a sender writes *)

Definition disposition (p : MultipartPart) : str :=
  #"Content-Disposition: form-data; name=" ++ [DQ] ++ name p ++ [DQ] ++
  (if bool_decide (filename p = []) then [] else #"; filename=" ++ [DQ] ++ filename p ++ [DQ]).

Definition part_lines (p : MultipartPart) : list str :=
  disposition p :: (if bool_decide (contentType p = []) then [] else [ #"Content-Type: " ++ contentType p ]).

Definition part_text (p : MultipartPart) : str := join_lines (part_lines p) ++ crlf2 ++ data p ++ crlf.

(** What follows a delimiter: the remaining parts, or the end mark and any
    epilogue. *)
Fixpoint after_delimiter (b : str) (ps : list MultipartPart) (epilogue : str) : str :=
  match ps with
  | [] => #"--" ++ epilogue
  | p :: ps => crlf ++ part_text p ++ #"--" ++ b ++ after_delimiter b ps epilogue
  end.

Definition put_body (b : str) (ps : list MultipartPart) (epilogue : str) : str := #"--" ++ b ++ after_delimiter b ps epilogue.

(** A text that can stand in a header line, between quotes. *)
Definition quotable (s : str) : Prop := DQ ∉ s ∧ CR ∉ s.

(** The delimiter is not found before the end of the part. *)
Definition clear_of (b : str) (text : str) : Prop := find0 (#"--" ++ b) (text ++ #"--" ++ b) = Some (length text).

Record part_ok (b : str) (p : MultipartPart) : Prop := {
  ok_name : name p ≠ [] ∧ quotable (name p) ∧ (∀ z, name p ≠ z ++ #"filename=");
  ok_filename : quotable (filename p);
  ok_type : CR ∉ contentType p ∧ head (contentType p) ≠ Some SP ∧ contains (#"Content-Disposition:") (#"Content-Type: " ++ contentType p) = false;
  ok_clear : clear_of b (part_text p)
}.

(** ** One part *)

Lemma find0_here p t : p ≠ [] → find0 p (p ++ t) = Some 0.
Proof. intros Hp. apply find0_intro; [by rewrite drop_0, prefixb_app|intros; lia|lia]. Qed.

(** The value behind the first occurrence of the key. *)
Lemma header_param pre param v rest :
  let key := param ++ #"=" ++ [DQ] in
  find0 key (pre ++ key ++ v ++ DQ :: rest) = Some (length pre) → DQ ∉ v →
  extractHeaderParam (pre ++ key ++ v ++ DQ :: rest) param = v.
Proof.
  intros key Hk Hv. unfold extractHeaderParam. fold key. rewrite find_0, Hk.
  rewrite <-length_app, app_assoc, find_app_r, find0_char by done.
  cbn [fmap option_fmap option_map]. rewrite substr_app_r, Nat.add_comm, Nat.add_sub. by rewrite take_app_length.
Qed.

Definition first_block : str := #"Content-Disposition: form-data; ".

Lemma disposition_shape p rest :
  disposition p ++ rest = first_block ++ (#"name" ++ #"=" ++ [DQ]) ++ name p ++ DQ ::
    (if bool_decide (filename p = []) then [] else #"; " ++ (#"filename" ++ #"=" ++ [DQ]) ++ filename p ++ [DQ]) ++ rest.
Proof. unfold disposition, first_block. rewrite <-!app_assoc. by case_bool_decide; rewrite <-?app_assoc. Qed.

Lemma disposition_name p : quotable (name p) → extractHeaderParam (disposition p) #"name" = name p.
Proof.
  intros [Hq _]. rewrite <-(app_nil_r (disposition p)), disposition_shape. apply header_param; [|done].
  rewrite find0_apart, find0_here by by vm_compute. cbn. done.
Qed.

Lemma disposition_filename b p : part_ok b p → extractHeaderParam (disposition p) #"filename" = filename p.
Proof.
  intros [(_ & [Hq _] & Hs) [Hf _] _ _]. rewrite <-(app_nil_r (disposition p)), disposition_shape, app_nil_r.
  set (key := #"filename" ++ #"=" ++ [DQ]).
  assert (Hfind : ∀ t, find0 key (first_block ++ (#"name" ++ #"=" ++ [DQ]) ++ name p ++ DQ :: t)
    = Nat.add (length (first_block ++ (#"name" ++ #"=" ++ [DQ]) ++ name p ++ [DQ])) <$> find0 key t).
  { intros t. rewrite app_assoc, find0_apart by by vm_compute. change key with (#"filename=" ++ [DQ]).
    rewrite find_other; [|by apply (bool_decide_unpack _)|done|exact Hs]. destruct (find0 _ t); [|done]. cbn. f_equal. len; lia. }
  case_bool_decide as E.
  - rewrite E. unfold extractHeaderParam. fold key. by rewrite find_0, Hfind.
  - set (pre := first_block ++ (#"name" ++ #"=" ++ [DQ]) ++ name p ++ DQ :: #"; ").
    assert (Hpre : ∀ t, first_block ++ (#"name" ++ #"=" ++ [DQ]) ++ name p ++ DQ :: #"; " ++ t = pre ++ t)
      by (intros t; unfold pre; by rewrite <-!app_assoc).
    rewrite Hpre. apply header_param; [|done]. fold key. rewrite <-Hpre, Hfind, find0_apart, find0_here by by vm_compute.
    cbn [fmap option_fmap option_map]. f_equal. unfold pre. len; lia.
Qed.

Lemma contains_here p t : p ≠ [] → contains p (p ++ t) = true.
Proof. intros Hp. unfold contains. rewrite find0_here by done. by apply bool_decide_eq_true_2. Qed.

Lemma disposition_line b p d : part_ok b p → part_line (mkPart [] [] [] d) (disposition p) = mkPart (name p) (filename p) [] d.
Proof.
  intros Hp. unfold part_line. replace (contains _ (disposition p)) with true.
  - by rewrite disposition_name, (disposition_filename b) by (done || apply Hp).
  - symmetry. unfold disposition. change (#"Content-Disposition: form-data; name=" ++ ?t) with (#"Content-Disposition:" ++ #" form-data; name=" ++ t).
    by apply contains_here.
Qed.

Lemma type_line ct n f d :
  ct ≠ [] → head ct ≠ Some SP → contains (#"Content-Disposition:") (#"Content-Type: " ++ ct) = false →
  part_line (mkPart n f [] d) (#"Content-Type: " ++ ct) = mkPart n f ct d.
Proof.
  intros Hne Hh Hc. unfold part_line. rewrite Hc. change (#"Content-Type: " ++ ct) with (#"Content-Type:" ++ SP :: ct).
  rewrite contains_here by done. change (#"Content-Type:" ++ SP :: ct) with (#"Content-Type" ++ ":"%char :: SP :: ct).
  rewrite find_0, find0_char by by apply (bool_decide_unpack _).
  change (drop (length #"Content-Type" + 1) (#"Content-Type" ++ ":"%char :: SP :: ct)) with (SP :: ct).
  cbn [skip_chars]. rewrite bool_decide_eq_true_2 by set_solver. destruct ct as [|c ct]; [done|].
  cbn [skip_chars]. rewrite bool_decide_eq_false_2; [done|]. cbn in Hh. set_solver.
Qed.

Lemma part_lines_ok b p : part_ok b p → part_lines p ≠ [] ∧ Forall line_ok (part_lines p).
Proof.
  intros [(_ & [_ Hn] & _) [_ Hf] (Ht & _ & _) _]. split; [done|]. unfold part_lines. constructor.
  - split; [|done]. unfold disposition. rewrite !not_elem_of_app. split_and!; first [by apply (bool_decide_unpack _)|done|idtac].
    case_bool_decide; [apply not_elem_of_nil|]. rewrite !not_elem_of_app. split_and!; first [by apply (bool_decide_unpack _)|done].
  - case_bool_decide; constructor; [|constructor]. split; [|done]. rewrite not_elem_of_app. split; [by apply (bool_decide_unpack _)|done].
Qed.

(** A written part is read back. *)
Lemma parsePart_text b p : part_ok b p → parsePart (part_text p) = p.
Proof.
  intros Hp. destruct (part_lines_ok b p Hp) as [Hne Hls]. unfold parsePart, part_text. set (hs := join_lines (part_lines p)).
  rewrite find_0. unfold hs at 1. rewrite find_blank_line by done. fold hs. rewrite substr_prefix by done.
  rewrite <-drop_drop, drop_app_length. change (drop 4 (crlf2 ++ ?t)) with t.
  rewrite length_app. cbn [length crlf]. rewrite Nat.add_sub, drop_app_length, take_app_length.
  rewrite (proj2 (Nat.leb_le _ _)) by lia. rewrite bool_decide_eq_true_2 by done. cbn [andb].
  change hs with ([] ++ hs) at 2. unfold hs. rewrite (fold_lines_join _ _ []) by (done || cbn; lia).
  unfold part_lines. cbn [foldl]. rewrite (disposition_line b) by done. destruct Hp as [_ _ (_ & Hh & Hc) _].
  case_bool_decide as E; cbn [foldl]; [destruct p; cbn in *; by subst|]. rewrite type_line by done. by destruct p.
Qed.

(** ** The body *)

Lemma at_part b text pre rest :
  clear_of b text →
  let delim := #"--" ++ b in
  let body := pre ++ text ++ delim ++ rest in
  find delim body (length pre) = Some (length pre + length text) ∧
  substr body (length pre) (length pre + length text - length pre) = text ∧
  (∀ n, substr body (length pre + length text + length delim) n = take n rest).
Proof.
  intros Hc delim body. unfold body. split_and!.
  - rewrite find_app_r, app_assoc. by rewrite (find0_app _ _ _ _ Hc).
  - rewrite substr_app_r. replace (_ - _) with (length text) by lia. by rewrite take_app_length.
  - intros n. rewrite <-!length_app, !app_assoc. apply substr_app_r.
Qed.

Lemma parse_loop_parts b p ps e pre f parts :
  Forall (part_ok b) (p :: ps) → length ps < f →
  parse_loop f (pre ++ part_text p ++ (#"--" ++ b) ++ after_delimiter b ps e) (#"--" ++ b) (length pre) parts = parts ++ p :: ps.
Proof.
  revert p pre f parts. induction ps as [|q ps IH]; intros p pre f parts Hall Hf; (destruct f as [|f]; [lia|]); cbn [parse_loop];
    inversion Hall as [|?? Hp Hps]; subst;
    set (rest := after_delimiter b _ e); destruct (at_part b (part_text p) pre rest (ok_clear _ _ Hp)) as (H1 & H2 & H3);
    (rewrite (proj2 (Nat.ltb_lt _ _)) by (unfold part_text; len; lia)); cbn [negb]; rewrite H1, H2, H3, (parsePart_text b) by done;
    rewrite (bool_decide_eq_false_2 (name p = [])) by apply Hp.
  - done.
  - replace (take 2 rest) with crlf by done. rewrite bool_decide_eq_false_2 by done. rewrite bool_decide_eq_true_2 by done.
    set (pre2 := pre ++ part_text p ++ (#"--" ++ b) ++ crlf).
    replace (length pre + length (part_text p) + length (#"--" ++ b) + 2) with (length pre2) by (unfold pre2; len; lia).
    replace (pre ++ part_text p ++ (#"--" ++ b) ++ rest) with (pre2 ++ part_text q ++ (#"--" ++ b) ++ after_delimiter b ps e)
      by (unfold pre2, rest; cbn [after_delimiter]; by rewrite <-!app_assoc).
    rewrite IH; [by rewrite <-app_assoc|done|cbn in Hf; lia].
Qed.

Lemma parts_length b ps e : length ps ≤ length (after_delimiter b ps e).
Proof. induction ps as [|p ps IH]; [cbn; lia|]. cbn [after_delimiter length]. rewrite !length_app. cbn [length crlf]. lia. Qed.

Lemma token_id s : (∀ c, c ∈ [SP; ";"%char; CR; LF] → c ∉ s) → token s = s.
Proof.
  induction s as [|d s IH]; intros Hs; [done|]. cbn [token]. rewrite bool_decide_eq_false_2 by (intros Hd; apply (Hs d Hd); by left).
  rewrite IH; [done|]. intros x Hx Hin. apply (Hs x Hx). by right.
Qed.

Lemma extract_token b : b ≠ [] → (∀ c, c ∈ [SP; ";"%char; CR; LF; DQ] → c ∉ b) → extractBoundary (#"multipart/form-data; boundary=" ++ b) = b.
Proof.
  intros Hb Hno. unfold extractBoundary. change (#"multipart/form-data; boundary=" ++ b) with (#"multipart/form-data; " ++ #"boundary=" ++ b).
  rewrite find_0, find0_apart, find0_here by by vm_compute. cbn [fmap option_fmap option_map].
  rewrite Nat.add_0_r, <-drop_drop, !drop_app_length. destruct b as [|c b]; [done|].
  rewrite bool_decide_eq_false_2 by (intros ->; apply (Hno DQ); set_solver). apply token_id. intros; apply Hno; set_solver.
Qed.

Lemma extract_quoted b : DQ ∉ b → extractBoundary (#"multipart/form-data; boundary=" ++ DQ :: b ++ [DQ]) = b.
Proof.
  intros Hno. unfold extractBoundary. change (#"multipart/form-data; boundary=" ++ ?t) with (#"multipart/form-data; " ++ #"boundary=" ++ t).
  rewrite find_0, find0_apart, find0_here by by vm_compute. cbn [fmap option_fmap option_map].
  rewrite Nat.add_0_r, <-drop_drop, !drop_app_length, bool_decide_eq_true_2 by done.
  rewrite find_0, find0_char by done. by rewrite take_app_length.
Qed.

(** C36: multipart bodies round-trip.  What a sender writes for a list of parts
    (names and file names without quotes and line ends, a delimiter that does
    not occur in the parts) is parsed to exactly these parts, in order, with
    their data byte for byte, whatever stands in front of the first delimiter
    without containing it and behind the last; and the boundary is taken from
    the content type, quoted or not. *)
Theorem parse_put_body (b : str) (p : MultipartPart) (ps : list MultipartPart) (preamble epilogue : str)
    (Hb : b ≠ [] ∧ Forall (.∉ [SP; ";"%char; CR; LF; DQ]) b) (Hps : Forall (part_ok b) (p :: ps))
    (Hpre : find0 (#"--" ++ b) (preamble ++ #"--" ++ b) = Some (length preamble)) :
  parse (preamble ++ put_body b (p :: ps) epilogue) b = p :: ps ∧
  extractBoundary (#"multipart/form-data; boundary=" ++ b) = b ∧
  extractBoundary (#"multipart/form-data; boundary=" ++ DQ :: b ++ [DQ]) = b.
Proof.
  destruct Hb as [Hb Hcs]. assert (Hno : ∀ c, c ∈ [SP; ";"%char; CR; LF; DQ] → c ∉ b).
  { intros c Hc Hin. rewrite Forall_forall in Hcs. by apply (Hcs c Hin). }
  split; [|split].
  - unfold put_body. rewrite (app_assoc _ b). set (delim := #"--" ++ b).
    set (body := preamble ++ delim ++ after_delimiter b (p :: ps) epilogue).
    assert (Hne : ∃ c t, body = c :: t) by (unfold body; destruct preamble; eexists _, _; reflexivity).
    assert (Hfirst : find0 delim body = Some (length preamble)) by (unfold body; rewrite app_assoc; by apply find0_app).
    assert (Hcr : find crlf body (length preamble) = Some (length (preamble ++ delim))).
    { unfold body. rewrite find_app_r. cbn [after_delimiter]. unfold crlf. rewrite find0_first; [by rewrite length_app|].
      unfold delim. rewrite not_elem_of_app. split; [by apply (bool_decide_unpack _)|]. apply Hno. set_solver. }
    transitivity (parse_loop (S (length body)) body delim (length (preamble ++ delim) + 2) []).
    + unfold parse. destruct Hne as (c & t & E). rewrite E. destruct b as [|c0 b0]; [done|]. rewrite <-E.
      fold delim. rewrite find_0, Hfirst, Hcr. done.
    + set (pre := (preamble ++ delim) ++ crlf). replace (length (preamble ++ delim) + 2) with (length pre) by (unfold pre; len).
      replace body with (pre ++ part_text p ++ delim ++ after_delimiter b ps epilogue)
        by (unfold body, pre, delim; cbn [after_delimiter]; by rewrite <-!app_assoc).
      unfold delim at 1 2. rewrite parse_loop_parts; [done|done|]. rewrite !length_app. pose proof (parts_length b ps epilogue). lia.
  - by apply extract_token.
  - apply extract_quoted, Hno. set_solver.
Qed.

(** ** Examples *)

Definition title_part : MultipartPart := mkPart #"title" [] [] #"Holiday".
Definition photo_part : MultipartPart := mkPart #"photo" #"a b.png" #"image/png" (#"PNG" ++ crlf2 ++ #"--data" ++ crlf).

#[export] Instance clear_dec b t : Decision (clear_of b t).
Proof. unfold clear_of. apply _. Defined.

Lemma no_suffix (k s : str) : bool_decide (drop (length s - length k) s = k) = false → ∀ z, s ≠ z ++ k.
Proof.
  intros H z ->. apply bool_decide_eq_false in H. apply H. rewrite length_app, Nat.add_sub. apply drop_app_length.
Qed.

Lemma title_ok : part_ok #"xyz" title_part.
Proof. split; [split_and!; [done|split|apply no_suffix]|split|split_and!|]; by apply (bool_decide_unpack _). Qed.

Lemma photo_ok : part_ok #"xyz" photo_part.
Proof. split; [split_and!; [done|split|apply no_suffix]|split|split_and!|]; by apply (bool_decide_unpack _). Qed.

Lemma parse_put_body_witness :
  parse (#"ignored" ++ crlf ++ put_body #"xyz" [title_part; photo_part] crlf) #"xyz" = [title_part; photo_part].
Proof.
  apply (parse_put_body #"xyz" title_part [photo_part] (#"ignored" ++ crlf) crlf).
  - split; [discriminate|]. by apply (bool_decide_unpack _).
  - constructor; [exact title_ok|]. constructor; [exact photo_ok|]. constructor.
  - vm_compute. reflexivity.
Defined.

(** When the file name stands first, it is taken for the name as well. *)
Example filename_first :
  name (part_line MultipartPart_new
    (#"Content-Disposition: form-data; filename=" ++ [DQ] ++ #"a.txt" ++ [DQ] ++ #"; name=" ++ [DQ] ++ #"doc" ++ [DQ])) = #"a.txt".
Proof. vm_compute. reflexivity. Qed.

(** The delimiter counts anywhere in the data, not only at the start of a
    line: this part loses its end. *)
Example delimiter_in_data :
  data <$> parse (put_body #"xyz" [mkPart #"t" [] [] #"see --xyz-- there"] []) #"xyz" = [ #"see "].
Proof. vm_compute. reflexivity. Qed.

(** Header names are compared with their capitals. *)
Example lower_case_header :
  parse (#"--xyz" ++ crlf ++ #"content-disposition: form-data; name=" ++ [DQ] ++ #"t" ++ [DQ] ++ crlf2 ++ #"1" ++ crlf ++ #"--xyz--") #"xyz" = [].
Proof. vm_compute. reflexivity. Qed.
