(* ===== verification/RpcPb.v ===== *)
(** * RpcPb: remote calls in length-prefixed protobuf messages

    Models [src/rpc/RpcServerPb.h] and [src/rpc/RpcClientPb.h].  The messages'
    encodings are generated by protoc: they are the class [Wire] with its laws.
    A [google::protobuf::Message] is a value of a type [M], its C++ class a
    value of a type [T].  The client's socket is a script of what the
    successive calls of [send] and [recv] return, and the bytes that come in.
    The last part runs the client against the server. *)

From S2P Require Import Prelude Buffer.

Open Scope nat_scope.

(** ** Messages of [rpc/proto/rpc.proto] *)

Record RpcRequest := mkRequest { service : str; method : str; params : str; id : Z }.
Record RpcResponse := mkResponse { resp_id : Z; result : str; code : Z; message : str }.

(** What protobuf gives: encodings of the two messages above, and of the
    application's messages. *)
Class Wire (M T : Type) := {
  request_to : RpcRequest → str;
  request_from : str → option RpcRequest;
  response_to : RpcResponse → str;
  response_from : str → option RpcResponse;
  make_unique : T → M;
  SerializeToString : M → str;
  ParseFromString : T → str → option M
}.

(** Texts must be UTF-8, which is left to the instance, and a message with a
    field that is not its default has bytes. *)
Class WireLaws (M T : Type) `{Wire M T} := {
  utf8 : str → Prop;
  has_class : M → T → Prop;
  request_back r : utf8 (service r) → utf8 (method r) → (- 2 ^ 63 ≤ id r < 2 ^ 63)%Z → request_from (request_to r) = Some r;
  response_back r : utf8 (message r) → (- 2 ^ 63 ≤ resp_id r < 2 ^ 63)%Z → (- 2 ^ 31 ≤ code r < 2 ^ 31)%Z →
    response_from (response_to r) = Some r;
  request_bytes r : id r ≠ 0%Z → request_to r ≠ [];
  response_bytes r : resp_id r ≠ 0%Z → response_to r ≠ [];
  message_back m t : has_class m t → ParseFromString t (SerializeToString m) = Some m
}.

(** ** The length in front of a message *)

(** [htonl] and [ntohl] around a copy of four bytes. *)
Definition put32 (n : Z) : str := chr <$> [(n / 2 ^ 24) mod 256; (n / 2 ^ 16) mod 256; (n / 2 ^ 8) mod 256; n mod 256]%Z.
Definition get32 (s : str) : Z := i32 (foldl (λ acc c, acc * 256 + u8_of c)%Z 0%Z (take 4 s)).

Definition frame (data : str) : str := put32 (u32 (zlen data)) ++ data.

(** ** [RpcServerPb] *)

(** What a handler does: it fills the response, or throws. *)
Inductive Outcome (M : Type) := Done (resp : M) | Throws (what : str) | ThrowsOther.
Arguments Done {M} resp.
Arguments Throws {M} what.
Arguments ThrowsOther {M}.

(** The calls on the connection. *)
Inductive Call := Send (data : str) | Shutdown.

(** How [onMessage] returns. *)
Inductive Exit := Drained | WaitMore | BadFrame.

Definition kMaxFrameSize : Z := 10 * 1024 * 1024.

(** [PbMethod]: the request and the response to fill; [A] is what the
    handlers keep. *)
Abbreviation PbMethod M A := (M → M → A → Outcome M * A).

Section Server.
Context {M T A : Type} `{Wire M T}.

Record RpcServerPb := mkServer {
  methods_ : gmap str (PbMethod M A);
  requestCreators_ : gmap str T;
  responseCreators_ : gmap str T
}.

Definition RpcServerPb_new : RpcServerPb := mkServer ∅ ∅ ∅.

(** [registerMethod<T1, T2>]. *)
Definition registerMethod (s : RpcServerPb) (t1 t2 : T) (serviceName methodName : str) (handler : PbMethod M A) : RpcServerPb :=
  let key := serviceName ++ #"." ++ methodName in
  mkServer (<[key := handler]> (methods_ s)) (<[key := t1]> (requestCreators_ s)) (<[key := t2]> (responseCreators_ s)).

Definition sendResponse (i : Z) (res : M) : Call :=
  Send (frame (response_to (mkResponse i (SerializeToString res) 0 []))).

Definition sendError (i c : Z) (msg : str) : Call := Send (frame (response_to (mkResponse i [] c msg))).

Definition processMessage (s : RpcServerPb) (data : str) (a : A) : Call * A :=
  match request_from data with
  | None => (sendError 0 (-32700) (#"Parse error"), a)
  | Some request =>
      let key := service request ++ #"." ++ method request in
      match methods_ s !! key with
      | None => (sendError (id request) (-32601) (#"Method not found: " ++ key), a)
      | Some f =>
          match requestCreators_ s !! key, responseCreators_ s !! key with
          | Some t1, Some t2 =>
              match ParseFromString t1 (params request) with
              | None => (sendError (id request) (-32602) (#"Invalid params"), a)
              | Some reqMsg =>
                  let '(o, a1) := f reqMsg (make_unique t2) a in
                  (match o with
                   | Done respMsg => sendResponse (id request) respMsg
                   | Throws what => sendError (id request) (-32603) (#"Internal error: " ++ what)
                   | ThrowsOther => sendError (id request) (-32603) (#"Unknown internal error")
                   end, a1)
              end
          | _, _ => (sendError (id request) (-32603) (#"Internal error"), a)
          end
      end
  end.

Section Loop.
Context {B : Type} `{ByteQueue B}.

(** [while (buf->readableBytes() >= 4)]; a turn that goes on has consumed a
    frame, so that the number of bytes is fuel enough. *)
Fixpoint message_loop (fuel : nat) (s : RpcServerPb) (buf : B) (a : A) : list Call * Exit * B * A :=
  match fuel with
  | O => ([], Drained, buf, a)
  | S f =>
      if negb (4 <=? bq_readable buf) then ([], Drained, buf, a)
      else
        let len := get32 (bq_contents buf) in
        if (len <=? 0)%Z || (kMaxFrameSize <? len)%Z
        then ([sendError 0 (-32600) (#"Invalid frame size"); Shutdown], BadFrame, buf, a)
        else if (Z.of_nat (bq_readable buf) <? 4 + len)%Z then ([], WaitMore, buf, a)
        else
          let buf1 := bq_retrieve buf 4 in
          let data := take (Z.to_nat len) (bq_contents buf1) in
          let buf2 := bq_retrieve buf1 (Z.to_nat len) in
          let '(out, a1) := processMessage s data a in
          let '(outs, e, buf3, a2) := message_loop f s buf2 a1 in (out :: outs, e, buf3, a2)
  end.

Definition onMessage (s : RpcServerPb) (buf : B) (a : A) : list Call * Exit * B * A :=
  message_loop (S (bq_readable buf)) s buf a.

End Loop.
End Server.

(** ** The length prefix *)

Lemma length_frame data : length (frame data) = 4 + length data.
Proof. done. Qed.

Lemma get32_put32 n rest : (0 ≤ n < 2 ^ 31)%Z → get32 (put32 n ++ rest) = n.
Proof.
  intros Hn. unfold get32, put32. cbn [fmap list_fmap app take foldl].
  rewrite !u8_of_chr by (apply Z.mod_pos_bound; lia).
  rewrite take_0. cbn [foldl]. match goal with |- i32 ?m = _ => replace m with n; [unfold i32; rewrite Z.mod_small; lia|] end.
  change (2 ^ 8)%Z with 256%Z. change (2 ^ 16)%Z with 65536%Z. change (2 ^ 24)%Z with 16777216%Z. Z.to_euclidean_division_equations; lia.
Qed.

Lemma get32_app s rest : 4 ≤ length s → get32 (s ++ rest) = get32 s.
Proof. intros Hs. unfold get32. by rewrite take_app_le by lia. Qed.

(** A message the server takes. *)
Definition sized (data : str) : Prop := (1 ≤ zlen data ≤ kMaxFrameSize)%Z.

Lemma get32_frame data rest : sized data → get32 (frame data ++ rest) = zlen data.
Proof.
  intros [? Hd]. unfold kMaxFrameSize in Hd. unfold frame. rewrite <-app_assoc, get32_put32; unfold u32; rewrite Z.mod_small; lia.
Qed.

(** The beginning of a message, or nothing. *)
Definition partial (tail : str) : Prop :=
  length tail < 4 ∨ (1 ≤ get32 tail ≤ kMaxFrameSize)%Z ∧ (zlen tail < 4 + get32 tail)%Z.

Lemma partial_prefix x y : partial (x ++ y) → partial x.
Proof.
  unfold partial. destruct (decide (length x < 4)) as [?|Hx]; [by left|].
  rewrite get32_app by lia. intros [Hl|[? Hl]]; [len; lia|]. right. split; [done|]. len; lia.
Qed.

Lemma partial_frame data x y : sized data → x ++ y = frame data → y ≠ [] → partial x.
Proof.
  intros Hd Hxy Hy. destruct (decide (length x < 4)) as [?|Hx]; [by left|]. right.
  assert (Hg : get32 x = zlen data).
  { rewrite <-(get32_app x y), Hxy by lia. rewrite <-(app_nil_r (frame data)). by apply get32_frame. }
  rewrite Hg. split; [exact Hd|]. apply (f_equal length) in Hxy. destruct y; [done|]. revert Hxy. rewrite length_frame. len; lia.
Qed.

(** However a stream of messages is cut, its first part is some messages and
    the beginning of another. *)
Lemma cut_stream datas tail x y :
  Forall sized datas → partial tail → x ++ y = mjoin (frame <$> datas) ++ tail →
  ∃ done_ left_ p, datas = done_ ++ left_ ∧ x = mjoin (frame <$> done_) ++ p ∧ partial p ∧
    p ++ y = mjoin (frame <$> left_) ++ tail.
Proof.
  intros Hd Ht. revert x. induction Hd as [|d datas Hsz Hd IH]; intros x Hxy.
  - exists [], [], x. cbn in *. split_and!; [done|done| |done]. eapply partial_prefix. by rewrite Hxy.
  - rewrite fmap_cons, mjoin_cons, <-app_assoc in Hxy. apply app_eq_inv in Hxy as [(z & Hx & Hy)|(z & Hx & Hy)].
    + destruct (IH z (eq_sym Hy)) as (d1 & d2 & p & -> & -> & Hp & Heq). exists (d :: d1), d2, p.
      rewrite fmap_cons, mjoin_cons, <-app_assoc. done.
    + destruct z as [|c z].
      * rewrite app_nil_r in Hx. exists [d], datas, []. rewrite fmap_cons, mjoin_cons. cbn. rewrite !app_nil_r.
        split_and!; [done|done|left; cbn; lia|done].
      * exists [], (d :: datas), x. split_and!; [done|done| |].
        -- eapply partial_frame; [done|by rewrite Hx|done].
        -- rewrite fmap_cons, mjoin_cons, Hx, Hy, <-!app_assoc. done.
Qed.

(** ** What the server does with a stream of messages *)

Section Stream.
Context {M T A : Type} `{Wire M T} {B : Type} `{ByteQueue B}.
Local Abbreviation RpcServerPb := (@RpcServerPb M T A).

(** The messages, one after the other. *)
Fixpoint answers (s : RpcServerPb) (datas : list str) (a : A) : list Call * A :=
  match datas with
  | [] => ([], a)
  | d :: datas => let '(c, a1) := processMessage s d a in let '(cs, a2) := answers s datas a1 in (c :: cs, a2)
  end.

Lemma answers_app s d1 d2 a :
  answers s (d1 ++ d2) a
  = (let '(c1, a1) := answers s d1 a in let '(c2, a2) := answers s d2 a1 in (c1 ++ c2, a2)).
Proof.
  revert a. induction d1 as [|d d1 IH]; intros a; cbn [app answers]; [by destruct (answers s d2 a)|].
  destruct (processMessage s d a) as [c a1]. rewrite IH. destruct (answers s d1 a1) as [c1 a2].
  by destruct (answers s d2 a2).
Qed.

(** What arrives is appended to the buffer and the callback runs. *)
Fixpoint receive (s : RpcServerPb) (buf : B) (chunks : list str) (a : A) : list Call * B * A :=
  match chunks with
  | [] => ([], buf, a)
  | c :: chunks =>
      let '(outs, _, buf1, a1) := onMessage s (bq_append buf c) a in
      let '(outs', buf2, a2) := receive s buf1 chunks a1 in (outs ++ outs', buf2, a2)
  end.

Lemma loop_partial f (s : RpcServerPb) (buf : B) a :
  bq_valid buf → partial (bq_contents buf) →
  ∃ e, message_loop (S f) s buf a = ([], e, buf, a) ∧ e ≠ BadFrame.
Proof.
  intros Hv Hp. cbn [message_loop]. rewrite (bq_readable_ok buf Hv). destruct Hp as [Hl|[[Hg1 Hg2] Hl]].
  - exists Drained. rewrite (proj2 (Nat.leb_gt _ _)) by lia. done.
  - destruct (4 <=? length (bq_contents buf)); [|by exists Drained]. exists WaitMore. cbn [negb].
    rewrite (proj2 (Z.leb_gt _ _)), (proj2 (Z.ltb_ge _ _)) by lia. cbn [orb].
    rewrite (proj2 (Z.ltb_lt _ _)) by len. done.
Qed.

Lemma loop_message f (s : RpcServerPb) (buf : B) data rest a :
  bq_valid buf → sized data → bq_contents buf = frame data ++ rest → ∃ buf2,
  bq_valid buf2 ∧ bq_contents buf2 = rest ∧
  message_loop (S f) s buf a
  = (let '(out, a1) := processMessage s data a in
     let '(outs, e, buf3, a2) := message_loop f s buf2 a1 in (out :: outs, e, buf3, a2)).
Proof.
  intros Hv Hd Hc. destruct (bq_retrieve_ok buf 4 Hv) as [Hv1 Hc1].
  destruct (bq_retrieve_ok (bq_retrieve buf 4) (length data) Hv1) as [Hv2 Hc2].
  assert (E1 : bq_contents (bq_retrieve buf 4) = data ++ rest) by (by rewrite Hc1, Hc).
  exists (bq_retrieve (bq_retrieve buf 4) (length data)). rewrite Hc2, E1, drop_app_length. split; [done|]. split; [done|].
  cbn [message_loop]. rewrite (bq_readable_ok buf Hv), Hc, get32_frame by done. destruct Hd as [Hd1 Hd2].
  rewrite length_app, length_frame. cbn [Nat.leb negb plus].
  rewrite (proj2 (Z.leb_gt _ _)), (proj2 (Z.ltb_ge _ _)) by lia. cbn [orb].
  rewrite (proj2 (Z.ltb_ge _ _)) by len. unfold zlen. by rewrite Nat2Z.id, E1, take_app_length.
Qed.

Lemma loop_stream f (s : RpcServerPb) (buf : B) datas tail a :
  bq_valid buf → Forall sized datas → partial tail → bq_contents buf = mjoin (frame <$> datas) ++ tail →
  length datas < f → ∃ e buf',
  message_loop f s buf a = (let '(outs, a') := answers s datas a in (outs, e, buf', a')) ∧
  bq_valid buf' ∧ bq_contents buf' = tail ∧ e ≠ BadFrame.
Proof.
  intros Hv Hd Ht. revert f buf a Hv. induction Hd as [|d datas Hsz Hd IH]; intros f buf a Hv Hc Hf.
  - cbn in Hc. destruct f as [|f]; [cbn in Hf; lia|].
    destruct (loop_partial f s buf a Hv) as (e & Heq & He); [by rewrite Hc|]. by exists e, buf.
  - cbn [length] in Hf. destruct f as [|f]; [lia|]. rewrite fmap_cons, mjoin_cons, <-app_assoc in Hc.
    destruct (loop_message f s buf d _ a Hv Hsz Hc) as (buf2 & Hv2 & Hc2 & ->). cbn [answers].
    destruct (processMessage s d a) as [out a1].
    destruct (IH f buf2 a1 Hv2 Hc2) as (e & buf' & -> & Hv' & Hc' & He); [lia|].
    exists e, buf'. by destruct (answers s datas a1).
Qed.

Lemma stream_length datas : length datas ≤ length (mjoin (frame <$> datas)).
Proof. induction datas as [|d datas IH]; [done|]. rewrite fmap_cons, mjoin_cons, length_app, length_frame. cbn [length]. lia. Qed.

Lemma stream_served (s : RpcServerPb) (buf : B) (chunks datas : list str) (tail : str) (a : A)
    (Hv : bq_valid buf) (Hp : partial (bq_contents buf)) (Hd : Forall sized datas) (Ht : partial tail)
    (Hc : bq_contents buf ++ mjoin chunks = mjoin (frame <$> datas) ++ tail) :
  ∃ buf',
    receive s buf chunks a = (let '(outs, a') := answers s datas a in (outs, buf', a')) ∧
    bq_valid buf' ∧ bq_contents buf' = tail.
Proof.
  revert buf datas a Hv Hp Hd Hc. induction chunks as [|c chunks IH]; intros buf datas a Hv Hp Hd Hc; cbn [receive].
  - cbn in Hc. rewrite app_nil_r in Hc. destruct datas as [|d datas]; [by exists buf|].
    destruct (loop_message 0 s buf d (mjoin (frame <$> datas) ++ tail) a Hv) as (buf2 & _ & _ & Hm);
      [by inversion Hd|by rewrite Hc, fmap_cons, mjoin_cons, app_assoc|].
    destruct (loop_partial 0 s buf a Hv Hp) as (e & He & _). rewrite He in Hm. by destruct (processMessage s d a).
  - rewrite mjoin_cons, app_assoc in Hc. destruct (bq_append_ok buf c Hv) as [Hv1 Hc1].
    rewrite <-Hc1 in Hc. destruct (cut_stream datas tail _ _ Hd Ht Hc) as (d1 & d2 & p & -> & E1 & Hp1 & E2).
    apply Forall_app in Hd as [Hd1 Hd2].
    destruct (loop_stream (S (bq_readable (bq_append buf c))) s (bq_append buf c) d1 p a Hv1 Hd1 Hp1 E1)
      as (e & buf1 & Ho & Hv2 & Hc2 & _).
    { rewrite (bq_readable_ok _ Hv1), E1, length_app. pose proof (stream_length d1). lia. }
    unfold onMessage. rewrite Ho, answers_app. destruct (answers s d1 a) as [o1 a1].
    rewrite <-Hc2 in E2. rewrite <-Hc2 in Hp1.
    destruct (IH buf1 d2 a1 Hv2 Hp1 Hd2 E2) as (buf' & -> & Hv' & Hc'). exists buf'. by destruct (answers s d2 a1).
Qed.

(** C29: remote calls are served in order.  Whatever the buffer, and however the
    bytes of a stream of messages of admissible length are cut into reads, the
    server answers exactly these messages, one reply each and in their order,
    and keeps the beginning of the next one. *)
Theorem messages_in_order (s : RpcServerPb) (buf : B) (chunks datas : list str) (tail : str) (a : A)
    (Hv : bq_valid buf) (Hp : partial (bq_contents buf)) (Hd : Forall sized datas) (Ht : partial tail)
    (Hc : bq_contents buf ++ mjoin chunks = mjoin (frame <$> datas) ++ tail) :
  ∃ buf',
    receive s buf chunks a = (let '(outs, a') := answers s datas a in (outs, buf', a')) ∧
    bq_valid buf' ∧ bq_contents buf' = tail.
Proof. by apply stream_served. Qed.

End Stream.

(** ** [RpcClientPb] *)

(** What one call of [send] or [recv] comes to: interrupted, failed, or it
    moves so many bytes, if there are as many. *)
Inductive KRes := Interrupted | Failed | Moves (n : nat).

#[export] Instance KRes_eq_dec : EqDecision KRes.
Proof. solve_decision. Defined.

(** [sendAll]: success, and the bytes that were sent; [None]: it still blocks
    where the script ends. *)
Fixpoint sendAll (data : str) (k : list KRes) : option (bool * str * list KRes) :=
  match data, k with
  | [], _ => Some (true, [], k)
  | _, [] => None
  | _, Interrupted :: k => sendAll data k
  | _, Failed :: k => Some (false, [], k)
  | _, Moves n :: k =>
      match n `min` length data with
      | O => Some (false, [], k)
      | S n => (λ x, (x.1.1, take (S n) data ++ x.1.2, x.2)) <$> sendAll (drop (S n) data) k
      end
  end.

(** [recvAll] on the bytes that come in: success, the bytes read, and those
    left; no bytes is the end of the stream. *)
Fixpoint recvAll (len : nat) (inp : str) (k : list KRes) : option (bool * str * str * list KRes) :=
  match len, k with
  | O, _ => Some (true, [], inp, k)
  | _, [] => None
  | _, Interrupted :: k => recvAll len inp k
  | _, Failed :: k => Some (false, [], inp, k)
  | _, Moves n :: k =>
      match n `min` len `min` length inp with
      | O => Some (false, [], inp, k)
      | S n => (λ x, (x.1.1.1, take (S n) inp ++ x.1.1.2, x.1.2, x.2)) <$> recvAll (len - S n) (drop (S n) inp) k
      end
  end.

Definition RPC_MAX_FRAME_LENGTH : Z := 64 * 1024 * 1024.

(** How an attempt to connect ends. *)
Inductive ConnRes := NoSocket | NoHost | Refused | Joined.

(** The descriptors the client has open are part of its state. *)
Record RpcClientPb := mkClient { sock_ : option nat; nextId_ : Z; connected_ : bool; next_fd : nat; open_fds : gset nat }.

Definition RpcClientPb_new : RpcClientPb := mkClient None 1 false 0 ∅.

Definition set_connected (c : RpcClientPb) (b : bool) : RpcClientPb := mkClient (sock_ c) (nextId_ c) b (next_fd c) (open_fds c).

Definition connectInternal (c : RpcClientPb) (r : ConnRes) : bool * RpcClientPb :=
  if connected_ c then (true, c)
  else match r with
       | NoSocket => (false, mkClient None (nextId_ c) false (next_fd c) (open_fds c))
       | NoHost | Refused => (false, mkClient None (nextId_ c) false (S (next_fd c)) (open_fds c))
       | Joined => (true, mkClient (Some (next_fd c)) (nextId_ c) true (S (next_fd c)) (open_fds c ∪ {[next_fd c]}))
       end.

(** [connect] does the same, under the mutex. *)
Definition connect (c : RpcClientPb) (r : ConnRes) : bool * RpcClientPb := connectInternal c r.

Definition disconnect (c : RpcClientPb) : RpcClientPb :=
  match sock_ c with
  | Some fd => mkClient None (nextId_ c) false (next_fd c) (open_fds c ∖ {[fd]})
  | None => set_connected c false
  end.

Section Client.
Context {M T A : Type} `{Wire M T}.

Definition take_id (c : RpcClientPb) : RpcClientPb :=
  mkClient (sock_ c) (i64 (nextId_ c + 1)) (connected_ c) (next_fd c) (open_fds c).

(** The message of a call. *)
Definition request_data (c : RpcClientPb) (sv m : str) (request : M) : str :=
  request_to (mkRequest sv m (SerializeToString request) (nextId_ c)).

(** The end of [call], when a response was read. *)
Definition read_response (t2 : T) (respData : str) : option M :=
  match response_from respData with
  | None => None
  | Some resp => if negb (code resp =? 0)%Z then None else ParseFromString t2 (result resp)
  end.

(** [call]: the response, if it succeeds, the bytes sent, and the client;
    [None]: it still blocks. *)
Definition call (c : RpcClientPb) (r : ConnRes) (k : list KRes) (inp : str) (sv m : str) (request : M) (t2 : T)
    : option (option M * str * RpcClientPb) :=
  let '(ok, c0) := if connected_ c then (true, c) else connectInternal c r in
  if negb ok then Some (None, [], c0)
  else
    let c1 := take_id c0 in
    let lost sent := Some (None, sent, set_connected c1 false) in
    let data := request_data c0 sv m request in
    match sendAll (put32 (u32 (zlen data))) k with
    | None => None
    | Some (false, s1, _) => lost s1
    | Some (true, s1, k1) =>
        match sendAll data k1 with
        | None => None
        | Some (false, s2, _) => lost (s1 ++ s2)
        | Some (true, s2, k2) =>
            match recvAll 4 inp k2 with
            | None => None
            | Some (false, _, _, _) => lost (s1 ++ s2)
            | Some (true, head, inp1, k3) =>
                let len := get32 head in
                if (len <=? 0)%Z || (RPC_MAX_FRAME_LENGTH <? len)%Z then lost (s1 ++ s2)
                else match recvAll (Z.to_nat len) inp1 k3 with
                     | None => None
                     | Some (false, _, _, _) => lost (s1 ++ s2)
                     | Some (true, respData, _, _) => Some (read_response t2 respData, s1 ++ s2, c1)
                     end
            end
        end
    end.

End Client.

(** ** Transfers *)

(** A script without failures. *)
Definition smooth (k : list KRes) : Prop := Forall (λ r, r ≠ Failed ∧ r ≠ Moves 0) k.
(** How many of its calls move something. *)
Definition moves (k : list KRes) : nat := length (List.filter (λ r, match r with Moves _ => true | _ => false end) k).

Lemma sendAll_ok data k :
  smooth k → length data ≤ moves k → ∃ k', sendAll data k = Some (true, data, k') ∧ smooth k' ∧ moves k ≤ moves k' + length data.
Proof.
  intros Hs. revert data. induction Hs as [|r k [Hf Hm] Hs IH]; intros data Hl.
  - destruct data as [|b data]; [|cbn in Hl; lia]. exists []. split_and!; [done|by constructor|lia].
  - destruct data as [|b data]; [exists (r :: k); cbn [sendAll length]; split_and!; [done|by constructor|lia]|].
    destruct r as [| |[|n]]; [|done|done|].
    + destruct (IH (b :: data)) as (k' & Hk & ? & ?); [exact Hl|]. by exists k'.
    + cbn [sendAll length Nat.min]. set (j := n `min` length data).
      destruct (IH (drop (S j) (b :: data))) as (k' & -> & ? & Hle); [revert Hl; unfold moves; len; lia|].
      exists k'. cbn [fmap option_fmap option_map fst snd]. rewrite take_drop. split; [done|]. split; [done|].
      revert Hle. unfold moves; len; lia.
Qed.

Lemma recvAll_ok n inp k :
  smooth k → n ≤ length inp → n ≤ moves k →
  ∃ k', recvAll n inp k = Some (true, take n inp, drop n inp, k') ∧ smooth k' ∧ moves k ≤ moves k' + n.
Proof.
  intros Hs. revert n inp. induction Hs as [|r k [Hf Hm] Hs IH]; intros n inp Hn Hl.
  - destruct n as [|n]; [|cbn in Hl; lia]. exists []. split_and!; [done|by constructor|lia].
  - destruct n as [|n]; [exists (r :: k); cbn [recvAll]; split_and!; [done|by constructor|lia]|].
    destruct r as [| |[|m]]; [|done|done|].
    + destruct (IH (S n) inp) as (k' & Hk & ? & ?); [exact Hn|exact Hl|]. by exists k'.
    + destruct inp as [|b inp]; [cbn in Hn; lia|]. cbn [recvAll length Nat.min]. cbn [length] in Hn. set (j := m `min` n `min` length inp).
      destruct (IH (S n - S j) (drop (S j) (b :: inp))) as (k' & -> & ? & Hle); [len; lia|revert Hl; unfold moves; len; lia|].
      exists k'. cbn [fmap option_fmap option_map fst snd]. rewrite drop_drop.
      assert (E : S j + (S n - S j) = S n) by lia. rewrite E. split; [|split; [done|]].
      * do 3 f_equal. rewrite <-E at 2. by rewrite <-take_take_drop.
      * revert Hle. unfold moves; len; lia.
Qed.

(** ** Dispatch *)

Section Dispatch.
Context {M T A : Type} `{Wire M T}.

Record Registration := mkReg { r_service : str; r_method : str; r_req : T; r_resp : T; r_handler : PbMethod M A }.

Definition register (s : RpcServerPb) (r : Registration) : RpcServerPb :=
  registerMethod s (r_req r) (r_resp r) (r_service r) (r_method r) (r_handler r).

Definition reg_key (r : Registration) : str := r_service r ++ #"." ++ r_method r.

(** The last registration under a name. *)
Fixpoint last_for (key : str) (regs : list Registration) : option Registration :=
  match regs with
  | [] => None
  | r :: regs => match last_for key regs with
                 | Some r' => Some r'
                 | None => if bool_decide (reg_key r = key) then Some r else None
                 end
  end.

Lemma last_for_snoc key regs r :
  last_for key (regs ++ [r]) = if bool_decide (reg_key r = key) then Some r else last_for key regs.
Proof.
  induction regs as [|r' regs IH]; [done|]. cbn [app last_for]. rewrite IH. by destruct (bool_decide (reg_key r = key)).
Qed.

Lemma registered_maps regs key :
  let s := foldl register RpcServerPb_new regs in
  methods_ s !! key = r_handler <$> last_for key regs ∧
  requestCreators_ s !! key = r_req <$> last_for key regs ∧
  responseCreators_ s !! key = r_resp <$> last_for key regs.
Proof.
  induction regs as [|r regs IH] using rev_ind; [done|]. rewrite foldl_app, last_for_snoc. cbn [foldl].
  set (s := foldl register RpcServerPb_new regs) in *. unfold register, registerMethod. cbn [methods_ requestCreators_ responseCreators_].
  change (r_service r ++ _) with (reg_key r). case_bool_decide as E.
  - rewrite E, !lookup_insert_eq. done.
  - by rewrite !lookup_insert_ne by done.
Qed.

(** What a handler's outcome is answered with. *)
Definition outcome_reply (i : Z) (o : Outcome M) : RpcResponse :=
  match o with
  | Done resp => mkResponse i (SerializeToString resp) 0 []
  | Throws what => mkResponse i [] (-32603) (#"Internal error: " ++ what)
  | ThrowsOther => mkResponse i [] (-32603) (#"Unknown internal error")
  end.

(** C31: errors and dispatch.  Every message is answered by exactly one reply.
    It has the number of the request, and its code tells what went wrong: an
    unreadable message, a name nobody registered, parameters that are not of
    the registered class, an exception of the handler.  Otherwise the handler
    that was registered last under the name [service.method] has run, once, on
    the parameters; in all other cases nothing of the application has run.
    The branch for a method without its message classes is never taken. *)
Theorem message_dispatch (regs : list Registration) (data : str) (a : A) :
  let s := foldl register RpcServerPb_new regs in
  ∃ resp a', processMessage s data a = (Send (frame (response_to resp)), a') ∧
  match request_from data with
  | None => resp = mkResponse 0 [] (-32700) (#"Parse error") ∧ a' = a
  | Some req =>
      let key := service req ++ #"." ++ method req in
      match last_for key regs with
      | None => resp = mkResponse (id req) [] (-32601) (#"Method not found: " ++ key) ∧ a' = a
      | Some r =>
          match ParseFromString (r_req r) (params req) with
          | None => resp = mkResponse (id req) [] (-32602) (#"Invalid params") ∧ a' = a
          | Some msg =>
              let '(o, a1) := r_handler r msg (make_unique (r_resp r)) a in
              resp = outcome_reply (id req) o ∧ a' = a1
          end
      end
  end.
Proof.
  intros s. unfold processMessage. destruct (request_from data) as [req|]; [|do 2 eexists; split; [reflexivity|done]].
  set (key := service req ++ _). cbv zeta.
  destruct (registered_maps regs key) as (E1 & E2 & E3). fold s in E1, E2, E3. rewrite E1, E2, E3.
  destruct (last_for key regs) as [r|]; [|do 2 eexists; split; [reflexivity|done]]. cbn [fmap option_fmap option_map].
  destruct (ParseFromString (r_req r) (params req)) as [msg|]; [|do 2 eexists; split; [reflexivity|done]].
  destruct (r_handler r msg (make_unique (r_resp r)) a) as [o a1].
  exists (outcome_reply (id req) o), a1. by destruct o.
Qed.

End Dispatch.

(** ** The client against the server *)

Section Meeting.
Context {M T A : Type} `{WireLaws M T} {B : Type} `{ByteQueue B}.

Lemma processMessage_registered (s : @RpcServerPb M T A) (t1 t2 : T) sv m handler i (request : M) (a : A) :
  utf8 sv → utf8 m → (- 2 ^ 63 ≤ i < 2 ^ 63)%Z → has_class request t1 →
  processMessage (registerMethod s t1 t2 sv m handler) (request_to (mkRequest sv m (SerializeToString request) i)) a
  = (let '(o, a1) := handler request (make_unique t2) a in (Send (frame (response_to (outcome_reply i o))), a1)).
Proof.
  intros Hs Hm Hi Hc. unfold processMessage. rewrite request_back by done.
  cbn [service method params id methods_ requestCreators_ responseCreators_ registerMethod].
  rewrite !lookup_insert_eq, message_back by done. destruct (handler request (make_unique t2) a) as [o a1]. by destruct o.
Qed.

Lemma read_response_ok i (resp : M) (t2 : T) :
  utf8 [] → (- 2 ^ 63 ≤ i < 2 ^ 63)%Z → has_class resp t2 →
  read_response t2 (response_to (mkResponse i (SerializeToString resp) 0 [])) = Some resp.
Proof.
  intros Hu Hi Hc. unfold read_response. rewrite response_back by (cbn; done || lia). cbn [code result Z.eqb negb].
  by apply message_back.
Qed.

Lemma call_exchange (c : RpcClientPb) r k sv m (request : M) (t2 : T) respData :
  connected_ c = true ∨ r = Joined → smooth k →
  sized (request_data c sv m request) → (1 ≤ zlen respData ≤ RPC_MAX_FRAME_LENGTH)%Z →
  length (frame (request_data c sv m request)) + length (frame respData) ≤ moves k →
  ∃ c', call c r k (frame respData) sv m request t2
        = Some (read_response t2 respData, frame (request_data c sv m request), c') ∧
        connected_ c' = true ∧ nextId_ c' = i64 (nextId_ c + 1).
Proof.
  intros Hup Hk Hsz Hr Hm. rewrite !length_frame in Hm. unfold call.
  assert (∃ c0, (if connected_ c then (true, c) else connectInternal c r) = (true, c0) ∧ connected_ c0 = true ∧ nextId_ c0 = nextId_ c)
    as (c0 & -> & Hc0 & Hn).
  { destruct (connected_ c) eqn:E; [by exists c|]. destruct Hup as [?| ->]; [done|]. unfold connectInternal. rewrite E. by eexists. }
  assert (Ed : request_data c0 sv m request = request_data c sv m request) by (unfold request_data; by rewrite Hn).
  rewrite Ed. set (data := request_data c sv m request) in *. cbn [negb].
  destruct (sendAll_ok (put32 (u32 (zlen data))) k Hk) as (k1 & -> & Hk1 & Hm1); [unfold put32; cbn [length fmap list_fmap]; lia|].
  cbn [put32 length fmap list_fmap] in Hm1.
  destruct (sendAll_ok data k1 Hk1) as (k2 & -> & Hk2 & Hm2); [lia|].
  destruct (recvAll_ok 4 (frame respData) k2 Hk2) as (k3 & -> & Hk3 & Hm3); [rewrite length_frame; lia|lia|].
  assert (Eg : get32 (take 4 (frame respData)) = zlen respData).
  { unfold frame. rewrite take_app_le, take_ge, <-(app_nil_r (put32 _)), get32_put32;
      unfold RPC_MAX_FRAME_LENGTH, u32 in *; try rewrite Z.mod_small; (cbn; lia) || lia. }
  rewrite Eg, (proj2 (Z.leb_gt _ _)), (proj2 (Z.ltb_ge _ _)) by lia. cbn [orb].
  change (drop 4 (frame respData)) with respData.
  destruct (recvAll_ok (Z.to_nat (zlen respData)) respData k3 Hk3) as (k4 & -> & _); [unfold zlen; lia..|].
  unfold zlen. rewrite Nat2Z.id, firstn_all. eexists. split; [reflexivity|]. cbn. by rewrite Hn.
Qed.

(** C30: a remote call is a call.  On a transfer without failures, however the
    bytes are split on either side, the call of a registered method sends one
    message; the server runs the handler once, on the parameters the client
    gave, and sends one message back; and the client, reading that, returns the
    response the handler made, connected and with the next number. *)
Theorem call_returns_result (s : @RpcServerPb M T A) (c : RpcClientPb) (r : ConnRes) (k : list KRes) (t1 t2 : T) (sv m : str)
    (handler : PbMethod M A) (request resp : M) (a a' : A)
    (Hup : connected_ c = true ∨ r = Joined) (Hid : (1 ≤ nextId_ c < 2 ^ 63)%Z)
    (Hu : utf8 sv ∧ utf8 m ∧ utf8 []) (Hreq : has_class request t1) (Hresp : has_class resp t2)
    (Hrun : handler request (make_unique t2) a = (Done resp, a')) :
  let data := request_data c sv m request in
  let respData := response_to (mkResponse (nextId_ c) (SerializeToString resp) 0 []) in
  sized data → (zlen respData ≤ RPC_MAX_FRAME_LENGTH)%Z → smooth k →
  length (frame data) + length (frame respData) ≤ moves k →
  (∀ (buf : B) chunks, bq_valid buf → bq_contents buf = [] → mjoin chunks = frame data → ∃ buf',
     receive (registerMethod s t1 t2 sv m handler) buf chunks a = ([Send (frame respData)], buf', a') ∧
     bq_contents buf' = []) ∧
  (∃ c', call c r k (frame respData) sv m request t2 = Some (Some resp, frame data, c') ∧
         connected_ c' = true ∧ nextId_ c' = i64 (nextId_ c + 1)).
Proof.
  intros data respData Hd Hr Hk Hm. destruct Hu as (Hu1 & Hu2 & Hu3). split.
  - intros buf chunks Hv Hc Hj.
    destruct (stream_served (registerMethod s t1 t2 sv m handler) buf chunks [data] [] a) as (buf' & Heq & _ & Hc');
      [done|left; rewrite Hc; cbn; lia|by constructor|left; cbn; lia|by rewrite Hc, Hj; cbn; rewrite !app_nil_r|].
    exists buf'. split; [|done]. rewrite Heq. cbn [answers]. unfold data, request_data at 1.
    rewrite processMessage_registered by (done || lia). by rewrite Hrun.
  - rewrite <-(read_response_ok (nextId_ c) resp t2 Hu3) by (done || lia).
    apply call_exchange; [done|done|done| |done]. split; [|done]. pose proof (response_bytes (mkResponse (nextId_ c) (SerializeToString resp) 0 [])) as Hb.
    fold respData in Hb |- *. assert (length respData ≠ 0) by (rewrite length_zero_iff_nil; apply Hb; cbn; lia). unfold zlen. lia.
Qed.

End Meeting.

(** ** A concrete encoding and application *)

Definition put_field (s : str) : str := replicate (length s) "1"%char ++ "0"%char :: s.

Fixpoint get_field (n : nat) (s : str) : option (str * str) :=
  match s with
  | [] => None
  | c :: s => if bool_decide (c = "1"%char) then get_field (S n) s else Some (take n s, drop n s)
  end.

Definition put_num (z : Z) : str :=
  if (z <? 0)%Z then "-"%char :: replicate (Z.to_nat (- z)) "1"%char else replicate (Z.to_nat z) "1"%char.
Definition get_num (s : str) : Z :=
  match s with
  | c :: s' => if bool_decide (c = "-"%char) then (- zlen s')%Z else zlen s
  | [] => 0%Z
  end.

Lemma get_put n k s : get_field n (replicate k "1"%char ++ "0"%char :: s) = Some (take (n + k) s, drop (n + k) s).
Proof.
  revert n. induction k as [|k IH]; intros n; cbn [replicate app get_field]; [by rewrite Nat.add_0_r|].
  cbn. rewrite IH. by replace (S n + k) with (n + S k) by lia.
Qed.

Lemma field_back s rest : get_field 0 (put_field s ++ rest) = Some (s, rest).
Proof. unfold put_field. rewrite <-app_assoc. cbn [app]. rewrite get_put. cbn [Nat.add]. by rewrite take_app_length, drop_app_length. Qed.

Lemma num_back z : get_num (put_num z) = z.
Proof.
  unfold put_num. destruct (Z.ltb_spec z 0); cbn.
  - rewrite bool_decide_eq_true_2 by done. unfold zlen. rewrite length_replicate. lia.
  - destruct (Z.to_nat z) eqn:E; cbn; [lia|]. rewrite bool_decide_eq_false_2 by done. unfold zlen. cbn [length].
    rewrite length_replicate. lia.
Qed.

Arguments put_field : simpl never.
Arguments get_field : simpl never.
Arguments put_num : simpl never.
Arguments get_num : simpl never.

#[export] Instance sample_wire : Wire str bool := {
  request_to r := put_field (service r) ++ put_field (method r) ++ put_field (params r) ++ put_num (id r);
  request_from s :=
    '(a, s1) ← get_field 0 s; '(b, s2) ← get_field 0 s1; '(c, s3) ← get_field 0 s2; Some (mkRequest a b c (get_num s3));
  response_to r := put_field (result r) ++ put_field (message r) ++ put_field (put_num (code r)) ++ put_num (resp_id r);
  response_from s :=
    '(a, s1) ← get_field 0 s; '(b, s2) ← get_field 0 s1; '(c, s3) ← get_field 0 s2;
    Some (mkResponse (get_num s3) a (get_num c) b);
  make_unique _ := [];
  SerializeToString m := m;
  ParseFromString t m := if t && bool_decide (m = []) then None else Some m
}.

#[export, refine] Instance sample_laws : WireLaws str bool := {
  utf8 _ := True;
  has_class m t := t = false ∨ m ≠ []
}.
Proof.
  - intros [a b c d] _ _ _. cbn. rewrite field_back. cbn. rewrite field_back. cbn. rewrite field_back. cbn. by rewrite num_back.
  - intros [a b c d] _ _ _. cbn. rewrite field_back. cbn. rewrite field_back. cbn. rewrite field_back. cbn. by rewrite !num_back.
  - intros [a b c d] _. cbn. unfold put_field. destruct (length a); discriminate.
  - intros [a b c d] _. cbn. unfold put_field. destruct (length b); discriminate.
  - intros m t Hm. cbn. destruct t; [|done]. rewrite bool_decide_eq_false_2; [done|]. naive_solver.
Defined.

(** The application counts the calls; a handler reverses its parameters. *)
Definition reverse_handler : PbMethod str nat := λ req _ a, (Done (rev req), S a).
Definition throwing_handler : PbMethod str nat := λ _ _ a, (Throws (#"no"), a).

Definition sample_regs : list Registration :=
  [mkReg #"Text" #"Reverse" true false reverse_handler; mkReg #"Text" #"Throw" false false throwing_handler].
Definition sample_rpc : @RpcServerPb str bool nat := foldl register RpcServerPb_new sample_regs.

Definition abc_request (i : Z) : str := request_to (mkRequest #"Text" #"Reverse" #"abc" i).
Definition stream : str := frame (abc_request 1) ++ frame (abc_request 2) ++ [ "000"%char; "000"%char ].

Lemma abc_sized i : (0 ≤ i < 100)%Z → sized (abc_request i).
Proof.
  intros Hi. unfold sized, abc_request, kMaxFrameSize. cbn [request_to sample_wire service method params id].
  rewrite !app_assoc. unfold zlen. rewrite length_app. unfold put_num. rewrite (proj2 (Z.ltb_ge _ _)), length_replicate by lia.
  change (put_field #"Text") with (#"11110Text"). change (put_field #"Reverse") with (#"11111110Reverse").
  change (put_field #"abc") with (#"1110abc"). cbn. lia.
Qed.

Lemma messages_in_order_witness :
  ∃ buf',
    receive sample_rpc (Buffer_new 16) [take 3 stream; take 60 (drop 3 stream); drop 63 stream] 0
    = (let '(outs, a') := answers sample_rpc [abc_request 1; abc_request 2] 0 in (outs, buf', a')) ∧
    bq_valid buf' ∧ bq_contents buf' = [ "000"%char; "000"%char ].
Proof.
  apply (messages_in_order sample_rpc (Buffer_new 16) [take 3 stream; take 60 (drop 3 stream); drop 63 stream]
           [abc_request 1; abc_request 2] [ "000"%char; "000"%char ] 0).
  - exact (proj1 (bq_empty_ok 16)).
  - left. vm_compute. lia.
  - constructor; [apply abc_sized; lia|]. constructor; [apply abc_sized; lia|]. constructor.
  - left. vm_compute. lia.
  - vm_compute. reflexivity.
Defined.

Definition sample_script : list KRes := Interrupted :: concat (replicate 100 [Moves 3; Interrupted]).

Lemma call_returns_result_witness :
  let data := request_data RpcClientPb_new #"Text" #"Reverse" (#"abc" : str) in
  let respData := response_to (mkResponse 1 #"cba" 0 []) in
  (∀ (buf : Buffer) chunks, bq_valid buf → bq_contents buf = [] → mjoin chunks = frame data → ∃ buf',
     receive (registerMethod RpcServerPb_new true false #"Text" #"Reverse" reverse_handler) buf chunks 0
     = ([Send (frame respData)], buf', 1) ∧ bq_contents buf' = []) ∧
  (∃ c', call RpcClientPb_new Joined sample_script (frame respData) #"Text" #"Reverse" (#"abc" : str) false
         = Some (Some (#"cba"), frame data, c') ∧ connected_ c' = true ∧ nextId_ c' = 2%Z).
Proof.
  intros data respData.
  destruct (call_returns_result (B := Buffer) RpcServerPb_new RpcClientPb_new Joined sample_script true false #"Text" #"Reverse"
              reverse_handler (#"abc") (#"cba") 0 1) as [H1 H2].
  - by right.
  - cbn. lia.
  - by split_and!.
  - by right.
  - by left.
  - reflexivity.
  - apply abc_sized. cbn. lia.
  - vm_compute. discriminate.
  - unfold smooth. by apply (bool_decide_unpack _); vm_compute.
  - apply Nat.leb_le. vm_compute. reflexivity.
  - split; [exact H1|exact H2].
Defined.

(** Nobody compares the number in a response with that of the request. *)
Example any_response_is_taken :
  (λ x, x.1.1) <$> call RpcClientPb_new Joined sample_script (frame (response_to (mkResponse 77 #"x" 0 [])))
                     #"Text" #"Reverse" (#"abc" : str) false = Some (Some (#"x")).
Proof. vm_compute. reflexivity. Qed.

(** After a failed transfer the socket is not closed: the next call opens
    another, and the first one stays open for good. *)
Example reconnect_leaks :
  (x ← call RpcClientPb_new Joined [Failed] [] #"Text" #"Reverse" (#"abc" : str) false;
   y ← call x.2 Joined [Failed] [] #"Text" #"Reverse" (#"abc" : str) false;
   Some (elements (open_fds (disconnect y.2)))) = Some [0].
Proof. vm_compute. reflexivity. Qed.

(** Two methods can have one name. *)
Example method_names_collide :
  reg_key (mkReg (#"a.b") (#"c") true true throwing_handler) = reg_key (mkReg (#"a") (#"b.c") true true reverse_handler).
Proof. reflexivity. Qed.
