(* ===== verification/Rpc.v ===== *)
(** * Rpc: JSON remote calls over HTTP

    Models [src/rpc/RpcServer.h] and [src/rpc/RpcClient.h], with both of its
    clients.  The JSON library is the class [Json] of [Registry.v] and the
    class [JsonAccess] below; a request or an answer that cannot be dumped is
    [None].  A blocking call is what it makes of the pieces
    [recv] returns; the reactor client's callers and its connection's callbacks
    run under its mutex, and a history of them is a list of steps. *)

From S2P Require Import Prelude HttpRequest HttpResponse ServiceCatalog Registry.

Open Scope Z_scope.

(** More of nlohmann::json; [None] is an exception. *)
Class JsonAccess (J : Type) := {
  jnull : J;
  str_at : J → str → option str;     (* operator[], then as a text *)
  at_null : J → str → option J;      (* operator[]: null where there is no member *)
  has : J → str → bool               (* contains *)
}.

Class JsonAccessLaws (J : Type) `{Json J, JsonAccess J} := {
  str_at_obj l k s : NoDup l.*1 → assoc k l = Some (jstr s) → str_at (jobj l) k = Some s;
  at_null_obj l k v : NoDup l.*1 → assoc k l = Some v → at_null (jobj l) k = Some v;
  has_obj l k : NoDup l.*1 → has (jobj l) k = bool_decide (is_Some (assoc k l))
}.

(** What a registered method does; an exception may come from the parser. *)
Inductive Outcome (J : Type) := Returns (result : J) | ThrowsParse | Throws.
Arguments Returns {J} result.
Arguments ThrowsParse {J}.
Arguments Throws {J}.

Abbreviation RpcMethod J A := (J → A → Outcome J * A).

(** ** The server *)

Section Server.
Context {J A : Type} `{Json J, JsonAccess J}.

Record RpcServer := mkServer { methods_ : gmap str (RpcMethod J A) }.

Definition RpcServer_new : RpcServer := mkServer ∅.

Definition registerMethod (s : RpcServer) (name : str) (m : RpcMethod J A) : RpcServer := mkServer (<[name := m]> (methods_ s)).

Definition makeResponse (id : Z) (result : J) : option str :=
  dump (jobj [( #"jsonrpc", jstr #"2.0"); ( #"id", jint id); ( #"result", result)]).

Definition error_json (code : Z) (message : str) : J := jobj [( #"code", jint code); ( #"message", jstr message)].

Definition makeError (id code : Z) (message : str) : option str :=
  dump (jobj [( #"jsonrpc", jstr #"2.0"); ( #"id", jint id); ( #"error", error_json code message)]).

(** The text a call is answered with; what [dump] throws in the [try] is
    answered like any other exception.  [None]: the text of an error threw. *)
Definition call_text (s : RpcServer) (body : str) (a : A) : option str * A :=
  let parse_error := makeError 0 (-32700) (#"Parse error") in
  let internal_error := makeError 0 (-32603) (#"Internal error") in
  match parse body with
  | None => (parse_error, a)
  | Some request =>
      match (m ← str_at request #"method"; p ← at_null request #"params"; i ← value_int request #"id" 0; Some (m, p, i)) with
      | None => (internal_error, a)
      | Some (m, p, i) =>
          match methods_ s !! m with
          | None => (or_else (makeError i (-32601) (#"Method not found")) internal_error, a)
          | Some f =>
              let '(o, a1) := f p a in
              (match o with
               | Returns r => or_else (makeResponse i r) internal_error
               | ThrowsParse => parse_error
               | Throws => internal_error
               end, a1)
          end
      end
  end.

(** [handleRpcCall] gives the text to [resp.json], see [Registry.answer]. *)
Definition handleRpcCall (s : RpcServer) (req : HttpRequest) (resp : HttpResponse) (a : A) : option HttpResponse * A :=
  let '(text, a1) := call_text s (body req) a in (answer resp text, a1).

End Server.

(** ** The clients *)

Section Client.
Context {J : Type} `{Json J, JsonAccess J}.

Definition request_json (id : Z) (m : str) (params : J) : J :=
  jobj [( #"jsonrpc", jstr #"2.0"); ( #"method", jstr m); ( #"params", params); ( #"id", jint id)].

(** [RpcClient::call]: the request it sends; [None]: [dump] throws. *)
Definition call_request (host : str) (id : Z) (m : str) (params : J) : option str :=
  body ← dump (request_json id m params);
  Some (#"POST /rpc HTTP/1.1" ++ crlf ++ #"Host: " ++ host ++ crlf ++ #"Content-Type: application/json" ++ crlf ++
  #"Content-Length: " ++ to_string (zlen body) ++ crlf ++ crlf ++ body).

Definition failure (message : str) : J := jobj [( #"error", jstr message)].

(** The rest of [call], from the pieces to the result; [None] is an exception. *)
Definition call_result (pieces : list str) : option J :=
  let response := mjoin (c_str <$> pieces) in
  match find crlf2 response 0 with
  | None => Some (failure (#"invalid response"))
  | Some bodyStart =>
      match parse (drop (bodyStart + 4) response) with
      | None => Some (failure (#"JSON parse error"))
      | Some resp => if has resp #"error" then at_null resp #"error" else at_null resp #"result"
      end
  end.

(** [ReactorRpcClient].  Promises are numbered as they are made; [waiting_]
    holds what the calls that are before their second critical section will send. *)
Record ReactorRpcClient := mkReactor {
  nextId_ : Z;
  conn_ : bool;
  pendingCalls_ : gmap Z nat;
  promises : nat;
  waiting_ : gmap Z str
}.

Definition ReactorRpcClient_new : ReactorRpcClient := mkReactor 1 false ∅ 0 ∅.

(** [Abandon]: the exception of [dump] destroys the promise, and goes to the
    caller instead of a future. *)
Inductive Event := Fulfil (promise : nat) (v : J) | SendRequest (id : Z) (text : str) | Abandon (promise : nat).

Definition set_conn (c : ReactorRpcClient) (up : bool) : ReactorRpcClient :=
  mkReactor (nextId_ c) up (pendingCalls_ c) (promises c) (waiting_ c).
Definition erase_call (c : ReactorRpcClient) (id : Z) : ReactorRpcClient :=
  mkReactor (nextId_ c) (conn_ c) (delete id (pendingCalls_ c)) (promises c) (waiting_ c).
Definition stop_waiting (c : ReactorRpcClient) (id : Z) : ReactorRpcClient :=
  mkReactor (nextId_ c) (conn_ c) (pendingCalls_ c) (promises c) (delete id (waiting_ c)).

Definition async_request (id : Z) (m : str) (params : J) : option str :=
  body ← dump (request_json id m params);
  Some (#"POST /rpc HTTP/1.1" ++ crlf ++ #"Content-Type: application/json" ++ crlf ++
  #"Content-Length: " ++ to_string (zlen body) ++ crlf ++ #"Connection: keep-alive" ++ crlf ++ crlf ++ body).

(** [asyncCall], up to the end of its first critical section. *)
Definition asyncCall (c : ReactorRpcClient) (m : str) (params : J) : list Event * ReactorRpcClient :=
  let id := nextId_ c in
  match async_request id m params with
  | None => ([Abandon (promises c)], mkReactor (i32 (id + 1)) (conn_ c) (pendingCalls_ c) (S (promises c)) (waiting_ c))
  | Some text =>
      ([], mkReactor (i32 (id + 1)) (conn_ c) (<[id := promises c]> (pendingCalls_ c)) (S (promises c)) (<[id := text]> (waiting_ c)))
  end.

(** The rest of its second critical section, after the wait. *)
Definition after_wait (c : ReactorRpcClient) (id : Z) (text : str) : list Event * ReactorRpcClient :=
  let c1 := stop_waiting c id in
  if conn_ c1 then ([SendRequest id text], c1)
  else match pendingCalls_ c1 !! id with
       | Some p => ([Fulfil p (failure (#"not connected"))], erase_call c1 id)
       | None => ([], c1)
       end.

(** The message callback: what is in the buffer is taken out, whatever it is. *)
Definition onMessage (c : ReactorRpcClient) (data : str) : list Event * ReactorRpcClient :=
  match find crlf2 data 0 with
  | None => ([], c)
  | Some bodyStart =>
      match (resp ← parse (drop (bodyStart + 4) data); i ← value_int resp #"id" (-1); Some (resp, i)) with
      | None => ([], c)
      | Some (resp, i) =>
          match pendingCalls_ c !! i with
          | None => ([], c)
          | Some p =>
              match (if has resp #"error" then at_null resp #"error" else at_null resp #"result") with
              | None => ([], c)
              | Some v => ([Fulfil p v], erase_call c i)
              end
          end
      end
  end.

(** ** Histories of the reactor client *)

Inductive Act :=
  | Calls (m : str) (params : J)                 (* a thread enters [asyncCall] *)
  | Proceeds (id : Z)                            (* its wait is over *)
  | Up | Down                                    (* the connection callback *)
  | Arrives (data : str).

Definition act (c : ReactorRpcClient) (a : Act) : option (list Event * ReactorRpcClient) :=
  match a with
  | Calls m params => Some (asyncCall c m params)
  | Proceeds id => text ← waiting_ c !! id; Some (after_wait c id text)
  | Up => Some ([], set_conn c true)
  | Down => Some ([], set_conn c false)
  | Arrives data => Some (onMessage c data)
  end.

Fixpoint run (c : ReactorRpcClient) (acts : list Act) : option (list Event * ReactorRpcClient) :=
  match acts with
  | [] => Some ([], c)
  | a :: acts => '(e1, c1) ← act c a; '(e2, c2) ← run c1 acts; Some (e1 ++ e2, c2)
  end.

End Client.

(** ** A call from end to end *)

Section Call.
Context {J A : Type} `{JsonLaws J, !JsonAccess J, !JsonAccessLaws J}.

Lemma pieces_id pieces : Forall ("000"%char ∉.) pieces → mjoin (c_str <$> pieces) = mjoin pieces.
Proof. induction 1 as [|p pieces Hp Hps IH]; [done|]. rewrite fmap_cons, !mjoin_cons, IH. by rewrite c_str_id. Qed.

Lemma request_dumps id m (p : J) : - 2 ^ 31 ≤ id < 2 ^ 31 → utf8 m = true → dumpable p →
  ∃ t, dump (request_json id m p) = Some t ∧ parse t = Some (request_json id m p).
Proof.
  intros Hid Hm Hp. apply dump_parse, dumpable_obj; [no_dup|].
  each_field ltac:(first [done|by apply dumpable_str|apply dumpable_int; lia]).
Qed.

Lemma call_text_request (s : @RpcServer J A) id m (p : J) t (a : A) :
  - 2 ^ 31 ≤ id < 2 ^ 31 → parse t = Some (request_json id m p) →
  call_text s t a
  = match methods_ s !! m with
    | None => (or_else (makeError id (-32601) (#"Method not found")) (makeError 0 (-32603) (#"Internal error")), a)
    | Some f => let '(o, a1) := f p a in
                (match o with
                 | Returns r => or_else (makeResponse id r) (makeError 0 (-32603) (#"Internal error"))
                 | ThrowsParse => makeError 0 (-32700) (#"Parse error")
                 | Throws => makeError 0 (-32603) (#"Internal error")
                 end, a1)
    end.
Proof.
  intros Hid Ht. unfold call_text. rewrite Ht. unfold request_json.
  rewrite (str_at_obj _ #"method" m), (at_null_obj _ #"params" p), (value_int_obj _ #"id" 0 id); [done|no_dup|done|done|no_dup|done|no_dup|done].
Qed.

Definition response_json (id : Z) (r : J) : J := jobj [( #"jsonrpc", jstr #"2.0"); ( #"id", jint id); ( #"result", r)].

Lemma response_result id (r : J) :
  has (response_json id r) #"error" = false ∧ at_null (response_json id r) #"result" = Some r ∧
  (- 2 ^ 31 ≤ id < 2 ^ 31 → value_int (response_json id r) #"id" (-1) = Some id).
Proof.
  unfold response_json. split; [rewrite has_obj by no_dup; by apply bool_decide_eq_false_2; intros [? ?]|].
  split; [by apply at_null_obj; [no_dup|]|]. intros. apply value_int_obj; [no_dup|done|done].
Qed.

(** Reading a reply behind any header lines. *)
Lemma read_reply ls body pieces :
  ls ≠ [] → Forall line_ok ls → Forall ("000"%char ∉.) pieces → mjoin pieces = join_lines ls ++ crlf2 ++ body →
  call_result (J := J) pieces
  = match parse body with
    | None => Some (failure (#"JSON parse error"))
    | Some resp => if has resp #"error" then at_null resp #"error" else at_null resp #"result"
    end.
Proof.
  intros Hne Hls Hp E. unfold call_result. rewrite pieces_id, E, find_0, find_blank_line by done.
  by rewrite drop_app, drop_ge, Nat.add_comm, Nat.add_sub by lia.
Qed.

(** What the server sends for a response that was left as it is made. *)
Definition bare_lines (b : bool) : list str :=
  [ #"HTTP/1.1 200 OK"; #"Connection: " ++ (if b then #"close" else #"keep-alive"); #"Server: mymuduo-http/1.0"].

Lemma untouched_text order b :
  order_ok order → toString order (set_close HttpResponse_new b)
  = join_lines (bare_lines b) ++ crlf2 ++ [].
Proof.
  intros Ho. assert (E : order ∅ = []) by (apply Permutation_nil_r; rewrite (Ho ∅); by rewrite map_to_list_empty).
  unfold toString, toHeader, printed_headers. cbn [set_close HttpResponse_new rheaders]. rewrite E. by destruct b.
Qed.

Lemma response_dumps id (r : J) : - 2 ^ 31 ≤ id < 2 ^ 31 → dumpable r →
  ∃ t, makeResponse id r = Some t ∧ parse t = Some (response_json id r).
Proof.
  intros Hid Hr. apply dump_parse, dumpable_obj; [no_dup|].
  each_field ltac:(first [done|by apply dumpable_str|apply dumpable_int; lia]).
Qed.

(** JSON remote calls do not return their results.  For the request of a
    client, its texts UTF-8, the server runs the method that is registered under
    the name, once, on the parameters, and makes the text the client would
    understand; but that text does not reach the response, and what the client
    gets from the response, however it is cut, is a parse error. *)
Theorem json_rpc_loses_results (order : gmap str str → list (str * str)) (s : @RpcServer J A) (req : HttpRequest)
    (m : str) (id : Z) (p r : J) (f : RpcMethod J A) (a a' : A)
    (Ho : order_ok order) (Hid : - 2 ^ 31 ≤ id < 2 ^ 31) (Hf : methods_ s !! m = Some f) (Hr : f p a = (Returns r, a'))
    (Hm : utf8 m = true) (Hdp : dumpable p) (Hdr : dumpable r) (Hreq : dump (request_json id m p) = Some (body req)) :
  ∃ text, makeResponse id r = Some text ∧
  call_text s (body req) a = (Some text, a') ∧ (handleRpcCall s req HttpResponse_new a).1 = Some HttpResponse_new ∧
  (∀ ls pieces, ls ≠ [] → Forall line_ok ls → Forall ("000"%char ∉.) pieces →
     mjoin pieces = join_lines ls ++ crlf2 ++ text → call_result pieces = Some r) ∧
  (∀ b pieces, Forall ("000"%char ∉.) pieces →
     mjoin pieces = toString order (set_close HttpResponse_new b) →
     call_result pieces = Some (failure (J := J) (#"JSON parse error"))).
Proof.
  destruct (response_dumps id r Hid Hdr) as (text & Ht & Hp). exists text. split; [exact Ht|].
  destruct (request_dumps id m p Hid Hm Hdp) as (t & Et & Hpt). rewrite Hreq in Et. injection Et as <-.
  assert (Hc : call_text s (body req) a = (Some text, a')) by (rewrite (call_text_request s id m p), Hf, Hr by done; by rewrite Ht).
  split; [exact Hc|]. split; [unfold handleRpcCall; by rewrite Hc|]. split.
  - intros ls pieces Hne Hls Hps E. rewrite (read_reply ls text pieces), Hp by done.
    destruct (response_result id r) as (H1 & H2 & _). by rewrite H1.
  - intros b pieces Hps E. rewrite untouched_text in E by done.
    rewrite (read_reply (bare_lines b) [] pieces) by (done || by destruct b; apply (bool_decide_unpack _)). by rewrite parse_empty.
Qed.

End Call.

(** ** The reactor client *)

Section Reactor.
Context {J : Type} `{Json J, JsonAccess J}.

(** The promises that are settled: fulfilled, or lost to an exception. *)
Definition fulfilled (evs : list (@Event J)) : list nat := omap (λ e, match e with Fulfil p _ | Abandon p => Some p | _ => None end) evs.

Definition count_calls (acts : list (@Act J)) : nat := length (List.filter (λ a, match a with Calls _ _ => true | _ => false end) acts).

(** The result a message carries, and the number it carries it for. *)
Definition reply_in (data : str) (i : Z) (v : J) : Prop :=
  ∃ h resp, find crlf2 data 0 = Some h ∧ parse (drop (h + 4) data) = Some resp ∧ value_int resp #"id" (-1) = Some i ∧
  (if has resp #"error" then at_null resp #"error" else at_null resp #"result") = Some v.

(** The promise [p] belongs to the number [p + 1]; those not in [done_] are
    pending. *)
Record reactor_inv (n : nat) (done_ : list nat) (c : ReactorRpcClient) : Prop := {
  ri_next : nextId_ c = Z.of_nat n + 1;
  ri_made : promises c = n;
  ri_done : NoDup done_ ∧ Forall (λ p, p < n)%nat done_;
  ri_pending : ∀ i p, pendingCalls_ c !! i = Some p ↔ i = Z.of_nat p + 1 ∧ (p < n)%nat ∧ p ∉ done_
}.

Lemma reactor_new : reactor_inv 0 [] ReactorRpcClient_new.
Proof.
  split; [done|done|split; constructor|]. intros i p. cbn [pendingCalls_ ReactorRpcClient_new]. rewrite lookup_empty.
  split; [done|intros (_ & ? & _); lia].
Qed.

(** Fulfilling a pending promise. *)
Lemma reactor_erase n done_ c i p :
  reactor_inv n done_ c → pendingCalls_ c !! i = Some p → reactor_inv n (p :: done_) (erase_call c i).
Proof.
  intros [H1 H2 [H3 H4] H5] Hp. pose proof (proj1 (H5 _ _) Hp) as (-> & Hlt & Hd). split; [done|done| |].
  - split; constructor; done.
  - intros i q. cbn [pendingCalls_ erase_call]. rewrite lookup_delete_Some, H5, not_elem_of_cons.
    split; [intros (Hne & -> & ? & ?)|intros (-> & ? & Hne & ?)]; split_and!; try done; try lia; intros ->; lia.
Qed.

Lemma reactor_same n done_ c c' :
  reactor_inv n done_ c → nextId_ c' = nextId_ c → promises c' = promises c → pendingCalls_ c' = pendingCalls_ c →
  reactor_inv n done_ c'.
Proof. intros [? ? ? ?] E1 E2 E3. split; rewrite ?E1, ?E2, ?E3; done. Qed.

Lemma reactor_call n done_ c m params : Z.of_nat n + 2 < 2 ^ 31 → reactor_inv n done_ c →
  reactor_inv (S n) (fulfilled (asyncCall c m params).1 ++ done_) (asyncCall c m params).2.
Proof.
  intros Hn [H1 H2 [H3 H4] H5]. unfold asyncCall. destruct (async_request _ m params) as [text|].
  2: { assert (Hf : n ∉ done_) by (intros Hin; rewrite Forall_forall in H4; apply H4 in Hin; lia).
    cbn [fst snd fulfilled omap list_omap app]. rewrite H2. split; cbn [nextId_ promises pendingCalls_].
    - rewrite H1. unfold i32. rewrite Z.mod_small; lia.
    - done.
    - split; [by constructor|]. constructor; [lia|]. eapply Forall_impl; [exact H4|]. cbn. lia.
    - intros i p. rewrite H5, not_elem_of_cons. split; [intros (-> & ? & ?); split_and!; try done; lia|].
      intros (-> & ? & ? & ?). split_and!; [done|lia|done]. }
  cbn [fst snd fulfilled omap list_omap app]. assert (Hf : n ∉ done_) by (intros Hin; rewrite Forall_forall in H4; apply H4 in Hin; lia).
  split; cbn [nextId_ promises pendingCalls_].
  - rewrite H1. unfold i32. rewrite Z.mod_small; lia.
  - by rewrite H2.
  - split; [done|]. eapply Forall_impl; [exact H4|]. cbn. lia.
  - intros i p. rewrite H1, H2. destruct (decide (i = Z.of_nat n + 1)) as [->|Hne].
    + rewrite lookup_insert_eq. split; [intros [= <-]; split_and!; [done|lia|done]|intros (? & ? & ?); f_equal; lia].
    + rewrite lookup_insert_ne by done. rewrite H5. split; intros (-> & ? & ?); split_and!; try done; lia.
Qed.

(** What an event may be, given what happened. *)
Definition event_ok (acts : list (@Act J)) (e : Event) : Prop :=
  match e with
  | Fulfil p v => v = failure (#"not connected") ∨ ∃ data, Arrives data ∈ acts ∧ reply_in data (Z.of_nat p + 1) v
  | SendRequest _ _ => True
  | Abandon p => ∃ m params, Calls m params ∈ acts ∧ async_request (Z.of_nat p + 1) m params = None
  end.

Lemma reactor_act n done_ c (a : @Act J) evs c' :
  Z.of_nat n + 2 < 2 ^ 31 → reactor_inv n done_ c → act c a = Some (evs, c') →
  reactor_inv (n + count_calls [a]) (fulfilled evs ++ done_) c' ∧ Forall (event_ok [a]) evs.
Proof.
  intros Hn Hi Ha. destruct a as [m params|id| | |data]; cbn [act] in Ha; cbn [count_calls List.filter length].
  - injection Ha as Ha. rewrite Nat.add_1_r. pose proof (reactor_call n done_ c m params Hn Hi) as Hc.
    rewrite Ha in Hc. split; [exact Hc|]. destruct Hi as [H1 H2 _ _]. revert Ha. unfold asyncCall. rewrite H1, H2.
    destruct (async_request _ m params) as [text|] eqn:E; intros [= <- <-]; [constructor|]. constructor; [|constructor].
    exists m, params. split; [by left|done].
  - rewrite Nat.add_0_r. destruct (waiting_ c !! id) as [text|]; [|done]. injection Ha as Ha. unfold after_wait in Ha. destruct (conn_ _).
    + injection Ha as <- <-. split; [by eapply reactor_same|]. by repeat constructor.
    + destruct (pendingCalls_ (stop_waiting c id) !! id) as [p|] eqn:E; injection Ha as <- <-.
      * split; [|repeat constructor; by left]. apply reactor_erase; [by eapply reactor_same|done].
      * split; [by eapply reactor_same|constructor].
  - injection Ha as <- <-. rewrite Nat.add_0_r. split; [by eapply reactor_same|constructor].
  - injection Ha as <- <-. rewrite Nat.add_0_r. split; [by eapply reactor_same|constructor].
  - injection Ha as Ha. rewrite Nat.add_0_r. revert Ha. unfold onMessage.
    destruct (find crlf2 data 0) as [h|] eqn:Eh; [|intros [= <- <-]; by split].
    destruct (parse (drop (h + 4) data)) as [resp|] eqn:Ep; [|intros [= <- <-]; by split]. cbn [mbind option_bind].
    destruct (value_int resp #"id" (-1)) as [i|] eqn:Ei; [|intros [= <- <-]; by split]. cbn [mbind option_bind].
    destruct (pendingCalls_ c !! i) as [p|] eqn:E; [|intros [= <- <-]; by split].
    destruct (if has resp #"error" then _ else _) as [v|] eqn:Ev; [|intros [= <- <-]; by split].
    intros [= <- <-]. split; [by apply reactor_erase|]. constructor; [|constructor]. right. exists data. split; [by left|].
    pose proof (proj1 (ri_pending _ _ _ Hi _ _) E) as [<- _]. by exists h, resp.
Qed.

Lemma event_ok_mono a1 a2 e : a1 ⊆ a2 → event_ok a1 e → event_ok a2 e.
Proof.
  destruct e as [p v| |p]; [|done|].
  - intros Hs [?|(data & Hd & Hr)]; [by left|right]. exists data. split; [by apply Hs|done].
  - intros Hs (m & params & Hc & E). exists m, params. split; [by apply Hs|done].
Qed.

Lemma reactor_run acts n done_ c evs c' :
  Z.of_nat (n + count_calls acts) + 2 < 2 ^ 31 → reactor_inv n done_ c → run c acts = Some (evs, c') →
  (∃ done', done' ≡ₚ fulfilled evs ++ done_ ∧ reactor_inv (n + count_calls acts) done' c') ∧ Forall (event_ok acts) evs.
Proof.
  revert n done_ c evs. induction acts as [|a acts IH]; intros n done_ c evs Hn Hi Hr.
  - injection Hr as <- <-. split; [|constructor]. exists done_. cbn. by rewrite Nat.add_0_r.
  - cbn [run] in Hr. destruct (act c a) as [[e1 c1]|] eqn:Ea; [|done]. cbn [mbind option_bind] in Hr.
    destruct (run c1 acts) as [[e2 c2]|] eqn:Er; [|done]. injection Hr as <- <-.
    assert (Ec : (count_calls (a :: acts) = count_calls [a] + count_calls acts)%nat)
      by (unfold count_calls; cbn [List.filter]; by destruct a).
    rewrite Ec in Hn |- *. destruct (reactor_act n done_ c a e1 c1) as [Hi1 Ho1]; [lia|done|done|].
    destruct (IH (n + count_calls [a])%nat (fulfilled e1 ++ done_) c1 e2) as [(d & Hd & Hi2) Ho2]; [lia|done|done|].
    split; [exists d; split; [|by rewrite Nat.add_assoc]|].
    + rewrite Hd. unfold fulfilled. rewrite omap_app, <-app_assoc. rewrite (app_assoc (omap _ e2)), (Permutation_app_comm (omap _ e2)).
      by rewrite <-app_assoc.
    + apply Forall_app. split; (eapply Forall_impl; [done|]; intros e; apply event_ok_mono; set_solver).
Qed.

(** The reactor client answers each call at most once, and with its own
    answer.  In any history of fewer than [2 ^ 31 - 3] calls, the promise of
    the [k]-th call is pending or settled, never both and never twice; what it
    is fulfilled with is either the failure to connect or the result (or error)
    of a message that arrived and bears the number [k]; and it is abandoned only
    by a call whose request cannot be dumped. *)
Theorem reactor_answers (acts : list (@Act J)) (evs : list Event) (c : ReactorRpcClient)
    (Hn : Z.of_nat (count_calls acts) + 2 < 2 ^ 31) (Hr : run ReactorRpcClient_new acts = Some (evs, c)) :
  promises c = count_calls acts ∧ NoDup (fulfilled evs) ∧
  (∀ p, (p < promises c)%nat → (p ∈ fulfilled evs ↔ pendingCalls_ c !! (Z.of_nat p + 1) = None)) ∧
  (∀ p v, Fulfil p v ∈ evs → v = failure (#"not connected") ∨
     ∃ data, Arrives data ∈ acts ∧ reply_in data (Z.of_nat p + 1) v) ∧
  (∀ p, Abandon p ∈ evs → ∃ m params, Calls m params ∈ acts ∧ async_request (Z.of_nat p + 1) m params = None).
Proof.
  destruct (reactor_run acts 0 [] _ _ _ Hn reactor_new Hr) as [(d & Hd & [H1 H2 [H3 H4] H5]) Ho]. rewrite app_nil_r in Hd.
  split; [done|]. split; [by rewrite <-Hd|]. split.
  - intros p Hp. rewrite <-Hd. destruct (pendingCalls_ c !! (Z.of_nat p + 1)) as [q|] eqn:E.
    + split; [|done]. intros Hin. apply H5 in E as (Heq & _ & Hq). assert (q = p) as -> by lia. done.
    + split; [done|intros _]. destruct (decide (p ∈ d)) as [|Hnd]; [done|]. exfalso.
      rewrite (proj2 (H5 (Z.of_nat p + 1) p)) in E; [done|]. split_and!; [done|lia|done].
  - rewrite Forall_forall in Ho. split; [intros p v Hin; exact (Ho _ Hin)|intros p Hin; exact (Ho _ Hin)].
Qed.

End Reactor.

(** ** Examples *)

Definition tree_null : tree := GenNode 3 [].

#[export] Instance tree_access : JsonAccess tree := {
  jnull := tree_null;
  str_at t k := l ← tree_fields t; v ← assoc k l; tree_str v;
  at_null t k := l ← tree_fields t; Some (default tree_null (assoc k l));
  has t k := match tree_fields t with Some l => bool_decide (is_Some (assoc k l)) | None => false end
}.

#[export] Instance tree_access_laws : JsonAccessLaws tree.
Proof.
  split; cbn [str_at at_null has tree_access jobj jstr tree_json]; intros; rewrite ?tree_fields_obj; cbn [mbind option_bind].
  - by rewrite H0.
  - by rewrite H0.
  - done.
Qed.

(** A method that returns its parameters, and counts. *)
Definition echo_method : RpcMethod tree nat := λ p a, (Returns p, S a).
Definition sample_rpc_server : @RpcServer tree nat := registerMethod RpcServer_new #"echo" echo_method.
Definition echo_params : tree := jstr #"hello".
Definition echo_request (id : Z) : HttpRequest := set_body HttpRequest_new (default [] (dump (request_json id #"echo" echo_params))).

Lemma json_rpc_loses_results_witness :
  ∃ text, call_text sample_rpc_server (body (echo_request 7)) 0%nat = (Some text, 1%nat) ∧
  (∀ b pieces, Forall ("000"%char ∉.) pieces →
     mjoin pieces = toString map_to_list (set_close HttpResponse_new b) →
     call_result pieces = Some (failure (J := tree) (#"JSON parse error"))).
Proof.
  destruct (json_rpc_loses_results map_to_list sample_rpc_server (echo_request 7) #"echo" 7 echo_params echo_params echo_method 0%nat 1%nat)
    as (text & _ & H1 & _ & _ & H2); [intros ?; reflexivity|lia|reflexivity|reflexivity|reflexivity|by apply dumpable_str|by apply dumpable_str|reflexivity|]. exists text. split; [exact H1|exact H2].
Defined.

(** A reply as another server would send it. *)
Definition reply_text (id : Z) : str := #"HTTP/1.1 200 OK" ++ crlf2 ++ default [] (makeResponse id echo_params).

Definition two_calls : list (@Act tree) :=
  [Calls #"echo" echo_params; Up; Calls #"echo" echo_params; Proceeds 2; Proceeds 1;
   Arrives (reply_text 2); Arrives (reply_text 2); Arrives (reply_text 1)].

Lemma two_calls_run : fulfilled <$> (fst <$> run ReactorRpcClient_new two_calls) = Some [1; 0]%nat.
Proof. vm_compute. reflexivity. Qed.

Lemma reactor_answers_witness :
  ∃ evs c, run ReactorRpcClient_new two_calls = Some (evs, c) ∧ fulfilled evs = [1; 0]%nat ∧ NoDup (fulfilled evs) ∧ promises c = 2%nat.
Proof.
  pose proof two_calls_run as H. destruct (run ReactorRpcClient_new two_calls) as [[evs c]|] eqn:E; [|discriminate H].
  injection H as H. exists evs, c. split; [reflexivity|]. split; [exact H|].
  destruct (reactor_answers two_calls evs c) as (H1 & H2 & _); [reflexivity|exact E|]. split; [exact H2|exact H1].
Defined.

(** A reply that arrives in two pieces is lost: the first piece is taken for a
    whole reply, and the second has no header. *)
Definition split_reply : list (@Act tree) :=
  [Calls #"echo" echo_params; Up; Proceeds 1; Arrives (#"HTTP/1.1 200 OK" ++ crlf2);
   Arrives (default [] (makeResponse 1 echo_params))].

Example split_reply_lost :
  (λ x, (fulfilled x.1, pendingCalls_ x.2 !! 1)) <$> run ReactorRpcClient_new split_reply = Some ([], Some 0%nat).
Proof. vm_compute. reflexivity. Qed.

(** A reply with a zero byte is cut there. *)
Example zero_byte_cuts : mjoin (c_str <$> [ #"ab" ++ "000"%char :: #"cd"; #"ef"]) = #"abef".
Proof. reflexivity. Qed.

(** A method name that is not UTF-8: the call throws, its promise is gone and
    its number is used up. *)
Example ill_formed_method_throws :
  run ReactorRpcClient_new [Calls [ "255"%char ] echo_params] = Some ([Abandon 0%nat], mkReactor 2 false ∅ 1 ∅).
Proof. vm_compute. reflexivity. Qed.
