(* ===== verification/ThreadPool.v ===== *)
(** * ThreadPool: workers with a queue each, and the object pool

    Models [src/util/ThreadPool.h] and [src/util/ObjectPool.h].  Threads
    interleave at the atomics, at the mutex of a worker's queue and at its
    condition variable; a history is a list of such steps.  A task is a number:
    that it throws makes no difference to the pool, which catches everything. *)

From S2P Require Import Prelude.

Open Scope nat_scope.

(** ** Workers *)

(** Where a worker's thread is: there is none, on its way to the mutex,
    waiting on the condition variable, in a task, returned. *)
Inductive Place := Unstarted | Ready | Waiting | Running (task : nat) | Exited.

#[export] Instance Place_eq_dec : EqDecision Place.
Proof. solve_decision. Defined.

(** The queue and the thread; [accepted] and [ran] record what was put into
    the queue so far and which tasks were finished. *)
Record Worker := mkWorker { queue : list nat; place : Place; accepted : list nat; ran : list nat }.

Definition Worker_new : Worker := mkWorker [] Unstarted [] [].

Definition set_place (w : Worker) (p : Place) : Worker := mkWorker (queue w) p (accepted w) (ran w).

(** A notification, or a spurious wake-up. *)
Definition wake (w : Worker) : Worker := match place w with Waiting => set_place w Ready | _ => w end.

(** ** The pool *)

Record ThreadPool := mkPool {
  maxQueueDepth_ : nat;
  running_ : bool;
  nextRoundRobin_ : Z;
  droppedTasks_ : Z;
  workers_ : list Worker;
  (* threads in [submit] or [stop] *)
  checked : list (nat * nat);      (* passed the test, before the queue: worker and task *)
  notifying : list nat;            (* have put a task into the queue, before [notify_one] *)
  stopping : list nat              (* workers [stop] has still to notify *)
}.

Definition ThreadPool_new (numThreads maxQueueDepth : nat) : ThreadPool :=
  mkPool maxQueueDepth false 0 0 (replicate numThreads Worker_new) [] [] [].

Definition set_workers (p : ThreadPool) (ws : list Worker) : ThreadPool :=
  mkPool (maxQueueDepth_ p) (running_ p) (nextRoundRobin_ p) (droppedTasks_ p) ws (checked p) (notifying p) (stopping p).
Definition set_callers (p : ThreadPool) (c : list (nat * nat)) (n s : list nat) : ThreadPool :=
  mkPool (maxQueueDepth_ p) (running_ p) (nextRoundRobin_ p) (droppedTasks_ p) (workers_ p) c n s.
Definition set_running (p : ThreadPool) (b : bool) : ThreadPool :=
  mkPool (maxQueueDepth_ p) b (nextRoundRobin_ p) (droppedTasks_ p) (workers_ p) (checked p) (notifying p) (stopping p).

Definition size (p : ThreadPool) : nat := length (workers_ p).

Definition start (p : ThreadPool) : ThreadPool :=
  if running_ p then p
  else set_workers (set_running p true) ((λ w, set_place w Ready) <$> workers_ p).

(** [stop] up to the exchange: whether it goes on to notify. *)
Definition stop_flag (p : ThreadPool) : ThreadPool :=
  if running_ p then set_callers (set_running p false) (checked p) (notifying p) (seq 0 (size p)) else p.

(** One turn of its first loop. *)
Definition stop_notify (p : ThreadPool) : option ThreadPool :=
  match stopping p with
  | [] => None
  | i :: rest => Some (set_callers (set_workers p (alter wake i (workers_ p))) (checked p) (notifying p) rest)
  end.

(** The test of [submit] and [submitAffinity], and the worker they choose. *)
Definition submit (p : ThreadPool) (task : nat) : bool * ThreadPool :=
  if negb (running_ p) || (size p =? 0) then (false, p)
  else
    let idx := Z.to_nat (nextRoundRobin_ p mod Z.of_nat (size p))%Z in
    (true, mkPool (maxQueueDepth_ p) (running_ p) (u64 (nextRoundRobin_ p + 1)) (droppedTasks_ p) (workers_ p)
             ((idx, task) :: checked p) (notifying p) (stopping p)).

Definition submitAffinity (p : ThreadPool) (key : Z) (task : nat) : bool * ThreadPool :=
  if negb (running_ p) || (size p =? 0) then (false, p)
  else
    let idx := Z.to_nat (key mod Z.of_nat (size p))%Z in
    (true, set_callers p ((idx, task) :: checked p) (notifying p) (stopping p)).

(** [enqueue] up to the end of its critical section. *)
Definition enqueue (p : ThreadPool) (idx task : nat) : bool * ThreadPool :=
  match workers_ p !! idx with
  | None => (false, p)
  | Some w =>
      if maxQueueDepth_ p <=? length (queue w)
      then (false, mkPool (maxQueueDepth_ p) (running_ p) (nextRoundRobin_ p) (u64 (droppedTasks_ p + 1)) (workers_ p)
                     (checked p) (notifying p) (stopping p))
      else (true, set_callers (set_workers p (<[idx := mkWorker (queue w ++ [task]) (place w) (accepted w ++ [task]) (ran w)]> (workers_ p)))
                    (checked p) (idx :: notifying p) (stopping p))
  end.

(** [workerLoop] from the lock to the next wait, return or task. *)
Definition look (running : bool) (w : Worker) : Worker :=
  match queue w with
  | task :: q => mkWorker q (Running task) (accepted w) (ran w)
  | [] => set_place w (if running then Waiting else Exited)
  end.

(** The end of a task, with or without an exception. *)
Definition finish (w : Worker) (task : nat) : Worker := mkWorker (queue w) Ready (accepted w) (ran w ++ [task]).

Definition pendingTasks (p : ThreadPool) : nat := sum_list ((λ w, length (queue w)) <$> workers_ p).
Definition pendingTasks_of (p : ThreadPool) (workerIdx : nat) : nat :=
  match workers_ p !! workerIdx with Some w => length (queue w) | None => 0 end.

(** ** Histories *)

Inductive Act :=
  | Start | StopFlag | StopNotify
  | Submit (task : nat) | SubmitAffinity (key : Z) (task : nat)
  | Enqueue (k : nat)             (* the [k]-th of those that passed the test *)
  | Notify (k : nat)
  | Look (i : nat) | Finish (i : nat) | Spurious (i : nat).

Definition worker_step (p : ThreadPool) (a : Act) : option ThreadPool :=
  match a with
  | Look i => w ← workers_ p !! i;
      if decide (place w = Ready) then Some (set_workers p (<[i := look (running_ p) w]> (workers_ p))) else None
  | Finish i => w ← workers_ p !! i;
      match place w with Running task => Some (set_workers p (<[i := finish w task]> (workers_ p))) | _ => None end
  | _ => None
  end.

Definition act (p : ThreadPool) (a : Act) : option ThreadPool :=
  match a with
  | Start => if bool_decide (stopping p = []) && forallb (λ w, bool_decide (place w = Unstarted ∨ place w = Exited) || running_ p) (workers_ p)
             then Some (start p) else None
  | StopFlag => Some (stop_flag p)
  | StopNotify => stop_notify p
  | Submit task => Some (submit p task).2
  | SubmitAffinity key task => Some (submitAffinity p key task).2
  | Enqueue k => '(idx, task) ← checked p !! k;
      Some (enqueue (set_callers p (delete k (checked p)) (notifying p) (stopping p)) idx task).2
  | Notify k => idx ← notifying p !! k;
      Some (set_callers (set_workers p (alter wake idx (workers_ p))) (checked p) (delete k (notifying p)) (stopping p))
  | Spurious i => Some (set_workers p (alter wake i (workers_ p)))
  | _ => worker_step p a
  end.

Fixpoint run (p : ThreadPool) (acts : list Act) : option ThreadPool :=
  match acts with [] => Some p | a :: acts => p1 ← act p a; run p1 acts end.

(** ** What holds at all times *)

Definition current (w : Worker) : list nat := match place w with Running t => [t] | _ => [] end.

Record worker_ok (p : ThreadPool) (i : nat) (w : Worker) : Prop := {
  wk_tasks : accepted w = ran w ++ current w ++ queue w;
  wk_depth : length (queue w) ≤ maxQueueDepth_ p;
  wk_task_seen : place w = Waiting → queue w = [] ∨ i ∈ notifying p;
  wk_stop_seen : place w = Waiting → running_ p = true ∨ i ∈ stopping p;
  wk_alive : running_ p = true → place w ≠ Unstarted ∧ place w ≠ Exited
}.

Definition pool_ok (p : ThreadPool) : Prop := ∀ i w, workers_ p !! i = Some w → worker_ok p i w.

(** The parts of the pool a worker's invariant speaks of, except its own. *)
Definition same_or_more (p p' : ThreadPool) (i : nat) : Prop :=
  maxQueueDepth_ p' = maxQueueDepth_ p ∧ running_ p' = running_ p ∧
  (i ∈ notifying p → i ∈ notifying p') ∧ (i ∈ stopping p → i ∈ stopping p').

Lemma worker_ok_same p p' i w : same_or_more p p' i → worker_ok p i w → worker_ok p' i w.
Proof. intros (E1 & E2 & Hn & Hs) [H1 H2 H3 H4 H5]. split; rewrite ?E1, ?E2; [done|done|naive_solver..|done]. Qed.

(** One worker is changed. *)
Lemma pool_ok_one p p' i f :
  pool_ok p → workers_ p' = alter f i (workers_ p) → (∀ j, j ≠ i → same_or_more p p' j) →
  (∀ w, workers_ p !! i = Some w → worker_ok p i w → worker_ok p' i (f w)) → pool_ok p'.
Proof.
  intros Hok E Ho Hi j w. rewrite E. destruct (decide (j = i)) as [->|Hne].
  - rewrite list_lookup_alter_eq. intros (w0 & Hw & ->)%fmap_Some. eauto.
  - rewrite list_lookup_alter_ne by done. intros Hw. eapply worker_ok_same; [by apply Ho|by apply Hok].
Qed.

Lemma alter_insert_worker (ws : list Worker) i w w' : ws !! i = Some w → <[i := w']> ws = alter (λ _, w') i ws.
Proof. intros Hw. apply list_eq. intros j. destruct (decide (i = j)) as [<-|Hne].
  - rewrite list_lookup_insert_eq, list_lookup_alter_eq, Hw; [done|by eapply lookup_lt_Some].
  - by rewrite list_lookup_insert_ne, list_lookup_alter_ne.
Qed.

Lemma wake_ok p p' i w :
  running_ p' = running_ p → maxQueueDepth_ p' = maxQueueDepth_ p → worker_ok p i w → worker_ok p' i (wake w).
Proof.
  intros E1 E2 [H1 H2 H3 H4 H5]. unfold wake. destruct (place w) eqn:E; split; rewrite ?E1, ?E2, ?E; try done.
  unfold current in *. by rewrite E in H1.
Qed.

Lemma look_ok p i w : place w = Ready → worker_ok p i w → worker_ok p i (look (running_ p) w).
Proof.
  intros E [H1 H2 H3 H4 H5]. unfold look, current in *. rewrite E in *. destruct (queue w) as [|t q] eqn:Eq.
  - destruct (running_ p) eqn:Er; split; cbn; rewrite ?Eq, ?Er; try done; by left.
  - split; cbn; try done. cbn in H2. lia.
Qed.

Lemma finish_ok p i w t : place w = Running t → worker_ok p i w → worker_ok p i (finish w t).
Proof. intros E [H1 H2 H3 H4 H5]. unfold current in *. rewrite E in *. split; cbn; try done. by rewrite <-app_assoc. Qed.

Lemma worker_step_ok p a p' : pool_ok p → worker_step p a = Some p' → pool_ok p'.
Proof.
  intros Hok. destruct a as [| | | | | | |i|i|]; cbn [worker_step]; try done;
    destruct (workers_ p !! i) as [w|] eqn:Hw; cbn [mbind option_bind]; try done.
  - destruct (decide (place w = Ready)) as [E|]; [|done]. intros [= <-].
    eapply (pool_ok_one p _ i (λ _, look (running_ p) w)); [done|by apply (alter_insert_worker _ _ w)|done|].
    intros w0 Hw0 Hk. rewrite Hw in Hw0. injection Hw0 as <-. apply (worker_ok_same p); [done|by apply look_ok].
  - destruct (place w) eqn:E; try done. intros [= <-].
    eapply (pool_ok_one p _ i (λ _, finish w task)); [done|by apply (alter_insert_worker _ _ w)|done|].
    intros w0 Hw0 Hk. rewrite Hw in Hw0. injection Hw0 as <-. apply (worker_ok_same p); [done|by apply finish_ok].
Qed.

Lemma submit_same p t i : same_or_more p (submit p t).2 i ∧ workers_ (submit p t).2 = workers_ p.
Proof. unfold submit. by destruct (_ || _). Qed.
Lemma affinity_same p key t i : same_or_more p (submitAffinity p key t).2 i ∧ workers_ (submitAffinity p key t).2 = workers_ p.
Proof. unfold submitAffinity. by destruct (_ || _). Qed.

Lemma enqueue_ok p idx t : pool_ok p → pool_ok (enqueue p idx t).2.
Proof.
  intros Hok. unfold enqueue. destruct (workers_ p !! idx) as [w|] eqn:Hw; [|done].
  destruct (maxQueueDepth_ p <=? length (queue w)) eqn:Ed; cbn [snd].
  - intros i w' Hw'. eapply worker_ok_same; [|by apply Hok]. done.
  - apply Nat.leb_gt in Ed. eapply pool_ok_one; [done|by apply (alter_insert_worker _ _ w)| |].
    + intros j _. split_and!; try done. cbn. intros. by right.
    + intros w0 Hw0 [H1 H2 H3 H4 H5]. rewrite Hw in Hw0. injection Hw0 as <-. split; cbn; try done.
      * rewrite H1. unfold current. cbn. by rewrite !app_assoc.
      * rewrite length_app. cbn. lia.
      * intros _. right. by left.
Qed.

Lemma not_removed (l : list nat) k idx j : l !! k = Some idx → j ≠ idx → j ∈ l → j ∈ delete k l.
Proof. intros Hk Hne Hj. rewrite (delete_Permutation l k idx Hk) in Hj. by apply elem_of_cons in Hj as [->|]. Qed.

Lemma act_ok p a p' : pool_ok p → act p a = Some p' → pool_ok p'.
Proof.
  intros Hok. destruct a as [| | |t|key t|k|k|i|i|i]; cbn [act].
  - case_match eqn:Eg; [|done]. intros [= <-]. unfold start. destruct (running_ p) eqn:Er; [done|].
    intros i w. cbn [set_workers set_running workers_]. rewrite list_lookup_fmap. intros (w0 & Hw0 & ->)%fmap_Some.
    pose proof (Hok i w0 Hw0) as [H1 H2 H3 H4 H5].
    apply andb_prop in Eg as [_ Eg]. rewrite forallb_forall in Eg. specialize (Eg w0).
    rewrite orb_false_r in Eg. rewrite bool_decide_eq_true in Eg.
    assert (Hp : place w0 = Unstarted ∨ place w0 = Exited) by (apply Eg; apply list_elem_of_In; by eapply list_elem_of_lookup_2).
    split; cbn; try done. rewrite H1. unfold current. by destruct Hp as [-> | ->].
  - intros [= <-]. unfold stop_flag. destruct (running_ p) eqn:Er; [|done]. intros i w Hw. cbn in Hw.
    destruct (Hok i w Hw) as [H1 H2 H3 H4 H5]. split; cbn; try done. intros _. right. apply elem_of_seq.
    unfold size. apply lookup_lt_Some in Hw. lia.
  - unfold stop_notify. destruct (stopping p) as [|i rest] eqn:Es; [done|]. intros [= <-].
    eapply pool_ok_one; [done|reflexivity| |].
    + intros j Hj. split_and!; try done. rewrite Es. cbn. intros [->|]%elem_of_cons; done.
    + intros w _. by apply wake_ok.
  - intros [= <-] i w. rewrite (proj2 (submit_same p t i)). intros Hw. eapply worker_ok_same; [apply submit_same|by apply Hok].
  - intros [= <-] i w. rewrite (proj2 (affinity_same p key t i)). intros Hw. eapply worker_ok_same; [apply affinity_same|by apply Hok].
  - destruct (checked p !! k) as [[idx t]|]; [|done]. intros [= <-]. apply enqueue_ok. intros i w Hw.
    eapply worker_ok_same; [|by apply Hok]. done.
  - destruct (notifying p !! k) as [idx|] eqn:Ek; [|done]. intros [= <-]. eapply pool_ok_one; [done|reflexivity| |].
    + intros j Hj. split_and!; try done. cbn. by eapply not_removed.
    + intros w _. by apply wake_ok.
  - by apply worker_step_ok.
  - by apply worker_step_ok.
  - intros [= <-]. eapply pool_ok_one; [done|reflexivity|done|]. intros w _. by apply wake_ok.
Qed.

Lemma threads_new_ok n d : pool_ok (ThreadPool_new n d).
Proof.
  intros i w Hw. cbn in Hw. apply lookup_replicate in Hw as [-> _]. split; cbn; try done; lia.
Qed.

Lemma threads_run_ok acts p p' : pool_ok p → run p acts = Some p' → pool_ok p'.
Proof.
  revert p. induction acts as [|a acts IH]; intros p Hok Hr; [by injection Hr as <-|]. cbn [run] in Hr.
  destruct (act p a) as [p1|] eqn:Ea; [|done]. cbn [mbind option_bind] in Hr. eapply IH; [|exact Hr]. by eapply act_ok.
Qed.

(** Workers run what they were given, in order, once.  In any interleaving,
    the tasks a worker has run, the one it is in and its queue are together
    exactly the tasks put into its queue, in that order; the queue keeps its
    limit; and a worker that waits has nothing in its queue unless somebody is
    about to notify it, nor has it missed that the pool stops. *)
Theorem tasks_in_order (n d : nat) (acts : list Act) (p : ThreadPool) (i : nat) (w : Worker)
    (Hr : run (ThreadPool_new n d) acts = Some p) (Hw : workers_ p !! i = Some w) :
  accepted w = ran w ++ current w ++ queue w ∧ length (queue w) ≤ maxQueueDepth_ p ∧
  (place w = Waiting → (queue w = [] ∨ i ∈ notifying p) ∧ (running_ p = true ∨ i ∈ stopping p)).
Proof.
  destruct (threads_run_ok _ _ _ (threads_new_ok n d) Hr i w Hw) as [H1 H2 H3 H4 _]. auto.
Qed.

(** ** Stopping *)

(** The steps a worker's thread has still to do when nothing is added. *)
Definition weight (w : Worker) : nat :=
  2 * length (queue w) + match place w with Running _ => 2 | Ready | Waiting => 1 | Unstarted | Exited => 0 end.
Arguments weight : simpl never.
Definition steps_left (p : ThreadPool) : nat := sum_list (weight <$> workers_ p).

Definition is_worker_step (a : Act) : bool := match a with Look _ | Finish _ => true | _ => false end.
Definition worker_steps (acts : list Act) : nat := length (List.filter is_worker_step acts).

Lemma sum_weight w ws : sum_list (weight <$> w :: ws) = weight w + sum_list (weight <$> ws).
Proof. done. Qed.

Lemma sum_insert (ws : list Worker) i w w' k :
  ws !! i = Some w → weight w = k + weight w' → sum_list (weight <$> ws) = k + sum_list (weight <$> <[i := w']> ws).
Proof.
  revert i. induction ws as [|v ws IH]; intros [|i] Hw Hk; [done..| |].
  - injection Hw as ->. change (<[0 := w']> (w :: ws)) with (w' :: ws). rewrite !sum_weight. lia.
  - change (<[S i := w']> (v :: ws)) with (v :: <[i := w']> ws). rewrite !sum_weight, (IH i Hw Hk). lia.
Qed.

Lemma weight_wake w : weight (wake w) = weight w.
Proof. unfold wake, weight. by destruct (place w) eqn:E; cbn; rewrite ?E. Qed.

Lemma steps_wake p i : sum_list (weight <$> alter wake i (workers_ p)) = steps_left p.
Proof.
  unfold steps_left. f_equal. apply list_eq. intros j. rewrite !list_lookup_fmap.
  destruct (decide (j = i)) as [->|Hne]; [rewrite list_lookup_alter_eq|by rewrite list_lookup_alter_ne].
  destruct (workers_ p !! i); cbn; [by rewrite weight_wake|done].
Qed.

(** A pool that is stopping, and into which nobody puts anything any more. *)
Definition winding_down (p : ThreadPool) : Prop := running_ p = false ∧ checked p = [].

(** Two states in which the same was put into every queue. *)
Definition same_accepted (p p' : ThreadPool) : Prop := accepted <$> workers_ p' = accepted <$> workers_ p.

Lemma accepted_insert (ws : list Worker) i w w' :
  ws !! i = Some w → accepted w' = accepted w → accepted <$> <[i := w']> ws = accepted <$> ws.
Proof.
  intros Hw E. rewrite list_fmap_insert, E. apply list_insert_id. by rewrite list_lookup_fmap, Hw.
Qed.

Lemma accepted_wake p i : accepted <$> alter wake i (workers_ p) = accepted <$> workers_ p.
Proof.
  apply list_eq. intros j. rewrite !list_lookup_fmap. destruct (decide (j = i)) as [->|Hne]; [|by rewrite list_lookup_alter_ne].
  rewrite list_lookup_alter_eq. destruct (workers_ p !! i) as [w|]; [|done]. cbn. f_equal. unfold wake. by destruct (place w).
Qed.

Lemma worker_step_down p a p' :
  winding_down p → worker_step p a = Some p' →
  winding_down p' ∧ same_accepted p p' ∧ steps_left p = 1 + steps_left p' ∧ is_worker_step a = true.
Proof.
  intros [Hr Hc]. destruct a as [| | | | | | |i|i|]; cbn [worker_step]; try done;
    destruct (workers_ p !! i) as [w|] eqn:Hw; cbn [mbind option_bind]; try done.
  - destruct (decide (place w = Ready)) as [E|]; [|done]. intros [= <-]. split; [done|]. split_and!; [| |done].
    + apply accepted_insert with w; [done|]. unfold look. by destruct (queue w).
    + apply (sum_insert (workers_ p) i w (look (running_ p) w) 1); [done|]. unfold look, weight. rewrite Hr, E. destruct (queue w) eqn:Eq; cbn; rewrite ?Eq; cbn; lia.
  - destruct (place w) eqn:E; try done. intros [= <-]. split; [done|]. split_and!; [| |done].
    + by apply accepted_insert with w.
    + apply (sum_insert (workers_ p) i w (finish w task) 1); [done|]. unfold weight. rewrite E. cbn. lia.
Qed.

Lemma act_down p a p' :
  winding_down p → a ≠ Start → act p a = Some p' →
  winding_down p' ∧ same_accepted p p' ∧ steps_left p = (if is_worker_step a then 1 else 0) + steps_left p'.
Proof.
  intros Hd Hne. pose proof Hd as [Hr Hc]. destruct a as [| | |t|key t|k|k|i|i|i]; cbn [act]; [done|..].
  - intros [= <-]. unfold stop_flag. by rewrite Hr.
  - unfold stop_notify. destruct (stopping p) as [|i rest]; [done|]. intros [= <-]. split; [done|]. split; [apply accepted_wake|].
    unfold steps_left at 2. cbn. by rewrite steps_wake.
  - intros [= <-]. unfold submit. by rewrite Hr.
  - intros [= <-]. unfold submitAffinity. by rewrite Hr.
  - by rewrite Hc.
  - destruct (notifying p !! k) as [idx|]; [|done]. intros [= <-]. split; [done|]. split; [apply accepted_wake|].
    unfold steps_left at 2. cbn. by rewrite steps_wake.
  - intros Ha. by destruct (worker_step_down p _ p' Hd Ha) as (? & ? & ? & ->).
  - intros Ha. by destruct (worker_step_down p _ p' Hd Ha) as (? & ? & ? & ->).
  - intros [= <-]. split; [done|]. split; [apply accepted_wake|]. unfold steps_left at 2. cbn. by rewrite steps_wake.
Qed.

Lemma run_down acts p p' :
  winding_down p → Start ∉ acts → run p acts = Some p' →
  winding_down p' ∧ same_accepted p p' ∧ steps_left p = worker_steps acts + steps_left p'.
Proof.
  revert p. induction acts as [|a acts IH]; intros p Hd Hs Hr; [by injection Hr as <-|].
  apply not_elem_of_cons in Hs as [Ha Hs]. cbn [run] in Hr. destruct (act p a) as [p1|] eqn:Ea; [|done]. cbn [mbind option_bind] in Hr.
  destruct (act_down p a p1 Hd (not_eq_sym Ha) Ea) as (Hd1 & Hacc1 & Hst1). destruct (IH p1 Hd1 Hs Hr) as (Hd2 & Hacc2 & Hst2).
  split; [done|]. split; [by unfold same_accepted in *; rewrite Hacc2|]. rewrite Hst1, Hst2. unfold worker_steps. cbn [List.filter].
  destruct (is_worker_step a); cbn; lia.
Qed.

(** When every worker that is to be notified was, somebody can go on. *)
Lemma can_go_on p i w :
  pool_ok p → winding_down p → stopping p = [] → workers_ p !! i = Some w → place w ≠ Exited → place w ≠ Unstarted →
  ∃ a, is_worker_step a = true ∧ is_Some (worker_step p a).
Proof.
  intros Hok [Hr _] Hs Hw He Hu. destruct (Hok i w Hw) as [_ _ _ H4 _]. destruct (place w) eqn:E; try done.
  - exists (Look i). cbn [worker_step]. rewrite Hw. cbn. rewrite decide_True by done. eauto.
  - destruct (H4 eq_refl) as [Hrun|Hin]; [congruence|]. rewrite Hs in Hin. by apply not_elem_of_nil in Hin.
  - exists (Finish i). cbn [worker_step]. rewrite Hw. cbn. rewrite E. eauto.
Qed.

(** Once the pool winds down: a thread that has returned left nothing. *)
Definition settled (w : Worker) : Prop := place w ≠ Unstarted ∧ (place w = Exited → queue w = []).
Definition all_settled (p : ThreadPool) : Prop := ∀ i w, workers_ p !! i = Some w → settled w.

Lemma settled_one p p' i f :
  workers_ p' = alter f i (workers_ p) → (∀ w, workers_ p !! i = Some w → settled w → settled (f w)) →
  all_settled p → all_settled p'.
Proof.
  intros E Hf Hst j w. rewrite E. destruct (decide (j = i)) as [->|Hne]; [|rewrite list_lookup_alter_ne by done; apply Hst].
  rewrite list_lookup_alter_eq. intros (w0 & Hw & ->)%fmap_Some. apply Hf; [done|]. by eapply Hst.
Qed.

Lemma settled_wake w : settled w → settled (wake w).
Proof. unfold settled, wake. destruct (place w) eqn:E; cbn; rewrite ?E; intuition congruence. Qed.

Lemma settled_act p a p' : winding_down p → a ≠ Start → all_settled p → act p a = Some p' → all_settled p'.
Proof.
  intros [Hr Hc] Hne Hst. destruct a as [| | |t|key t|k|k|i|i|i]; cbn [act worker_step]; [done|..].
  - intros [= <-]. unfold stop_flag. by rewrite Hr.
  - unfold stop_notify. destruct (stopping p) as [|i rest]; [done|]. intros [= <-]. eapply settled_one; [reflexivity| |done]. intros w _. apply settled_wake.
  - intros [= <-]. unfold submit. by rewrite Hr.
  - intros [= <-]. unfold submitAffinity. by rewrite Hr.
  - by rewrite Hc.
  - destruct (notifying p !! k) as [idx|]; [|done]. intros [= <-]. eapply settled_one; [reflexivity| |done]. intros w _. apply settled_wake.
  - destruct (workers_ p !! i) as [w|] eqn:Hw; [|done]. cbn [mbind option_bind]. destruct (decide _); [|done]. intros [= <-].
    eapply settled_one; [by apply (alter_insert_worker _ _ w)| |done]. intros w0 _ _. cbn beta. unfold look. rewrite Hr.
    destruct (queue w) eqn:Eq; by split.
  - destruct (workers_ p !! i) as [w|] eqn:Hw; [|done]. cbn [mbind option_bind]. destruct (place w) eqn:E; try done. intros [= <-].
    eapply settled_one; [by apply (alter_insert_worker _ _ w)| |done]. by intros.
  - intros [= <-]. eapply settled_one; [reflexivity| |done]. intros w _. apply settled_wake.
Qed.

Lemma settled_run acts p p' : winding_down p → Start ∉ acts → all_settled p → run p acts = Some p' → all_settled p'.
Proof.
  revert p. induction acts as [|a acts IH]; intros p Hd Hs Hst Hr; [by injection Hr as <-|].
  apply not_elem_of_cons in Hs as [Ha Hs]. cbn [run] in Hr. destruct (act p a) as [p1|] eqn:Ea; [|done]. cbn [mbind option_bind] in Hr.
  destruct (act_down p a p1 Hd (not_eq_sym Ha) Ea) as (Hd1 & _). apply (IH p1); [done|done| |done].
  by apply (settled_act p a); [|apply not_eq_sym| |].
Qed.

(** C33: [stop] runs what was accepted, and returns.  Let the pool be stopped
    when no submitter is between its test and the queue.  Then whatever the
    threads do, short of starting the pool again: nothing is added to a queue;
    the workers' own steps are no more than what the queues hold; as long as a
    worker has not returned, once [stop] has notified them all, some worker can
    go on, so that the joins end; and a worker that has returned has run every
    task it was ever given, in order. *)
Theorem stop_drains (n d : nat) (acts acts' : list Act) (p p' : ThreadPool)
    (Hr : run (ThreadPool_new n d) acts = Some p) (Hup : running_ p = true) (Hc : checked p = [])
    (Hs : Start ∉ acts') (Hr' : run (stop_flag p) acts' = Some p') :
  (∀ i w w', workers_ p !! i = Some w → workers_ p' !! i = Some w' →
     accepted w' = accepted w ∧ (place w' = Exited → ran w' = accepted w)) ∧
  worker_steps acts' + steps_left p' = steps_left p ∧
  (stopping p' = [] → (∀ i w', workers_ p' !! i = Some w' → place w' = Exited) ∨
                      ∃ a, is_worker_step a = true ∧ is_Some (worker_step p' a)).
Proof.
  pose proof (threads_run_ok _ _ _ (threads_new_ok n d) Hr) as Hok.
  assert (Hok0 : pool_ok (stop_flag p)) by (by apply (act_ok p StopFlag)).
  assert (Hd0 : winding_down (stop_flag p)) by (unfold stop_flag; by rewrite Hup).
  assert (Hw0 : workers_ (stop_flag p) = workers_ p) by (unfold stop_flag; by rewrite Hup).
  assert (Hst0 : all_settled (stop_flag p)).
  { intros i w. rewrite Hw0. intros Hw. destruct (wk_alive _ _ _ (Hok i w Hw) Hup). by split. }
  destruct (run_down acts' _ _ Hd0 Hs Hr') as (Hd & Hacc & Hsteps). unfold same_accepted in Hacc. rewrite Hw0 in Hacc.
  pose proof (settled_run acts' _ _ Hd0 Hs Hst0 Hr') as Hst. pose proof (threads_run_ok _ _ _ Hok0 Hr') as Hok'. split_and!.
  - intros i w w' Hw Hw'. apply (f_equal (.!! i)) in Hacc. rewrite !list_lookup_fmap, Hw, Hw' in Hacc. injection Hacc as Hacc.
    split; [done|]. intros He. destruct (Hst i w' Hw') as [_ Hq]. destruct (Hok' i w' Hw') as [H1 _ _ _ _].
    rewrite <-Hacc, H1, (Hq He). unfold current. rewrite He. by rewrite app_nil_r.
  - unfold steps_left in *. rewrite Hw0 in Hsteps. by rewrite Hsteps.
  - intros Hn. destruct (decide (Forall (λ w, place w = Exited) (workers_ p'))) as [Hall|Hex].
    + left. rewrite Forall_lookup in Hall. exact Hall.
    + right. apply not_Forall_Exists in Hex; [|apply _]. apply Exists_exists in Hex as (w & (i & Hw)%list_elem_of_lookup_1 & Hne).
      apply (can_go_on p' i w); [done|done|done|done|done|]. apply (Hst i w Hw).
Qed.

(** A submitter that passed its test before [stop] and comes to the queue after
    the worker has returned: the task was accepted and is never run. *)
Definition late_submit : list Act := [Start; Submit 7; StopFlag; StopNotify; Look 0; Enqueue 0; Notify 0].

Example late_task_stranded :
  (λ p, (λ w, (place w, queue w)) <$> workers_ p) <$> run (ThreadPool_new 1 10) late_submit = Some [(Exited, [7])].
Proof. vm_compute. reflexivity. Qed.

(** ** Witnesses *)

Definition busy_acts : list Act :=
  [Start; Look 0; Submit 1; SubmitAffinity 2 2; Enqueue 1; Enqueue 0; Notify 0; Look 1; Look 0; Submit 3; Submit 4; Enqueue 1; Notify 0].

Lemma tasks_in_order_witness :
  ∃ p w, run (ThreadPool_new 2 5) busy_acts = Some p ∧ workers_ p !! 0 = Some w ∧ accepted w = [1; 2] ∧ accepted w = ran w ++ current w ++ queue w.
Proof.
  assert (H : (p ← run (ThreadPool_new 2 5) busy_acts; w ← workers_ p !! 0; Some (accepted w)) = Some [1; 2]) by (vm_compute; reflexivity).
  destruct (run (ThreadPool_new 2 5) busy_acts) as [p|] eqn:E; [|discriminate H]. cbn [mbind option_bind] in H.
  destruct (workers_ p !! 0) as [w|] eqn:Ew; [|discriminate H]. injection H as H. exists p, w.
  split; [reflexivity|]. split; [exact Ew|]. split; [exact H|]. exact (proj1 (tasks_in_order 2 5 busy_acts p 0 w E Ew)).
Defined.

Definition quiet_acts : list Act := busy_acts ++ [Enqueue 0].
Definition stop_acts : list Act := [StopNotify; Finish 0; Look 0; StopNotify; Finish 0; Look 0].

Lemma stop_drains_witness :
  ∃ p p', run (ThreadPool_new 2 5) quiet_acts = Some p ∧ run (stop_flag p) stop_acts = Some p' ∧
    worker_steps stop_acts + steps_left p' = steps_left p.
Proof.
  assert (H : (p ← run (ThreadPool_new 2 5) quiet_acts; p' ← run (stop_flag p) stop_acts; Some (running_ p, checked p)) = Some (true, []))
    by (vm_compute; reflexivity).
  destruct (run (ThreadPool_new 2 5) quiet_acts) as [p|] eqn:E; [|discriminate H]. cbn [mbind option_bind] in H.
  destruct (run (stop_flag p) stop_acts) as [p'|] eqn:E'; [|discriminate H]. injection H as H1 H2. exists p, p'.
  split; [reflexivity|]. split; [exact E'|]. destruct (stop_drains 2 5 quiet_acts stop_acts p p') as (_ & H3 & _); [exact E|exact H1|exact H2| |exact E'|exact H3].
  unfold stop_acts. rewrite !not_elem_of_cons. split_and!; try discriminate. apply not_elem_of_nil.
Defined.
