(* ===== verification/ObjectPool.v ===== *)
(** * ObjectPool: pooled objects and their deleter

    Models [src/util/ObjectPool.h].  Objects are numbered as they are made; a
    [unique_ptr] given out is a number in [out].  Every operation is one
    critical section of the core; [alive] says whether the pool still owns it,
    so that the deleter's [weak_ptr] can be locked. *)

From S2P Require Import Prelude.

Open Scope nat_scope.

Section ObjectPool.
Context {T : Type} (fresh : T).

Record ObjectPool := mkPool {
  pool : list nat;              (* idle, the last one on top *)
  maxSize : nat;
  totalCreated : nat;
  resetFunc : option (T → T);
  alive : bool;
  (* the heap *)
  objects : gmap nat T;
  next : nat;
  out : gset nat;
  deleted : list nat
}.

Definition ObjectPool_new (initialSize max : nat) : ObjectPool :=
  mkPool (rev (seq 0 initialSize)) (if max =? 0 then initialSize * 2 else max) initialSize None true
    (list_to_map ((λ i, (i, fresh)) <$> seq 0 initialSize)) initialSize ∅ [].

Definition acquire (p : ObjectPool) : option nat * ObjectPool :=
  match pool p with
  | obj :: rest =>
      (Some obj, mkPool rest (maxSize p) (totalCreated p) (resetFunc p) (alive p) (objects p) (next p) (out p ∪ {[obj]}) (deleted p))
  | [] =>
      if totalCreated p <? maxSize p
      then (Some (next p), mkPool [] (maxSize p) (S (totalCreated p)) (resetFunc p) (alive p) (<[next p := fresh]> (objects p)) (S (next p))
                             (out p ∪ {[next p]}) (deleted p))
      else (None, p)
  end.

(** [Deleter::operator()], also what [release] comes to. *)
Definition Deleter (p : ObjectPool) (ptr : nat) : ObjectPool :=
  if alive p
  then mkPool (ptr :: pool p) (maxSize p) (totalCreated p) (resetFunc p) (alive p)
         (match resetFunc p with Some f => alter f ptr (objects p) | None => objects p end) (next p) (out p ∖ {[ptr]}) (deleted p)
  else mkPool (pool p) (maxSize p) (totalCreated p) (resetFunc p) (alive p) (delete ptr (objects p)) (next p) (out p ∖ {[ptr]})
         (ptr :: deleted p).

Definition setResetFunc (p : ObjectPool) (f : T → T) : ObjectPool :=
  mkPool (pool p) (maxSize p) (totalCreated p) (Some f) (alive p) (objects p) (next p) (out p) (deleted p).

Definition available (p : ObjectPool) : nat := length (pool p).

(** The pool goes, and with it the core: [~PoolCore]. *)
Definition destroy (p : ObjectPool) : ObjectPool :=
  mkPool [] (maxSize p) (totalCreated p) (resetFunc p) false (foldr delete (objects p) (pool p)) (next p) (out p) (rev (pool p) ++ deleted p).

Inductive Act := Acquire | GiveBack (ptr : nat) | SetReset (f : T → T) | Destroy.

Definition act (p : ObjectPool) (a : Act) : option ObjectPool :=
  match a with
  | Acquire => if alive p then Some (acquire p).2 else None
  | GiveBack ptr => if bool_decide (ptr ∈ out p) then Some (Deleter p ptr) else None
  | SetReset f => if alive p then Some (setResetFunc p f) else None
  | Destroy => if alive p then Some (destroy p) else None
  end.

Fixpoint run (p : ObjectPool) (acts : list Act) : option ObjectPool :=
  match acts with [] => Some p | a :: acts => p1 ← act p a; run p1 acts end.

(** Every object that was made is idle, given out or deleted, and only one of
    these; those that are not deleted are in the heap. *)
Record object_inv (init : nat) (p : ObjectPool) : Prop := {
  ob_parts : pool p ++ elements (out p) ++ deleted p ≡ₚ seq 0 (next p);
  ob_heap : ∀ i, is_Some (objects p !! i) ↔ i < next p ∧ i ∉ deleted p;
  ob_total : totalCreated p = next p ∧ next p ≤ init `max` maxSize p;
  ob_alive : if alive p then deleted p = [] else pool p = []
}.

Lemma objects_new_inv init max : object_inv init (ObjectPool_new init max).
Proof.
  split; cbn.
  - rewrite elements_empty, !app_nil_r. symmetry. apply Permutation_rev.
  - intros i. split.
    + intros [x Hx]. apply elem_of_list_to_map_2, list_elem_of_fmap in Hx as (j & [= -> ->] & Hj%elem_of_seq).
      split; [lia|apply not_elem_of_nil].
    + intros [Hi _]. exists fresh. apply elem_of_list_to_map_1.
      * rewrite <-list_fmap_compose. apply (NoDup_fmap_2 _). apply NoDup_seq.
      * apply list_elem_of_fmap. exists i. split; [done|]. apply elem_of_seq. lia.
  - lia.
  - done.
Qed.

Lemma elements_add (o : gset nat) c : c ∉ o → elements (o ∪ {[c]}) ≡ₚ c :: elements o.
Proof. intros Hc. rewrite (comm_L (∪)). by apply elements_union_singleton. Qed.

Lemma elements_del (o : gset nat) c : c ∈ o → elements o ≡ₚ c :: elements (o ∖ {[c]}).
Proof.
  intros Hc. rewrite <-elements_union_singleton by set_solver. f_equiv. intros x.
  destruct (decide (x = c)); set_solver.
Qed.

Lemma parts_nodup init p : object_inv init p → NoDup (pool p ++ elements (out p) ++ deleted p).
Proof. intros Hi. rewrite (ob_parts _ _ Hi). apply NoDup_seq. Qed.

Lemma foldr_delete (m : gmap nat T) (l : list nat) i : foldr delete m l !! i = if decide (i ∈ l) then None else m !! i.
Proof.
  induction l as [|c l IH]; [by rewrite decide_False by apply not_elem_of_nil|]. cbn [foldr].
  destruct (decide (i = c)) as [->|Hne]; [rewrite lookup_delete_eq, decide_True by left; done|].
  rewrite lookup_delete_ne, IH by done. by apply decide_ext; rewrite elem_of_cons; naive_solver.
Qed.

Lemma act_inv init p a p' : object_inv init p → act p a = Some p' → object_inv init p'.
Proof.
  intros Hi. pose proof (parts_nodup init p Hi) as Hnd. destruct Hi as [Hp Hh [Ht1 Ht2] Ha].
  assert (Hlt : ∀ i, i ∈ pool p ++ elements (out p) ++ deleted p → i < next p) by (intros i; rewrite Hp, elem_of_seq; lia).
  destruct a as [|ptr|f|]; cbn [act].
  - destruct (alive p) eqn:Eal; [|done]. intros [= <-]. unfold acquire. destruct (pool p) as [|obj rest] eqn:Eq.
    + destruct (Nat.ltb_spec (totalCreated p) (maxSize p)); cbn [snd]; [|split; rewrite ?Eal, ?Eq; done].
      assert (Hn : next p ∉ out p) by (intros Hin; specialize (Hlt (next p)); rewrite !elem_of_app, elem_of_elements in Hlt; naive_solver lia).
      split; cbn; rewrite ?Eal; [| |lia|done].
      * cbn [app] in Hp. rewrite elements_add by done. cbn [app]. rewrite Hp. change (next p :: seq 0 (next p)) with ([next p] ++ seq 0 (next p)).
        by rewrite Permutation_app_comm, <-seq_S.
      * intros i. destruct (decide (i = next p)) as [->|Hne]; [rewrite lookup_insert_eq, Ha|rewrite lookup_insert_ne, Hh by done].
        -- split; [intros _; split; [lia|apply not_elem_of_nil]|by eauto].
        -- naive_solver lia.
    + cbn in Hnd. apply NoDup_cons in Hnd as [Hn _]. rewrite !not_elem_of_app, elem_of_elements in Hn.
      split; cbn; rewrite ?Eal; [|done|done|done]. rewrite elements_add, <-Hp by naive_solver. cbn. by rewrite <-Permutation_middle.
  - case_bool_decide as Hin; [|done]. intros [= <-]. unfold Deleter.
    pose proof (Hlt ptr) as Hl. rewrite !elem_of_app, elem_of_elements in Hl. rewrite (elements_del (out p) ptr Hin) in Hp.
    destruct (alive p) eqn:Eal; split; cbn; rewrite ?Eal; try done.
    + rewrite <-Hp. cbn. by rewrite <-Permutation_middle.
    + intros i. rewrite <-Hh. destruct (resetFunc p); [|done]. destruct (decide (i = ptr)) as [->|Hne];
        [rewrite lookup_alter_eq, fmap_is_Some; done|by rewrite lookup_alter_ne].
    + rewrite <-Hp. cbn. rewrite <-!Permutation_middle. done.
    + intros i. rewrite lookup_delete_is_Some, Hh, not_elem_of_cons. naive_solver.
  - destruct (alive p) eqn:Eal; [|done]. intros [= <-]. split; cbn; rewrite ?Eal; done.
  - destruct (alive p) eqn:Eal; [|done]. intros [= <-]. split; cbn; [| |done|done].
    + rewrite <-Hp, <-(Permutation_rev (pool p)), !app_assoc. by rewrite (Permutation_app_comm (elements (out p)) (pool p)).
    + intros i. rewrite foldr_delete, not_elem_of_app, <-(Permutation_rev (pool p)).
      case_decide as Hd; [split; [by intros [? ?]|naive_solver]|]. rewrite Hh. naive_solver.
Qed.

(** In any history no object is handed out twice at a time, or deleted twice,
    or used after it was deleted; no more are made than the limit allows; and
    when the pool is gone and everything was given back, all are deleted. *)
Theorem objects_accounted (init max : nat) (acts : list Act) (p : ObjectPool) :
  run (ObjectPool_new init max) acts = Some p →
  NoDup (pool p ++ elements (out p) ++ deleted p) ∧ next p ≤ init `max` maxSize p ∧
  (∀ i, is_Some (objects p !! i) ↔ i < next p ∧ i ∉ deleted p) ∧
  (alive p = false → out p = ∅ → deleted p ≡ₚ seq 0 (next p)).
Proof.
  intros Hr. assert (Hi : object_inv init p).
  { pose proof (objects_new_inv init max) as Hn. revert Hr Hn. generalize (ObjectPool_new init max). induction acts as [|a acts IH]; intros q Hr Hn.
    - by injection Hr as <-.
    - cbn [run] in Hr. destruct (act q a) as [q1|] eqn:Ea; [|done]. apply (IH q1); [done|]. by eapply act_inv. }
  split; [by eapply parts_nodup|]. destruct Hi as [Hp Hh [_ Ht] Ha]. split; [done|]. split; [done|].
  intros Hal Ho. rewrite Hal in Ha. rewrite Ha, Ho, elements_empty in Hp. exact Hp.
Qed.

End ObjectPool.
