(* ===== verification/AsyncLogger.v ===== *)
(** * AsyncLogger: two buffers and a writer thread

    Models [src/asynclogger/AsyncLogger.h].  Threads that log and the writer
    interleave at the mutex and at the unlocked test of the writer's loop.  What
    the formatting functions of the C library make of their arguments (the text
    of a message, the date) is an argument; what goes to the file or to the
    standard error stream is a list of lines, each with its destination. *)

From S2P Require Import Prelude.

Open Scope nat_scope.

Inductive LogLevel := DEBUG | INFO | WARN | ERROR | FATAL.

#[export] Instance LogLevel_eq_dec : EqDecision LogLevel.
Proof. solve_decision. Defined.

Definition level_int (l : LogLevel) : nat :=
  match l with DEBUG => 0 | INFO => 1 | WARN => 2 | ERROR => 3 | FATAL => 4 end.

Definition levelStr (l : LogLevel) : str :=
  match l with DEBUG => #"DEBUG" | INFO => #"INFO" | WARN => #"WARN" | ERROR => #"ERROR" | FATAL => #"FATAL" end.

Record LogEntry := mkEntry { level : LogLevel; timestamp : str; file : str; line : Z; message : str }.

(** The thread name of an entry is never set nor written. *)
Definition formatEntry (e : LogEntry) : str :=
  #"[" ++ timestamp e ++ #"] [" ++ levelStr (level e) ++ #"] " ++ file e ++ #":" ++ to_string (line e) ++ #" " ++ message e ++ [LF].

(** [date] is what [strftime] makes of the time, in seconds. *)
Definition getTimestamp (date : str) (ms : Z) : str := date ++ #"." ++ to_string (Z.rem ms 1000).

Definition kFlushThreshold : nat := 1000.

(** Where the writer's thread is: there is none, at the test of the loop, in
    [wait_for], behind the swap, returned. *)
Inductive Place := Unstarted | AtTest | InWait | Swapped | Returned.

#[export] Instance Place_eq_dec : EqDecision Place.
Proof. solve_decision. Defined.

Record AsyncLogger := mkLogger {
  level_ : LogLevel;
  filename_ : str;
  running_ : bool;
  bufferA_ : list LogEntry;
  bufferB_ : list LogEntry;
  current_is_A : bool;          (* [currentBuffer_] points to [bufferA_], [flushBuffer_] to the other *)
  writer : Place;
  opened : option str           (* the writer's file *)
}.

Definition AsyncLogger_new : AsyncLogger := mkLogger INFO #"/tmp/mymuduo.log" false [] [] true Unstarted None.

Definition current (l : AsyncLogger) : list LogEntry := if current_is_A l then bufferA_ l else bufferB_ l.
Definition flush (l : AsyncLogger) : list LogEntry := if current_is_A l then bufferB_ l else bufferA_ l.

Definition set_current (l : AsyncLogger) (b : list LogEntry) : AsyncLogger :=
  mkLogger (level_ l) (filename_ l) (running_ l) (if current_is_A l then b else bufferA_ l) (if current_is_A l then bufferB_ l else b)
    (current_is_A l) (writer l) (opened l).
Definition set_writer (l : AsyncLogger) (p : Place) : AsyncLogger :=
  mkLogger (level_ l) (filename_ l) (running_ l) (bufferA_ l) (bufferB_ l) (current_is_A l) p (opened l).
Definition set_running (l : AsyncLogger) (b : bool) : AsyncLogger :=
  mkLogger (level_ l) (filename_ l) b (bufferA_ l) (bufferB_ l) (current_is_A l) (writer l) (opened l).

Definition setLogFile (l : AsyncLogger) (filename : str) : AsyncLogger :=
  mkLogger (level_ l) filename (running_ l) (bufferA_ l) (bufferB_ l) (current_is_A l) (writer l) (opened l).
Definition setLogLevel (l : AsyncLogger) (lv : LogLevel) : AsyncLogger :=
  mkLogger lv (filename_ l) (running_ l) (bufferA_ l) (bufferB_ l) (current_is_A l) (writer l) (opened l).

(** The new thread has a file variable of its own. *)
Definition start (l : AsyncLogger) : AsyncLogger :=
  if running_ l then l
  else mkLogger (level_ l) (filename_ l) true (bufferA_ l) (bufferB_ l) (current_is_A l) AtTest None.

(** [stop], up to the join. *)
Definition stop (l : AsyncLogger) : AsyncLogger := if running_ l then set_running l false else l.

(** [text]: what the format and its arguments come to. *)
Definition make_entry (lv : LogLevel) (f : str) (n : Z) (text ts : str) : LogEntry := mkEntry lv ts f n (take 4095 (c_str text)).

Definition log (l : AsyncLogger) (lv : LogLevel) (f : str) (n : Z) (text ts : str) : AsyncLogger :=
  if level_int lv <? level_int (level_ l) then l else set_current l (current l ++ [make_entry lv f n text ts]).

(** ** [writerLoop] *)

(** The test of the loop reads the current buffer without the mutex: a data race
    with [log], whose result the language leaves open.  Here the read happens at
    one moment, before or after any insertion. *)
Definition test (l : AsyncLogger) : AsyncLogger :=
  set_writer l (if running_ l || negb (bool_decide (current l = [])) then InWait else Returned).

(** The wait is over, by a notification or by time, and the buffers are
    swapped. *)
Definition swap (l : AsyncLogger) : AsyncLogger :=
  mkLogger (level_ l) (filename_ l) (running_ l) (bufferA_ l) (bufferB_ l) (negb (current_is_A l)) Swapped (opened l).

Definition clear_flush (l : AsyncLogger) : AsyncLogger :=
  mkLogger (level_ l) (filename_ l) (running_ l) (if current_is_A l then bufferA_ l else []) (if current_is_A l then [] else bufferB_ l)
    (current_is_A l) AtTest (opened l).

Definition set_opened (l : AsyncLogger) : AsyncLogger :=
  mkLogger (level_ l) (filename_ l) (running_ l) (bufferA_ l) (bufferB_ l) (current_is_A l) (writer l) (Some (filename_ l)).

(** The rest of a turn; [can_open] says whether the file opens, and [None]
    stands for the standard error stream. *)
Definition write (l : AsyncLogger) (can_open : bool) : list (option str * str) * AsyncLogger :=
  let l1 := match opened l with Some _ => l | None => if can_open then set_opened l else l end in
  ((λ e, (opened l1, formatEntry e)) <$> flush l1, clear_flush l1).

(** ** Histories *)

Inductive Act :=
  | SetLogFile (f : str) | SetLogLevel (lv : LogLevel) | Start | Stop
  | Log (lv : LogLevel) (f : str) (n : Z) (text ts : str)
  | Test | Swap | Write (can_open : bool).

Definition act (l : AsyncLogger) (a : Act) : option (list (option str * str) * AsyncLogger) :=
  match a with
  | SetLogFile f => Some ([], setLogFile l f)
  | SetLogLevel lv => Some ([], setLogLevel l lv)
  | Start => if running_ l || bool_decide (writer l = Unstarted ∨ writer l = Returned) then Some ([], start l) else None
  | Stop => Some ([], stop l)
  | Log lv f n text ts => Some ([], log l lv f n text ts)
  | Test => if decide (writer l = AtTest) then Some ([], test l) else None
  | Swap => if decide (writer l = InWait) then Some ([], swap l) else None
  | Write ok => if decide (writer l = Swapped) then Some (write l ok) else None
  end.

Fixpoint run (l : AsyncLogger) (acts : list Act) : option (list (option str * str) * AsyncLogger) :=
  match acts with
  | [] => Some ([], l)
  | a :: acts => '(o1, l1) ← act l a; '(o2, l2) ← run l1 acts; Some (o1 ++ o2, l2)
  end.

(** ** Nothing is lost, doubled or out of order *)

(** The entries that pass the level, in the order of the calls. *)
Fixpoint accepted (lv : LogLevel) (acts : list Act) : list LogEntry :=
  match acts with
  | [] => []
  | SetLogLevel lv' :: acts => accepted lv' acts
  | Log l f n text ts :: acts =>
      if level_int l <? level_int lv then accepted lv acts else make_entry l f n text ts :: accepted lv acts
  | _ :: acts => accepted lv acts
  end.

(** Outside of a turn's second half the flush buffer is empty. *)
Definition buffers_ok (l : AsyncLogger) : Prop := writer l ≠ Swapped → flush l = [].

Definition buffered (l : AsyncLogger) : list str := (formatEntry <$> flush l) ++ (formatEntry <$> current l).

Lemma log_act l a o l' :
  buffers_ok l → act l a = Some (o, l') →
  buffers_ok l' ∧ o.*2 ++ buffered l' = buffered l ++ (formatEntry <$> accepted (level_ l) [a]) ∧
  (∀ acts, accepted (level_ l) (a :: acts) = accepted (level_ l) [a] ++ accepted (level_ l') acts).
Proof.
  unfold buffers_ok, buffered. intros Hok. destruct a as [f|lv| | |lv f n text ts| | |ok]; cbn [act].
  - intros [= <- <-]. cbn. by rewrite app_nil_r.
  - intros [= <- <-]. cbn. by rewrite app_nil_r.
  - case_match eqn:Eg; [|done]. intros [= <- <-]. unfold start. destruct (running_ l); cbn [orb] in Eg; cbn; [by rewrite app_nil_r|].
    apply bool_decide_eq_true in Eg. rewrite app_nil_r. split_and!; [|done..]. intros _. apply Hok. by destruct Eg as [-> | ->].
  - intros [= <- <-]. unfold stop. destruct (running_ l); cbn; by rewrite app_nil_r.
  - intros [= <- <-]. unfold log. cbn [accepted]. destruct (level_int lv <? level_int (level_ l)) eqn:E; [cbn; by rewrite app_nil_r|].
    unfold set_current, current, flush in *. destruct (current_is_A l) eqn:Ec; cbn; rewrite ?Ec; cbn; rewrite fmap_app; by rewrite <-app_assoc.
  - destruct (decide _) as [E|]; [|done]. intros [= <- <-]. cbn [fmap list_fmap app accepted]. rewrite app_nil_r.
    split_and!; [|done..]. intros _. by apply Hok; rewrite E.
  - destruct (decide _) as [E|]; [|done]. intros [= <- <-]. cbn [fmap list_fmap app accepted]. rewrite app_nil_r.
    split_and!; [done| |done]. assert (Hf : flush l = []) by (apply Hok; by rewrite E).
    unfold current, flush in *. cbn. destruct (current_is_A l); cbn; rewrite Hf; cbn; by rewrite app_nil_r.
  - destruct (decide _) as [E|]; [|done]. intros [= <- <-]. cbn [accepted]. rewrite app_nil_r.
    set (l1 := match opened l with Some _ => l | None => _ end).
    assert (E1 : flush l1 = flush l ∧ current l1 = current l ∧ level_ l1 = level_ l) by (unfold l1; destruct (opened l), ok; done).
    destruct E1 as (E1 & E2 & E3). rewrite <-list_fmap_compose. change (snd ∘ _) with formatEntry. rewrite E1, <-E2.
    unfold clear_flush, flush, current. cbn. destruct (current_is_A l1); cbn; by rewrite E3.
Qed.

Lemma log_run acts l o l' :
  buffers_ok l → run l acts = Some (o, l') →
  buffers_ok l' ∧ o.*2 ++ buffered l' = buffered l ++ (formatEntry <$> accepted (level_ l) acts).
Proof.
  revert l o. induction acts as [|a acts IH]; intros l o Hok Hr.
  - injection Hr as <- <-. cbn. by rewrite app_nil_r.
  - cbn [run] in Hr. destruct (act l a) as [[o1 l1]|] eqn:Ea; [|done]. cbn [mbind option_bind] in Hr.
    destruct (run l1 acts) as [[o2 l2]|] eqn:Er; [|done]. injection Hr as <- <-.
    destruct (log_act l a o1 l1 Hok Ea) as (Hok1 & E1 & E2). destruct (IH l1 o2 Hok1 Er) as [Hok2 E3].
    split; [done|]. rewrite E2, fmap_app, <-app_assoc, E3, app_assoc, E1, fmap_app. by rewrite <-app_assoc.
Qed.

Lemma new_buffers_ok : buffers_ok AsyncLogger_new.
Proof. done. Qed.

(** C34: the log is what was logged.  In any interleaving, the lines written so
    far, to whichever destination, followed by the two buffers, are exactly the
    entries that passed the level, once each and in the order in which they
    were logged. *)
Theorem log_in_order (acts : list Act) (o : list (option str * str)) (l : AsyncLogger)
    (Hr : run AsyncLogger_new acts = Some (o, l)) :
  o.*2 ++ (formatEntry <$> flush l) ++ (formatEntry <$> current l) = formatEntry <$> accepted INFO acts.
Proof. exact (proj2 (log_run acts _ _ _ new_buffers_ok Hr)). Qed.

(** ** Stopping *)

(** The steps the writer has still to do when nothing is logged any more. *)
Definition turns_left (l : AsyncLogger) : nat :=
  let rest := if bool_decide (current l = []) then 1 else 4 in
  match writer l with Unstarted | Returned => 0 | AtTest => rest | InWait => 3 | Swapped => 1 + rest end.

Definition is_writer_step (a : Act) : bool := match a with Test | Swap | Write _ => true | _ => false end.
Definition writer_steps (acts : list Act) : nat := length (List.filter is_writer_step acts).

(** What other threads still do: nothing is logged, the logger is not started
    again. *)
Definition silent (a : Act) : Prop := match a with Log _ _ _ _ _ | Start => False | _ => True end.

Record stopped (l : AsyncLogger) : Prop := {
  st_flag : running_ l = false;
  st_buffers : buffers_ok l;
  st_returned : writer l = Returned → current l = []
}.

Lemma silent_act l a o l' :
  stopped l → silent a → act l a = Some (o, l') →
  stopped l' ∧ turns_left l = (if is_writer_step a then 1 else 0) + turns_left l'.
Proof.
  intros [Hr Hb Hd] Hs Ha. pose proof (proj1 (log_act l a o l' Hb Ha)) as Hb'.
  destruct a as [f|lv| | |lv f n text ts| | |ok]; try done; cbn [act] in Ha.
  - injection Ha as <- <-. by split.
  - injection Ha as <- <-. by split.
  - injection Ha as <- <-. unfold stop in *. rewrite Hr in *. by split.
  - destruct (decide _) as [E|]; [|done]. injection Ha as <- <-. unfold test, turns_left in *. rewrite Hr, E in *. cbn [orb] in *.
    change (current (set_writer l _)) with (current l). case_bool_decide as Ec; cbn [negb writer set_writer] in *; split; try done; by split.
  - destruct (decide _) as [E|]; [|done]. injection Ha as <- <-.
    assert (Ec : current (swap l) = []) by (etransitivity; [|apply Hb; by rewrite E]; unfold swap, current, flush; cbn; by destruct (current_is_A l)).
    split; [split; [done|done|done]|]. unfold turns_left. by rewrite E, Ec.
  - destruct (decide _) as [E|]; [|done]. injection Ha as <- <-. set (l1 := match opened l with Some _ => l | None => _ end) in *.
    assert (E1 : running_ l1 = running_ l ∧ current l1 = current l) by (unfold l1; destruct (opened l), ok; done). destruct E1 as [E1 E2].
    assert (Ec : current (clear_flush l1) = current l) by (rewrite <-E2; unfold clear_flush, current; cbn; by destruct (current_is_A l1)).
    split; [split; [by rewrite <-Hr, <-E1|done|done]|]. unfold turns_left. rewrite E, Ec. done.
Qed.

Lemma silent_run acts l o l' :
  stopped l → Forall silent acts → run l acts = Some (o, l') → stopped l' ∧ turns_left l = writer_steps acts + turns_left l'.
Proof.
  intros Hst Hs. revert l o Hst. induction Hs as [|a acts Ha Hs IH]; intros l o Hst Hr; [by injection Hr as <- <-|].
  cbn [run] in Hr. destruct (act l a) as [[o1 l1]|] eqn:Ea; [|done]. cbn [mbind option_bind] in Hr.
  destruct (run l1 acts) as [[o2 l2]|] eqn:Er; [|done]. injection Hr as <- <-.
  destruct (silent_act l a o1 l1 Hst Ha Ea) as [Hst1 E1]. destruct (IH l1 o2 Hst1 Er) as [Hst2 E2].
  split; [done|]. rewrite E1, E2. unfold writer_steps. cbn [List.filter]. destruct (is_writer_step a); cbn; lia.
Qed.

(** The writer is never stuck. *)
Lemma writer_goes_on l : writer l ≠ Unstarted → writer l ≠ Returned → ∃ a, is_writer_step a = true ∧ is_Some (act l a).
Proof.
  intros Hu Hd. destruct (writer l) eqn:E; try done.
  - exists Test. cbn [act]. rewrite decide_True by done. eauto.
  - exists Swap. cbn [act]. rewrite decide_True by done. eauto.
  - exists (Write true). cbn [act]. rewrite decide_True by done. eauto.
Qed.

(** A thread, once started, stays so, and does not return while the logger
    runs. *)
Definition alive (l : AsyncLogger) : Prop := running_ l = true → writer l ≠ Unstarted ∧ writer l ≠ Returned.

Lemma alive_act l a o l' : act l a = Some (o, l') → (alive l → alive l') ∧ (writer l ≠ Unstarted → writer l' ≠ Unstarted).
Proof.
  unfold alive. destruct a as [f|lv| | |lv f n text ts| | |ok]; cbn [act].
  - by intros [= <- <-].
  - by intros [= <- <-].
  - case_match; [|done]. intros [= <- <-]. unfold start. destruct (running_ l) eqn:E; [by rewrite ?E|]. cbn. naive_solver.
  - intros [= <- <-]. unfold stop. destruct (running_ l) eqn:E; [by cbn|by rewrite ?E].
  - intros [= <- <-]. unfold log. by destruct (_ <? _).
  - destruct (decide _) as [E|]; [|done]. intros [= <- <-]. unfold test. cbn [running_ set_writer writer].
    split; [intros _ ->; done|intros _; by destruct (running_ l), (bool_decide (current l = []))].
  - destruct (decide _) as [E|]; [|done]. intros [= <- <-]. cbn. naive_solver.
  - destruct (decide _) as [E|]; [|done]. intros Ha. injection Ha as _ <-. destruct (opened l), ok; cbn; naive_solver.
Qed.

Lemma alive_run acts l o l' : run l acts = Some (o, l') → (alive l → alive l') ∧ (writer l ≠ Unstarted → writer l' ≠ Unstarted).
Proof.
  revert l o. induction acts as [|a acts IH]; intros l o Hr; [by injection Hr as <- <-|]. cbn [run] in Hr.
  destruct (act l a) as [[o1 l1]|] eqn:Ea; [|done]. cbn [mbind option_bind] in Hr.
  destruct (run l1 acts) as [[o2 l2]|] eqn:Er; [|done]. injection Hr as <- <-.
  destruct (alive_act l a o1 l1 Ea), (IH l1 o2 Er). auto.
Qed.

Lemma silent_accepted acts lv : Forall silent acts → accepted lv acts = [].
Proof. intros Hs. revert lv. induction Hs as [|a acts Ha Hs IH]; intros lv; [done|]. destruct a; first [done|apply IH]. Qed.

(** C35: [stop] writes what is left, and returns.  Let a running logger be
    stopped, and nothing be logged after that.  Then the writer does at most
    five more steps, it can always do the next one, and when it has returned,
    every entry that passed the level has been written, in order. *)
Theorem stop_flushes (acts acts' : list Act) (o o' : list (option str * str)) (l l' : AsyncLogger)
    (Hr : run AsyncLogger_new acts = Some (o, l)) (Hup : running_ l = true)
    (Hs : Forall silent acts') (Hr' : run (stop l) acts' = Some (o', l')) :
  writer_steps acts' ≤ 5 ∧
  (writer l' = Returned ∨ ∃ a, is_writer_step a = true ∧ is_Some (act l' a)) ∧
  (writer l' = Returned → o.*2 ++ o'.*2 = formatEntry <$> accepted INFO acts).
Proof.
  destruct (log_run acts _ _ _ new_buffers_ok Hr) as [Hb E]. destruct (proj1 (alive_run _ _ _ _ Hr) ltac:(done) Hup) as [Hw1 Hw2].
  assert (Hst : stopped (stop l)) by (unfold stop; rewrite Hup; by split).
  assert (Hwr : writer (stop l) = writer l) by (unfold stop; by rewrite Hup).
  destruct (silent_run acts' _ _ _ Hst Hs Hr') as [[Hf Hb' Hd] Ht]. split_and!.
  - assert (turns_left (stop l) ≤ 5) by (unfold turns_left; case_bool_decide; destruct (writer (stop l)); lia). lia.
  - destruct (decide (writer l' = Returned)) as [|Hn]; [by left|right]. apply writer_goes_on; [|done].
    apply (proj2 (alive_run _ _ _ _ Hr')). by rewrite Hwr.
  - intros Hret. specialize (Hd Hret). pose proof (proj2 (log_run acts' _ _ _ (st_buffers _ Hst) Hr')) as E'.
    assert (Eb : buffered (stop l) = buffered l) by (unfold stop; by rewrite Hup).
    rewrite silent_accepted, Eb in E' by done. unfold buffered in E' at 1. rewrite Hd, (Hb' ltac:(by rewrite Hret)) in E'.
    cbn in E, E'. rewrite !app_nil_r in E'. by rewrite E'.
Qed.

(** ** Examples and witnesses *)

Definition entry_text (n : Z) : str := #"message " ++ to_string n.
Definition log_line (n : Z) : Act := Log INFO #"a.cc" n (entry_text n) #"now".

Definition log_acts : list Act :=
  [log_line 1; Start; Test; Log DEBUG #"a.cc" 9 #"hidden" #"now"; Swap; log_line 2; Write true; Test; log_line 3; Swap; log_line 4].

Lemma log_acts_run : (λ x, (length x.1, length (flush x.2), length (current x.2))) <$> run AsyncLogger_new log_acts = Some (1, 2, 1).
Proof. vm_compute. reflexivity. Qed.

Lemma log_in_order_witness :
  ∃ o l, run AsyncLogger_new log_acts = Some (o, l) ∧ length o = 1 ∧
    o.*2 ++ (formatEntry <$> flush l) ++ (formatEntry <$> current l) = formatEntry <$> accepted INFO log_acts.
Proof.
  pose proof log_acts_run as H. destruct (run AsyncLogger_new log_acts) as [[o l]|] eqn:E; [|discriminate H].
  exists o, l. split; [reflexivity|]. split; [injection H; auto|]. exact (log_in_order log_acts o l E).
Defined.

Definition flush_acts : list Act := [Write true; SetLogLevel ERROR; Test; Swap; Write true; Test].

Lemma flush_acts_run :
  (x ← run AsyncLogger_new log_acts; y ← run (stop x.2) flush_acts; Some (running_ x.2, writer y.2, length y.1)) = Some (true, Returned, 3).
Proof. vm_compute. reflexivity. Qed.

Lemma stop_flushes_witness :
  ∃ o l o' l', run AsyncLogger_new log_acts = Some (o, l) ∧ run (stop l) flush_acts = Some (o', l') ∧
    o.*2 ++ o'.*2 = formatEntry <$> accepted INFO log_acts.
Proof.
  pose proof flush_acts_run as H. destruct (run AsyncLogger_new log_acts) as [[o l]|] eqn:E; [|discriminate H].
  cbn [mbind option_bind snd] in H. destruct (run (stop l) flush_acts) as [[o' l']|] eqn:E'; [|discriminate H].
  injection H as H1 H2 _. exists o, l, o', l'. split; [reflexivity|]. split; [exact E'|].
  destruct (stop_flushes log_acts flush_acts o o' l l' E H1) as (_ & _ & H3); [|exact E'|exact (H3 H2)].
  repeat constructor.
Defined.

(** The milliseconds are not padded: the later of these is the smaller text,
    and the same text stands for 70 and, read as a fraction, for 700. *)
Example milliseconds_unpadded :
  getTimestamp #"10:00:00" 7 = #"10:00:00.7" ∧ getTimestamp #"10:00:00" 70 = #"10:00:00.70" ∧ getTimestamp #"10:00:00" 700 = #"10:00:00.700".
Proof. vm_compute. auto. Qed.

(** What is logged after the writer's last test stays in the buffer for good. *)
Example logged_too_late :
  (λ x, (writer x.2, length x.1, length (current x.2))) <$> run AsyncLogger_new [Start; Stop; Test; log_line 1] = Some (Returned, 0, 1).
Proof. vm_compute. reflexivity. Qed.
