(* ===== verification/DbPool.v ===== *)
(** * DbPool: the MySQL and the Redis connection pool

    Models the pool and the transaction guard of [src/pool/MySQLPool.h], and the
    pool and the sentinel lookup of [src/pool/RedisPool.h].  The two pools differ in four places, which the
    parameter [db] selects.  What the client libraries answer (whether a ping, a
    connect or a statement succeeds) comes with each step; a step is a critical
    section of the pool's mutex.  Threads that sleep in [acquire] are the
    subject of [ConnectionPool.v]; here an [acquire] is what it does once its
    wait is over. *)

From S2P Require Import Prelude.

Open Scope Z_scope.

Inductive Db := MySQL | Redis.

(** A connection: its number and the time of its last use. *)
Record Connection := mkConn { conn_id : nat; lastUsed_ : Z }.

Definition markUsed (c : Connection) (now : Z) : Connection := mkConn (conn_id c) now.

Record Pool := mkPool {
  minSize : Z;
  maxSize : Z;
  idleTimeoutSec : Z;
  totalCreated_ : Z;
  closed_ : bool;
  pool_ : list Connection
}.

Definition set_pool (p : Pool) (q : list Connection) : Pool :=
  mkPool (minSize p) (maxSize p) (idleTimeoutSec p) (totalCreated_ p) (closed_ p) q.
Definition set_total (p : Pool) (t : Z) : Pool := mkPool (minSize p) (maxSize p) (idleTimeoutSec p) t (closed_ p) (pool_ p).

(** [if (totalCreated_ > 0) totalCreated_--]. *)
Definition uncount (p : Pool) : Pool := if 0 <? totalCreated_ p then set_total p (u64 (totalCreated_ p - 1)) else p.

(** The constructor, with the times at which the attempts that succeeded did. *)
Definition Pool_new (lo hi idle : Z) (made : list Z) : Pool :=
  mkPool lo hi idle (zlen made) false (imap mkConn made).

(** [acquire] up to a connection or the end of the idle ones: [ping] tells
    which connections still answer.  MySQL tries all of them, Redis one. *)
Fixpoint try_idle (db : Db) (ping : nat → bool) (p : Pool) (q : list Connection) : option Connection * Pool :=
  match q with
  | [] => (None, set_pool p [])
  | c :: q =>
      if ping (conn_id c) then (Some c, set_pool p q)
      else match db with
           | MySQL => try_idle db ping (uncount p) q
           | Redis => (None, uncount (set_pool p q))
           end
  end.

Inductive Outcome := Nullptr | Got (c : Connection) | Connecting.

Definition acquire (db : Db) (ping : nat → bool) (now : Z) (p : Pool) : Outcome * Pool :=
  if closed_ p then (Nullptr, p)
  else match try_idle db ping p (pool_ p) with
       | (Some c, p1) => (Got (markUsed c now), p1)
       | (None, p1) => if totalCreated_ p1 <? maxSize p1 then (Connecting, set_total p1 (u64 (totalCreated_ p1 + 1))) else (Nullptr, p1)
       end.

(** The rest of [acquire] when [createConnection] has returned. *)
Definition created (ok : bool) (id : nat) (now : Z) (p : Pool) : Outcome * Pool :=
  if ok then (Got (mkConn id now), p) else (Nullptr, set_total p (u64 (totalCreated_ p - 1))).

Definition release_mysql (valid : bool) (c : Connection) (p : Pool) : Pool :=
  if negb valid then uncount p
  else if closed_ p || (maxSize p <=? zlen (pool_ p)) then uncount p else set_pool p (pool_ p ++ [c]).

Definition release_redis (valid : bool) (now : Z) (c : Connection) (p : Pool) : Pool :=
  if closed_ p || negb valid then uncount p else set_pool p (pool_ p ++ [markUsed c now]).

Definition release (db : Db) (valid : bool) (now : Z) (c : Connection) (p : Pool) : Pool :=
  match db with MySQL => release_mysql valid c p | Redis => release_redis valid now c p end.

Fixpoint check_loop (now : Z) (p : Pool) (q kept : list Connection) : Pool * list Connection :=
  match q with
  | [] => (p, kept)
  | c :: q =>
      if (idleTimeoutSec p <? i64 (now - lastUsed_ c)) && (minSize p <=? zlen kept)
      then check_loop now (uncount p) q kept else check_loop now p q (kept ++ [c])
  end.

Definition healthCheck (now : Z) (p : Pool) : Pool :=
  if closed_ p then p else let '(p1, kept) := check_loop now p (pool_ p) [] in set_pool p1 kept.

(** The destructor's two critical sections. *)
Definition close (p : Pool) : Pool := mkPool (minSize p) (maxSize p) (idleTimeoutSec p) (totalCreated_ p) true (pool_ p).
Definition clear (p : Pool) : Pool := set_pool p [].

Definition available (p : Pool) : Z := zlen (pool_ p).

Definition totalCreated (p : Pool) : Z := totalCreated_ p.
Definition isClosed (p : Pool) : bool := closed_ p.

(** The operations of [RedisPool], which has its own code for each: those above
    at [Redis]. *)
Module RedisPool.

Definition new (lo hi idle : Z) (made : list Z) : Pool := Pool_new lo hi idle made.
Definition acquire (ping : nat → bool) (now : Z) (p : Pool) : Outcome * Pool := acquire Redis ping now p.
Definition created (ok : bool) (id : nat) (now : Z) (p : Pool) : Outcome * Pool := created ok id now p.
Definition healthCheck (now : Z) (p : Pool) : Pool := healthCheck now p.
Definition available (p : Pool) : Z := available p.
Definition totalCreated (p : Pool) : Z := totalCreated p.
Definition isClosed (p : Pool) : bool := isClosed p.

End RedisPool.

(** ** Histories *)

(** The pool, the connections given out, the threads in [createConnection],
    the connections dropped by clients, and the next number. *)
Record World := mkWorld { pl : Pool; out : list Connection; creating : nat; lost : nat; next : nat }.

Inductive Act :=
  | Acquire (ping : nat → bool) (now : Z)
  | Created (ok : bool) (now : Z)
  | Release (k : nat) (valid : bool) (now : Z)    (* the [k]-th of those given out *)
  | Lose (k : nat)
  | HealthCheck (now : Z)
  | Close | Clear.

Definition give (o : Outcome) (l : list Connection) : list Connection := match o with Got c => c :: l | _ => l end.

Definition act (db : Db) (w : World) (a : Act) : option World :=
  match a with
  | Acquire ping now =>
      let '(o, p) := acquire db ping now (pl w) in
      Some (mkWorld p (give o (out w)) (match o with Connecting => S (creating w) | _ => creating w end) (lost w) (next w))
  | Created ok now =>
      match creating w with
      | O => None
      | S n => let '(o, p) := created ok (next w) now (pl w) in Some (mkWorld p (give o (out w)) n (lost w) (S (next w)))
      end
  | Release k valid now => c ← out w !! k; Some (mkWorld (release db valid now c (pl w)) (delete k (out w)) (creating w) (lost w) (next w))
  | Lose k => _ ← out w !! k; Some (mkWorld (pl w) (delete k (out w)) (creating w) (S (lost w)) (next w))
  | HealthCheck now => Some (mkWorld (healthCheck now (pl w)) (out w) (creating w) (lost w) (next w))
  | Close => Some (mkWorld (close (pl w)) (out w) (creating w) (lost w) (next w))
  | Clear => if closed_ (pl w) then Some (mkWorld (clear (pl w)) (out w) (creating w) (lost w) (next w)) else None
  end.

Fixpoint run (db : Db) (w : World) (acts : list Act) : option World :=
  match acts with [] => Some w | a :: acts => w1 ← act db w a; run db w1 acts end.

Definition World_new (lo hi idle : Z) (made : list Z) : World := mkWorld (Pool_new lo hi idle made) [] 0 0 (length made).

(** ** Transactions *)

(** What the guard sends to the server; the answers come with the calls. *)
Inductive Statement := BEGIN | COMMIT | ROLLBACK.

#[export] Instance Statement_eq_dec : EqDecision Statement.
Proof. solve_decision. Defined.

Record TransactionGuard := mkGuard { has_conn : bool; committed_ : bool; began_ : bool }.

(** [usable]: there is a connection and it is valid. *)
Definition TransactionGuard_new (usable ok : bool) : list Statement * TransactionGuard :=
  if usable then ([BEGIN], mkGuard true false ok) else ([], mkGuard false false false).

Definition guard_commit (g : TransactionGuard) (ok : bool) : bool * list Statement * TransactionGuard :=
  if negb (began_ g) || committed_ g || negb (has_conn g) then (false, [], g)
  else (ok, [COMMIT], mkGuard (has_conn g) ok (began_ g)).

Definition guard_destroy (g : TransactionGuard) : list Statement :=
  if began_ g && negb (committed_ g) && has_conn g then [ROLLBACK] else [].

Definition active (g : TransactionGuard) : bool := began_ g.

(** A guard's life: its construction, the attempts to commit, its end; with
    each statement, whether it succeeded. *)
Fixpoint commits (g : TransactionGuard) (oks : list bool) : list (Statement * bool) * TransactionGuard :=
  match oks with
  | [] => ([], g)
  | ok :: oks => let '(_, s, g1) := guard_commit g ok in let '(rest, g2) := commits g1 oks in (((λ x, (x, ok)) <$> s) ++ rest, g2)
  end.

(** ** Read replicas *)

(** [acquireRead]: the replica that is asked first, and the next counter. *)
Definition replica_for (roundRobin : Z) (n : nat) : option nat * Z :=
  match n with O => (None, roundRobin) | _ => (Some (Z.to_nat (roundRobin mod Z.of_nat n)), u64 (roundRobin + 1)) end.

(** What it returns, from what the replica and the pool itself give. *)
Definition acquireRead (replica : option (option Connection)) (own : option Connection) : option Connection :=
  match replica with Some (Some c) => Some c | _ => own end.

(** ** The sentinel lookup *)

(** What a sentinel comes to: no context, a context in error, or a reply (or
    none), which may be the two texts of an address. *)
Inductive Sentinel := NoContext | ContextError | Replies (reply : option (option (str * str))).

(** [resolveMasterViaSentinel]: the address, and the contexts it frees, by the
    number of their sentinel. *)
Fixpoint resolveMasterViaSentinel (ask : str → Z → Sentinel) (sentinels : list str) (i : nat) : list nat * (str * Z) :=
  match sentinels with
  | [] => ([], ([], 0))
  | addr :: rest =>
      let go freed := let '(f, r) := resolveMasterViaSentinel ask rest (S i) in (freed ++ f, r) in
      match find [ ":"%char ] addr 0 with
      | None => go []
      | Some colon =>
          match stoi (drop (colon + 1) addr) with
          | None => go []
          | Some p =>
              match ask (c_str (substr addr 0 colon)) p with
              | NoContext => go []
              | ContextError => go [i]
              | Replies (Some (Some (mh, port))) =>
                  let mp := default 0 (stoi port) in
                  if 0 <? mp then ([i], (mh, mp)) else go [i; i]
              | Replies _ => go [i]
              end
          end
      end
  end.

(** [lastMaster_]: its new value, and whether a switch is counted. *)
Definition note_master (lastMaster newMaster : str) : bool * str :=
  (negb (bool_decide (lastMaster = [])) && negb (bool_decide (lastMaster = newMaster)), newMaster).

(** ** Opening a Redis connection *)

(** [createConnection]: the address it connects to, [lastMaster_], and whether a
    switch is counted; [resolved] is what the lookup gave, where there are
    sentinels. *)
Definition target (host : str) (port : Z) (resolved : option (str * Z)) (lastMaster : str) : (str * Z) * str * bool :=
  match resolved with
  | Some (mh, mp) =>
      if 0 <? mp then let '(switch, m) := note_master lastMaster (mh ++ #":" ++ to_string mp) in ((mh, mp), m, switch)
      else ((host, port), lastMaster, false)
  | None => ((host, port), lastMaster, false)
  end.

Inductive Reply := NoReply | ErrorReply | OtherReply.

Inductive Command := AUTH (password : str) | SELECT (n : Z).

(** What is sent on a context that is connected, and whether a connection comes
    of it. *)
Definition createConnection (password : str) (n : Z) (auth select : Reply) : list Command * bool :=
  let select_db := if 0 <? n then [SELECT n] else [] in
  match password, auth with
  | [], _ => (select_db, true)
  | _, OtherReply => (AUTH (c_str password) :: select_db, true)
  | _, _ => ([AUTH (c_str password)], false)
  end.

(** ** The commands of a Redis connection *)

(** A reply by its type; [raw] is null when the context failed. *)
Inductive Value := Nil | Status (s : str) | Text (s : str) | Integer (z : Z) | Array (l : list Value) | Error (s : str).

Definition reply_ok (r : option Value) : bool := match r with None | Some (Error _) => false | _ => true end.
Definition reply_isNil (r : option Value) : bool := match r with None | Some Nil => true | _ => false end.
Definition reply_str (r : option Value) : str := match r with Some (Text s) => s | _ => [] end.
Definition reply_integer (r : option Value) : Z := match r with Some (Integer z) => z | _ => 0 end.
Definition reply_error (r : option Value) : str := match r with Some (Error s) => s | _ => [] end.

(** The arguments of each command: [%s] takes a C string. *)
Definition PING : list str := [ #"PING" ].
Definition GET (key : str) : list str := [ #"GET"; c_str key ].
Definition SET (key value : str) (ttlSec : Z) : list str :=
  [ #"SET"; c_str key; c_str value ] ++ (if 0 <? ttlSec then [ #"EX"; to_string ttlSec ] else []).
Definition DEL (key : str) : list str := [ #"DEL"; c_str key ].
Definition EXISTS (key : str) : list str := [ #"EXISTS"; c_str key ].
Definition EXPIRE (key : str) (seconds : Z) : list str := [ #"EXPIRE"; c_str key; to_string seconds ].
Definition INCR (key : str) : list str := [ #"INCR"; c_str key ].
Definition LPUSH (key value : str) : list str := [ #"LPUSH"; c_str key; c_str value ].
Definition LRANGE (key : str) (start stop : Z) : list str := [ #"LRANGE"; c_str key; to_string start; to_string stop ].
Definition LTRIM (key : str) (start stop : Z) : list str := [ #"LTRIM"; c_str key; to_string start; to_string stop ].

(** What [lrange] makes of its reply. *)
Definition texts (r : option Value) : list str :=
  match r with Some (Array l) => omap (λ v, match v with Text s => Some s | _ => None end) l | _ => [] end.

Section connection.
(** The server: what it answers to the arguments, and what it is then; the
    connection may fail, and answers nothing from then on. *)
Context {D : Type} (redisvCommand : D → list str → option Value * D).

Definition ping (d : D) : bool * D := let '(r, d) := redisvCommand d PING in (reply_ok r, d).
Definition get (d : D) (key : str) : str * D := let '(r, d) := redisvCommand d (GET key) in (reply_str r, d).
Definition set (d : D) (key value : str) (ttlSec : Z) : bool * D := let '(r, d) := redisvCommand d (SET key value ttlSec) in (reply_ok r, d).
Definition del (d : D) (key : str) : bool * D := let '(r, d) := redisvCommand d (DEL key) in (reply_ok r, d).
Definition exists_ (d : D) (key : str) : bool * D := let '(r, d) := redisvCommand d (EXISTS key) in (0 <? reply_integer r, d).
Definition expire (d : D) (key : str) (seconds : Z) : bool * D := let '(r, d) := redisvCommand d (EXPIRE key seconds) in (reply_ok r, d).
Definition incr (d : D) (key : str) : Z * D := let '(r, d) := redisvCommand d (INCR key) in (reply_integer r, d).
Definition lpush (d : D) (key value : str) : Z * D := let '(r, d) := redisvCommand d (LPUSH key value) in (reply_integer r, d).
Definition lrange (d : D) (key : str) (start stop : Z) : list str * D :=
  let '(r, d) := redisvCommand d (LRANGE key start stop) in (texts r, d).
Definition ltrim (d : D) (key : str) (start stop : Z) : bool * D := let '(r, d) := redisvCommand d (LTRIM key start stop) in (reply_ok r, d).

(** As Redis documents [SET] and [GET]: a key that was just set is there. *)
Definition stores : Prop := ∀ d k v, k ≠ [] →
  ∃ d', redisvCommand d [ #"SET"; k; v ] = (Some (Status #"OK"), d') ∧ (redisvCommand d' [ #"GET"; k ]).1 = Some (Text v).
End connection.

(** ** Every connection is accounted for *)

Definition ids (l : list Connection) : list nat := conn_id <$> l.

Definition owned (w : World) : Z := zlen (pool_ (pl w)) + zlen (out w) + Z.of_nat (creating w) + Z.of_nat (lost w).

Definition same_limits (p p' : Pool) : Prop :=
  minSize p' = minSize p ∧ maxSize p' = maxSize p ∧ idleTimeoutSec p' = idleTimeoutSec p ∧ closed_ p' = closed_ p.

Lemma uncount_spec p : 0 < totalCreated_ p < 2 ^ 64 →
  totalCreated_ (uncount p) = totalCreated_ p - 1 ∧ pool_ (uncount p) = pool_ p ∧ same_limits p (uncount p).
Proof.
  intros Hp. unfold uncount. rewrite (proj2 (Z.ltb_lt _ _)) by lia. cbn. rewrite u64_small by lia. done.
Qed.

Lemma limits_trans p1 p2 p3 : same_limits p1 p2 → same_limits p2 p3 → same_limits p1 p3.
Proof. unfold same_limits. naive_solver congruence. Qed.

(** The idle connections that were dropped, the one that was taken and those
    that stay are the queue, in its order. *)
Lemma try_idle_spec db ping q p :
  zlen q ≤ totalCreated_ p < 2 ^ 64 →
  let '(o, p1) := try_idle db ping p q in
  ∃ dropped, q = dropped ++ (match o with Some c => c :: pool_ p1 | None => pool_ p1 end) ∧
    totalCreated_ p1 = totalCreated_ p - zlen dropped ∧ same_limits p p1 ∧
    Forall (λ c, ping (conn_id c) = false) dropped ∧ (∀ c, o = Some c → ping (conn_id c) = true).
Proof.
  revert p. induction q as [|c q IH]; intros p Hp; cbn [try_idle].
  - exists []. split_and!; [done|cbn; len|done|constructor|by intros ? [=]].
  - destruct (ping (conn_id c)) eqn:Ec.
    + exists []. split_and!; [done|cbn; len|done|constructor|by intros ? [= <-]].
    + destruct db.
      * destruct (uncount_spec p) as (E1 & E2 & E3); [len; lia|].
        specialize (IH (uncount p)). destruct (try_idle MySQL ping (uncount p) q) as [o p1].
        destruct IH as (d & -> & Ht & Hl & Hd & Ho); [rewrite E1; len; lia|]. exists (c :: d). split_and!; [done| | |by constructor|done].
        -- rewrite Ht, E1. len; lia.
        -- by eapply limits_trans.
      * destruct (uncount_spec (set_pool p q)) as (E1 & E2 & E3); [cbn; len; lia|]. exists [c]. rewrite E1, E2. cbn. split_and!; try done.
        by constructor.
Qed.

Lemma check_loop_spec_db now q p kept :
  zlen q ≤ totalCreated_ p < 2 ^ 64 →
  let '(p1, kept') := check_loop now p q kept in
  ∃ stay, kept' = kept ++ stay ∧ stay `sublist_of` q ∧ totalCreated_ p1 = totalCreated_ p - (zlen q - zlen stay) ∧ same_limits p p1 ∧
    pool_ p1 = pool_ p ∧ (zlen kept ≤ minSize p → Z.min (minSize p) (zlen kept + zlen q) ≤ zlen kept').
Proof.
  revert p kept. induction q as [|c q IH]; intros p kept Hp; cbn [check_loop].
  - exists []. rewrite app_nil_r. split_and!; [done|done|len|done|done|len].
  - destruct (_ && _) eqn:E.
    + destruct (uncount_spec p) as (E1 & E2 & E3); [len; lia|]. specialize (IH (uncount p) kept).
      destruct (check_loop now (uncount p) q kept) as [p1 kept'].
      destruct IH as (st & -> & Hs & Ht & Hl & Hp1 & Hm); [rewrite E1; len; lia|]. exists st. destruct E3 as (M1 & M2 & M3 & M4).
      apply andb_prop in E as [_ E]. apply Z.leb_le in E.
      split_and!; [done|by constructor|rewrite Ht, E1; len; lia|by eapply limits_trans|congruence|]. intros _. clear - E. len.
    + specialize (IH p (kept ++ [c])). destruct (check_loop now p q (kept ++ [c])) as [p1 kept'].
      destruct IH as (st & -> & Hs & Ht & Hl & Hp1 & Hm); [len; lia|]. exists (c :: st). rewrite <-app_assoc.
      split_and!; [done|by constructor|rewrite Ht; len; lia|done|done|]. intros Hk. rewrite <-app_assoc in Hm. cbn [app] in Hm.
      destruct (decide (zlen (kept ++ [c]) ≤ minSize p)) as [Hle|Hgt]; [specialize (Hm Hle); revert Hm; len; lia|]. revert Hgt. len; lia.
Qed.

(** The connections in the pool or given out: no number twice, none that is
    still to come; all that were counted are somewhere. *)
Record sound (lo hi : Z) (w : World) : Prop := {
  sound_limits : minSize (pl w) = lo ∧ maxSize (pl w) = hi;
  sound_nodup : NoDup (ids (pool_ (pl w)) ++ ids (out w));
  sound_fresh : ∀ i, i ∈ ids (pool_ (pl w)) ++ ids (out w) → (i < next w)%nat;
  sound_open : closed_ (pl w) = false → owned w = totalCreated_ (pl w);
  sound_owned : owned w ≤ totalCreated_ (pl w);
  sound_total : totalCreated_ (pl w) ≤ Z.max lo hi
}.

(** A step that only moves or forgets connections, and adjusts the count by
    those it forgot (or by less, once the pool is closed). *)
Lemma sound_sub lo hi w w' :
  sound lo hi w → minSize (pl w') = minSize (pl w) → maxSize (pl w') = maxSize (pl w) →
  (ids (pool_ (pl w')) ++ ids (out w')) ⊆+ (ids (pool_ (pl w)) ++ ids (out w)) → (next w ≤ next w')%nat →
  (closed_ (pl w') = false → closed_ (pl w) = false ∧ totalCreated_ (pl w') - owned w' = totalCreated_ (pl w) - owned w) →
  totalCreated_ (pl w) - owned w ≤ totalCreated_ (pl w') - owned w' → totalCreated_ (pl w') ≤ Z.max lo hi →
  sound lo hi w'.
Proof.
  intros [(H1 & H2) H3 H4 H5 H6 H7] E1 E2 Hsub Hn Hc Ho Ht. constructor.
  - split; congruence.
  - apply submseteq_Permutation in Hsub as [k Hk]. rewrite Hk in H3. by apply NoDup_app in H3 as (? & _).
  - intros i Hi. eapply Nat.lt_le_trans; [|exact Hn]. apply H4. by eapply elem_of_submseteq.
  - intros Hf. destruct (Hc Hf) as [Hf' E]. specialize (H5 Hf'). lia.
  - lia.
  - done.
Qed.

Lemma ids_app l l' : ids (l ++ l') = ids l ++ ids l'.
Proof. apply fmap_app. Qed.

Lemma ids_markUsed c now : conn_id (markUsed c now) = conn_id c.
Proof. done. Qed.

Lemma out_split (l : list Connection) k c : l !! k = Some c →
  (ids l ≡ₚ conn_id c :: ids (delete k l)) ∧ zlen l = 1 + zlen (delete k l).
Proof.
  intros Hk. pose proof (delete_Permutation l k c Hk) as Hp. split.
  - exact (fmap_Permutation conn_id _ _ Hp).
  - apply Permutation_length in Hp. unfold zlen. rewrite Hp. simpl length. lia.
Qed.

Lemma acquire_sound lo hi db ping now w w' : 0 ≤ lo < 2 ^ 64 → 0 ≤ hi < 2 ^ 64 →
  sound lo hi w → act db w (Acquire ping now) = Some w' → sound lo hi w'.
Proof.
  intros Hlo Hhi Hw Ha. cbn [act] in Ha. unfold acquire in Ha. destruct (closed_ (pl w)) eqn:Hc.
  { injection Ha as <-. by destruct w. }
  pose proof (sound_open _ _ _ Hw Hc) as Ho. pose proof (sound_total _ _ _ Hw) as Ht. destruct (sound_limits _ _ _ Hw) as [H1 H2].
  pose proof (try_idle_spec db ping (pool_ (pl w)) (pl w)) as Hs.
  destruct (try_idle db ping (pl w) (pool_ (pl w))) as [o p1]. unfold owned in Ho.
  destruct Hs as (d & E & Et & (L1 & L2 & L3 & L4) & _); [len|]. destruct o as [c|].
  - assert (HL : zlen (pool_ (pl w)) = zlen d + 1 + zlen (pool_ p1)) by (rewrite E; len).
    injection Ha as <-. apply (sound_sub _ _ w); unfold owned; cbn; try done; [|split|..]; try congruence; try len.
    rewrite E, ids_app, <-app_assoc. apply submseteq_inserts_l. cbn. by rewrite <-Permutation_middle.
  - assert (HL : zlen (pool_ (pl w)) = zlen d + zlen (pool_ p1)) by (rewrite E; len).
    assert (Hsub : ids (pool_ p1) ++ ids (out w) ⊆+ ids (pool_ (pl w)) ++ ids (out w)).
    { rewrite E, ids_app, <-app_assoc. by apply submseteq_inserts_l. }
    destruct (Z.ltb_spec (totalCreated_ p1) (maxSize p1)) as [Hlt|Hge]; injection Ha as <-.
    + assert (Hu : u64 (totalCreated_ p1 + 1) = totalCreated_ p1 + 1) by (apply u64_small; len).
      apply (sound_sub _ _ w); unfold owned; cbn; rewrite ?Hu; try done; [split|..]; try congruence; len.
    + apply (sound_sub _ _ w); unfold owned; cbn; try done; [split|..]; try congruence; len.
Qed.

Lemma created_sound lo hi db ok now w w' : 0 ≤ lo < 2 ^ 64 → 0 ≤ hi < 2 ^ 64 →
  sound lo hi w → act db w (Created ok now) = Some w' → sound lo hi w'.
Proof.
  intros Hlo Hhi Hw Ha. cbn [act] in Ha. destruct (creating w) as [|n] eqn:En; [discriminate Ha|].
  pose proof (sound_total _ _ _ Hw) as Ht. pose proof (sound_owned _ _ _ Hw) as Ho. unfold owned in Ho. rewrite En in Ho.
  destruct ok; injection Ha as <-.
  - destruct Hw as [(H1 & H2) H3 H4 H5 H6 H7]. constructor; unfold owned in *; cbn in *; rewrite ?En in *; try done.
    + rewrite <-Permutation_middle. apply NoDup_cons. split; [|done]. intros Hi%H4. lia.
    + intros i Hi. rewrite <-Permutation_middle in Hi. apply elem_of_cons in Hi as [->|Hi%H4]; lia.
    + intros Hf. specialize (H5 Hf). len.
    + len.
  - assert (Hu : u64 (totalCreated_ (pl w) - 1) = totalCreated_ (pl w) - 1) by (apply u64_small; len).
    apply (sound_sub _ _ w); unfold owned; cbn; rewrite ?Hu, ?En; try done; [lia|split|..]; try congruence; len.
Qed.

Lemma release_sound lo hi db k valid now w w' : 0 ≤ lo < 2 ^ 64 → 0 ≤ hi < 2 ^ 64 →
  sound lo hi w → act db w (Release k valid now) = Some w' → sound lo hi w'.
Proof.
  intros Hlo Hhi Hw Ha. cbn [act] in Ha. destruct (out w !! k) as [c|] eqn:Ek; [|discriminate Ha]. cbn in Ha. injection Ha as <-.
  pose proof (sound_total _ _ _ Hw) as Ht. pose proof (sound_owned _ _ _ Hw) as Ho. unfold owned in Ho.
  destruct (out_split _ _ _ Ek) as [Hp Hl]. destruct (uncount_spec (pl w)) as (E1 & E2 & (L1 & L2 & L3 & L4)); [len|].
  assert (Hsub : ids (pool_ (pl w)) ++ ids (delete k (out w)) ⊆+ ids (pool_ (pl w)) ++ ids (out w)).
  { apply submseteq_skips_l. rewrite Hp. by apply submseteq_cons. }
  assert (Hd : sound lo hi (mkWorld (uncount (pl w)) (delete k (out w)) (creating w) (lost w) (next w))).
  { apply (sound_sub _ _ w); unfold owned; cbn; rewrite ?E1, ?E2; try done; [split|..]; try congruence; lia. }
  assert (Hb : ∀ c', conn_id c' = conn_id c →
    sound lo hi (mkWorld (set_pool (pl w) (pool_ (pl w) ++ [c'])) (delete k (out w)) (creating w) (lost w) (next w))).
  { intros c' Hc'. apply (sound_sub _ _ w); unfold owned; cbn; try done; [|split|..]; try done; [|len..].
    rewrite ids_app, <-app_assoc, Hp. cbn. by rewrite Hc'. }
  unfold release, release_mysql, release_redis. destruct db; repeat case_match; auto.
Qed.

Lemma healthCheck_sound lo hi now w :
  0 ≤ lo < 2 ^ 64 → 0 ≤ hi < 2 ^ 64 → sound lo hi w →
  sound lo hi (mkWorld (healthCheck now (pl w)) (out w) (creating w) (lost w) (next w)).
Proof.
  intros Hlo Hhi Hw. unfold healthCheck. destruct (closed_ (pl w)) eqn:Hc; [by destruct w|].
  pose proof (sound_total _ _ _ Hw) as Ht. pose proof (sound_owned _ _ _ Hw) as Ho. unfold owned in Ho.
  pose proof (check_loop_spec_db now (pool_ (pl w)) (pl w) []) as Hs.
  destruct (check_loop now (pl w) (pool_ (pl w)) []) as [p1 kept].
  destruct Hs as (st & -> & Hsub & Et & (L1 & L2 & L3 & L4) & _ & _); [len|]. cbn [app].
  pose proof (sublist_length _ _ Hsub) as Hlen.
  apply (sound_sub _ _ w); unfold owned; cbn; try done; [|split|..]; try congruence; [|len..].
  apply submseteq_skips_r, fmap_submseteq. by apply sublist_submseteq.
Qed.

Lemma act_sound lo hi db w a w' : 0 ≤ lo < 2 ^ 64 → 0 ≤ hi < 2 ^ 64 → sound lo hi w → act db w a = Some w' → sound lo hi w'.
Proof.
  intros Hlo Hhi Hw Ha. destruct a as [ping now|ok now|k valid now|k|now| |].
  - by eapply acquire_sound.
  - by eapply created_sound.
  - by eapply release_sound.
  - cbn [act] in Ha. destruct (out w !! k) as [c|] eqn:Ek; [|discriminate Ha]. cbn in Ha. injection Ha as <-.
    destruct (out_split _ _ _ Ek) as [Hp Hl]. pose proof (sound_total _ _ _ Hw) as Ht.
    apply (sound_sub _ _ w); unfold owned; cbn; try done; [|split|..]; try done; try lia.
    apply submseteq_skips_l. rewrite Hp. by apply submseteq_cons.
  - injection Ha as <-. by apply healthCheck_sound.
  - injection Ha as <-. pose proof (sound_total _ _ _ Hw) as Ht. apply (sound_sub _ _ w); unfold owned; cbn; done.
  - cbn [act] in Ha. destruct (closed_ (pl w)) eqn:Hc; [|discriminate Ha]. injection Ha as <-. pose proof (sound_total _ _ _ Hw) as Ht.
    apply (sound_sub _ _ w); unfold owned; cbn; try done; [|congruence|len].
    by apply submseteq_inserts_l.
Qed.

Lemma new_sound lo hi idle made : zlen made ≤ lo → sound lo hi (World_new lo hi idle made).
Proof.
  intros Hm. assert (Hids : conn_id <$> imap mkConn made = seq 0 (length made)).
  { rewrite fmap_imap.
    apply list_eq. intros i. rewrite list_lookup_imap. destruct (made !! i) as [x|] eqn:Ei; cbn.
    - apply lookup_lt_Some in Ei. by rewrite lookup_seq_lt.
    - apply lookup_ge_None in Ei. by rewrite lookup_seq_ge. }
  constructor; unfold owned; cbn; try done; rewrite ?Hids, ?app_nil_r.
  - apply NoDup_seq.
  - intros i Hi%elem_of_seq. lia.
  - intros _. unfold zlen. rewrite length_imap. cbn. lia.
  - unfold zlen. rewrite length_imap. cbn. lia.
  - lia.
Qed.

Lemma sound_run lo hi db acts : 0 ≤ lo < 2 ^ 64 → 0 ≤ hi < 2 ^ 64 → ∀ w w',
  sound lo hi w → run db w acts = Some w' → sound lo hi w'.
Proof.
  intros Hlo Hhi. induction acts as [|a acts IH]; intros w w' Hw Hr; cbn [run] in Hr; [by injection Hr as <-|].
  destruct (act db w a) as [w1|] eqn:Ea; [|discriminate Hr]. eapply IH, Hr. by eapply act_sound.
Qed.

(** C25: Whatever clients, the health checker and the destructor do with a MySQL
    or a Redis pool, in whatever order, and whatever the database answers: no
    connection is in the pool and with a client, or with two clients, at once;
    the count of the pool is the number of connections idle, given out, being
    opened and lost by clients (at least that once the pool is closed); and
    there are never more than the larger of the two sizes. *)
Theorem db_pool_accounting (db : Db) (lo hi idle : Z) (made : list Z) (acts : list Act) (w : World) :
  0 ≤ lo < 2 ^ 64 → 0 ≤ hi < 2 ^ 64 → zlen made ≤ lo → run db (World_new lo hi idle made) acts = Some w →
  NoDup (ids (pool_ (pl w)) ++ ids (out w)) ∧
  (closed_ (pl w) = false → totalCreated_ (pl w) = zlen (pool_ (pl w)) + zlen (out w) + Z.of_nat (creating w) + Z.of_nat (lost w)) ∧
  zlen (pool_ (pl w)) + zlen (out w) + Z.of_nat (creating w) ≤ Z.max lo hi.
Proof.
  intros Hlo Hhi Hm Hr. pose proof (sound_run lo hi db acts Hlo Hhi _ _ (new_sound lo hi idle made Hm) Hr) as [_ H1 _ H2 H3 H4].
  unfold owned in *. split_and!; [done|intros Hc; by rewrite (H2 Hc)|lia].
Qed.

(** ** The guard, and the sentinel's double free *)

Lemma commits_over h (b : bool) oks : commits (mkGuard h b false) oks = ([], mkGuard h b false).
Proof. induction oks as [|x oks IH]; [done|]. cbn. by rewrite IH. Qed.

Lemma commits_done h oks : commits (mkGuard h true true) oks = ([], mkGuard h true true).
Proof. induction oks as [|x oks IH]; [done|]. cbn. by rewrite IH. Qed.

(** A transaction that began ends with the first commit that succeeds and
    nothing after it, or, when none does, with a rollback. *)
Theorem transaction_ends (oks : list bool) :
  let '(sent, g) := commits (TransactionGuard_new true true).2 oks in
  match list_find (λ b, b = true) oks with
  | Some (k, _) => sent = replicate k (COMMIT, false) ++ [(COMMIT, true)] ∧ guard_destroy g = []
  | None => sent = replicate (length oks) (COMMIT, false) ∧ guard_destroy g = [ROLLBACK]
  end.
Proof.
  cbn [TransactionGuard_new snd]. induction oks as [|ok oks IH]; [done|]. cbn [commits guard_commit negb orb began_ committed_ has_conn].
  destruct ok; cbn [list_find].
  - rewrite commits_done. by cbn.
  - destruct (commits (mkGuard true false true) oks) as [sent g]. cbn.
    destruct (list_find (λ b, b = true) oks) as [[k x]|]; cbn; naive_solver.
Qed.

(** A transaction that could not begin sends nothing more. *)
Theorem transaction_not_begun (usable : bool) (oks : list bool) :
  let '(sent, g) := commits (TransactionGuard_new usable false).2 oks in sent = [] ∧ guard_destroy g = [].
Proof. destruct usable; cbn [TransactionGuard_new snd]; by rewrite commits_over. Qed.

(** A sentinel that answers with a port that is not positive is freed twice. *)
Example sentinel_double_free :
  resolveMasterViaSentinel (λ _ _, Replies (Some (Some (#"10.0.0.1", #"0")))) [ #"10.0.0.9:26379" ] 0 = ([0; 0]%nat, ([], 0)).
Proof. vm_compute. reflexivity. Qed.

(** A [SELECT] that is refused leaves a connection, on database 0, in use. *)
Theorem refused_select_ignored (password : str) (n : Z) (auth : Reply) (r r' : Reply) :
  createConnection password n auth r = createConnection password n auth r'.
Proof. by destruct password. Qed.

(** The failover counter moves exactly when the lookup gave another address. *)
Theorem switch_iff (host mh last : str) (port mp : Z) : 0 < mp → last ≠ [] →
  (target host port (Some (mh, mp)) last).2 = true ↔ last ≠ mh ++ #":" ++ to_string mp.
Proof.
  intros Hp Hl. unfold target, note_master. rewrite (proj2 (Z.ltb_lt _ _)) by lia. cbn [snd].
  rewrite (bool_decide_false (last = [])) by done. cbn [negb andb]. rewrite negb_true_iff, bool_decide_eq_false. done.
Qed.

Definition busy_acts : list Act :=
  [Acquire (λ _, true) 5; Acquire (λ i, bool_decide (i ≠ 1%nat)) 6; Created true 6; Release 0 true 7; Acquire (λ _, false) 8;
   Created false 9; Lose 0; HealthCheck 100; Close; Release 0 true 101; Clear].

Lemma busy_run : ∃ w, run Redis (World_new 2 3 60 [1; 2]) (take 6 busy_acts) = Some w ∧ closed_ (pl w) = false ∧ length (out w) = 1%nat.
Proof. vm_compute. eexists. split_and!; reflexivity. Qed.

Lemma db_pool_accounting_witness : ∃ w, run Redis (World_new 2 3 60 [1; 2]) (take 6 busy_acts) = Some w ∧
  totalCreated_ (pl w) = zlen (pool_ (pl w)) + zlen (out w) + Z.of_nat (creating w) + Z.of_nat (lost w).
Proof.
  destruct busy_run as (w & Hr & Hc & _). exists w. split; [exact Hr|].
  destruct (db_pool_accounting Redis 2 3 60 [1; 2] (take 6 busy_acts) w) as (_ & H & _); [lia..|by vm_compute|exact Hr|].
  exact (H Hc).
Defined.

Lemma switch_iff_witness : (target #"h" 6379 (Some (#"10.0.0.2", 6379)) #"10.0.0.1:6379").2 = true.
Proof. apply (switch_iff #"h" #"10.0.0.2" #"10.0.0.1:6379" 6379 6379); [lia|by apply (bool_decide_unpack _)..]. Defined.

(** What was set is what is got, up to the value's first zero byte: the value is
    passed as a C string. *)
Theorem set_then_get {D} (redisvCommand : D → list str → option Value * D) (d : D) (key value : str) :
  stores redisvCommand → c_str key ≠ [] →
  (set redisvCommand d key value 0).1 = true ∧ (get redisvCommand (set redisvCommand d key value 0).2 key).1 = c_str value.
Proof.
  intros Hs Hk. destruct (Hs d (c_str key) (c_str value) Hk) as (d' & E & Eg).
  assert (Es : set redisvCommand d key value 0 = (true, d')) by (unfold set, SET; cbn [Z.ltb Z.compare app]; by rewrite E).
  rewrite Es. split; [done|]. unfold get, GET. cbn [snd]. destruct (redisvCommand d' _) as [r d2]. cbn [fst] in *. by rewrite Eg.
Qed.

(** A server of [SET] and [GET] alone. *)
Definition small_server (d : gmap str str) (args : list str) : option Value * gmap str str :=
  match args with
  | [ c; k; v ] => if bool_decide (c = #"SET") then (Some (Status #"OK"), <[k:=v]> d) else (Some (Error #"ERR"), d)
  | [ c; k ] => if bool_decide (c = #"GET") then (Some (match d !! k with Some v => Text v | None => Nil end), d) else (Some (Error #"ERR"), d)
  | _ => (Some (Error #"ERR"), d)
  end.

Lemma set_then_get_witness :
  (get small_server (set small_server ∅ #"k" (#"a" ++ [ "000"%char ] ++ #"b") 0).2 #"k").1 = #"a".
Proof.
  destruct (set_then_get small_server ∅ #"k" (#"a" ++ [ "000"%char ] ++ #"b")) as [_ H]; [|by apply (bool_decide_unpack _)|exact H].
  intros d k v _. exists (<[k:=v]> d). split; [done|]. cbn. by rewrite lookup_insert_eq.
Defined.
