(* ===== verification/MySQL.v ===== *)
(** * MySQL: a connection of the MySQL pool, and its prepared statements

    Models [MySQLConnection], [PreparedStatement] and
    [MySQLPool::createConnection] of [src/pool/MySQLPool.h].  libmysqlclient is
    not part of the repository: what a call answers comes with it, and of
    [mysql_stmt_bind_param] the model uses what its manual says, that it copies
    the array of binds and keeps the pointers in it. *)

From S2P Require Import Prelude.

Open Scope Z_scope.

(** ** Opening a connection *)

Record MySQLPoolConfig := mkConfig {
  host : str; port : Z; user : str; password : str; database : str; charset : str;
  minSize : Z; maxSize : Z; idleTimeoutSec : Z; connectTimeoutSec : Z
}.

Definition MySQLPoolConfig_default : MySQLPoolConfig :=
  mkConfig #"127.0.0.1" 3306 #"root" [] [] #"utf8mb4" 5 20 60 5.

Inductive Api :=
  | mysql_init
  | opt_connect_timeout (sec : Z) | opt_reconnect (on : bool) | opt_charset (name : str)
  | mysql_real_connect (host user password db : str) (port : Z)
  | mysql_close.

(** [createConnection]: the calls, and whether the connection is valid;
    [inited], [connected]: what the calls answer. *)
Definition createConnection (c : MySQLPoolConfig) (inited connected : bool) : list Api * bool :=
  if negb inited then ([mysql_init], false)
  else
    let calls := [mysql_init; opt_connect_timeout (u32 (connectTimeoutSec c)); opt_reconnect true; opt_charset (c_str (charset c));
                  mysql_real_connect (c_str (host c)) (c_str (user c)) (c_str (password c)) (c_str (database c)) (u32 (port c))] in
    if connected then (calls, true) else (calls ++ [mysql_close], false).

(** ** Statements in text *)

(** What is sent; the answers are arguments.  [valid]: there is a handle. *)
Definition ping (valid answer : bool) : bool := valid && answer.

(** [query]: the text sent, and whether there is a result. *)
Definition query (valid : bool) (sql : str) (ok stored : bool) : option str * bool :=
  if negb valid then (None, false) else (Some (c_str sql), ok && stored).

(** [execute]: the rows, [-1] on failure; [affected] is 64 bits wide. *)
Definition execute (valid : bool) (sql : str) (ok : bool) (affected : Z) : option str * Z :=
  if negb valid then (None, -1) else (Some (c_str sql), if ok then i32 affected else -1).

Definition lastInsertId (valid : bool) (id : Z) : Z := if valid then id else 0.
Definition lastError (valid : bool) (error : str) : str := if valid then error else #"connection is null".

(** [escape]: [escaped] is what [mysql_real_escape_string] writes: at most twice
    the text, in a buffer of one more. *)
Definition escape (valid : bool) (escaped : str → str) (s : str) : str := if valid then escaped s else s.

(** ** Prepared statements *)

Inductive FieldType := Unset | LongLong | String_.

(** A [MYSQL_BIND]: its type, and where it points: the number with the index, or
    the block of memory that held the text with the index. *)
Inductive Pointer := Null | IntAt (i : nat) | BlockAt (i block : nat).

Record Bind := mkBind { buffer_type : FieldType; buffer : Pointer; buffer_length : Z; length_at : option nat }.

Definition Bind_zero : Bind := mkBind Unset Null 0 None.

(** [stringParams_] has, with each text, the number of the block it is in: an
    assignment may leave it or move it to a new one.  [stmt_params] is the copy
    the library made. *)
Record PreparedStatement := mkStmt {
  stmt_ : bool;
  bound_ : bool;
  binds_ : list Bind;
  intParams_ : list Z;
  stringParams_ : list (nat * str);
  lengthParams_ : list Z;
  stmt_params : list Bind
}.

(** The constructor: [usable]: there is a connection and it is valid; then what
    [mysql_stmt_init], [_prepare] and [_param_count] answer. *)
Definition PreparedStatement_new (usable inited prepared : bool) (paramCount : nat) : PreparedStatement :=
  if usable && inited && prepared then
    mkStmt true false (replicate paramCount Bind_zero) (replicate paramCount 0) (replicate paramCount (0%nat, [])) (replicate paramCount 0) []
  else mkStmt false false [] [] [] [] [].

(** [idx] counts from 1. *)
Definition bindInt64 (s : PreparedStatement) (idx : nat) (value : Z) : PreparedStatement :=
  if (idx <? 1)%nat || (length (binds_ s) <? idx)%nat then s
  else let i := (idx - 1)%nat in
    mkStmt (stmt_ s) (bound_ s)
      (<[i := mkBind LongLong (IntAt i) (default 0 (buffer_length <$> binds_ s !! i)) None]> (binds_ s))
      (<[i := value]> (intParams_ s)) (stringParams_ s) (lengthParams_ s) (stmt_params s).

Definition bindString (s : PreparedStatement) (idx : nat) (value : str) (moves : bool) : PreparedStatement :=
  if (idx <? 1)%nat || (length (binds_ s) <? idx)%nat then s
  else let i := (idx - 1)%nat in
    let block := default 0%nat (fst <$> stringParams_ s !! i) in
    let block' := if moves then S block else block in
    mkStmt (stmt_ s) (bound_ s)
      (<[i := mkBind String_ (BlockAt i block') (zlen value) (Some i)]> (binds_ s))
      (intParams_ s) (<[i := (block', value)]> (stringParams_ s)) (<[i := zlen value]> (lengthParams_ s)) (stmt_params s).

(** What the library reads for a parameter when it executes: [Dangling] is a
    block that was given back. *)
Inductive Param := NoValue | IntParam (v : Z) | TextParam (v : str) | Dangling.

Definition read_param (s : PreparedStatement) (b : Bind) : Param :=
  match buffer b with
  | Null => NoValue
  | IntAt i => IntParam (default 0 (intParams_ s !! i))
  | BlockAt i block =>
      match stringParams_ s !! i with
      | Some (block', text) =>
          if bool_decide (block = block') then
            let n := match length_at b with Some j => default 0 (lengthParams_ s !! j) | None => buffer_length b end in
            TextParam (take (Z.to_nat n) text)
          else Dangling
      | None => Dangling
      end
  end.

(** [execute]: its answer, what is sent as parameters, and the statement. *)
Definition stmt_execute (s : PreparedStatement) (bind_ok exec_ok : bool) : bool * option (list Param) * PreparedStatement :=
  if negb (stmt_ s) then (false, None, s)
  else
    let binding := negb (bool_decide (binds_ s = [])) && negb (bound_ s) in
    if binding && negb bind_ok then (false, None, s)
    else
      let s' := if binding then mkStmt (stmt_ s) true (binds_ s) (intParams_ s) (stringParams_ s) (lengthParams_ s) (binds_ s) else s in
      (exec_ok, Some (read_param s' <$> stmt_params s'), s').

Definition affectedRows (s : PreparedStatement) (rows : Z) : Z := if stmt_ s then i64 rows else -1.
Definition stmt_lastInsertId (s : PreparedStatement) (id : Z) : Z := if stmt_ s then i64 id else 0.
Definition stmt_lastError (s : PreparedStatement) (error : str) : str := if stmt_ s then error else #"no statement".

(** ** What is bound *)

Inductive Arg := AInt (idx : nat) (v : Z) | AText (idx : nat) (v : str) (moves : bool).

Definition bind_arg (s : PreparedStatement) (a : Arg) : PreparedStatement :=
  match a with AInt idx v => bindInt64 s idx v | AText idx v moves => bindString s idx v moves end.

(** The value a parameter was given last. *)
Definition arg_for (i : nat) (a : Arg) : option Param :=
  match a with
  | AInt idx v => if bool_decide (idx = S i) then Some (IntParam v) else None
  | AText idx v _ => if bool_decide (idx = S i) then Some (TextParam v) else None
  end.

Definition last_arg (i : nat) (args : list Arg) : Param := foldl (λ p a, default p (arg_for i a)) NoValue args.

(** What [read_param] finds for a parameter through the array [binds_]. *)
Definition reads (s : PreparedStatement) (i : nat) : Param :=
  match binds_ s !! i with Some b => read_param s b | None => NoValue end.

(** Each bind points to its own slots, which are there. *)
Record well_bound (n : nat) (s : PreparedStatement) : Prop := {
  wb_ok : stmt_ s = true; wb_binds : length (binds_ s) = n; wb_ints : length (intParams_ s) = n;
  wb_strings : length (stringParams_ s) = n; wb_lengths : length (lengthParams_ s) = n;
  wb_own : ∀ i b, binds_ s !! i = Some b →
    match buffer b with Null => True | IntAt j => j = i | BlockAt j k => j = i ∧ length_at b = Some i ∧ (∃ t, stringParams_ s !! i = Some (k, t)) end
}.

Lemma well_bound_new n : well_bound n (PreparedStatement_new true true true n).
Proof.
  constructor; cbn; rewrite ?length_replicate; try done. intros i b Hb. apply lookup_replicate in Hb as [-> _]. done.
Qed.

Lemma idx_in n idx : (idx <? 1)%nat || (n <? idx)%nat = false → ∃ i, idx = S i ∧ (i < n)%nat.
Proof. intros H. apply orb_false_iff in H as [H1%Nat.ltb_ge H2%Nat.ltb_ge]. exists (idx - 1)%nat. lia. Qed.

Lemma idx_out n idx i : (idx <? 1)%nat || (n <? idx)%nat = true → (i < n)%nat → idx ≠ S i.
Proof. intros H Hi ->. apply orb_true_iff in H as [H%Nat.ltb_lt|H%Nat.ltb_lt]; lia. Qed.

Lemma bind_arg_spec n s a : well_bound n s →
  well_bound n (bind_arg s a) ∧ stmt_params (bind_arg s a) = stmt_params s ∧ bound_ (bind_arg s a) = bound_ s ∧
  (∀ i, (i < n)%nat → reads (bind_arg s a) i = default (reads s i) (arg_for i a)).
Proof.
  intros [W1 W2 W3 W4 W5 W6]. destruct a as [idx v|idx v moves]; cbn [bind_arg arg_for]; [unfold bindInt64|unfold bindString];
    rewrite W2; destruct (_ || _) eqn:E.
  1,3: split_and!; [by constructor|done|done|]; intros i Hi; rewrite bool_decide_false by (by eapply idx_out); done.
  all: apply idx_in in E as (j & -> & Hj); replace (S j - 1)%nat with j by lia; split_and!; [|done|done|].
  - constructor; cbn; rewrite ?length_insert; try done. intros i b Hb. destruct (decide (i = j)) as [->|Hne].
    + rewrite list_lookup_insert_eq in Hb by lia. by injection Hb as <-.
    + rewrite list_lookup_insert_ne in Hb by done. by apply W6.
  - intros i Hi. unfold reads. cbn [binds_]. destruct (decide (i = j)) as [->|Hne].
    + rewrite list_lookup_insert_eq by lia. rewrite bool_decide_true by done. unfold read_param. cbn. by rewrite list_lookup_insert_eq by lia.
    + rewrite list_lookup_insert_ne by done. rewrite bool_decide_false by lia. cbn [default from_option]. destruct (binds_ s !! i) as [b|] eqn:Eb; [|done].
      pose proof (W6 i b Eb) as Ho. unfold read_param. cbn. destruct (buffer b); [done| |done]. subst. by rewrite list_lookup_insert_ne.
  - constructor; cbn; rewrite ?length_insert; try done. intros i b Hb. destruct (decide (i = j)) as [->|Hne].
    + rewrite list_lookup_insert_eq in Hb by lia. injection Hb as <-. cbn. rewrite list_lookup_insert_eq by lia. eauto.
    + rewrite list_lookup_insert_ne in Hb by done. rewrite list_lookup_insert_ne by done. by apply W6.
  - intros i Hi. unfold reads. cbn [binds_]. destruct (decide (i = j)) as [->|Hne].
    + rewrite list_lookup_insert_eq by lia. rewrite bool_decide_true by done. unfold read_param. cbn. rewrite !list_lookup_insert_eq by lia.
      rewrite bool_decide_true by done. cbn. f_equal. apply take_ge. unfold zlen. lia.
    + rewrite list_lookup_insert_ne by done. rewrite bool_decide_false by lia. cbn [default from_option]. destruct (binds_ s !! i) as [b|] eqn:Eb; [|done].
      pose proof (W6 i b Eb) as Ho. unfold read_param. cbn. destruct (buffer b); [done|done|]. destruct Ho as (-> & -> & t & Et).
      by rewrite !list_lookup_insert_ne.
Qed.

Lemma bind_args_spec n args : ∀ s, well_bound n s →
  well_bound n (foldl bind_arg s args) ∧ stmt_params (foldl bind_arg s args) = stmt_params s ∧ bound_ (foldl bind_arg s args) = bound_ s ∧
  (∀ i, (i < n)%nat → reads (foldl bind_arg s args) i = foldl (λ p a, default p (arg_for i a)) (reads s i) args).
Proof.
  induction args as [|a args IH]; intros s Hs; cbn [foldl]; [done|]. destruct (bind_arg_spec n s a Hs) as (W & P & B & R).
  destruct (IH _ W) as (W' & P' & B' & R'). split_and!; [done|congruence|congruence|]. intros i Hi. by rewrite R', R.
Qed.

(** What an execution sends that has yet to hand over the binds. *)
Lemma first_execute n s ok : well_bound n s → bound_ s = false → stmt_params s = [] →
  ∃ s', stmt_execute s true ok = (ok, Some (reads s <$> seq 0 n), s') ∧ s' = mkStmt (stmt_ s) (bound_ s') (binds_ s) (intParams_ s) (stringParams_ s) (lengthParams_ s) (binds_ s)
    ∧ (0 < n → bound_ s' = true)%nat.
Proof.
  intros Hw Hb Hp. destruct Hw as [W1 W2 _ _ _ _]. unfold stmt_execute. rewrite W1, Hb. cbn [negb]. rewrite andb_true_r, andb_false_r.
  assert (Hl : ∀ s', (∀ b, read_param s' b = read_param s b) → read_param s' <$> binds_ s = reads s <$> seq 0 n).
  { intros s' Hr. apply list_eq. intros i. rewrite !list_lookup_fmap. destruct (decide (i < n)%nat) as [Hi|Hi].
    - rewrite lookup_seq_lt by done. cbn. unfold reads. destruct (lookup_lt_is_Some_2 (binds_ s) i) as [b Eb]; [lia|]. rewrite Eb. cbn. by rewrite Hr.
    - rewrite lookup_seq_ge by lia. rewrite lookup_ge_None_2 by lia. done. }
  destruct (decide (binds_ s = [])) as [E|E].
  - rewrite bool_decide_true by done. cbn [negb]. exists s. split_and!.
    + by rewrite Hp, <-(Hl s), E by done.
    + destruct s. cbn in *. by subst.
    + rewrite E in W2. cbn in W2. lia.
  - rewrite bool_decide_false by done. cbn [negb].
    exists (mkStmt (stmt_ s) true (binds_ s) (intParams_ s) (stringParams_ s) (lengthParams_ s) (binds_ s)).
    split_and!; [|by rewrite ?W1|done]. cbn [stmt_params]. rewrite ?W1. f_equal. f_equal. f_equal. by apply Hl.
Qed.

(** ** Parameters.  A statement that is executed for the first time sends, for
    each parameter, the value it was given last, and none for one that was given
    none; indices out of range have no effect. *)
Theorem first_execute_sends (n : nat) (args : list Arg) (ok : bool) :
  (stmt_execute (foldl bind_arg (PreparedStatement_new true true true n) args) true ok).1 =
  (ok, Some ((λ i, last_arg i args) <$> seq 0 n)).
Proof.
  destruct (bind_args_spec n args _ (well_bound_new n)) as (W & P & B & R).
  destruct (first_execute n _ ok W B P) as (s' & E & _). rewrite E. cbn [fst]. f_equal. f_equal.
  apply list_fmap_ext. intros k i Hk. apply lookup_seq in Hk as [-> Hk]. rewrite R by lia. unfold last_arg. f_equal.
  unfold reads, PreparedStatement_new. cbn. by rewrite lookup_replicate_2 by lia.
Qed.

(** Only whole numbers are given for a parameter. *)
Definition no_text_for (i : nat) (a : Arg) : Prop := match a with AText idx _ _ => idx ≠ S i | AInt _ _ => True end.

Lemma int_stays n i args : ∀ s, well_bound n s → (i < n)%nat → Forall (no_text_for i) args →
  (∃ b, binds_ s !! i = Some b ∧ buffer b = IntAt i) → ∃ b, binds_ (foldl bind_arg s args) !! i = Some b ∧ buffer b = IntAt i.
Proof.
  induction args as [|a args IH]; intros s Hs Hi Ha Hb; [done|]. apply Forall_cons in Ha as [Ha Has]. cbn [foldl].
  apply IH; [by apply bind_arg_spec|done|done|]. destruct Hb as (b & Eb & Hbuf). pose proof (wb_binds _ _ Hs) as Hlen.
  destruct a as [idx v|idx v moves]; cbn [bind_arg no_text_for] in *; [unfold bindInt64|unfold bindString]; destruct (_ || _) eqn:E; try by eauto.
  all: rewrite Hlen in E; apply idx_in in E as (j & -> & Hj); replace (S j - 1)%nat with j by lia; cbn [binds_].
  - destruct (decide (i = j)) as [->|]; [rewrite list_lookup_insert_eq by lia; eauto|rewrite list_lookup_insert_ne by done; eauto].
  - rewrite list_lookup_insert_ne by lia. eauto.
Qed.

(** A parameter whose numbers change between two executions: the second one
    sends the new number. *)
Theorem rebound_number (n : nat) (args args' : list Arg) (i : nat) (v : Z) (ok ok' : bool) :
  (i < n)%nat → last_arg i args = IntParam v → Forall (no_text_for i) args' →
  let s := (stmt_execute (foldl bind_arg (PreparedStatement_new true true true n) args) true ok).2 in
  ∃ sent, (stmt_execute (foldl bind_arg s args') true ok').1 = (ok', Some sent) ∧ sent !! i = Some (last_arg i (args ++ args')).
Proof.
  intros Hi Hv Ha. destruct (bind_args_spec n args _ (well_bound_new n)) as (W & P & B & R).
  assert (Hr : reads (foldl bind_arg (PreparedStatement_new true true true n) args) i = last_arg i args).
  { rewrite R by done. unfold last_arg. f_equal. unfold reads, PreparedStatement_new. cbn. by rewrite lookup_replicate_2 by done. }
  destruct (first_execute n _ ok W B P) as (s' & E & Es' & Hbd). rewrite E. cbn [snd]. set (s0 := foldl bind_arg _ args) in *.
  assert (W' : well_bound n s') by (rewrite Es'; by destruct W).
  destruct (bind_args_spec n args' _ W') as (W2 & P2 & B2 & R2). set (s2 := foldl bind_arg s' args') in *.
  assert (Hb0 : ∃ b, binds_ s' !! i = Some b ∧ buffer b = IntAt i).
  { rewrite Es'. cbn [binds_]. destruct (lookup_lt_is_Some_2 (binds_ s0) i) as [b Eb]; [rewrite (wb_binds _ _ W); done|]. exists b. split; [done|].
    rewrite Hv in Hr. unfold reads in Hr. rewrite Eb in Hr. pose proof (wb_own _ _ W i b Eb) as Ho. unfold read_param in Hr.
    destruct (buffer b); [discriminate Hr|by subst|]. by repeat case_match. }
  destruct (int_stays n i args' s' W' Hi Ha Hb0) as (b2 & Eb2 & Hb2). fold s2 in Eb2. destruct Hb0 as (b0 & Eb0 & Hb0).
  exists (read_param s2 <$> stmt_params s2). split.
  - unfold stmt_execute. rewrite (wb_ok _ _ W2), B2, Hbd by lia. cbn [negb]. by destruct (bool_decide (binds_ s2 = [])).
  - rewrite P2, list_lookup_fmap. rewrite Es' in Eb0 |- *. cbn [stmt_params binds_] in *. rewrite Eb0. cbn. f_equal.
    assert (Hsame : read_param s2 b0 = reads s2 i) by (unfold reads; rewrite Eb2; unfold read_param; by rewrite Hb0, Hb2).
    rewrite Hsame, R2 by done. unfold last_arg. rewrite foldl_app. f_equal. transitivity (reads s0 i); [|exact Hr].
    by rewrite Es'.
Qed.

Lemma rebound_number_witness :
  let s := (stmt_execute (foldl bind_arg (PreparedStatement_new true true true 2) [AInt 1 7; AText 2 #"a" false]) true true).2 in
  ∃ sent, (stmt_execute (foldl bind_arg s [AInt 1 8]) true true).1 = (true, Some sent) ∧ sent !! 0%nat = Some (IntParam 8).
Proof. apply (rebound_number 2 [AInt 1 7; AText 2 #"a" false] [AInt 1 8] 0 7 true true); [lia|reflexivity|by repeat constructor]. Defined.

(** A longer text between two executions: the library reads the old block. *)
Example longer_text_dangles :
  let s := (stmt_execute (bindString (PreparedStatement_new true true true 1) 1 #"short" false) true true).2 in
  (stmt_execute (bindString s 1 #"a text that needs a block of its own" true) true true).1 = (true, Some [Dangling]).
Proof. reflexivity. Qed.

(** A text in place of a number: the number is sent again. *)
Example changed_type_ignored :
  let s := (stmt_execute (bindInt64 (PreparedStatement_new true true true 1) 1 7) true true).2 in
  (stmt_execute (bindString s 1 #"seven" false) true true).1 = (true, Some [IntParam 7]).
Proof. reflexivity. Qed.

(** A connection that fails to open gives its handle back. *)
Theorem handle_given_back (c : MySQLPoolConfig) (inited connected : bool) :
  let '(calls, valid) := createConnection c inited connected in
  mysql_close ∈ calls ↔ inited = true ∧ valid = false.
Proof. destruct inited, connected; cbn; rewrite ?elem_of_cons, ?elem_of_nil; naive_solver. Qed.
