(* ===== verification/HttpsServer.v ===== *)
(** * HttpsServer: HTTP over TLS

    Models [src/http/HttpsServer.h].  OpenSSL is the interface [Tls]: an SSL
    object with its two memory BIOs is a value of type [S], and a call takes it
    to the next.  [TlsLaws] says what is relied on.  The calls on the TCP
    connection are the actions of [HttpServer.v]. *)

From S2P Require Import Prelude Buffer HttpRequest HttpResponse Metrics RateLimiter HttpCore HttpServer.

(** What the calls come to; [SSL_get_error] is part of the answer. *)
Inductive Handshake := HandshakeDone | HandshakeAgain | HandshakeFailed.
Inductive Read := Got (d : str) | ReadAgain | ZeroReturn | ReadFailed.
Inductive Write := Wrote (n : nat) | WantWrite | WriteFailed.

#[export] Instance Handshake_eq_dec : EqDecision Handshake.
Proof. solve_decision. Defined.

Class Tls (S : Type) := {
  BIO_write : S → str → Z → Z * S;            (* into the read BIO *)
  BIO_read : S → nat → option str * S;        (* from the write BIO *)
  BIO_ctrl_pending : S → nat;                 (* of the write BIO *)
  SSL_do_handshake : S → Handshake * S;
  SSL_read : S → nat → Read * S;
  SSL_write : S → str → Write * S;
  SSL_shutdown : S → S
}.

Record SslConn {S : Type} := mkSslConn { ssl : S; handshakeDone : bool; pendingPlaintext : str }.
Arguments SslConn : clear implicits.
Arguments mkSslConn {S}.

Definition chunk_size : nat := Z.to_nat 16384.

Section Connection.
Context {S : Type} `{Tls S}.

Definition with_ssl (c : SslConn S) (s : S) : SslConn S := mkSslConn s (handshakeDone c) (pendingPlaintext c).
Definition set_done (c : SslConn S) : SslConn S := mkSslConn (ssl c) true (pendingPlaintext c).
Definition set_pending (c : SslConn S) (p : str) : SslConn S := mkSslConn (ssl c) (handshakeDone c) p.

(** [while ((pending = BIO_ctrl_pending(wbio)) > 0)]: every turn takes bytes,
    so that the number of bytes is fuel enough. *)
Fixpoint flush_loop (fuel : nat) (s : S) : list Action * S :=
  match fuel with
  | O => ([], s)
  | Datatypes.S f =>
      if 0 <? BIO_ctrl_pending s then
        match BIO_read s (Nat.min (BIO_ctrl_pending s) chunk_size) with
        | (Some d, s1) => let '(a, s2) := flush_loop f s1 in (Send d :: a, s2)
        | (None, s1) => ([], s1)
        end
      else ([], s)
  end.

Definition flushSslOutput (s : S) : list Action * S := flush_loop (Datatypes.S (BIO_ctrl_pending s)) s.

(** [while (totalWritten < data.size())], on the part that is still to write. *)
Fixpoint write_loop (fuel : nat) (s : S) (data : str) : list Action * S :=
  match fuel with
  | O => ([], s)
  | Datatypes.S f =>
      match data with
      | [] => ([], s)
      | _ =>
          match SSL_write s (take chunk_size data) with
          | (Wrote n, s1) =>
              let '(a, s2) := flushSslOutput s1 in let '(b, s3) := write_loop f s2 (drop n data) in (a ++ b, s3)
          | (WantWrite, s1) =>
              let '(a, s2) := flushSslOutput s1 in let '(b, s3) := write_loop f s2 data in (a ++ b, s3)
          | (WriteFailed, s1) => ([], s1)
          end
      end
  end.

Definition sslWrite (s : S) (data : str) : list Action * S := write_loop (length data) s data.

(** [while ((n = SSL_read(...)) > 0)]: what was read, and how it ended. *)
Fixpoint read_loop (fuel : nat) (c : SslConn S) : Read * SslConn S :=
  match fuel with
  | O => (ReadAgain, c)
  | Datatypes.S f =>
      match SSL_read (ssl c) chunk_size with
      | (Got d, s1) => read_loop f (mkSslConn s1 (handshakeDone c) (pendingPlaintext c ++ d))
      | (r, s1) => (r, with_ssl c s1)
      end
  end.

Section Requests.
Context {R L A : Type} `{Limiter L} (regex_match : R → str → bool).
Context (compress decompress : str → str) (fs : FileSystem).
Context (order : gmap str str → list (str * str)).
Context (core_ : @HttpCore R L A).

Local Abbreviation World := (@World L A).

(** The answer to a request, whether it ends the connection, and the world. *)
Definition answer (req : HttpRequest) (w : World) : str * bool * World :=
  let '(resp0, w1) := handleRequest regex_match fs order core_ req HttpResponse_new w in
  let resp := set_close (postProcessResponse compress core_ req resp0) (negb (keepAlive req)) in
  (toString order resp, closeConnection resp, w1).

Fixpoint request_loop (fuel : nat) (c : SslConn S) (w : World) : list Action * Exit * SslConn S * World :=
  match fuel with
  | O => ([], Drained, c, w)
  | Datatypes.S f =>
      match pendingPlaintext c with
      | [] => ([], Drained, c, w)
      | data =>
          match parseRequest_string decompress data HttpRequest_new with
          | (Incomplete, _, rest) => ([], WaitMore, set_pending c rest, w)
          | (Error, _, rest) =>
              let '(a, s1) := sslWrite (ssl c) (bad_request_page order) in
              (a ++ [Shutdown], Closing, with_ssl (set_pending c rest) s1, w)
          | (Complete, req, rest) =>
              let '(text, close, w1) := answer req w in
              let '(a, s1) := sslWrite (ssl c) text in
              if close then
                let '(b, s2) := flushSslOutput (SSL_shutdown s1) in
                (a ++ b ++ [Shutdown], Closing, with_ssl (set_pending c rest) s2, w1)
              else
                let '(b, e, c2, w2) := request_loop f (with_ssl (set_pending c rest) s1) w1 in (a ++ b, e, c2, w2)
          end
      end
  end.

Definition serve_pending (c : SslConn S) (w : World) := request_loop (Datatypes.S (length (pendingPlaintext c))) c w.

(** Steps 3 and 4 of [onMessage]. *)
Definition read_and_serve (turns : nat) (c : SslConn S) (w : World) : list Action * Exit * SslConn S * World :=
  match read_loop turns c with
  | (ReadFailed, c1) | (ZeroReturn, c1) => ([Shutdown], Closing, c1, w)
  | (_, c1) => serve_pending c1 w
  end.

(** [onMessage], with what is in the buffer, and what it leaves there; [turns]
    bounds the loop of [SSL_read]. *)
Definition onMessage (turns : nat) (c : SslConn S) (buf : str) (w : World)
    : list Action * Exit * SslConn S * str * World :=
  let '(written, s1) := if 0 <? length buf then BIO_write (ssl c) buf (i32 (zlen buf)) else (1, ssl c)%Z in
  if (written <=? 0)%Z then ([Shutdown], Closing, with_ssl c s1, buf, w)
  else
    let rest := if 0 <? length buf then drop (Z.to_nat written) buf else buf in
    let c1 := with_ssl c s1 in
    if handshakeDone c then let '(a, e, c2, w1) := read_and_serve turns c1 w in (a, e, c2, rest, w1)
    else
      let '(r, s2) := SSL_do_handshake s1 in
      let '(a, s3) := flushSslOutput s2 in
      let c2 := with_ssl c s3 in
      match r with
      | HandshakeDone => let '(b, e, c3, w1) := read_and_serve turns (set_done c2) w in (a ++ b, e, c3, rest, w1)
      | HandshakeAgain => (a, WaitMore, c2, rest, w)
      | HandshakeFailed => (a ++ [Shutdown], Closing, c2, rest, w)
      end.

(** A connection and the chunks that arrive, until it is shut down. *)
Fixpoint receive (turns : nat) (c : SslConn S) (chunks : list str) (w : World) : list Action * Exit * SslConn S * World :=
  match chunks with
  | [] => ([], WaitMore, c, w)
  | d :: chunks =>
      let '(a, e, c1, _, w1) := onMessage turns c d w in
      match e with
      | Closing => (a, Closing, c1, w1)
      | _ => let '(b, e2, c2, w2) := receive turns c1 chunks w1 in (a ++ b, e2, c2, w2)
      end
  end.

(** ** The connections of the server, by name *)

(** [onConnection] when the connection is up: [fresh] is the SSL object with
    its BIOs, where they could be made.  The result tells whether an idle timer
    is started. *)
Definition onConnection (idleTimeout : double) (connected : bool) (name : str) (fresh : option S) (conns : gmap str (SslConn S))
    : list Action * option double * gmap str (SslConn S) :=
  if connected then
    match fresh with
    | None => ([Shutdown], None, conns)
    | Some s =>
        let pending := match conns !! name with Some c => pendingPlaintext c | None => [] end in
        ([], if dlt (dbl 0) idleTimeout then Some idleTimeout else None, <[name := mkSslConn s false pending]> conns)
    end
  else ([], None, delete name conns).

(** [onMessage] from the lookup on: a name that is not in the table is ignored. *)
Definition message (turns : nat) (name : str) (conns : gmap str (SslConn S)) (buf : str) (w : World)
    : list Action * gmap str (SslConn S) * str * World :=
  match conns !! name with
  | None => ([], conns, buf, w)
  | Some c => let '(a, _, c1, rest, w1) := onMessage turns c buf w in (a, <[name := c1]> conns, rest, w1)
  end.

(** ** What the parts of the answers are, on strings *)

Inductive Part := Page (text : str) | CloseNotify.

Definition respond_tls (req : HttpRequest) (w : World) : option (list Part * bool) * World :=
  let '(text, close, w1) := answer req w in (Some (Page text :: (if close then [CloseNotify] else []), close), w1).

Definition serve_tls (data : str) (w : World) : list Part * Exit * str * World :=
  serve_whole decompress respond_tls [Page (bad_request_page order)] data w.
End Requests.
End Connection.

Definition page_text (p : Part) : str := match p with Page t => t | CloseNotify => [] end.
Definition pages (l : list Part) : str := mjoin (page_text <$> l).
Definition sent (a : Action) : str := match a with Send d => d | _ => [] end.
Definition sends (l : list Action) : str := mjoin (sent <$> l).

(** ** What is relied on *)

(** What has gone through an SSL object: the ciphertext it was given, the
    plaintext it gave, the plaintext it took, the ciphertext it made, and as
    much of that as was read from the BIO. *)
Record Ghost := mkGhost { received : str; consumed : str; accepted : str; wire : str; taken : str }.

Definition g_receive (d : str) (g : Ghost) : Ghost := mkGhost (received g ++ d) (consumed g) (accepted g) (wire g) (taken g).
Definition g_consume (d : str) (g : Ghost) : Ghost := mkGhost (received g) (consumed g ++ d) (accepted g) (wire g) (taken g).
Definition g_accept (d : str) (g : Ghost) : Ghost := mkGhost (received g) (consumed g) (accepted g ++ d) (wire g) (taken g).
Definition g_take (d : str) (g : Ghost) : Ghost := mkGhost (received g) (consumed g) (accepted g) (wire g) (taken g ++ d).

Definition same_but_wire (g g' : Ghost) : Prop :=
  received g' = received g ∧ consumed g' = consumed g ∧ accepted g' = accepted g ∧ taken g' = taken g.

(** For one session, whose keys are fixed: [plain] is the application data in
    what the peer sent, [opens] that in what it receives; [clean] streams have
    no alert and no damaged record.  These are the documented properties of
    non-blocking TLS over memory BIOs: a BIO takes all it is given, a read gives
    some of the data there is and says [WANT_READ] when there is none, a write
    on a memory BIO takes a part of what it is given. *)
Class TlsLaws (S : Type) `{Tls S} (inv : S → Prop) (est : S → bool) (ghost : S → Ghost)
    (plain opens : str → str) (clean : str → Prop) : Prop := {
  tls_clean c d : clean (c ++ d) → clean c;
  tls_consumed s : inv s → consumed (ghost s) `prefix_of` plain (received (ghost s));
  tls_opens s : inv s → opens (wire (ghost s)) = accepted (ghost s);
  tls_pending s : inv s → ∃ t, wire (ghost s) = taken (ghost s) ++ t ∧ length t = BIO_ctrl_pending s;
  tls_feed s d : inv s → d ≠ [] → (zlen d < 2 ^ 31)%Z →
    ∃ s', BIO_write s d (zlen d) = (zlen d, s') ∧ inv s' ∧ est s' = est s ∧ ghost s' = g_receive d (ghost s);
  tls_handshake s : inv s → est s = false →
    let '(r, s') := SSL_do_handshake s in
    inv s' ∧ same_but_wire (ghost s) (ghost s') ∧ est s' = bool_decide (r = HandshakeDone) ∧
    (r = HandshakeFailed → ¬ clean (received (ghost s)));
  tls_read s : inv s → est s = true →
    match SSL_read s chunk_size with
    | (Got d, s') => inv s' ∧ est s' = true ∧ d ≠ [] ∧ same_but_wire (g_consume d (ghost s)) (ghost s')
    | (ReadAgain, s') => inv s' ∧ est s' = true ∧ consumed (ghost s) = plain (received (ghost s)) ∧ same_but_wire (ghost s) (ghost s')
    | _ => ¬ clean (received (ghost s))
    end;
  tls_write s d : inv s → est s = true → d ≠ [] →
    ∃ n s', SSL_write s d = (Wrote n, s') ∧ 0 < n ≤ length d ∧ inv s' ∧ est s' = true ∧
      same_but_wire (g_accept (take n d) (ghost s)) (ghost s');
  tls_take s n : inv s → 0 < n ≤ BIO_ctrl_pending s →
    ∃ d s', BIO_read s n = (Some d, s') ∧ d ≠ [] ∧ inv s' ∧ est s' = est s ∧ ghost s' = g_take d (ghost s) ∧
      BIO_ctrl_pending s' + length d = BIO_ctrl_pending s;
  tls_close s : inv s → est s = true → inv (SSL_shutdown s) ∧ same_but_wire (ghost s) (ghost (SSL_shutdown s)) ∧ est (SSL_shutdown s) = true
}.

Section Facts.
Context {S : Type} `{HT : Tls S} (inv : S → Prop) (est : S → bool) (ghost : S → Ghost).
Context (plain opens : str → str) (clean : str → Prop) `{HL : !TlsLaws S inv est ghost plain opens clean}.

(** [text] was taken and [a] was sent, on an established session. *)
Definition progress (s s' : S) (a : list Action) (text : str) : Prop :=
  inv s' ∧ est s' = true ∧ received (ghost s') = received (ghost s) ∧ consumed (ghost s') = consumed (ghost s) ∧
  accepted (ghost s') = accepted (ghost s) ++ text ∧ taken (ghost s') = taken (ghost s) ++ sends a.

Lemma progress_app s1 s2 s3 a b t u : progress s1 s2 a t → progress s2 s3 b u → progress s1 s3 (a ++ b) (t ++ u).
Proof.
  intros (H1 & H2 & H3 & H4 & H5 & H6) (K1 & K2 & K3 & K4 & K5 & K6). unfold progress, sends in *.
  rewrite fmap_app, join_app, K3, K4, K5, K6, H3, H4, H5, H6, !app_assoc. done.
Qed.

(** All that was made is read and sent. *)
Lemma flush_spec f s : inv s → BIO_ctrl_pending s < f →
  let '(a, s') := flush_loop f s in
  inv s' ∧ est s' = est s ∧ same_but_wire (g_take (sends a) (ghost s)) (ghost s') ∧ wire (ghost s') = wire (ghost s) ∧
  taken (ghost s') = wire (ghost s').
Proof.
  revert s. induction f as [|f IH]; intros s Hs Hf; [lia|]. cbn [flush_loop].
  destruct (Nat.ltb_spec 0 (BIO_ctrl_pending s)) as [Hp|Hp].
  - destruct (tls_take s (Nat.min (BIO_ctrl_pending s) chunk_size) Hs) as (d & s1 & -> & Hd & H1 & He & Hg & Hn).
    { split; [|lia]. unfold chunk_size. lia. }
    assert (0 < length d) by (destruct d; [done|simpl; lia]).
    specialize (IH s1 H1 ltac:(lia)). destruct (flush_loop f s1) as [a s2]. destruct IH as (I1 & I2 & I3 & I4 & I5).
    rewrite Hg in *. split_and!; [done|congruence| |done|done]. revert I3. unfold same_but_wire, sends. cbn.
    by rewrite app_assoc.
  - destruct (tls_pending s Hs) as (t & Hw & Ht). destruct t; [|simpl in Ht; lia]. rewrite app_nil_r in Hw.
    split_and!; try done. unfold same_but_wire. cbn. by rewrite app_nil_r.
Qed.

Lemma flushSslOutput_spec s : inv s → est s = true →
  let '(a, s') := flushSslOutput s in progress s s' a [] ∧ taken (ghost s') = wire (ghost s').
Proof.
  intros Hs He. pose proof (flush_spec (Datatypes.S (BIO_ctrl_pending s)) s Hs ltac:(lia)) as Hf. unfold flushSslOutput.
  destruct (flush_loop _ s) as [a s']. destruct Hf as (H1 & H2 & (H3 & H4 & H5 & H6) & _ & H7).
  split; [|done]. unfold progress. rewrite app_nil_r. split_and!; try done. congruence.
Qed.

Lemma write_loop_nil f s : write_loop f s [] = ([], s).
Proof. by destruct f. Qed.

Lemma write_loop_spec f s data : inv s → est s = true → length data ≤ f →
  let '(a, s') := write_loop f s data in progress s s' a data ∧ (data ≠ [] → taken (ghost s') = wire (ghost s')).
Proof.
  revert s data. induction f as [|f IH]; intros s data Hs He Hf; cbn [write_loop].
  - destruct data; [|simpl in Hf; lia]. unfold progress. cbn. by rewrite !app_nil_r.
  - destruct data as [|x data']; [unfold progress; cbn; by rewrite !app_nil_r|]. set (data := x :: data') in *.
    assert (Htake : take chunk_size data ≠ []) by done.
    destruct (tls_write s (take chunk_size data) Hs He Htake) as (n & s1 & -> & Hn & H1 & H2 & Hg).
    pose proof (flushSslOutput_spec s1 H1 H2) as Hfl. destruct (flushSslOutput s1) as [a s2]. destruct Hfl as [P1 T1].
    assert (Hn' : n ≤ length data /\ n ≤ chunk_size) by (rewrite length_take in Hn; lia).
    destruct P1 as (Q1 & Q2 & Q3).
    specialize (IH s2 (drop n data) Q1 Q2 ltac:(rewrite length_drop; lia)).
    destruct (write_loop f s2 (drop n data)) as [b s3] eqn:Ew. destruct IH as [P2 T2].
    rewrite take_take, Nat.min_l in Hg by lia. split.
    + rewrite <-(take_drop n data). apply (progress_app s s2 s3); [|done].
      destruct Hg as (G1 & G2 & G3 & G4), Q3 as (Q3 & Q4 & Q5 & Q6). cbn in *. rewrite app_nil_r in Q5. unfold progress.
      rewrite Q3, Q4, Q5, Q6, G1, G2, G3, G4. done.
    + intros _. destruct (drop n data) eqn:Ed; [|by apply T2].
      rewrite write_loop_nil in Ew. by injection Ew as <- <-.
Qed.

(** Everything there is to read is read. *)
Lemma read_loop_spec f c : inv (ssl c) → est (ssl c) = true → clean (received (ghost (ssl c))) →
  length (plain (received (ghost (ssl c)))) < length (consumed (ghost (ssl c))) + f →
  let '(r, c') := read_loop f c in
  ∃ new, r = ReadAgain ∧ inv (ssl c') ∧ est (ssl c') = true ∧ handshakeDone c' = handshakeDone c ∧
    pendingPlaintext c' = pendingPlaintext c ++ new ∧ plain (received (ghost (ssl c))) = consumed (ghost (ssl c)) ++ new ∧
    same_but_wire (g_consume new (ghost (ssl c))) (ghost (ssl c')).
Proof.
  revert c. induction f as [|f IH]; intros c Hs He Hc Hf; cbn [read_loop].
  { pose proof (prefix_length _ _ (tls_consumed (ssl c) Hs)). lia. }
  pose proof (tls_read (ssl c) Hs He) as Hr. destruct (SSL_read (ssl c) chunk_size) as [[d| | |] s1]; [| |by destruct Hr..].
  - destruct Hr as (H1 & H2 & Hd & (G1 & G2 & G3 & G4)). cbn in *.
    assert (0 < length d) by (destruct d; [done|simpl; lia]).
    specialize (IH (mkSslConn s1 (handshakeDone c) (pendingPlaintext c ++ d))). cbn [ssl handshakeDone pendingPlaintext] in IH.
    destruct (read_loop f _) as [r c']. rewrite G1, G2, length_app in IH.
    destruct IH as (new & -> & I1 & I2 & I3 & I4 & I5 & (J1 & J2 & J3 & J4)); [done..|lia|]. exists (d ++ new).
    rewrite I4, I5, !app_assoc. cbn in J1, J2, J3, J4. unfold same_but_wire. cbn.
    rewrite J1, J2, J3, J4, ?G1, ?G2, ?G3, ?G4, ?app_assoc. done.
  - destruct Hr as (H1 & H2 & Hp & Hg). exists []. rewrite !app_nil_r. cbn. split_and!; try done.
    unfold same_but_wire, g_consume in *. cbn. by rewrite app_nil_r.
Qed.

(** The peer can open what was sent into all that was taken. *)
Definition delivered (s : S) : Prop := opens (taken (ghost s)) = accepted (ghost s).

Lemma flushed_delivered s : inv s → taken (ghost s) = wire (ghost s) → delivered s.
Proof. intros Hs Ht. unfold delivered. rewrite Ht. by apply tls_opens. Qed.

Lemma sslWrite_spec s data : inv s → est s = true → delivered s →
  let '(a, s') := sslWrite s data in progress s s' a data ∧ delivered s'.
Proof.
  intros Hs He Hd. pose proof (write_loop_spec (length data) s data Hs He (Nat.le_refl _)) as Hw. unfold sslWrite.
  destruct (write_loop _ s data) as [a s'] eqn:E. destruct Hw as [Hp Ht]. split; [done|].
  destruct data as [|x data']; [cbn in E; by injection E as <- <-|].
  apply flushed_delivered; [apply Hp|by apply Ht].
Qed.

Lemma close_spec s : inv s → est s = true →
  let '(a, s') := flushSslOutput (SSL_shutdown s) in progress s s' a [] ∧ delivered s'.
Proof.
  intros Hs He. destruct (tls_close s Hs He) as (H1 & (G1 & G2 & G3 & G4) & H2).
  pose proof (flushSslOutput_spec (SSL_shutdown s) H1 H2) as Hf. destruct (flushSslOutput (SSL_shutdown s)) as [a s'].
  destruct Hf as [(P1 & P2 & P3 & P4 & P5 & P6) Ht]. split; [|by apply flushed_delivered].
  unfold progress. rewrite P3, P4, P5, P6, G1, G2, G3, G4. done.
Qed.

Lemma progress_shutdown s s' a t : progress s s' a t → progress s s' (a ++ [Shutdown]) t.
Proof. unfold progress, sends. rewrite fmap_app, join_app. cbn. by rewrite app_nil_r. Qed.

Section Requests.
Context {R L A : Type} `{Limiter L} (regex_match : R → str → bool).
Context (compress decompress : str → str) (fs : FileSystem).
Context (order : gmap str str → list (str * str)).
Context (core_ : @HttpCore R L A).

Lemma request_loop_spec f c w : inv (ssl c) → est (ssl c) = true → delivered (ssl c) →
  let '(acts, e, c', w') := request_loop regex_match compress decompress fs order core_ f c w in
  ∃ outs, serve_with decompress (respond_tls regex_match compress fs order core_) [Page (bad_request_page order)] f
      (pendingPlaintext c) w = (outs, e, pendingPlaintext c', w') ∧
    handshakeDone c' = handshakeDone c ∧ progress (ssl c) (ssl c') acts (pages outs) ∧ delivered (ssl c').
Proof.
  assert (Hnone : ∀ s, inv s → est s = true → progress s s [] []).
  { intros s Hs He. unfold progress. cbn. by rewrite !app_nil_r. }
  revert c w. induction f as [|f IH]; intros c w Hs He Hd; cbn [request_loop serve_with]; [exists []; auto|].
  destruct (pendingPlaintext c) as [|x data'] eqn:Ep; [exists []; rewrite Ep; auto|]. set (data := x :: data') in *.
  destruct (parseRequest_string decompress data HttpRequest_new) as [[[] req] rest].
  - unfold respond_tls at 1. destruct (answer regex_match compress fs order core_ req w) as [[text close] w1].
    pose proof (sslWrite_spec (ssl c) text Hs He Hd) as Hw. destruct (sslWrite (ssl c) text) as [a s1]. destruct Hw as [P1 D1].
    assert (Hs1 : inv s1 ∧ est s1 = true) by (split; apply P1). destruct Hs1 as [Hs1 He1]. destruct close.
    + pose proof (close_spec s1 Hs1 He1) as Hc. destruct (flushSslOutput (SSL_shutdown s1)) as [b s2]. destruct Hc as [P2 D2].
      exists [Page text; CloseNotify]. split_and!; try done. apply progress_app with s1; [done|]. by apply progress_shutdown.
    + specialize (IH (with_ssl (set_pending c rest) s1) w1 Hs1 He1 D1).
      destruct (request_loop _ _ _ _ _ _ f _ w1) as [[[b e] c2] w2]. destruct IH as (outs & Hserve & I1 & I2 & I3).
      cbn [pendingPlaintext with_ssl set_pending] in Hserve. rewrite Hserve.
      exists (Page text :: outs). split_and!; try done. by apply progress_app with s1.
  - exists []. auto.
  - pose proof (sslWrite_spec (ssl c) (bad_request_page order) Hs He Hd) as Hw.
    destruct (sslWrite (ssl c) (bad_request_page order)) as [a s1]. destruct Hw as [P1 D1].
    exists [Page (bad_request_page order)]. split_and!; try done. apply progress_shutdown. unfold pages. cbn [fmap list_fmap page_text].
    simpl mjoin. by rewrite app_nil_r.
Qed.

Local Abbreviation answers := (serve_tls regex_match compress decompress fs order core_).
Local Abbreviation on_message := (onMessage regex_match compress decompress fs order core_).

(** Since the start at [w0], what was read has been served: [outs] are the
    parts of the answers, [e] how the last turn ended. *)
Record reached (w0 : @World L A) (c : SslConn S) (w : @World L A) (outs : list Part) (e : Exit) : Prop := {
  reached_inv : inv (ssl c);
  reached_est : est (ssl c) = handshakeDone c;
  reached_delivered : delivered (ssl c);
  reached_serve : answers (consumed (ghost (ssl c))) w0 = (outs, e, pendingPlaintext c, w);
  reached_accepted : accepted (ghost (ssl c)) = pages outs;
  reached_early : handshakeDone c = false → consumed (ghost (ssl c)) = []
}.

Definition open_exit (e : Exit) : Prop := e = Drained ∨ e = WaitMore.

Lemma read_and_serve_spec turns w0 c w outs e0 :
  reached w0 c w outs e0 → open_exit e0 → handshakeDone c = true → clean (received (ghost (ssl c))) →
  length (plain (received (ghost (ssl c)))) < turns →
  let '(a, e, c', w') := read_and_serve regex_match compress decompress fs order core_ turns c w in
  ∃ outs', reached w0 c' w' outs' e ∧ handshakeDone c' = true ∧
    consumed (ghost (ssl c')) = plain (received (ghost (ssl c))) ∧
    received (ghost (ssl c')) = received (ghost (ssl c)) ∧ taken (ghost (ssl c')) = taken (ghost (ssl c)) ++ sends a.
Proof.
  intros [H1 H2 H3 H4 H5 _] Ho Hd Hc Ht. unfold read_and_serve.
  pose proof (read_loop_spec turns c H1 ltac:(congruence) Hc ltac:(lia)) as Hr. destruct (read_loop turns c) as [r c1].
  destruct Hr as (new & -> & I1 & I2 & I3 & I4 & I5 & (J1 & J2 & J3 & J4)). cbn in J1, J2, J3, J4.
  assert (D1 : delivered (ssl c1)) by (unfold delivered; rewrite J3, J4; exact H3).
  pose proof (request_loop_spec (Datatypes.S (length (pendingPlaintext c1))) c1 w I1 I2 D1) as Hl.
  unfold serve_pending. destruct (request_loop _ _ _ _ _ _ _ c1 w) as [[[a e] c2] w2].
  destruct Hl as (more & Hserve & K1 & (P1 & P2 & P3 & P4 & P5 & P6) & D2). exists (outs ++ more).
  split_and!; [|congruence|rewrite P4, J2; by rewrite I5|congruence|by rewrite P6, J4].
  constructor; [done|congruence|done| | |congruence].
  - rewrite P4, J2. unfold serve_tls in *. etrans; [eapply serve_whole_app; [exact H4|exact Ho]|].
    rewrite <-I4. unfold serve_whole. by rewrite Hserve.
  - rewrite P5, J3, H5. unfold pages. by rewrite fmap_app, join_app.
Qed.

Lemma never_deferred f data w outs rest w' : 
  serve_with decompress (respond_tls regex_match compress fs order core_) [Page (bad_request_page order)] f data w
  ≠ (outs, IsDeferred, rest, w').
Proof.
  revert data w outs. induction f as [|f IH]; intros data w outs; cbn [serve_with]; [done|]. destruct data as [|x data]; [done|].
  destruct (parseRequest_string _ _ _) as [[[] req] rest1]; [|done..]. unfold respond_tls at 1.
  destruct (answer _ _ _ _ _ _ _) as [[text []] w1]; [done|].
  destruct (serve_with _ _ _ f rest1 w1) as [[[o e] r] w2] eqn:E. intros [= _ -> -> ->]. by apply IH in E.
Qed.

Lemma onMessage_spec turns w0 c w outs e0 d :
  reached w0 c w outs e0 → open_exit e0 → (zlen d < 2 ^ 31)%Z → clean (received (ghost (ssl c)) ++ d) →
  length (plain (received (ghost (ssl c)) ++ d)) < turns →
  let '(a, e, c', _, w') := on_message turns c d w in
  ∃ outs' e', reached w0 c' w' outs' e' ∧ (e = Closing ↔ e' = Closing) ∧
    (handshakeDone c' = true → consumed (ghost (ssl c')) = plain (received (ghost (ssl c')))) ∧
    received (ghost (ssl c')) = received (ghost (ssl c)) ++ d ∧ taken (ghost (ssl c')) = taken (ghost (ssl c)) ++ sends a.
Proof.
  intros Hre Ho Hd Hc Ht. unfold onMessage.
  assert (Hfed : ∃ n s1, (if 0 <? length d then BIO_write (ssl c) d (i32 (zlen d)) else (1, ssl c)%Z) = (n, s1) ∧ (n <=? 0)%Z = false ∧
    received (ghost s1) = received (ghost (ssl c)) ++ d ∧ taken (ghost s1) = taken (ghost (ssl c)) ∧ reached w0 (with_ssl c s1) w outs e0).
  { destruct d as [|x d']; [exists 1%Z, (ssl c); rewrite app_nil_r; by destruct c|]. cbn [length Nat.ltb Nat.leb]. set (d := x :: d') in *.
    destruct Hre as [H1 H2 H3 H4 H5 H6]. destruct (tls_feed (ssl c) d H1 ltac:(done) Hd) as (s1 & E & I1 & I2 & I3).
    exists (zlen d), s1. rewrite i32_small by (unfold zlen in *; lia). split_and!; [done|apply Z.leb_gt; unfold zlen, d; cbn; lia|by rewrite I3..|].
    constructor; cbn [ssl with_ssl handshakeDone pendingPlaintext]; unfold delivered in *; rewrite ?I3; cbn; congruence || done. }
  destruct Hfed as (n & s1 & -> & -> & G1 & G2 & Hre1). clear Hre.
  destruct (handshakeDone c) eqn:Ehd.
  - pose proof (read_and_serve_spec turns w0 (with_ssl c s1) w outs e0 Hre1 Ho Ehd) as Hs. cbn [ssl with_ssl] in Hs. rewrite G1 in Hs.
    destruct (read_and_serve _ _ _ _ _ _ turns _ w) as [[[a e] c2] w1].
    destruct (Hs Hc Ht) as (outs' & K1 & K2 & K3 & K4 & K5). exists outs', e. rewrite <-G2. split_and!; try done; congruence.
  - destruct Hre1 as [H1 H2 H3 H4 H5 H6]. cbn [ssl with_ssl handshakeDone pendingPlaintext] in *.
    pose proof (tls_handshake s1 H1 (eq_trans H2 Ehd)) as Hh. destruct (SSL_do_handshake s1) as [r s2]. destruct Hh as (I1 & (J1 & J2 & J3 & J4) & I2 & I3).
    assert (Hfl : BIO_ctrl_pending s2 < Datatypes.S (BIO_ctrl_pending s2)) by lia.
    pose proof (flush_spec (Datatypes.S (BIO_ctrl_pending s2)) s2 I1 Hfl) as Hf. unfold flushSslOutput.
    destruct (flush_loop _ s2) as [a s3]. destruct Hf as (K1 & K2 & (L1 & L2 & L3 & L4) & _ & K3). cbn in L1, L2, L3, L4.
    assert (Hr3 : ∀ b, b = bool_decide (r = HandshakeDone) → reached w0 (mkSslConn s3 b (pendingPlaintext c)) w outs e0).
    { intros b ->. constructor; cbn [ssl handshakeDone pendingPlaintext]; try congruence; [by apply flushed_delivered|intros _; rewrite L2, J2; apply H6, Ehd]. }
    destruct r.
    + pose proof (read_and_serve_spec turns w0 (set_done (with_ssl (with_ssl c s1) s3)) w outs e0 (Hr3 true eq_refl) Ho eq_refl) as Hs.
      cbn [ssl set_done with_ssl] in Hs. rewrite L1, J1, G1 in Hs.
      destruct (read_and_serve _ _ _ _ _ _ turns _ w) as [[[b e] c2] w1].
      destruct (Hs Hc Ht) as (outs' & M1 & M2 & M3 & M4 & M5). exists outs', e. split_and!; try done; [congruence|].
      unfold sends in *. rewrite M5, L4, J4, G2, fmap_app, join_app, app_assoc. done.
    + exists outs, e0. cbn [ssl with_ssl]. split_and!; [unfold with_ssl; cbn [handshakeDone pendingPlaintext]; rewrite Ehd; exact (Hr3 false eq_refl)|destruct Ho as [-> | ->]; done|cbn; congruence|congruence|].
      by rewrite L4, J4, G2.
    + exfalso. apply I3; [done|]. by rewrite G1.
Qed.

Lemma receive_spec turns w0 chunks c w outs e0 :
  reached w0 c w outs e0 → open_exit e0 → (handshakeDone c = true → consumed (ghost (ssl c)) = plain (received (ghost (ssl c)))) →
  Forall (λ d, zlen d < 2 ^ 31)%Z chunks → clean (received (ghost (ssl c)) ++ mjoin chunks) →
  (∀ k, length (plain (received (ghost (ssl c)) ++ mjoin (take k chunks))) < turns) →
  let '(a, e, c', w') := receive regex_match compress decompress fs order core_ turns c chunks w in
  ∃ outs' e' n, reached w0 c' w' outs' e' ∧ (e = Closing ↔ e' = Closing) ∧ (e ≠ Closing → take n chunks = chunks) ∧
    (handshakeDone c' = true → consumed (ghost (ssl c')) = plain (received (ghost (ssl c')))) ∧
    received (ghost (ssl c')) = received (ghost (ssl c)) ++ mjoin (take n chunks) ∧
    taken (ghost (ssl c')) = taken (ghost (ssl c)) ++ sends a.
Proof.
  revert c w outs e0. induction chunks as [|d chunks IH]; intros c w outs e0 Hre Ho Hp Hz Hc Ht; cbn [receive].
  - exists outs, e0, 0. rewrite !app_nil_r. split_and!; try done. destruct Ho as [-> | ->]; done.
  - apply Forall_cons in Hz as [Hd Hz]. assert (Hcd : clean (received (ghost (ssl c)) ++ d)).
    { simpl mjoin in Hc. rewrite app_assoc in Hc. by eapply tls_clean. }
    pose proof (Ht 1) as Ht1. cbn [take] in Ht1. rewrite take_0 in Ht1. simpl mjoin in Ht1. rewrite app_nil_r in Ht1.
    pose proof (onMessage_spec turns w0 c w outs e0 d Hre Ho Hd Hcd Ht1) as Hm.
    destruct (on_message turns c d w) as [[[[a e] c1] rest] w1]. destruct Hm as (outs1 & e1 & H1 & H2 & H3 & H4 & H5).
    destruct (decide (e1 = Closing)) as [->|Hne].
    + rewrite (proj2 H2 eq_refl). exists outs1, Closing, 1. cbn [take]. rewrite take_0. simpl mjoin. rewrite app_nil_r. split_and!; done.
    + assert (Ho1 : open_exit e1).
      { destruct e1; [by left|by right|done|]. exfalso. destruct H1 as [_ _ _ H1 _ _]. by eapply never_deferred. }
      assert (Hc1 : clean ((received (ghost (ssl c)) ++ d) ++ mjoin chunks)) by (rewrite <-app_assoc; exact Hc).
      assert (Ht2 : ∀ k, length (plain ((received (ghost (ssl c)) ++ d) ++ mjoin (take k chunks))) < turns).
      { intros k. rewrite <-app_assoc. exact (Ht (Datatypes.S k)). }
      rewrite <-H4 in Hc1, Ht2. specialize (IH c1 w1 outs1 e1 H1 Ho1 H3 Hz Hc1 Ht2).
      destruct (receive _ _ _ _ _ _ turns c1 chunks w1) as [[[b e2] c2] w2]. destruct IH as (outs2 & e' & n & K1 & K2 & K3 & K4 & K5 & K6).
      assert (Hgo : ∃ outs' e3 m, reached w0 c2 w2 outs' e3 ∧ (e2 = Closing ↔ e3 = Closing) ∧ (e2 ≠ Closing → take m (d :: chunks) = d :: chunks) ∧
        (handshakeDone c2 = true → consumed (ghost (ssl c2)) = plain (received (ghost (ssl c2)))) ∧
        received (ghost (ssl c2)) = received (ghost (ssl c)) ++ mjoin (take m (d :: chunks)) ∧
        taken (ghost (ssl c2)) = taken (ghost (ssl c)) ++ sends (a ++ b)).
      { exists outs2, e', (Datatypes.S n). split_and!; try done.
        - intros He. cbn [take]. by rewrite K3.
        - rewrite K5, H4. by rewrite <-app_assoc.
        - rewrite K6, H5. unfold sends. by rewrite fmap_app, join_app, app_assoc. }
      destruct e; try exact Hgo. by destruct (Hne (proj1 H2 eq_refl)).
Qed.

(** A connection as [onConnection] makes it. *)
Definition fresh (c : SslConn S) : Prop :=
  inv (ssl c) ∧ est (ssl c) = false ∧ ghost (ssl c) = mkGhost [] [] [] [] [] ∧ handshakeDone c = false ∧ pendingPlaintext c = [].

(** C5: HTTPS serves what it decrypts.  However the ciphertext of a clean TLS
    stream is cut into reads, what the peer decrypts of what was sent is the
    text of the answers to the requests in the plaintext, in order, just as the
    loop on strings gives them; nothing is served before the handshake is done;
    and all that arrived has been looked at unless the connection was shut
    down, which is so exactly when the loop on strings ends it. *)
Theorem https_serves (turns : nat) (c : SslConn S) (chunks : list str) (w : @World L A)
    (Hfresh : fresh c) (Hsize : Forall (λ d, zlen d < 2 ^ 31)%Z chunks) (Hclean : clean (mjoin chunks))
    (Hturns : ∀ k, length (plain (mjoin (take k chunks))) < turns) :
  let '(acts, e, c', w') := receive regex_match compress decompress fs order core_ turns c chunks w in
  ∃ n outs e',
    answers (if handshakeDone c' then plain (mjoin (take n chunks)) else []) w = (outs, e', pendingPlaintext c', w') ∧
    opens (sends acts) = pages outs ∧ (e = Closing ↔ e' = Closing) ∧ (e ≠ Closing → take n chunks = chunks).
Proof.
  destruct Hfresh as (H1 & H2 & H3 & H4 & H5).
  assert (Hre : reached w c w [] Drained).
  { constructor; rewrite ?H3; try done; [congruence| |by rewrite H5].
    unfold delivered. pose proof (tls_opens (ssl c) H1) as Hop. rewrite H3 in *. exact Hop. }
  pose proof (receive_spec turns w chunks c w [] Drained Hre (or_introl eq_refl)) as Hr. rewrite H3, H4 in Hr. cbn [received consumed taken app] in Hr.
  destruct (receive _ _ _ _ _ _ turns c chunks w) as [[[a e] c'] w'].
  destruct Hr as (outs & e' & n & [K1 K2 K3 K4 K5 K6] & R2 & R3 & R4 & R5 & R6); try done. exists n, outs, e'.
  split_and!; [|unfold delivered in K3; by rewrite R6, K5 in K3|done|done].
  rewrite <-R5. destruct (handshakeDone c'); [by rewrite <-R4|by rewrite <-K6].
Qed.
End Requests.
End Facts.

(** ** A toy session

    The peer's first byte asks for the session and one byte answers it; after
    that the ciphertext is the plaintext. *)

Record Toy := mkToy { toy_ghost : Ghost; toy_est : bool }.

Definition toy_unread (t : Toy) : str := drop (length (consumed (toy_ghost t))) (drop 1 (received (toy_ghost t))).
Definition toy_unsent (t : Toy) : str := drop (length (taken (toy_ghost t))) (wire (toy_ghost t)).
Definition g_wire (d : str) (g : Ghost) : Ghost := mkGhost (received g) (consumed g) (accepted g) (wire g ++ d) (taken g).

#[export] Instance toy_tls : Tls Toy := {
  BIO_write t d n := (n, mkToy (g_receive (take (Z.to_nat n) d) (toy_ghost t)) (toy_est t));
  BIO_read t n := (match toy_unsent t with [] => None | u => Some (take n u) end, mkToy (g_take (take n (toy_unsent t)) (toy_ghost t)) (toy_est t));
  BIO_ctrl_pending t := length (toy_unsent t);
  SSL_do_handshake t :=
    match received (toy_ghost t) with
    | [] => (HandshakeAgain, t)
    | _ => (HandshakeDone, mkToy (g_wire #"S" (toy_ghost t)) true)
    end;
  SSL_read t n := match toy_unread t with [] => (ReadAgain, t) | u => (Got (take n u), mkToy (g_consume (take n u) (toy_ghost t)) (toy_est t)) end;
  SSL_write t d := (Wrote (length d), mkToy (g_wire d (g_accept d (toy_ghost t))) (toy_est t));
  SSL_shutdown t := t
}.

Definition toy_inv (t : Toy) : Prop :=
  let g := toy_ghost t in
  (if toy_est t then wire g = #"S" ++ accepted g else wire g = [] ∧ accepted g = []) ∧
  taken g `prefix_of` wire g ∧ consumed g `prefix_of` drop 1 (received g).

Lemma prefix_drop (l k : str) : l `prefix_of` k → k = l ++ drop (length l) k.
Proof. intros [t ->]. by rewrite drop_app_length. Qed.

Lemma prefix_grow (l k : str) n : l `prefix_of` k → (l ++ take n (drop (length l) k)) `prefix_of` k.
Proof. intros [t ->]. rewrite drop_app_length. exists (drop n t). by rewrite <-app_assoc, take_drop. Qed.

Ltac toy := cbn [toy_ghost toy_est received consumed accepted wire taken g_wire g_consume g_accept g_take g_receive].

Lemma toy_laws_feed t d n : toy_inv t → toy_inv (mkToy (g_receive (take n d) (toy_ghost t)) (toy_est t)).
Proof.
  intros (H1 & H2 & H3). unfold toy_inv. toy. split_and!; try done.
  destruct (received (toy_ghost t)) as [|x r]; cbn in *; [|by apply prefix_app_r].
  apply prefix_nil_inv in H3. rewrite H3. apply prefix_nil.
Qed.

Lemma toy_laws_hello t : toy_inv t → toy_est t = false → toy_inv (mkToy (g_wire #"S" (toy_ghost t)) true).
Proof.
  intros (H1 & H2 & H3) He. rewrite He in H1. destruct H1 as [H1 H1']. unfold toy_inv. toy. rewrite H1, H1' in *.
  split_and!; try done. by apply prefix_app_r.
Qed.

Lemma toy_laws_read t n : toy_inv t → toy_inv (mkToy (g_consume (take n (toy_unread t)) (toy_ghost t)) (toy_est t)).
Proof. intros (H1 & H2 & H3). unfold toy_inv. toy. split_and!; try done. by apply prefix_grow. Qed.

Lemma toy_laws_write t d : toy_inv t → toy_est t = true → toy_inv (mkToy (g_wire d (g_accept d (toy_ghost t))) (toy_est t)).
Proof.
  intros (H1 & H2 & H3) He. unfold toy_inv. toy. rewrite He in *. split_and!; [by rewrite H1|by apply prefix_app_r|done].
Qed.

Lemma toy_laws_take t n : toy_inv t → toy_inv (mkToy (g_take (take n (toy_unsent t)) (toy_ghost t)) (toy_est t)).
Proof. intros (H1 & H2 & H3). unfold toy_inv. toy. split_and!; try done. by apply prefix_grow. Qed.

#[export] Instance toy_laws : TlsLaws Toy toy_inv toy_est toy_ghost (drop 1) (drop 1) (λ _, True).
Proof.
  constructor; cbn [BIO_write BIO_read BIO_ctrl_pending SSL_do_handshake SSL_read SSL_write SSL_shutdown toy_tls].
  - done.
  - intros t H. apply H.
  - intros t (H1 & _). destruct (toy_est t); [by rewrite H1|destruct H1 as [-> ->]; done].
  - intros t (_ & H2 & _). exists (toy_unsent t). split; [by apply prefix_drop|done].
  - intros t d H _ _. eexists. split; [done|]. split; [by apply toy_laws_feed|]. toy. unfold zlen. by rewrite Nat2Z.id, take_ge by lia.
  - intros t H He. destruct (received (toy_ghost t)) as [|x r] eqn:Er.
    + split_and!; try done.
    + split_and!; try done. by apply toy_laws_hello.
  - intros t H He. pose proof (toy_laws_read t chunk_size H) as Hr. destruct (toy_unread t) as [|x u] eqn:Eu.
    + split_and!; try done. destruct H as (_ & _ & H3). rewrite (prefix_drop _ _ H3). unfold toy_unread in Eu. by rewrite Eu, app_nil_r.
    + split_and!; done.
  - intros t d H He Hd. eexists _, _. split; [done|]. assert (0 < length d) by (destruct d; [done|simpl; lia]).
    split_and!; [lia|done|by apply toy_laws_write|done|]. by rewrite take_ge by lia.
  - intros t n H Hn. pose proof (toy_laws_take t n H) as Ht. destruct (toy_unsent t) as [|x u] eqn:Eu; [simpl in Hn; lia|].
    eexists _, _. split; [done|]. destruct n as [|n]; [lia|]. split_and!; try done. unfold toy_unsent. toy.
    rewrite length_app, <-drop_drop. unfold toy_unsent in Eu. rewrite Eu, length_drop. rewrite length_take. simpl length in *. lia.
  - done.
Qed.

Definition toy_conn : SslConn Toy := mkSslConn (mkToy (mkGhost [] [] [] [] []) false) false [].

Lemma toy_fresh : fresh toy_inv toy_est toy_ghost toy_conn.
Proof. split_and!; try done. Qed.

Definition toy_receive (turns : nat) (chunks : list str) :=
  receive (λ _ _, true) id id sample_fs map_to_list sample_core turns toy_conn chunks sample_world.

Definition toy_chunks : list str := [ #"HGET /"; #"a HTTP/1.1" ++ crlf2 ++ #"GET" ].

Lemma https_serves_witness :
  let '(acts, e, c', w') := toy_receive 100 toy_chunks in
  ∃ n outs e',
    serve_tls (λ _ _, true) id id sample_fs map_to_list sample_core
      (if handshakeDone c' then drop 1 (mjoin (take n toy_chunks)) else []) sample_world = (outs, e', pendingPlaintext c', w') ∧
    drop 1 (sends acts) = pages outs ∧ (e = Closing ↔ e' = Closing) ∧ (e ≠ Closing → take n toy_chunks = toy_chunks).
Proof.
  apply (https_serves toy_inv toy_est toy_ghost (drop 1) (drop 1) (λ _, True) (λ _ _, true) id id sample_fs map_to_list sample_core
    100 toy_conn toy_chunks sample_world toy_fresh).
  - by repeat constructor.
  - done.
  - intros [|[|[|k]]]; vm_compute; lia.
Defined.

(** One request in two reads: one answer, and the rest waits. *)
Example toy_served : (toy_receive 100 toy_chunks).1.1.2 = WaitMore ∧ pendingPlaintext (toy_receive 100 toy_chunks).1.2 = #"GET" ∧
  take 16 (sends (toy_receive 100 toy_chunks).1.1.1) = #"SHTTP/1.1 200 OK".
Proof. vm_compute. done. Qed.

(** A file is announced and not sent: the answer ends with its headers. *)
Example static_without_body :
  let text := (answer (λ _ _, true) id sample_fs map_to_list (HttpCore.serveStatic (L := TokenBucketLimiter.t) (R := unit) HttpCore_new #"/" #"/srv")
                 (sample_get #"/f.txt") sample_world).1.1 in
  is_Some (find0 #"Content-Length: 100" text) ∧ find0 crlf2 text = Some (length text - 4).
Proof. vm_compute. split; [by eexists|done]. Qed.

(** An answer that [HttpServer] defers is sent here at once, as it is. *)
Theorem deferred_sent_at_once {R L A : Type} `{Limiter L} (regex_match : R → str → bool) (compress : str → str) (fs : FileSystem)
    (order : gmap str str → list (str * str)) (s : @HttpServer R L A) (req : HttpRequest) (w : @World L A) :
  (respond regex_match compress fs order s req w).1 = None →
  ∃ resp, deferred resp = true ∧ ∃ tail close,
    (respond_tls regex_match compress fs order (HttpServer.core_ s) req w).1 = Some (Page (toString order resp) :: tail, close).
Proof.
  unfold respond, respond_tls, answer. destruct (handleRequest _ _ _ _ _ _ _) as [resp0 w1].
  set (r := postProcessResponse compress (HttpServer.core_ s) req resp0).
  destruct (deferred r) eqn:Ed; [|done]. intros _. exists (set_close r (negb (keepAlive req))). split; [exact Ed|]. by eexists _, _.
Qed.

(** A request that arrives together with the peer's [close_notify] is dropped. *)
Theorem close_notify_drops_requests {S R L A : Type} `{Tls S} `{Limiter L} (regex_match : R → str → bool) (compress decompress : str → str)
    (fs : FileSystem) (order : gmap str str → list (str * str)) (core : @HttpCore R L A) (turns : nat) (c c1 : SslConn S) (w : @World L A) :
  read_loop turns c = (ZeroReturn, c1) →
  read_and_serve regex_match compress decompress fs order core turns c w = ([Shutdown], Closing, c1, w).
Proof. intros E. unfold read_and_serve. by rewrite E. Qed.

(** ** Handles of OpenSSL *)

(** [SslConn] and [SslContext] own a handle each; the moves and the destructors
    decide when it is freed.  An object holds the number of its handle, or null;
    [freed] has those given to [SSL_free] or [SSL_CTX_free]. *)
Module Handles.

Record Heap := mkHeap { objects : gmap nat (option nat); freed : list nat; next : nat }.

Definition new : Heap := mkHeap ∅ [] 0.

(** An object with a handle of its own; [made]: OpenSSL gave one. *)
Definition construct (h : Heap) (o : nat) (made : bool) : Heap :=
  if made then mkHeap (<[o := Some (next h)]> (objects h)) (freed h) (S (next h)) else mkHeap (<[o := None]> (objects h)) (freed h) (next h).

Definition free_handle (x : option nat) (l : list nat) : list nat := match x with Some n => n :: l | None => l end.

(** The destructor. *)
Definition destroy (h : Heap) (o : nat) : Heap := mkHeap (delete o (objects h)) (free_handle (mjoin (objects h !! o)) (freed h)) (next h).

(** The move constructor, of a new object. *)
Definition move_construct (h : Heap) (o other : nat) : Heap :=
  mkHeap (<[other := None]> (<[o := mjoin (objects h !! other)]> (objects h))) (freed h) (next h).

(** The move assignment: nothing when it is to itself. *)
Definition move_assign (h : Heap) (o other : nat) : Heap :=
  if decide (o = other) then h
  else mkHeap (<[other := None]> (<[o := mjoin (objects h !! other)]> (objects h))) (free_handle (mjoin (objects h !! o)) (freed h)) (next h).

Inductive Op := Construct (o : nat) (made : bool) | Destroy (o : nat) | MoveConstruct (o other : nat) | MoveAssign (o other : nat).

(** Objects are made once and used while they live. *)
Definition op (h : Heap) (x : Op) : option Heap :=
  match x with
  | Construct o made => match objects h !! o with None => Some (construct h o made) | Some _ => None end
  | Destroy o => _ ← objects h !! o; Some (destroy h o)
  | MoveConstruct o other => match objects h !! o, objects h !! other with None, Some _ => Some (move_construct h o other) | _, _ => None end
  | MoveAssign o other => _ ← objects h !! o; _ ← objects h !! other; Some (move_assign h o other)
  end.

Fixpoint ops (h : Heap) (l : list Op) : option Heap := match l with [] => Some h | x :: l => h1 ← op h x; ops h1 l end.

Definition held (m : gmap nat (option nat)) : list nat := omap snd (map_to_list m).

Lemma held_insert m o x : m !! o = None → held (<[o := x]> m) ≡ₚ option_list x ++ held m.
Proof. intros H. unfold held. rewrite (omap_Permutation _ _ _ (map_to_list_insert m o x H)). cbn. by destruct x. Qed.

Lemma held_delete m o x : m !! o = Some x → held m ≡ₚ option_list x ++ held (delete o m).
Proof. intros H. rewrite <-(insert_delete_id m o x H) at 1. apply held_insert, lookup_delete_eq. Qed.

Lemma held_replace m o x y : m !! o = Some x → option_list x ++ held (<[o := y]> m) ≡ₚ option_list y ++ held m.
Proof.
  intros H. rewrite <-insert_delete_eq, held_insert by apply lookup_delete_eq. rewrite (held_delete m o x H), !app_assoc.
  by rewrite (Permutation_app_comm (option_list x)).
Qed.

Lemma free_handle_list x l : free_handle x l = option_list x ++ l.
Proof. by destruct x. Qed.

(** Every handle is held by one object or was freed, once. *)
Definition accounted (h : Heap) : Prop := held (objects h) ++ freed h ≡ₚ seq 0 (next h).

(** The handle of [other] goes to [o], whose own, if any, is over. *)
Lemma moved_handle m o other x : m !! other = Some x → o ≠ other →
  option_list (mjoin (m !! o)) ++ held (<[other := None]> (<[o := x]> m)) ≡ₚ held m.
Proof.
  intros Hx Hne. rewrite insert_insert_ne by done. rewrite <-(held_replace m other x None Hx : option_list x ++ held (<[other := None]> m) ≡ₚ held m).
  destruct (m !! o) as [y|] eqn:Eo.
  - apply (held_replace (<[other := None]> m) o y x). by rewrite lookup_insert_ne.
  - apply held_insert. by rewrite lookup_insert_ne.
Qed.

Lemma accounted_op h x h' : accounted h → op h x = Some h' → accounted h'.
Proof.
  unfold accounted. intros Ha Hop. destruct x as [o made|o|o other|o other]; cbn [op] in Hop.
  - destruct (objects h !! o) eqn:Eo; [discriminate Hop|]. injection Hop as <-. unfold construct.
    destruct made; cbn [objects freed next]; rewrite held_insert by done; [|exact Ha]. rewrite seq_S, <-Ha. cbn. apply Permutation_cons_append.
  - destruct (objects h !! o) as [x|] eqn:Eo; [|discriminate Hop]. cbn in Hop. injection Hop as <-. unfold destroy. cbn [objects freed next].
    rewrite Eo, free_handle_list, <-Ha, (held_delete _ _ _ Eo), <-!app_assoc, !app_assoc. cbn.
    apply Permutation_app_tail, Permutation_app_comm.
  - destruct (objects h !! o) eqn:Eo; [discriminate Hop|]. destruct (objects h !! other) as [x|] eqn:Ex; [|discriminate Hop].
    injection Hop as <-. unfold move_construct. cbn [objects freed next]. rewrite Ex, <-Ha. apply Permutation_app_tail.
    pose proof (moved_handle (objects h) o other x Ex ltac:(congruence)) as Hm. by rewrite Eo in Hm.
  - destruct (objects h !! o) as [y|] eqn:Eo; [|discriminate Hop]. destruct (objects h !! other) as [x|] eqn:Ex; [|discriminate Hop].
    cbn in Hop. injection Hop as <-. unfold move_assign. destruct (decide (o = other)); [done|]. cbn [objects freed next].
    rewrite Ex, free_handle_list, <-Ha, <-(moved_handle (objects h) o other x Ex) by done. rewrite !app_assoc. cbn.
    apply Permutation_app_tail, Permutation_app_comm.
Qed.

(** Whatever is constructed, moved and destroyed, no handle is freed twice, and
    when no object is left every handle was freed. *)
Theorem handles_freed_once (l : list Op) (h : Heap) :
  ops new l = Some h → NoDup (freed h) ∧ (∀ n, n ∈ held (objects h) → n ∉ freed h) ∧ (objects h = ∅ → freed h ≡ₚ seq 0 (next h)).
Proof.
  intros Hl. assert (Ha : accounted h).
  { assert (H0 : accounted new) by (unfold accounted, held, new; cbn; by rewrite map_to_list_empty). revert H0 Hl. generalize new. induction l as [|x l IH]; intros h0 H0 Hl; cbn [ops] in Hl; [by injection Hl as <-|].
    destruct (op h0 x) as [h1|] eqn:E; [|discriminate Hl]. eapply IH, Hl. by eapply accounted_op. }
  unfold accounted in Ha. assert (Hn : NoDup (held (objects h) ++ freed h)) by (rewrite Ha; apply NoDup_seq).
  apply NoDup_app in Hn as (_ & Hd & Hn). split_and!; [done|done|]. intros E. by rewrite E in Ha.
Qed.

Lemma handles_freed_once_witness :
  ∃ h, ops new [Construct 0 true; Construct 1 true; MoveAssign 0 1; MoveAssign 0 0; MoveConstruct 2 0; Destroy 2; Destroy 1; Destroy 0] = Some h ∧
    freed h = [1; 0]%nat ∧ NoDup (freed h).
Proof.
  eexists. split; [reflexivity|]. split; [reflexivity|].
  by apply (handles_freed_once [Construct 0 true; Construct 1 true; MoveAssign 0 1; MoveAssign 0 0; MoveConstruct 2 0; Destroy 2; Destroy 1; Destroy 0]).
Defined.

End Handles.

(** ** The context of OpenSSL *)

(** The results of the calls; [ctx] tells whether [SSL_CTX_new] made one. *)
Definition SslContext_new (ctx : bool) : option bool := if ctx then Some true else None.

Definition loadCert (cert key check : Z) : bool :=
  if (cert <=? 0)%Z then false else if (key <=? 0)%Z then false else if negb (check =? 1)%Z then false else true.

Definition loadCertChain (r : Z) : bool := (r =? 1)%Z.
Definition setCiphers (r : Z) : bool := (r =? 1)%Z.
Definition setCiphersuites (r : Z) : bool := (r =? 1)%Z.

(** [getOpenSslError]: the error of [ERR_get_error] and its text. *)
Definition getOpenSslError (err : Z) (text : str) : str := if (err =? 0)%Z then #"unknown error" else take 255 text.

(** The constructor of [HttpsServer]: [None] where the process ends. *)
Definition HttpsServer_new (cert key check : Z) : option nat := if negb (loadCert cert key check) then None else Some 4%nat.

(** A server runs only with a certificate and the key that belongs to it. *)
Theorem server_has_its_key (cert key check : Z) : HttpsServer_new cert key check = Some 4%nat ↔ (0 < cert ∧ 0 < key ∧ check = 1)%Z.
Proof. unfold HttpsServer_new, loadCert. repeat case_match; bool_to_prop; naive_solver lia. Qed.
