(* ===== verification/RegistryClient.v ===== *)
(** * RegistryClient: the registry's client over its blocking HTTP client

    Models [SimpleHttpClient] and the operations of [RegistryClient]
    ([src/registry/RegistryClient.h]), and the routes of
    [src/registry/RegistryServer.h].  What the socket calls return comes with
    each exchange; a request that cannot be dumped is an exception, [None], and
    nothing is sent.  The system calls are in [Sockets.v], the
    heartbeat thread is in [Threads.v]. *)

From S2P Require Import Prelude HttpRequest HttpResponse RateLimiter Metrics HttpCore HttpServer HttpClient LoadBalancer ServiceCatalog Registry.

Open Scope Z_scope.

(** ** SimpleHttpClient *)

Definition post_request (host path body contentType : str) : str :=
  #"POST " ++ path ++ #" HTTP/1.1" ++ crlf ++ #"Host: " ++ host ++ crlf ++ #"Content-Type: " ++ contentType ++ crlf ++
  #"Content-Length: " ++ to_string (zlen body) ++ crlf ++ #"Connection: close" ++ crlf ++ crlf ++ body.

Definition get_request (host path : str) : str :=
  #"GET " ++ path ++ #" HTTP/1.1" ++ crlf ++ #"Host: " ++ host ++ crlf ++ #"Connection: close" ++ crlf ++ crlf.

(** What [send] returns: a count, [EINTR] or [EAGAIN], or another error. *)
Inductive SendResult := Sent (n : nat) | Again | SendError.

(** The loop over the part that is still to send: what was sent, and whether
    all of it was; [None] while the loop goes on. *)
Fixpoint send_loop (script : list SendResult) (rest : str) : str * option bool :=
  match rest, script with
  | [], _ => ([], Some true)
  | _, [] => ([], None)
  | _, Sent n :: script => let '(b, r) := send_loop script (drop n rest) in (take n rest ++ b, r)
  | _, Again :: script => send_loop script rest
  | _, SendError :: _ => ([], Some false)
  end.

(** The loop of [recv] over what it returns until it returns 0 or an error:
    each piece is appended as a C string. *)
Definition recv_loop (pieces : list str) : str := mjoin (c_str <$> pieces).

(** [%d] of [sscanf], and the rest: white space, a sign, digits. *)
Definition scan_d (s : str) : option (Z * str) :=
  let s1 := skip_space s in
  let '(neg, s2) :=
    match s1 with
    | c :: s' => if bool_decide (c = "-"%char) then (true, s') else if bool_decide (c = "+"%char) then (false, s') else (false, s1)
    | [] => (false, s1)
    end in
  match s2 with
  | c :: _ => match digit_in 10 c with
              | Some _ => let '(v, rest) := scan_digits 10 s2 0 in Some (if neg then - v else v, rest)
              | None => None
              end
  | [] => None
  end.

(** [strtol] stays in its range; the conversion to [int] then wraps. *)
Definition clamp (z : Z) : Z := Z.max (- 2 ^ 63) (Z.min z (2 ^ 63 - 1)).

(** [sscanf(line, "HTTP/1.%*d %d", &code) == 1]. *)
Definition scan_status (line : str) : option Z :=
  if prefixb #"HTTP/1." line then
    '(_, rest) ← scan_d (drop 7 line);
    '(v, _) ← scan_d (skip_space rest);
    Some (i32 (clamp v))
  else None.

Definition parse_response (response : str) : Response :=
  match find crlf2 response 0 with
  | None => mkReply 0 #"Invalid HTTP response" false
  | Some headerEnd =>
      let statusLine := match find crlf response 0 with Some n => substr response 0 n | None => response end in
      match scan_status (c_str statusLine) with
      | None => mkReply 0 #"Invalid status line" false
      | Some code => mkReply code (drop (headerEnd + 4) response) ((200 <=? code) && (code <? 300))
      end
  end.

Inductive Connect := NoSocket | BadAddress | Refused | Connected.

(** One exchange, with what the system calls return. *)
Record Net := mkNet { n_connect : Connect; n_send : list SendResult; n_recv : list str }.

(** What goes out, and the result; [None] while the send loop goes on. *)
Definition exchange (net : Net) (request : str) : str * option Response :=
  match n_connect net with
  | NoSocket => ([], Some (mkReply 0 #"Socket creation failed" false))
  | BadAddress => ([], Some (mkReply 0 #"Invalid address" false))
  | Refused => ([], Some (mkReply 0 #"Connection failed" false))
  | Connected =>
      match send_loop (n_send net) request with
      | (b, None) => (b, None)
      | (b, Some false) => (b, Some (mkReply 0 #"Send failed" false))
      | (b, Some true) => (b, Some (parse_response (recv_loop (n_recv net))))
      end
  end.

Definition post (net : Net) (host path body contentType : str) : str * option Response := exchange net (post_request host path body contentType).
Definition get (net : Net) (host path : str) : str * option Response := exchange net (get_request host path).

(** ** RegistryClient *)

Section Client.
Context {J : Type} `{Json J}.

(** [registerService] after the exchange: its result, and the id it stores. *)
Definition register_result (want_id : bool) (resp : Response) : bool * option str :=
  if negb (r_success resp) then (false, None)
  else match (j ← parse (r_body resp); ok ← value_bool j #"success" false; Some (j, ok)) with
       | Some (j, true) =>
           if want_id then match value_str j #"instanceId" [] with Some id => (true, Some id) | None => (false, None) end
           else (true, None)
       | _ => (false, None)
       end.

(** What each call sends and returns.  The outer [None]: [dump] throws, before
    there is a socket, and the exception is the caller's. *)
Definition registerService (net : Net) (host : str) (k : ServiceKey) (m : InstanceMeta) (want_id : bool)
    : option (str * option (bool * option str)) :=
  text ← register_body k m;
  let '(b, r) := post net host #"/api/v1/registry/register" text #"application/json" in Some (b, register_result want_id <$> r).

Definition deregisterService (net : Net) (host : str) (k : ServiceKey) (id : str) : option (str * option bool) :=
  text ← instance_body k id;
  let '(b, r) := post net host #"/api/v1/registry/deregister" text #"application/json" in Some (b, reply_ok <$> r).

Definition sendHeartbeat (net : Net) (host : str) (k : ServiceKey) (id : str) : option (str * option bool) :=
  text ← instance_body k id;
  let '(b, r) := post net host #"/api/v1/registry/heartbeat" text #"application/json" in Some (b, reply_ok <$> r).

(** The loop over the instances; an exception ends it and keeps what there is. *)
Fixpoint load_instances (l : list J) (now : Z) : list InstanceMeta :=
  match l with
  | [] => []
  | j :: l => match instance_fromJson j now with Some m => m :: load_instances l now | None => [] end
  end.

Definition discover_result (resp : Response) (now : Z) : list InstanceMeta :=
  if negb (r_success resp) then []
  else match parse (r_body resp) with
       | Some j => if default false (value_bool j #"success" false) then load_instances (elements j #"instances") now else []
       | None => []
       end.

Definition discoverService (net : Net) (host : str) (k : ServiceKey) (now : Z) : str * option (list InstanceMeta) :=
  let '(b, r) := get net host (discover_path k) in (b, (λ r, discover_result r now) <$> r).

Definition isRegistryHealthy (net : Net) (host : str) : str * option bool :=
  let '(b, r) := get net host #"/api/v1/registry/health" in (b, (λ r, r_success r && (r_status r =? 200)) <$> r).

(** [selectInstance] with its lookup. *)
Definition select_discovered (net : Net) (host : str) (k : ServiceKey) (strategy : Strategy) (draws : list (nat → nat)) (now : Z)
    : str * option (option InstanceMeta) :=
  let '(b, r) := discoverService net host k now in (b, selectInstance strategy draws <$> r).
End Client.

(** ** The server's routes *)

Section Server.
Context {J L : Type} `{Json J}.

Local Abbreviation handler := (@HttpHandler L Server).

(** The application's state is the server's catalog; the handlers read the
    clock of the world. *)
Definition with_server (w : @World L Server) (s : Server) : @World L Server :=
  mkWorld (clock w) (metrics w) (limiters w) (fd_log w) s.

(** An exception that leaves a handler is caught nowhere and ends the program:
    nothing is said about what comes then. *)
Context (terminated : @World L Server → HttpResponse * @World L Server).

Definition lift (h : Server → HttpRequest → HttpResponse → Z → Clock → Server * option HttpResponse) : handler :=
  λ req resp w,
    match h (app_state w) req resp (clock w) (λ _ _, clock w) with
    | (s, Some resp1) => (resp1, with_server w s)
    | (s, None) => terminated (with_server w s)
    end.

Definition up_text : str := #"{" ++ [chr 34] ++ #"status" ++ [chr 34] ++ #":" ++ [chr 34] ++ #"UP" ++ [chr 34] ++ #"}".

Definition handle_health : handler :=
  lift (λ s _ resp _ _, (s, Registry.answer resp (Some up_text))).

Definition registerHandlers : list (@Registration L Server) :=
  [ RegRoute POST #"/api/v1/registry/register" (lift (λ s req resp now clk, handleRegister s req resp now clk));
    RegRoute POST #"/api/v1/registry/deregister" (lift (λ s req resp _ _, handleDeregister s req resp));
    RegRoute POST #"/api/v1/registry/heartbeat" (lift (λ s req resp _ clk, handleHeartbeat s req resp clk));
    RegRoute GET #"/api/v1/registry/discover" (lift (λ s req resp _ clk, handleDiscover s req resp clk));
    RegRoute GET #"/api/v1/registry/services" (lift (λ s req resp _ _, handleGetAllServices s req resp));
    RegRoute GET #"/api/v1/registry/health" handle_health;
    RegRoute GET #"/api/v1/registry/stats" (lift (λ s req resp _ clk, handleGetStats s req resp clk)) ].
End Server.

(** ** Requests *)

Lemma post_lines host path body ct :
  post_request host path body ct
  = mjoin ((λ l, l ++ crlf) <$> ((#"POST" ++ SP :: path ++ SP :: #"HTTP/1.1") ::
      (header_text <$> [( #"Host", host); ( #"Content-Type", ct); ( #"Content-Length", to_dec (zlen body)); ( #"Connection", #"close")])))
    ++ crlf ++ body.
Proof.
  unfold post_request, to_string. rewrite (proj2 (Z.ltb_ge _ _)) by len. unfold header_text. cbn [fmap list_fmap fst snd mjoin list_join].
  rewrite <-!app_assoc. cbn [app]. by rewrite <-!app_assoc.
Qed.

(** What [post] sends is read by the server as one complete request that asks
    for the connection to be closed. *)
Lemma post_request_parsed (decompress : str → str) host path body ct :
  SP ∉ path ∧ CR ∉ path ∧ "?"%char ∉ path → zlen path ≤ 7000 → zlen body ≤ kMaxBodySize →
  header_ok ( #"Host", host) → header_ok ( #"Content-Type", ct) →
  ∃ req, parseRequest_string decompress (post_request host path body ct) HttpRequest_new = (Complete, req, []) ∧
    method req = POST ∧ HttpRequest.path req = path ∧ HttpRequest.body req = body ∧ keepAlive req = false.
Proof.
  intros Hp Hl Hb Hh Hc. rewrite post_lines. set (kvs := [_; _; _; _]).
  assert (Hd : 0 ≤ zlen body) by len. assert (Hn : header_ok ( #"Content-Length", to_dec (zlen body))).
  { unfold header_ok. cbn [fst snd]. split_and!; [by apply (bool_decide_unpack _)..|by apply to_dec_no|].
    destruct (to_dec_digits (zlen body) Hd) as [Hf Hne]. destruct (to_dec (zlen body)) as [|c l]; [done|].
    intros ->. apply Forall_inv in Hf. destruct Hf as [? Hf]. by vm_compute in Hf. }
  destruct (request_message decompress #"POST" path kvs body []) as (req & E & H1 & H2 & H3 & _ & H4 & H5).
  - split; by apply (bool_decide_unpack _).
  - exact Hp.
  - revert Hl. len.
  - exact Hb.
  - apply Forall_cons; split; [exact Hh|]. apply Forall_cons; split; [exact Hc|]. apply Forall_cons; split; [exact Hn|].
    apply Forall_singleton. split_and!; [by apply (bool_decide_unpack _)..|done].
  - left. unfold kvs. cbn [foldl fst snd]. change (lower #"Connection") with (#"connection"). change (lower #"Content-Length") with (#"content-length").
    rewrite lookup_insert_ne by done. by rewrite lookup_insert_eq.
  - unfold kvs. cbn [foldl fst snd]. by rewrite !lookup_insert_ne by (by apply (bool_decide_unpack _)).
  - exists req. rewrite app_nil_r in E. split_and!; [exact E|done..|].
    unfold keepAlive, getHeader. rewrite H2, H5, bool_decide_false by done. unfold kvs. cbn [foldl fst snd].
    change (lower #"connection") with (lower #"Connection"). by rewrite lookup_insert_eq.
Qed.

(** ** Replies *)

Lemma recv_all pieces : "000"%char ∉ mjoin pieces → recv_loop pieces = mjoin pieces.
Proof.
  unfold recv_loop. induction pieces as [|p pieces IH]; intros Hn; [done|]. cbn [fmap list_fmap]. simpl mjoin in *.
  rewrite not_elem_of_app in Hn. destruct Hn as [Hp Hr]. by rewrite c_str_id, IH.
Qed.

Lemma scan_d_print n t : 0 ≤ n → match t with [] => True | c :: _ => digit_in 10 c = None end → scan_d (to_dec n ++ t) = Some (n, t).
Proof.
  intros Hn Ht. pose proof (scan_digits_digits 10 n t ltac:(lia) Hn Ht) as Hs.
  unfold to_dec in *. destruct (digits_cons 10 n) as (d & r & E & Hd); [lia..|].
  destruct (digit_char_class d) as (H1 & H2 & H3 & _); [lia|]. rewrite E in *. unfold scan_d. simpl app in *. cbn [skip_space].
  rewrite H1, (bool_decide_false _ H2), (bool_decide_false _ H3). rewrite digit_in_char by lia. by rewrite Hs.
Qed.

Lemma skip_space_dec n t : 0 ≤ n → skip_space (to_dec n ++ t) = to_dec n ++ t.
Proof.
  intros Hn. unfold to_dec. destruct (digits_cons 10 n) as (d & r & E & Hd); [lia..|].
  destruct (digit_char_class d) as (H1 & _); [lia|]. rewrite E. cbn [app skip_space]. by rewrite H1.
Qed.

Lemma scan_status_print n msg : 0 ≤ n < 2 ^ 31 → scan_status (#"HTTP/1.1" ++ SP :: to_dec n ++ SP :: msg) = Some n.
Proof.
  intros Hn. unfold scan_status. change (prefixb _ _) with true.
  change (drop 7 _) with (to_dec 1 ++ SP :: to_dec n ++ SP :: msg). cbv iota. rewrite scan_d_print by done. cbn [mbind option_bind].
  change (skip_space (SP :: ?x)) with (skip_space x). rewrite skip_space_dec, scan_d_print by (lia || done). cbn [mbind option_bind].
  unfold clamp. rewrite Z.min_l, Z.max_r, i32_small by lia. done.
Qed.

(** A response the client can take apart: its header lines are lines. *)
Definition line_response (order : gmap str str → list (str * str)) (r : HttpResponse) : Prop :=
  chunked_ r = false ∧ CR ∉ statusMessage r ∧ Forall header_ok (order (rheaders r)).

(** What the client makes of a response the server printed, in whatever
    pieces it comes. *)
Lemma response_parsed order r pieces :
  line_response order r → mjoin pieces = toHeader order r ++ rbody r → "000"%char ∉ mjoin pieces →
  parse_response (recv_loop pieces)
  = mkReply (code_int (statusCode r)) (rbody r) ((200 <=? code_int (statusCode r)) && (code_int (statusCode r) <? 300)).
Proof.
  intros (Hch & Hmsg & Hok) Hp Hz. rewrite recv_all by done. rewrite Hp in *. clear Hp pieces.
  pose proof (code_int_range (statusCode r)) as Hcode. rewrite toHeader_lines in * by done. rewrite <-app_assoc in *.
  assert (Hhs : Forall header_ok (response_headers order r)).
  { apply Forall_app. split; [done|]. destruct (closeConnection r);
      repeat constructor; vm_compute; try done; set_solver. }
  assert (Hst : line_ok (status_text r)).
  { split; [|done]. unfold status_text. rewrite elem_of_app, elem_of_cons, elem_of_app, elem_of_cons.
    intros [Hin|[?|[?|[?|?]]]]; [revert Hin; vm_compute; set_solver|done|by eapply to_dec_no; [| |done]; [lia|]|done..]. }
  assert (Hls : Forall line_ok (status_text r :: (header_text <$> response_headers order r))).
  { constructor; [done|]. rewrite Forall_fmap. eapply Forall_impl; [done|]. apply header_text_ok. }
  unfold parse_response. rewrite find_0, find_blank_line by done.
  assert (Hne : header_text <$> response_headers order r ≠ []).
  { unfold response_headers. by destruct (order (rheaders r)). }
  set (head := join_lines _) in *. assert (Hj : head = status_text r ++ crlf ++ join_lines (header_text <$> response_headers order r)).
  { by apply join_lines_cons. }
  assert (Hf : find crlf (head ++ crlf2 ++ rbody r) 0 = Some (length (status_text r))).
  { rewrite find_0, Hj, <-!app_assoc. unfold crlf. apply find0_first. apply Hst. }
  rewrite Hf. rewrite Hj at 1. rewrite <-app_assoc, substr_prefix by done.
  assert (Hc : c_str (status_text r) = status_text r).
  { apply c_str_id. intros Hin. apply Hz. rewrite Hj. set_solver. }
  rewrite Hc. unfold status_text at 1. rewrite scan_status_print by done. f_equal.
  replace (length head + 4)%nat with (length (head ++ crlf2)) by len. by rewrite app_assoc, drop_app_length.
Qed.

Lemma send_loop_all script rest b : send_loop script rest = (b, Some true) → b = rest.
Proof.
  revert rest b. induction script as [|a script IH]; intros rest b; destruct rest as [|x rest]; cbn [send_loop]; try (by intros [= <-]).
  destruct a as [n| |]; [|by apply IH|done]. destruct (send_loop script (drop n (x :: rest))) as [b' r] eqn:E.
  intros [= <- ->]. rewrite (IH _ _ E). apply take_drop.
Qed.

(** ** A registration from end to end *)

Section EndToEnd.
Context {J : Type} `{JsonLaws J}.
Context {R L : Type} `{Limiter L} (regex_compile : str → option R) (regex_match : R → str → bool).
Context (compress decompress : str → str) (fs : FileSystem).
Context (order : gmap str str → list (str * str)) (Horder : order_ok order).
Context (terminated : @World L Server → HttpResponse * @World L Server).
Context (s : @HttpServer R L Server) (Hroutes : build regex_compile (registerHandlers (J := J) terminated) = Some (core_ s)).

Lemma register_dispatch (req : HttpRequest) (resp : HttpResponse) (w : @World L Server) :
  method req = POST → path req = #"/api/v1/registry/register" →
  handleRequest regex_match fs order (core_ s) req resp w
  = lift terminated (λ s req resp now clk, handleRegister (J := J) s req resp now clk) req resp w.
Proof.
  intros Hm Hp. rewrite (dispatched _ _ _ _ _ _ Hroutes). unfold dispatch. cbn [omap list_omap registerHandlers middleware_of run_middlewares].
  unfold exact_for. rewrite Hm, Hp. reflexivity.
Qed.

(** The answer to a request that the client asked to be the last, when the
    handler leaves the response as it was. *)
Definition empty_reply : str := toHeader order (set_close HttpResponse_new true).

Lemma empty_reply_plain : line_response order (set_close HttpResponse_new true) ∧ "000"%char ∉ empty_reply.
Proof.
  assert (Ho : order ∅ = []).
  { apply Permutation_nil_r. transitivity (map_to_list (∅ : gmap str str)); [symmetry; apply Permutation_sym, Horder|by rewrite map_to_list_empty]. }
  split; [split_and!; [done|by apply (bool_decide_unpack _)|cbn; by rewrite Ho]|].
  unfold empty_reply, toHeader, printed_headers. cbn [rheaders set_close HttpResponse_new chunked_]. rewrite Ho.
  by apply (bool_decide_unpack _).
Qed.

Lemma register_respond (req : HttpRequest) (w : @World L Server) k m :
  method req = POST → path req = #"/api/v1/registry/register" → keepAlive req = false → parse (body req) = Some (register_json k m) →
  instanceId m ≠ [] → utf8 (instanceId m) = true → fits m →
  ∃ w', respond regex_match compress fs order s req w = (Some ([SendIov [empty_reply; []]; Shutdown], true), w') ∧
    app_state w' = (catalog_op (app_state w) (ORegister k m (clock w) (λ _ _, clock w))).2.
Proof.
  intros Hm Hp Hk Hb Hid Hu Hfit. unfold respond. rewrite register_dispatch by done. unfold lift.
  destruct (app_state w) as [next c]. rewrite (register_effect next c req HttpResponse_new k m (clock w) (λ _ _, clock w)) by done.
  unfold postProcessResponse. rewrite (build_plain _ _ _ Hroutes). cbn [negb orb]. rewrite Hk.
  eexists. split; [reflexivity|]. reflexivity.
Qed.

(** C28: A registration from end to end.  If the texts of the key and of the
    instance are UTF-8, [registerService] has a body to send ([dump] throws
    otherwise, and nothing is sent: [ill_formed_throws]); if it is within the
    server's limit, the bytes it sends make the registry server register
    exactly the client's instance under the client's key, once, and close the
    connection; and however the reply is cut into pieces, [registerService]
    reports a failure: the reply is a 200 without a body. *)
Theorem registration_over_http (w : @World L Server) (host : str) (k : ServiceKey) (m : InstanceMeta)
    (Hhost : header_ok ( #"Host", host)) (Hid : instanceId m ≠ []) (Hfit : fits m)
    (Hk : utf8_key k = true) (Hm : utf8_instance m = true) :
  ∃ text, register_body (J := J) k m = Some text ∧
    (zlen text ≤ kMaxBodySize →
     let request := post_request host #"/api/v1/registry/register" text #"application/json" in
     ∃ acts w',
       serve_all regex_match compress decompress fs order s request w = (acts, Closing, [], w') ∧
       app_state w' = (catalog_op (app_state w) (ORegister k m (clock w) (λ _ _, clock w))).2 ∧
       ∀ net, n_connect net = Connected → (send_loop (n_send net) request).2 = Some true → mjoin (n_recv net) = wire_bytes acts →
         registerService net host k m true = Some (request, Some (false, None))).
Proof.
  destruct (register_body_text k m Hfit Hk Hm) as (text & Ht & Hparse). exists text. split; [done|]. intros Hsize request.
  assert (Hu : utf8 (instanceId m) = true) by (unfold utf8_instance in Hm; rewrite !andb_true_iff in Hm; by destruct Hm as [[[? _] _] _]).
  destruct (post_request_parsed decompress host #"/api/v1/registry/register" text #"application/json")
    as (req & E & K1 & K2 & K3 & K4); [split_and!; by apply (bool_decide_unpack _)|by vm_compute|done..| |].
  { split_and!; by apply (bool_decide_unpack _). }
  destruct (register_respond req w k m K1 K2 K4 ltac:(by rewrite K3) Hid Hu Hfit) as (w' & Er & Ha).
  exists [SendIov [empty_reply; []]; Shutdown], w'. split_and!; [|done|].
  - etrans; [exact (serve_whole_complete _ _ _ _ _ _ w E)|]. by rewrite Er.
  - intros net Hc Hs Hr. unfold registerService. rewrite Ht. cbn [mbind option_bind]. unfold post, exchange. rewrite Hc. fold request.
    destruct (send_loop (n_send net) request) as [b r] eqn:Es. cbn [snd] in Hs. subst r. rewrite (send_loop_all _ _ _ Es).
    destruct empty_reply_plain as [Hl Hz]. assert (Hj : mjoin (n_recv net) = toHeader order (set_close HttpResponse_new true) ++ rbody (set_close HttpResponse_new true)).
    { rewrite Hr. unfold wire_bytes. cbn. by rewrite !app_nil_r. }
    rewrite (response_parsed order (set_close HttpResponse_new true) (n_recv net) Hl Hj); [|rewrite Hj; cbn [rbody]; by rewrite app_nil_r].
    cbn [fmap option_fmap option_map]. do 3 f_equal. unfold register_result. cbn. by rewrite parse_empty.
Qed.
End EndToEnd.

(** ** Examples *)

(** Nothing is said about a program that has ended. *)
Definition sample_terminated (w : @World TokenBucketLimiter.t Server) : HttpResponse * @World TokenBucketLimiter.t Server := (HttpResponse_new, w).

Definition registry_core : @HttpCore unit TokenBucketLimiter.t Server :=
  default HttpCore_new (build (λ _, None) (registerHandlers (J := tree) sample_terminated)).
Definition registry_server : @HttpServer unit TokenBucketLimiter.t Server := HttpServer.mkServer registry_core true (dbl 60).
Definition registry_world : @World TokenBucketLimiter.t Server := HttpCore.mkWorld 5000 Metrics_new [] [] (0%nat, ServiceCatalog_new).

Lemma registry_builds : build (λ _, None) (registerHandlers (J := tree) sample_terminated) = Some (core_ registry_server).
Proof. reflexivity. Qed.

Lemma order_text_size : zlen order_text ≤ kMaxBodySize.
Proof. by vm_compute. Qed.

Definition order_request : str := post_request #"registry" #"/api/v1/registry/register" order_text #"application/json".

Lemma registration_over_http_witness :
  ∃ acts w',
    serve_all (λ _ _, true) id id sample_fs map_to_list registry_server order_request registry_world = (acts, Closing, [], w') ∧
    app_state w' = (catalog_op (0%nat, ServiceCatalog_new) (ORegister orders order_node 5000 (λ _ _, 5000))).2.
Proof.
  destruct (registration_over_http (J := tree) (λ _, None) (λ _ _, true) id id sample_fs map_to_list (λ _, reflexivity _)
    sample_terminated registry_server registry_builds registry_world #"registry" orders order_node) as (text & Ht & Hr).
  - split_and!; by apply (bool_decide_unpack _).
  - by apply (bool_decide_unpack _).
  - split_and!; cbn; lia.
  - reflexivity.
  - reflexivity.
  - assert (E : order_text = text) by (unfold order_text; by rewrite Ht). subst text.
    destruct (Hr order_text_size) as (acts & w' & H1 & H2 & _). exists acts, w'. by split.
Defined.

(** A reply that breaks off, by a time-out or a lost connection, is taken for
    the whole: the declared length is not looked at. *)
Example short_reply_accepted :
  exchange (mkNet Connected [Sent 100] [ #"HTTP/1.1 200 OK" ++ crlf ++ #"Content-Length: 100" ++ crlf2 ++ #"{" ]) #"GET"
  = (#"GET", Some (mkReply 200 #"{" true)).
Proof. vm_compute. reflexivity. Qed.

(** A zero byte ends what is kept of its piece. *)
Example zero_byte_in_reply : recv_loop [ #"ab" ++ [ "000"%char ] ++ #"cd"; #"ef" ] = #"abef".
Proof. vm_compute. reflexivity. Qed.

(** A send that times out is tried again for ever: [SO_SNDTIMEO] ends nothing. *)
Theorem send_never_gives_up (n : nat) (x : ascii) (rest : str) : send_loop (replicate n Again) (x :: rest) = ([], None).
Proof. by induction n. Qed.
