(* ===== verification/Threads.v ===== *)
(** * Threads: the periodic threads of the registry, and the loop's own thread

    [Background] models the thread of [src/registry/HealthChecker.h] and the
    heartbeat thread of [src/registry/RegistryClient.h], which are the same
    loop around different work.  [LoopThread] models
    [src/net/EventLoopThread.cc] over [src/net/Thread.cc].  A step is what a
    thread does between two points at which another one can come in. *)

From S2P Require Import Prelude.

Module Background.

(** Where the thread is: at the loop's test, in its work, at the predicate of
    [wait_for], past it but not yet asleep (the mutex is held, but [stop] does
    not take it), asleep, or at its end. *)
Inductive Place := NoThread | AtTest | Working | AtCheck | Falling | Asleep | Returned.

#[export] Instance Place_eq_dec : EqDecision Place.
Proof. solve_decision. Defined.

Section Loop.
Context {W : Type} (work : W → W).

Record Loop := mkLoop { running_ : bool; place : Place; world : W; rounds : nat }.

Definition at_place (l : Loop) (p : Place) : Loop := mkLoop (running_ l) p (world l) (rounds l).

Definition new (w : W) : Loop := mkLoop false NoThread w 0.

(** [start]: [running_.exchange(true)]; a thread that runs is left alone. *)
Definition start (l : Loop) : Loop := if running_ l then l else mkLoop true AtTest (world l) (rounds l).

(** [stop] up to the join: the flag, and [notify_all], which reaches a thread
    that is asleep. *)
Definition signal (l : Loop) : Loop :=
  if running_ l then mkLoop false (match place l with Asleep => AtCheck | p => p end) (world l) (rounds l) else l.

(** [join] returns when the thread has. *)
Definition join (l : Loop) : option Loop := match place l with Returned => Some (at_place l NoThread) | _ => None end.

(** A step of the thread: [None] where it has to wait. *)
Definition step (l : Loop) : option Loop :=
  match place l with
  | AtTest => Some (at_place l (if running_ l then Working else Returned))
  | Working => Some (mkLoop (running_ l) AtCheck (work (world l)) (S (rounds l)))
  | AtCheck => Some (at_place l (if running_ l then Falling else AtTest))
  | Falling => Some (at_place l Asleep)
  | NoThread | Asleep | Returned => None
  end.

(** The interval is over: [wait_for] returns. *)
Definition timeout (l : Loop) : option Loop := match place l with Asleep => Some (at_place l AtTest) | _ => None end.

Inductive Act := Start | Signal | Join | Step | Timeout.

Definition act (l : Loop) (a : Act) : option Loop :=
  match a with
  | Start => if bool_decide (place l = NoThread) || running_ l then Some (start l) else None
  | Signal => Some (signal l)
  | Join => join l
  | Step => step l
  | Timeout => timeout l
  end.

Fixpoint run (l : Loop) (acts : list Act) : option Loop :=
  match acts with [] => Some l | a :: acts => l1 ← act l a; run l1 acts end.

(** The steps that are left to a thread that has been told to stop. *)
Definition left (p : Place) : nat :=
  match p with NoThread | Returned => 0 | AtTest => 1 | AtCheck | Asleep => 2 | Working | Falling => 3 end.

Definition own (a : Act) : bool := match a with Step | Timeout => true | _ => false end.

Lemma stopping_step l a l' : running_ l = false → own a = true → act l a = Some l' →
  running_ l' = false ∧ left (place l') < left (place l) ∧
  rounds l' + (if bool_decide (place l' = Working) then 1 else 0) = rounds l + (if bool_decide (place l = Working) then 1 else 0).
Proof.
  intros Hr Ho Ha. destruct l as [r p w n]. cbn in Hr. subst r.
  destruct a; try discriminate Ho; destruct p; cbn in Ha; try discriminate Ha; injection Ha as <-; cbn; split_and!; lia || done.
Qed.

Lemma can_step l : left (place l) ≠ 0 → ∃ a l', own a = true ∧ act l a = Some l'.
Proof. destruct l as [r [] w n]; cbn; intros H; try done; try (by exists Step; eexists); by exists Timeout; eexists. Qed.

(** ** A thread that is told to stop does, and does its work at most once more:
    whatever it does next, it returns within three of its own steps, a time-out
    counted as one; it is never stuck before that. *)
Theorem background_stops (l l' : Loop) (acts : list Act) :
  running_ l = false → forallb own acts = true → run l acts = Some l' →
  length acts ≤ 3 ∧ rounds l' ≤ S (rounds l) ∧
  (left (place l') = 0 ∨ ∃ a l2, own a = true ∧ act l' a = Some l2).
Proof.
  intros Hr Ho Hrun.
  assert (H : ∀ acts l, running_ l = false → forallb own acts = true → run l acts = Some l' →
    length acts + left (place l') ≤ left (place l) ∧
    rounds l' + (if bool_decide (place l' = Working) then 1 else 0) = rounds l + (if bool_decide (place l = Working) then 1 else 0)).
  { clear. induction acts as [|a acts IH]; intros l Hr Ho Hrun; cbn [run] in Hrun; [injection Hrun as <-; cbn; lia|].
    cbn [forallb] in Ho. apply andb_prop in Ho as [Ha Ho]. destruct (act l a) as [l1|] eqn:E; [|discriminate Hrun].
    destruct (stopping_step _ _ _ Hr Ha E) as (H1 & H2 & H3). destruct (IH l1 H1 Ho Hrun). cbn [length]. lia. }
  destruct (H acts l Hr Ho Hrun) as [H1 H2]. assert (left (place l) ≤ 3) by (destruct (place l); cbn; lia). split_and!.
  - lia.
  - destruct (bool_decide _), (bool_decide _); lia.
  - destruct (decide (left (place l') = 0)); [by left|right; by apply can_step].
Qed.
End Loop.

(** The notification is lost when it comes between the test of the predicate
    and the sleep: the thread sleeps its whole interval with the flag down. *)
Example notification_lost :
  let acts := [Start; Step; Step; Step; Signal; Step] in
  ∃ l, run S (new 0) acts = Some l ∧ place l = Asleep ∧ running_ l = false ∧ step S l = None.
Proof. eexists. split_and!; reflexivity. Qed.

Lemma background_stops_witness :
  ∃ l l', run S (new 0) [Start; Step; Signal] = Some l ∧ run S l [Step; Step; Step] = Some l' ∧ rounds l' ≤ 1 ∧ place l' = Returned.
Proof.
  eexists _, _. split; [reflexivity|]. split; [reflexivity|]. split; [|reflexivity].
  by apply (background_stops S (mkLoop false Working 0 0) _ [Step; Step; Step]).
Defined.
End Background.

Module LoopThread.

(** The thread that owns the [EventLoopThread]: before [startLoop], waiting for
    the new thread's id, before it takes the mutex, asleep on the condition,
    back from [startLoop]; then the destructor: before its test of [loop_],
    before it reads [loop_] again for the call, in [EventLoop::quit] before the
    store to [quit_], before [isInLoopThread], before [wakeup], in [join], at
    its end. *)
Inductive Owner := Before | ForTid | ToLock | Sleeping | Have | DTest | DLoad | DQuit | DInLoop | DWake | DJoin | Gone.

(** The new thread: not there, before it has posted its id, making its loop and
    running the callback, before it publishes the loop, before [loop()] clears
    [quit_], in [loop()], before it takes the loop back, before its loop is destroyed, at its end. *)
Inductive Worker := None_ | ToPost | Making | ToPublish | ToLoop | Looping | ToClear | ToDestroy | Ended.

Record State := mkState {
  owner : Owner; worker : Worker;
  loop_ : bool;              (* loop_ is not null *)
  alive : bool;              (* the EventLoop exists *)
  quit_ : bool;
  quitters : nat;            (* other threads in quit, between the store and wakeup *)
  crashed : bool             (* a call on, or an access to, a null or destroyed loop *)
}.

Definition new : State := mkState Before None_ false false false 0 false.

Definition set_owner (s : State) (o : Owner) : State := mkState o (worker s) (loop_ s) (alive s) (quit_ s) (quitters s) (crashed s).
Definition set_worker (s : State) (w : Worker) : State := mkState (owner s) w (loop_ s) (alive s) (quit_ s) (quitters s) (crashed s).

(** [Thread::start] returns once the new thread has posted its id. *)
Definition tid_posted (w : Worker) : bool := match w with None_ | ToPost => false | _ => true end.

(** An access to the loop through a pointer that was read before. *)
Definition touch (s : State) (o : Owner) : State :=
  mkState o (worker s) (loop_ s) (alive s) (quit_ s) (quitters s) (crashed s || negb (alive s)).

(** [EventLoop::quit], called by a thread that is not the loop's: the store to
    [quit_]; [isInLoopThread] reads [threadId_]; [wakeup] writes to the
    descriptor of the loop.  The loop's thread can come in between any two. *)
Definition quit_store (s : State) : State :=
  mkState (owner s) (worker s) (loop_ s) (alive s) (quit_ s || alive s) (quitters s) (crashed s || negb (alive s)).

(** [startLoop] and [Thread::start]; the test of [loop_] and the sleep are one
    step, under the mutex.  Then the destructor. *)
Definition owner_step (s : State) : option State :=
  match owner s with
  | Before => Some (mkState ForTid ToPost (loop_ s) (alive s) (quit_ s) (quitters s) (crashed s))
  | ForTid => if tid_posted (worker s) then Some (set_owner s ToLock) else None
  | ToLock => Some (set_owner s (if loop_ s then Have else Sleeping))
  | Sleeping | Have | Gone => None
  | DTest => Some (set_owner s (if loop_ s then DLoad else Gone))
  | DLoad => if loop_ s then Some (set_owner s DQuit)
             else Some (mkState DJoin (worker s) (loop_ s) (alive s) (quit_ s) (quitters s) true)
  | DQuit => Some (set_owner (quit_store s) DInLoop)
  | DInLoop => Some (touch s DWake)
  | DWake => Some (touch s DJoin)
  | DJoin => match worker s with Ended => Some (set_owner s Gone) | _ => None end
  end.

(** [threadFunc].  In [loop()] the thread leaves when it finds [quit_] set at
    the end of a round: after [wakeup], any other event, or the time-out of
    [poll]. *)
Definition worker_step (s : State) : option State :=
  match worker s with
  | None_ | Ended => None
  | ToPost => Some (set_worker s Making)
  | Making => Some (mkState (owner s) ToPublish (loop_ s) true (quit_ s) (quitters s) (crashed s))
  | ToPublish => Some (mkState (match owner s with Sleeping => ToLock | o => o end) ToLoop true (alive s) (quit_ s) (quitters s) (crashed s))
  | ToLoop => Some (mkState (owner s) Looping (loop_ s) (alive s) false (quitters s) (crashed s))
  | Looping => if quit_ s then Some (set_worker s ToClear) else None
  | ToClear => Some (mkState (owner s) ToDestroy false (alive s) (quit_ s) (quitters s) (crashed s))
  | ToDestroy => Some (mkState (owner s) Ended (loop_ s) false (quit_ s) (quitters s) (crashed s))
  end.

(** The destructor begins. *)
Definition destroy (s : State) : option State := match owner s with Have => Some (set_owner s DTest) | _ => None end.

(** Another thread, which got the loop from [startLoop], calls [quit] on it
    while it is there; and goes on to the second half of the call. *)
Definition outside_quit (s : State) : option State :=
  match owner s with
  | Before | ForTid | ToLock | Sleeping | Gone => None
  | _ => if alive s then Some (mkState (owner s) (worker s) (loop_ s) (alive s) true (S (quitters s)) (crashed s)) else None
  end.
Definition outside_wake (s : State) : option State :=
  match quitters s with
  | 0 => None
  | S n => Some (mkState (owner s) (worker s) (loop_ s) (alive s) (quit_ s) n (crashed s || negb (alive s)))
  end.

Inductive Act := OwnerStep | WorkerStep | Destroy | OutsideQuit | OutsideWake.

Definition act (s : State) (a : Act) : option State :=
  match a with
  | OwnerStep => owner_step s | WorkerStep => worker_step s | Destroy => destroy s
  | OutsideQuit => outside_quit s | OutsideWake => outside_wake s
  end.

Fixpoint run (s : State) (acts : list Act) : option State :=
  match acts with [] => Some s | a :: acts => s1 ← act s a; run s1 acts end.

Lemma run_acts_app s a b : run s (a ++ b) = (s1 ← run s a; run s1 b).
Proof. revert s. induction a as [|x a IH]; intros s; [done|]. cbn. destruct (act s x); [apply IH|done]. Qed.

(** ** When only the destructor ends the loop *)

Definition unquit (a : Act) : bool := match a with OutsideQuit | OutsideWake => false | _ => true end.

(** Which states there are. *)
Definition sound (s : State) : bool :=
  match owner s, worker s with
  | Before, None_ | ForTid, (ToPost | Making) => negb (loop_ s) && negb (alive s) && negb (quit_ s) && negb (crashed s)
  | (ForTid | ToLock | Sleeping), ToPublish => negb (loop_ s) && alive s && negb (quit_ s) && negb (crashed s)
  | (ToLock | Sleeping), Making => negb (loop_ s) && negb (alive s) && negb (quit_ s) && negb (crashed s)
  | (ForTid | ToLock | Have | DTest | DLoad | DQuit), (ToLoop | Looping) => loop_ s && alive s && negb (quit_ s) && negb (crashed s)
  | (DInLoop | DWake | DJoin), Looping => loop_ s && alive s && negb (crashed s)
  | (DInLoop | DWake | DJoin), (ToLoop | ToClear) => loop_ s && alive s && quit_ s && negb (crashed s)
  | (DInLoop | DWake | DJoin), ToDestroy => negb (loop_ s) && alive s && quit_ s && negb (crashed s)
  | DInLoop, Ended => negb (loop_ s) && negb (alive s) && quit_ s && negb (crashed s)
  | (DWake | DJoin | Gone), Ended => negb (loop_ s) && negb (alive s) && quit_ s
  | _, _ => false
  end.

(** The cases of a state that [sound] allows, and of a step from it. *)
Ltac sound_cases s Hs :=
  destruct s as [o w l al q n c];
  destruct o, w; try (cbn in Hs; rewrite ?andb_false_r in Hs; discriminate Hs);
  destruct l, al, q, c; try discriminate Hs.

Lemma handshake_act s a s' : sound s = true → unquit a = true → act s a = Some s' → sound s' = true.
Proof.
  intros Hs Hu Ha. sound_cases s Hs; destruct a; try discriminate Hu; cbn in Ha; try discriminate Ha; by injection Ha as <-.
Qed.

(** What is left to do until [startLoop] returns, or the destructor has. *)
Definition owner_left (o : Owner) : nat :=
  match o with
  | Before => 5 | ForTid => 4 | ToLock => 3 | Sleeping => 2 | Have => 0
  | DTest => 6 | DLoad => 5 | DQuit => 4 | DInLoop => 3 | DWake => 2 | DJoin => 1 | Gone => 0
  end.
Definition worker_left (w : Worker) : nat :=
  match w with None_ => 16 | ToPost => 14 | Making => 12 | ToPublish => 10 | ToLoop => 8 | Looping => 6 | ToClear => 4 | ToDestroy => 2 | Ended => 0 end.
Definition left (s : State) : nat := owner_left (owner s) + worker_left (worker s).

Definition waiting (s : State) : bool := match owner s with Have | Gone => false | _ => true end.

Lemma step_left s a s' : sound s = true → a = OwnerStep ∨ a = WorkerStep → act s a = Some s' → left s' < left s.
Proof.
  intros Hs Hu Ha. sound_cases s Hs; destruct Hu as [-> | ->]; cbn in Ha; try discriminate Ha; injection Ha as <-; cbn; lia.
Qed.

(** The destructor's [quit] came before [loop()] cleared the flag. *)
Definition missed (s : State) : Prop := owner s = DJoin ∧ worker s = Looping ∧ quit_ s = false.

Lemma never_stuck s : sound s = true → waiting s = true → is_Some (owner_step s) ∨ is_Some (worker_step s) ∨ missed s.
Proof. intros Hs Hw. sound_cases s Hs; try discriminate Hw; cbn; unfold missed; cbn; eauto 6. Qed.

Lemma handshake_run acts s s' : sound s = true → forallb unquit acts = true → run s acts = Some s' → sound s' = true.
Proof.
  revert s. induction acts as [|a acts IH]; intros s Hs Hu Hr; cbn [run] in Hr; [by injection Hr as <-|].
  cbn [forallb] in Hu. apply andb_prop in Hu as [Ha Hu]. destruct (act s a) as [s1|] eqn:E; [|discriminate Hr].
  eapply IH, Hr; [|done]. by eapply handshake_act.
Qed.

Lemma steps_bounded acts s s' : sound s = true → Forall (λ a, a = OwnerStep ∨ a = WorkerStep) acts → run s acts = Some s' → length acts + left s' ≤ left s.
Proof.
  revert s. induction acts as [|a acts IH]; intros s Hs Hf Hr; cbn [run] in Hr; [injection Hr as <-; cbn; lia|].
  apply Forall_cons in Hf as [Ha Hf]. destruct (act s a) as [s1|] eqn:E; [|discriminate Hr].
  pose proof (step_left _ _ _ Hs Ha E). specialize (IH s1). cbn [length].
  assert (sound s1 = true) by (eapply handshake_act, E; [done|by destruct Ha as [-> | ->]]). specialize (IH ltac:(done) Hf Hr). lia.
Qed.

(** The thread destroyed its loop while the destructor was in [quit], past the
    store. *)
Definition inside_quit (o : Owner) : bool := match o with DInLoop | DWake => true | _ => false end.
Definition overtaken (acts : list Act) : Prop :=
  ∃ pre post s1, acts = pre ++ WorkerStep :: post ∧ run new pre = Some s1 ∧ inside_quit (owner s1) = true ∧ worker s1 = ToDestroy.

Lemma overtaken_snoc acts a : overtaken acts → overtaken (acts ++ [a]).
Proof. intros (pre & post & s1 & -> & H). exists pre, (post ++ [a]), s1. by rewrite <- app_assoc. Qed.

(** A step that touches a loop that is not there, or destroys the loop under
    [quit]: what came before it. *)
Lemma exposed_step s a s' : sound s = true → unquit a = true → act s a = Some s' →
  crashed s' = true ∨ (inside_quit (owner s') = true ∧ worker s' = Ended) →
  (crashed s = true ∨ (inside_quit (owner s) = true ∧ worker s = Ended)) ∨
  (a = WorkerStep ∧ inside_quit (owner s) = true ∧ worker s = ToDestroy).
Proof.
  intros Hs Hu Ha. sound_cases s Hs; destruct a; try discriminate Hu; cbn in Ha; try discriminate Ha; injection Ha as <-; cbn;
    intros [H|[H1 H2]]; try discriminate H; try discriminate H1; try discriminate H2; auto 6.
Qed.

Lemma crash_overtaken acts s : forallb unquit acts = true → run new acts = Some s →
  crashed s = true ∨ (inside_quit (owner s) = true ∧ worker s = Ended) → overtaken acts.
Proof.
  revert s. induction acts as [|a acts IH] using rev_ind; intros s Hu Hr Hc.
  - injection Hr as <-. by destruct Hc as [|[]].
  - rewrite forallb_app in Hu. apply andb_prop in Hu as [Hu Ha]. cbn in Ha. rewrite andb_true_r in Ha.
    rewrite run_acts_app in Hr. destruct (run new acts) as [s1|] eqn:E; [|done]. cbn in Hr.
    destruct (act s1 a) as [s2|] eqn:E2; [|done]. injection Hr as ->.
    assert (Hs : sound s1 = true) by (by eapply handshake_run, E).
    destruct (exposed_step _ _ _ Hs Ha E2 Hc) as [H|(-> & H)]; [by apply overtaken_snoc, (IH s1)|].
    by exists acts, [], s1.
Qed.

(** C32: The hand-shake of an [EventLoopThread].  While only its destructor ends
    the loop, in every interleaving: [startLoop] returns a loop that exists and
    is published; when the destructor has returned the thread has ended and its
    loop is gone; a loop that is not there is accessed in one case only: inside
    the destructor's call of [EventLoop::quit], between the store to [quit_] and
    the end of [wakeup], the thread saw the flag, left [loop()] and destroyed
    the loop ([quit_under_the_thread] shows that it happens); no null loop is
    ever called; the two take at most twenty-one steps, and are stuck before
    that in one case only: [quit] was called before [loop()] had cleared the
    flag ([destroyed_too_soon]). *)
Theorem loop_thread_handshake (acts : list Act) (s : State) (Hacts : forallb unquit acts = true) (Hrun : run new acts = Some s) :
  (owner s = Have → loop_ s = true ∧ alive s = true) ∧
  (owner s = Gone → worker s = Ended ∧ alive s = false) ∧
  (crashed s = true → overtaken acts) ∧
  (owner s = DLoad ∨ owner s = DQuit → loop_ s = true ∧ alive s = true) ∧
  (waiting s = true → is_Some (owner_step s) ∨ is_Some (worker_step s) ∨ missed s) ∧
  (∀ more s', Forall (λ a, a = OwnerStep ∨ a = WorkerStep) more → run s more = Some s' → length more ≤ 21).
Proof.
  assert (Hs : sound s = true) by (eapply handshake_run, Hrun; done). split_and!.
  - intros Ho. by sound_cases s Hs.
  - intros Ho. by sound_cases s Hs.
  - intros Hc. by eapply crash_overtaken, or_introl, Hc.
  - intros [Ho|Ho]; by sound_cases s Hs.
  - by apply never_stuck.
  - intros more s' Hf Hr. pose proof (steps_bounded _ _ _ Hs Hf Hr) as Hb. revert Hb. clear Hacts Hrun Hf Hr.
    sound_cases s Hs; unfold left; cbn; lia.
Qed.

Lemma loop_thread_handshake_witness :
  ∃ s, run new [OwnerStep; WorkerStep; OwnerStep; OwnerStep; WorkerStep; WorkerStep; OwnerStep] = Some s ∧ owner s = Have ∧ alive s = true.
Proof.
  eexists. split; [reflexivity|]. split; [reflexivity|].
  by destruct (proj1 (loop_thread_handshake [OwnerStep; WorkerStep; OwnerStep; OwnerStep; WorkerStep; WorkerStep; OwnerStep] _ eq_refl eq_refl)).
Defined.

(** A thread that is up, with its loop handed out. *)
Definition up : list Act := [OwnerStep; WorkerStep; WorkerStep; WorkerStep; WorkerStep; OwnerStep; OwnerStep].

(** An ordinary end: the destructor's [quit] is over before the thread has left. *)
Example quit_and_joined :
  (λ s, (owner s, crashed s)) <$>
    run new (up ++ [Destroy; OwnerStep; OwnerStep; OwnerStep; OwnerStep; OwnerStep; WorkerStep; WorkerStep; WorkerStep; OwnerStep])
  = Some (Gone, false).
Proof. vm_compute. reflexivity. Qed.

(** The thread sees [quit_], leaves and destroys its loop before the destructor
    has come to [isInLoopThread] and [wakeup]: both use a loop that is gone. *)
Example quit_under_the_thread :
  (λ s, (owner s, crashed s)) <$>
    run new (up ++ [Destroy; OwnerStep; OwnerStep; OwnerStep; WorkerStep; WorkerStep; WorkerStep; OwnerStep; OwnerStep; OwnerStep])
  = Some (Gone, true).
Proof. vm_compute. reflexivity. Qed.

(** The same happens to any other thread that calls [quit]. *)
Example outside_quit_under_the_thread :
  crashed <$> run new (up ++ [OutsideQuit; WorkerStep; WorkerStep; WorkerStep; OutsideWake]) = Some true.
Proof. vm_compute. reflexivity. Qed.

(** A thread that is destroyed as soon as it is started. *)
Example destroyed_too_soon :
  (λ s, (owner s, worker s, quit_ s, owner_step s, worker_step s)) <$>
    run new [OwnerStep; WorkerStep; WorkerStep; WorkerStep; OwnerStep; OwnerStep; Destroy;
             OwnerStep; OwnerStep; OwnerStep; OwnerStep; OwnerStep; WorkerStep]
  = Some (DJoin, Looping, false, None, None).
Proof. vm_compute. reflexivity. Qed.

(** When somebody else has quit the loop, the destructor can find [loop_] set,
    and null when it calls [quit] on it. *)
Example quit_then_destroy :
  crashed <$> run new (up ++ [OutsideQuit; OutsideWake; WorkerStep; Destroy; OwnerStep; WorkerStep; OwnerStep]) = Some true.
Proof. vm_compute. reflexivity. Qed.

(** Or it finds [loop_] null and returns while the thread still has the mutex
    and its loop to give up. *)
Example destroyed_under_the_thread :
  (λ s, (owner s, worker s)) <$> run new (up ++ [OutsideQuit; OutsideWake; WorkerStep; WorkerStep; Destroy; OwnerStep])
  = Some (Gone, ToDestroy).
Proof. vm_compute. reflexivity. Qed.
End LoopThread.
