(* ===== verification/Redlock.v ===== *)
(** * Redlock: the lock over one Redis server

    Models [src/util/Redlock.h].  The server is not part of the repository: it
    is a function from its state, the time and the arguments of a command to a
    reply and its next state; [LockServer] states what Redis documents of the
    three commands used.  The waits of [acquire] come with the times at which
    its attempts are made. *)

From S2P Require Import Prelude DbPool.

Open Scope Z_scope.

(** ** Tokens *)

(** ["%llx-%llx-%llx"] of the time, the counter and a random number; the
    buffer of 64 bytes holds any three of them. *)
Definition generateToken (now c r : Z) : str := digits 16 (u64 now) ++ #"-" ++ digits 16 (u64 c) ++ #"-" ++ digits 16 (u64 r).

(** ** Commands *)

Definition lua : str :=
  #"if redis.call('GET', KEYS[1]) == ARGV[1] then return redis.call('DEL', KEYS[1]) else return 0 end".

Definition SET_NX (key token : str) (ttlMs : Z) : list str :=
  [ #"SET"; c_str key; c_str token; #"NX"; #"PX"; to_string ttlMs ].
Definition EVAL (key token : str) : list str := [ #"EVAL"; lua; #"1"; c_str key; c_str token ].

Section Lock.
Context {D : Type} (server : D → Z → list str → option Value * D).

(** [conn] tells whether the pool gave a connection. *)
Definition trySet (d : D) (now : Z) (conn : bool) (key token : str) (ttlMs : Z) : bool * D :=
  if conn then
    let '(r, d) := server d now (SET_NX key token ttlMs) in
    (match r with Some (Status s) => bool_decide (s = #"OK") | _ => false end, d)
  else (false, d).

Definition release (d : D) (now : Z) (conn : bool) (key token : str) : bool * D :=
  if bool_decide (token = []) then (false, d)
  else if conn then
    let '(r, d) := server d now (EVAL key token) in (match r with Some (Integer n) => n =? 1 | _ => false end, d)
  else (false, d).

Definition isHeldByMe (d : D) (now : Z) (conn : bool) (key token : str) : bool * D :=
  if bool_decide (token = []) then (false, d)
  else if conn then let '(r, d) := server d now (DbPool.GET key) in (bool_decide (reply_str r = token), d)
  else (false, d).

(** [acquire]: its attempts, each with the time of the server, whether there
    was a connection, what the others did to the server before, and the clock
    after it; the empty text is a failure, [None] a loop that goes on. *)
Fixpoint acquire (d : D) (tries : list (Z * bool * (D → D) * Z)) (deadline maxWaitMs : Z) (key token : str) (ttlMs : Z)
    : option str * D :=
  match tries with
  | [] => (None, d)
  | (now, conn, others, clock) :: tries =>
      let '(ok, d1) := trySet (others d) now conn key token ttlMs in
      if ok then (Some token, d1)
      else if (maxWaitMs =? 0) || (deadline <=? clock) then (Some [], d1)
      else acquire d1 tries deadline maxWaitMs key token ttlMs
  end.

(** The guard: [token_], [held] and what the destructor does. *)
Definition held (token : str) : bool := negb (bool_decide (token = [])).
Definition guard_destroy (d : D) (now : Z) (conn : bool) (key token : str) : D :=
  if bool_decide (token = []) then d else (release d now conn key token).2.

(** ** What Redis documents *)

(** The locks of a server: for a key its token and when it expires. *)
Definition Locks : Type := str → option (str * Z).

Definition live (l : Locks) (now : Z) (k : str) : option str := match l k with Some (t, e) => if now <? e then Some t else None | None => None end.

Definition put (l : Locks) (k : str) (v : option (str * Z)) : Locks := λ k', if decide (k' = k) then v else l k'.

(** The same locks. *)
Definition agrees (l l' : Locks) : Prop := ∀ k, l k = l' k.

(** [SET NX PX] sets a key that is not there or has expired; the script
    deletes a key that has the token; a key that has expired is not there. *)
Record LockServer (locks : D → Locks) : Prop := {
  set_nx d now k t ttl : 0 < ttl →
    let '(r, d') := server d now [ #"SET"; k; t; #"NX"; #"PX"; to_string ttl ] in
    match live (locks d) now k with
    | None => r = Some (Status #"OK") ∧ agrees (locks d') (put (locks d) k (Some (t, now + ttl)))
    | Some _ => r = Some Nil ∧ agrees (locks d') (locks d)
    end;
  set_bad d now k t ttl : ttl ≤ 0 →
    let '(r, d') := server d now [ #"SET"; k; t; #"NX"; #"PX"; to_string ttl ] in
    (∀ x, r ≠ Some (Status x)) ∧ agrees (locks d') (locks d);
  eval d now k t :
    let '(r, d') := server d now [ #"EVAL"; lua; #"1"; k; t ] in
    if bool_decide (live (locks d) now k = Some t) then r = Some (Integer 1) ∧ agrees (locks d') (put (locks d) k None)
    else r = Some (Integer 0) ∧ agrees (locks d') (locks d);
  get_key d now k :
    let '(r, d') := server d now [ #"GET"; k ] in
    r = Some (match live (locks d) now k with Some t => Text t | None => Nil end) ∧ agrees (locks d') (locks d)
}.

(** ** Histories *)

(** What the clients do to one server: the time, whether there was a
    connection, and the call. *)
Inductive Op := Try (ttl : Z) (key token : str) | Free (key token : str) | Ask (key token : str).

Record Event := mkEvent { e_time : Z; e_conn : bool; e_op : Op }.

Definition do_op (d : D) (e : Event) : bool * D :=
  match e_op e with
  | Try ttl k t => trySet d (e_time e) (e_conn e) k t ttl
  | Free k t => release d (e_time e) (e_conn e) k t
  | Ask k t => isHeldByMe d (e_time e) (e_conn e) k t
  end.

Fixpoint run_ops (d : D) (es : list Event) : list bool * D :=
  match es with [] => ([], d) | e :: es => let '(b, d1) := do_op d e in let '(bs, d2) := run_ops d1 es in (b :: bs, d2) end.

(** [acquire] ends with the first attempt after its deadline, if not before,
    and gives the token or nothing. *)
Theorem acquire_ends (d : D) (tries : list (Z * bool * (D → D) * Z)) (deadline maxWaitMs : Z) (key token : str) (ttlMs : Z) :
  Exists (λ x, deadline ≤ x.2) tries →
  ∃ r, (acquire d tries deadline maxWaitMs key token ttlMs).1 = Some r ∧ (r = [] ∨ r = token).
Proof.
  intros Hx. revert d. induction tries as [|[[[now conn] others] clock] tries IH]; intros d; [by apply Exists_nil in Hx|]. cbn [acquire].
  destruct (trySet (others d) now conn key token ttlMs) as [[] d1]; [by exists token; auto|].
  destruct ((maxWaitMs =? 0) || (deadline <=? clock)) eqn:E; [by exists []; auto|].
  apply IH. apply Exists_cons in Hx as [Hx|Hx]; [|done]. apply orb_false_iff in E as [_ E]. cbn in Hx. apply Z.leb_gt in E. lia.
Qed.

Context (locks : D → Locks) (HS : LockServer locks).

Lemma put_same l k v : put l k v k = v.
Proof. unfold put. by rewrite decide_True. Qed.

Lemma put_other l k v k' : k' ≠ k → put l k v k' = l k'.
Proof. intros Hk. unfold put. by rewrite decide_False. Qed.

(** An attempt is granted exactly when the key is free. *)
Lemma trySet_spec d now conn k t ttl :
  let '(b, d') := trySet d now conn k t ttl in
  if b then live (locks d) now (c_str k) = None ∧ agrees (locks d') (put (locks d) (c_str k) (Some (c_str t, now + ttl))) ∧ 0 < ttl ∧ conn = true
  else agrees (locks d') (locks d) ∧ (conn = true → 0 < ttl → is_Some (live (locks d) now (c_str k))).
Proof.
  unfold trySet, SET_NX. destruct conn; [|by split]. destruct (decide (0 < ttl)) as [Ht|Ht].
  - pose proof (set_nx _ HS d now (c_str k) (c_str t) ttl Ht) as Hs. destruct (server d now _) as [r d'].
    destruct (live (locks d) now (c_str k)); destruct Hs as [-> Hl]; [by split|]. by rewrite bool_decide_true.
  - pose proof (set_bad _ HS d now (c_str k) (c_str t) ttl ltac:(lia)) as Hs. destruct (server d now _) as [r d'].
    destruct Hs as [Hr Hl]. destruct r as [[]|]; try (by split). by destruct (Hr s).
Qed.

Lemma release_spec d now conn k t :
  let '(b, d') := release d now conn k t in
  if b then live (locks d) now (c_str k) = Some (c_str t) ∧ agrees (locks d') (put (locks d) (c_str k) None)
  else agrees (locks d') (locks d) ∧ (conn = true → t ≠ [] → live (locks d) now (c_str k) ≠ Some (c_str t)).
Proof.
  unfold release, EVAL. destruct (decide (t = [])) as [->|Ht]; [by rewrite bool_decide_true|]. rewrite bool_decide_false by done.
  destruct conn; [|by split]. pose proof (eval _ HS d now (c_str k) (c_str t)) as He. destruct (server d now _) as [r d'].
  destruct (bool_decide (live (locks d) now (c_str k) = Some (c_str t))) eqn:E; destruct He as [-> Hl]; cbn.
  - apply bool_decide_eq_true in E. by split.
  - apply bool_decide_eq_false in E. by split.
Qed.

Lemma isHeldByMe_spec d now conn k t :
  let '(b, d') := isHeldByMe d now conn k t in
  agrees (locks d') (locks d) ∧ (conn = true → t ≠ [] → "000"%char ∉ t → (b = true ↔ live (locks d) now (c_str k) = Some t)).
Proof.
  unfold isHeldByMe, DbPool.GET. destruct (decide (t = [])) as [->|Ht]; [by rewrite bool_decide_true|]. rewrite bool_decide_false by done.
  destruct conn; [|by split]. pose proof (get_key _ HS d now (c_str k)) as Hg. destruct (server d now _) as [r d'].
  destruct Hg as [-> Hl]. split; [done|]. intros _ _ _. destruct (live _ _ _) as [t'|]; cbn [reply_str]; rewrite bool_decide_eq_true; naive_solver.
Qed.

(** The release of a lock with its token. *)
Definition frees (k t : str) (e : Event) : Prop := ∃ k' t', e_op e = Free k' t' ∧ c_str k' = c_str k ∧ c_str t' = c_str t.

(** A lock stays until it is released or expires. *)
Lemma lock_stays k t till es d : locks d (c_str k) = Some (c_str t, till) → Forall (λ e, e_time e < till) es →
  Exists (frees k t) es ∨ locks (run_ops d es).2 (c_str k) = Some (c_str t, till).
Proof.
  revert d. induction es as [|e es IH]; intros d Hd Hf; [by right|]. apply Forall_cons in Hf as [He Hf]. cbn [run_ops].
  assert (Hlive : live (locks d) (e_time e) (c_str k) = Some (c_str t)) by (unfold live; rewrite Hd, (proj2 (Z.ltb_lt _ _)) by lia; done).
  assert (Hone : frees k t e ∨ locks (do_op d e).2 (c_str k) = Some (c_str t, till)).
  { unfold do_op. destruct (e_op e) as [ttl k' t'|k' t'|k' t'] eqn:Eo.
    - pose proof (trySet_spec d (e_time e) (e_conn e) k' t' ttl) as Hs. destruct (trySet d _ _ k' t' ttl) as [b d']. right. cbn [snd].
      destruct b; [|destruct Hs as [Hs _]; by rewrite Hs]. destruct Hs as (Hl & Hs & _). rewrite Hs.
      destruct (decide (c_str k = c_str k')) as [E|E]; [rewrite <-E, Hlive in Hl; discriminate Hl|by rewrite put_other].
    - pose proof (release_spec d (e_time e) (e_conn e) k' t') as Hs. destruct (release d _ _ k' t') as [b d']. cbn [snd].
      destruct b; [|right; destruct Hs as [Hs _]; by rewrite Hs]. destruct Hs as (Hl & Hs).
      destruct (decide (c_str k = c_str k')) as [E|E]; [|right; by rewrite Hs, put_other].
      left. exists k', t'. rewrite <-E, Hlive in Hl. split_and!; congruence.
    - pose proof (isHeldByMe_spec d (e_time e) (e_conn e) k' t') as Hs. destruct (isHeldByMe d _ _ k' t') as [b d']. right.
      cbn [snd]. destruct Hs as [Hs _]. by rewrite Hs. }
  destruct Hone as [Hone|Hone]; [by left; constructor|]. destruct (do_op d e) as [b d1]. cbn [snd] in Hone.
  destruct (IH d1 Hone Hf) as [Hx|Hx]; [by left; apply Exists_cons_tl|right]. by destruct (run_ops d1 es).
Qed.

(** C24: Mutual exclusion.  When two attempts on a key are granted, whatever the
    clients do in between, then by the time of the second the first lock has
    expired, or it was released with its own token. *)
Theorem mutual_exclusion (d d1 d2 d3 : D) (a1 a2 ttl1 ttl2 : Z) (c1 c2 : bool) (k k' t1 t2 : str) (es : list Event) (bs : list bool)
    (H1 : trySet d a1 c1 k t1 ttl1 = (true, d1)) (Hes : run_ops d1 es = (bs, d2)) (Ht : Forall (λ e, e_time e ≤ a2) es)
    (H2 : trySet d2 a2 c2 k' t2 ttl2 = (true, d3)) (Hk : c_str k' = c_str k) :
  a1 + ttl1 ≤ a2 ∨ Exists (frees k t1) es.
Proof.
  pose proof (trySet_spec d a1 c1 k t1 ttl1) as S1. rewrite H1 in S1. destruct S1 as (_ & E1 & _).
  pose proof (trySet_spec d2 a2 c2 k' t2 ttl2) as S2. rewrite H2 in S2. destruct S2 as (L2 & _ & _).
  destruct (Z.le_gt_cases (a1 + ttl1) a2) as [Hle|Hgt]; [by left|right].
  destruct (lock_stays k t1 (a1 + ttl1) es d1) as [Hx|Hx]; [by rewrite E1, put_same|eapply Forall_impl; [exact Ht|]; simpl; lia|done|].
  rewrite Hes in Hx. unfold live in L2. rewrite Hk in L2. cbn [snd] in Hx. rewrite Hx, (proj2 (Z.ltb_lt _ _)) in L2 by lia. discriminate L2.
Qed.
End Lock.

(** ** Tokens of one process differ *)

Lemma digits_no_dash n : 0 ≤ n → "-"%char ∉ digits 16 n.
Proof.
  intros Hn Hin. pose proof (scan_digits_digits 16 n [] ltac:(lia) Hn I) as Hs. rewrite app_nil_r in Hs. revert Hs Hin.
  assert (Hg : ∀ s z, scan_digits 16 s z = (n, []) → "-"%char ∈ s → False); [|exact (Hg _ _)].
  clear. induction s as [|c s IH]; intros z Hs Hin; [by apply elem_of_nil in Hin|]. cbn [scan_digits] in Hs.
  destruct (digit_in 16 c) eqn:E; [|discriminate Hs]. apply elem_of_cons in Hin as [<-|Hin]; [discriminate E|by eapply IH].
Qed.

Lemma digits_inj n m : 0 ≤ n → 0 ≤ m → digits 16 n = digits 16 m → n = m.
Proof.
  intros Hn Hm E. pose proof (scan_digits_digits 16 n [] ltac:(lia) Hn I) as H1.
  pose proof (scan_digits_digits 16 m [] ltac:(lia) Hm I) as H2. rewrite E, H2 in H1. congruence.
Qed.

(** Whatever the clock and the random numbers are, two values of the counter
    give two tokens. *)
Theorem tokens_differ (now now' c c' r r' : Z) : 0 ≤ c < 2 ^ 64 → 0 ≤ c' < 2 ^ 64 →
  generateToken now c r = generateToken now' c' r' → c = c'.
Proof.
  intros Hc Hc' E. unfold generateToken in E. rewrite !(u64_small c), !(u64_small c') in E by done.
  assert (Hu : ∀ z, 0 ≤ u64 z) by (intros z; apply Z.mod_pos_bound; lia).
  apply split_first in E as [_ E]; [|by apply digits_no_dash..].
  apply split_first in E as [E _]; [|apply digits_no_dash; lia..]. apply digits_inj in E; lia.
Qed.

(** ** A small server *)

Definition small_redis (d : gmap str (str * Z)) (now : Z) (args : list str) : option Value * gmap str (str * Z) :=
  let at_ k := match d !! k with Some (t, e) => if now <? e then Some t else None | None => None end in
  match args with
  | [ _; k; t; _; _; ttl ] =>
      let n := if bool_decide (head ttl = Some "-"%char) then 0 else default 0 (snd <$> scan_int ttl) in
      if 0 <? n then match at_ k with None => (Some (Status #"OK"), <[k := (t, now + n)]> d) | Some _ => (Some Nil, d) end
      else (Some (Error #"ERR"), d)
  | [ _; _; _; k; t ] => if bool_decide (at_ k = Some t) then (Some (Integer 1), delete k d) else (Some (Integer 0), d)
  | [ _; k ] => (Some (match at_ k with Some t => Text t | None => Nil end), d)
  | _ => (None, d)
  end.

Lemma printed_ttl ttl :
  (if bool_decide (head (to_string ttl) = Some "-"%char) then 0 else default 0 (snd <$> scan_int (to_string ttl))) = Z.max 0 ttl.
Proof.
  unfold to_string. destruct (Z.ltb_spec ttl 0) as [Ht|Ht]; [rewrite bool_decide_true by done; lia|].
  rewrite bool_decide_false.
  - rewrite <-(app_nil_r (to_dec ttl)), scan_int_dec by (lia || done). cbn. lia.
  - unfold to_dec. destruct (digits_cons 10 ttl) as (x & r & -> & Hx); [lia..|]. cbn. intros [= E].
    by destruct (digit_char_class x) as (_ & ? & _); [lia|].
Qed.

Lemma small_redis_locks : LockServer small_redis (λ d k, d !! k).
Proof.
  split; unfold small_redis, live, agrees, put; intros; rewrite ?printed_ttl.
  - rewrite Z.max_r, (proj2 (Z.ltb_lt _ _)) by lia.
    destruct (d !! k) as [[t' e]|] eqn:E; [destruct (now <? e); [by split|]|]; (split; [done|]); intros x;
      (destruct (decide (x = k)) as [->|]; [by rewrite lookup_insert_eq|by rewrite lookup_insert_ne]).
  - rewrite Z.max_l by lia. by split.
  - case_bool_decide; [|by split]. split; [done|]. intros x.
    destruct (decide (x = k)) as [->|]; [by rewrite lookup_delete_eq|by rewrite lookup_delete_ne].
  - by split.
Qed.

(** Two clients: the second is refused while the first has the lock, and is
    granted it when it has expired. *)
Definition contest : list Event :=
  [mkEvent 1010 true (Try 50 #"k" #"b"); mkEvent 1020 true (Free #"k" #"b"); mkEvent 1030 true (Ask #"k" #"a")].

Lemma contest_result :
  let d1 := (trySet small_redis ∅ 1000 true #"k" #"a" 100).2 in
  (run_ops small_redis d1 contest).1 = [false; false; true] ∧
  (trySet small_redis (run_ops small_redis d1 contest).2 1100 true #"k" #"b" 50).1 = true.
Proof. by vm_compute. Qed.

Lemma mutual_exclusion_witness : 1000 + 100 ≤ 1100 ∨ Exists (frees #"k" #"a") contest.
Proof.
  destruct contest_result as [_ Hb]. revert Hb.
  set (d1 := (trySet small_redis ∅ 1000 true #"k" #"a" 100).2). intros Hb.
  destruct (run_ops small_redis d1 contest) as [bs d2] eqn:E. cbn [snd] in Hb.
  destruct (trySet small_redis d2 1100 true #"k" #"b" 50) as [b d3] eqn:E2. cbn [fst] in Hb. subst b.
  apply (mutual_exclusion small_redis (λ d k, d !! k) small_redis_locks ∅ d1 d2 d3 1000 1100 100 50 true true #"k" #"k" #"a" #"b" contest bs).
  - vm_compute. reflexivity.
  - exact E.
  - repeat constructor; cbn; lia.
  - exact E2.
  - reflexivity.
Defined.
