(* ===== verification/EtcdClient.v ===== *)
(** * EtcdClient: the etcd client over the HTTP gateway

    Models [src/util/EtcdClient.h].  What the socket calls return comes with
    each request; JSON is the interface of [Registry.v].  The order in which a
    hash map is walked is unspecified: the lists given to the callback of
    [pollOnce] are finite maps and sets. *)

From S2P Require Import Prelude WebSocketFrame ServiceCatalog Registry RegistryClient.

Open Scope Z_scope.

(** ** base64 *)

(** Three bytes at a time. *)
Fixpoint encode64 (s : str) : str :=
  match s with
  | a :: b :: c :: rest =>
      let v := Z.lor (Z.lor (Z.shiftl (u8_of a) 16) (Z.shiftl (u8_of b) 8)) (u8_of c) in
      base64Char (Z.shiftr v 18) :: base64Char (Z.shiftr v 12) :: base64Char (Z.shiftr v 6) :: base64Char v :: encode64 rest
  | [a; b] =>
      let v := Z.lor (Z.shiftl (u8_of a) 16) (Z.shiftl (u8_of b) 8) in
      [base64Char (Z.shiftr v 18); base64Char (Z.shiftr v 12); base64Char (Z.shiftr v 6); "="%char]
  | [a] =>
      let v := Z.shiftl (u8_of a) 16 in
      [base64Char (Z.shiftr v 18); base64Char (Z.shiftr v 12); "="%char; "="%char]
  | [] => []
  end.

(** The accumulator is an [int] that is shifted without bound: it wraps. *)
Fixpoint decode64_loop (s : str) (val valb : Z) : str :=
  match s with
  | [] => []
  | c :: s =>
      if bool_decide (c = "="%char) || bool_decide (c = LF) || bool_decide (c = CR) then decode64_loop s val valb
      else match char_value c with
           | None => decode64_loop s val valb
           | Some d =>
               let val := i32 (Z.lor (Z.shiftl val 6) d) in
               let valb := valb + 6 in
               if 0 <=? valb then chr (Z.land (Z.shiftr val valb) 255) :: decode64_loop s val (valb - 8)
               else decode64_loop s val valb
           end
  end.

Definition decode64 (s : str) : str := decode64_loop s 0 (-8).

(** ** Ranges *)

(** [range_end]: the last byte is incremented, or a zero byte appended to 0xFF. *)
Definition range_end (prefix : str) : str :=
  match last prefix with
  | None => []
  | Some c => if u8_of c =? 255 then prefix ++ [chr 0] else removelast prefix ++ [chr (u8_of c + 1)]
  end.

(** ** Requests *)

Record EtcdClient := mkEtcd { host_ : str; port_ : Z; apiPrefix_ : str; lastSnapshot_ : gmap str str }.

(** What [connect], the one [send] and [recv] return. *)
Record Call := mkCall { c_connect : Connect; c_sent : Z; c_recv : list str }.

Definition post_text (e : EtcdClient) (path body : str) : str :=
  #"POST " ++ path ++ #" HTTP/1.0" ++ crlf ++ #"Host: " ++ host_ e ++ #":" ++ to_string (port_ e) ++ crlf ++
  #"Content-Type: application/json" ++ crlf ++ #"Content-Length: " ++ to_string (zlen body) ++ crlf ++ #"Connection: close" ++ crlf ++
  crlf ++ body.

(** The body of the reply; empty for a failure. *)
Definition post (e : EtcdClient) (call : Call) (path body : str) : str :=
  match c_connect call with
  | Connected =>
      if c_sent call <? zlen (post_text e path body) then []
      else let resp := mjoin (c_recv call) in
           match find crlf2 resp 0 with None => [] | Some p => drop (p + 4) resp end
  | _ => []
  end.

Definition stoll (s : str) : option Z :=
  match scan_int s with
  | Some (neg, n) => let x := if neg then - n else n in if (- 2 ^ 63 <=? x) && (x <? 2 ^ 63) then Some x else None
  | None => None
  end.

Section Client.
Context {J : Type} `{Json J}.

(** The text of a member that is a string, or the digits of one that is an
    integer; nothing when it is missing or of another type. *)
Context (number_text : J → str → option str).
(** A member that is a text: [None] when there is none, and [Some None] when it
    has another type, which is an exception. *)
Context (text_member : J → str → option (option str)).

(** The outer [None] of these is an exception of [dump]; the bodies are plain
    characters, see [bodies_dump]. *)
Definition grant_body (ttlSec : Z) : option str := dump (jobj [( #"TTL", jint ttlSec)]).

Definition grantLease (e : EtcdClient) (call : Call) (ttlSec : Z) : option Z :=
  body ← grant_body ttlSec;
  let resp := post e call (apiPrefix_ e ++ #"/lease/grant") body in
  Some (if bool_decide (resp = []) then 0 else default 0 (j ← parse resp; t ← number_text j #"ID"; stoll t)).

Definition keepalive_body (leaseId : Z) : option str := dump (jobj [( #"ID", jstr (to_string leaseId))]).

Definition keepAlive (e : EtcdClient) (call : Call) (leaseId : Z) : option Z :=
  body ← keepalive_body leaseId;
  let resp := post e call (apiPrefix_ e ++ #"/lease/keepalive") body in
  Some (if bool_decide (resp = []) then 0
        else default 0 (j ← parse resp; r ← member j #"result"; t ← number_text r #"TTL"; stoi t)).

Definition put_body (key value : str) (leaseId : Z) : option str :=
  dump (jobj ([( #"key", jstr (encode64 key)); ( #"value", jstr (encode64 value))] ++
              (if 0 <? leaseId then [( #"lease", jstr (to_string leaseId))] else []))).

Definition put (e : EtcdClient) (call : Call) (key value : str) (leaseId : Z) : option bool :=
  body ← put_body key value leaseId; Some (negb (bool_decide (post e call (apiPrefix_ e ++ #"/kv/put") body = []))).

Definition del_body (key : str) : option str := dump (jobj [( #"key", jstr (encode64 key))]).

Definition del (e : EtcdClient) (call : Call) (key : str) : option bool :=
  body ← del_body key; Some (negb (bool_decide (post e call (apiPrefix_ e ++ #"/kv/deleterange") body = []))).

(** One element of [kvs]; [None] is an exception, which is not caught. *)
Definition kv_of (j : J) : option (str * str) :=
  let get k := match text_member j k with None => Some [] | Some None => None | Some (Some s) => Some (decode64 s) end in
  k ← get #"key"; v ← get #"value"; Some (k, v).

Definition range_body (prefix : str) : option str :=
  dump (jobj [( #"key", jstr (encode64 prefix)); ( #"range_end", jstr (encode64 (range_end prefix)))]).

Definition getPrefix (e : EtcdClient) (call : Call) (prefix : str) : option (list (str * str)) :=
  body ← range_body prefix;
  let resp := post e call (apiPrefix_ e ++ #"/kv/range") body in
  if bool_decide (resp = []) then Some []
  else match parse resp with
       | None => Some []
       | Some j => mapM kv_of (elements j #"kvs")
       end.

(** What the callback is given. *)
Record Changes := mkChanges { added : gmap str str; removed : gset str; updated : gmap str str }.

Definition changed (last : gmap str str) (kv : str * str) : bool :=
  match last !! kv.1 with Some v => negb (bool_decide (v = kv.2)) | None => false end.

Definition changes (last cur : gmap str str) : Changes :=
  mkChanges (cur ∖ last) (dom last ∖ dom cur)
    (filter (λ kv, changed last kv = true) cur).

Definition no_change (c : Changes) : bool :=
  bool_decide (added c = ∅) && bool_decide (removed c = ∅) && bool_decide (updated c = ∅).

Definition snapshot_of (kvs : list (str * str)) : gmap str str := foldl (λ m kv, <[kv.1 := kv.2]> m) ∅ kvs.

(** [None] where [getPrefix] throws. *)
Definition pollOnce (e : EtcdClient) (call : Call) (prefix : str) : option (option Changes * EtcdClient) :=
  kvs ← getPrefix e call prefix;
  let cur := snapshot_of kvs in
  let c := changes (lastSnapshot_ e) cur in
  Some (if no_change c then None else Some c, mkEtcd (host_ e) (port_ e) (apiPrefix_ e) cur).
End Client.

(** ** The bodies: plain characters, whatever the keys and values are *)

Lemma utf8_plain (s : str) : Forall (λ c, u8_of c < 128) s → utf8 s = true.
Proof. induction 1 as [|c s Hc Hs IH]; [done|]. cbn [utf8]. by rewrite (proj2 (Z.ltb_lt _ _)). Qed.

Lemma base64Char_ascii n : u8_of (base64Char n) < 128.
Proof.
  assert (H : forallb (λ c, u8_of c <? 128) base64Chars = true) by (vm_compute; reflexivity).
  unfold base64Char. destruct (nth_in_or_default (Z.to_nat (Z.land n 0x3F)) base64Chars "="%char) as [Hin| ->]; [|by vm_compute].
  rewrite forallb_forall in H. by apply Z.ltb_lt, H.
Qed.

Lemma encode64_ascii (s : str) : Forall (λ c, u8_of c < 128) (encode64 s).
Proof.
  assert (H : ∀ n s, (length s ≤ n)%nat → Forall (λ c, u8_of c < 128) (encode64 s)); [|by apply (H (length s))].
  clear s. induction n as [|n IH]; intros s Hn; [by destruct s; [constructor|cbn in Hn; lia]|].
  destruct s as [|a [|b [|c rest]]]; cbn [encode64]; [constructor|repeat constructor; try apply base64Char_ascii; by vm_compute..|].
  repeat (constructor; [apply base64Char_ascii|]). apply IH. cbn in Hn. lia.
Qed.

Lemma to_string_ascii z : Forall (λ c, u8_of c < 128) (to_string z).
Proof.
  assert (Hd : ∀ n, 0 ≤ n → Forall (λ c, u8_of c < 128) (to_dec n)).
  { intros n Hn. destruct (HttpClient.to_dec_digits n Hn) as [Hf _]. eapply Forall_impl; [exact Hf|]. intros c [d Hc].
    destruct c as [[] [] [] [] [] [] [] []]; try (by vm_compute); by vm_compute in Hc. }
  unfold to_string. case_match eqn:E; [constructor; [by vm_compute|]|]; apply Hd; lia.
Qed.

Lemma bodies_dump {J : Type} `{JsonLaws J} (key value : str) (n ttl : Z) : - 2 ^ 63 ≤ ttl < 2 ^ 63 →
  is_Some (grant_body ttl) ∧ is_Some (keepalive_body n) ∧ is_Some (put_body key value n) ∧ is_Some (del_body key) ∧ is_Some (range_body key).
Proof.
  assert (Hd : ∀ j, dumpable j → is_Some (dump j)) by (intros j Hj; destruct (dump_parse j Hj) as (t & -> & _); eauto).
  assert (H64 : ∀ s, dumpable (jstr (encode64 s))) by (intros; apply dumpable_str, utf8_plain, encode64_ascii).
  assert (Hn : dumpable (jstr (to_string n))) by (apply dumpable_str, utf8_plain, to_string_ascii).
  intros Ht. split_and!; apply Hd.
  - apply dumpable_obj; [no_dup|]. each_field ltac:(by apply dumpable_int).
  - apply dumpable_obj; [no_dup|]. each_field ltac:(done).
  - apply dumpable_obj; [by destruct (0 <? n); no_dup|]. apply Forall_app. split; [each_field ltac:(done)|].
    destruct (0 <? n); each_field ltac:(done).
  - apply dumpable_obj; [no_dup|]. each_field ltac:(done).
  - apply dumpable_obj; [no_dup|]. each_field ltac:(done).
Qed.

(** ** base64: what is decoded is what was encoded *)

Lemma low_bits x n : 0 ≤ n ≤ 24 → Z.land (Z.shiftr (i32 x) n) 255 = (x / 2 ^ n) mod 256.
Proof.
  intros Hn. change 255 with (Z.ones 8). rewrite Z.land_ones, Z.shiftr_div_pow2 by lia. unfold i32.
  set (q := (x + 2 ^ 31) / 2 ^ 32).
  replace ((x + 2 ^ 31) mod 2 ^ 32 - 2 ^ 31) with (x + (- q * 2 ^ (24 - n) * 2 ^ 8) * 2 ^ n).
  - rewrite Z.div_add by lia. rewrite Z.mod_add by lia. done.
  - assert (E : 2 ^ (24 - n) * 2 ^ 8 * 2 ^ n = 2 ^ 32) by (rewrite <-!Z.pow_add_r by lia; f_equal; lia).
    replace (- q * 2 ^ (24 - n) * 2 ^ 8 * 2 ^ n) with (- q * (2 ^ (24 - n) * 2 ^ 8 * 2 ^ n)) by ring.
    rewrite E, Z.mod_eq by lia. fold q. ring.
Qed.

Lemma i32_mod x k : 0 ≤ k ≤ 32 → i32 x mod 2 ^ k = x mod 2 ^ k.
Proof.
  intros Hk. unfold i32. set (q := (x + 2 ^ 31) / 2 ^ 32).
  replace ((x + 2 ^ 31) mod 2 ^ 32 - 2 ^ 31) with (x + (- q * 2 ^ (32 - k)) * 2 ^ k); [by rewrite Z.mod_add by lia|].
  assert (E : 2 ^ (32 - k) * 2 ^ k = 2 ^ 32) by (rewrite <-Z.pow_add_r by lia; f_equal; lia).
  rewrite <-Z.mul_assoc, E, Z.mod_eq by lia. fold q. ring.
Qed.

Lemma base64Char_plain n : bool_decide (base64Char n = "="%char) || bool_decide (base64Char n = LF) || bool_decide (base64Char n = CR) = false.
Proof.
  pose proof (char_value_base64 n) as Hn. rewrite !orb_false_iff, !bool_decide_eq_false.
  split_and!; intros E; rewrite E in Hn; vm_compute in Hn; discriminate Hn.
Qed.

(** One character of the alphabet. *)
Lemma decode_char n s val valb :
  decode64_loop (base64Char n :: s) val valb =
  let v := i32 (val * 64 + n mod 64) in
  if 0 <=? valb + 6 then chr (Z.land (Z.shiftr v (valb + 6)) 255) :: decode64_loop s v (valb + 6 - 8) else decode64_loop s v (valb + 6).
Proof.
  cbn [decode64_loop]. rewrite base64Char_plain, char_value_base64. cbv zeta. rewrite lor_shiftl_add; [done|lia|].
  change (2 ^ 6) with 64. apply Z.mod_pos_bound. lia.
Qed.

Lemma tail2 u y : 0 ≤ y < 64 → ((u * 64 + y) / 16) mod 256 = (u mod 64 * 64 + y) / 16.
Proof.
  intros Hy. rewrite (Z.div_mod u 64) at 1 by lia. pose proof (Z.mod_pos_bound u 64 ltac:(lia)).
  replace ((64 * (u / 64) + u mod 64) * 64 + y) with (u mod 64 * 64 + y + u / 64 * 256 * 16) by ring.
  rewrite Z.div_add, Z.mod_add by lia. apply Z.mod_small. split; [apply Z.div_pos; lia|apply Z.div_lt_upper_bound; lia].
Qed.

Lemma tail3 u z : 0 ≤ z < 64 → ((u * 64 + z) / 4) mod 256 = (u mod 16 * 64 + z) / 4.
Proof.
  intros Hz. rewrite (Z.div_mod u 16) at 1 by lia. pose proof (Z.mod_pos_bound u 16 ltac:(lia)).
  replace ((16 * (u / 16) + u mod 16) * 64 + z) with (u mod 16 * 64 + z + u / 16 * 256 * 4) by ring.
  rewrite Z.div_add, Z.mod_add by lia. apply Z.mod_small. split; [apply Z.div_pos; lia|apply Z.div_lt_upper_bound; lia].
Qed.

Lemma tail4 u t : 0 ≤ t < 64 → ((u * 64 + t) / 1) mod 256 = u mod 4 * 64 + t.
Proof.
  intros Ht. rewrite Z.div_1_r. rewrite (Z.div_mod u 4) at 1 by lia. pose proof (Z.mod_pos_bound u 4 ltac:(lia)).
  replace ((4 * (u / 4) + u mod 4) * 64 + t) with (u mod 4 * 64 + t + u / 4 * 256) by ring.
  rewrite Z.mod_add by lia. apply Z.mod_small. lia.
Qed.

Lemma i32_step v x k : 0 ≤ k ≤ 6 → i32 (v * 64 + x) mod 2 ^ k = x mod 2 ^ k.
Proof.
  intros Hk. rewrite i32_mod by lia. replace (v * 64 + x) with (x + v * 2 ^ (6 - k) * 2 ^ k); [apply Z.mod_add; lia|].
  rewrite <-Z.mul_assoc, <-Z.pow_add_r by lia. replace (6 - k + k) with 6 by lia. lia.
Qed.

(** Characters in groups of four, three and two, whatever was there before. *)
Definition out2 (a b : Z) : ascii := chr ((a mod 64 * 64 + b mod 64) / 16).
Definition out3 (b c : Z) : ascii := chr ((b mod 64 mod 16 * 64 + c mod 64) / 4).
Definition out4 (c d : Z) : ascii := chr (c mod 64 mod 4 * 64 + d mod 64).

Lemma decode_two a b rest v :
  ∃ v' : Z, decode64_loop (base64Char a :: base64Char b :: rest) v (-8) = out2 a b :: decode64_loop rest (i32 (v' * 64 + b mod 64)) (-4).
Proof.
  pose proof (Z.mod_pos_bound a 64 ltac:(lia)). pose proof (Z.mod_pos_bound b 64 ltac:(lia)).
  rewrite decode_char. change (0 <=? -8 + 6) with false. cbv zeta iota. rewrite decode_char. change (0 <=? -8 + 6 + 6) with true. cbv zeta iota.
  change (-8 + 6 + 6) with 4. rewrite low_bits by lia. change (2 ^ 4) with 16. rewrite tail2 by lia.
  pose proof (i32_step v (a mod 64) 6 ltac:(lia)) as E. change (2 ^ 6) with 64 in E. rewrite E, Zmod_mod. by eexists.
Qed.

Lemma decode_three b c rest v : decode64_loop (base64Char c :: rest) (i32 (v * 64 + b mod 64)) (-4)
  = out3 b c :: decode64_loop rest (i32 (i32 (v * 64 + b mod 64) * 64 + c mod 64)) (-6).
Proof.
  pose proof (Z.mod_pos_bound c 64 ltac:(lia)). rewrite decode_char. change (0 <=? -4 + 6) with true. cbv zeta iota.
  change (-4 + 6) with 2. rewrite low_bits by lia. change (2 ^ 2) with 4. rewrite tail3 by lia.
  pose proof (i32_step v (b mod 64) 4 ltac:(lia)) as E. change (2 ^ 4) with 16 in E. by rewrite E.
Qed.

Lemma decode_four c d rest v : decode64_loop (base64Char d :: rest) (i32 (v * 64 + c mod 64)) (-6)
  = out4 c d :: decode64_loop rest (i32 (i32 (v * 64 + c mod 64) * 64 + d mod 64)) (-8).
Proof.
  pose proof (Z.mod_pos_bound d 64 ltac:(lia)). rewrite decode_char. change (0 <=? -6 + 6) with true. cbv zeta iota.
  change (-6 + 6) with 0. rewrite low_bits by lia. change (2 ^ 0) with 1. rewrite tail4 by lia.
  pose proof (i32_step v (c mod 64) 2 ltac:(lia)) as E. change (2 ^ 2) with 4 in E. by rewrite E.
Qed.

Lemma outs (a b c : Z) : 0 ≤ a < 256 → 0 ≤ b < 256 → 0 ≤ c < 256 →
  let v := a * 2 ^ 16 + b * 2 ^ 8 + c in
  out2 (v / 2 ^ 18) (v / 2 ^ 12) = chr a ∧ out3 (v / 2 ^ 12) (v / 2 ^ 6) = chr b ∧ out4 (v / 2 ^ 6) v = chr c.
Proof.
  intros Ha Hb Hc v. unfold out2, out3, out4.
  change (2 ^ 18) with 262144. change (2 ^ 12) with 4096. change (2 ^ 6) with 64. unfold v. change (2 ^ 16) with 65536. change (2 ^ 8) with 256.
  split_and!; f_equal; Z.to_euclidean_division_equations; lia.
Qed.

(** What [unbase64] reads is what [base64] wrote, for every text: the
    accumulator overflows its [int], but the bits that are read are not those
    that are lost. *)
Theorem decode64_encode64 (s : str) : decode64 (encode64 s) = s.
Proof.
  assert (H : ∀ n s v, (length s ≤ n)%nat → decode64_loop (encode64 s) v (-8) = s); [|by apply (H (length s))].
  clear s. induction n as [|n IH]; intros s v Hn; [by destruct s; [|cbn in Hn; lia]|].
  pose proof u8_of_range as Hb. destruct s as [|a [|b [|c rest]]]; [done| | |]; cbn [encode64].
  - pose proof (Hb a). destruct (outs (u8_of a) 0 0) as (H1 & _); [lia..|]. rewrite Z.shiftl_mul_pow2, !Z.shiftr_div_pow2 by lia.
    replace (u8_of a * 2 ^ 16) with (u8_of a * 2 ^ 16 + 0 * 2 ^ 8 + 0) by lia.
    destruct (decode_two ((u8_of a * 2 ^ 16 + 0 * 2 ^ 8 + 0) / 2 ^ 18) ((u8_of a * 2 ^ 16 + 0 * 2 ^ 8 + 0) / 2 ^ 12) [ "="%char; "="%char ] v) as [v' ->].
    rewrite H1, chr_u8_of. reflexivity.
  - pose proof (Hb a). pose proof (Hb b). destruct (outs (u8_of a) (u8_of b) 0) as (H1 & H2 & _); [lia..|].
    pose proof (base64_group (u8_of a) (u8_of b) 0 ltac:(lia) ltac:(lia) ltac:(lia)) as E. rewrite Z.lor_0_r in E. rewrite E, !Z.shiftr_div_pow2 by lia.
    set (w := u8_of a * 2 ^ 16 + u8_of b * 2 ^ 8 + 0) in *. destruct (decode_two (w / 2 ^ 18) (w / 2 ^ 12) [base64Char (w / 2 ^ 6); "="%char ] v) as [v' ->].
    rewrite decode_three, H1, H2, !chr_u8_of. reflexivity.
  - pose proof (Hb a). pose proof (Hb b). pose proof (Hb c). destruct (outs (u8_of a) (u8_of b) (u8_of c)) as (K1 & K2 & K3); [lia..|].
    rewrite base64_group, !Z.shiftr_div_pow2 by lia.
    set (w := u8_of a * 2 ^ 16 + u8_of b * 2 ^ 8 + u8_of c) in *.
    destruct (decode_two (w / 2 ^ 18) (w / 2 ^ 12) (base64Char (w / 2 ^ 6) :: base64Char w :: encode64 rest) v) as [v' ->].
    rewrite decode_three, decode_four, K1, K2, K3, !chr_u8_of. rewrite IH by (cbn in Hn; lia). done.
Qed.

(** ** Ranges: the keys between a prefix and its range end are those that have
    the prefix, unless the prefix ends in 0xFF. *)

Lemma range_end_one c : u8_of c ≠ 255 → range_end [c] = [chr (u8_of c + 1)].
Proof. intros Hc. unfold range_end. cbn [last]. by rewrite (proj2 (Z.eqb_neq _ _)) by done. Qed.

Lemma range_end_cons c p : p ≠ [] → range_end (c :: p) = c :: range_end p.
Proof.
  intros Hp. unfold range_end. destruct p as [|d p]; [done|]. change (last (c :: d :: p)) with (last (d :: p)).
  destruct (last (d :: p)) as [x|] eqn:E; [by destruct (u8_of x =? 255)|]. by apply last_None in E.
Qed.

Theorem range_is_prefix (p k : str) : p ≠ [] → last p ≠ Some (chr 255) →
  (text_lt k p = false ∧ text_lt k (range_end p) = true) ↔ p `prefix_of` k.
Proof.
  intros Hp. revert k. induction p as [|c p IH]; [done|]. intros k Hl. destruct (decide (p = [])) as [->|Hne].
  - assert (Hc : u8_of c ≠ 255). { intros E. apply Hl. cbn. f_equal. by rewrite <-E, chr_u8_of. }
    rewrite range_end_one by done. pose proof (u8_of_range c). destruct k as [|x k]; cbn [text_lt].
    + split; [by intros [? _]|]. intros [? [=]].
    + rewrite u8_of_chr by lia. pose proof (u8_of_range x).
      destruct (Z.ltb_spec (u8_of x) (u8_of c)), (Z.ltb_spec (u8_of c) (u8_of x)), (Z.ltb_spec (u8_of x) (u8_of c + 1)), (Z.ltb_spec (u8_of c + 1) (u8_of x));
        try lia; (split; [intros [? ?]; try done|intros [t [= -> ->]]; try lia]).
      * by destruct k.
      * assert (x = c) as -> by (apply u8_of_inj; lia). by exists k.
      * by destruct t.
  - rewrite range_end_cons by done. destruct k as [|x k]; cbn [text_lt].
    + split; [by intros [? _]|]. intros [? [=]].
    + assert (Hl' : last p ≠ Some (chr 255)) by (destruct p; [done|exact Hl]). specialize (IH Hne k Hl').
      destruct (Z.ltb_spec (u8_of x) (u8_of c)), (Z.ltb_spec (u8_of c) (u8_of x)); try lia; (split; [try (intros [? ?]; done)|intros [t [= E1 E2]]; subst; try lia]).
      * rewrite IH. intros [t ->]. assert (x = c) as -> by (apply u8_of_inj; lia). by exists t.
      * apply IH. by exists t.
Qed.

(** ** Polling *)

Lemma changed_spec last k v : changed last (k, v) = true ↔ ∃ v', last !! k = Some v' ∧ v' ≠ v.
Proof.
  unfold changed. cbn [fst snd]. destruct (last !! k) as [v'|]; [|naive_solver].
  rewrite negb_true_iff, bool_decide_eq_false. naive_solver.
Qed.

(** What the callback is told takes the last snapshot to the new one: the
    removed keys dropped, the others with their new values; and it is called
    exactly when the two differ. *)
Theorem changes_apply (last cur : gmap str str) :
  let c := changes last cur in
  added c ∪ updated c ∪ filter (λ kv, kv.1 ∉ removed c) last = cur ∧ (no_change c = true ↔ last = cur).
Proof.
  intros c. assert (Hap : added c ∪ updated c ∪ filter (λ kv, kv.1 ∉ removed c) last = cur).
  { apply map_eq. intros k. unfold c, changes. cbn [added updated removed]. rewrite !lookup_union, map_lookup_filter, lookup_difference.
    destruct (cur !! k) as [v|] eqn:Ec, (last !! k) as [v'|] eqn:El; cbn.
    - destruct (decide (changed last (k, v) = true)) as [Hd|Hd]; rewrite map_lookup_filter, El; cbn.
      + rewrite option_guard_True by done. rewrite option_guard_True by (apply elem_of_dom_2 in Ec; set_solver). done.
      + rewrite option_guard_False by done. rewrite option_guard_True by (apply elem_of_dom_2 in Ec; set_solver). cbn.
        destruct (decide (v' = v)) as [->|Hv]; [done|]. destruct Hd. apply changed_spec. eauto.
    - rewrite map_lookup_filter, El. cbn. by destruct (guard (changed last (k, v) = true)).
    - rewrite map_lookup_filter, El. cbn. rewrite option_guard_False; [done|]. intros Hn. apply Hn.
      apply elem_of_difference. split; [by apply elem_of_dom_2 in El|by apply not_elem_of_dom].
    - by rewrite map_lookup_filter, El. }
  split; [done|]. unfold no_change. rewrite !andb_true_iff, !bool_decide_eq_true. split.
  - intros [[Ha Hr] Hu]. rewrite <-Hap, Ha, Hu, !(left_id_L ∅ (∪)). rewrite Hr. symmetry. apply map_filter_id. set_solver.
  - intros ->. unfold c, changes. cbn [added updated removed]. split_and!; [apply map_difference_diag|set_solver|].
    apply map_empty_filter. intros k v Hk Hd. apply changed_spec in Hd as (v' & E & Hv). congruence.
Qed.

(** A request that fails looks like an empty answer: every service is reported
    as removed. *)
Example failed_poll_removes_all :
  let e := mkEtcd #"h" 2379 #"/v3beta" {[ #"services/a" := #"1" ]} in
  pollOnce (J := tree) (λ _ _, None) e (mkCall Refused 0 []) #"services/"
  = Some (Some (mkChanges ∅ {[ #"services/a" ]} ∅), mkEtcd #"h" 2379 #"/v3beta" ∅).
Proof. vm_compute. reflexivity. Qed.

(** The status of the reply is not looked at: an error with a body counts as
    done. *)
Example refused_put_succeeds :
  put (J := tree) (mkEtcd #"h" 2379 #"/v3beta" ∅)
    (mkCall Connected 1000000 [ #"HTTP/1.0 400 Bad Request" ++ crlf2 ++ #"{}" ]) #"k" #"v" 0 = Some true.
Proof. vm_compute. reflexivity. Qed.

(** After a prefix that ends in 0xFF only the prefix itself is listed. *)
Example range_after_255 :
  let p := [ chr 97; chr 255 ] in
  text_lt (p ++ #"x") p = false ∧ text_lt (p ++ #"x") (range_end p) = false.
Proof. vm_compute. done. Qed.

Lemma decode64_witness : decode64 (encode64 #"services/logic/A") = #"services/logic/A".
Proof. apply decode64_encode64. Defined.

Lemma range_is_prefix_witness : text_lt #"services/b" #"services/" = false ∧ text_lt #"services/b" (range_end #"services/") = true.
Proof. apply range_is_prefix; [by apply (bool_decide_unpack _)..|]. by exists #"b". Defined.
