(* ===== verification/Kafka.v ===== *)
(** * Kafka: the producer and the consumer around librdkafka

    Models [src/util/KafkaProducer.h] and [src/util/KafkaConsumer.h].  What
    librdkafka answers comes with each step: whether it could be set up, whether
    a message was queued, the delivery reports, the messages consumed. *)

From S2P Require Import Prelude.

Open Scope Z_scope.

Fixpoint join_brokers (brokers : list str) : str :=
  match brokers with [] => [] | [b] => b | b :: rest => b ++ #"," ++ join_brokers rest end.

Module Producer.

(** A callback is a place on the heap: its number.  [queue] has the messages
    that wait for their report, with their callback; [called] what callbacks
    were told, [deleted] the places given back, [lost] those that no report
    will give back any more. *)
Record Producer := mkProducer {
  brokerList_ : str;
  clientId_ : str;
  transactionalId_ : str;
  transactionTimeoutMs_ : Z;
  running_ : bool;
  producer_ : bool;
  droppedCount_ : Z; successDeliveries_ : Z; failedDeliveries_ : Z;
  next : nat; queue : list (option nat); called : list (nat * bool); deleted : list nat; lost : list nat
}.

Definition new (brokers : list str) (clientId : str) : Producer :=
  mkProducer (join_brokers brokers) clientId [] 10000 false false 0 0 0 0 [] [] [] [].

Definition enableTransactions (p : Producer) (id : str) (timeoutMs : Z) : Producer :=
  mkProducer (brokerList_ p) (clientId_ p) id timeoutMs (running_ p) (producer_ p) (droppedCount_ p) (successDeliveries_ p)
    (failedDeliveries_ p) (next p) (queue p) (called p) (deleted p) (lost p).

Definition transactional (p : Producer) : bool := negb (bool_decide (transactionalId_ p = [])).

(** The settings, in order. *)
Definition conf (p : Producer) : list (str * str) :=
  [( #"bootstrap.servers", brokerList_ p); ( #"client.id", clientId_ p); ( #"acks", #"all"); ( #"enable.idempotence", #"true");
   ( #"max.in.flight.requests.per.connection", #"5"); ( #"retries", #"10");
   ( #"delivery.timeout.ms", to_string (if transactional p then transactionTimeoutMs_ p else 120000))] ++
  (if transactional p then [( #"transactional.id", transactionalId_ p); ( #"transaction.timeout.ms", to_string (transactionTimeoutMs_ p))] else []) ++
  [( #"linger.ms", #"10"); ( #"batch.size", #"32768"); ( #"compression.type", #"snappy")].

Definition with_state (p : Producer) (running producer : bool) : Producer :=
  mkProducer (brokerList_ p) (clientId_ p) (transactionalId_ p) (transactionTimeoutMs_ p) running producer (droppedCount_ p)
    (successDeliveries_ p) (failedDeliveries_ p) (next p) (queue p) (called p) (deleted p) (lost p).

(** [created]: librdkafka made a producer; [inited]: [init_transactions]
    succeeded. *)
Definition start (p : Producer) (created inited : bool) : bool * Producer :=
  if running_ p then (true, p)
  else if negb created then (false, with_state p false false)
  else if transactional p && negb inited then (false, with_state p false false)
  else (true, with_state p true true).

(** The transaction calls: [None] where librdkafka is not asked, else the
    time-out it is given. *)
Definition transaction_call (p : Producer) (timeoutMs : Z) : option Z :=
  if negb (producer_ p) || negb (transactional p) then None
  else Some (if timeoutMs <? 0 then transactionTimeoutMs_ p else timeoutMs).

(** [produce]: [cb] tells whether there is a callback, [queued] whether the
    message was queued. *)
Definition produce (p : Producer) (cb queued : bool) : bool * Producer :=
  if negb (producer_ p) then (false, p)
  else
    let op := if cb then Some (next p) else None in
    let next1 := if cb then S (next p) else next p in
    if queued then
      (true, mkProducer (brokerList_ p) (clientId_ p) (transactionalId_ p) (transactionTimeoutMs_ p) (running_ p) (producer_ p) (droppedCount_ p)
         (successDeliveries_ p) (failedDeliveries_ p) next1 (queue p ++ [op]) (called p) (deleted p) (lost p))
    else
      (false, mkProducer (brokerList_ p) (clientId_ p) (transactionalId_ p) (transactionTimeoutMs_ p) (running_ p) (producer_ p)
         (u64 (droppedCount_ p + 1)) (successDeliveries_ p) (failedDeliveries_ p) next1 (queue p) (called p) (option_list op ++ deleted p) (lost p)).

(** The report for the [k]-th message that waits; librdkafka chooses. *)
Definition dr_cb (p : Producer) (k : nat) (ok : bool) : option Producer :=
  op ← queue p !! k;
  Some (mkProducer (brokerList_ p) (clientId_ p) (transactionalId_ p) (transactionTimeoutMs_ p) (running_ p) (producer_ p) (droppedCount_ p)
    (if ok then u64 (successDeliveries_ p + 1) else successDeliveries_ p) (if ok then failedDeliveries_ p else u64 (failedDeliveries_ p + 1))
    (next p) (delete k (queue p)) (option_list ((λ i, (i, ok)) <$> op) ++ called p) (option_list op ++ deleted p) (lost p)).

(** [stop] once [flush] has returned and the poll thread has ended: what still
    waits is dropped with the producer. *)
Definition stop (p : Producer) : Producer :=
  if running_ p then
    mkProducer (brokerList_ p) (clientId_ p) (transactionalId_ p) (transactionTimeoutMs_ p) false false (droppedCount_ p)
      (successDeliveries_ p) (failedDeliveries_ p) (next p) [] (called p) (deleted p) (omap id (queue p) ++ lost p)
  else p.

Inductive Act := Start (created inited : bool) | Produce (cb queued : bool) | Report (k : nat) (ok : bool) | Stop.

Definition act (p : Producer) (a : Act) : option Producer :=
  match a with
  | Start created inited => Some (start p created inited).2
  | Produce cb queued => Some (produce p cb queued).2
  | Report k ok => if producer_ p then dr_cb p k ok else None
  | Stop => Some (stop p)
  end.

Fixpoint run (p : Producer) (acts : list Act) : option Producer :=
  match acts with [] => Some p | a :: acts => p1 ← act p a; run p1 acts end.

(** Where the callbacks are. *)
Definition waiting (p : Producer) : list nat := omap id (queue p).

Definition accounted (p : Producer) : Prop :=
  waiting p ++ deleted p ++ lost p ≡ₚ seq 0 (next p) ∧ (called p).*1 `sublist_of` deleted p ∧ (producer_ p = true → running_ p = true).

Lemma accounted_act p a p' : accounted p → act p a = Some p' → accounted p'.
Proof.
  intros (Hp & Hs & Hr) Ha. destruct a as [created inited|cb queued|k ok|]; cbn [act] in Ha.
  - injection Ha as <-. unfold start. destruct (running_ p) eqn:Er; [by split_and!|]. destruct created, (transactional p), inited; by split_and!.
  - injection Ha as <-. unfold produce. destruct (producer_ p) eqn:Epr; [|split_and!; [done|done|cbn; congruence]]. cbn [negb].
    unfold accounted, waiting in *. destruct queued, cb; cbn [snd queue deleted lost next called producer_ running_ option_list from_option app omap].
    + rewrite omap_app. cbn [omap list_omap id]. split_and!; [|done|done]. rewrite seq_S, <-Hp. cbn [Nat.add].
      rewrite <-!app_assoc. apply Permutation_app_head. by rewrite Permutation_app_comm, <-app_assoc.
    + rewrite omap_app. cbn [omap list_omap id]. rewrite app_nil_r. by split_and!.
    + split_and!; [|by constructor|done]. rewrite seq_S, <-Hp. cbn [app Nat.add].
      rewrite <-Permutation_cons_append. symmetry. apply Permutation_middle.
    + by split_and!.
  - destruct (producer_ p) eqn:Epr; [|discriminate Ha]. unfold dr_cb in Ha. destruct (queue p !! k) as [op|] eqn:Ek; [|discriminate Ha].
    cbn [mbind option_bind] in Ha. injection Ha as <-. unfold accounted, waiting in *. cbn [queue deleted lost next called producer_ running_].
    pose proof (delete_Permutation _ _ _ Ek) as Hd. apply (omap_Permutation id) in Hd. rewrite Hd in Hp.
    destruct op as [i|]; cbn [omap list_omap id option_list from_option fmap option_fmap option_map app fst list_fmap] in *; split_and!; try (done || by intros _; apply Hr).
    + rewrite <-Hp. symmetry. apply (Permutation_middle (omap id (delete k (queue p))) (deleted p ++ lost p) i).
    + by constructor.
  - injection Ha as <-. unfold stop. destruct (running_ p) eqn:Er; [|by rewrite <-Er in Hr]. unfold accounted, waiting in *.
    cbn [queue deleted lost next called producer_ running_ omap list_omap app]. split_and!; [|done|done]. rewrite <-Hp. rewrite (Permutation_app_comm (deleted p)).
    rewrite <-!app_assoc. apply Permutation_app_head. apply Permutation_app_comm.
Qed.

(** ** Callbacks.  In any history every callback that was handed over is in
    exactly one place: it waits for its report, its place was given back, once,
    after at most one call, or it was lost when the producer was stopped with
    its message still waiting. *)
Theorem callbacks_accounted (brokers : list str) (clientId : str) (acts : list Act) (p : Producer) :
  run (new brokers clientId) acts = Some p →
  waiting p ++ deleted p ++ lost p ≡ₚ seq 0 (next p) ∧ NoDup (called p).*1 ∧ (∀ i, i ∈ (called p).*1 → i ∈ deleted p).
Proof.
  intros Hrun. assert (Ha : accounted p).
  { assert (H0 : accounted (new brokers clientId)) by (split_and!; done). revert H0 Hrun. generalize (new brokers clientId).
    induction acts as [|a acts IH]; intros q Hq Hrun; cbn [run] in Hrun; [by injection Hrun as <-|].
    destruct (act q a) as [q1|] eqn:E; [|discriminate Hrun]. eapply IH, Hrun. by eapply accounted_act. }
  destruct Ha as (Hp & Hs & _). assert (Hnd : NoDup (waiting p ++ deleted p ++ lost p)) by (rewrite Hp; apply NoDup_seq).
  apply NoDup_app in Hnd as (_ & _ & Hnd). apply NoDup_app in Hnd as (Hnd & _). split_and!; [done| |].
  - eapply sublist_NoDup; [exact Hnd|exact Hs].
  - intros i Hi. eapply elem_of_submseteq; [exact Hi|]. by apply sublist_submseteq.
Qed.

(** A message that is still waiting when [stop] gives up its callback. *)
Example callback_lost :
  ∃ p, run (new [ #"b" ] #"c") [Start true true; Produce true true; Stop] = Some p ∧ lost p = [0%nat] ∧ called p = [] ∧ deleted p = [].
Proof. eexists. split_and!; reflexivity. Qed.

Lemma callbacks_accounted_witness :
  ∃ p, run (new [ #"b" ] #"c") [Start true true; Produce true true; Produce true false; Report 0 true; Stop] = Some p ∧ NoDup (called p).*1.
Proof.
  eexists. split; [reflexivity|].
  by apply (callbacks_accounted [ #"b" ] #"c" [Start true true; Produce true true; Produce true false; Report 0 true; Stop]).
Defined.
End Producer.

Module Consumer.

(** A message: where it was read, its key and its value. *)
Record Message := mkMessage { topic_name : str; partition : Z; offset : Z; key : option str; payload : str }.

Inductive Consumed := TimedOut | PartitionEof | Failed | Got (m : Message).

(** [commits] has the positions committed, the latest first; [seen] what the
    callback was given, the latest first. *)
Record Consumer := mkConsumer {
  brokerList_ : str; groupId_ : str; topics_ : list str; pollTimeoutMs_ : Z; readCommitted_ : bool;
  running_ : bool; consumer_ : bool; thread_ : bool;
  consumed_ : Z; errors_ : Z; retries_ : Z;
  commits : list (str * Z * Z); seen : list (Message * str * bool)
}.

Definition new (brokers : list str) (groupId : str) (topics : list str) (pollTimeoutMs : Z) : Consumer :=
  mkConsumer (join_brokers brokers) groupId topics pollTimeoutMs false false false false 0 0 0 [] [].

Definition with_state (c : Consumer) (running consumer thread : bool) : Consumer :=
  mkConsumer (brokerList_ c) (groupId_ c) (topics_ c) (pollTimeoutMs_ c) (readCommitted_ c) running consumer thread
    (consumed_ c) (errors_ c) (retries_ c) (commits c) (seen c).

Definition enableReadCommitted (c : Consumer) : Consumer :=
  mkConsumer (brokerList_ c) (groupId_ c) (topics_ c) (pollTimeoutMs_ c) true (running_ c) (consumer_ c) (thread_ c)
    (consumed_ c) (errors_ c) (retries_ c) (commits c) (seen c).

Definition conf (c : Consumer) : list (str * str) :=
  [( #"bootstrap.servers", brokerList_ c); ( #"group.id", groupId_ c); ( #"enable.auto.commit", #"false");
   ( #"auto.offset.reset", #"earliest"); ( #"session.timeout.ms", #"30000"); ( #"max.poll.interval.ms", #"300000")] ++
  (if readCommitted_ c then [( #"isolation.level", #"read_committed")] else []).

(** [created], [subscribed]: what librdkafka answered. *)
Definition createAndSubscribe (created subscribed : bool) : bool := created && subscribed.

Definition start (c : Consumer) (created subscribed : bool) : bool * Consumer :=
  if running_ c then (true, c)
  else if negb (createAndSubscribe created subscribed) then (false, with_state c false false (thread_ c))
  else (true, with_state c true true true).

Definition startManual (c : Consumer) (created subscribed : bool) : bool * Consumer :=
  if running_ c then (true, c)
  else if negb (createAndSubscribe created subscribed) then (false, with_state c false false (thread_ c))
  else (true, with_state c true true (thread_ c)).

Definition stop (c : Consumer) : Consumer :=
  if running_ c then with_state c false false false else c.

(** [consumeOnce]: [None] is the null pointer. *)
Definition consumeOnce (c : Consumer) (answer : Consumed) : option Consumed :=
  if consumer_ c then Some answer else None.

(** [assigned]: the assignment and positions librdkafka tells. *)
Definition currentPositions (c : Consumer) (assigned : list (str * Z * Z)) : list (str * Z * Z) :=
  if consumer_ c then assigned else [].

(** [commitAsync]: the position after the message. *)
Definition commitAsync (m : Message) : str * Z * Z := (topic_name m, partition m, offset m + 1).

(** One turn of [pollLoop]: what was consumed, and what the callback answered,
    nothing where it threw. *)
Definition turn (c : Consumer) (msg : Consumed) (cb : option bool) : Consumer :=
  match msg with
  | TimedOut | PartitionEof => c
  | Failed =>
    mkConsumer (brokerList_ c) (groupId_ c) (topics_ c) (pollTimeoutMs_ c) (readCommitted_ c) (running_ c) (consumer_ c) (thread_ c)
      (consumed_ c) (u64 (errors_ c + 1)) (retries_ c) (commits c) (seen c)
  | Got m =>
    let ok := default false cb in
    let call := (m, default [] (key m), ok) in
    if ok then
      mkConsumer (brokerList_ c) (groupId_ c) (topics_ c) (pollTimeoutMs_ c) (readCommitted_ c) (running_ c) (consumer_ c) (thread_ c)
        (u64 (consumed_ c + 1)) (errors_ c) (retries_ c) (commitAsync m :: commits c) (call :: seen c)
    else
      mkConsumer (brokerList_ c) (groupId_ c) (topics_ c) (pollTimeoutMs_ c) (readCommitted_ c) (running_ c) (consumer_ c) (thread_ c)
        (consumed_ c) (errors_ c) (u64 (retries_ c + 1)) (commits c) (call :: seen c)
  end.

Definition pollLoop (c : Consumer) (turns : list (Consumed * option bool)) : Consumer :=
  foldl (λ c t, turn c t.1 t.2) c turns.

(** ** Lemmas *)

Definition accepted (calls : list (Message * str * bool)) : list (Message * str * bool) := filter (λ x, x.2 = true) calls.

(** Commits follow the calls that were accepted, in the order of the calls. *)
Lemma turn_commits c msg cb :
  commits c = (λ x, commitAsync x.1.1) <$> accepted (seen c) →
  commits (turn c msg cb) = (λ x, commitAsync x.1.1) <$> accepted (seen (turn c msg cb)).
Proof.
  intros Hc. unfold turn, accepted in *. destruct msg as [| | |m]; [done..|]. destruct (default false cb) eqn:E; cbn [commits seen].
  - by rewrite (filter_cons_True (λ x : Message * str * bool, x.2 = true) (m, default [] (key m), true)), fmap_cons, <-Hc by done.
  - by rewrite (filter_cons_False (λ x : Message * str * bool, x.2 = true) (m, default [] (key m), false)) by done.
Qed.

Lemma loop_commits turns : ∀ c,
  commits c = ((λ x, commitAsync x.1.1) <$> accepted (seen c)) →
  commits (pollLoop c turns) = ((λ x, commitAsync x.1.1) <$> accepted (seen (pollLoop c turns))).
Proof. unfold pollLoop. induction turns as [|t turns IH]; intros c Hc; [done|]. cbn [foldl]. apply IH. by apply turn_commits. Qed.

(** ** Commits.  The consumer commits the position after a message exactly when
    the callback accepted the message: neither [false] nor an exception ever
    commits, and the commits come in the order of the calls. *)
Theorem commits_follow_callback (brokers : list str) (groupId : str) (topics : list str) (ms : Z) (turns : list (Consumed * option bool)) :
  let c := pollLoop (start (new brokers groupId topics ms) true true).2 turns in
  commits c = (λ x, commitAsync x.1.1) <$> accepted (seen c).
Proof.
  cbv zeta. apply loop_commits. reflexivity.
Qed.

(** A message that failed is passed over: the loop goes on from the next one,
    and its commit covers the one that failed. *)
Definition message (k : Z) : Message := mkMessage #"t" 0 k None #"v".

Example failed_is_covered :
  commits (pollLoop (start (new [ #"b" ] #"g" [ #"t" ] 50) true true).2 [(Got (message 7), Some false); (Got (message 8), Some true)]) = [( #"t", 0, 9)].
Proof. reflexivity. Qed.

End Consumer.
