(* ===== verification/Sockets.v ===== *)
(** * Sockets: what the code asks of the kernel, and the descriptors it owns

    A program here is a tree of system calls, as the blocking clients, the
    acceptor and the event loop make them: [net/Socket.cc], [net/Acceptor.cc],
    [createEventfd] and [createTimerfd] ([net/EventLoop.cc]),
    [ConnectionPool::createConnection] ([pool/ConnectionPool.h]),
    [RpcClient::call] ([rpc/RpcClient.h]), [SimpleHttpClient]
    ([registry/RegistryClient.h]) and [EtcdClient::post] ([util/EtcdClient.h]).
    The kernel answers as POSIX says it may.  A call is [legal] when its
    descriptor is open and its arguments are initialised; the theorems say that
    no execution makes another one (for [createConnection]: under conditions the
    code does not test), that what was opened is closed exactly
    once, and that what comes back is what the models of these clients say. *)

From S2P Require Import Prelude HttpClient ServiceCatalog Registry RegistryClient EtcdClient Rpc.

Open Scope Z_scope.

(** ** System calls *)

Inductive Errno := EINTR | EAGAIN | EINPROGRESS | EOther.

Inductive Option_ := SO_RCVTIMEO | SO_SNDTIMEO | TCP_NODELAY | SO_REUSEADDR | SO_REUSEPORT | SO_KEEPALIVE | TCP_KEEPIDLE | TCP_KEEPINTVL | TCP_KEEPCNT.

(** Calls on a descriptor that answer with a number; [set] tells whether the
    address was written before. *)
Inductive Ctl :=
  | ctl_bind | ctl_listen (backlog : Z) | ctl_connect (set : bool) | ctl_setsockopt (o : Option_) (v : Z)
  | ctl_getfl | ctl_setfl (flags : Z) | ctl_shutdown | ctl_select | ctl_so_error | ctl_settime (sec nsec : Z).

Inductive Sys : Set → Set :=
  | sys_socket : Sys Z
  | sys_epoll_create : Sys Z
  | sys_eventfd : Sys Z
  | sys_timerfd : Sys Z
  | sys_accept (fd : Z) : Sys Z
  | sys_close (fd : Z) : Sys unit
  | sys_ctl (fd : Z) (c : Ctl) : Sys Z
  | sys_send (fd : Z) (data : str) : Sys Z
  | sys_recv (fd : Z) (size : Z) : Sys (option str)      (* [None]: an error; [Some []]: the end *)
  | sys_errno : Sys Errno
  | sys_getaddrinfo (host service : str) : Sys (option nat)
  | sys_freeaddrinfo (info : nat) : Sys unit.

(** The descriptors and address lists that are open, the first descriptor that
    is never given, and the bytes the kernel has taken. *)
Record World := mkWorld { fds : gset Z; infos : gset nat; limit : Z; sent : str }.

Definition opened (fd : Z) (w : World) : World := mkWorld ({[fd]} ∪ fds w) (infos w) (limit w) (sent w).
Definition closed (fd : Z) (w : World) : World := mkWorld (fds w ∖ {[fd]}) (infos w) (limit w) (sent w).
Definition listed (h : nat) (w : World) : World := mkWorld (fds w) ({[h]} ∪ infos w) (limit w) (sent w).
Definition freed (h : nat) (w : World) : World := mkWorld (fds w) (infos w ∖ {[h]}) (limit w) (sent w).
Definition taken (b : str) (w : World) : World := mkWorld (fds w) (infos w) (limit w) (sent w ++ b).

Definition new_fd (w : World) (r : Z) (w' : World) : Prop :=
  (r = -1 ∧ w' = w) ∨ (0 ≤ r < limit w ∧ r ∉ fds w ∧ w' = opened r w).

(** [FD_SETSIZE]: [FD_SET] writes past its set for a larger descriptor. *)
Definition FD_SETSIZE : Z := 1024.

Definition legal {R} (c : Sys R) (w : World) : Prop :=
  match c with
  | sys_socket | sys_epoll_create | sys_eventfd | sys_timerfd | sys_errno | sys_getaddrinfo _ _ => True
  | sys_accept fd | sys_close fd | sys_send fd _ | sys_recv fd _ => fd ∈ fds w
  | sys_ctl fd c => fd ∈ fds w ∧ match c with ctl_connect set => set = true | ctl_select => fd < FD_SETSIZE | _ => True end
  | sys_freeaddrinfo h => h ∈ infos w
  end.

(** What the kernel may answer. *)
Definition kernel {R} (c : Sys R) (w : World) : R → World → Prop :=
  match c in Sys R return R → World → Prop with
  | sys_socket | sys_epoll_create | sys_eventfd | sys_timerfd | sys_accept _ => new_fd w
  | sys_close fd => λ _ w', w' = closed fd w
  | sys_ctl _ _ => λ _ w', w' = w
  | sys_send _ data => λ r w', (r = -1 ∧ w' = w) ∨ (0 ≤ r ≤ zlen data ∧ w' = taken (take (Z.to_nat r) data) w)
  | sys_recv _ size => λ r w', w' = w ∧ match r with Some s => zlen s ≤ size | None => True end
  | sys_errno => λ _ w', w' = w
  | sys_getaddrinfo _ _ => λ r w',
      match r with None => w' = w | Some h => h ∉ infos w ∧ w' = listed h w end
  | sys_freeaddrinfo h => λ _ w', w' = freed h w
  end.

(** ** Programs *)

(** [Exit]: [LOG_FATAL] ends the process.  [Running]: a loop goes on. *)
Inductive prog (A : Type) :=
  | Ret (a : A)
  | Exit
  | Running
  | Call {R : Set} (c : Sys R) (k : R → prog A).
Arguments Ret {_}. Arguments Exit {_}. Arguments Running {_}. Arguments Call {_ _}.

#[export] Instance prog_ret : MRet prog := λ A a, Ret a.
#[export] Instance prog_bind : MBind prog := λ A B f,
  fix bind p := match p with Ret a => f a | Exit => Exit | Running => Running | Call c k => Call c (λ r, bind (k r)) end.

Definition call {R : Set} (c : Sys R) : prog R := Call c Ret.

(** A step of a program with the kernel, and its executions. *)
Definition step {A} (s s' : prog A * World) : Prop :=
  match s.1 with Call c k => ∃ r, kernel c s.2 r s'.2 ∧ s'.1 = k r | _ => False end.

(** Nothing illegal is ever called, and a result satisfies [Q]. *)
Definition safe_at {A} (Q : A → World → Prop) (s : prog A * World) : Prop :=
  match s.1 with Ret a => Q a s.2 | Call c _ => legal c s.2 | _ => True end.

Definition executes {A} (p : prog A) (w : World) (Q : A → World → Prop) : Prop :=
  ∀ s, rtc step (p, w) s → safe_at Q s.

(** ** Sockets and the acceptor *)

(** [LOG_FATAL] where a call fails. *)
Definition or_exit (r : Z) : prog unit := if r =? 0 then Ret () else Exit.

Definition createNonblocking : prog Z := r ← call sys_socket; if r <? 0 then Exit else Ret r.
Definition createEventfd : prog Z := r ← call sys_eventfd; if r <? 0 then Exit else Ret r.

Definition createTimerfd (tickMs : Z) : prog Z :=
  tfd ← call sys_timerfd;
  if tfd <? 0 then Exit
  else r ← call (sys_ctl tfd (ctl_settime (Z.quot tickMs 1000) (i32 (Z.rem tickMs 1000 * 1000000))));
       if r <? 0 then Exit else Ret tfd.

Definition Socket_destroy (sockfd : Z) : prog unit := call (sys_close sockfd).
Definition bindAddress (sockfd : Z) : prog unit := r ← call (sys_ctl sockfd ctl_bind); or_exit r.
Definition Socket_listen (sockfd : Z) : prog unit := r ← call (sys_ctl sockfd (ctl_listen 65535)); or_exit r.

Definition O_NONBLOCK : Z := 2048.

Definition Socket_accept (sockfd : Z) : prog Z :=
  connfd ← call (sys_accept sockfd);
  if 0 <=? connfd then
    flags ← call (sys_ctl connfd ctl_getfl);
    if 0 <=? flags then _ ← call (sys_ctl connfd (ctl_setfl (Z.lor flags O_NONBLOCK))); Ret connfd else Ret connfd
  else Ret connfd.

Definition setsockopt (sockfd : Z) (o : Option_) (v : Z) : prog unit := _ ← call (sys_ctl sockfd (ctl_setsockopt o v)); Ret ().
Definition shutdownWrite (sockfd : Z) : prog unit := _ ← call (sys_ctl sockfd ctl_shutdown); Ret ().
Definition setTcpNoDelay (sockfd : Z) (on : bool) : prog unit := setsockopt sockfd TCP_NODELAY (if on then 1 else 0).
Definition setReuseAddr (sockfd : Z) (on : bool) : prog unit := setsockopt sockfd SO_REUSEADDR (if on then 1 else 0).
Definition setReusePort (sockfd : Z) (on : bool) : prog unit := setsockopt sockfd SO_REUSEPORT (if on then 1 else 0).
Definition setKeepAlive (sockfd : Z) (on : bool) : prog unit := setsockopt sockfd SO_KEEPALIVE (if on then 1 else 0).
Definition setKeepAliveParams (sockfd idleSec intvlSec probeCount : Z) : prog unit :=
  _ ← setsockopt sockfd TCP_KEEPIDLE idleSec; _ ← setsockopt sockfd TCP_KEEPINTVL intvlSec; setsockopt sockfd TCP_KEEPCNT probeCount.

(** The constructor: the descriptor the acceptor owns. *)
Definition Acceptor_new (reuseport : bool) : prog Z :=
  acceptSocket ← createNonblocking;
  _ ← setReuseAddr acceptSocket true; _ ← setReusePort acceptSocket reuseport; _ ← bindAddress acceptSocket; Ret acceptSocket.

(** [Acceptor::handleRead]: the descriptor given to the callback, if any. *)
Definition accept_one (acceptSocket : Z) (has_cb : bool) : prog (option Z) :=
  connfd ← Socket_accept acceptSocket;
  if 0 <=? connfd then
    if has_cb then Ret (Some connfd) else _ ← call (sys_close connfd); Ret None
  else _ ← call sys_errno; Ret None.

(** The descriptors of an event loop, as its constructor makes them, and its
    destructor, which is followed by that of the poller. *)
Definition EventLoop_fds : prog (Z * Z * Z) :=
  epollfd ← (r ← call sys_epoll_create; if r <? 0 then Exit else Ret r);
  wakeupFd ← createEventfd; timerFd ← createTimerfd 1000; Ret (epollfd, wakeupFd, timerFd).

Definition EventLoop_close (f : Z * Z * Z) : prog unit :=
  _ ← call (sys_close f.1.2); _ ← call (sys_close f.2); call (sys_close f.1.1).

(** ** Addresses *)

(** [inet_pton] for [AF_INET]: four decimal numbers, at most 255, without
    leading zeros. *)
Fixpoint pton4 (s : str) (octets : nat) (saw_digit : bool) (tp : Z) : bool :=
  match s with
  | [] => (4 <=? octets)%nat
  | c :: s =>
      match digit_in 10 c with
      | Some d =>
          let new := tp * 10 + d in
          if (saw_digit && (tp =? 0)) || (255 <? new) then false
          else let octets := if saw_digit then octets else S octets in
               if (4 <? octets)%nat then false else pton4 s octets true new
      | None => if bool_decide (c = "."%char) && saw_digit && negb (4 =? octets)%nat then pton4 s octets false 0 else false
      end
  end.

Definition inet_pton (host : str) : bool := pton4 (c_str host) 0 false 0.

(** ** Blocking clients *)

(** [ConnectionPool::createConnection]; the answer of [inet_pton] is dropped. *)
Definition createConnection (host : str) : prog Z :=
  fd ← call sys_socket;
  if fd <? 0 then Ret (-1)
  else
    flags ← call (sys_ctl fd ctl_getfl);
    _ ← call (sys_ctl fd (ctl_setfl (Z.lor flags O_NONBLOCK)));
    r ← call (sys_ctl fd (ctl_connect (inet_pton host)));
    let finish := _ ← call (sys_ctl fd (ctl_setfl flags)); Ret fd in
    if r <? 0 then
      e ← call sys_errno;
      match e with
      | EINPROGRESS =>
          result ← call (sys_ctl fd ctl_select);
          if result <=? 0 then _ ← call (sys_close fd); Ret (-1)
          else
            error ← call (sys_ctl fd ctl_so_error);
            if negb (error =? 0) then _ ← call (sys_close fd); Ret (-1) else finish
      | _ => _ ← call (sys_close fd); Ret (-1)
      end
    else finish.

(** [RpcClient::connect]. *)
Definition RpcClient_connect (host : str) (port : Z) : prog Z :=
  sock ← call sys_socket;
  if sock <? 0 then Ret (-1)
  else
    result ← call (sys_getaddrinfo host (to_string port));
    match result with
    | None => _ ← call (sys_close sock); Ret (-1)
    | Some info =>
        r ← call (sys_ctl sock (ctl_connect true));
        if r <? 0 then _ ← call (sys_freeaddrinfo info); _ ← call (sys_close sock); Ret (-1)
        else _ ← call (sys_freeaddrinfo info); Ret sock
    end.

(** [while ((n = recv(fd, buf, size, 0)) > 0)], with what a piece adds. *)
Fixpoint recv_all (fuel : nat) (fd size : Z) (acc : list str) : prog (list str) :=
  match fuel with
  | O => Running
  | S fuel =>
      r ← call (sys_recv fd size);
      match r with Some (c :: s) => recv_all fuel fd size (acc ++ [c :: s]) | _ => Ret acc end
  end.

(** The sending loop of [SimpleHttpClient]: whether all was sent. *)
Fixpoint send_all (fuel : nat) (fd : Z) (rest : str) : prog bool :=
  match rest with
  | [] => Ret true
  | _ =>
      match fuel with
      | O => Running
      | S fuel =>
          n ← call (sys_send fd rest);
          if n <? 0 then
            e ← call sys_errno;
            match e with EINTR | EAGAIN => send_all fuel fd rest | _ => Ret false end
          else send_all fuel fd (drop (Z.to_nat n) rest)
      end
  end.

(** [SimpleHttpClient::post] and [get], which differ in the request. *)
Definition http_exchange (fuel : nat) (host request : str) : prog Response :=
  sockfd ← call sys_socket;
  if sockfd <? 0 then Ret (mkReply 0 #"Socket creation failed" false)
  else
    _ ← setsockopt sockfd SO_RCVTIMEO 5; _ ← setsockopt sockfd SO_SNDTIMEO 5;
    if negb (inet_pton host) then _ ← call (sys_close sockfd); Ret (mkReply 0 #"Invalid address" false)
    else
      r ← call (sys_ctl sockfd (ctl_connect (inet_pton host)));
      if r <? 0 then _ ← call (sys_close sockfd); Ret (mkReply 0 #"Connection failed" false)
      else
        ok ← send_all fuel sockfd request;
        if negb ok then _ ← call (sys_close sockfd); Ret (mkReply 0 #"Send failed" false)
        else
          pieces ← recv_all fuel sockfd 4095 [];
          _ ← call (sys_close sockfd);
          Ret (parse_response (RegistryClient.recv_loop pieces)).

(** [EtcdClient::post]. *)
Definition etcd_post (fuel : nat) (e : EtcdClient) (path body : str) : prog str :=
  sock ← call sys_socket;
  if sock <? 0 then Ret []
  else
    _ ← setsockopt sock SO_RCVTIMEO 2; _ ← setsockopt sock SO_SNDTIMEO 2;
    if negb (inet_pton (EtcdClient.host_ e)) then _ ← call (sys_close sock); Ret []
    else
      r ← call (sys_ctl sock (ctl_connect (inet_pton (EtcdClient.host_ e))));
      if r <? 0 then _ ← call (sys_close sock); Ret []
      else
        let req := post_text e path body in
        n ← call (sys_send sock req);
        if n <? zlen req then _ ← call (sys_close sock); Ret []
        else
          pieces ← recv_all fuel sock 4096 [];
          _ ← call (sys_close sock);
          let resp := mjoin pieces in
          Ret (match find crlf2 resp 0 with None => [] | Some p => drop (p + 4) resp end).

(** [RpcClient::call]; a result of [None] is an exception. *)
Definition rpc_call {J} `{Json J, JsonAccess J} (fuel : nat) (host : str) (port id : Z) (m : str) (params : J) : prog (option J) :=
  sock ← RpcClient_connect host port;
  if sock <? 0 then Ret (Some (failure #"connection failed"))
  else
    match call_request host id m params with
    | None => Ret None
    | Some request =>
        _ ← call (sys_send sock request);
        pieces ← recv_all fuel sock 4095 [];
        _ ← call (sys_close sock);
        Ret (call_result pieces)
    end.

(** ** Reasoning about programs *)

Fixpoint wp {A} (p : prog A) (w : World) (Q : A → World → Prop) : Prop :=
  match p with
  | Ret a => Q a w
  | Exit | Running => True
  | Call c k => legal c w ∧ ∀ r w', kernel c w r w' → wp (k r) w' Q
  end.

Lemma wp_executes {A} (p : prog A) w Q : wp p w Q → executes p w Q.
Proof.
  intros Hp s Hs. assert (H : wp s.1 s.2 Q).
  { remember (p, w) as s0 eqn:E. assert (H0 : wp s0.1 s0.2 Q) by by subst. clear E Hp. induction Hs as [|s1 s2 s3 H12 _ IH]; [done|].
    apply IH. destruct s1 as [[a| | |R c k] w1]; [done..|]. destruct H12 as (r & Hr & ->). apply H0, Hr. }
  destruct s as [[a| | |R c k] w1]; [done..|]. apply H.
Qed.

Lemma wp_mono {A} (p : prog A) w (Q Q' : A → World → Prop) : wp p w Q → (∀ a w', Q a w' → Q' a w') → wp p w Q'.
Proof.
  intros Hp HQ. revert w Hp. induction p as [a| | |R c k IH]; intros w Hp; cbn in *; [by apply HQ|done|done|].
  destruct Hp as [Hl Hk]. split; [done|]. intros r w' Hr. by apply IH, Hk.
Qed.

Lemma wp_bind {A B} (p : prog A) (f : A → prog B) w Q : wp p w (λ a w', wp (f a) w' Q) → wp (p ≫= f) w Q.
Proof.
  revert w. induction p as [a| | |R c k IH]; intros w Hp; cbn in *; [done..|]. destruct Hp as [Hl Hk]. split; [done|].
  intros r w' Hr. by apply IH, Hk.
Qed.

(** The next call: it is legal, and what the kernel may answer. *)
Ltac on_call r H := cbn [wp mbind prog_bind call]; split; [cbn; repeat split; (done || set_solver)|intros r ? H; cbn in H].
Ltac on_ctl := let H := fresh in let r := fresh "r" in on_call r H; subst.

Lemma closed_opened fd w : fd ∉ fds w → closed fd (opened fd w) = w.
Proof. intros H. destruct w as [f i l s]. unfold closed, opened in *. cbn in *. f_equal. set_solver. Qed.

Lemma closed_taken fd b w : closed fd (taken b w) = taken b (closed fd w).
Proof. done. Qed.

Lemma in_opened fd w : fd ∈ fds (opened fd w).
Proof. cbn. set_solver. Qed.

Lemma taken_nil w : taken [] w = w.
Proof. destruct w. unfold taken. cbn. by rewrite app_nil_r. Qed.

Lemma taken_app b b' w : taken b' (taken b w) = taken (b ++ b') w.
Proof. unfold taken. cbn. by rewrite app_assoc. Qed.

#[local] Hint Resolve in_opened : core.

(** A new descriptor, or none. *)
Lemma new_fd_cases w r w' (P : Prop) : new_fd w r w' → (r = -1 → w' = w → P) → (0 ≤ r < limit w → r ∉ fds w → w' = opened r w → P) → P.
Proof. intros [[-> ->]|(? & ? & ->)] H1 H2; auto. Qed.

Lemma send_all_wp fd fuel : ∀ rest w, fd ∈ fds w →
  wp (send_all fuel fd rest) w (λ ok w', ∃ script b, send_loop script rest = (b, Some ok) ∧ w' = taken b w).
Proof.
  induction fuel as [|fuel IH]; intros rest w Hfd; cbn [send_all]; (destruct rest as [|c rest]; [by exists [], []; rewrite taken_nil|]); [done|].
  on_call r H. destruct H as [[-> ->]|[Hn ->]].
  - on_call r H. subst. assert (Hend : ∃ script b, send_loop script (c :: rest) = (b, Some false) ∧ w = taken b w)
      by (exists [SendError], []; by rewrite taken_nil).
    destruct r; try exact Hend; (eapply wp_mono; [by apply IH|]; intros ok w' (sc & b & E & ->); exists (Again :: sc), b; by cbn).
  - rewrite (proj2 (Z.ltb_ge _ _)) by lia. eapply wp_mono; [by apply IH|]. intros ok w' (sc & b & E & ->).
    exists (Sent (Z.to_nat r) :: sc), (take (Z.to_nat r) (c :: rest) ++ b). cbn [send_loop]. by rewrite E, taken_app.
Qed.

Lemma recv_all_wp fd size fuel : ∀ acc w, fd ∈ fds w →
  wp (recv_all fuel fd size acc) w (λ pieces w', w' = w ∧ ∃ more, pieces = acc ++ more ∧ Forall (λ s, 0 < zlen s ≤ size) more).
Proof.
  induction fuel as [|fuel IH]; intros acc w Hfd; cbn [recv_all]; [done|]. on_call r H. destruct H as [-> Hs].
  destruct r as [[|c s]|]; [split; [done|]; exists []; by rewrite app_nil_r| |split; [done|]; exists []; by rewrite app_nil_r].
  eapply wp_mono; [by apply IH|]. intros p w' (-> & more & -> & Hm). split; [done|]. exists ((c :: s) :: more).
  rewrite <-app_assoc. split; [done|]. constructor; [split; [len|done]|done].
Qed.

(** Closing the descriptor a client opened, whatever was sent on it. *)
Lemma close_wp {A} fd b w (a : A) (Q : A → World → Prop) : fd ∉ fds w → Q a (taken b w) →
  wp (_ ← call (sys_close fd); Ret a) (taken b (opened fd w)) Q.
Proof. intros Hfd HQ. on_call r H. subst. cbn. by rewrite closed_taken, closed_opened. Qed.

Lemma http_exchange_wp fuel host request w :
  wp (http_exchange fuel host request) w (λ r w', ∃ net b, exchange net request = (b, Some r) ∧ w' = taken b w).
Proof.
  unfold http_exchange. on_call r H. eapply new_fd_cases; [exact H|intros -> ->|intros Hr Hnew ->].
  - exists (mkNet NoSocket [] []), []. by rewrite taken_nil.
  - rewrite (proj2 (Z.ltb_ge _ _)) by lia. unfold setsockopt. on_ctl. on_ctl. rewrite <-(taken_nil (opened r w)). destruct (inet_pton host); cbn [negb].
    + on_call c H1. subst. destruct (c <? 0).
      { apply close_wp; [done|]. by exists (mkNet Refused [] []), []. }
      apply wp_bind. eapply wp_mono; [apply send_all_wp; apply in_opened|]. intros ok w' (sc & b & E & ->). rewrite taken_app. cbn [app].
      destruct ok; cbn [negb].
      * apply wp_bind. eapply wp_mono; [apply recv_all_wp; apply in_opened|]. intros pieces w' (-> & more & -> & _).
        apply close_wp; [done|]. exists (mkNet Connected sc ([] ++ more)), b. split; [|done]. unfold exchange. cbn [n_connect n_send n_recv]. by rewrite E.
      * apply close_wp; [done|]. exists (mkNet Connected sc []), b. split; [|done]. unfold exchange. cbn [n_connect n_send n_recv]. by rewrite E.
    + apply close_wp; [done|]. by exists (mkNet BadAddress [] []), [].
Qed.

(** What a request of [EtcdClient::post] puts on the wire. *)
Definition etcd_wire (e : EtcdClient) (c : EtcdClient.Call) (path body : str) : str :=
  match c_connect c with Connected => take (Z.to_nat (c_sent c)) (post_text e path body) | _ => [] end.

Lemma send_once_wp {A} fd w data (f : Z → prog A) Q : fd ∉ fds w →
  (∀ n, -1 ≤ n ≤ zlen data → wp (f n) (taken (take (Z.to_nat n) data) (opened fd w)) Q) →
  wp (n ← call (sys_send fd data); f n) (opened fd w) Q.
Proof.
  intros Hfd Hf. on_call n H. destruct H as [[-> ->]|[Hn ->]]; [|apply Hf; lia].
  rewrite <-(taken_nil (opened fd w)). apply (Hf (-1)). len.
Qed.

Lemma etcd_post_wp fuel e path body w :
  wp (etcd_post fuel e path body) w (λ resp w', ∃ c, resp = EtcdClient.post e c path body ∧ w' = taken (etcd_wire e c path body) w).
Proof.
  unfold etcd_post. on_call r H. eapply new_fd_cases; [exact H|intros -> ->|intros Hr Hnew ->].
  - exists (mkCall NoSocket 0 []). cbn. by rewrite taken_nil.
  - rewrite (proj2 (Z.ltb_ge _ _)) by lia. unfold setsockopt. on_ctl. on_ctl. destruct (inet_pton (EtcdClient.host_ e)); cbn [negb].
    + on_call c H1. subst. destruct (c <? 0).
      { rewrite <-(taken_nil (opened r w)). apply close_wp; [done|]. by exists (mkCall Refused 0 []). }
      apply send_once_wp; [done|]. intros n Hn. destruct (n <? zlen (post_text e path body)) eqn:En.
      * apply close_wp; [done|]. exists (mkCall Connected n []). unfold EtcdClient.post. cbn [c_connect c_sent]. by rewrite En.
      * apply wp_bind. eapply wp_mono; [apply recv_all_wp; apply in_opened|]. intros pieces w' (-> & more & -> & _).
        apply close_wp; [done|]. exists (mkCall Connected n ([] ++ more)). unfold EtcdClient.post. cbn [c_connect c_sent c_recv]. by rewrite En.
    + rewrite <-(taken_nil (opened r w)). apply close_wp; [done|]. by exists (mkCall BadAddress 0 []).
Qed.

(** The client's own descriptor, or none. *)
Definition one_fd (w : World) (r : Z) (w' : World) : Prop := (r = -1 ∧ w' = w) ∨ (0 ≤ r ∧ r ∉ fds w ∧ w' = opened r w).

Lemma freed_listed h w : h ∉ infos w → freed h (listed h w) = w.
Proof. intros H. destruct w as [f i l s]. unfold freed, listed in *. cbn in *. f_equal. set_solver. Qed.

Lemma connect_wp host port w : wp (RpcClient_connect host port) w (one_fd w).
Proof.
  unfold RpcClient_connect. on_call r H. eapply new_fd_cases; [exact H|intros -> ->; by left|intros Hr Hnew ->].
  rewrite (proj2 (Z.ltb_ge _ _)) by lia. on_call i Hi. destruct i as [h|].
  - destruct Hi as [Hh ->]. on_call c H1. subst. destruct (c <? 0); on_call u H1; subst.
    + rewrite freed_listed by done. rewrite <-(taken_nil (opened r w)). apply close_wp; [done|]. left. by rewrite taken_nil.
    + rewrite freed_listed by done. right. split_and!; [lia|done|done].
  - subst. rewrite <-(taken_nil (opened r w)). apply close_wp; [done|]. left. by rewrite taken_nil.
Qed.

(** Descriptors below the size of a set, and a numeric address. *)
Lemma createConnection_wp host w : limit w ≤ FD_SETSIZE → inet_pton host = true → wp (createConnection host) w (one_fd w).
Proof.
  intros Hl Hh. unfold createConnection. on_call r H. eapply new_fd_cases; [exact H|intros -> ->; by left|intros Hr Hnew ->].
  rewrite (proj2 (Z.ltb_ge _ _)) by lia. rewrite Hh. on_ctl. on_ctl. on_call c H1. subst.
  assert (Hfail : wp (_ ← call (sys_close r); Ret (-1)) (opened r w) (one_fd w)).
  { rewrite <-(taken_nil (opened r w)). apply close_wp; [done|]. left. by rewrite taken_nil. }
  assert (Hok : ∀ flags, wp (_ ← call (sys_ctl r (ctl_setfl flags)); Ret r) (opened r w) (one_fd w)).
  { intros flags. on_call x H2. subst. right. split_and!; [lia|done|done]. }
  destruct (c <? 0); [|apply Hok]. on_call e He. subst. destruct e; try exact Hfail.
  cbn [wp mbind prog_bind call]. split; [split; [apply in_opened|lia]|]. intros s w1 Hs. cbn in Hs. subst.
  destruct (s <=? 0); [exact Hfail|]. on_call er H2. subst. destruct (negb _); [exact Hfail|apply Hok].
Qed.

Lemma rpc_call_wp {J} `{Json J, JsonAccess J} fuel host port id m (params : J) w :
  wp (rpc_call fuel host port id m params) w (λ r w', match call_request host id m params with
    | Some request => ∃ k pieces,
        w' = taken (take k request) w ∧ (r = call_result pieces ∨ k = 0%nat ∧ r = Some (failure #"connection failed"))
    | None => (r = Some (failure #"connection failed") ∧ w' = w) ∨ (r = None ∧ ∃ sock, sock ∉ fds w ∧ w' = opened sock w)
    end).
Proof.
  unfold rpc_call. apply wp_bind. eapply wp_mono; [apply connect_wp|]. intros sock w1 [[-> ->]|(Hs & Hnew & ->)].
  - cbn [Z.ltb Z.compare wp]. destruct (call_request host id m params); [|by left]. exists 0%nat, []. rewrite taken_nil. auto.
  - rewrite (proj2 (Z.ltb_ge _ _)) by lia. destruct (call_request host id m params) as [request|]; [|right; eauto].
    apply send_once_wp; [done|]. intros n Hn. apply wp_bind.
    eapply wp_mono; [apply recv_all_wp; apply in_opened|]. intros pieces w' (-> & more & -> & _). apply close_wp; [done|].
    exists (Z.to_nat n), ([] ++ more). auto.
Qed.

(** ** The acceptor and the event loop *)

(** A program that only calls on a descriptor that is open. *)
Lemma setsockopt_wp fd o v w : fd ∈ fds w → wp (setsockopt fd o v) w (λ _ w', w' = w).
Proof. intros H. unfold setsockopt. on_ctl. done. Qed.

Lemma Socket_accept_wp fd w : fd ∈ fds w → wp (Socket_accept fd) w (one_fd w).
Proof.
  intros Hfd. unfold Socket_accept. on_call r H. eapply new_fd_cases; [exact H|intros -> ->; by left|intros Hr Hnew ->].
  rewrite (proj2 (Z.leb_le _ _)) by lia. on_ctl. assert (Hdone : one_fd w r (opened r w)) by (right; split_and!; [lia|done|done]).
  destruct (0 <=? r0); [|done]. on_ctl. done.
Qed.

Lemma accept_one_wp fd has_cb w : fd ∈ fds w →
  wp (accept_one fd has_cb) w (λ r w', match r with Some c => has_cb = true ∧ one_fd w c w' ∧ 0 ≤ c | None => w' = w end).
Proof.
  intros Hfd. unfold accept_one. apply wp_bind. eapply wp_mono; [by apply Socket_accept_wp|]. intros c w1 [[-> ->]|(Hc & Hnew & ->)].
  - cbn [Z.leb Z.compare]. on_ctl. done.
  - rewrite (proj2 (Z.leb_le _ _)) by lia. destruct has_cb; [split_and!; [done|by right|done]|].
    rewrite <-(taken_nil (opened c w)). apply close_wp; [done|]. apply taken_nil.
Qed.

Lemma Acceptor_new_wp reuseport w : wp (Acceptor_new reuseport) w (λ fd w', one_fd w fd w' ∧ 0 ≤ fd).
Proof.
  unfold Acceptor_new, createNonblocking. on_call r H. eapply new_fd_cases; [exact H|by intros -> _|intros Hr Hnew ->].
  rewrite (proj2 (Z.ltb_ge _ _)) by lia. cbn [wp mbind prog_bind]. unfold setReuseAddr, setReusePort, setsockopt, bindAddress. on_ctl. on_ctl. on_ctl.
  unfold or_exit. destruct (_ =? 0); [|done]. split; [right; split_and!; [lia|done|done]|lia].
Qed.

Lemma new_or_exit_wp (c : Sys Z) w (Q : Z → World → Prop) :
  legal c w → (∀ r w', kernel c w r w' → new_fd w r w') → (∀ r, 0 ≤ r → r ∉ fds w → Q r (opened r w)) →
  wp (r ← call c; if r <? 0 then Exit else Ret r) w Q.
Proof.
  intros Hl Hk HQ. cbn. split; [done|]. intros r w' H. eapply new_fd_cases; [by apply Hk|intros -> ->; done|intros Hr Hnew ->].
  rewrite (proj2 (Z.ltb_ge _ _)) by lia. apply HQ; [lia|done].
Qed.

Lemma createTimerfd_wp ms w (Q : Z → World → Prop) : (∀ r, 0 ≤ r → r ∉ fds w → Q r (opened r w)) → wp (createTimerfd ms) w Q.
Proof.
  intros HQ. unfold createTimerfd. on_call r H. eapply new_fd_cases; [exact H|by intros -> _|intros Hr Hnew ->].
  rewrite (proj2 (Z.ltb_ge _ _)) by lia. on_call s H1. subst. destruct (s <? 0); [done|]. apply HQ; [lia|done].
Qed.

(** A loop that is made and destroyed. *)
Definition EventLoop_life : prog unit := f ← EventLoop_fds; EventLoop_close f.

Lemma EventLoop_life_wp w : wp EventLoop_life w (λ _ w', w' = w).
Proof.
  unfold EventLoop_life, EventLoop_fds. apply wp_bind, wp_bind. apply new_or_exit_wp; [done|done|]. intros a Ha Na.
  apply wp_bind. unfold createEventfd. apply new_or_exit_wp; [done|done|]. intros b Hb Nb.
  apply wp_bind. apply createTimerfd_wp. intros c Hc Nc. cbn in Nb, Nc. unfold EventLoop_close. cbn [wp fst snd].
  on_ctl. on_ctl. on_ctl. destruct w as [f i l s]. unfold closed, opened. cbn in *. f_equal. set_solver.
Qed.

(** ** Executions that return *)

(** [p] comes to return [a]. *)
Definition returns {A} (p : prog A) (w : World) (a : A) (w' : World) : Prop := rtc step (p, w) (Ret a, w').

Lemma returns_ret {A} (a : A) w : returns (Ret a) w a w.
Proof. apply rtc_refl. Qed.

Lemma returns_call {A} {R : Set} (c : Sys R) (k : R → prog A) r w w1 a w2 :
  kernel c w r w1 → returns (k r) w1 a w2 → returns (Call c k) w a w2.
Proof. intros Hk Hr. eapply rtc_l; [|exact Hr]. by exists r. Qed.

Lemma returns_bind {A C} (p : prog A) (f : A → prog C) w a w1 c w2 :
  returns p w a w1 → returns (f a) w1 c w2 → returns (p ≫= f) w c w2.
Proof.
  intros Hp Hf. assert (H : rtc step (p ≫= f, w) (f a, w1)); [|by (unfold returns; transitivity (f a, w1))].
  unfold returns in Hp. remember (p, w) as s0 eqn:E0. remember (Ret a, w1) as s1 eqn:E1. revert p w E0 E1.
  induction Hp as [s|s t u Hst _ IH]; intros p w -> E1; [by simplify_eq|]. destruct p as [x| | |R c0 k]; try done.
  destruct Hst as (r & Hk & Et). destruct t as [q w2']. cbn in Et, Hk. subst q u.
  eapply rtc_l; [|by apply (IH (k r) w2')]. exists r. by split.
Qed.

Lemma send_all_returns fd script : ∀ rest b ok w fuel,
  send_loop script rest = (b, Some ok) → (length script < fuel)%nat → returns (send_all fuel fd rest) w ok (taken b w).
Proof.
  induction script as [|r script IH]; intros rest b ok w fuel Hs Hf; (destruct fuel as [|fuel]; [lia|]); cbn [send_all].
  - destruct rest; [|done]. cbn in Hs. simplify_eq. rewrite taken_nil. apply returns_ret.
  - destruct rest as [|c rest]; [cbn in Hs; simplify_eq; rewrite taken_nil; apply returns_ret|]. cbn [length] in Hf. set (data := c :: rest) in *.
    destruct r as [n| |]; cbn [send_loop] in Hs.
    + destruct (send_loop script (drop n data)) as [b1 r1] eqn:E. injection Hs as <- ->.
      eapply (returns_call _ _ (Z.of_nat (n `min` length data))); [right; split; [unfold zlen; lia|reflexivity]|].
      rewrite (proj2 (Z.ltb_ge _ _)), Nat2Z.id by lia.
      assert (Ed : drop (n `min` length data) data = drop n data ∧ take (n `min` length data) data = take n data).
      { destruct (decide (n ≤ length data)%nat); [by rewrite Nat.min_l by done|].
        rewrite Nat.min_r by lia. by rewrite !drop_ge, !take_ge by lia. }
      destruct Ed as [-> ->]. rewrite <-taken_app. apply IH; [done|lia].
    + eapply (returns_call _ _ (-1)); [by left|]. eapply (returns_call _ _ EAGAIN); [done|]. apply IH; [done|lia].
    + injection Hs as <- <-. rewrite taken_nil. eapply (returns_call _ _ (-1)); [by left|].
      eapply (returns_call _ _ EOther); [done|]. apply returns_ret.
Qed.

Lemma recv_all_returns fd size pieces : ∀ acc w fuel,
  Forall (λ s, 0 < zlen s ≤ size) pieces → 0 ≤ size → (length pieces < fuel)%nat →
  returns (recv_all fuel fd size acc) w (acc ++ pieces) w.
Proof.
  induction pieces as [|p pieces IH]; intros acc w fuel Hp Hsz Hf; (destruct fuel as [|fuel]; [cbn in Hf; lia|]); cbn [recv_all].
  - rewrite app_nil_r. eapply (returns_call _ _ (Some [])); [split; [done|exact Hsz]|]. apply returns_ret.
  - apply Forall_cons in Hp as [Hp Hps]. cbn [length] in Hf. destruct p as [|c p]; [by destruct Hp as [Hp _]|].
    eapply (returns_call _ _ (Some (c :: p))); [split; [done|apply Hp]|].
    rewrite (app_assoc acc [c :: p] pieces : acc ++ (c :: p) :: pieces = _). apply IH; [done|done|lia].
Qed.

(** What the sockets can do: an address that cannot be read is refused, and a
    piece is what fits in the buffer. *)
Definition net_ok (host : str) (net : Net) : Prop :=
  (n_connect net ≠ NoSocket → inet_pton host = negb (match n_connect net with BadAddress => true | _ => false end)) ∧
  Forall (λ s, 0 < zlen s ≤ 4095) (n_recv net).

Lemma http_exchange_returns fuel host request net b r w fd :
  net_ok host net → exchange net request = (b, Some r) → 0 ≤ fd < limit w → fd ∉ fds w →
  (length (n_send net) < fuel)%nat → (length (n_recv net) < fuel)%nat →
  returns (http_exchange fuel host request) w r (taken b w).
Proof.
  intros [Haddr Hpieces] He Hfd Hnew Hf1 Hf2. unfold http_exchange.
  assert (Hd : n_connect net = NoSocket ∨ n_connect net ≠ NoSocket) by (destruct (n_connect net); auto).
  destruct Hd as [En|En].
  { unfold exchange in He. rewrite En in He. simplify_eq. rewrite taken_nil. eapply (returns_call _ _ (-1)); [by left|]. apply returns_ret. }
  eapply (returns_call _ _ fd); [right; split; [exact Hfd|by split]|]. rewrite (proj2 (Z.ltb_ge _ _)) by lia. unfold setsockopt.
  eapply (returns_call _ _ 0); [done|]. eapply (returns_call _ _ 0); [done|]. rewrite (Haddr En).
  assert (Hclose : ∀ b0 (r0 : Response), returns (_ ← call (sys_close fd); Ret r0) (taken b0 (opened fd w)) r0 (taken b0 w)).
  { intros b0 r0. eapply (returns_call _ _ tt); [reflexivity|]. rewrite closed_taken, closed_opened by done. apply returns_ret. }
  unfold exchange in He. destruct (n_connect net) eqn:Ec; [done|..]; cbn [negb].
  - simplify_eq. pose proof (Hclose []) as Hc. rewrite taken_nil in Hc. apply Hc.
  - simplify_eq. eapply (returns_call _ _ (-1)); [done|]. pose proof (Hclose []) as Hc. rewrite taken_nil in Hc. apply Hc.
  - eapply (returns_call _ _ 0); [done|]. cbn [Z.ltb Z.compare]. destruct (send_loop (n_send net) request) as [b0 [ok|]] eqn:Es; [|done].
    eapply returns_bind; [by eapply send_all_returns|]. destruct ok; cbn [negb]; simplify_eq; [|apply Hclose].
    eapply returns_bind; [by eapply (recv_all_returns fd 4095 (n_recv net) [])|]. apply Hclose.
Qed.

(** ** Theorems *)

(** C20: the HTTP client of the registry.  Whatever the kernel answers, no call is
    made on a descriptor that is not open; when the exchange ends every
    descriptor it opened is closed again, once, and the result and the bytes
    sent are those of the model [exchange] for some answers of the sockets.
    Conversely, whatever [exchange] gives for answers that sockets can give, the
    program comes to return, given as many turns of its loops as there are
    answers, and whenever a descriptor is free. *)
Theorem exchange_owns_its_socket (host request : str) (w : World) :
  (∀ fuel, executes (http_exchange fuel host request) w (λ r w', ∃ net b, exchange net request = (b, Some r) ∧ w' = taken b w)) ∧
  (∀ net b r fd, net_ok host net → exchange net request = (b, Some r) → 0 ≤ fd < limit w → fd ∉ fds w →
     ∀ fuel, (length (n_send net) + length (n_recv net) < fuel)%nat → returns (http_exchange fuel host request) w r (taken b w)).
Proof.
  split; [intros fuel; apply wp_executes, http_exchange_wp|]. intros. eapply http_exchange_returns; [done|done|done|done|lia|lia].
Qed.

(** The same for the etcd client. *)
Theorem etcd_owns_its_socket (fuel : nat) (e : EtcdClient) (path body : str) (w : World) :
  executes (etcd_post fuel e path body) w (λ resp w', ∃ c, resp = EtcdClient.post e c path body ∧ w' = taken (etcd_wire e c path body) w).
Proof. apply wp_executes, etcd_post_wp. Qed.

(** The same for the JSON RPC client, address lists included, when the request
    can be dumped; when [dump] throws, the socket is lost with the exception. *)
Theorem rpc_owns_its_socket {J} `{Json J, JsonAccess J} (fuel : nat) (host : str) (port id : Z) (m : str) (params : J) (w : World) :
  executes (rpc_call fuel host port id m params) w (λ r w', match call_request host id m params with
    | Some request => ∃ k pieces,
        w' = taken (take k request) w ∧ (r = call_result pieces ∨ k = 0%nat ∧ r = Some (failure #"connection failed"))
    | None => (r = Some (failure #"connection failed") ∧ w' = w) ∨ (r = None ∧ ∃ sock, sock ∉ fds w ∧ w' = opened sock w)
    end).
Proof. apply wp_executes, rpc_call_wp. Qed.

(** The connection pool's connections, for a numeric address and in a process
    whose descriptors fit in a set of [select]: a connection is one new
    descriptor, a failure none. *)
Theorem pool_connection (host : str) (w : World) :
  limit w ≤ FD_SETSIZE → inet_pton host = true → executes (createConnection host) w (one_fd w).
Proof. intros. by apply wp_executes, createConnection_wp. Qed.

(** The loop gives back the three descriptors it made. *)
Theorem loop_closes_its_fds (w : World) : executes EventLoop_life w (λ _ w', w' = w).
Proof. apply wp_executes, EventLoop_life_wp. Qed.

(** A connection that is accepted goes to the callback, or is closed. *)
Theorem accepted_or_closed (fd : Z) (has_cb : bool) (w : World) : fd ∈ fds w →
  executes (accept_one fd has_cb) w (λ r w', match r with Some c => has_cb = true ∧ one_fd w c w' ∧ 0 ≤ c | None => w' = w end).
Proof. intros. by apply wp_executes, accept_one_wp. Qed.

(** ** Concrete runs *)

Definition small_world : World := mkWorld {[0; 1; 2]} ∅ 1024 [].

Lemma pool_connection_witness :
  limit small_world ≤ FD_SETSIZE ∧ inet_pton #"127.0.0.1" = true ∧ executes (createConnection #"127.0.0.1") small_world (one_fd small_world).
Proof. split_and!; [by compute|reflexivity|apply (pool_connection #"127.0.0.1" small_world); [by compute|reflexivity]]. Defined.

Lemma accepted_or_closed_witness :
  executes (accept_one 2 true) small_world (λ r w', match r with Some c => true = true ∧ one_fd small_world c w' ∧ 0 ≤ c | None => w' = small_world end).
Proof. apply (accepted_or_closed 2 true small_world). by compute. Defined.

(** [inet_pton] on some texts. *)
Example some_addresses :
  inet_pton <$> [ #"127.0.0.1"; #"255.255.255.255"; #"256.0.0.1"; #"01.2.3.4"; #"1.2.3"; #"1.2.3.4."; #"localhost"] = [true; true; false; false; false; false; false].
Proof. reflexivity. Qed.

Ltac take_step r w' := eapply (rtc_l _ _ (_, w')); [exists r; split; [|reflexivity]|].

(** A name that is not numeric: the address given to [connect] was never
    written. *)
Example name_is_not_resolved :
  ∃ s, rtc step (createConnection #"localhost", small_world) s ∧ ¬ safe_at (λ _ _, True) s.
Proof.
  eexists. split.
  - take_step 3 (opened 3 small_world); [right; split_and!; [done|done|by compute|reflexivity]|].
    take_step 0 (opened 3 small_world); [reflexivity|]. take_step 0 (opened 3 small_world); [reflexivity|]. apply rtc_refl.
  - by intros [_ [=]].
Qed.

(** A process with many descriptors: [FD_SET] is given one past its set. *)
Definition big_world : World := mkWorld ∅ ∅ 65536 [].

Example descriptor_past_the_set :
  ∃ s, rtc step (createConnection #"10.0.0.1", big_world) s ∧ ¬ safe_at (λ _ _, True) s.
Proof.
  eexists. split.
  - take_step 1024 (opened 1024 big_world); [right; split_and!; [done|done|by compute|reflexivity]|].
    take_step 0 (opened 1024 big_world); [reflexivity|]. take_step 0 (opened 1024 big_world); [reflexivity|].
    take_step (-1) (opened 1024 big_world); [reflexivity|]. take_step EINPROGRESS (opened 1024 big_world); [reflexivity|]. apply rtc_refl.
  - by intros [_ H%Z.ltb_lt].
Qed.

(** An exchange that succeeds, with a send in two parts. *)
Example exchange_runs :
  ∃ s, rtc step (http_exchange 9 #"127.0.0.1" #"ping", small_world) s ∧
    s = (Ret (mkReply 204 [] true), taken #"ping" small_world).
Proof.
  eexists. split.
  - take_step 3 (opened 3 small_world); [right; split_and!; [done|done|by compute|reflexivity]|].
    take_step 0 (opened 3 small_world); [reflexivity|]. take_step 0 (opened 3 small_world); [reflexivity|].
    take_step 0 (opened 3 small_world); [reflexivity|].
    take_step 1 (taken #"p" (opened 3 small_world)); [right; by split|].
    take_step 3 (taken #"ping" (opened 3 small_world)); [right; by split|].
    take_step (Some (#"HTTP/1.1 204 No Content" ++ crlf2)) (taken #"ping" (opened 3 small_world)); [by split|].
    take_step (Some ([] : str)) (taken #"ping" (opened 3 small_world)); [by split|].
    take_step tt (taken #"ping" small_world); [|apply rtc_refl].
    cbn. by rewrite closed_taken, closed_opened by by compute.
  - reflexivity.
Qed.

Lemma exchange_owns_its_socket_witness :
  let net := mkNet Connected [Again; Sent 3; Sent 1] [ #"HTTP/1.1 204 No"; #" Content" ++ crlf2] in
  returns (http_exchange 6 #"127.0.0.1" #"ping") small_world (mkReply 204 [] true) (taken #"ping" small_world).
Proof.
  intros net. apply (proj2 (exchange_owns_its_socket #"127.0.0.1" #"ping" small_world) net #"ping" (mkReply 204 [] true) 3).
  - split; [reflexivity|]. repeat (apply Forall_cons_2; [by compute|]). by apply Forall_nil.
  - vm_compute. reflexivity.
  - by compute.
  - by compute.
  - cbn. lia.
Defined.
