(* ===== verification/System.v ===== *)
(** * System: signals, the console logger, times and addresses in text

    Models [src/util/SignalHandler.h], [src/net/logger.h] and [logger.cc],
    [src/net/Timestamp.cc], [src/net/InetAddress.cc] and the names of
    [src/net/Thread.cc].  The zone of [localtime] is an argument: its answer. *)

From S2P Require Import Prelude.

Open Scope Z_scope.

(** ** Signals *)

Module SignalHandler.

Definition SIGINT : Z := 2.
Definition SIGPIPE : Z := 13.
Definition SIGTERM : Z := 15.

(** What the process does with a signal. *)
Inductive Disposition := SIG_DFL | SIG_IGN | Handler.

Section Signals.
Context {C : Type}.

(** The registered callbacks, and the dispositions the kernel has. *)
Record t := mk { callbacks_ : gmap Z (list C); actions : gmap Z Disposition }.

Definition new : t := mk ∅ ∅.

Definition registered (h : t) (signum : Z) : list C := default [] (callbacks_ h !! signum).

Definition registerHandler (h : t) (signum : Z) (cb : C) : t := mk (<[signum := registered h signum ++ [cb]]> (callbacks_ h)) (actions h).

Definition ignore (h : t) (signum : Z) : t := mk (callbacks_ h) (<[signum := SIG_IGN]> (actions h)).

(** [start]: a handler for every signal with an entry. *)
Definition start (h : t) : t := mk (callbacks_ h) (((λ _, Handler) <$> callbacks_ h) ∪ actions h).

Definition setupGracefulExit (h : t) (onExit : C) : t := start (registerHandler (registerHandler h SIGINT onExit) SIGTERM onExit).

(** [signalHandler]: the callbacks it runs. *)
Definition signalHandler (h : t) (signum : Z) : list C :=
  match callbacks_ h !! signum with Some l => l | None => [] end.

(** A signal arrives: the callbacks that run; [None]: the default, which for
    the signals here ends the process. *)
Definition deliver (h : t) (signum : Z) : option (list C) :=
  match default SIG_DFL (actions h !! signum) with SIG_DFL => None | SIG_IGN => Some [] | Handler => Some (signalHandler h signum) end.

Definition ignorePipe (h : t) : t := ignore h SIGPIPE.
Definition gracefulExit (h : t) (onExit : C) : t := setupGracefulExit h onExit.

Inductive Op := Register (signum : Z) (cb : C) | Ignore (signum : Z) | Start | Graceful (onExit : C).

Definition apply (h : t) (o : Op) : t :=
  match o with Register s cb => registerHandler h s cb | Ignore s => ignore h s | Start => start h | Graceful cb => gracefulExit h cb end.

(** What was registered for a signal, in order. *)
Definition wanted (signum : Z) (o : Op) : list C :=
  match o with
  | Register s cb => if bool_decide (s = signum) then [cb] else []
  | Graceful cb => if bool_decide (signum = SIGINT ∨ signum = SIGTERM) then [cb] else []
  | _ => []
  end.

Lemma registered_register h s cb signum :
  registered (registerHandler h s cb) signum = registered h signum ++ (if bool_decide (s = signum) then [cb] else []).
Proof.
  unfold registered at 1, registerHandler. cbn. destruct (decide (s = signum)) as [->|Hn].
  - by rewrite lookup_insert_eq, bool_decide_true.
  - rewrite lookup_insert_ne, bool_decide_false, app_nil_r by done. done.
Qed.

Lemma registered_apply h o signum : registered (apply h o) signum = registered h signum ++ wanted signum o.
Proof.
  destruct o as [s cb|s| |cb]; cbn [apply wanted].
  - apply registered_register.
  - by rewrite app_nil_r.
  - by rewrite app_nil_r.
  - change (registered (gracefulExit h cb) signum) with (registered (registerHandler (registerHandler h SIGINT cb) SIGTERM cb) signum).
    rewrite !registered_register, <-app_assoc. f_equal. unfold SIGINT, SIGTERM.
    repeat case_bool_decide; try done; lia.
Qed.

(** After [start], a signal runs everything that was registered for it, once
    each and in order; a signal nothing was registered for keeps what it had. *)
Theorem start_delivers (ops : list Op) (signum : Z) :
  let h := foldl apply new ops in
  deliver (start h) signum = if bool_decide (mjoin (wanted signum <$> ops) = []) then deliver h signum else Some (mjoin (wanted signum <$> ops)).
Proof.
  cbv zeta. assert (Hr : registered (foldl apply new ops) signum = mjoin (wanted signum <$> ops)
    ∧ (∀ l, callbacks_ (foldl apply new ops) !! signum = Some l → l ≠ [])).
  { induction ops as [|o ops IH] using rev_ind; [split; [done|by intros l Hl]|]. rewrite foldl_app, fmap_app, join_app. cbn [foldl].
    destruct IH as [IH1 IH2]. rewrite registered_apply, IH1. split; [cbn; by rewrite app_nil_r|].
    assert (Hreg : ∀ h s cb, (∀ l, callbacks_ h !! signum = Some l → l ≠ []) → ∀ l, callbacks_ (registerHandler h s cb) !! signum = Some l → l ≠ []).
    { intros h s cb Hh l. cbn. destruct (decide (s = signum)) as [->|Hn].
      - rewrite lookup_insert_eq. intros [= <-]. by destruct (registered h signum).
      - rewrite lookup_insert_ne by done. apply Hh. }
    destruct o as [s cb|s| |cb]; cbn [apply].
    - by apply Hreg.
    - exact IH2.
    - exact IH2.
    - apply (Hreg (registerHandler _ SIGINT cb) SIGTERM cb). by apply Hreg. }
  destruct Hr as [H1 H2]. unfold deliver, start. cbn [actions callbacks_ signalHandler]. set (h := foldl apply new ops) in *.
  rewrite lookup_union, lookup_fmap, <-H1. unfold registered. destruct (callbacks_ h !! signum) as [l|] eqn:E.
  - cbn [fmap option_fmap option_map default from_option]. rewrite bool_decide_false by (cbn; by apply H2).
    destruct (actions h !! signum); cbn; unfold signalHandler; cbn; by rewrite E.
  - cbn. rewrite (left_id None _). unfold signalHandler. cbn. by rewrite E.
Qed.
End Signals.

(** A handler registered after [start] for a new signal is not installed. *)
Example registered_late : deliver (registerHandler (start (registerHandler new SIGINT 1%nat)) SIGTERM 2%nat) SIGTERM = None.
Proof. reflexivity. Qed.

(** Two graceful exits: both run, on either signal. *)
Example two_exits : deliver (gracefulExit (gracefulExit new 1%nat) 2%nat) SIGTERM = Some [1; 2]%nat.
Proof. reflexivity. Qed.

End SignalHandler.

(** ** The console logger *)

Module Logger.

Inductive LogLevel := INFO | DEBUG | ERROR | FATAL.

#[export] Instance LogLevel_eq_dec : EqDecision LogLevel.
Proof. solve_decision. Defined.

Definition label (l : LogLevel) : str :=
  match l with INFO => #"[INFO]" | DEBUG => #"[DEBUG]" | ERROR => #"[ERROR]" | FATAL => #"[FATAL]" end.

(** The one level of the logger, and what was written, the latest last. *)
Record t := mk { logLevel_ : LogLevel; out : list (LogLevel * str) }.

Definition new : t := mk INFO [].

Definition setLogLevel (g : t) (l : LogLevel) : t := mk l (out g).
Definition log (g : t) (msg : str) : t := mk (logLevel_ g) (out g ++ [(logLevel_ g, msg)]).

(** [snprintf(buf, 1024, ...)]. *)
Definition formatted (msg : str) : str := take 1023 (c_str msg).

(** A macro is two steps. *)
Inductive Step := SetLevel (l : LogLevel) | Write (msg : str).

Definition statement (l : LogLevel) (msg : str) : list Step := [SetLevel l; Write (formatted msg)].

Definition step (g : t) (s : Step) : t := match s with SetLevel l => setLogLevel g l | Write m => log g m end.

(** One thread: every line has its own level. *)
Theorem one_thread (l : list (LogLevel * str)) (g : t) :
  out (foldl step g (mjoin ((λ x, statement x.1 x.2) <$> l))) = out g ++ ((λ x, (x.1, formatted x.2)) <$> l).
Proof.
  revert g. induction l as [|[lv m] l IH]; intros g; [cbn; by rewrite app_nil_r|]. rewrite fmap_cons. cbn [mjoin list_join].
  rewrite foldl_app, IH. cbn. by rewrite <-app_assoc.
Qed.

(** [interleaves a b c]: [c] has the steps of two threads, each in its order. *)
Inductive interleaves : list Step → list Step → list Step → Prop :=
  | il_nil : interleaves [] [] []
  | il_left s a b c : interleaves a b c → interleaves (s :: a) b (s :: c)
  | il_right s a b c : interleaves a b c → interleaves a (s :: b) (s :: c).

Definition messages (l : list Step) : list str := omap (λ s, match s with Write m => Some m | _ => None end) l.

Lemma step_messages g l : (out (foldl step g l)).*2 = (out g).*2 ++ messages l.
Proof.
  revert g. induction l as [|[lv|m] l IH]; intros g; cbn; [by rewrite app_nil_r|apply (IH (setLogLevel g lv))|]. rewrite IH. cbn. rewrite fmap_app, <-app_assoc. done.
Qed.

(** Two threads: no message is lost or written twice, and each thread's are in
    its order; the levels are another matter. *)
Theorem two_threads (a b c : list Step) (g : t) :
  interleaves a b c → ∃ ms, (out (foldl step g c)).*2 = (out g).*2 ++ ms ∧ messages a `sublist_of` ms ∧ messages b `sublist_of` ms ∧
    ms ≡ₚ messages a ++ messages b.
Proof.
  intros H. exists (messages c). split; [apply step_messages|]. induction H as [|s a b c H (IH1 & IH2 & IH3)|s a b c H (IH1 & IH2 & IH3)].
  - done.
  - destruct s as [lv|m]; cbn; [done|]. split_and!; [by constructor|by constructor|]. by rewrite IH3.
  - destruct s as [lv|m]; cbn; [done|]. split_and!; [by constructor|by constructor|]. rewrite IH3. by apply Permutation_middle.
Qed.

Lemma two_threads_witness : ∃ ms,
  (out (foldl step new [SetLevel INFO; SetLevel ERROR; Write #"a"; Write #"b"])).*2 = ms ∧ ms ≡ₚ [ #"a"; #"b" ].
Proof.
  destruct (two_threads [SetLevel INFO; Write #"a"] [SetLevel ERROR; Write #"b"] [SetLevel INFO; SetLevel ERROR; Write #"a"; Write #"b"] new)
    as (ms & E & _ & _ & Hp); [repeat constructor|]. exists ms. split; [exact E|exact Hp].
Defined.

(** A line under the level another thread has set in between. *)
Example wrong_label :
  interleaves (statement INFO #"started") (statement ERROR #"failed")
    [SetLevel INFO; SetLevel ERROR; Write #"started"; Write #"failed"] ∧
  out (foldl step new [SetLevel INFO; SetLevel ERROR; Write #"started"; Write #"failed"]) = [(ERROR, #"started"); (ERROR, #"failed")].
Proof. split; [apply il_left, il_right, il_left, il_right, il_nil|reflexivity]. Qed.

End Logger.

(** ** Times *)

Module Timestamp.

(** [struct tm], as [localtime] fills it. *)
Record tm := mkTm { tm_sec : Z; tm_min : Z; tm_hour : Z; tm_mday : Z; tm_mon : Z; tm_year : Z }.

(** [%wd] and [%0wd] for a number that is not negative. *)
Definition pad (c : ascii) (w : nat) (n : Z) : str := replicate (w - length (to_string n)) c ++ to_string n.

(** [now] keeps the seconds. *)
Definition now (time : Z) : Z := time.

Definition toString (localtime : Z → tm) (microSecondsSinceEpoch : Z) : str :=
  let t := localtime microSecondsSinceEpoch in
  take 127 (pad " " 4 (tm_year t + 1900) ++ #"/" ++ pad "0" 2 (tm_mon t + 1) ++ #"/" ++ pad "0" 2 (tm_mday t) ++ #" " ++
    pad "0" 2 (tm_hour t) ++ #":" ++ pad "0" 2 (tm_min t) ++ #":" ++ pad "0" 2 (tm_sec t)).

Example some_time : toString (λ _, mkTm 5 4 3 2 0 125) 1735787045 = #"2025/01/02 03:04:05".
Proof. reflexivity. Qed.

(** The ranges [localtime] keeps, in years of four digits. *)
Definition in_range (t : tm) : Prop :=
  0 ≤ tm_sec t ≤ 60 ∧ 0 ≤ tm_min t < 60 ∧ 0 ≤ tm_hour t < 24 ∧ 1 ≤ tm_mday t ≤ 31 ∧ 0 ≤ tm_mon t < 12 ∧ 1000 ≤ tm_year t + 1900 < 10000.

Lemma pad_length c k n : 0 ≤ n < 10 ^ Z.of_nat (S k) → length (pad c (S k) n) = S k.
Proof.
  intros Hn. unfold pad, to_string. rewrite (proj2 (Z.ltb_ge _ _)) by lia. pose proof (to_dec_length n k Hn).
  rewrite length_app, length_replicate. lia.
Qed.

(** Every time is written in 19 characters. *)
Theorem toString_width (localtime : Z → tm) (us : Z) : in_range (localtime us) → length (toString localtime us) = 19%nat.
Proof.
  intros (H1 & H2 & H3 & H4 & H5 & H6). unfold toString. rewrite length_take, !length_app.
  rewrite (pad_length _ 3) by (cbn; lia). rewrite !(pad_length _ 1) by (cbn; lia). done.
Qed.

Lemma toString_width_witness : length (toString (λ _, mkTm 5 4 3 2 0 125) 1735787045) = 19%nat.
Proof. apply (toString_width (λ _, mkTm 5 4 3 2 0 125) 1735787045). unfold in_range. cbn. lia. Defined.

End Timestamp.

(** ** Addresses *)

Module InetAddress.

(** [sockaddr_in]: the port and the four bytes, in network order. *)
Record sockaddr_in := mkAddr { sin_port : Z; sin_addr : Z * Z * Z * Z }.

(** [htons] and [ntohs] on a little-endian machine. *)
Definition swap16 (x : Z) : Z := (x mod 256) * 256 + x / 256.

(** The constructor; [inet_addr] is the C library's. *)
Definition new (inet_addr : str → Z * Z * Z * Z) (port : Z) (ip : str) : sockaddr_in := mkAddr (swap16 (u16 port)) (inet_addr (c_str ip)).

(** [inet_ntop]. *)
Definition ntop (a : Z * Z * Z * Z) : str :=
  let '(a, b, c, d) := a in to_dec a ++ #"." ++ to_dec b ++ #"." ++ to_dec c ++ #"." ++ to_dec d.

Definition toPort (a : sockaddr_in) : Z := swap16 (sin_port a).

(** [toIpPort], in its buffer of 64 bytes. *)
Definition toIpPort (a : sockaddr_in) : str :=
  let ip := ntop (sin_addr a) in
  ip ++ take (63 - length ip) (#":" ++ to_dec (toPort a)).

Definition is_addr (a : sockaddr_in) : Prop :=
  let '(b1, b2, b3, b4) := sin_addr a in
  0 ≤ sin_port a < 65536 ∧ 0 ≤ b1 < 256 ∧ 0 ≤ b2 < 256 ∧ 0 ≤ b3 < 256 ∧ 0 ≤ b4 < 256.

Lemma swap16_range x : 0 ≤ x < 65536 → 0 ≤ swap16 x < 65536.
Proof. intros. unfold swap16. assert (0 ≤ x / 256 < 256) by (split; [apply Z.div_pos|apply Z.div_lt_upper_bound]; lia). pose proof (Z.mod_pos_bound x 256). lia. Qed.

Lemma swap16_swap x : 0 ≤ x < 65536 → swap16 (swap16 x) = x.
Proof.
  intros. unfold swap16. assert (Hq : 0 ≤ x / 256 < 256) by (split; [apply Z.div_pos|apply Z.div_lt_upper_bound]; lia).
  rewrite (Z.add_comm _ (x / 256)), Z.mod_add, (Z.mod_small (x / 256)), Z.div_add, (Z.div_small (x / 256)) by lia.
  rewrite (Z.div_mod x 256) at 3 by lia. lia.
Qed.

(** The port that was given is the port that is told. *)
Theorem port_kept (inet_addr : str → Z * Z * Z * Z) (port : Z) (ip : str) : toPort (new inet_addr port ip) = u16 port.
Proof. unfold toPort, new. cbn. apply swap16_swap. unfold u16. apply Z.mod_pos_bound. lia. Qed.

Lemma dec_sep n m c r r' : 0 ≤ n → 0 ≤ m → digit_in 10 c = None → to_dec n ++ c :: r = to_dec m ++ c :: r' → n = m ∧ r = r'.
Proof.
  intros Hn Hm Hc E. pose proof (scan_digits_digits 10 n (c :: r) ltac:(lia) Hn Hc) as H1.
  pose proof (scan_digits_digits 10 m (c :: r') ltac:(lia) Hm Hc) as H2. unfold to_dec in E. rewrite E, H2 in H1. by simplify_eq.
Qed.

Lemma ntop_length a : is_addr a → (length (ntop (sin_addr a)) ≤ 15)%nat.
Proof.
  unfold is_addr. destruct (sin_addr a) as [[[b1 b2] b3] b4]. intros (_ & H1 & H2 & H3 & H4). unfold ntop. rewrite !length_app.
  assert (Hd : ∀ b, 0 ≤ b < 256 → (length (to_dec b) ≤ 3)%nat) by (intros b Hb; apply to_dec_length; cbn; lia).
  pose proof (Hd _ H1). pose proof (Hd _ H2). pose proof (Hd _ H3). pose proof (Hd _ H4). change (length #".") with 1%nat. lia.
Qed.

(** The buffer is never too small. *)
Lemma toIpPort_whole a : is_addr a → toIpPort a = ntop (sin_addr a) ++ #":" ++ to_dec (toPort a).
Proof.
  intros Ha. pose proof (ntop_length a Ha) as Hl. unfold toIpPort. f_equal. apply take_ge. rewrite length_app.
  assert (Hp : (length (to_dec (toPort a)) ≤ 5)%nat); [|change (length #":") with 1%nat; lia]. apply to_dec_length. cbn.
  unfold is_addr in Ha. destruct (sin_addr a) as [[[b1 b2] b3] b4]. pose proof (swap16_range (sin_port a)). unfold toPort. lia.
Qed.

(** ** Two addresses that are written alike are the same address: the tables
    keyed by the text keep them apart. *)
Theorem toIpPort_injective (a a' : sockaddr_in) : is_addr a → is_addr a' → toIpPort a = toIpPort a' → a = a'.
Proof.
  intros Ha Ha' E. rewrite !toIpPort_whole in E by done. destruct a as [p [[[b1 b2] b3] b4]], a' as [p' [[[c1 c2] c3] c4]].
  destruct Ha as (Hp & H1 & H2 & H3 & H4), Ha' as (Hp' & K1 & K2 & K3 & K4). cbn [sin_port sin_addr toPort] in *. unfold ntop in E.
  rewrite <-!app_assoc in E.
  apply (dec_sep b1 c1 "."%char) in E as [-> E]; [|lia..|done]. apply (dec_sep b2 c2 "."%char) in E as [-> E]; [|lia..|done].
  apply (dec_sep b3 c3 "."%char) in E as [-> E]; [|lia..|done]. apply (dec_sep b4 c4 ":"%char) in E as [-> E]; [|lia..|done].
  pose proof (swap16_range p Hp). pose proof (swap16_range p' Hp'). unfold toPort in E. cbn [sin_port] in E.
  apply to_dec_inj in E; [|lia..].
  rewrite <-(swap16_swap p), <-(swap16_swap p'), E by done. done.
Qed.

Lemma toIpPort_injective_witness :
  toIpPort (mkAddr 36895 (127, 0, 0, 1)) = #"127.0.0.1:8080" ∧ toIpPort (mkAddr 36895 (127, 0, 0, 1)) ≠ toIpPort (mkAddr 36895 (127, 0, 0, 2)).
Proof.
  split; [reflexivity|]. intros E. apply toIpPort_injective in E; [discriminate E|unfold is_addr; cbn; lia..].
Defined.

End InetAddress.

(** ** The names of threads *)

Module Thread.

(** [setDefaultName]: the name, and the count. *)
Definition setDefaultName (numCreated_ : Z) (name : str) : str * Z :=
  let num := i32 (numCreated_ + 1) in
  (match name with [] => take 31 (#"Thread" ++ to_string num) | _ => name end, num).

(** The threads made in a row. *)
Fixpoint names (numCreated_ : Z) (given : list str) : list str :=
  match given with [] => [] | n :: given => let '(x, c) := setDefaultName numCreated_ n in x :: names c given end.

Example some_names : names 0 [ []; #"loop"; [] ] = [ #"Thread1"; #"loop"; #"Thread3" ].
Proof. reflexivity. Qed.

End Thread.
